(* ===== verification/_CoqProject ===== *)
-Q . S2P
Prelude.v
GoStrconv.v
GoSort.v
BTree.v
Store.v
StoreProps.v
HashRing.v
HashRingProps.v
GoCrypto.v
Merkle.v
MerkleProps.v
Resp.v
RespProps.v
EventRing.v
RingInterface.v
GoUtf8.v
Gossip.v
Instances.v
GossipProps.v
Cluster.v
GoNet.v
GoIP.v
GoJson.v
GoJsonDecode.v
Server.v
ServerProps.v
Mgmt.v
EventStream.v
Transport.v
TransportInterface.v
Lifecycle.v
GossipLoops.v
Main.v
ServerReplies.v
Convergence.v
Failover.v
AtomicMap.v
ClusterNodes.v
Durability.v
