(* ===== verification/Prelude.v ===== *)
(** * Verification of hapartition

    hapartition is a partitioned, replicated in-memory key-value store that
    speaks the Redis protocol.  A node has a versioned store, a consistent hash
    ring that says which nodes hold a key, a gossip handler that replicates
    writes to those nodes and reconciles stores in the background, a
    Redis-compatible server for clients and an HTTP server for management.
    This library models these parts as executable Gallina functions, one per
    function of the source, and proves what makes each of them correct.

    ** The program and the files

    - pkg/store (store.go): [Store] is the model, [StoreProps] the theorems.
      The record [Store] holds the B-tree, the version clock and the cached
      length; a method is a state transformer, atomic because the source holds
      the store's mutex.  github.com/google/btree is the class [BTreeOps] with
      the laws [BTreeLaws] (file [BTree], which also has a sorted-list
      instance).
    - internal/hashring (hashring.go): [HashRing] and [HashRingProps].
      [RingInterface] is the Go interface [Hashring] as a class with the laws
      its clients rely on, and the instance [consistent] that discharges them.
      xxHash is the class [XXHash].
    - pkg/merkle (merkle.go): [Merkle] and [MerkleProps], over the SHA-256 and
      FNV-1a of [GoCrypto].
    - pkg/api (types.go, reader.go, writer.go): [Resp] and [RespProps].  The
      reader is a state-and-error monad over the bytes still to be read, with
      the 4096-byte buffer of bufio made explicit where it matters.
    - internal/gossip (gossip.go, transport.go): [EventRing] is the event log,
      [Gossip] the handler, [GossipProps] its theorems, [GossipLoops] its
      goroutines and [Leave] as a step relation, [Cluster] a system of
      handlers that write over an unreliable network and [Convergence] one
      that only reconciles, both as step relations.  [Failover] composes
      [Cluster] with the ring and the server, [Durability] also with
      [Convergence], and [AtomicMap] with the clients' commands on all
      servers.  Protobuf is the class [Proto] with the laws [ProtoLaws]; the
      order in which Go ranges over a map is the class [MapRange].
    - internal/gossip (memberlist_transport.go, tls_transport.go): [Transport],
      the adapter to memberlist and the TLS streams, over the answers of these
      libraries.  [TransportInterface] is the Go interface [GossipTransport]
      as a class with laws, the adapter as its instance, and the handler's
      calls composed with any instance.
    - internal/server (server.go): [Server] and [ServerProps] for the commands
      and the connection loop, [ServerReplies] for the types of the replies
      and the slot table, [ClusterNodes] for the text of CLUSTER NODES as a
      client reads it, [Lifecycle] for the accept loop, [Shutdown] and [Wait]
      as a step relation.
    - internal/mgmt (mgmt.go): [Mgmt] for the server and its handlers,
      [EventStream] for the JSON texts and the stream as a client reads it.
    - cmd/hapartition (main.go): [Main].
    - The parts of the Go library in use: [GoStrconv] (Itoa, Atoi), [GoSort]
      (sort.Slice by its contract, sort.Search by its code), [GoCrypto]
      (SHA-256, FNV-1a, big-endian integers), [GoUtf8] (utf8.ValidString),
      [GoNet] (net.SplitHostPort, strings.ToUpper, strings.Join), [GoIP]
      (net.ParseIP, IsLoopback), [GoJson] (the encoder's strings),
      [GoJsonDecode] (the decoder, with its syntax errors).
    - [Instances]: concrete values of all parameters, with proofs of the laws;
      the modules named [...Examples] apply the theorems to them.
    - This file: machine integers, byte order of strings, lemmas on lists and
      sets, the rewriting and resolution hints and the tactics of the library.

    ** How the parts interact

    The server checks ownership on the ring, writes to the store and hands the
    entry to the gossip handler, which applies it once more, sends it to the
    other replicas and counts their acknowledgements.  The server, the
    management server and the handler share one store and one ring; in the
    model the handler's record owns both and the server reaches them through
    it ([Server.Backend]).  What the environment decides is an argument: which
    sends are accepted, which acknowledgements arrive before the deadline, the
    members the transport reports, the clock, request identifiers.  In
    [Cluster] these choices are the non-determinism of the step relation: a
    packet may be lost, delayed, duplicated and reordered.

    ** What is proved

    - Store: every history of calls keeps the container, the clock and the
      length consistent; [SetWithVersion] implements the last-writer-wins
      merge of the abstract map; replicas that receive the same writes in any
      order converge; local writes win while the clock has room, and are lost
      when it wraps; deletion hides exactly the given keys.
    - Ring: it refines the table of members; owner and replicas are the nearest
      distinct nodes clockwise; a membership change moves only the keys it has
      to; nodes with the same members agree; slot ranges tile the slots.
    - Merkle tree: its structure, and that hashes differ exactly where the live
      contents do, as long as SHA-256 does not collide on the hashed inputs.
    - RESP: the parser inverts the encoder, one value or a pipeline, for values
      whose texts have no line feeds and whose sizes keep the limits; the
      buffered line loop is a search for a line feed; everything read respects
      the limits; the writer delivers the bytes or a prefix and an error.
    - Gossip: a quorum write succeeds exactly with enough distinct
      acknowledgements; with a stable membership the whole cluster is one atomic
      map to its clients (a refinement, by forward simulation); in every
      execution of a cluster a successful write is held by that many of the coordinator and the key's replicas and stays
      so, and the acknowledging nodes are members of the transport; when nodes
      leave, a write all replicas acknowledged is still served by the node the
      ring then gives its key to; a write with concern [w] outlives fewer than
      [w] failed nodes, whatever rings the others have then, once their states
      have been exchanged; exchanges of state make replicas agree, under every
      schedule that spreads the states, and the rounds of the loops are
      such a schedule; no history panics or undoes a write; after [Leave] the
      goroutines return within three steps of their own unless a ticker fires;
      the event log and its subscribers are bounded queues.
    - Server and management: SET, GET and DEL against the abstract map,
      redirects, authentication, termination of connections; every reply has
      the type of its command, can be encoded and is read back; CLUSTER SLOTS
      and, for names and addresses without spaces and line feeds, the text of
      CLUSTER NODES list every slot once with its owner; the management
      handlers, their authentication; the JSON of a join request joins the
      address it names; the JSON answers are read back field by field, up to
      bytes that are not UTF-8, and the event stream frame by frame; the interleavings of accepting and shutting down.
    - Command line: without a token exactly the hosts that are not loopback are
      refused; a node that runs is assembled consistently and meets the hypotheses of the
      other theorems; whatever fails, what was started is stopped.
    - Transports: the address a node advertises is the one clients are sent to;
      only streams that completed the TLS handshake reach memberlist.
    - Behaviour at the limits, stated as theorems of their own: the version
      clock at the largest int64, more than 2^32 leaves, one leaf, entries that
      are not valid UTF-8, command names that contain line breaks, discovery
      that fails at the start.

    ** Bounds and fuel

    Integers are in [Z], with the wrap-around of 64 bits written out where the
    code can reach it.  [Resp.readLine] has fuel 17: sixteen full buffers reach
    the limit of 65536 bytes ([readLine_refines] shows it always suffices).
    [Resp.buf_Write] has fuel 3: topping up, one direct write, the copy
    ([WriteValue_delivers]).  Arrays recurse on the 32 levels the reader
    allows.  [Server.handleConn] has one round more than the connection has
    bytes, and every value takes at least one byte ([handleConn_terminates]).
    [Convergence.sweep] gives every node as many ticks as there are members,
    one more than it has peers.  [GoJsonDecode.parse_value] has twice the
    length of the input and two more ([parse_value_total]).  All other loops are structural or folds.

    ** What is not modelled

    hashicorp/memberlist, crypto/tls, net/http and the protobuf runtime are
    libraries: what they answer is an argument.  The parsing of the flags is
    taken from the library as a given value.  Time-outs are choices of the environment, not
    durations.  The callbacks memberlist makes while it is being created are
    steps of [GossipLoops], not part of [Main.main_start].  The static
    dashboard, generated protobuf code and the deployment files have no logic
    of their own to model.  A node of [Cluster] that stops does not come back
    with an empty store, and its store calls are made while the version clock
    has room.  Membership changes are steps of [Cluster] and precede the
    exchanges of [Durability], which start with nothing in flight; in
    [AtomicMap] the membership is fixed, since while it changes two nodes may
    both take themselves for the owner of a key. *)

From Stdlib Require Export Ascii.
From stdpp Require Export base gmap sets list strings sorting.
From Stdlib Require Export ZArith Lia.

(** ** Machine integers

    Go's [int] and [int64] are 64-bit two's complement, [uint64] and [uint32]
    are unsigned; arithmetic wraps around silently.  Values are kept in [Z] and
    the wrap-around is written out where the source can reach it. *)

Module GoInt.
Local Open Scope Z_scope.

Definition maxInt64 : Z := 2 ^ 63 - 1.
Definition minInt64 : Z := - 2 ^ 63.
Definition maxUint64 : Z := 2 ^ 64 - 1.

Definition uint64 (z : Z) : Z := z mod 2 ^ 64.
Definition uint32 (z : Z) : Z := z mod 2 ^ 32.

(** Conversion to a signed 64-bit integer. *)
Definition int64 (z : Z) : Z := (z + 2 ^ 63) mod 2 ^ 64 - 2 ^ 63.

Definition in_int64 (z : Z) : Prop := minInt64 <= z <= maxInt64.
Definition in_uint64 (z : Z) : Prop := 0 <= z <= maxUint64.

#[export] Instance in_int64_dec z : Decision (in_int64 z).
Proof. unfold in_int64. apply _. Defined.
#[export] Instance in_uint64_dec z : Decision (in_uint64 z).
Proof. unfold in_uint64. apply _. Defined.

Lemma int64_id z : in_int64 z → int64 z = z.
Proof.
  unfold in_int64, int64, minInt64, maxInt64. intros ?.
  rewrite Z.mod_small; lia.
Qed.

Lemma int64_range z : in_int64 (int64 z).
Proof.
  unfold in_int64, int64, minInt64, maxInt64.
  pose proof (Z.mod_pos_bound (z + 2 ^ 63) (2 ^ 64)). lia.
Qed.

Lemma uint64_id z : in_uint64 z → uint64 z = z.
Proof. unfold in_uint64, uint64, maxUint64. intros ?. rewrite Z.mod_small; lia. Qed.

Lemma uint64_range z : in_uint64 (uint64 z).
Proof.
  unfold in_uint64, uint64, maxUint64.
  pose proof (Z.mod_pos_bound z (2 ^ 64)). lia.
Qed.
End GoInt.
Export GoInt.

(** ** Hint database and tactics of the development *)

Create HintDb hap discriminated.
#[export] Hint Resolve int64_range uint64_range : hap.

(** Case analysis on every [if decide _] and [match] that blocks the goal or a
    hypothesis, closing the trivial branches. *)
Ltac split_cases :=
  repeat (first [ progress simplify_eq/= | case_decide | case_match ]); try done.

(** Turn boolean tests of the code into propositions. *)
Ltac bool_to_prop :=
  repeat match goal with
  | H : _ && _ = true |- _ => apply andb_prop in H; destruct H
  | H : negb _ = true |- _ => apply negb_true_iff in H
  | H : negb _ = false |- _ => apply negb_false_iff in H
  | H : (_ <? _)%Z = true |- _ => apply Z.ltb_lt in H
  | H : (_ <? _)%Z = false |- _ => apply Z.ltb_ge in H
  | H : (_ <=? _)%Z = true |- _ => apply Z.leb_le in H
  | H : (_ <=? _)%Z = false |- _ => apply Z.leb_gt in H
  | H : (_ =? _)%Z = true |- _ => apply Z.eqb_eq in H
  | H : (_ =? _)%Z = false |- _ => apply Z.eqb_neq in H
  | H : String.eqb _ _ = true |- _ => apply String.eqb_eq in H
  | H : String.eqb _ _ = false |- _ => apply String.eqb_neq in H
  end.

(** ** Appending strings *)

Lemma string_length_app a b : String.length (a +:+ b) = (String.length a + String.length b)%nat.
Proof. unfold String.app. induction a as [|c a IH]; simpl; [done|]. by rewrite IH. Qed.

Lemma string_app_assoc (a b c : string) : (a +:+ b) +:+ c = a +:+ (b +:+ c).
Proof. unfold String.app. induction a as [|x a IH]; simpl; [done|]. by rewrite IH. Qed.

Lemma string_app_nil_r (a : string) : a +:+ "" = a.
Proof. unfold String.app. induction a as [|x a IH]; simpl; [done|]. by rewrite IH. Qed.

Lemma app_cons c (a b : string) : String c a +:+ b = String c (a +:+ b).
Proof. done. Qed.

(** ** Go strings: byte sequences ordered lexicographically by byte value *)

Module GoStr.
(** The comparison operator [a < b] on strings. *)
Definition ltb (a b : string) : bool := String.ltb a b.

(** [len(s)]. *)
Definition len (s : string) : Z := Z.of_nat (String.length s).

Lemma ltb_leb a b : ltb a b = negb (String.leb b a).
Proof.
  unfold ltb, String.ltb, String.leb.
  rewrite (String.compare_antisym b a). by destruct (String.compare a b).
Qed.

Lemma leb_trans a b c : String.leb a b = true → String.leb b c = true → String.leb a c = true.
Proof.
  intros Hab Hbc. apply Is_true_true. apply Is_true_true in Hab, Hbc.
  exact (transitivity (R := String.le) Hab Hbc).
Qed.

Lemma ltb_irrefl a : ltb a a = false.
Proof. rewrite ltb_leb. by destruct (String.leb_total a a) as [-> | ->]. Qed.

Lemma ltb_trans a b c : ltb a b = true → ltb b c = true → ltb a c = true.
Proof.
  rewrite !ltb_leb. intros Hab%negb_true_iff Hbc%negb_true_iff. apply negb_true_iff.
  apply not_true_iff_false. intros Hca.
  destruct (String.leb_total a b) as [Hl|Hl]; [|congruence].
  apply (leb_trans c a b) in Hl; [congruence|done].
Qed.

Lemma ltb_total a b : ltb a b = true ∨ a = b ∨ ltb b a = true.
Proof.
  rewrite !ltb_leb.
  destruct (String.leb a b) eqn:H1, (String.leb b a) eqn:H2; auto.
  right; left. by apply String.leb_antisym.
Qed.

Lemma ltb_asym a b : ltb a b = true → ltb b a = false.
Proof.
  intros H. apply not_true_iff_false. intros H'.
  pose proof (ltb_trans _ _ _ H H') as Hx. by rewrite ltb_irrefl in Hx.
Qed.

Lemma ltb_eq_iff a b : negb (ltb a b) && negb (ltb b a) = true ↔ a = b.
Proof.
  split.
  - intros H. bool_to_prop. destruct (ltb_total a b) as [?|[?|?]]; congruence.
  - intros ->. by rewrite !ltb_irrefl.
Qed.
End GoStr.
#[export] Hint Resolve GoStr.ltb_irrefl GoStr.ltb_trans GoStr.ltb_asym : hap.

(** ** Lists *)

(** Filtering by a boolean test, as the code's loops do. *)
#[export] Instance list_filter_perm {A} (p : A → bool) :
  Proper ((≡ₚ) ==> (≡ₚ)) (List.filter p).
Proof.
  induction 1 as [|x l l' _ IH|x y l|l1 l2 l3 _ IH1 _ IH2]; simpl.
  - done.
  - destruct (p x); by rewrite IH.
  - destruct (p x), (p y); try done. apply perm_swap.
  - by rewrite IH1.
Qed.

Lemma list_filter_all {A} (p : A → bool) l :
  (∀ x, x ∈ l → p x = true) → List.filter p l = l.
Proof.
  induction l as [|x l IH]; intros H; simpl; [done|].
  rewrite (H x) by (apply elem_of_cons; by left). f_equal. apply IH.
  intros y Hy. apply H. apply elem_of_cons. by right.
Qed.

Lemma list_filter_none {A} (p : A → bool) l :
  (∀ x, x ∈ l → p x = false) → List.filter p l = [].
Proof.
  induction l as [|x l IH]; intros H; simpl; [done|].
  rewrite (H x) by (apply elem_of_cons; by left). apply IH.
  intros y Hy. apply H. apply elem_of_cons. by right.
Qed.

Lemma elem_of_list_filter_bool {A} (p : A → bool) l x :
  x ∈ List.filter p l ↔ x ∈ l ∧ p x = true.
Proof. by rewrite list_elem_of_In, List.filter_In, <-list_elem_of_In. Qed.

Lemma fold_left_filter {A B} (p : A → bool) (f : B → A → B) l b :
  fold_left f (List.filter p l) b = fold_left (λ b x, if p x then f b x else b) l b.
Proof.
  revert b. induction l as [|x l IH]; intros b; simpl; [done|]. destruct (p x); apply IH.
Qed.

Lemma fold_left_snoc {A B} (f : A → B) l acc :
  fold_left (λ out x, out ++ [f x]) l acc = acc ++ (f <$> l).
Proof.
  revert acc. induction l as [|x l IH]; intros acc; simpl; [by rewrite app_nil_r|].
  by rewrite IH, <-app_assoc.
Qed.

Lemma StronglySorted_filter {A} (R : A → A → Prop) (p : A → bool) l :
  StronglySorted R l → StronglySorted R (List.filter p l).
Proof.
  induction 1 as [|x l Hl IH Hall]; simpl; [constructor|]. destruct (p x); [|done].
  constructor; [done|]. apply Forall_forall. intros y [Hy _]%elem_of_list_filter_bool.
  rewrite Forall_forall in Hall. by apply Hall.
Qed.

Lemma size_list_to_set_le `{Countable A} (l : list A) :
  (size (list_to_set l : gset A) ≤ length l)%nat.
Proof.
  induction l as [|x l IH]; simpl; [done|].
  rewrite size_union_alt, size_singleton.
  assert (size ((list_to_set l : gset A) ∖ {[x]}) ≤ size (list_to_set l : gset A))%nat
    by (apply subseteq_size; set_solver). lia.
Qed.
