(* ===== verification/GoStrconv.v ===== *)
(** * The parts of Go's strconv that the program uses

    [Itoa] (also [fmt]'s [%d]) and [Atoi], with the round trip between them.
    [Atoi] is modelled by the general path of [strconv.ParseInt] in base 10,
    which agrees with its fast path; like the original it returns a value
    together with the error, and callers may ignore the error. *)

From S2P Require Import Prelude.
Local Open Scope Z_scope.

(** ** Bytes *)

Definition byte_val (c : ascii) : Z := Z.of_N (N_of_ascii c).
Definition byte_of (z : Z) : ascii := ascii_of_N (Z.to_N z).

Lemma byte_val_of z : 0 ≤ z < 256 → byte_val (byte_of z) = z.
Proof.
  intros ?. unfold byte_val, byte_of. rewrite N_ascii_embedding by lia. lia.
Qed.

Lemma byte_of_val c : byte_of (byte_val c) = c.
Proof. unfold byte_val, byte_of. rewrite N2Z.id. apply ascii_N_embedding. Qed.

Lemma byte_val_range c : 0 ≤ byte_val c < 256.
Proof. unfold byte_val. pose proof (N_ascii_bounded c). lia. Qed.

Lemma byte_val_inj c d : byte_val c = byte_val d → c = d.
Proof. intros H. by rewrite <-(byte_of_val c), H, byte_of_val. Qed.

(** ** Itoa *)

Definition digit (d : Z) : ascii := byte_of (48 + d).

(** The digits are produced from the right, as in [formatBits]. *)
Fixpoint digits (fuel : nat) (n : Z) (acc : string) : string :=
  match fuel with
  | O => acc
  | S fuel' => let acc' := String (digit (n mod 10)) acc in
               if n <? 10 then acc' else digits fuel' (n / 10) acc'
  end.

(** Twenty digits are enough for every 64-bit integer. *)
Definition Itoa (n : Z) : string :=
  if n <? 0 then String "-" (digits 20 (- n) "") else digits 20 n "".

(** A hexadecimal digit in lower case. *)
Definition hex_digit (d : Z) : ascii := byte_of (if d <? 10 then 48 + d else 87 + d).

(** ** Atoi *)

Inductive NumError := ErrSyntax | ErrRange.

Definition is_digit (c : ascii) : bool := (48 <=? byte_val c) && (byte_val c <=? 57).

(** The loop of [ParseUint] in base 10 with bit size 64. *)
Fixpoint ParseUint_loop (s : string) (n : Z) : Z * option NumError :=
  match s with
  | EmptyString => (n, None)
  | String c s' =>
      if negb (is_digit c) then (0, Some ErrSyntax)
      else if maxUint64 / 10 + 1 <=? n then (maxUint64, Some ErrRange)
      else let n10 := uint64 (n * 10) in
           let n1 := uint64 (n10 + (byte_val c - 48)) in
           if n1 <? n10 then (maxUint64, Some ErrRange) else ParseUint_loop s' n1
  end.

Definition ParseUint (s : string) : Z * option NumError :=
  match s with
  | EmptyString => (0, Some ErrSyntax)
  | _ => ParseUint_loop s 0
  end.

Definition ParseInt_body (neg : bool) (s : string) : Z * option NumError :=
  let '(un, err) := ParseUint s in
  match err with
  | Some ErrSyntax => (0, Some ErrSyntax)
  | _ =>
      if negb neg && (2 ^ 63 <=? un) then (2 ^ 63 - 1, Some ErrRange)
      else if neg && (2 ^ 63 <? un) then (- 2 ^ 63, Some ErrRange)
      else (if neg then - un else un, None)
  end.

Definition Atoi (s : string) : Z * option NumError :=
  match s with
  | EmptyString => (0, Some ErrSyntax)
  | String "+" s' => ParseInt_body false s'
  | String "-" s' => ParseInt_body true s'
  | _ => ParseInt_body false s
  end.

Example Atoi_examples :
  (Atoi "6379", Atoi "-1", Atoi "+7", Atoi "12a", Atoi "", Atoi "99999999999999999999")
  = ((6379, None), (-1, None), (7, None), (0, Some ErrSyntax), (0, Some ErrSyntax),
     (9223372036854775807, Some ErrRange)).
Proof. vm_compute. reflexivity. Qed.

(** ** Facts *)

Lemma digit_val d : 0 ≤ d < 10 → byte_val (digit d) = 48 + d.
Proof. intros. unfold digit. apply byte_val_of. lia. Qed.

Lemma digit_is_digit d : 0 ≤ d < 10 → is_digit (digit d) = true.
Proof. intros. unfold is_digit. rewrite digit_val by done. apply andb_true_iff; lia. Qed.

Lemma ParseUint_digits fuel n acc :
  0 ≤ n < 10 ^ Z.of_nat fuel → in_uint64 n → (0 < fuel)%nat →
  ParseUint_loop (digits fuel n acc) 0 = ParseUint_loop acc n.
Proof.
  unfold in_uint64, maxUint64. revert n acc.
  induction fuel as [|fuel IH]; intros n acc Hn Hu Hf; [lia|].
  assert (Hstep : ∀ m d acc', 0 ≤ m → 0 ≤ d < 10 → m * 10 + d ≤ maxUint64 →
    ParseUint_loop (String (digit d) acc') m = ParseUint_loop acc' (m * 10 + d)).
  { unfold maxUint64. intros m d acc' Hm Hd Hle. cbn [ParseUint_loop].
    rewrite digit_is_digit by exact Hd. cbn [negb].
    change (maxUint64 / 10 + 1) with 1844674407370955162.
    destruct (Z.leb_spec 1844674407370955162 m); [lia|].
    rewrite digit_val by done. rewrite (uint64_id (m * 10)) by (unfold in_uint64, maxUint64; lia).
    replace (m * 10 + (48 + d - 48)) with (m * 10 + d) by lia.
    rewrite uint64_id by (unfold in_uint64, maxUint64; lia).
    destruct (Z.ltb_spec (m * 10 + d) (m * 10)); [lia|done]. }
  unfold maxUint64 in Hstep.
  cbn [digits]. pose proof (Z.mod_pos_bound n 10 eq_refl).
  pose proof (Z.div_mod n 10 ltac:(done)).
  destruct (Z.ltb_spec n 10).
  - rewrite Z.mod_small by lia. rewrite Hstep by lia. f_equal.
  - rewrite IH.
    + rewrite Hstep by lia. f_equal. lia.
    + rewrite Nat2Z.inj_succ, Z.pow_succ_r in Hn by lia. lia.
    + lia.
    + destruct fuel; [simpl in Hn; lia|lia].
Qed.

(** The text of a number starts with a digit and has at most [fuel] bytes. *)
Lemma digits_head fuel n acc : 0 ≤ n → (0 < fuel)%nat →
  ∃ c s, digits fuel n acc = String c s ∧ is_digit c = true.
Proof.
  revert n acc. induction fuel as [|fuel IH]; intros n acc Hn Hf; [lia|]. cbn [digits].
  pose proof (Z.mod_pos_bound n 10 eq_refl).
  assert (Hd : is_digit (digit (n mod 10)) = true) by (by apply digit_is_digit).
  destruct (n <? 10); [eauto|].
  destruct fuel; [simpl; eauto|]. apply IH; [|lia]. apply Z.div_pos; lia.
Qed.

Lemma ParseUint_nonempty s : s ≠ EmptyString → ParseUint s = ParseUint_loop s 0.
Proof. by destruct s. Qed.

Lemma ParseUint_Itoa n : in_uint64 n → ParseUint (digits 20 n "") = (n, None).
Proof.
  intros Hn. unfold in_uint64, maxUint64 in Hn.
  destruct (digits_head 20 n "") as (c & s & Hs & _); [lia..|].
  rewrite ParseUint_nonempty by (by rewrite Hs).
  rewrite ParseUint_digits; [done| |done|lia].
  change (10 ^ Z.of_nat 20) with 100000000000000000000. lia.
Qed.

Lemma Atoi_digit c s : is_digit c = true → Atoi (String c s) = ParseInt_body false (String c s).
Proof.
  intros H. destruct c as [[] [] [] [] [] [] [] []];
    first [reflexivity | vm_compute in H; discriminate H].
Qed.

Lemma Atoi_Itoa_id n : in_int64 n → Atoi (Itoa n) = (n, None).
Proof.
  unfold in_int64, minInt64, maxInt64. intros Hn. unfold Itoa.
  destruct (Z.ltb_spec n 0).
  - cbn [Atoi]. unfold ParseInt_body.
    rewrite ParseUint_Itoa by (unfold in_uint64, maxUint64; lia). cbn [negb andb].
    destruct (Z.ltb_spec (2 ^ 63) (- n)); [lia|]. f_equal. lia.
  - destruct (digits_head 20 n "") as (c & s & Hs & Hc); [lia..|].
    rewrite Hs, Atoi_digit, <-Hs by done. unfold ParseInt_body.
    rewrite ParseUint_Itoa by (unfold in_uint64, maxUint64; lia). cbn [negb andb].
    destruct (Z.leb_spec (2 ^ 63) n); [lia|done].
Qed.

Lemma Itoa_inj m n : in_int64 m → in_int64 n → Itoa m = Itoa n → m = n.
Proof.
  intros Hm Hn He. pose proof (Atoi_Itoa_id m Hm) as H. rewrite He, Atoi_Itoa_id in H by done.
  congruence.
Qed.

(** Whatever the text, the value returned is an [int64]. *)
Lemma ParseUint_loop_nonneg s : ∀ n, 0 ≤ n → 0 ≤ (ParseUint_loop s n).1.
Proof.
  induction s as [|c s IH]; intros n Hn; cbn [ParseUint_loop fst]; [done|].
  destruct (is_digit c); cbn [negb fst]; [|done].
  destruct (maxUint64 / 10 + 1 <=? n); [done|].
  destruct (_ <? _); [done|]. apply IH. unfold uint64. apply Z.mod_pos_bound. lia.
Qed.

Lemma Atoi_in_int64 s : in_int64 (Atoi s).1.
Proof.
  assert (Hbody : ∀ neg s, in_int64 (ParseInt_body neg s).1).
  { intros neg t. unfold ParseInt_body.
    assert (0 ≤ (ParseUint t).1) by (destruct t; [done|by apply ParseUint_loop_nonneg]).
    destruct (ParseUint t) as [un err]. cbn [fst] in *.
    assert (Hr : in_int64 (if negb neg && (2 ^ 63 <=? un) then (2 ^ 63 - 1, Some ErrRange)
      else if neg && (2 ^ 63 <? un) then (- 2 ^ 63, Some ErrRange)
      else (if neg then - un else un, None)).1).
    { unfold in_int64, minInt64, maxInt64.
      destruct neg; cbn [negb andb]; repeat case_match; cbn [fst]; lia. }
    destruct err as [[]|]; [by vm_compute|exact Hr..]. }
  destruct s as [|c s]; [by vm_compute|].
  destruct c as [[] [] [] [] [] [] [] []]; apply Hbody.
Qed.
