(* ===== verification/GoSort.v ===== *)
(** * The parts of Go's sort package that the program uses

    [sort.Slice] is documented to sort by the given order and not to be stable;
    which of the tied elements comes first is not specified.  It is therefore
    used through the interface [SliceSort], whose laws are the documented
    contract; [MergeSort] is an instance.  [sort.Search] is modelled by its
    code, the binary search of the standard library. *)

From S2P Require Import Prelude.
Local Open Scope nat_scope.

(** ** sort.Slice *)

(** The orders that [sort.Slice] accepts. *)
Record strict_weak {A} (lt : A → A → bool) : Prop := {
  sw_irrefl x : lt x x = false;
  sw_trans x y z : lt x y = true → lt y z = true → lt x z = true;
  sw_tie_trans x y z : lt y x = false → lt z y = false → lt z x = false;
}.

Definition sorted_by {A} (lt : A → A → bool) (l : list A) : Prop :=
  StronglySorted (λ x y, lt y x = false) l.

Class SliceSort := Slice : ∀ {A}, (A → A → bool) → list A → list A.

Class SliceSortLaws `{!SliceSort} : Prop := {
  Slice_perm {A} (lt : A → A → bool) l : Slice lt l ≡ₚ l;
  Slice_sorted {A} (lt : A → A → bool) l : strict_weak lt → sorted_by lt (Slice lt l);
}.

Definition MergeSort : SliceSort := λ A lt l,
  @merge_sort A (λ x y, lt y x = false) (λ x y, bool_eq_dec (lt y x) false) l.

Lemma MergeSort_laws : @SliceSortLaws MergeSort.
Proof.
  split; intros A lt l.
  - apply merge_sort_Permutation.
  - intros [Hirr Htr Htie]. unfold sorted_by, Slice, MergeSort.
    assert (Transitive (λ x y, lt y x = false)) by (intros x y z; eauto).
    assert (Total (λ x y, lt y x = false)).
    { intros x y. destruct (lt y x) eqn:Hyx; [|by left]. right.
      apply not_true_iff_false. intros Hxy. pose proof (Htr _ _ _ Hyx Hxy) as Hx.
      by rewrite Hirr in Hx. }
    by apply StronglySorted_merge_sort.
Qed.

(** [sort.Strings]. *)
Definition Strings `{!SliceSort} (l : list string) : list string := Slice GoStr.ltb l.

Lemma string_strict_weak : strict_weak GoStr.ltb.
Proof.
  split; [apply GoStr.ltb_irrefl|apply GoStr.ltb_trans|].
  intros x y z Hyx Hzy. destruct (GoStr.ltb_total x y) as [Hxy|[->|]]; [|done|congruence].
  apply not_true_iff_false. intros Hzx.
  pose proof (GoStr.ltb_trans _ _ _ Hzx Hxy). congruence.
Qed.

(** Ordering by an integer or a string key is a strict weak order. *)
Lemma key_strict_weak {A B} (f : A → B) (lt : B → B → bool) :
  strict_weak lt → strict_weak (λ x y, lt (f x) (f y)).
Proof. intros [H1 H2 H3]. split; eauto. Qed.

Lemma Zlt_strict_weak : strict_weak Z.ltb.
Proof. split; intros *; rewrite ?Z.ltb_lt, ?Z.ltb_ge; lia. Qed.
#[export] Hint Resolve string_strict_weak Zlt_strict_weak : hap.

(** A sort is determined by its input when no two elements tie. *)
Lemma sorted_by_unique {A} (lt : A → A → bool) (l1 l2 : list A) :
  l1 ≡ₚ l2 → sorted_by lt l1 → sorted_by lt l2 →
  (∀ x y, x ∈ l1 → y ∈ l1 → lt x y = false → lt y x = false → x = y) → l1 = l2.
Proof.
  intros Hp H1 H2 Htie. eapply StronglySorted_unique_strong; [|exact H1|exact H2|exact Hp].
  intros x y Hx Hy ? ?. apply Htie; [done| |done|done]. by rewrite Hp.
Qed.

(** ** sort.Search *)

Fixpoint Search_loop (fuel : nat) (f : nat → bool) (i j : nat) : nat :=
  match fuel with
  | O => i
  | S fuel' =>
      if i <? j then
        let h := (i + j) / 2 in
        if negb (f h) then Search_loop fuel' f (h + 1) j else Search_loop fuel' f i h
      else i
  end.

(** The interval shrinks at every iteration, so [n] iterations are enough. *)
Definition Search (n : nat) (f : nat → bool) : nat := Search_loop n f 0 n.

Lemma Search_loop_spec fuel f i j n :
  (∀ a b, a ≤ b → b < n → f a = true → f b = true) →
  j - i ≤ fuel → i ≤ j → j ≤ n →
  (∀ a, a < i → f a = false) → (∀ a, j ≤ a → a < n → f a = true) →
  let r := Search_loop fuel f i j in
  r ≤ n ∧ (∀ a, a < r → f a = false) ∧ (∀ a, r ≤ a → a < n → f a = true).
Proof.
  intros Hmono. revert i j. induction fuel as [|fuel IH]; intros i j Hfuel Hij Hjn Hlo Hhi.
  { simpl. assert (i = j) by lia. subst. auto with lia. }
  cbn [Search_loop]. destruct (Nat.ltb_spec i j) as [Hlt|]; [|assert (i = j) by lia; subst; auto].
  assert (i ≤ (i + j) / 2 < j).
  { split; [apply Nat.div_le_lower_bound; lia|apply Nat.div_lt_upper_bound; lia]. }
  set (h := (i + j) / 2) in *.
  destruct (f h) eqn:Hf; cbn [negb]; apply IH; try lia; try done.
  - intros a ? ?. by apply (Hmono h a).
  - intros a ?. apply not_true_iff_false. intros Ha.
    apply (Hmono a h) in Ha; [congruence|lia..].
Qed.

(** [Search] finds the first index at which a monotone predicate holds. *)
Lemma Search_spec n f :
  (∀ a b, a ≤ b → b < n → f a = true → f b = true) →
  let r := Search n f in
  r ≤ n ∧ (∀ a, a < r → f a = false) ∧ (∀ a, r ≤ a → a < n → f a = true).
Proof. intros Hmono. unfold Search. apply Search_loop_spec; auto with lia. Qed.
