(* ===== verification/BTree.v ===== *)
(** * The ordered container used by the store

    [pkg/store] keeps its items in a [*btree.BTreeG[item]] of
    github.com/google/btree, which is not part of the repository.  The
    container is therefore a parameter of the store: the class [BTreeOps]
    lists the operations the store calls, the class [BTreeLaws] states their
    documented behaviour, and [SortedList] is a concrete container (a sorted
    list) that satisfies the laws, so that everything proved against the
    interface can be instantiated and evaluated. *)

From S2P Require Import Prelude.
Local Open Scope Z_scope.

(** Go's iterator protocol: the callback is offered the items one by one and
    the iteration stops at the first [false]. *)
Fixpoint visit {A S : Type} (f : A → S → S * bool) (items : list A) (s : S) : S :=
  match items with
  | [] => s
  | x :: items' => let '(s', continue) := f x s in
                   if continue then visit f items' s' else s'
  end.

Lemma visit_all {A S} (f : A → S → S * bool) (g : A → S → S) items s :
  (∀ x s, f x s = (g x s, true)) →
  visit f items s = fold_left (λ s x, g x s) items s.
Proof.
  intros Hf. revert s. induction items as [|x items IH]; intros s; simpl; [done|].
  rewrite Hf. apply IH.
Qed.

(** The same for a callback that continues only in the states it keeps to. *)
Lemma visit_all_on {A S} (P : S → Prop) (f : A → S → S * bool) (g : A → S → S) items s :
  P s → (∀ x s, P s → f x s = (g x s, true) ∧ P (g x s)) →
  visit f items s = fold_left (λ s x, g x s) items s.
Proof.
  intros Hs Hf. revert s Hs. induction items as [|x items IH]; intros s Hs; simpl; [done|].
  destruct (Hf x s Hs) as [-> Hg]. by apply IH.
Qed.

(** The operations; [less] is the order given to [NewG], kept by the tree. *)
Class BTreeOps (A : Type) := {
  BTree : Type;
  NewG : Z → (A → A → bool) → BTree;
  Get : BTree → A → option A;
  ReplaceOrInsert : BTree → A → BTree;
  (** the items in the order in which [Ascend] offers them *)
  Ascend : BTree → list A;
  AscendRange : BTree → A → A → list A;
  Len : BTree → Z;
}.

(** Items that the order does not separate are the same item to the tree. *)
Definition same {A} (less : A → A → bool) (x y : A) : bool :=
  negb (less x y) && negb (less y x).

Class BTreeLaws {A : Type} `{!BTreeOps A} (less : A → A → bool) := {
  btree_ok : BTree → Prop;
  NewG_ok d : 1 < d → btree_ok (NewG d less);
  ReplaceOrInsert_ok t x : btree_ok t → btree_ok (ReplaceOrInsert t x);
  Ascend_NewG d : Ascend (NewG d less) = [];
  Ascend_sorted t : btree_ok t → StronglySorted (λ x y, less x y = true) (Ascend t);
  Get_Ascend t x : btree_ok t → Get t x = List.find (same less x) (Ascend t);
  Ascend_ReplaceOrInsert t x y : btree_ok t →
    y ∈ Ascend (ReplaceOrInsert t x) ↔ y = x ∨ (y ∈ Ascend t ∧ same less x y = false);
  AscendRange_Ascend t lo hi : btree_ok t →
    AscendRange t lo hi = List.filter (λ x, negb (less x lo) && less x hi) (Ascend t);
  Len_Ascend t : btree_ok t → Len t = Z.of_nat (length (Ascend t));
}.
#[export] Hint Resolve ReplaceOrInsert_ok : hap.

(** ** A concrete container: the sorted list *)

Module SortedList.
Fixpoint replace_or_insert {A} (less : A → A → bool) (t : list A) (x : A) : list A :=
  match t with
  | [] => [x]
  | y :: t' => if less x y then x :: y :: t'
               else if less y x then y :: replace_or_insert less t' x
               else x :: t'
  end.

Definition ops A : BTreeOps A := {|
  BTree := (A → A → bool) * list A;
  NewG _ less := (less, []);
  Get t x := List.find (same t.1 x) t.2;
  ReplaceOrInsert t x := (t.1, replace_or_insert t.1 t.2 x);
  Ascend t := t.2;
  AscendRange t lo hi := List.filter (λ x, negb (t.1 x lo) && t.1 x hi) t.2;
  Len t := Z.of_nat (length t.2);
|}.

Section instance.
Context {A : Type} (less : A → A → bool).

Context (less_irrefl : ∀ x, less x x = false).
Context (less_trans : ∀ x y z, less x y = true → less y z = true → less x z = true).
Context (same_less : ∀ x y z, same less x y = true → less y z = true → less x z = true).
Context (less_same : ∀ x y z, less x y = true → same less y z = true → less x z = true).

#[local] Abbreviation lt := (λ x y, less x y = true).

Lemma less_asym x y : less x y = true → less y x = false.
Proof.
  intros H. apply not_true_iff_false. intros H'.
  pose proof (less_trans _ _ _ H H') as Hx. by rewrite less_irrefl in Hx.
Qed.

Lemma elem_of_replace_or_insert t x y : StronglySorted lt t →
  y ∈ replace_or_insert less t x ↔ y = x ∨ (y ∈ t ∧ same less x y = false).
Proof.
  induction 1 as [|z t Ht IH Hall]; simpl.
  { set_solver. }
  rewrite Forall_forall in Hall.
  assert (Hout : ∀ w, w ∈ t → less x w = true → same less x w = false).
  { intros w _ Hw. unfold same. by rewrite Hw. }
  destruct (less x z) eqn:Hxz; [|destruct (less z x) eqn:Hzx].
  - assert (∀ w, w ∈ z :: t → same less x w = false).
    { intros w [->|Hw]%elem_of_cons; [unfold same; by rewrite Hxz|].
      apply Hout; [done|]. eauto. }
    rewrite elem_of_cons. naive_solver.
  - assert (same less x z = false) by (unfold same; by rewrite Hzx, andb_false_r).
    rewrite !elem_of_cons, IH. naive_solver.
  - assert (same less x z = true) by (unfold same; by rewrite Hxz, Hzx).
    assert (∀ w, w ∈ t → same less x w = false) by (intros w Hw; eauto).
    rewrite !elem_of_cons. naive_solver congruence.
Qed.

Lemma replace_or_insert_sorted t x :
  StronglySorted lt t → StronglySorted lt (replace_or_insert less t x).
Proof.
  induction 1 as [|z t Ht IH Hall]; simpl; [repeat constructor|].
  rewrite Forall_forall in Hall.
  destruct (less x z) eqn:Hxz; [|destruct (less z x) eqn:Hzx].
  - constructor; [by constructor; [|apply Forall_forall]|].
    apply Forall_forall. intros w [->|Hw]%elem_of_cons; eauto.
  - constructor; [done|]. apply Forall_forall. intros w Hw.
    apply elem_of_replace_or_insert in Hw as [->|[Hw _]]; auto.
  - assert (same less x z = true) by (unfold same; by rewrite Hxz, Hzx).
    constructor; [done|]. apply Forall_forall. intros w Hw. eauto.
Qed.

Definition laws : @BTreeLaws A (ops A) less.
Proof using less_irrefl less_trans same_less less_same.
  refine {| btree_ok := λ t : @BTree A (ops A), t.1 = less ∧ StronglySorted lt t.2 |}.
  - repeat constructor.
  - intros [l t] x [Hl Ht]; simpl in *; subst l. split; [done|].
    by apply replace_or_insert_sorted.
  - done.
  - by intros t [_ Ht].
  - intros [l t] x [Hl _]; simpl in *. by subst l.
  - intros [l t] x y [Hl Ht]; simpl in *; subst l. by apply elem_of_replace_or_insert.
  - intros [l t] lo hi [Hl _]; simpl in *. by subst l.
  - done.
Defined.
End instance.
End SortedList.
