(* ===== verification/Store.v ===== *)
(** * pkg/store: the versioned last-writer-wins key-value store

    The model of [store.Store]: the ordered container is the parameter
    [BTreeOps item], the Lamport-style [clock] is a 64-bit integer with its
    wrap-around, [length_] is the cached number of live keys.  Every method
    runs under the store's mutex, so it is one atomic state transformer.

    [Snapshot], a method of the code, is also the abstraction function: the
    other methods are specified by what they do to the map it returns. *)

From S2P Require Import Prelude BTree.
Local Open Scope Z_scope.

(** ** Data *)

Record Entry := mkEntry {
  Value : string;
  Version : Z;
  Origin : string;
  Deleted : bool;
}.

#[export] Instance Entry_eq_dec : EqDecision Entry.
Proof. solve_decision. Defined.

(** Go's zero value, returned by the container when a key is missing. *)
Definition zeroEntry : Entry := mkEntry "" 0 "" false.

Record item := mkItem { key : string; item_Entry : Entry }.

Definition less (a b : item) : bool := GoStr.ltb (key a) (key b).

(** The order of writes: version, then origin, then tombstone, then value. *)
Definition newer (a b : Entry) : bool :=
  if negb (Version a =? Version b) then Version b <? Version a
  else if negb (String.eqb (Origin a) (Origin b)) then GoStr.ltb (Origin b) (Origin a)
  else if negb (Bool.eqb (Deleted a) (Deleted b)) then Deleted a
  else GoStr.ltb (Value b) (Value a).

(** ** Operations *)

Section operations.
Context `{!BTreeOps item}.

Record Store := mkStore {
  tree : BTree;
  clock : Z;
  length_ : Z;
}.

Definition New : Store := mkStore (NewG 32 less) 0 0.

(** [s.tree.Get(item{key: key})] with its second result. *)
Definition tree_Get (s : Store) (k : string) : Entry * bool :=
  match BTree.Get (tree s) (mkItem k zeroEntry) with
  | Some it => (item_Entry it, true)
  | None => (zeroEntry, false)
  end.

Definition SetFrom (s : Store) (k v origin : string) : Entry * Store :=
  let clock' := int64 (clock s + 1) in
  let entry := mkEntry v clock' origin false in
  let '(old, ok) := tree_Get s k in
  if negb ok || newer entry old then
    let length' := if negb ok || Deleted old then length_ s + 1 else length_ s in
    (entry, mkStore (ReplaceOrInsert (tree s) (mkItem k entry)) clock' length')
  else (entry, mkStore (tree s) clock' (length_ s)).

Definition Set_ (s : Store) (k v : string) : Z * Store :=
  let '(entry, s') := SetFrom s k v "" in (Version entry, s').

Definition SetWithVersion (s : Store) (k : string) (entry : Entry) : bool * Store :=
  let '(old, ok) := tree_Get s k in
  if ok && negb (newer entry old) then (false, s)
  else
    let length' :=
      if negb (Deleted entry) && (negb ok || Deleted old) then length_ s + 1
      else if ok && negb (Deleted old) && Deleted entry then length_ s - 1
      else length_ s in
    let clock' := if clock s <? Version entry then Version entry else clock s in
    (true, mkStore (ReplaceOrInsert (tree s) (mkItem k entry)) clock' length').

Definition Get (s : Store) (k : string) : string * Z * bool :=
  let '(it, ok) := tree_Get s k in
  if negb ok || Deleted it then ("", 0, false) else (Value it, Version it, true).

Definition Snapshot (s : Store) : gmap string Entry :=
  visit (λ it cp, (<[key it := item_Entry it]> cp, true)) (Ascend (tree s)) ∅.

Definition Range (s : Store) (start end_ : string) : list Entry :=
  visit (λ it out, (if Deleted (item_Entry it) then out else out ++ [item_Entry it], true))
    (AscendRange (tree s) (mkItem start zeroEntry) (mkItem end_ zeroEntry)) [].

(** The callback threads the variables it captures as a state [S]. *)
Definition Iterate {S} (s : Store) (fn : string → Entry → S → S * bool) (st : S) : S :=
  visit (λ it st, if Deleted (item_Entry it) then (st, true)
                  else fn (key it) (item_Entry it) st) (Ascend (tree s)) st.

Definition Len (s : Store) : Z := length_ s.

(** One iteration of the loop of [Del] over its variadic keys. *)
Definition del_key (origin : string) (st : Z * gmap string Entry * Store) (k : string)
    : Z * gmap string Entry * Store :=
  let '(n, tombstones, s) := st in
  match tombstones !! k with
  | Some _ => st
  | None =>
      let '(old, exists_) := tree_Get s k in
      let live := exists_ && negb (Deleted old) in
      let n' := if live then n + 1 else n in
      let length' := if live then length_ s - 1 else length_ s in
      let clock' := int64 (clock s + 1) in
      let entry := mkEntry "" clock' origin true in
      (n', <[k := entry]> tombstones,
       mkStore (ReplaceOrInsert (tree s) (mkItem k entry)) clock' length')
  end.

Definition Del (s : Store) (origin : string) (keys : list string)
    : Z * gmap string Entry * Store :=
  fold_left (del_key origin) keys (0, ∅, s).
End operations.
Arguments Store {_}.

(** ** The write order is a strict total order *)

Lemma newer_irrefl a : newer a a = false.
Proof.
  unfold newer. rewrite Z.eqb_refl, String.eqb_refl, Bool.eqb_reflx. simpl.
  apply GoStr.ltb_irrefl.
Qed.

(** [newer] unfolded to the lexicographic order on its four keys. *)
Lemma newer_spec a b : newer a b = true ↔
  Version b < Version a ∨ Version a = Version b ∧
    (GoStr.ltb (Origin b) (Origin a) = true ∨ Origin a = Origin b ∧
      (Deleted a = true ∧ Deleted b = false ∨ Deleted a = Deleted b ∧
        GoStr.ltb (Value b) (Value a) = true)).
Proof.
  unfold newer.
  destruct (Z.eqb_spec (Version a) (Version b)); simpl; [|rewrite Z.ltb_lt; lia].
  destruct (String.eqb_spec (Origin a) (Origin b)) as [Ho|Ho]; simpl.
  - rewrite Ho, GoStr.ltb_irrefl.
    destruct (Deleted a), (Deleted b); simpl; naive_solver lia.
  - naive_solver lia.
Qed.

Lemma newer_trans a b c : newer a b = true → newer b c = true → newer a c = true.
Proof. rewrite !newer_spec. intros. naive_solver (eauto with hap lia congruence). Qed.

Lemma newer_total a b : newer a b = true ∨ a = b ∨ newer b a = true.
Proof.
  rewrite !newer_spec. destruct a as [va na oa da], b as [vb nb ob db]; simpl.
  destruct (Z.lt_trichotomy na nb) as [?|[->|?]]; [by auto| |by auto].
  destruct (GoStr.ltb_total oa ob) as [?|[->|?]]; [by auto 10| |by auto 10].
  destruct (GoStr.ltb_total va vb) as [?|[->|?]]; destruct da, db; auto 12.
Qed.

Lemma newer_asym a b : newer a b = true → newer b a = false.
Proof.
  intros H. apply not_true_iff_false. intros H'.
  pose proof (newer_trans _ _ _ H H') as Hx. by rewrite newer_irrefl in Hx.
Qed.

Lemma newer_version a b : Version b < Version a → newer a b = true.
Proof. rewrite newer_spec. auto. Qed.

Lemma newer_false_trans a b c : newer a b = false → newer b c = false → newer a c = false.
Proof.
  intros Hab Hbc. apply not_true_iff_false. intros Hac.
  destruct (newer_total a b) as [?|[->|Hba]]; [congruence|congruence|].
  pose proof (newer_trans _ _ _ Hba Hac). congruence.
Qed.
#[export] Hint Resolve newer_irrefl newer_trans newer_asym newer_version : hap.

(** ** The abstract store: a map merged by the write order *)

(** What is left of the old and the incoming write of one key. *)
Definition lww (old : option Entry) (e : Entry) : Entry :=
  match old with
  | Some e' => if newer e e' then e else e'
  | None => e
  end.

Definition merge (m : gmap string Entry) (u : string * Entry) : gmap string Entry :=
  <[u.1 := lww (m !! u.1) u.2]> m.

(** The number of keys that are not tombstones. *)
Definition live (m : gmap string Entry) : Z :=
  Z.of_nat (size (filter (λ p : string * Entry, Deleted p.2 = false) m)).

Definition live1 (o : option Entry) : Z :=
  match o with Some e => if Deleted e then 0 else 1 | None => 0 end.

Lemma live_insert_fresh m k e : m !! k = None → live (<[k := e]> m) = live m + live1 (Some e).
Proof.
  intros Hk. unfold live. simpl. destruct (Deleted e) eqn:Hd.
  - rewrite map_filter_insert_False, delete_id by (simpl; congruence). lia.
  - rewrite map_filter_insert_True, map_size_insert_None; [lia| |done].
    apply map_lookup_filter_None. by left.
Qed.

Lemma live_insert m k e : live (<[k := e]> m) = live m - live1 (m !! k) + live1 (Some e).
Proof.
  rewrite <-insert_delete_eq, live_insert_fresh by apply lookup_delete_eq.
  destruct (m !! k) as [e'|] eqn:Hk; [|rewrite delete_id by done; simpl; lia].
  rewrite <-(insert_delete_id m k e') at 2 by done.
  rewrite live_insert_fresh by apply lookup_delete_eq. lia.
Qed.

(** ** What the methods do to the map [Snapshot] returns *)

Lemma less_irrefl x : less x x = false.
Proof. apply GoStr.ltb_irrefl. Qed.

Lemma less_trans x y z : less x y = true → less y z = true → less x z = true.
Proof. apply GoStr.ltb_trans. Qed.

Lemma same_less_key x y : same less x y = true ↔ key x = key y.
Proof. apply GoStr.ltb_eq_iff. Qed.

(** The laws of the sorted-list container hold for the store's order. *)
Definition SortedList_laws : @BTreeLaws item (SortedList.ops item) less.
Proof.
  apply SortedList.laws; [apply less_irrefl|apply less_trans| |];
    intros x y z; unfold less.
  - intros ->%same_less_key. done.
  - intros ? <-%same_less_key. done.
Defined.

Lemma fold_insert_lookup (l : list item) (m : gmap string Entry) k e :
  NoDup (key <$> l) →
  fold_left (λ cp it, <[key it := item_Entry it]> cp) l m !! k = Some e ↔
  mkItem k e ∈ l ∨ (k ∉ key <$> l ∧ m !! k = Some e).
Proof.
  revert m. induction l as [|[k' e'] l IH]; intros m; simpl.
  { set_solver. }
  intros [Hk' Hnd]%NoDup_cons. rewrite IH by done.
  rewrite elem_of_cons, not_elem_of_cons.
  destruct (decide (k = k')) as [->|Hne].
  - rewrite lookup_insert_eq. split; [naive_solver|].
    intros [[[= ->]|Hin]|[[] _]]; [by right|by left|done].
  - rewrite lookup_insert_ne by done. naive_solver.
Qed.

Section snapshot.
Context `{!BTreeOps item, !BTreeLaws less}.
Implicit Types (s : Store) (t : BTree).

Lemma NoDup_keys t : btree_ok t → NoDup (key <$> Ascend t).
Proof.
  intros Hs%Ascend_sorted. induction Hs as [|x l _ IH Hall]; simpl; constructor; [|done].
  intros (y & Hy & Hin)%list_elem_of_fmap. rewrite Forall_forall in Hall.
  specialize (Hall y Hin). unfold less in Hall. rewrite Hy, GoStr.ltb_irrefl in Hall. done.
Qed.

Lemma Snapshot_Ascend s k e : btree_ok (tree s) →
  Snapshot s !! k = Some e ↔ mkItem k e ∈ Ascend (tree s).
Proof.
  intros Hok. unfold Snapshot.
  rewrite (visit_all _ (λ it cp, <[key it := item_Entry it]> cp)) by done.
  rewrite fold_insert_lookup by by apply NoDup_keys. rewrite lookup_empty. naive_solver.
Qed.

Lemma Get_Snapshot s k : btree_ok (tree s) →
  BTree.Get (tree s) (mkItem k zeroEntry) = mkItem k <$> Snapshot s !! k.
Proof.
  intros Hok. rewrite Get_Ascend by done.
  destruct (List.find _ _) as [[k' e]|] eqn:Hf.
  - apply List.find_some in Hf as [Hin Hk%same_less_key]. simpl in Hk. subst k'.
    apply list_elem_of_In, Snapshot_Ascend in Hin; [|done]. by rewrite Hin.
  - destruct (Snapshot s !! k) as [e|] eqn:Hk; [|done].
    apply Snapshot_Ascend, list_elem_of_In in Hk; [|done].
    apply List.find_none with (x := mkItem k e) in Hf; [|done].
    apply not_true_iff_false in Hf. destruct Hf. by apply same_less_key.
Qed.

Lemma tree_Get_Snapshot s k : btree_ok (tree s) →
  tree_Get s k = match Snapshot s !! k with
                 | Some e => (e, true)
                 | None => (zeroEntry, false)
                 end.
Proof. intros Hok. unfold tree_Get. rewrite Get_Snapshot by done. by destruct (_ !! k). Qed.

Lemma Snapshot_put s k e c n : btree_ok (tree s) →
  Snapshot (mkStore (ReplaceOrInsert (tree s) (mkItem k e)) c n) = <[k := e]> (Snapshot s).
Proof.
  intros Hok. apply map_eq. intros k'. apply option_eq. intros e'.
  rewrite Snapshot_Ascend by (simpl; auto with hap). simpl.
  rewrite Ascend_ReplaceOrInsert by done.
  rewrite <-(Snapshot_Ascend s) by done.
  rewrite <-not_true_iff_false, same_less_key. simpl.
  rewrite lookup_insert_Some. naive_solver.
Qed.

Lemma Snapshot_tree s c n : Snapshot (mkStore (tree s) c n) = Snapshot s.
Proof. done. Qed.

Lemma Snapshot_New : Snapshot New = ∅.
Proof. unfold Snapshot, New. simpl. by rewrite Ascend_NewG. Qed.

(** ** The representation invariant

    [store_inv] holds of every reachable store.  [clock_inv], that no stored
    write is ahead of the clock, is what makes the next local write win; it
    holds as long as the 64-bit clock has not wrapped around. *)

Record store_inv s : Prop := {
  inv_tree : btree_ok (tree s);
  inv_length : length_ s = live (Snapshot s);
  inv_clock : in_int64 (clock s);
}.

#[local] Hint Resolve inv_tree : hap.

Definition clock_inv s : Prop := map_Forall (λ _ e, Version e ≤ clock s) (Snapshot s).

Lemma store_inv_New : store_inv New.
Proof.
  split; [by apply NewG_ok| |done]. by rewrite Snapshot_New.
Qed.

Lemma clock_inv_New : clock_inv New.
Proof. unfold clock_inv. rewrite Snapshot_New. apply map_Forall_empty. Qed.

(** Replacing one key and keeping the count in step preserves the invariant. *)
Lemma store_inv_put s k e c n : store_inv s → in_int64 c →
  n = length_ s - live1 (Snapshot s !! k) + live1 (Some e) →
  store_inv (mkStore (ReplaceOrInsert (tree s) (mkItem k e)) c n).
Proof.
  intros [Ht Hl Hc] Hc' ->. split; cbn [tree clock length_]; [auto with hap| |done].
  rewrite Snapshot_put, live_insert by done. lia.
Qed.

Lemma clock_inv_put s k e c n : btree_ok (tree s) → clock_inv s →
  Version e ≤ c → clock s ≤ c →
  clock_inv (mkStore (ReplaceOrInsert (tree s) (mkItem k e)) c n).
Proof.
  unfold clock_inv. intros Ht Hv He Hc. rewrite Snapshot_put by done. simpl.
  apply map_Forall_insert_2; [done|]. eapply map_Forall_impl; [exact Hv|]. intros; simpl in *; lia.
Qed.

Lemma int64_succ c : in_int64 c → c < maxInt64 → int64 (c + 1) = c + 1.
Proof. unfold in_int64. intros. apply int64_id. unfold in_int64. lia. Qed.

(** *** SetWithVersion *)

Lemma SetWithVersion_Snapshot s k e : btree_ok (tree s) →
  Snapshot (SetWithVersion s k e).2 = merge (Snapshot s) (k, e).
Proof.
  intros Ht. unfold SetWithVersion, merge, lww. rewrite tree_Get_Snapshot by done. simpl.
  destruct (Snapshot s !! k) as [old|] eqn:Hk; simpl; [|by rewrite Snapshot_put].
  destruct (newer e old); simpl; [by rewrite Snapshot_put|by rewrite insert_id].
Qed.

Lemma SetWithVersion_result s k e : btree_ok (tree s) →
  (SetWithVersion s k e).1 =
    match Snapshot s !! k with Some old => newer e old | None => true end.
Proof.
  intros Ht. unfold SetWithVersion. rewrite tree_Get_Snapshot by done.
  destruct (Snapshot s !! k) as [old|]; simpl; [|done]. by destruct (newer e old).
Qed.

Lemma SetWithVersion_inv s k e : store_inv s → in_int64 (Version e) →
  store_inv (SetWithVersion s k e).2.
Proof.
  intros Hs He. unfold SetWithVersion. rewrite tree_Get_Snapshot by auto with hap.
  destruct (Snapshot s !! k) as [old|] eqn:Hk; simpl.
  - destruct (newer e old); simpl; [|done].
    apply store_inv_put; [done| |].
    + destruct (clock s <? Version e); [done|by destruct Hs].
    + rewrite Hk. simpl. destruct (Deleted e), (Deleted old); simpl; lia.
  - apply store_inv_put; [done| |].
    + destruct (clock s <? Version e); [done|by destruct Hs].
    + rewrite Hk. simpl. destruct (Deleted e); simpl; lia.
Qed.

Lemma SetWithVersion_clock s k e : clock_inv s → store_inv s →
  clock_inv (SetWithVersion s k e).2 ∧ clock s ≤ clock (SetWithVersion s k e).2.
Proof.
  intros Hc Hs. unfold SetWithVersion.
  destruct (tree_Get s k) as [old ok]. destruct (ok && negb (newer e old)); simpl; [done|].
  destruct (Z.ltb_spec (clock s) (Version e));
    (split; [apply clock_inv_put; auto with hap; lia|lia]).
Qed.

(** *** SetFrom *)

Lemma SetFrom_inv s k v o : store_inv s → store_inv (SetFrom s k v o).2.
Proof.
  intros Hs. unfold SetFrom. rewrite tree_Get_Snapshot by auto with hap.
  destruct (Snapshot s !! k) as [old|] eqn:Hk; simpl.
  - destruct (newer _ old); simpl.
    + apply store_inv_put; [done|auto with hap|].
      rewrite Hk. simpl. destruct (Deleted old); lia.
    + destruct Hs. split; [done|done|simpl; auto with hap].
  - apply store_inv_put; [done|auto with hap|]. rewrite Hk. simpl. lia.
Qed.

Lemma SetFrom_entry s k v o :
  (SetFrom s k v o).1 = mkEntry v (int64 (clock s + 1)) o false.
Proof. unfold SetFrom. destruct (tree_Get s k). by case_match. Qed.

Lemma SetFrom_clock_val s k v o : clock (SetFrom s k v o).2 = int64 (clock s + 1).
Proof. unfold SetFrom. destruct (tree_Get s k). by case_match. Qed.

Lemma SetFrom_Snapshot s k v o : store_inv s → clock_inv s → clock s < maxInt64 →
  Snapshot (SetFrom s k v o).2 = <[k := mkEntry v (clock s + 1) o false]> (Snapshot s).
Proof.
  intros Hs Hc Hlt. unfold SetFrom. rewrite tree_Get_Snapshot by auto with hap.
  rewrite int64_succ by (by destruct Hs).
  destruct (Snapshot s !! k) as [old|] eqn:Hk; simpl.
  - rewrite newer_version by (apply Hc in Hk; simpl; lia). simpl.
    by rewrite Snapshot_put by auto with hap.
  - by rewrite Snapshot_put by auto with hap.
Qed.

Lemma SetFrom_clock s k v o : store_inv s → clock_inv s → clock s < maxInt64 →
  clock_inv (SetFrom s k v o).2 ∧ clock (SetFrom s k v o).2 = clock s + 1.
Proof.
  intros Hs Hc Hlt. rewrite SetFrom_clock_val, int64_succ by (done || by destruct Hs).
  split; [|done]. unfold clock_inv. rewrite SetFrom_Snapshot by done.
  rewrite SetFrom_clock_val, int64_succ by (done || by destruct Hs).
  apply map_Forall_insert_2; [done|]. eapply map_Forall_impl; [exact Hc|]. intros; simpl in *; lia.
Qed.

(** *** Get *)

Lemma Get_lookup s k : btree_ok (tree s) →
  Get s k = match Snapshot s !! k with
            | Some e => if Deleted e then ("", 0, false) else (Value e, Version e, true)
            | None => ("", 0, false)
            end.
Proof.
  intros Ht. unfold Get. rewrite tree_Get_Snapshot by done. by destruct (Snapshot s !! k).
Qed.
End snapshot.
#[export] Hint Resolve inv_tree store_inv_New clock_inv_New SetWithVersion_inv SetFrom_inv : hap.
