(* ===== verification/StoreProps.v ===== *)
(** * The correctness of the store

    Invariants over every history of calls, the functional specification of
    each method on the abstract map, the last-writer-wins merge as a
    convergent replicated data type, and the behaviour of the 64-bit clock at
    its limit. *)

From S2P Require Import Prelude BTree Store.
Local Open Scope Z_scope.

(** ** Deletion *)

Definition tombstone (origin : string) (e : Entry) : Prop :=
  Deleted e = true ∧ Origin e = origin ∧ Value e = "".

Section del.
Context `{!BTreeOps item, !BTreeLaws less}.
Implicit Types s : Store.

(** What [Del] has established after the keys [ks], starting from [s0]. *)
Record del_inv s0 origin (ks : gset string) (n : Z) (tombs : gmap string Entry) s : Prop := {
  del_store : store_inv s;
  del_dom : dom tombs = ks;
  del_tombs : map_Forall (λ _ e, tombstone origin e) tombs;
  del_snapshot : Snapshot s = tombs ∪ Snapshot s0;
  del_count : n = Z.of_nat (size (filter (λ k, (Get s0 k).2 = true) ks));
  del_length : length_ s = length_ s0 - n;
}.

Lemma Get_found s k : btree_ok (tree s) → (Get s k).2 = true ↔ live1 (Snapshot s !! k) = 1.
Proof.
  intros Ht. rewrite Get_lookup by done.
  destruct (Snapshot s !! k) as [e|]; [|done]. simpl. by destruct (Deleted e).
Qed.

Lemma size_filter_insert (P : string → Prop) `{∀ k, Decision (P k)} (ks : gset string) k :
  k ∉ ks → Z.of_nat (size (filter P ({[k]} ∪ ks))) =
           Z.of_nat (size (filter P ks)) + (if decide (P k) then 1 else 0).
Proof.
  intros Hk. rewrite filter_union_L, filter_singleton_L by apply _.
  destruct (decide (P k)) as [HP|HP].
  - rewrite size_union, size_singleton by set_solver. lia.
  - rewrite union_empty_l_L. lia.
Qed.

Lemma del_key_step s0 origin ks n tombs s k :
  btree_ok (tree s0) → del_inv s0 origin ks n tombs s →
  let '(n', tombs', s') := del_key origin (n, tombs, s) k in
  del_inv s0 origin ({[k]} ∪ ks) n' tombs' s'.
Proof.
  intros Ht0 [Hs Hdom Htb Hsn Hn Hl]. unfold del_key.
  destruct (tombs !! k) as [e|] eqn:Hk.
  { assert (k ∈ dom tombs) by (apply elem_of_dom; eauto).
    replace ({[k]} ∪ ks) with ks by set_solver. by split. }
  assert (Hnk : k ∉ ks) by (rewrite <-Hdom; by apply not_elem_of_dom).
  assert (Hk0 : Snapshot s !! k = Snapshot s0 !! k).
  { rewrite Hsn. by apply lookup_union_r. }
  rewrite tree_Get_Snapshot by auto with hap. rewrite Hk0.
  set (e := mkEntry "" _ origin true).
  pose proof (Get_found s0 k Ht0) as Hfound.
  assert (Hfin : ∀ b : Z, b = live1 (Snapshot s0 !! k) →
    del_inv s0 origin ({[k]} ∪ ks) (n + b) (<[k:=e]> tombs)
      (mkStore (ReplaceOrInsert (tree s) (mkItem k e)) (int64 (clock s + 1))
         (length_ s - b))).
  { intros b Hb. split.
    - apply store_inv_put; [done|auto with hap|]. rewrite Hk0. simpl. lia.
    - by rewrite dom_insert_L, Hdom.
    - by apply map_Forall_insert_2.
    - rewrite Snapshot_put, Hsn by auto with hap. apply insert_union_l.
    - rewrite size_filter_insert, <-Hn by done. f_equal.
      destruct (decide _) as [Hd|Hd]; rewrite Hfound in Hd; [lia|].
      destruct (Snapshot s0 !! k) as [e'|]; simpl in *; [destruct (Deleted e')|]; lia.
    - simpl. lia. }
  destruct (Snapshot s0 !! k) as [e'|]; simpl in *; [destruct (Deleted e')|]; simpl.
  - specialize (Hfin 0 eq_refl). by rewrite Z.add_0_r, Z.sub_0_r in Hfin.
  - exact (Hfin 1 eq_refl).
  - specialize (Hfin 0 eq_refl). by rewrite Z.add_0_r, Z.sub_0_r in Hfin.
Qed.

Lemma Del_del_inv s origin keys : store_inv s →
  let '(n, tombs, s') := Del s origin keys in
  del_inv s origin (list_to_set keys) n tombs s'.
Proof.
  intros Hs. unfold Del.
  assert (Hgen : ∀ ks n tombs s1, del_inv s origin ks n tombs s1 →
    let '(n', tombs', s') := fold_left (del_key origin) keys (n, tombs, s1) in
    del_inv s origin (ks ∪ list_to_set keys) n' tombs' s').
  { induction keys as [|k keys IH]; intros ks n tombs s1 Hd;
      cbn [fold_left list_to_set foldr].
    { by rewrite union_empty_r_L. }
    apply (del_key_step _ _ _ _ _ _ k) in Hd; [|auto with hap].
    destruct (del_key origin (n, tombs, s1) k) as [[n' tombs'] s1'].
    apply IH in Hd. replace (ks ∪ ({[k]} ∪ list_to_set keys))
      with ({[k]} ∪ ks ∪ list_to_set keys : gset string) by set_solver. exact Hd. }
  specialize (Hgen ∅ 0 ∅ s). rewrite union_empty_l_L in Hgen. apply Hgen.
  split; [done|by rewrite dom_empty_L|apply map_Forall_empty| | |lia].
  - by rewrite map_empty_union.
  - by rewrite filter_empty_L by apply _.
Qed.
End del.

(** ** Histories of calls *)

(** The calls that change a store; a version arriving from a peer is an
    [int64]. *)
Inductive store_op :=
| OpSetFrom (k v origin : string)
| OpSetWithVersion (k : string) (e : Entry)
| OpDel (origin : string) (keys : list string).

Definition op_wf (op : store_op) : bool :=
  match op with
  | OpSetWithVersion _ e => bool_decide (in_int64 (Version e))
  | _ => true
  end.

(** How often the call advances the local clock, at most. *)
Definition op_ticks (op : store_op) : Z :=
  match op with
  | OpSetFrom _ _ _ => 1
  | OpSetWithVersion _ _ => 0
  | OpDel _ keys => Z.of_nat (length keys)
  end.

Section histories.
Context `{!BTreeOps item}.

Definition exec_op (s : Store) (op : store_op) : Store :=
  match op with
  | OpSetFrom k v o => (SetFrom s k v o).2
  | OpSetWithVersion k e => (SetWithVersion s k e).2
  | OpDel o keys => (Del s o keys).2
  end.

Definition run (s : Store) (ops : list store_op) : Store := fold_left exec_op ops s.

(** No call of the history takes the clock past the largest [int64]. *)
Fixpoint no_wrap (s : Store) (ops : list store_op) : bool :=
  match ops with
  | [] => true
  | op :: ops' => (clock s + op_ticks op <=? maxInt64) && no_wrap (exec_op s op) ops'
  end.
End histories.

Section history_facts.
Context `{!BTreeOps item, !BTreeLaws less}.
Implicit Types s : Store.

Lemma exec_op_inv s op : store_inv s → op_wf op = true → store_inv (exec_op s op).
Proof.
  intros Hs Hwf. destruct op as [k v o|k e|o keys]; simpl in *; auto with hap.
  - apply SetWithVersion_inv; [done|]. by apply bool_decide_eq_true in Hwf.
  - pose proof (Del_del_inv s o keys Hs) as Hd. destruct (Del s o keys) as [[n tb] s'].
    by destruct Hd.
Qed.

Lemma run_inv s ops : store_inv s → forallb op_wf ops = true → store_inv (run s ops).
Proof.
  revert s. induction ops as [|op ops IH]; intros s Hs; simpl; [done|].
  intros [Hop Hops]%andb_prop. apply IH; [|done]. by apply exec_op_inv.
Qed.

(** Each key of [Del] ticks the clock at most once, and the clock stays ahead
    of every write it has stored. *)
Lemma Del_clock s origin keys : store_inv s → clock_inv s →
  clock s + Z.of_nat (length keys) ≤ maxInt64 →
  clock_inv (Del s origin keys).2 ∧ clock s ≤ clock (Del s origin keys).2 ∧
  map_Forall (λ _ e, clock s < Version e) (Del s origin keys).1.2.
Proof.
  intros Hs Hc Hle. unfold Del.
  assert (Hgen : ∀ n tombs s1, store_inv s1 → clock_inv s1 → clock s ≤ clock s1 →
    clock s1 + Z.of_nat (length keys) ≤ maxInt64 →
    map_Forall (λ _ e, clock s < Version e) tombs →
    let st := fold_left (del_key origin) keys (n, tombs, s1) in
    clock_inv st.2 ∧ clock s ≤ clock st.2 ∧ map_Forall (λ _ e, clock s < Version e) st.1.2).
  { clear Hle. induction keys as [|k keys IH]; intros n tombs s1 Hs1 Hc1 Hge Hle Htb;
      [done|]. cbn [fold_left length] in *.
    destruct (tombs !! k) as [e|] eqn:Hk.
    { assert (del_key origin (n, tombs, s1) k = (n, tombs, s1)) as ->.
      { unfold del_key. by rewrite Hk. }
      apply IH; auto with lia. }
    unfold del_key at 2 4 6. rewrite Hk. destruct (tree_Get s1 k) as [old ex] eqn:Hg.
    rewrite int64_succ by (try (by destruct Hs1); lia).
    apply IH.
    - rewrite tree_Get_Snapshot in Hg by auto with hap.
      apply store_inv_put; [done|destruct Hs1; unfold in_int64 in *; lia|].
      destruct (Snapshot s1 !! k); simplify_eq/=; [destruct (Deleted old)|]; simpl; lia.
    - apply clock_inv_put; auto with hap; simpl; lia.
    - simpl. lia.
    - simpl. lia.
    - apply map_Forall_insert_2; [simpl; lia|done]. }
  apply Hgen; auto with lia. apply map_Forall_empty.
Qed.

Lemma exec_op_clock s op : store_inv s → clock_inv s →
  clock s + op_ticks op ≤ maxInt64 →
  clock_inv (exec_op s op) ∧ clock s ≤ clock (exec_op s op).
Proof.
  intros Hs Hc Hle. destruct op as [k v o|k e|o keys]; simpl in *.
  - destruct (SetFrom_clock s k v o) as [? ->]; [done..|lia|]. split; [done|lia].
  - by apply SetWithVersion_clock.
  - destruct (Del_clock s o keys) as (? & ? & ?); done.
Qed.

Lemma run_clock s ops : store_inv s → clock_inv s → forallb op_wf ops = true →
  no_wrap s ops = true → clock_inv (run s ops) ∧ clock s ≤ clock (run s ops).
Proof.
  revert s. induction ops as [|op ops IH]; intros s Hs Hc; simpl; [auto with lia|].
  intros [Hop Hops]%andb_prop [Hle%Z.leb_le Hw]%andb_prop.
  destruct (exec_op_clock s op) as [Hc' Hge]; [done..|].
  destruct (IH (exec_op s op)) as [? ?]; auto using exec_op_inv. split; [done|lia].
Qed.
End history_facts.

(** ** Last-writer-wins merging converges *)

Definition merge_all (m : gmap string Entry) (us : list (string * Entry)) : gmap string Entry :=
  fold_left merge us m.

(** [m] holds, for key [k], the write [e] or one that supersedes it. *)
Definition covers (m : gmap string Entry) (k : string) (e : Entry) : Prop :=
  ∃ e', m !! k = Some e' ∧ newer e e' = false.

Lemma lww_cases o e : (lww o e = e ∨ o = Some (lww o e)) ∧ newer e (lww o e) = false.
Proof. destruct o as [e'|]; simpl; [destruct (newer e e') eqn:?|]; auto with hap. Qed.

Lemma merge_covers m k e : covers (merge m (k, e)) k e.
Proof.
  exists (lww (m !! k) e). unfold merge. simpl. rewrite lookup_insert_eq.
  split; [done|]. apply lww_cases.
Qed.

Lemma covers_merge m u k e : covers m k e → covers (merge m u) k e.
Proof.
  destruct u as [k' e']. intros (e0 & Hk & He0). unfold covers, merge. simpl.
  destruct (decide (k' = k)) as [->|Hne]; [|rewrite lookup_insert_ne by done; eauto].
  rewrite lookup_insert_eq, Hk. eexists; split; [done|]. simpl.
  destruct (newer e' e0) eqn:Hn; [|done].
  eapply newer_false_trans; [exact He0|]. auto with hap.
Qed.

Lemma covers_merge_all m us k e : covers m k e → covers (merge_all m us) k e.
Proof. revert m. induction us; simpl; auto using covers_merge. Qed.

Lemma merge_all_covers m us k e : (k, e) ∈ us → covers (merge_all m us) k e.
Proof.
  revert m. induction us as [|u us IH]; intros m; [by intros ?%elem_of_nil|].
  intros [<-|Hin]%elem_of_cons; simpl; [|by apply IH].
  apply covers_merge_all, merge_covers.
Qed.

(** A merged map holds only writes it started with or was given. *)
Lemma merge_all_source m us k e :
  merge_all m us !! k = Some e → m !! k = Some e ∨ (k, e) ∈ us.
Proof.
  revert m. induction us as [|[k' e'] us IH]; intros m; simpl; [auto|].
  intros [Hk|Hk]%IH; [|right; by apply elem_of_cons; right]. unfold merge in Hk. simpl in Hk.
  apply lookup_insert_Some in Hk as [[-> Hk]|[? Hk]]; [|by left].
  destruct (lww_cases (m !! k) e') as [[Hc|Hc] _].
  - right. apply elem_of_cons. left. congruence.
  - left. congruence.
Qed.

Lemma covers_unique k e1 e2 m1 m2 : m1 !! k = Some e1 → m2 !! k = Some e2 →
  covers m1 k e2 → covers m2 k e1 → e1 = e2.
Proof.
  intros H1 H2 (e' & ? & Hn1) (e'' & ? & Hn2). simplify_eq.
  by destruct (newer_total e1 e2) as [?|[?|?]]; [congruence| |congruence].
Qed.

(** The merged map depends only on the set of writes. *)
Lemma merge_all_set m us1 us2 :
  (∀ u, u ∈ us1 ↔ u ∈ us2) → merge_all m us1 = merge_all m us2.
Proof.
  intros Hset.
  assert (Hcov : ∀ us us', (∀ u, u ∈ us ↔ u ∈ us') → ∀ k e,
    merge_all m us !! k = Some e → covers (merge_all m us') k e).
  { intros us us' Hus k e [Hm|Hin]%merge_all_source.
    - apply covers_merge_all. exists e. auto with hap.
    - apply merge_all_covers. by apply Hus. }
  apply map_eq. intros k.
  destruct (merge_all m us1 !! k) as [e1|] eqn:H1.
  - pose proof (Hcov us1 us2 Hset k e1 H1) as Hc1. pose proof Hc1 as (e2 & H2 & _).
    rewrite H2. f_equal. eapply covers_unique; [done..| |done].
    eapply Hcov; [|done]. naive_solver.
  - destruct (merge_all m us2 !! k) as [e2|] eqn:H2; [|done].
    apply (Hcov us2 us1) in H2 as (e & He & _); [congruence|naive_solver].
Qed.

Section convergence_facts.
Context `{!BTreeOps item, !BTreeLaws less}.
Implicit Types s : Store.

(** Applying a batch with [SetWithVersion]. *)
Definition apply_updates (s : Store) (us : list (string * Entry)) : Store :=
  fold_left (λ s u, (SetWithVersion s u.1 u.2).2) us s.

Lemma SetWithVersion_tree s k e : btree_ok (tree s) → btree_ok (tree (SetWithVersion s k e).2).
Proof.
  intros Ht. unfold SetWithVersion. destruct (tree_Get s k) as [old ok].
  destruct (ok && negb (newer e old)); simpl; auto with hap.
Qed.

Lemma apply_updates_Snapshot s us : btree_ok (tree s) →
  Snapshot (apply_updates s us) = merge_all (Snapshot s) us.
Proof.
  unfold apply_updates. revert s. induction us as [|[k e] us IH]; intros s Ht; [done|].
  simpl. rewrite IH by by apply SetWithVersion_tree.
  by rewrite SetWithVersion_Snapshot.
Qed.

Lemma SetWithVersion_stale s k e : btree_ok (tree s) → covers (Snapshot s) k e →
  SetWithVersion s k e = (false, s).
Proof.
  intros Ht (e' & Hk & Hn). unfold SetWithVersion.
  rewrite tree_Get_Snapshot, Hk by done. by rewrite Hn.
Qed.
End convergence_facts.

(** ** Ordered traversal *)

(** A newer entry in the place of an older one loses no write. *)
Lemma covers_insert m k k' e e' : (∀ old, m !! k' = Some old → Version old < Version e') →
  covers m k e → covers (<[k' := e']> m) k e.
Proof.
  intros Hn (e0 & Hk & He). destruct (decide (k' = k)) as [->|Hne].
  - exists e'. rewrite lookup_insert_eq. split; [done|].
    apply (newer_false_trans _ e0); [done|]. by apply newer_asym, newer_version, Hn.
  - exists e0. by rewrite lookup_insert_ne.
Qed.

(** While the clock has room, no call of the store loses a write. *)
Lemma exec_op_keeps `{!BTreeOps item, !BTreeLaws less} (s : Store) op k e : store_inv s → clock_inv s →
  clock s + op_ticks op ≤ maxInt64 → covers (Snapshot s) k e → covers (Snapshot (exec_op s op)) k e.
Proof.
  intros Hs Hc Hlt Hcov. destruct op as [k' v o|k' e'|o keys]; cbn [exec_op op_ticks] in *.
  - rewrite SetFrom_Snapshot by (done || lia). apply covers_insert; [|done].
    intros old Hold. cbn. specialize (Hc _ _ Hold). cbn in Hc. lia.
  - rewrite SetWithVersion_Snapshot by auto with hap. by apply covers_merge.
  - pose proof (Del_del_inv s o keys Hs) as Hd.
    destruct (Del_clock s o keys Hs Hc ltac:(lia)) as (_ & _ & Hv).
    destruct (Del s o keys) as [[n tombs] s']. cbn [fst snd] in *. rewrite (del_snapshot _ _ _ _ _ _ Hd).
    destruct Hcov as (e0 & Hk & He). unfold covers. destruct (tombs !! k) as [t|] eqn:Ht.
    + exists t. split; [by apply lookup_union_Some_l|]. apply (newer_false_trans _ e0); [done|].
      apply newer_asym, newer_version. specialize (Hv _ _ Ht). specialize (Hc _ _ Hk). cbn in *. lia.
    + exists e0. by rewrite lookup_union_r.
Qed.

(** Stored versions are 64-bit integers. *)
Definition versions_ok (m : gmap string Entry) : Prop := map_Forall (λ _ e, in_int64 (Version e)) m.

Lemma merge_versions m k e : versions_ok m → in_int64 (Version e) → versions_ok (merge m (k, e)).
Proof.
  intros Hm He. apply map_Forall_insert_2; [|done]. unfold lww. cbn.
  destruct (m !! k) as [old|] eqn:Hk; [|done]. destruct (newer e old); [done|]. by apply (Hm k).
Qed.

Lemma exec_op_versions `{!BTreeOps item, !BTreeLaws less} (s : Store) op : store_inv s → clock_inv s →
  op_wf op = true → clock s + op_ticks op ≤ maxInt64 →
  versions_ok (Snapshot s) → versions_ok (Snapshot (exec_op s op)).
Proof.
  intros Hs Hc Hwf Hlt Hv. pose proof (inv_clock _ Hs) as Hcl. unfold in_int64 in Hcl.
  destruct op as [k' v o|k' e'|o keys]; cbn [exec_op op_ticks] in *.
  - rewrite SetFrom_Snapshot by (done || lia). apply map_Forall_insert_2; [|done].
    unfold in_int64. cbn. lia.
  - rewrite SetWithVersion_Snapshot by auto with hap. apply merge_versions; [done|].
    by apply bool_decide_eq_true in Hwf.
  - pose proof (Del_del_inv s o keys Hs) as Hd.
    destruct (Del_clock s o keys Hs Hc ltac:(lia)) as (Hc' & _ & Hvt).
    destruct (Del s o keys) as [[n tombs] s']. cbn [fst snd] in *.
    pose proof (inv_clock _ (del_store _ _ _ _ _ _ Hd)) as Hcl'. unfold in_int64 in Hcl'.
    intros k e Hk. pose proof (Hc' k e Hk) as Hle. cbn in Hle.
    rewrite (del_snapshot _ _ _ _ _ _ Hd) in Hk. apply lookup_union_Some_raw in Hk as [Hk|[_ Hk]].
    + specialize (Hvt _ _ Hk). cbn in Hvt. unfold in_int64. lia.
    + by apply (Hv k).
Qed.

Lemma run_versions `{!BTreeOps item, !BTreeLaws less} (s : Store) ops : store_inv s → clock_inv s →
  forallb op_wf ops = true → no_wrap s ops = true →
  versions_ok (Snapshot s) → versions_ok (Snapshot (run s ops)).
Proof.
  revert s. induction ops as [|op ops IH]; intros s Hs Hc; simpl; [done|].
  intros [Hop Hops]%andb_prop [Hn Hns]%andb_prop Hv. apply Z.leb_le in Hn.
  apply IH; [by apply exec_op_inv|by apply exec_op_clock|done|done|]. by apply exec_op_versions.
Qed.

Definition item_live (it : item) : bool := negb (Deleted (item_Entry it)).

Section traversal.
Context `{!BTreeOps item, !BTreeLaws less}.
Implicit Types s : Store.

(** The live items in ascending key order. *)
Definition live_items s : list item := List.filter item_live (Ascend (tree s)).

Lemma Iterate_fold {S} s (fn : string → Entry → S → S * bool) (g : string → Entry → S → S) st :
  (∀ k e st, fn k e st = (g k e st, true)) →
  Iterate s fn st = fold_left (λ st it, g (key it) (item_Entry it) st) (live_items s) st.
Proof.
  intros Hfn. unfold Iterate, live_items. rewrite fold_left_filter.
  rewrite (visit_all _ (λ it st, if item_live it then g (key it) (item_Entry it) st else st)).
  { done. }
  intros it st'. unfold item_live. destruct (Deleted (item_Entry it)); simpl; [done|].
  by rewrite Hfn.
Qed.

Lemma Range_filter s lo hi :
  Range s lo hi = item_Entry <$> List.filter item_live
    (AscendRange (tree s) (mkItem lo zeroEntry) (mkItem hi zeroEntry)).
Proof.
  unfold Range.
  rewrite (visit_all _ (λ it out, if item_live it then out ++ [item_Entry it] else out)).
  - rewrite <-(fold_left_filter item_live (λ out it, out ++ [item_Entry it])).
    by rewrite fold_left_snoc.
  - intros it st. unfold item_live. by destruct (Deleted (item_Entry it)).
Qed.

Lemma elem_of_live_items s k e : btree_ok (tree s) →
  mkItem k e ∈ live_items s ↔ Snapshot s !! k = Some e ∧ Deleted e = false.
Proof.
  intros Ht. unfold live_items. rewrite list_elem_of_In, List.filter_In, <-list_elem_of_In.
  rewrite <-Snapshot_Ascend by done. unfold item_live. simpl. by rewrite negb_true_iff.
Qed.

Lemma live_items_sorted s : btree_ok (tree s) →
  StronglySorted (λ x y, less x y = true) (live_items s).
Proof. intros Ht. by apply StronglySorted_filter, Ascend_sorted. Qed.
End traversal.

(** ** Properties *)

Section properties.
Context `{!BTreeOps item, !BTreeLaws less}.
Implicit Types s : Store.

(** Every store reachable from [New] by any history of [SetFrom],
    [SetWithVersion] and [Del] calls keeps its container well-formed, its
    clock a 64-bit integer, and its cached length equal to the number of
    keys that are not tombstones. *)
Theorem store_history_inv (ops : list store_op) :
  forallb op_wf ops = true →
  let s := run New ops in
  btree_ok (tree s) ∧ in_int64 (clock s) ∧ Len s = live (Snapshot s).
Proof. intros Hops. by destruct (run_inv New ops store_inv_New Hops). Qed.

(** In every history in which the local clock does not pass the largest
    [int64], the clock never goes back and no stored write is ahead of it,
    so that the next local version is larger than every version stored. *)
Theorem store_history_clock (ops1 ops2 : list store_op) :
  forallb op_wf (ops1 ++ ops2) = true → no_wrap New (ops1 ++ ops2) = true →
  let s1 := run New ops1 in let s2 := run New (ops1 ++ ops2) in
  clock s1 ≤ clock s2 ∧ ∀ k e, Snapshot s2 !! k = Some e → Version e ≤ clock s2.
Proof.
  intros Hwf Hw. unfold run. rewrite fold_left_app. fold (run New ops1).
  rewrite forallb_app in Hwf. apply andb_prop in Hwf as [Hwf1 Hwf2].
  assert (Hsplit : ∀ s ops, no_wrap s (ops ++ ops2) = true →
    no_wrap s ops = true ∧ no_wrap (run s ops) ops2 = true).
  { intros s ops. revert s. induction ops as [|op ops IH]; intros s; simpl; [done|].
    intros [-> H]%andb_prop. by apply IH. }
  apply Hsplit in Hw as [Hw1 Hw2].
  destruct (run_clock New ops1) as [Hc _]; [auto with hap..|].
  destruct (run_clock (run New ops1) ops2) as [Hc2 ?]; [auto using run_inv with hap..|].
  split; [done|]. intros k e Hk. exact (Hc2 k e Hk).
Qed.

(** A local write wins: while the clock is below the largest [int64],
    [SetFrom] stores the new entry, a [Get] of the key returns the value and
    version just written, every other key reads as before, and the written
    entry is newer than every entry the store held. *)
Theorem SetFrom_write_wins s k v origin :
  store_inv s → clock_inv s → clock s < maxInt64 →
  let '(e, s') := SetFrom s k v origin in
  Get s' k = (v, Version e, true) ∧
  (∀ k', k' ≠ k → Get s' k' = Get s k') ∧
  (∀ k' e', Snapshot s !! k' = Some e' → newer e e' = true) ∧
  store_inv s' ∧ clock_inv s' ∧ clock s' = clock s + 1.
Proof.
  intros Hs Hc Hlt.
  pose proof (SetFrom_Snapshot s k v origin Hs Hc Hlt) as Hsn.
  pose proof (SetFrom_inv s k v origin Hs) as Hs'.
  destruct (SetFrom_clock s k v origin Hs Hc Hlt) as [Hc' Hck].
  pose proof (SetFrom_entry s k v origin) as He.
  destruct (SetFrom s k v origin) as [e s']; simpl in *.
  rewrite int64_succ in He by (done || by destruct Hs).
  split; [by rewrite Get_lookup, Hsn, lookup_insert_eq, He by auto with hap|].
  split; [|split; [|done]].
  - intros k' Hne. rewrite !Get_lookup by auto with hap. by rewrite Hsn, lookup_insert_ne.
  - intros k' e' Hk'. apply newer_version. rewrite He. simpl. apply Hc in Hk'. lia.
Qed.

(** C40: At the clock's limit a local write is lost: when the clock is the
    largest [int64] (one peer entry carrying that version is enough),
    [SetFrom] wraps the clock to the smallest [int64], the entry it returns
    carries that version, and a key that already holds a write with a larger
    version keeps it. *)
Theorem SetFrom_clock_limit s k v origin old :
  btree_ok (tree s) → clock s = maxInt64 →
  Snapshot s !! k = Some old → minInt64 < Version old →
  let '(e, s') := SetFrom s k v origin in
  Version e = minInt64 ∧ clock s' = minInt64 ∧ Snapshot s' = Snapshot s.
Proof.
  intros Ht Hc Hk Hv. unfold SetFrom. rewrite tree_Get_Snapshot, Hk by done. rewrite Hc.
  change (int64 (maxInt64 + 1)) with minInt64. simpl.
  destruct (newer _ old) eqn:Hn; [|done].
  apply newer_spec in Hn. simpl in Hn. naive_solver lia.
Qed.

(** C9: [SetWithVersion] refines the abstract merge: it reports whether the
    entry is newer than the stored one, the resulting map is the old one
    with the newer of the two entries under the key, and an entry that is
    not newer leaves the whole store untouched. *)
Theorem SetWithVersion_refines s k e :
  btree_ok (tree s) →
  let '(ok, s') := SetWithVersion s k e in
  ok = match Snapshot s !! k with Some old => newer e old | None => true end ∧
  Snapshot s' = <[k := lww (Snapshot s !! k) e]> (Snapshot s) ∧
  (ok = false → s' = s).
Proof.
  intros Ht. pose proof (SetWithVersion_result s k e Ht) as Hr.
  pose proof (SetWithVersion_Snapshot s k e Ht) as Hsn.
  destruct (SetWithVersion s k e) as [ok s'] eqn:Hx; simpl in *.
  split; [done|]. split; [done|]. intros ->. unfold SetWithVersion in Hx.
  destruct (tree_Get s k) as [old ok]. by destruct (ok && negb (newer e old)); simplify_eq/=.
Qed.

(** C8: Replicas converge: two stores that start from the same entries and
    receive the same set of writes through [SetWithVersion], in any order
    and with any repetitions, hold the same entries, tombstones included. *)
Theorem replicas_converge s1 s2 us1 us2 :
  btree_ok (tree s1) → btree_ok (tree s2) → Snapshot s1 = Snapshot s2 →
  (∀ u, u ∈ us1 ↔ u ∈ us2) →
  Snapshot (apply_updates s1 us1) = Snapshot (apply_updates s2 us2) ∧
  ∀ k, Get (apply_updates s1 us1) k = Get (apply_updates s2 us2) k.
Proof.
  intros Ht1 Ht2 Hsn Hus.
  assert (Heq : Snapshot (apply_updates s1 us1) = Snapshot (apply_updates s2 us2)).
  { rewrite !apply_updates_Snapshot, Hsn by done. by apply merge_all_set. }
  split; [done|]. intros k.
  assert (Hok : ∀ s us, btree_ok (tree s) → btree_ok (tree (apply_updates s us))).
  { intros s us. unfold apply_updates. revert s.
    induction us; simpl; auto using SetWithVersion_tree. }
  rewrite !Get_lookup by auto. by rewrite Heq.
Qed.

(** [Del] deletes: it returns the number of distinct keys that were
    readable, one tombstone per distinct key with the caller's origin, after
    it none of the keys is readable and every other key reads as before, the
    length drops by the returned number, and while the clock has room the
    tombstones are newer than every entry the store held. *)
Theorem Del_deletes s origin keys :
  store_inv s → clock_inv s → clock s + Z.of_nat (length keys) ≤ maxInt64 →
  let '(n, tombstones, s') := Del s origin keys in
  n = Z.of_nat (size (filter (λ k, (Get s k).2 = true) (list_to_set keys : gset string))) ∧
  dom tombstones = list_to_set keys ∧
  Snapshot s' = tombstones ∪ Snapshot s ∧
  Len s' = Len s - n ∧
  (∀ k, k ∈ keys → Get s' k = ("", 0, false)) ∧
  (∀ k, k ∉ keys → Get s' k = Get s k) ∧
  (∀ k t, tombstones !! k = Some t →
     Deleted t = true ∧ Origin t = origin ∧
     ∀ k' e, Snapshot s !! k' = Some e → newer t e = true).
Proof.
  intros Hs Hc Hle.
  pose proof (Del_del_inv s origin keys Hs) as Hd.
  destruct (Del_clock s origin keys Hs Hc Hle) as (_ & _ & Hv).
  destruct (Del s origin keys) as [[n tombs] s']. simpl in Hv.
  destruct Hd as [Hs' Hdom Htb Hsn Hn Hl].
  split; [done|]. split; [done|]. split; [done|]. split; [done|].
  split; [|split].
  - intros k Hk. assert (k ∈ dom tombs) as [e He]%elem_of_dom by set_solver.
    rewrite Get_lookup, Hsn by auto with hap. rewrite (lookup_union_Some_l _ _ _ e) by done.
    by destruct (Htb k e He) as (-> & _).
  - intros k Hk. rewrite !Get_lookup by auto with hap. rewrite Hsn.
    rewrite lookup_union_r; [done|]. apply not_elem_of_dom. set_solver.
  - intros k t Ht. destruct (Htb k t Ht) as (? & ? & _).
    split; [done|]. split; [done|]. intros k' e He. apply newer_version.
    apply Hv in Ht. apply Hc in He. lia.
Qed.

(** [Range] returns the live entries of the keys between [start]
    (inclusive) and [end_] (exclusive), each exactly once, in ascending key
    order. *)
Theorem Range_ordered s start end_ :
  btree_ok (tree s) →
  ∃ its : list item, Range s start end_ = item_Entry <$> its ∧
    StronglySorted (λ x y, less x y = true) its ∧
    ∀ k e, mkItem k e ∈ its ↔
      Snapshot s !! k = Some e ∧ Deleted e = false ∧
      GoStr.ltb k start = false ∧ GoStr.ltb k end_ = true.
Proof.
  intros Ht. eexists. split; [apply Range_filter|].
  rewrite AscendRange_Ascend by done. split.
  - by apply StronglySorted_filter, StronglySorted_filter, Ascend_sorted.
  - intros k e. rewrite list_elem_of_In, !List.filter_In, <-list_elem_of_In.
    rewrite <-Snapshot_Ascend by done. unfold item_live, less. simpl.
    rewrite andb_true_iff, !negb_true_iff. naive_solver.
Qed.
End properties.

(** ** Instances at concrete inputs *)

Module StoreExamples.
#[local] Existing Instance SortedList.ops.
#[local] Existing Instance SortedList_laws.

Definition e1 : Entry := mkEntry "x" 7 "node-b" false.
Definition limit : Entry := mkEntry "x" maxInt64 "node-b" false.

Definition history : list store_op :=
  [OpSetFrom "a" "1" "node-a"; OpSetWithVersion "b" e1;
   OpSetFrom "a" "2" "node-a"; OpDel "node-a" ["b"; "c"; "b"]].

Definition s1 : Store := run New history.

Example history_len : (Len s1, clock s1) = (1, 10).
Proof. vm_compute. reflexivity. Qed.

Lemma s1_inv : store_inv s1.
Proof. apply run_inv; [apply store_inv_New|vm_compute; reflexivity]. Qed.

Lemma s1_clock : clock_inv s1.
Proof. apply (run_clock New history); [apply store_inv_New|apply clock_inv_New|vm_compute; reflexivity..]. Qed.

Lemma store_history_inv_witness : Len s1 = live (Snapshot s1).
Proof. apply (store_history_inv history). vm_compute. reflexivity. Defined.

Lemma store_history_clock_witness :
  clock (run New (take 2 history)) ≤ clock (run New (take 2 history ++ drop 2 history)).
Proof.
  apply (store_history_clock (take 2 history) (drop 2 history));
    vm_compute; reflexivity.
Defined.

Lemma SetFrom_write_wins_witness :
  Get (SetFrom s1 "a" "3" "node-a").2 "a" = ("3", 11, true).
Proof.
  exact (proj1 (SetFrom_write_wins s1 "a" "3" "node-a" s1_inv s1_clock eq_refl)).
Defined.

Definition s_limit : Store := run New [OpSetWithVersion "a" limit].

Lemma SetFrom_clock_limit_witness :
  Snapshot (SetFrom s_limit "a" "3" "node-a").2 = Snapshot s_limit.
Proof.
  refine (proj2 (proj2 (SetFrom_clock_limit s_limit "a" "3" "node-a" limit _ _ _ _))).
  - apply run_inv; [apply store_inv_New|vm_compute; reflexivity].
  - reflexivity.
  - vm_compute. reflexivity.
  - reflexivity.
Defined.

Lemma SetWithVersion_refines_witness :
  (SetWithVersion s1 "b" e1).1 = false ∧ (SetWithVersion s1 "b" e1).2 = s1.
Proof.
  pose proof (SetWithVersion_refines s1 "b" e1 (inv_tree _ s1_inv)) as H.
  destruct (SetWithVersion s1 "b" e1) as [ok s'] eqn:E.
  assert (ok = false) as -> by (destruct H as [-> _]; vm_compute; reflexivity).
  split; [reflexivity|]. by apply H.
Defined.

Definition u1 := ("k", e1).
Definition u2 := ("k", mkEntry "" 9 "node-a" true).

Lemma replicas_converge_witness :
  Snapshot (apply_updates New [u1; u2]) = Snapshot (apply_updates New [u2; u1; u2]).
Proof.
  refine (proj1 (replicas_converge New New [u1; u2] [u2; u1; u2] _ _ eq_refl _)).
  1, 2: apply (inv_tree _ store_inv_New).
  intros u. rewrite !elem_of_cons. set_solver.
Defined.

Lemma Del_deletes_witness : Len (Del s1 "node-a" ["a"; "zz"; "a"]).2 = Len s1 - 1.
Proof.
  pose proof (Del_deletes s1 "node-a" ["a"; "zz"; "a"] s1_inv s1_clock) as H.
  destruct (Del s1 "node-a" ["a"; "zz"; "a"]) as [[n tb] s'] eqn:E.
  destruct H as (Hn & _ & _ & Hl & _).
  { vm_compute. discriminate. }
  assert (n = 1) as -> by (rewrite Hn; vm_compute; reflexivity). exact Hl.
Defined.

Lemma Range_ordered_witness :
  ∃ its : list item, Range s1 "a" "c" = item_Entry <$> its ∧
    StronglySorted (λ x y, less x y = true) its.
Proof.
  destruct (Range_ordered s1 "a" "c" (inv_tree _ s1_inv)) as (its & H1 & H2 & _).
  exists its. split; [exact H1|exact H2].
Defined.
End StoreExamples.
