(* ===== verification/HashRing.v ===== *)
(** * internal/hashring: the consistent hash ring

    The model of [consistentHashring].  xxHash (github.com/cespare/xxhash) is
    not part of the repository and is the parameter [XXHash]; [sort.Slice] is
    used through its contract, so nothing depends on how ties are broken.
    Every method runs under the ring's mutex and is one state transformer. *)

From S2P Require Import Prelude GoStrconv GoSort.
Local Open Scope Z_scope.

(** ** Data *)

Record Replica := mkReplica { NodeID : string; Address : string }.

Record RingEntryInfo := mkRingEntryInfo {
  info_Hash : Z;
  info_NodeID : string;
  info_Address : string;
}.

Record SlotRange := mkSlotRange { Start : Z; End_ : Z; Node : Replica }.

Record ringEntry := mkRingEntry { hash : Z; nodeID : string; address : string }.

Record consistentHashring := mkRing {
  localNodeID : string;
  replicas : Z;
  entries : list ringEntry;
  nodeReplicas : gmap string Z;
  nodes : gset string;
}.

#[export] Instance Replica_eq_dec : EqDecision Replica.
Proof. solve_decision. Defined.
#[export] Instance ringEntry_eq_dec : EqDecision ringEntry.
Proof. solve_decision. Defined.

(** The 64-bit hash of a string. *)
Class XXHash := Sum64String : string → Z.
Class XXHashLaws `{!XXHash} : Prop := Sum64String_range s : in_uint64 (Sum64String s).

(** ** Operations *)

Definition New (localNodeID : string) : consistentHashring := mkRing localNodeID 5 [] ∅ ∅.

Definition removeNodeLocked (r : consistentHashring) (id : string) : consistentHashring :=
  mkRing (localNodeID r) (replicas r)
    (List.filter (λ e, negb (String.eqb (nodeID e) id)) (entries r))
    (delete id (nodeReplicas r)) (nodes r ∖ {[id]}).

Definition RemoveNode (r : consistentHashring) (id : string) : consistentHashring :=
  removeNodeLocked r id.

Definition hash_less (a b : ringEntry) : bool := hash a <? hash b.

Definition numSlots : Z := 16384.

Section operations.
Context `{!XXHash, !SliceSort}.

Definition HashKey (key : string) : Z := Sum64String key.
Definition hashKey (key : string) : Z := HashKey key.

(** The virtual nodes that [AddNode] appends for one physical node. *)
Definition vnodes (id addr : string) (n : Z) : list ringEntry :=
  (λ i, mkRingEntry (hashKey (id +:+ ":" +:+ Itoa i)) id addr) <$> seqZ 0 n.

Definition AddNode (r : consistentHashring) (id addr : string) (n : Z) : consistentHashring :=
  let n := if n <=? 0 then replicas r else n in
  let r := removeNodeLocked r id in
  mkRing (localNodeID r) (replicas r)
    (Slice hash_less (entries r ++ vnodes id addr n))
    (<[id := n]> (nodeReplicas r)) ({[id]} ∪ nodes r).

(** The index of the first entry at or after [h], wrapping to the first one. *)
Definition ring_index (es : list ringEntry) (h : Z) : nat :=
  let idx := Search (length es)
    (λ i, match es !! i with Some e => h <=? hash e | None => false end) in
  if (idx =? length es)%nat then 0%nat else idx.

Definition GetNode (r : consistentHashring) (key : string) : string * string :=
  match entries r with
  | [] => ("", "")
  | _ :: _ =>
      match entries r !! ring_index (entries r) (hashKey key) with
      | Some e => (nodeID e, address e)
      | None => ("", "")
      end
  end.

(** The loop of [GetReplicas]: [todo] are the values of the loop variable still
    to come, the result is returned at the [break] or at the end. *)
Fixpoint replicas_loop (es : list ringEntry) (idx : nat) (count : Z) (todo : list nat)
    (seen : gset string) (acc : list Replica) : list Replica :=
  match todo with
  | [] => acc
  | i :: todo' =>
      match es !! ((idx + i) `mod` length es)%nat with
      | None => acc
      | Some e =>
          if bool_decide (nodeID e ∈ seen) then replicas_loop es idx count todo' seen acc
          else
            let acc' := acc ++ [mkReplica (nodeID e) (address e)] in
            if count <=? Z.of_nat (length acc') then acc'
            else replicas_loop es idx count todo' ({[nodeID e]} ∪ seen) acc'
      end
  end.

Definition GetReplicas (r : consistentHashring) (key : string) (count : Z) : list Replica :=
  match entries r with
  | [] => []
  | _ :: _ =>
      if count <=? 0 then []
      else replicas_loop (entries r) (ring_index (entries r) (hashKey key)) count
             (seq 0 (length (entries r))) ∅ []
  end.

(** The address of a node's first entry. *)
Definition nodeAddrs (es : list ringEntry) : gmap string string :=
  fold_left (λ m e, match m !! nodeID e with
                    | Some _ => m
                    | None => <[nodeID e := address e]> m
                    end) es ∅.

(** [getSlotOwner]; a missing map key reads as the empty string. *)
Definition getSlotOwner (es : list ringEntry) (addrs : gmap string string) (slot : Z)
    : Replica :=
  match es !! ring_index es (hashKey ("SLOT:" +:+ Itoa slot)) with
  | Some e => mkReplica (nodeID e) (default "" (addrs !! nodeID e))
  | None => mkReplica "" ""
  end.

(** One iteration of the scan: the ranges closed so far, the start and the
    owner of the open one. *)
Definition slot_step (owner : Z → Replica) (st : list SlotRange * Z * Replica) (slot : Z)
    : list SlotRange * Z * Replica :=
  let '(ranges, currentStart, currentOwner) := st in
  if negb (String.eqb (NodeID (owner slot)) (NodeID currentOwner)) then
    (ranges ++ [mkSlotRange currentStart (slot - 1) currentOwner], slot, owner slot)
  else st.

Definition slot_scan (owner : Z → Replica) (n : Z) : list SlotRange :=
  let '(ranges, currentStart, currentOwner) :=
    fold_left (slot_step owner) (seqZ 1 (n - 1)) ([], 0, owner 0) in
  ranges ++ [mkSlotRange currentStart (n - 1) currentOwner].

Definition GetSlotRanges (r : consistentHashring) : list SlotRange :=
  match entries r with
  | [] => []
  | _ :: _ => slot_scan (getSlotOwner (entries r) (nodeAddrs (entries r))) numSlots
  end.

(** A Go map is ranged over in an unspecified order; the sort makes the result
    independent of it. *)
Definition Nodes (r : consistentHashring) : list string := Strings (elements (nodes r)).

Definition RingSnapshot (r : consistentHashring) : list RingEntryInfo :=
  (λ e, mkRingEntryInfo (hash e) (nodeID e) (address e)) <$> entries r.
End operations.
