(* ===== verification/HashRingProps.v ===== *)
(** * The correctness of the hash ring

    The ring refines an abstract membership table; lookups return the nearest
    entry clockwise; replicas are the nearest distinct nodes; membership
    changes move only the keys they have to; nodes that know the same members
    agree; the slot table tiles the slot space. *)

From S2P Require Import Prelude GoStrconv GoSort HashRing.
Local Open Scope Z_scope.

(** ** Lookup: the first entry at or after a hash *)

Abbreviation ring_sorted := (sorted_by hash_less).

Lemma hash_less_strict_weak : strict_weak hash_less.
Proof. apply (key_strict_weak hash Z.ltb). auto with hap. Qed.
#[export] Hint Resolve hash_less_strict_weak : hap.

(** The entry a hash belongs to, by definition of the ring. *)
Definition successor (es : list ringEntry) (h : Z) : option ringEntry :=
  match List.find (λ e, h <=? hash e) es with
  | Some e => Some e
  | None => head es
  end.

Lemma ring_sorted_lookup es i j x y : ring_sorted es → (i ≤ j)%nat →
  es !! i = Some x → es !! j = Some y → hash x ≤ hash y.
Proof.
  intros Hs. revert i j. induction Hs as [|z es Hes IH Hall]; intros i j Hij Hi Hj; [done|].
  rewrite Forall_forall in Hall.
  destruct i as [|i], j as [|j]; simplify_eq/=; try lia.
  - apply list_elem_of_lookup_2, Hall in Hj. unfold hash_less in Hj. apply Z.ltb_ge in Hj. lia.
  - apply (IH i j); auto with lia.
Qed.

Lemma find_first {A} (f : A → bool) l n :
  (∀ i x, (i < n)%nat → l !! i = Some x → f x = false) →
  (∀ x, l !! n = Some x → f x = true) → (n ≤ length l)%nat →
  List.find f l = l !! n.
Proof.
  revert n. induction l as [|a l IH]; intros [|n] Hlt Hn Hle; simpl in *; try done; [|lia..|].
  - by rewrite (Hn a).
  - rewrite (Hlt 0%nat a) by (lia || done). apply IH; [|done|lia].
    intros i x Hi Hx. apply (Hlt (S i) x); [lia|done].
Qed.

Lemma Search_find es h : ring_sorted es →
  let idx := Search (length es)
    (λ i, match es !! i with Some e => h <=? hash e | None => false end) in
  List.find (λ e, h <=? hash e) es = es !! idx ∧ (idx ≤ length es)%nat.
Proof.
  intros Hs. destruct (Search_spec (length es)
    (λ i, match es !! i with Some e => h <=? hash e | None => false end)) as (Hle & Hlo & Hhi).
  { intros a b Hab Hb Ha. destruct (es !! a) as [x|] eqn:Hx; [|done].
    destruct (lookup_lt_is_Some_2 es b Hb) as [y Hy]. rewrite Hy.
    pose proof (ring_sorted_lookup es a b x y Hs Hab Hx Hy). lia. }
  split; [|done]. apply find_first; [| |done].
  - intros i x Hi Hx. specialize (Hlo i Hi). by rewrite Hx in Hlo.
  - intros x Hx. specialize (Hhi _ (Nat.le_refl _)). rewrite Hx in Hhi.
    apply Hhi. by eapply lookup_lt_Some.
Qed.

Lemma ring_index_successor es h : ring_sorted es → es !! ring_index es h = successor es h.
Proof.
  intros Hs. unfold ring_index, successor.
  destruct (Search_find es h Hs) as [Hf Hle]. rewrite Hf. clear Hf.
  set (idx := Search _ _) in *. destruct (Nat.eqb_spec idx (length es)) as [Heq|].
  - rewrite Heq, (lookup_ge_None_2 es (length es)) by lia. by destruct es.
  - destruct (lookup_lt_is_Some_2 es idx) as [x ->]; [lia|done].
Qed.

Lemma ring_index_lt es h : es ≠ [] → ring_sorted es → (ring_index es h < length es)%nat.
Proof.
  intros Hne Hs. unfold ring_index. destruct (Search_find es h Hs) as [_ Hle].
  set (idx := Search _ _) in *. destruct (Nat.eqb_spec idx (length es)); [|lia].
  destruct es; [done|simpl; lia].
Qed.

Lemma GetNode_successor `{!XXHash} r key : ring_sorted (entries r) →
  GetNode r key = match successor (entries r) (hashKey key) with
                  | Some e => (nodeID e, address e)
                  | None => ("", "")
                  end.
Proof.
  intros Hs. unfold GetNode. rewrite ring_index_successor by done.
  unfold successor. by destruct (entries r).
Qed.

(** The entry found is the smallest one not before [h]; the head is the
    smallest of all. *)
Lemma ring_sorted_head es e e' : ring_sorted (e :: es) → e' ∈ e :: es → hash e ≤ hash e'.
Proof.
  intros Hs [->|Hin]%elem_of_cons; [lia|].
  apply StronglySorted_cons in Hs as [Hall _]. rewrite Forall_forall in Hall.
  specialize (Hall e' Hin). unfold hash_less in Hall. bool_to_prop. lia.
Qed.

Lemma find_ge_min es h e e' : ring_sorted es →
  List.find (λ e, h <=? hash e) es = Some e → e' ∈ es → h ≤ hash e' → hash e ≤ hash e'.
Proof.
  induction es as [|x es IH]; intros Hs; simpl; [done|].
  pose proof Hs as [_ Hs']%StronglySorted_cons.
  destruct (Z.leb_spec h (hash x)).
  - intros [= ->] Hin _. by apply ring_sorted_head in Hin.
  - intros Hf [->|Hin]%elem_of_cons Hle; [lia|]. by apply IH.
Qed.

Lemma successor_elem es h e : successor es h = Some e → e ∈ es.
Proof.
  unfold successor. destruct (List.find _ es) as [e'|] eqn:Hf.
  - intros [= ->]. apply List.find_some in Hf as [Hin _]. by apply list_elem_of_In.
  - intros He. destruct es; simplify_eq/=. apply elem_of_cons. by left.
Qed.

(** Entries that are dropped without being the successor do not matter. *)
Lemma successor_filter es h e (p : ringEntry → bool) :
  successor es h = Some e → p e = true → successor (List.filter p es) h = Some e.
Proof.
  unfold successor. destruct (List.find (λ e, h <=? hash e) es) as [e'|] eqn:Hf.
  - intros [= ->] Hp. assert (List.find (λ e, h <=? hash e) (List.filter p es) = Some e) as ->;
      [|done]. induction es as [|x es IH]; simpl in *; [done|].
    destruct (h <=? hash x) eqn:Hx.
    + simplify_eq. rewrite Hp. simpl. by rewrite Hx.
    + destruct (p x); simpl; [rewrite Hx|]; by apply IH.
  - intros He Hp. assert (List.find (λ e, h <=? hash e) (List.filter p es) = None) as ->.
    { destruct (List.find _ (List.filter p es)) as [x|] eqn:Hx; [|done].
      apply List.find_some in Hx as [[Hx _]%List.filter_In Hh].
      rewrite (List.find_none _ _ Hf x Hx) in Hh. done. }
    destruct es; simplify_eq/=. by rewrite Hp.
Qed.

(** ** Refinement of the membership table *)

(** The abstract state of a ring: the address and the number of virtual nodes
    of every member. *)
Abbreviation members := (gmap string (string * Z)).

Section refinement.
Context `{!XXHash}.

Definition member_entries (M : members) : list ringEntry :=
  map_to_list M ≫= λ m, vnodes m.1 m.2.1 m.2.2.

Record ring_repr (r : consistentHashring) (M : members) : Prop := {
  repr_sorted : ring_sorted (entries r);
  repr_entries : entries r ≡ₚ member_entries M;
  repr_nodes : nodes r = dom M;
  repr_counts : nodeReplicas r = snd <$> M;
  repr_pos : map_Forall (λ _ m, 0 < m.2) M;
  repr_default : 0 < replicas r;
}.

Lemma elem_of_vnodes e id a n : e ∈ vnodes id a n →
  nodeID e = id ∧ address e = a.
Proof. unfold vnodes. by intros (i & -> & _)%list_elem_of_fmap. Qed.

Lemma elem_of_member_entries e M : e ∈ member_entries M ↔
  ∃ n, M !! nodeID e = Some (address e, n) ∧ e ∈ vnodes (nodeID e) (address e) n.
Proof.
  unfold member_entries. rewrite list_elem_of_bind. split.
  - intros ([id [a n]] & He & Hm%elem_of_map_to_list). simpl in *.
    destruct (elem_of_vnodes e id a n He) as [<- <-]. eauto.
  - intros (n & Hm & He). exists (nodeID e, (address e, n)). split; [done|].
    by apply elem_of_map_to_list.
Qed.

Lemma member_entries_insert M id a n : M !! id = None →
  member_entries (<[id := (a, n)]> M) ≡ₚ vnodes id a n ++ member_entries M.
Proof.
  intros HM. unfold member_entries. rewrite map_to_list_insert by done.
  by rewrite bind_cons.
Qed.

Lemma member_entries_delete M id :
  List.filter (λ e, negb (String.eqb (nodeID e) id)) (member_entries M)
  ≡ₚ member_entries (delete id M).
Proof.
  assert (Hrest : List.filter (λ e, negb (String.eqb (nodeID e) id))
    (member_entries (delete id M)) = member_entries (delete id M)).
  { apply list_filter_all. intros e (n & Hm & _)%elem_of_member_entries.
    apply negb_true_iff, String.eqb_neq. intros He. by rewrite He, lookup_delete_eq in Hm. }
  destruct (M !! id) as [[a n]|] eqn:HM; [|].
  2: { rewrite (delete_id M) in * by done. by rewrite Hrest. }
  rewrite <-(insert_delete_id M id (a, n)) at 1 by done.
  rewrite member_entries_insert by apply lookup_delete_eq.
  rewrite List.filter_app, Hrest, list_filter_none; [done|].
  intros e [-> _]%elem_of_vnodes. by rewrite String.eqb_refl.
Qed.

Lemma RemoveNode_repr r M id : ring_repr r M → ring_repr (RemoveNode r id) (delete id M).
Proof.
  intros [Hs He Hn Hc Hp Hd]. split; simpl; [| | | | |done].
  - by apply StronglySorted_filter.
  - by rewrite He, member_entries_delete.
  - by rewrite dom_delete_L, Hn.
  - by rewrite Hc, fmap_delete.
  - by apply map_Forall_delete.
Qed.

Lemma New_repr id : ring_repr (New id) ∅.
Proof. split; simpl; try done. constructor. Qed.

Context `{!SliceSort, !SliceSortLaws}.

Definition effective_replicas (r : consistentHashring) (n : Z) : Z :=
  if n <=? 0 then replicas r else n.

Lemma AddNode_repr r M id a n : ring_repr r M →
  ring_repr (AddNode r id a n) (<[id := (a, effective_replicas r n)]> M).
Proof.
  intros Hr. apply (RemoveNode_repr _ _ id) in Hr as [Hs He Hn Hc Hp Hd].
  rewrite <-insert_delete_eq. unfold AddNode. fold (RemoveNode r id). split; simpl.
  - apply Slice_sorted. auto with hap.
  - rewrite Slice_perm, member_entries_insert by apply lookup_delete_eq.
    rewrite Permutation_app_comm. by apply Permutation_app_head.
  - rewrite dom_insert_L. simpl in Hn. by rewrite Hn.
  - rewrite fmap_insert. simpl in Hc. by rewrite Hc.
  - apply map_Forall_insert_2; [|done]. simpl in *. unfold effective_replicas.
    destruct (Z.leb_spec n 0); lia.
  - done.
Qed.
End refinement.

(** ** Replica sets *)

Definition to_replica (e : ringEntry) : Replica := mkReplica (nodeID e) (address e).

(** The entries in the order a clockwise walk from [h] meets them. *)
Definition clockwise (es : list ringEntry) (h : Z) : list ringEntry :=
  drop (ring_index es h) es ++ take (ring_index es h) es.

(** The first entry of every node not in [seen], in order. *)
Fixpoint distinct (seen : gset string) (l : list ringEntry) : list ringEntry :=
  match l with
  | [] => []
  | e :: l' => if decide (nodeID e ∈ seen) then distinct seen l'
               else e :: distinct ({[nodeID e]} ∪ seen) l'
  end.

Lemma clockwise_lookup {A} (es : list A) idx i : (idx < length es)%nat → (i < length es)%nat →
  es !! ((idx + i) `mod` length es)%nat = (drop idx es ++ take idx es) !! i.
Proof.
  intros Hidx Hi. destruct (Nat.lt_ge_cases (idx + i) (length es)).
  - rewrite Nat.mod_small by done. rewrite lookup_app_l by (rewrite length_drop; lia).
    by rewrite lookup_drop.
  - assert ((idx + i) `mod` length es = idx + i - length es)%nat as ->.
    { symmetry. apply Nat.mod_unique with 1%nat; lia. }
    rewrite lookup_app_r by (rewrite length_drop; lia). rewrite length_drop.
    rewrite lookup_take_lt by lia. f_equal. lia.
Qed.

(** The loop of [GetReplicas] on the walk it performs. *)
Lemma replicas_loop_distinct es idx count (walk : list ringEntry) off seen acc :
  (∀ i, (i < length walk)%nat → es !! ((idx + (off + i)) `mod` length es)%nat = walk !! i) →
  Z.of_nat (length acc) < count →
  replicas_loop es idx count (seq off (length walk)) seen acc =
  acc ++ take (Z.to_nat count - length acc) (to_replica <$> distinct seen walk).
Proof.
  revert off seen acc. induction walk as [|e walk IH]; intros off seen acc Hw Hacc; simpl.
  { by rewrite take_nil, app_nil_r. }
  assert (Hhd := Hw 0%nat ltac:(simpl; lia)). rewrite Nat.add_0_r in Hhd. simpl in Hhd.
  rewrite Hhd.
  assert (Htl : ∀ i, (i < length walk)%nat →
    es !! ((idx + (S off + i)) `mod` length es)%nat = walk !! i).
  { intros i Hi. specialize (Hw (S i) ltac:(simpl; lia)).
    by replace (S off + i)%nat with (off + S i)%nat by lia. }
  destruct (decide (nodeID e ∈ seen)) as [Hin|Hin].
  { rewrite bool_decide_eq_true_2 by done. by apply IH. }
  rewrite bool_decide_eq_false_2 by done. cbn [fmap list_fmap]. fold (to_replica e).
  destruct (Z.to_nat count - length acc)%nat as [|m] eqn:Hm; [lia|]. cbn [take].
  destruct (Z.leb_spec count (Z.of_nat (length (acc ++ [to_replica e])))) as [Hle|Hlt];
    rewrite length_app in *; simpl in *.
  - assert (m = 0)%nat as -> by lia. done.
  - rewrite IH by (rewrite ?length_app; simpl; done || lia).
    rewrite <-app_assoc, length_app. simpl. by replace (Z.to_nat count - (length acc + 1))%nat
      with m by lia.
Qed.

Lemma GetReplicas_walk `{!XXHash} r key count :
  ring_sorted (entries r) → 0 < count →
  GetReplicas r key count =
  take (Z.to_nat count) (to_replica <$> distinct ∅ (clockwise (entries r) (hashKey key))).
Proof.
  intros Hs Hc. unfold GetReplicas, clockwise.
  destruct (entries r) as [|e0 es0] eqn:He; [by destruct (Z.to_nat count)|].
  rewrite <-He in *. assert (Hne : entries r ≠ []) by (by rewrite He). clear He e0 es0.
  destruct (Z.leb_spec count 0); [lia|].
  set (idx := ring_index _ _).
  assert (idx < length (entries r))%nat by (by apply ring_index_lt).
  assert (Hlen : length (drop idx (entries r) ++ take idx (entries r)) = length (entries r)).
  { rewrite length_app, length_drop, length_take. lia. }
  rewrite <-Hlen at 1. rewrite replicas_loop_distinct; [|intros i Hi|simpl; lia].
  - simpl. by rewrite Nat.sub_0_r.
  - simpl. apply clockwise_lookup; [done|lia].
Qed.

Lemma distinct_NoDup seen l :
  NoDup (nodeID <$> distinct seen l) ∧ (∀ e, e ∈ distinct seen l → nodeID e ∉ seen ∧ e ∈ l).
Proof.
  revert seen. induction l as [|e l IH]; intros seen; simpl.
  { split; [constructor|]. by intros e ?%elem_of_nil. }
  destruct (decide (nodeID e ∈ seen)) as [Hin|Hin].
  - destruct (IH seen) as [H1 H2]. split; [done|]. set_solver.
  - destruct (IH ({[nodeID e]} ∪ seen)) as [H1 H2]. simpl. split.
    + constructor; [|done]. intros (e' & He' & Hin')%list_elem_of_fmap.
      apply H2 in Hin' as [Hn _]. set_solver.
    + intros e' [->|He']%elem_of_cons; set_solver.
Qed.

Lemma distinct_complete seen l e : e ∈ l → nodeID e ∉ seen →
  nodeID e ∈ nodeID <$> distinct seen l.
Proof.
  revert seen. induction l as [|e' l IH]; intros seen; [by intros ?%elem_of_nil|].
  simpl. intros Hin Hns. destruct (decide (nodeID e' ∈ seen)) as [Hs|Hs].
  - apply elem_of_cons in Hin as [->|Hin]; [done|]. by apply IH.
  - simpl. apply elem_of_cons. destruct (decide (nodeID e = nodeID e')) as [|Hne]; [by left|].
    right. apply elem_of_cons in Hin as [->|Hin]; [done|]. apply IH; [done|]. set_solver.
Qed.

Lemma clockwise_perm es h : clockwise es h ≡ₚ es.
Proof.
  unfold clockwise. rewrite Permutation_app_comm. by rewrite take_drop.
Qed.

Lemma clockwise_head es h : ring_sorted es → head (clockwise es h) = successor es h.
Proof.
  intros Hs. destruct (decide (es = [])) as [->|Hne]; [done|].
  rewrite <-ring_index_successor by done.
  pose proof (ring_index_lt es h Hne Hs) as Hlt.
  destruct (lookup_lt_is_Some_2 es _ Hlt) as [e He]. rewrite He. unfold clockwise.
  by rewrite (drop_S _ _ _ He).
Qed.

(** The walk as a partition, which makes it commute with dropping entries. *)
Lemma clockwise_split es h : ring_sorted es →
  clockwise es h = List.filter (λ e, h <=? hash e) es ++ List.filter (λ e, negb (h <=? hash e)) es.
Proof.
  intros Hs. unfold clockwise, ring_index.
  destruct (Search_spec (length es) (λ i, match es !! i with Some e => h <=? hash e | None => false end))
    as (Hle & Hlo & Hhi).
  { intros a b Hab Hb Ha. destruct (es !! a) as [x|] eqn:Hx; [|done].
    destruct (lookup_lt_is_Some_2 es b Hb) as [y Hy]. rewrite Hy.
    pose proof (ring_sorted_lookup es a b x y Hs Hab Hx Hy). lia. }
  set (idx := Search _ _) in *.
  assert (Ht : ∀ e, e ∈ take idx es → (h <=? hash e) = false).
  { intros e [i Hi]%list_elem_of_lookup. apply lookup_take_Some in Hi as [Hi Hlt].
    specialize (Hlo i Hlt). by rewrite Hi in Hlo. }
  assert (Hd : ∀ e, e ∈ drop idx es → (h <=? hash e) = true).
  { intros e [i Hi]%list_elem_of_lookup. rewrite lookup_drop in Hi. pose proof (lookup_lt_Some _ _ _ Hi).
    specialize (Hhi (idx + i)%nat ltac:(lia) ltac:(done)). by rewrite Hi in Hhi. }
  assert (Hcut : List.filter (λ e, h <=? hash e) es ++ List.filter (λ e, negb (h <=? hash e)) es = drop idx es ++ take idx es).
  { rewrite <-(take_drop idx es) at 1 2. rewrite !List.filter_app.
    rewrite (list_filter_none (λ e, h <=? hash e) (take idx es)) by done.
    rewrite (list_filter_all (λ e, h <=? hash e) (drop idx es)) by done.
    rewrite (list_filter_all (λ e, negb (h <=? hash e)) (take idx es)) by (intros e He; by rewrite Ht).
    rewrite (list_filter_none (λ e, negb (h <=? hash e)) (drop idx es)) by (intros e He; by rewrite Hd).
    by rewrite app_nil_r. }
  rewrite Hcut. destruct (Nat.eqb_spec idx (length es)) as [->|_]; [|done].
  rewrite drop_0, take_0, drop_ge, take_ge by lia. by rewrite app_nil_r.
Qed.

Lemma take_prefix_le {A} n m (l : list A) : (n ≤ m)%nat → take n l `prefix_of` take m l.
Proof. intros Hle. rewrite <-(Nat.min_l n m Hle), <-take_take. apply prefix_take. Qed.

Lemma filter_filter_comm {A} (p q : A → bool) l : List.filter p (List.filter q l) = List.filter q (List.filter p l).
Proof.
  induction l as [|x l IH]; simpl; [done|].
  destruct (p x) eqn:Hp, (q x) eqn:Hq; simpl; rewrite ?Hp, ?Hq, IH; done.
Qed.

Lemma clockwise_filter p es h : ring_sorted es → clockwise (List.filter p es) h = List.filter p (clockwise es h).
Proof.
  intros Hs. rewrite !clockwise_split by (done || by apply StronglySorted_filter).
  rewrite List.filter_app. by rewrite !(filter_filter_comm p).
Qed.

(** Dropping one node drops exactly its entry from the distinct ones. *)
Lemma distinct_filter id l : ∀ seen seen', (∀ x, x ≠ id → x ∈ seen ↔ x ∈ seen') →
  distinct seen (List.filter (λ e, negb (String.eqb (nodeID e) id)) l) =
  List.filter (λ e, negb (String.eqb (nodeID e) id)) (distinct seen' l).
Proof.
  induction l as [|e l IH]; intros seen seen' Heq; simpl; [done|].
  destruct (String.eqb_spec (nodeID e) id) as [Hid|Hid]; simpl.
  - destruct (decide (nodeID e ∈ seen')); simpl; [by apply IH|]. rewrite Hid, String.eqb_refl. simpl.
    apply IH. intros x Hx. rewrite Heq by done. set_solver.
  - destruct (decide (nodeID e ∈ seen)) as [Hin|Hin], (decide (nodeID e ∈ seen')) as [Hin'|Hin']; simpl.
    + by apply IH.
    + destruct Hin'. by apply Heq.
    + destruct Hin. by apply Heq.
    + apply String.eqb_neq in Hid as Hid'. rewrite Hid'. simpl. f_equal. apply IH.
      intros x Hx. specialize (Heq x Hx). set_solver.
Qed.

(** ** The slot table *)

(** [rs] are consecutive non-empty ranges from [lo] up to [hi], each owned
    throughout by its node. *)
Fixpoint tiles (owner : Z → Replica) (lo : Z) (rs : list SlotRange) (hi : Z) : Prop :=
  match rs with
  | [] => lo = hi
  | r :: rs' => Start r = lo ∧ lo ≤ End_ r ∧ (∀ s, lo ≤ s ≤ End_ r → owner s = Node r) ∧
                tiles owner (End_ r + 1) rs' hi
  end.

Fixpoint alternating (rs : list SlotRange) : Prop :=
  match rs with
  | r1 :: ((r2 :: _) as rs') => NodeID (Node r1) ≠ NodeID (Node r2) ∧ alternating rs'
  | _ => True
  end.

Lemma tiles_snoc owner lo mid hi rs r :
  tiles owner lo rs mid → tiles owner mid [r] hi → tiles owner lo (rs ++ [r]) hi.
Proof.
  revert lo. induction rs as [|r' rs IH]; intros lo; simpl.
  - by intros ->.
  - intros (? & ? & ? & ?) ?. auto.
Qed.

Lemma alternating_snoc rs r1 r2 :
  alternating (rs ++ [r1]) → NodeID (Node r1) ≠ NodeID (Node r2) →
  alternating (rs ++ [r1; r2]).
Proof.
  induction rs as [|r rs IH]; simpl; [done|]. destruct rs as [|r' rs]; simpl in *; naive_solver.
Qed.

(** Only the owner of the last range matters for the next boundary. *)
Lemma alternating_last rs r1 r2 :
  Node r1 = Node r2 → alternating (rs ++ [r1]) → alternating (rs ++ [r2]).
Proof.
  intros He. induction rs as [|r rs IH]; simpl; [done|].
  destruct rs as [|r' rs]; simpl in *; [rewrite He|]; naive_solver.
Qed.

Section slots.
Context (owner : Z → Replica).
Context (owner_node : ∀ s s', NodeID (owner s) = NodeID (owner s') → owner s = owner s').

Definition scan_inv (k : Z) (st : list SlotRange * Z * Replica) : Prop :=
  let '(ranges, cs, co) := st in
  tiles owner 0 ranges cs ∧ 0 ≤ cs < k ∧ (∀ s, cs ≤ s < k → owner s = co) ∧
  alternating (ranges ++ [mkSlotRange cs (k - 1) co]).

Lemma slot_step_inv k st : 0 < k → scan_inv k st → scan_inv (k + 1) (slot_step owner st k).
Proof using owner_node.
  destruct st as [[ranges cs] co]. intros Hk (Ht & Hcs & Ho & Ha). unfold slot_step.
  assert (Hco : owner cs = co) by (apply Ho; lia).
  destruct (String.eqb_spec (NodeID (owner k)) (NodeID co)) as [Heq|Hne]; simpl.
  - split; [done|]. split; [lia|]. split; [|by eapply alternating_last; [|exact Ha]].
    intros s Hs. destruct (decide (s = k)) as [->|]; [|apply Ho; lia].
    rewrite <-Hco in Heq |- *. by apply owner_node.
  - split; [|split; [lia|split]].
    + apply tiles_snoc with cs; [done|]. simpl. split; [done|]. split; [lia|].
      split; [|lia]. intros s Hs. apply Ho. lia.
    + intros s Hs. by replace s with k by lia.
    + rewrite <-app_assoc. apply alternating_snoc; [done|]. simpl. congruence.
Qed.

Lemma slot_fold_inv n : scan_inv (1 + Z.of_nat n)
  (fold_left (slot_step owner) (seqZ 1 (Z.of_nat n)) ([], 0, owner 0)).
Proof using owner_node.
  induction n as [|n IH].
  - simpl. split; [done|]. split; [lia|]. split; [|done].
    intros s Hs. by replace s with 0 by lia.
  - rewrite Nat2Z.inj_succ, <-Z.add_1_r, seqZ_app, fold_left_app by lia.
    apply (slot_step_inv (1 + Z.of_nat n)) in IH; [|lia].
    by replace (1 + (Z.of_nat n + 1)) with (1 + Z.of_nat n + 1) by lia.
Qed.

Lemma slot_scan_tiles n : 0 < n →
  tiles owner 0 (slot_scan owner n) n ∧ alternating (slot_scan owner n).
Proof using owner_node.
  intros Hn. unfold slot_scan. pose proof (slot_fold_inv (Z.to_nat (n - 1))) as Hi.
  rewrite Z2Nat.id in Hi by lia. replace (1 + (n - 1)) with n in Hi by lia.
  destruct (fold_left _ _ _) as [[ranges cs] co]. destruct Hi as (Ht & Hcs & Ho & Ha).
  split; [|done]. apply tiles_snoc with cs; [done|]. simpl.
  split; [done|]. split; [lia|]. split; [|lia]. intros s Hs. apply Ho. lia.
Qed.

(** Ranges that tile an interval cover each of its slots exactly once. *)
Lemma tiles_cover lo rs hi : tiles owner lo rs hi → ∀ s, lo ≤ s < hi →
  ∃ i r, rs !! i = Some r ∧ Start r ≤ s ≤ End_ r ∧ owner s = Node r ∧
    ∀ j r', rs !! j = Some r' → Start r' ≤ s ≤ End_ r' → j = i.
Proof.
  assert (Hlo : ∀ rs lo, tiles owner lo rs hi → ∀ j r, rs !! j = Some r → lo ≤ Start r).
  { clear. induction rs as [|r rs IH]; intros lo Ht j r' Hj; [done|].
    destruct Ht as (Hs & Hle & _ & Ht). destruct j as [|j]; simplify_eq/=; [lia|].
    pose proof (IH _ Ht j r' Hj). lia. }
  revert lo. induction rs as [|r rs IH]; intros lo; simpl; [lia|].
  intros (Hst & Hle & Ho & Ht) s Hs. destruct (decide (s ≤ End_ r)) as [Hin|Hout].
  - exists 0%nat, r. split; [done|]. split; [lia|]. split; [apply Ho; lia|].
    intros [|j] r' Hj Hr'; [done|]. simpl in Hj. pose proof (Hlo _ _ Ht j r' Hj). lia.
  - destruct (IH _ Ht s) as (i & r' & Hi & Hr' & Ho' & Hu); [lia|].
    exists (S i), r'. split; [done|]. split; [done|]. split; [done|].
    intros [|j] r'' Hj Hr''; simplify_eq/=; [lia|]. by rewrite (Hu j r'').
Qed.
End slots.

(** ** Agreement between rings *)

Section agreement.
Context `{!XXHash}.

(** No two virtual nodes of the members share a hash. *)
Definition no_ties (M : members) : Prop :=
  ∀ e1 e2, e1 ∈ member_entries M → e2 ∈ member_entries M → hash e1 = hash e2 → e1 = e2.

Lemma repr_entries_unique r1 r2 M : ring_repr r1 M → ring_repr r2 M → no_ties M →
  entries r1 = entries r2.
Proof.
  intros [Hs1 He1 _ _ _ _] [Hs2 He2 _ _ _ _] Hnt.
  apply (sorted_by_unique hash_less); [by rewrite He1, He2|done|done|].
  intros x y Hx Hy Hxy Hyx. rewrite He1 in Hx, Hy. unfold hash_less in *. bool_to_prop.
  apply Hnt; [done|done|lia].
Qed.

Lemma repr_elem r M e : ring_repr r M → e ∈ entries r →
  ∃ n, M !! nodeID e = Some (address e, n) ∧ e ∈ vnodes (nodeID e) (address e) n.
Proof. intros Hr He. apply elem_of_member_entries. by rewrite <-(repr_entries _ _ Hr). Qed.

Lemma repr_node r M id a n : ring_repr r M → M !! id = Some (a, n) →
  ∃ e, e ∈ entries r ∧ nodeID e = id ∧ address e = a.
Proof.
  intros Hr HM. pose proof (repr_pos _ _ Hr id _ HM) as Hpos. simpl in Hpos.
  set (e := mkRingEntry (hashKey (id +:+ ":" +:+ Itoa 0)) id a).
  exists e. split; [|done]. rewrite (repr_entries _ _ Hr). apply elem_of_member_entries.
  exists n. split; [done|]. unfold vnodes. apply list_elem_of_fmap. exists 0.
  split; [done|]. apply elem_of_seqZ. lia.
Qed.

(** The address table of the slot scan holds the members' addresses. *)
Lemma nodeAddrs_elem es id a : nodeAddrs es !! id = Some a →
  ∃ e, e ∈ es ∧ nodeID e = id ∧ address e = a.
Proof.
  unfold nodeAddrs.
  assert (Hgen : ∀ (m : gmap string string) (P : string → string → Prop),
    (∀ i b, m !! i = Some b → P i b) → (∀ e, e ∈ es → P (nodeID e) (address e)) →
    ∀ i b, fold_left (λ m e, match m !! nodeID e with
                             | Some _ => m
                             | None => <[nodeID e := address e]> m
                             end) es m !! i = Some b → P i b).
  { induction es as [|e es IH]; intros m P Hm He; simpl; [done|].
    apply IH; [|intros e' ?; apply He; by apply elem_of_cons; right].
    destruct (m !! nodeID e); [done|].
    intros i b [[<- <-]|[_ ?]]%lookup_insert_Some; [apply He, elem_of_cons; by left|auto]. }
  apply (Hgen ∅ (λ i b, ∃ e, e ∈ es ∧ nodeID e = i ∧ address e = b)); [done|eauto].
Qed.

Lemma nodeAddrs_is_Some es e : e ∈ es → is_Some (nodeAddrs es !! nodeID e).
Proof.
  unfold nodeAddrs.
  assert (Hgen : ∀ m : gmap string string, e ∈ es ∨ is_Some (m !! nodeID e) →
    is_Some (fold_left (λ m e, match m !! nodeID e with
                               | Some _ => m
                               | None => <[nodeID e := address e]> m
                               end) es m !! nodeID e)).
  { induction es as [|e' es IH]; intros m [Hin|Hm]; simpl; [by apply elem_of_nil in Hin|done| |].
    - apply IH. apply elem_of_cons in Hin as [<-|Hin]; [right|by left].
      destruct (m !! nodeID e) eqn:E; [by rewrite E|by rewrite lookup_insert_eq].
    - apply IH. right. destruct (m !! nodeID e') eqn:E; [done|].
      destruct (decide (nodeID e' = nodeID e)) as [->|]; [by rewrite lookup_insert_eq|].
      by rewrite lookup_insert_ne. }
  intros He. apply Hgen. by left.
Qed.

Lemma nodeAddrs_repr r M e : ring_repr r M → e ∈ entries r →
  nodeAddrs (entries r) !! nodeID e = Some (address e).
Proof.
  intros Hr He. destruct (nodeAddrs_is_Some _ _ He) as [a Ha]. rewrite Ha.
  destruct (nodeAddrs_elem _ _ _ Ha) as (e' & He' & Hid & <-).
  destruct (repr_elem _ _ _ Hr He) as (n & HM & _).
  destruct (repr_elem _ _ _ Hr He') as (n' & HM' & _). rewrite Hid in HM'. congruence.
Qed.

(** The owner of a slot is the node the ring gives to the slot's own key. *)
Lemma getSlotOwner_GetNode r M slot : ring_repr r M → entries r ≠ [] →
  getSlotOwner (entries r) (nodeAddrs (entries r)) slot =
  mkReplica (GetNode r ("SLOT:" +:+ Itoa slot)).1 (GetNode r ("SLOT:" +:+ Itoa slot)).2.
Proof.
  intros Hr Hne. pose proof (repr_sorted _ _ Hr) as Hs.
  rewrite GetNode_successor by done. unfold getSlotOwner.
  rewrite ring_index_successor by done.
  destruct (successor (entries r) _) as [e|] eqn:He.
  - apply successor_elem in He. by rewrite (nodeAddrs_repr r M).
  - done.
Qed.

Lemma successor_is_Some es h : es ≠ [] → is_Some (successor es h).
Proof. unfold successor. destruct (List.find _ es), es; done || eauto. Qed.

(** A node's address is a function of its ID. *)
Lemma GetNode_functional r M k1 k2 : ring_repr r M → entries r ≠ [] →
  (GetNode r k1).1 = (GetNode r k2).1 → GetNode r k1 = GetNode r k2.
Proof.
  intros Hr Hne. rewrite !GetNode_successor by apply (repr_sorted _ _ Hr).
  destruct (successor_is_Some (entries r) (hashKey k1) Hne) as [e1 H1].
  destruct (successor_is_Some (entries r) (hashKey k2) Hne) as [e2 H2].
  rewrite H1, H2. simpl. intros Heq. apply successor_elem in H1, H2.
  pose proof (nodeAddrs_repr r M e1 Hr H1) as Ha1.
  pose proof (nodeAddrs_repr r M e2 Hr H2) as Ha2. congruence.
Qed.
End agreement.

(** ** Histories of membership changes *)

Inductive ring_op := Join (id addr : string) (n : Z) | Leave (id : string).

Section histories.
Context `{!XXHash, !SliceSort}.

Definition exec_ring (r : consistentHashring) (op : ring_op) : consistentHashring :=
  match op with
  | Join id addr n => AddNode r id addr n
  | Leave id => RemoveNode r id
  end.

(** The same change on the membership table; 5 is the default replica count. *)
Definition exec_members (M : members) (op : ring_op) : members :=
  match op with
  | Join id addr n => <[id := (addr, if n <=? 0 then 5 else n)]> M
  | Leave id => delete id M
  end.

Definition run_ring (local : string) (ops : list ring_op) : consistentHashring :=
  fold_left exec_ring ops (New local).

Definition run_members (ops : list ring_op) : members := fold_left exec_members ops ∅.

Context `{!SliceSortLaws}.

Lemma run_ring_repr local ops : ring_repr (run_ring local ops) (run_members ops).
Proof.
  unfold run_ring, run_members.
  assert (Hgen : ∀ r M, ring_repr r M → replicas r = 5 →
    ring_repr (fold_left exec_ring ops r) (fold_left exec_members ops M)).
  { induction ops as [|[id a n|id] ops IH]; intros r M Hr Hd; simpl; [done|..]; apply IH; try done.
    - pose proof (AddNode_repr r M id a n Hr) as Ha. unfold effective_replicas in Ha.
      by rewrite Hd in Ha.
    - by apply RemoveNode_repr. }
  apply Hgen; [apply New_repr|done].
Qed.

(** The clockwise distance between two points of the 64-bit circle. *)
Definition distance (from to : Z) : Z := uint64 (to - from).

Lemma distance_range h x : in_uint64 h → in_uint64 x →
  distance h x = if h <=? x then x - h else x - h + 2 ^ 64.
Proof.
  unfold in_uint64, maxUint64, distance, uint64. intros Hh Hx.
  destruct (Z.leb_spec h x); [by rewrite Z.mod_small by lia|].
  symmetry. apply Z.mod_unique_pos with (-1); lia.
Qed.
End histories.

(** ** Shared facts for the properties *)

Lemma tiles_ext own own' lo rs hi : (∀ s, own s = own' s) → tiles own lo rs hi → tiles own' lo rs hi.
Proof.
  intros He. revert lo. induction rs as [|r rs IH]; intros lo; simpl; [done|].
  intros (? & ? & Ho & Ht). split_and!; try done; [|by apply IH]. intros s Hs. rewrite <-He. by apply Ho.
Qed.

Lemma tiles_bounds owner lo rs hi : tiles owner lo rs hi → ∀ i r, rs !! i = Some r →
  lo ≤ Start r ≤ End_ r ∧ End_ r < hi.
Proof.
  assert (Hle : ∀ rs lo, tiles owner lo rs hi → lo ≤ hi).
  { induction rs0 as [|r rs0 IH]; intros lo0; simpl; [lia|].
    intros (_ & ? & _ & ?%IH). lia. }
  revert lo. induction rs as [|r rs IH]; intros lo Ht i r' Hi; [done|].
  destruct Ht as (Hst & Hl & _ & Ht). pose proof (Hle _ _ Ht).
  destruct i as [|i]; simplify_eq/=; [lia|]. destruct (IH _ Ht i r' Hi). lia.
Qed.

Section property_facts.
Context `{!XXHash}.

Lemma size_distinct_nodes r M key : ring_repr r M →
  length (nodeID <$> distinct ∅ (clockwise (entries r) (hashKey key))) = size (nodes r).
Proof.
  intros Hr. destruct (distinct_NoDup ∅ (clockwise (entries r) (hashKey key))) as [Hnd Hsub].
  rewrite <-(size_list_to_set (C := gset string)) by done. f_equal. apply set_eq. intros id.
  rewrite elem_of_list_to_set, (repr_nodes _ _ Hr), elem_of_dom. split.
  - intros (e & -> & He)%list_elem_of_fmap. apply Hsub in He as [_ He].
    rewrite clockwise_perm in He. destruct (repr_elem _ _ _ Hr He) as (n & HM & _). eauto.
  - intros [[a n] HM]. destruct (repr_node r M id a n Hr HM) as (e & He & <- & _).
    apply distinct_complete; [by rewrite clockwise_perm|set_solver].
Qed.

Lemma RemoveNode_other r M id key : ring_repr r M → (GetNode r key).1 ≠ id →
  GetNode (RemoveNode r id) key = GetNode r key.
Proof.
  intros Hr. pose proof (RemoveNode_repr r M id Hr) as Hr'.
  rewrite !GetNode_successor by eauto using repr_sorted. simpl.
  destruct (successor (entries r) (hashKey key)) as [e|] eqn:He; simpl; intros Hne.
  - rewrite (successor_filter _ _ e) by (done || by apply negb_true_iff, String.eqb_neq). done.
  - unfold successor in He. destruct (List.find _ (entries r)); [done|].
    by destruct (entries r).
Qed.

(** When a node leaves, the other replicas of a key move up in order. *)
Lemma GetReplicas_remove r M id key count : ring_repr r M → 0 < count →
  List.filter (λ rep, negb (String.eqb (NodeID rep) id)) (GetReplicas r key count)
    `prefix_of` GetReplicas (RemoveNode r id) key count.
Proof.
  intros Hr Hc. pose proof (repr_sorted _ _ (RemoveNode_repr r M id Hr)) as Hs'.
  pose proof (repr_sorted _ _ Hr) as Hs.
  rewrite !GetReplicas_walk by done. cbn [RemoveNode removeNodeLocked entries].
  rewrite clockwise_filter, (distinct_filter id _ ∅ ∅) by done.
  generalize (distinct ∅ (clockwise (entries r) (hashKey key))). intros l.
  generalize (Z.to_nat count). clear. intros n. revert n. induction l as [|e l IH]; intros n; simpl.
  { rewrite take_nil. apply prefix_nil. }
  destruct n as [|n]; simpl; [apply prefix_nil|].
  destruct (String.eqb (nodeID e) id); simpl.
  - etransitivity; [apply IH|]. apply take_prefix_le. lia.
  - apply prefix_cons, IH.
Qed.

Lemma no_ties_insert M id m : no_ties (<[id := m]> M) → M !! id = None → no_ties M.
Proof.
  intros Hnt HM e1 e2 H1 H2. destruct m as [a n].
  apply Hnt; rewrite member_entries_insert by done; apply elem_of_app; by right.
Qed.
End property_facts.

(** The slot table as tiles. *)
Definition slot_owner `{!XXHash, !SliceSort} (r : consistentHashring) (s : Z) : Replica :=
  let '(id, a) := GetNode r ("SLOT:" +:+ Itoa s) in mkReplica id a.

Lemma GetSlotRanges_scan `{!XXHash} r : entries r ≠ [] →
  GetSlotRanges r = slot_scan (getSlotOwner (entries r) (nodeAddrs (entries r))) numSlots.
Proof. unfold GetSlotRanges. intros Hne. destruct (entries r); [congruence|reflexivity]. Qed.

Lemma GetSlotRanges_nonempty `{!XXHash} r : entries r ≠ [] → GetSlotRanges r ≠ [].
Proof.
  intros Hne. rewrite GetSlotRanges_scan by exact Hne. unfold slot_scan.
  generalize (fold_left (slot_step (getSlotOwner (entries r) (nodeAddrs (entries r)))) (seqZ 1 (numSlots - 1))
    ([], 0, getSlotOwner (entries r) (nodeAddrs (entries r)) 0)).
  intros [[ranges cs] co] E. apply app_nil in E as [_ E]. discriminate E.
Qed.

Lemma GetSlotRanges_tiles `{!XXHash, !SliceSort, !SliceSortLaws} r M : ring_repr r M → entries r ≠ [] →
  tiles (slot_owner r) 0 (GetSlotRanges r) numSlots ∧ alternating (GetSlotRanges r).
Proof.
  intros Hr Hne.
  assert (Hown : ∀ s, getSlotOwner (entries r) (nodeAddrs (entries r)) s = slot_owner r s).
  { intros s. rewrite (getSlotOwner_GetNode r M s Hr Hne). unfold slot_owner.
    destruct (GetNode r ("SLOT:" +:+ Itoa s)) as [id a]. reflexivity. }
  assert (Hid : ∀ s s', NodeID (slot_owner r s) = NodeID (slot_owner r s') → slot_owner r s = slot_owner r s').
  { intros s s' Heq. unfold slot_owner in *.
    pose proof (GetNode_functional r M ("SLOT:" +:+ Itoa s) ("SLOT:" +:+ Itoa s') Hr Hne) as Hf.
    destruct (GetNode r ("SLOT:" +:+ Itoa s)) as [id a].
    destruct (GetNode r ("SLOT:" +:+ Itoa s')) as [id' a'].
    specialize (Hf Heq). injection Hf as -> ->. reflexivity. }
  rewrite GetSlotRanges_scan by exact Hne.
  destruct (slot_scan_tiles (getSlotOwner (entries r) (nodeAddrs (entries r)))) with (n := numSlots) as [Ht Ha].
  { intros s s'. rewrite !Hown. apply Hid. }
  { reflexivity. }
  split; [|exact Ha]. eapply tiles_ext; [exact Hown|exact Ht].
Qed.

(** ** Properties *)

Section properties.
Context `{!XXHash, !SliceSort, !SliceSortLaws}.

(** C13: The ring refines the membership table: after any sequence of [AddNode]
    and [RemoveNode] calls its node set is the set of members, it records each
    member's virtual-node count, its entries are exactly the members' virtual
    nodes (hashes of ["id:i"]) with the members' current addresses, and they
    are sorted by hash. *)
Theorem ring_refines_members local ops :
  let r := run_ring local ops in let M := run_members ops in
  nodes r = dom M ∧ nodeReplicas r = snd <$> M ∧
  entries r ≡ₚ member_entries M ∧
  (∀ i j e1 e2, (i ≤ j)%nat → entries r !! i = Some e1 → entries r !! j = Some e2 →
     hash e1 ≤ hash e2).
Proof.
  simpl. destruct (run_ring_repr local ops) as [Hs He Hn Hc _ _].
  split; [done|]. split; [done|]. split; [done|]. intros i j e1 e2. by apply ring_sorted_lookup.
Qed.

(** C23: [GetNode] returns the owner at the smallest clockwise distance from the
    key's hash on the 64-bit circle, and the empty pair only on an empty ring. *)
Theorem GetNode_nearest `{!XXHashLaws} r M key :
  ring_repr r M → M ≠ ∅ →
  ∃ e, e ∈ entries r ∧ GetNode r key = (nodeID e, address e) ∧
    (∃ n, M !! nodeID e = Some (address e, n)) ∧
    ∀ e', e' ∈ entries r → distance (hashKey key) (hash e) ≤ distance (hashKey key) (hash e').
Proof.
  intros Hr HM.
  assert (Hne : entries r ≠ []).
  { apply map_choose in HM as (id & [a n] & HM).
    destruct (repr_node r M id a n Hr HM) as (e & He & _).
    intros Hnil. rewrite Hnil in He. by apply elem_of_nil in He. }
  pose proof (repr_sorted _ _ Hr) as Hs.
  destruct (successor_is_Some (entries r) (hashKey key) Hne) as [e He].
  pose proof (successor_elem _ _ _ He) as Hin.
  exists e. split; [done|]. split; [by rewrite GetNode_successor, He|].
  split; [destruct (repr_elem _ _ _ Hr Hin) as (n & ? & _); by exists n|].
  assert (Hu : ∀ x, x ∈ entries r → in_uint64 (hash x)).
  { intros x Hx. destruct (repr_elem _ _ _ Hr Hx) as (n & _ & Hv).
    unfold vnodes in Hv. apply list_elem_of_fmap in Hv as (i & -> & _). apply Sum64String_range. }
  intros e' He'. pose proof (Hu e Hin). pose proof (Hu e' He').
  assert (in_uint64 (hashKey key)) by apply Sum64String_range.
  rewrite !distance_range by done. unfold successor in He.
  destruct (List.find (λ e, hashKey key <=? hash e) (entries r)) as [e0|] eqn:Hf.
  - simplify_eq. pose proof Hf as [_ Hle]%List.find_some. rewrite Hle.
    destruct (Z.leb_spec (hashKey key) (hash e')); [|unfold in_uint64, maxUint64 in *; lia].
    pose proof (find_ge_min _ _ _ e' Hs Hf He'). lia.
  - assert (Hall : ∀ x, x ∈ entries r → (hashKey key <=? hash x) = false).
    { intros x Hx. apply (List.find_none _ _ Hf). by apply list_elem_of_In. }
    rewrite !Hall by done. destruct (entries r) as [|e1 es]; simplify_eq/=.
    pose proof (ring_sorted_head _ _ _ Hs He'). lia.
Qed.

(** C14: [GetReplicas] returns the first [count] distinct nodes met clockwise
    from the key: no node twice, as many as there are up to [count], each a
    member with its current address, the owner given by [GetNode] first, and a
    smaller count gives a prefix of the answer for a larger one. *)
Theorem GetReplicas_distinct r M key count :
  ring_repr r M → 0 < count →
  let rs := GetReplicas r key count in
  NoDup (NodeID <$> rs) ∧
  Z.of_nat (length rs) = Z.min count (Z.of_nat (size (nodes r))) ∧
  (∀ rep, rep ∈ rs → ∃ n, M !! NodeID rep = Some (Address rep, n)) ∧
  (∀ rep, head rs = Some rep → GetNode r key = (NodeID rep, Address rep)) ∧
  (∀ count', 0 < count' ≤ count → GetReplicas r key count' = take (Z.to_nat count') rs).
Proof.
  intros Hr Hc. pose proof (repr_sorted _ _ Hr) as Hs. cbv zeta.
  rewrite GetReplicas_walk by done.
  set (walk := clockwise (entries r) (hashKey key)).
  destruct (distinct_NoDup ∅ walk) as [Hnd Hsub].
  split; [|split; [|split; [|split]]].
  - rewrite fmap_take, <-list_fmap_compose. apply (sublist_NoDup _ (nodeID <$> distinct ∅ walk)).
    + done.
    + apply sublist_take.
  - rewrite length_take, length_fmap, <-(length_fmap nodeID).
    unfold walk. rewrite (size_distinct_nodes r M) by done. lia.
  - intros rep Hrep. apply elem_of_take in Hrep as (i & Hrep & _).
    apply list_elem_of_lookup_2 in Hrep.
    apply list_elem_of_fmap in Hrep as (e & -> & He).
    apply Hsub in He as [_ He]. unfold walk in He. rewrite clockwise_perm in He.
    destruct (repr_elem _ _ _ Hr He) as (n & ? & _). by exists n.
  - intros rep Hh. rewrite GetNode_successor, <-clockwise_head by done. fold walk.
    destruct (Z.to_nat count) eqn:?; [lia|]. destruct walk as [|e w]; [done|]. simpl in Hh.
    rewrite decide_False in Hh by set_solver. by simplify_eq/=.
  - intros count' Hc'. rewrite GetReplicas_walk, take_take by (done || lia). f_equal. lia.
Qed.

(** C24: Membership changes move only the keys they must.  After [RemoveNode]
    every key keeps its owner unless the removed node owned it; after
    [AddNode] of a new node every key keeps its owner unless the new node owns
    it now (here without hash ties, whose order is not specified). *)
Theorem membership_change_minimal r M id addr n key :
  ring_repr r M → M !! id = None →
  no_ties (<[id := (addr, effective_replicas r n)]> M) →
  (∀ id', (GetNode r key).1 ≠ id' → GetNode (RemoveNode r id') key = GetNode r key) ∧
  let r' := AddNode r id addr n in
  ((GetNode r' key).1 ≠ id → GetNode r' key = GetNode r key).
Proof.
  intros Hr HM Hnt. pose proof (AddNode_repr r M id addr n Hr) as Hr'.
  split.
  - intros id' Hne. by eapply RemoveNode_other.
  - intros r' Hne. unfold r' in *. rewrite <-(RemoveNode_other _ _ id key Hr' Hne).
    apply (RemoveNode_repr _ _ id) in Hr'. rewrite delete_insert_id in Hr' by done.
    rewrite !GetNode_successor by eauto using repr_sorted.
    by rewrite (repr_entries_unique _ _ M Hr' Hr (no_ties_insert _ _ _ Hnt HM)).
Qed.

(** C25: Nodes that know the same members agree: two rings built by different
    sequences of joins and leaves that end in the same membership give every
    key the same owner and the same replica sets, and the same slot table,
    whatever the order of the calls and whatever sort is used, provided no two
    virtual nodes share a hash. *)
Theorem rings_agree local1 local2 ops1 ops2 :
  run_members ops1 = run_members ops2 → no_ties (run_members ops1) →
  let r1 := run_ring local1 ops1 in let r2 := run_ring local2 ops2 in
  (∀ key, GetNode r1 key = GetNode r2 key) ∧
  (∀ key count, GetReplicas r1 key count = GetReplicas r2 key count) ∧
  GetSlotRanges r1 = GetSlotRanges r2 ∧ RingSnapshot r1 = RingSnapshot r2.
Proof.
  intros HM Hnt r1 r2. pose proof (run_ring_repr local1 ops1) as Hr1.
  pose proof (run_ring_repr local2 ops2) as Hr2. rewrite <-HM in Hr2.
  pose proof (repr_entries_unique _ _ _ Hr1 Hr2 Hnt) as He. fold r1 r2 in He.
  unfold GetNode, GetReplicas, GetSlotRanges, RingSnapshot. by rewrite He.
Qed.

(** The slot table of a non-empty ring tiles the 16384 slots: every slot
    lies in exactly one range, that range's node and address are the ones the
    ring gives to the slot's key ["SLOT:n"], ranges are in order and non-empty
    and neighbouring ranges belong to different nodes. *)
Theorem GetSlotRanges_tile r M :
  ring_repr r M → entries r ≠ [] →
  let rs := GetSlotRanges r in
  let owner s := GetNode r ("SLOT:" +:+ Itoa s) in
  (∀ s, 0 ≤ s < 16384 → ∃ i rg, rs !! i = Some rg ∧ Start rg ≤ s ≤ End_ rg ∧
     (NodeID (Node rg), Address (Node rg)) = owner s ∧
     ∀ j rg', rs !! j = Some rg' → Start rg' ≤ s ≤ End_ rg' → j = i) ∧
  (∀ i rg, rs !! i = Some rg → 0 ≤ Start rg ≤ End_ rg ∧ End_ rg < 16384) ∧
  alternating rs.
Proof.
  intros Hr Hne rs owner. destruct (GetSlotRanges_tiles r M Hr Hne) as [Ht Ha].
  split; [|split; [|exact Ha]].
  - intros s Hs. destruct (tiles_cover _ 0 _ numSlots Ht s Hs) as (i & rg & Hi & Hr' & Ho & Hu).
    exists i, rg. split; [done|]. split; [done|]. split; [|done].
    rewrite <-Ho. unfold slot_owner, owner. simpl. by destruct (GetNode r _).
  - intros i rg Hi. by apply (tiles_bounds _ _ _ _ Ht i).
Qed.
End properties.

(** ** Instances at concrete inputs *)

Module RingExamples.

(** A concrete hash for the examples. *)
Fixpoint demo_hash (s : string) : Z :=
  match s with
  | EmptyString => 14695981039346656037
  | String c s' => uint64 (demo_hash s' * 1099511628211 + byte_val c)
  end.

#[local] Instance demo_xxhash : XXHash := demo_hash.
#[local] Existing Instance MergeSort.
#[local] Existing Instance MergeSort_laws.

#[local] Instance demo_laws : XXHashLaws.
Proof. intros [|c s]; [done|apply uint64_range]. Qed.

Definition no_ties_b (M : members) : bool :=
  forallb (λ e1, forallb (λ e2, negb (hash e1 =? hash e2) || bool_decide (e1 = e2))
    (member_entries M)) (member_entries M).

Lemma no_ties_b_sound M : no_ties_b M = true → no_ties M.
Proof.
  unfold no_ties_b. rewrite forallb_forall. intros Hall e1 e2 H1 H2 He.
  rewrite list_elem_of_In in H1, H2. specialize (Hall e1 H1). rewrite forallb_forall in Hall.
  specialize (Hall e2 H2). rewrite He, Z.eqb_refl in Hall. by apply bool_decide_eq_true in Hall.
Qed.

Definition ops1 : list ring_op :=
  [Join "node-a" "10.0.0.1:6379" 3; Join "node-b" "10.0.0.2:6379" 3;
   Join "node-c" "10.0.0.3:6379" 3; Join "node-b" "10.0.0.9:6379" 4].
Definition ops2 : list ring_op :=
  [Join "node-b" "10.0.0.9:6379" 4; Join "node-d" "10.0.0.4:6379" 0; Leave "node-d";
   Join "node-c" "10.0.0.3:6379" 3; Join "node-a" "10.0.0.1:6379" 3].

Definition r1 : consistentHashring := run_ring "node-a" ops1.
Definition M1 : members := run_members ops1.

Lemma r1_repr : ring_repr r1 M1.
Proof. apply run_ring_repr. Qed.

Example r1_nodes : Nodes r1 = ["node-a"; "node-b"; "node-c"].
Proof. vm_compute. reflexivity. Qed.

Lemma ring_refines_members_witness : nodes r1 = {["node-a"; "node-b"; "node-c"]} ∧ entries r1 ≡ₚ member_entries M1.
Proof.
  destruct (ring_refines_members "node-a" ops1) as (Hn & _ & He & _). split; [|exact He].
  etransitivity; [exact Hn|]. vm_compute. reflexivity.
Defined.

Lemma GetNode_nearest_witness :
  ∃ e, e ∈ entries r1 ∧ GetNode r1 "hello" = (nodeID e, address e).
Proof.
  destruct (GetNode_nearest r1 M1 "hello" r1_repr) as (e & H1 & H2 & _).
  { intros H. vm_compute in H. discriminate H. }
  exists e. split; [exact H1|exact H2].
Defined.

Lemma GetReplicas_distinct_witness : length (GetReplicas r1 "hello" 2) = 2%nat.
Proof.
  destruct (GetReplicas_distinct r1 M1 "hello" 2 r1_repr eq_refl) as (_ & H & _).
  assert (size (nodes r1) = 3%nat) as Hn by (vm_compute; reflexivity).
  rewrite Hn in H. lia.
Defined.

Lemma membership_change_minimal_witness :
  GetNode (AddNode r1 "node-e" "10.0.0.5:6379" 3) "user:1" = GetNode r1 "user:1".
Proof.
  refine (proj2 (membership_change_minimal r1 M1 "node-e" "10.0.0.5:6379" 3 "user:1" r1_repr _ _) _).
  - vm_compute. reflexivity.
  - apply no_ties_b_sound. vm_compute. reflexivity.
  - vm_compute. discriminate.
Defined.

Lemma rings_agree_witness :
  GetNode (run_ring "node-a" ops1) "hello" = GetNode (run_ring "node-b" ops2) "hello".
Proof.
  refine (proj1 (rings_agree "node-a" "node-b" ops1 ops2 _ _) "hello").
  - vm_compute. reflexivity.
  - apply no_ties_b_sound. vm_compute. reflexivity.
Defined.

Lemma GetSlotRanges_tile_witness : alternating (GetSlotRanges r1).
Proof.
  refine (proj2 (proj2 (GetSlotRanges_tile r1 M1 r1_repr _))).
  intros H. vm_compute in H. discriminate H.
Defined.
End RingExamples.
