(* ===== verification/GoCrypto.v ===== *)
(** * The parts of Go's encoding/binary, hash/fnv and crypto/sha256 in use

    Byte slices are strings (sequences of bytes).  [PutUint32] and [PutUint64]
    are the big-endian encodings, [fnv64a] is the FNV-1a hash of hash/fnv,
    [Sum256] is SHA-256 (FIPS 180-4).  A [hash.Hash] is the sequence of the
    bytes written to it, so [h.Write(a); h.Write(b); h.Sum(nil)] is
    [Sum256 (a +:+ b)]. *)

From S2P Require Import Prelude GoStrconv.
Local Open Scope Z_scope.

(** ** Big-endian integers *)

Fixpoint put_be (n : nat) (v : Z) : string :=
  match n with
  | O => ""
  | S n' => String (byte_of ((v / 256 ^ Z.of_nat n') mod 256)) (put_be n' v)
  end.

Definition PutUint32 (v : Z) : string := put_be 4 v.
Definition PutUint64 (v : Z) : string := put_be 8 v.

Fixpoint get_be (acc : Z) (s : string) : Z :=
  match s with
  | EmptyString => acc
  | String c s' => get_be (acc * 256 + byte_val c) s'
  end.

(** ** FNV-1a, 64 bits *)

Fixpoint fnv_loop (h : Z) (s : string) : Z :=
  match s with
  | EmptyString => h
  | String c s' => fnv_loop (uint64 (Z.lxor h (byte_val c) * 1099511628211)) s'
  end.

Definition fnv64a (s : string) : Z := fnv_loop 14695981039346656037 s.

(** ** SHA-256 *)

Module Sha256.

Definition add32 (a b : Z) : Z := uint32 (a + b).
Definition rotr (x n : Z) : Z := uint32 (Z.lor (Z.shiftr x n) (Z.shiftl x (32 - n))).
Definition ch (x y z : Z) : Z := Z.lxor (Z.land x y) (Z.land (2 ^ 32 - 1 - x) z).
Definition maj (x y z : Z) : Z :=
  Z.lxor (Z.lxor (Z.land x y) (Z.land x z)) (Z.land y z).
Definition bsig0 (x : Z) : Z := Z.lxor (Z.lxor (rotr x 2) (rotr x 13)) (rotr x 22).
Definition bsig1 (x : Z) : Z := Z.lxor (Z.lxor (rotr x 6) (rotr x 11)) (rotr x 25).
Definition ssig0 (x : Z) : Z := Z.lxor (Z.lxor (rotr x 7) (rotr x 18)) (Z.shiftr x 3).
Definition ssig1 (x : Z) : Z := Z.lxor (Z.lxor (rotr x 17) (rotr x 19)) (Z.shiftr x 10).

(** The constants come from the first 64 primes: the round constants are the
    first 32 bits of the fractional parts of their cube roots, the initial
    state those of the square roots of the first eight. *)
Definition is_prime (p : Z) : bool := forallb (λ d, negb (p mod d =? 0)) (seqZ 2 (p - 2)).
Definition primes : list Z := List.filter is_prime (seqZ 2 310).

(** The integer [k]-th root of [x], from its bit [n] down. *)
Fixpoint root_bits (k x : Z) (n : nat) (r : Z) : Z :=
  match n with
  | O => r
  | S n' => let r' := r + 2 ^ Z.of_nat n' in root_bits k x n' (if r' ^ k <=? x then r' else r)
  end.

Definition fraction (k p : Z) : Z := root_bits k (p * 2 ^ (32 * k)) 40 0 mod 2 ^ 32.

Definition K : list Z := Eval vm_compute in fraction 3 <$> primes.

Record state := mkState { sa : Z; sb : Z; sc : Z; sd : Z; se : Z; sf : Z; sg : Z; sh : Z }.

Definition init : state := Eval vm_compute in
  let f i := fraction 2 (nth i primes 0) in
  mkState (f 0%nat) (f 1%nat) (f 2%nat) (f 3%nat) (f 4%nat) (f 5%nat) (f 6%nat) (f 7%nat).

Definition round (st : state) (kw : Z * Z) : state :=
  let t1 := add32 (add32 (add32 (add32 (sh st) (bsig1 (se st))) (ch (se st) (sf st) (sg st)))
                     kw.1) kw.2 in
  let t2 := add32 (bsig0 (sa st)) (maj (sa st) (sb st) (sc st)) in
  mkState (add32 t1 t2) (sa st) (sb st) (sc st) (add32 (sd st) t1) (se st) (sf st) (sg st).

(** The message schedule, as the last sixteen words, oldest first. *)
Fixpoint schedule (n : nat) (w : list Z) : list Z :=
  match n, w with
  | O, _ => w
  | S n', w0 :: rest =>
      let next := add32 (add32 (ssig1 (nth 14 w 0)) (nth 9 w 0)) (add32 (ssig0 (nth 1 w 0)) w0) in
      w0 :: schedule n' (rest ++ [next])
  | S _, [] => []
  end.

Definition block (st : state) (w : list Z) : state :=
  let st' := fold_left round (combine K (schedule 48 w)) st in
  mkState (add32 (sa st) (sa st')) (add32 (sb st) (sb st')) (add32 (sc st) (sc st'))
    (add32 (sd st) (sd st')) (add32 (se st) (se st')) (add32 (sf st) (sf st'))
    (add32 (sg st) (sg st')) (add32 (sh st) (sh st')).

(** Padding: a one bit, zeros, the length in bits; then 32-bit words. *)
Fixpoint zeros (n : nat) : string :=
  match n with O => "" | S n' => String "000" (zeros n') end.

Definition pad (m : string) : string :=
  let l := Z.of_nat (String.length m) in
  m +:+ String (byte_of 128) (zeros (Z.to_nat ((55 - l) mod 64))) +:+ put_be 8 (8 * l).

Fixpoint words (fuel : nat) (s : string) : list Z :=
  match fuel, s with
  | S fuel', String a (String b (String c (String d s'))) =>
      get_be 0 (String a (String b (String c (String d "")))) :: words fuel' s'
  | _, _ => []
  end.

Fixpoint blocks (fuel : nat) (st : state) (ws : list Z) : state :=
  match fuel, ws with
  | S fuel', _ :: _ => blocks fuel' (block st (take 16 ws)) (drop 16 ws)
  | _, _ => st
  end.

Definition digest (st : state) : string :=
  PutUint32 (sa st) +:+ PutUint32 (sb st) +:+ PutUint32 (sc st) +:+ PutUint32 (sd st) +:+
  PutUint32 (se st) +:+ PutUint32 (sf st) +:+ PutUint32 (sg st) +:+ PutUint32 (sh st).
End Sha256.

(** The word count bounds the number of blocks. *)
Definition Sum256 (m : string) : string :=
  let p := Sha256.pad m in
  let ws := Sha256.words (String.length p) p in
  Sha256.digest (Sha256.blocks (length ws) Sha256.init ws).

Fixpoint hex_of (s : string) : string :=
  match s with
  | EmptyString => ""
  | String c s' =>
      let d n := if n <? 10 then byte_of (48 + n) else byte_of (87 + n) in
      String (d (byte_val c / 16)) (String (d (byte_val c mod 16)) (hex_of s'))
  end.

(** The published test vectors. *)
Example Sum256_empty : hex_of (Sum256 "") =
  "e3b0c44298fc1c149afbf4c8996fb92427ae41e4649b934ca495991b7852b855".
Proof. vm_compute. reflexivity. Qed.

Example Sum256_abc : hex_of (Sum256 "abc") =
  "ba7816bf8f01cfea414140de5dae2223b00361a396177a9cb410ff61f20015ad".
Proof. vm_compute. reflexivity. Qed.

Example Sum256_two_blocks :
  hex_of (Sum256 "abcdbcdecdefdefgefghfghighijhijkijkljklmklmnlmnomnopnopq") =
  "248d6a61d20638b8e5c026930c3e6039a33ce45964ff2167f6ecedd419db06c1".
Proof. vm_compute. reflexivity. Qed.

Example fnv64a_a : fnv64a "a" = 0xaf63dc4c8601ec8c.
Proof. vm_compute. reflexivity. Qed.

(** ** Facts *)

(** Strings of equal length split an append in one way. *)
Lemma string_app_inj (a a' b b' : string) : String.length a = String.length a' →
  a +:+ b = a' +:+ b' → a = a' ∧ b = b'.
Proof.
  unfold String.app. revert a'. induction a as [|x a IH]; intros [|x' a']; simpl; try done.
  intros [= Hl] [= -> He]. destruct (IH a' Hl He) as [-> ->]. done.
Qed.

Lemma put_be_length n v : String.length (put_be n v) = n.
Proof. induction n as [|n IH]; simpl; [done|]. by rewrite IH. Qed.

Lemma put_be_mod n v : put_be n v = put_be n (v mod 256 ^ Z.of_nat n).
Proof.
  assert (Hgen : ∀ k m, (k ≤ m)%nat → put_be k v = put_be k (v mod 256 ^ Z.of_nat m)).
  { induction k as [|k IH]; intros m Hkm; cbn [put_be]; [done|]. f_equal.
    - f_equal. replace (256 ^ Z.of_nat m)
        with (256 ^ Z.of_nat k * (256 * 256 ^ Z.of_nat (m - S k))).
      2: { rewrite <-(Z.pow_succ_r 256), <-Z.pow_add_r by lia. f_equal. lia. }
      assert (0 < 256 ^ Z.of_nat k) by lia. assert (0 < 256 ^ Z.of_nat (m - S k)) by lia.
      rewrite Z.rem_mul_r by lia.
      rewrite (Z.add_comm (v mod _)), Z.mul_comm, Z.div_add_l by lia.
      rewrite (Z.div_small (v mod _)) by (apply Z.mod_pos_bound; lia). rewrite Z.add_0_r.
      rewrite Z.rem_mul_r by lia. rewrite (Z.mul_comm 256), Z.mod_add by lia.
      by rewrite Z.mod_mod by lia.
    - apply IH. lia. }
  by apply Hgen.
Qed.

Lemma get_be_put acc n v : 0 ≤ v < 256 ^ Z.of_nat n →
  get_be acc (put_be n v) = acc * 256 ^ Z.of_nat n + v.
Proof.
  revert acc v. induction n as [|n IH]; intros acc v Hv; cbn [put_be get_be].
  { simpl in *. lia. }
  rewrite Nat2Z.inj_succ, Z.pow_succ_r in * by lia.
  assert (0 < 256 ^ Z.of_nat n) by lia.
  assert (0 ≤ v / 256 ^ Z.of_nat n < 256).
  { split; [apply Z.div_pos; lia|apply Z.div_lt_upper_bound; lia]. }
  rewrite (Z.mod_small (v / _)) by done. rewrite byte_val_of by done.
  rewrite put_be_mod, IH by (apply Z.mod_pos_bound; lia).
  pose proof (Z.div_mod v (256 ^ Z.of_nat n)). lia.
Qed.

Lemma put_be_inj n u v : 0 ≤ u < 256 ^ Z.of_nat n → 0 ≤ v < 256 ^ Z.of_nat n →
  put_be n u = put_be n v → u = v.
Proof.
  intros Hu Hv He. pose proof (get_be_put 0 n u Hu) as H. rewrite He, get_be_put in H by done. lia.
Qed.

Lemma fnv64a_range s : in_uint64 (fnv64a s).
Proof.
  unfold fnv64a. assert (Hg : ∀ h, in_uint64 h → in_uint64 (fnv_loop h s)).
  { induction s as [|c s IH]; intros h Hh; simpl; [done|]. apply IH, uint64_range. }
  by apply Hg.
Qed.

Lemma Sum256_length m : String.length (Sum256 m) = 32%nat.
Proof.
  unfold Sum256, Sha256.digest. cbv zeta. rewrite !string_length_app. unfold PutUint32.
  by rewrite !put_be_length.
Qed.

(** No two of the given inputs collide under SHA-256.  The inputs are finite
    and explicit, so the assumption is about the data at hand and not about the
    hash function as a whole. *)
Definition collision_free (inputs : list string) : Prop :=
  ∀ x y, x ∈ inputs → y ∈ inputs → Sum256 x = Sum256 y → x = y.

Lemma collision_free_sub l1 l2 : (∀ x, x ∈ l1 → x ∈ l2) → collision_free l2 → collision_free l1.
Proof. unfold collision_free. eauto. Qed.

(** The assumption can be checked by evaluation. *)
Definition collision_free_b (inputs : list string) : bool :=
  let ds := (λ x, (x, Sum256 x)) <$> inputs in
  forallb (λ p, forallb (λ q, negb (String.eqb p.2 q.2) || String.eqb p.1 q.1) ds) ds.

Lemma collision_free_b_sound inputs : collision_free_b inputs = true → collision_free inputs.
Proof.
  unfold collision_free_b. cbv zeta. rewrite forallb_forall. intros Hall x y Hx Hy He.
  assert (Hin : ∀ z, z ∈ inputs → In (z, Sum256 z) ((λ x, (x, Sum256 x)) <$> inputs)).
  { intros z Hz. apply list_elem_of_In, list_elem_of_fmap. eauto. }
  specialize (Hall _ (Hin x Hx)). rewrite forallb_forall in Hall.
  specialize (Hall _ (Hin y Hy)). cbn [fst snd] in Hall. rewrite He, String.eqb_refl in Hall.
  by apply String.eqb_eq in Hall.
Qed.

#[global] Opaque Sum256 fnv64a.
