(* ===== verification/Merkle.v ===== *)
(** * pkg/merkle: the Merkle tree over a store

    The model of [merkle.Tree].  A run-time panic of [Build] (the only one is
    the division by zero in the bucket index) is the result [None]; so is the
    division by zero leaves in [LeafBounds].  The flat
    arrays are lists updated by index; every index the code uses is in range,
    which the structure theorem shows. *)

From S2P Require Import Prelude GoStrconv GoSort GoCrypto BTree Store.
Local Open Scope Z_scope.

(** ** Data *)

Record kv := mkKv { kv_key : string; kv_value : string; kv_ver : Z }.

Record Tree := mkTree {
  numLeaves : Z;
  hashes : list string;
  keyCounts : list Z;
}.

Definition defaultNumLeaves : Z := 64.

#[export] Instance kv_eq_dec : EqDecision kv.
Proof. solve_decision. Defined.

(** ** Helpers *)

Definition hashKey (key : string) : Z := fnv64a key.

(** The bytes one entry contributes to its leaf's hash: both lengths are
    truncated to 32 bits, the version is written as a [uint64]. *)
Definition encode_kv (e : kv) : string :=
  PutUint32 (uint32 (GoStr.len (kv_key e))) +:+ kv_key e +:+
  PutUint32 (uint32 (GoStr.len (kv_value e))) +:+ kv_value e +:+
  PutUint64 (uint64 (kv_ver e)).

Definition encode_leaf (es : list kv) : string :=
  fold_left (λ written e, written +:+ encode_kv e) es "".

Definition leafHash (es : list kv) : string := Sum256 (encode_leaf es).

(** The input of an internal node's hash. *)
Definition hash_pair (left right : string) : string := Sum256 (left +:+ right).

Definition roundUpPowerOfTwo (n : Z) : Z :=
  if n <=? 0 then 0
  else
    let n := n - 1 in
    let n := Z.lor n (Z.shiftr n 1) in
    let n := Z.lor n (Z.shiftr n 2) in
    let n := Z.lor n (Z.shiftr n 4) in
    let n := Z.lor n (Z.shiftr n 8) in
    let n := Z.lor n (Z.shiftr n 16) in
    int64 (n + 1).

(** Go's byte-slice comparison loop. *)
Fixpoint bytesEqual_loop (a b : string) : bool :=
  match a, b with
  | String x a', String y b' => if negb (Ascii.eqb x y) then false else bytesEqual_loop a' b'
  | _, _ => true
  end.

Definition bytesEqual (a b : string) : bool :=
  if negb (GoStr.len a =? GoStr.len b) then false else bytesEqual_loop a b.

Definition inLeafRange (hash start end_ : Z) (final : bool) : bool :=
  (start <=? hash) && ((hash <? end_) || (final && (hash =? maxUint64))).

(** [maxUint64/uint64(numLeaves) + 1] on [uint64]. *)
Definition leaf_step (numLeaves : Z) : Z := uint64 (maxUint64 / uint64 numLeaves + 1).

(** The division panics on zero leaves. *)
Definition LeafBounds (numLeaves leafIdx : Z) : option (Z * Z) :=
  if uint64 numLeaves =? 0 then None
  else
    let step := leaf_step numLeaves in
    let start := uint64 (uint64 leafIdx * step) in
    let end_ := uint64 (uint64 (leafIdx + 1) * step) in
    Some (start, if leafIdx =? numLeaves - 1 then maxUint64 else end_).

(** ** Building *)

(** [roundUpPowerOfTwo] with the default for a non-positive result. *)
Definition leaf_count (n : Z) : Z :=
  let nl := roundUpPowerOfTwo n in if nl <=? 0 then defaultNumLeaves else nl.

(** The bucket of a key; [None] is the panic of a division by zero. *)
Definition bucket_index (nl : Z) (key : string) : option nat :=
  let step := leaf_step nl in
  if step =? 0 then None
  else let idx := hashKey key / step in
       Some (Z.to_nat (if nl <=? idx then nl - 1 else idx)).

(** The callback given to [Iterate]: it appends the entry to its bucket; a
    panic ends the iteration. *)
Definition add_to_bucket (nl : Z) (key : string) (e : Entry) (st : option (list (list kv)))
    : option (list (list kv)) * bool :=
  match st with
  | None => (None, false)
  | Some buckets =>
      match bucket_index nl key with
      | None => (None, false)
      | Some idx => (Some (alter (λ b, b ++ [mkKv key (Value e) (Version e)]) idx buckets), true)
      end
  end.

Definition kv_less (a b : kv) : bool := GoStr.ltb (kv_key a) (kv_key b).

(** The loop over the leaves. *)
Definition fill_leaves (buckets : list (list kv)) (st : list string * list Z)
    : list string * list Z :=
  let nl := length buckets in
  fold_left (λ st i,
      let b := default [] (buckets !! i) in
      (<[(nl - 1 + i)%nat := leafHash b]> st.1,
       <[(nl - 1 + i)%nat := Z.of_nat (length b)]> st.2))
    (seq 0 nl) st.

(** The bottom-up loop over the internal nodes. *)
Definition fill_internal (firstLeaf : nat) (st : list string * list Z) : list string * list Z :=
  fold_left (λ st i,
      let left := default "" (st.1 !! (2 * i + 1)%nat) in
      let right := default "" (st.1 !! (2 * i + 2)%nat) in
      (<[i := hash_pair left right]> st.1,
       <[i := default 0 (st.2 !! (2 * i + 1)%nat) + default 0 (st.2 !! (2 * i + 2)%nat)]> st.2))
    (reverse (seq 0 firstLeaf)) st.

Section build.
Context `{!BTreeOps item, !SliceSort}.

(** The buckets before sorting. *)
Definition raw_buckets (st : Store) (nl : Z) : option (list (list kv)) :=
  Iterate st (add_to_bucket nl) (Some (replicate (Z.to_nat nl) [])).

Definition Build (st : Store) (numLeaves : Z) : option Tree :=
  let nl := leaf_count numLeaves in
  buckets ← raw_buckets st nl;
  let buckets := Slice kv_less <$> buckets in
  let totalNodes := Z.to_nat (2 * nl - 1) in
  let firstLeaf := Z.to_nat (nl - 1) in
  let '(hashes, keyCounts) :=
    fill_internal firstLeaf
      (fill_leaves buckets (replicate totalNodes "", replicate totalNodes 0)) in
  Some (mkTree nl hashes keyCounts).

(** All live entries whose key hash lies in the leaf's range. *)
Definition LeafEntries (st : Store) (numLeaves leafIdx : Z) : option (list Entry) :=
  '(start, end_) ← LeafBounds numLeaves leafIdx;
  Some (Iterate st (λ key e entries,
      (if inLeafRange (hashKey key) start end_ (leafIdx =? numLeaves - 1)
       then entries ++ [e] else entries, true)) []).
End build.

(** ** Queries; [None] is an index out of range *)

Definition RootHash (t : Tree) : option string := hashes t !! 0%nat.
Definition NumLeaves (t : Tree) : Z := numLeaves t.
Definition LeafHash (t : Tree) (i : Z) : option string :=
  if numLeaves t - 1 + i <? 0 then None else hashes t !! Z.to_nat (numLeaves t - 1 + i).
Definition LeafKeyCount (t : Tree) (i : Z) : option Z :=
  if numLeaves t - 1 + i <? 0 then None else keyCounts t !! Z.to_nat (numLeaves t - 1 + i).

(** The leaves whose hashes differ. *)
Definition Diff (a b : Tree) : list Z :=
  if negb (numLeaves a =? numLeaves b) then []
  else
    let firstLeaf := numLeaves a - 1 in
    fold_left (λ diffs i,
        if negb (bytesEqual (default "" (hashes a !! Z.to_nat (firstLeaf + i)))
                            (default "" (hashes b !! Z.to_nat (firstLeaf + i))))
        then diffs ++ [i] else diffs)
      (seqZ 0 (numLeaves a)) [].
