(* ===== verification/MerkleProps.v ===== *)
(** * The correctness of the Merkle tree

    The rounding of the leaf count, the partition of the hash space into
    leaves, the structure of the built tree, and what equal hashes say about
    the stores they were computed from. *)

From S2P Require Import Prelude GoStrconv GoSort GoCrypto BTree Store StoreProps Merkle.
Local Open Scope Z_scope.

(** ** Rounding up to a power of two *)

(** [n | n >> d] sets bit [i] when bit [i] or bit [i + d] was set; after the
    shifts by 1, 2, 4, 8 and 16 a bit is set when one of the next 32 was. *)
Definition window (m n w : Z) : Prop :=
  ∀ i, 0 ≤ i → Z.testbit n i = true ↔ ∃ j, i ≤ j < i + w ∧ Z.testbit m j = true.

Lemma window_step m n w : 0 < w → window m n w → window m (Z.lor n (Z.shiftr n w)) (2 * w).
Proof.
  intros Hw Hn i Hi. rewrite Z.lor_spec, Z.shiftr_spec, orb_true_iff by done.
  rewrite (Hn i), (Hn (i + w)) by lia. split.
  - intros [(j & Hj & Ht)|(j & Hj & Ht)]; exists j; (split; [lia|done]).
  - intros (j & Hj & Ht). destruct (decide (j < i + w)); [left|right]; exists j; (split; [lia|done]).
Qed.

Lemma window_1 m : window m m 1.
Proof.
  intros i Hi. split; [intros Ht; exists i; auto with lia|].
  intros (j & Hj & Ht). by replace i with j by lia.
Qed.

Lemma window_ones m n w : 0 < m < 2 ^ w → window m n w → 0 ≤ n → n = 2 ^ (Z.log2 m + 1) - 1.
Proof.
  intros Hm Hn Hn0. pose proof (Z.log2_nonneg m).
  assert (Hlw : Z.log2 m < w) by (apply Z.log2_lt_pow2; lia).
  assert (n = Z.ones (Z.log2 m + 1)) as ->; [|by rewrite Z.ones_equiv; lia].
  apply Z.bits_inj'. intros i Hi. apply eq_true_iff_eq. rewrite (Hn i) by done.
  rewrite Z.testbit_ones_nonneg by lia. rewrite Z.ltb_lt. split.
  - intros (j & Hj & Ht). destruct (decide (j ≤ Z.log2 m)); [lia|].
    rewrite Z.bits_above_log2 in Ht by lia. done.
  - intros Hlt. exists (Z.log2 m). split; [lia|]. apply Z.bit_log2. lia.
Qed.

Lemma lor_shiftr_nonneg n k : 0 ≤ n → 0 ≤ Z.lor n (Z.shiftr n k).
Proof. intros. apply Z.lor_nonneg. split; [done|]. by apply Z.shiftr_nonneg. Qed.

Lemma roundUp_pow2 n : 1 < n ≤ 2 ^ 32 → roundUpPowerOfTwo n = 2 ^ (Z.log2 (n - 1) + 1).
Proof.
  intros Hn. unfold roundUpPowerOfTwo. destruct (Z.leb_spec n 0); [lia|]. cbv zeta.
  match goal with |- int64 (?x + 1) = _ => assert (x = 2 ^ (Z.log2 (n - 1) + 1) - 1) as -> end.
  { apply (window_ones _ _ 32); [lia| |].
    - apply (window_step _ _ 16), (window_step _ _ 8), (window_step _ _ 4),
        (window_step _ _ 2), (window_step _ _ 1); try lia.
      apply window_1.
    - do 5 apply lor_shiftr_nonneg. lia. }
  rewrite Z.sub_add, int64_id; [done|].
  assert (Z.log2 (n - 1) < 32) by (apply Z.log2_lt_pow2; lia).
  assert (2 ^ (Z.log2 (n - 1) + 1) ≤ 2 ^ 32).
  { apply Z.pow_le_mono_r; [lia|]. lia. }
  pose proof (Z.log2_nonneg (n - 1)).
  assert (0 < 2 ^ (Z.log2 (n - 1) + 1)) by (apply Z.pow_pos_nonneg; lia).
  unfold in_int64, minInt64, maxInt64. lia.
Qed.

(** ** The partition of the hash space *)

(** A leaf count that [Build] produces from a request of 2 to 2^32 leaves. *)
Definition leaves_pow2 (nl p : Z) : Prop := 1 ≤ p ≤ 62 ∧ nl = 2 ^ p.

Lemma leaves_pow2_pos nl p : leaves_pow2 nl p → 2 ≤ nl ≤ 2 ^ 62 ∧ nl * 2 ^ (64 - p) = 2 ^ 64.
Proof.
  intros [Hp ->]. split.
  - change 2 with (2 ^ 1) at 1. split; apply Z.pow_le_mono_r; lia.
  - rewrite <-Z.pow_add_r by lia. f_equal. lia.
Qed.

Lemma leaf_step_pow2 nl p : leaves_pow2 nl p → leaf_step nl = 2 ^ (64 - p).
Proof.
  intros Hnl. pose proof (leaves_pow2_pos _ _ Hnl) as [Hr Hmul]. destruct Hnl as [Hp ->].
  unfold leaf_step. rewrite (uint64_id (2 ^ p)) by (unfold in_uint64, maxUint64; lia).
  assert (maxUint64 / 2 ^ p = 2 ^ (64 - p) - 1) as ->.
  { symmetry. apply Z.div_unique with (2 ^ p - 1); unfold maxUint64; lia. }
  rewrite Z.sub_add, uint64_id; [done|].
  assert (0 < 2 ^ (64 - p) ≤ 2 ^ 63).
  { split; [apply Z.pow_pos_nonneg; lia|apply Z.pow_le_mono_r; lia]. }
  unfold in_uint64, maxUint64. lia.
Qed.

Lemma hash_div_range nl p h : leaves_pow2 nl p → in_uint64 h → 0 ≤ h / 2 ^ (64 - p) < nl.
Proof.
  intros Hnl Hh. pose proof (leaves_pow2_pos _ _ Hnl) as [Hr Hmul]. destruct Hnl as [Hp ->].
  unfold in_uint64, maxUint64 in Hh.
  assert (0 < 2 ^ (64 - p)) by (apply Z.pow_pos_nonneg; lia).
  split; [apply Z.div_pos; lia|]. apply Z.div_lt_upper_bound; lia.
Qed.

Lemma bucket_index_pow2 nl p key : leaves_pow2 nl p →
  bucket_index nl key = Some (Z.to_nat (hashKey key / 2 ^ (64 - p))).
Proof.
  intros Hnl. unfold bucket_index. rewrite (leaf_step_pow2 _ p) by done. cbv zeta.
  assert (0 < 2 ^ (64 - p)) by (apply Z.pow_pos_nonneg; destruct Hnl; lia).
  destruct (Z.eqb_spec (2 ^ (64 - p)) 0); [lia|].
  pose proof (hash_div_range nl p (hashKey key) Hnl (fnv64a_range key)).
  by destruct (Z.leb_spec nl (hashKey key / 2 ^ (64 - p))); [lia|].
Qed.

Lemma LeafBounds_pow2 nl p i : leaves_pow2 nl p → 0 ≤ i < nl →
  LeafBounds nl i = Some (i * 2 ^ (64 - p),
                          if i =? nl - 1 then maxUint64 else (i + 1) * 2 ^ (64 - p)).
Proof.
  intros Hnl Hi. pose proof (leaves_pow2_pos _ _ Hnl) as [Hr Hmul]. unfold LeafBounds.
  rewrite (uint64_id nl) by (unfold in_uint64, maxUint64; lia).
  destruct (Z.eqb_spec nl 0); [lia|]. rewrite (leaf_step_pow2 _ p) by done. cbv zeta.
  assert (0 < 2 ^ (64 - p)) by (apply Z.pow_pos_nonneg; destruct Hnl; lia).
  rewrite (uint64_id i), (uint64_id (i + 1)) by (unfold in_uint64, maxUint64; lia).
  rewrite (uint64_id (i * _)) by (unfold in_uint64, maxUint64; nia).
  destruct (Z.eqb_spec i (nl - 1)); [done|].
  by rewrite uint64_id by (unfold in_uint64, maxUint64; nia).
Qed.

(** A hash lies in the range of exactly the leaf its bucket index names. *)
Lemma inLeafRange_pow2 nl p i h : leaves_pow2 nl p → 0 ≤ i < nl → in_uint64 h →
  inLeafRange h (i * 2 ^ (64 - p)) (if i =? nl - 1 then maxUint64 else (i + 1) * 2 ^ (64 - p))
    (i =? nl - 1) = bool_decide (h / 2 ^ (64 - p) = i).
Proof.
  intros Hnl Hi Hh. pose proof (leaves_pow2_pos _ _ Hnl) as [Hr Hmul].
  assert (Hs : 0 < 2 ^ (64 - p)) by (apply Z.pow_pos_nonneg; destruct Hnl; lia).
  set (step := 2 ^ (64 - p)) in *. unfold in_uint64, maxUint64 in Hh.
  assert (Hdiv : h / step = i ↔ i * step ≤ h < (i + 1) * step).
  { split; [intros <-; pose proof (Z.div_mod h step); pose proof (Z.mod_pos_bound h step); lia|].
    intros Hb. symmetry. apply Z.div_unique with (h - i * step); lia. }
  apply eq_true_iff_eq. rewrite bool_decide_eq_true, Hdiv. unfold inLeafRange, maxUint64.
  rewrite andb_true_iff, orb_true_iff, andb_true_iff, Z.leb_le, Z.ltb_lt, Z.eqb_eq, Z.eqb_eq.
  destruct (Z.eqb_spec i (nl - 1)) as [->|Hne].
  - replace (nl - 1 + 1) with nl by lia. rewrite Hmul. lia.
  - lia.
Qed.

(** ** The buckets *)

Definition to_kv (it : item) : kv :=
  mkKv (key it) (Value (item_Entry it)) (Version (item_Entry it)).

(** The number of the leaf a key belongs to. *)
Definition leaf_of (p : Z) (k : string) : Z := hashKey k / 2 ^ (64 - p).

Lemma kv_less_strict_weak : strict_weak kv_less.
Proof. apply (key_strict_weak kv_key GoStr.ltb). auto with hap. Qed.

Section buckets.
Context `{!BTreeOps item}.

(** The live items of leaf [i], in ascending key order. *)
Definition leaf_items (st : Store) (p i : Z) : list item :=
  List.filter (λ it, bool_decide (leaf_of p (key it) = i)) (live_items st).

Definition leaf_bucket (st : Store) (p i : Z) : list kv := to_kv <$> leaf_items st p i.

Lemma fold_alter_lookup (idx : item → nat) (items : list item) (bs : list (list kv)) i :
  fold_left (λ bs it, alter (λ b, b ++ [to_kv it]) (idx it) bs) items bs !! i =
  (λ b, b ++ (to_kv <$> List.filter (λ it, bool_decide (idx it = i)) items)) <$> bs !! i.
Proof.
  revert bs. induction items as [|it items IH]; intros bs; simpl.
  { destruct (bs !! i); simpl; [by rewrite app_nil_r|done]. }
  rewrite IH. destruct (decide (idx it = i)) as [<-|Hne].
  - rewrite bool_decide_eq_true_2, list_lookup_alter_eq by done. simpl.
    destruct (bs !! idx it); simpl; [|done]. by rewrite <-app_assoc.
  - by rewrite bool_decide_eq_false_2, list_lookup_alter_ne by done.
Qed.

Lemma raw_buckets_pow2 st nl p : leaves_pow2 nl p →
  raw_buckets st nl = Some (leaf_bucket st p <$> seqZ 0 nl).
Proof.
  intros Hnl. pose proof (leaves_pow2_pos _ _ Hnl) as [Hr _]. unfold raw_buckets, Iterate.
  set (idx it := Z.to_nat (leaf_of p (key it))).
  set (g := λ (it : item) (st : option (list (list kv))),
    if item_live it then alter (λ b, b ++ [to_kv it]) (idx it) <$> st else st).
  rewrite (visit_all_on (λ s, is_Some s) _ g); [|by eexists|].
  2: { intros it s [bs ->]. unfold g, item_live, add_to_bucket.
       destruct (Deleted (item_Entry it)); simpl; [split; [done|by eexists]|].
       rewrite (bucket_index_pow2 _ p) by done. split; [done|by eexists]. }
  unfold g. rewrite <-(fold_left_filter item_live (λ s it, alter _ (idx it) <$> s)).
  fold (live_items st).
  assert (Hlift : ∀ items (bs : list (list kv)),
    fold_left (λ s it, alter (λ b, b ++ [to_kv it]) (idx it) <$> s) items (Some bs) =
    Some (fold_left (λ bs it, alter (λ b, b ++ [to_kv it]) (idx it) bs) items bs)).
  { induction items as [|it items IH]; intros bs; simpl; [done|]. apply IH. }
  rewrite Hlift. f_equal. apply list_eq. intros i. rewrite fold_alter_lookup, list_lookup_fmap.
  destruct (decide (i < Z.to_nat nl)%nat) as [Hi|Hi].
  - rewrite lookup_replicate_2, lookup_seqZ_lt by lia. simpl. f_equal.
    unfold leaf_bucket, leaf_items. f_equal. apply List.filter_ext. intros it.
    apply bool_decide_ext. unfold idx.
    pose proof (hash_div_range nl p (hashKey (key it)) Hnl (fnv64a_range _)). unfold leaf_of. lia.
  - rewrite lookup_seqZ_ge by lia. assert (replicate (Z.to_nat nl) ([] : list kv) !! i = None) as ->;
      [|done]. apply lookup_replicate_None. lia.
Qed.

Context `{!BTreeLaws less, !SliceSort, !SliceSortLaws}.



(** The buckets are filled in key order, so sorting them changes nothing. *)
Lemma Slice_leaf_bucket st p i : btree_ok (tree st) →
  Slice kv_less (leaf_bucket st p i) = leaf_bucket st p i.
Proof.
  intros Ht. assert (Hs : StronglySorted (λ x y, kv_less x y = true) (leaf_bucket st p i)).
  { unfold leaf_bucket, leaf_items.
    pose proof (StronglySorted_filter _ (λ it, bool_decide (leaf_of p (key it) = i)) _
      (live_items_sorted st Ht)) as Hl.
    induction Hl as [|x l Hl IH Hall]; simpl; constructor; [done|].
    apply Forall_fmap. eapply Forall_impl; [exact Hall|]. done. }
  apply (sorted_by_unique kv_less).
  - apply Slice_perm.
  - apply Slice_sorted, kv_less_strict_weak.
  - unfold sorted_by. induction Hs as [|x l Hl IH Hall]; constructor; [done|].
    eapply Forall_impl; [exact Hall|]. intros y Hy. by apply GoStr.ltb_asym.
  - intros x y Hx Hy Hxy Hyx. rewrite Slice_perm in Hx, Hy.
    assert (kv_key x = kv_key y) as Hk.
    { apply GoStr.ltb_eq_iff. unfold kv_less in *. by rewrite Hxy, Hyx. }
    induction Hs as [|z l Hl IH Hall]; [by apply elem_of_nil in Hx|].
    rewrite Forall_forall in Hall. unfold kv_less in Hall.
    apply elem_of_cons in Hx as [->|Hx], Hy as [->|Hy]; [done| | |by apply IH].
    + specialize (Hall y Hy). rewrite Hk, GoStr.ltb_irrefl in Hall. done.
    + specialize (Hall x Hx). rewrite Hk, GoStr.ltb_irrefl in Hall. done.
Qed.
End buckets.

(** ** Filling the flat arrays *)

(** The two loops act on the two arrays independently. *)
Definition heap_leaves {A} (vals : list A) (off : nat) (l : list A) : list A :=
  fold_left (λ l iv, <[(off + iv.1)%nat := iv.2]> l) (zip (seq 0 (length vals)) vals) l.

Definition heap_fill {A} (f : A → A → A) (d : A) (n : nat) (l : list A) : list A :=
  fold_left (λ l i, <[i := f (default d (l !! (2 * i + 1)%nat)) (default d (l !! (2 * i + 2)%nat))]> l)
    (reverse (seq 0 n)) l.

Lemma fill_internal_heap n h k :
  fill_internal n (h, k) = (heap_fill hash_pair "" n h, heap_fill Z.add 0 n k).
Proof.
  unfold fill_internal, heap_fill. revert h k. induction (reverse (seq 0 n)) as [|i l IH];
    intros h k; cbn [fold_left fst snd]; [done|]. apply IH.
Qed.

Lemma heap_fill_S {A} (f : A → A → A) d n l :
  heap_fill f d (S n) l =
  heap_fill f d n (<[n := f (default d (l !! (2 * n + 1)%nat)) (default d (l !! (2 * n + 2)%nat))]> l).
Proof. unfold heap_fill. rewrite seq_S, reverse_snoc. done. Qed.

Lemma heap_fill_length {A} (f : A → A → A) d n l : length (heap_fill f d n l) = length l.
Proof. revert l. induction n as [|n IH]; intros l; [done|]. by rewrite heap_fill_S, IH, length_insert. Qed.

Lemma heap_fill_above {A} (f : A → A → A) d n l i : (n ≤ i)%nat → heap_fill f d n l !! i = l !! i.
Proof.
  revert l. induction n as [|n IH]; intros l Hi; [done|].
  rewrite heap_fill_S, IH by lia. apply list_lookup_insert_ne. lia.
Qed.

(** Every internal node combines its children. *)
Lemma heap_fill_node {A} (f : A → A → A) d n l i : (i < n)%nat → (2 * n < length l)%nat →
  let l' := heap_fill f d n l in
  l' !! i = Some (f (default d (l' !! (2 * i + 1)%nat)) (default d (l' !! (2 * i + 2)%nat))).
Proof.
  revert l. induction n as [|n IH]; intros l Hi Hl; [lia|]. cbv zeta. rewrite heap_fill_S.
  destruct (decide (i = n)) as [->|Hne].
  - rewrite !heap_fill_above by lia. rewrite list_lookup_insert_eq by lia.
    by rewrite !list_lookup_insert_ne by lia.
  - apply IH; [lia|]. rewrite length_insert. lia.
Qed.

(** Writing the leaves: a direct description of the resulting array. *)
Lemma heap_leaves_lookup {A} (vals : list A) off l i : (off + length vals ≤ length l)%nat →
  heap_leaves vals off l !! i =
  if decide (off ≤ i < off + length vals)%nat then vals !! (i - off)%nat else l !! i.
Proof.
  unfold heap_leaves.
  assert (Hgen : ∀ (vals : list A) s (l : list A), (off + s + length vals ≤ length l)%nat →
    fold_left (λ l iv, <[(off + iv.1)%nat := iv.2]> l) (zip (seq s (length vals)) vals) l !! i =
    if decide (off + s ≤ i < off + s + length vals)%nat then vals !! (i - (off + s))%nat else l !! i).
  { clear vals l. induction vals as [|v vals IH]; intros s l Hl; simpl in *.
    { by rewrite decide_False by lia. }
    rewrite IH by (rewrite length_insert; lia). destruct (decide (i = off + s)%nat) as [->|Hne].
    - rewrite decide_False, decide_True by lia.
      rewrite list_lookup_insert_eq by lia. by rewrite Nat.sub_diag.
    - destruct (decide (off + S s ≤ i < off + S s + length vals)%nat).
      + rewrite decide_True by lia. by replace (i - (off + s))%nat with (S (i - (off + S s))) by lia.
      + rewrite decide_False by lia. apply list_lookup_insert_ne. lia. }
  intros Hl. rewrite Hgen by lia. by rewrite Nat.add_0_r.
Qed.

Lemma heap_leaves_length {A} (vals : list A) off l : length (heap_leaves vals off l) = length l.
Proof.
  unfold heap_leaves. revert l. induction (zip _ vals) as [|x z IH]; intros l; simpl; [done|].
  by rewrite IH, length_insert.
Qed.

Lemma fill_leaves_heap bs h k :
  fill_leaves bs (h, k) =
  (heap_leaves (leafHash <$> bs) (length bs - 1) h,
   heap_leaves ((λ b, Z.of_nat (length b)) <$> bs) (length bs - 1) k).
Proof.
  unfold fill_leaves, heap_leaves. rewrite !length_fmap.
  assert (Hgen : ∀ s ns, (∀ i, i ∈ ns → (i < length bs)%nat) → ∀ (h : list string) (k : list Z),
    fold_left (λ st i, let b := default [] (bs !! i) in
      (<[(s + i)%nat := leafHash b]> st.1, <[(s + i)%nat := Z.of_nat (length b)]> st.2)) ns (h, k) =
    (fold_left (λ l iv, <[(s + iv.1)%nat := iv.2]> l)
       ((λ i, (i, leafHash (default [] (bs !! i)))) <$> ns) h,
     fold_left (λ l iv, <[(s + iv.1)%nat := iv.2]> l)
       ((λ i, (i, Z.of_nat (length (default [] (bs !! i))))) <$> ns) k)).
  { intros s ns. induction ns as [|i ns IH]; intros Hns h' k'; simpl; [done|].
    apply IH. intros j Hj. apply Hns. apply elem_of_cons. by right. }
  rewrite Hgen by (intros i [_ ?]%elem_of_seq; lia).
  assert (Hzip : ∀ {B} (g : list kv → B), (λ i, (i, g (default [] (bs !! i)))) <$> seq 0 (length bs)
    = zip (seq 0 (length bs)) (g <$> bs)).
  { intros B g. apply list_eq. intros i. rewrite list_lookup_fmap, lookup_zip_with, list_lookup_fmap.
    destruct (decide (i < length bs)%nat) as [Hi|Hi].
    - rewrite lookup_seq_lt by done. destruct (lookup_lt_is_Some_2 bs i Hi) as [b Hb].
      simpl. by rewrite Hb.
    - by rewrite lookup_seq_ge by lia. }
  by rewrite (Hzip _ leafHash), (Hzip _ (λ b, Z.of_nat (length b))).
Qed.

(** ** The structure of a built tree *)

(** [t] is a complete binary tree over the leaves of [st]. *)
Record tree_of `{!BTreeOps item} (st : Store) (p : Z) (t : Tree) : Prop := {
  tree_leaves : leaves_pow2 (numLeaves t) p;
  tree_hashes_len : Z.of_nat (length (hashes t)) = 2 * numLeaves t - 1;
  tree_counts_len : Z.of_nat (length (keyCounts t)) = 2 * numLeaves t - 1;
  tree_leaf_hash i : 0 ≤ i < numLeaves t →
    hashes t !! Z.to_nat (numLeaves t - 1 + i) = Some (leafHash (leaf_bucket st p i));
  tree_leaf_count i : 0 ≤ i < numLeaves t →
    keyCounts t !! Z.to_nat (numLeaves t - 1 + i) = Some (Z.of_nat (length (leaf_bucket st p i)));
  tree_node_hash i : Z.of_nat i < numLeaves t - 1 →
    ∃ l r, hashes t !! (2 * i + 1)%nat = Some l ∧ hashes t !! (2 * i + 2)%nat = Some r ∧
           hashes t !! i = Some (hash_pair l r);
  tree_node_count i : Z.of_nat i < numLeaves t - 1 →
    ∃ l r, keyCounts t !! (2 * i + 1)%nat = Some l ∧ keyCounts t !! (2 * i + 2)%nat = Some r ∧
           keyCounts t !! i = Some (l + r);
}.

(** What [heap_leaves] and [heap_fill] give for either array. *)
Lemma heap_node {A} (f : A → A → A) (d x : A) (vals : list A) n :
  length vals = S n →
  let l := heap_fill f d n (heap_leaves vals n (replicate (2 * n + 1) x)) in
  length l = (2 * n + 1)%nat ∧
  (∀ i, (i < S n)%nat → l !! (n + i)%nat = vals !! i) ∧
  (∀ i, (i < n)%nat → ∃ a b, l !! (2 * i + 1)%nat = Some a ∧ l !! (2 * i + 2)%nat = Some b ∧
     l !! i = Some (f a b)).
Proof.
  intros Hv l. assert (Hlen : length l = (2 * n + 1)%nat).
  { unfold l. by rewrite heap_fill_length, heap_leaves_length, length_replicate. }
  split; [done|]. split.
  - intros i Hi. unfold l. rewrite heap_fill_above by lia.
    rewrite heap_leaves_lookup by (rewrite length_replicate; lia).
    rewrite decide_True by lia. f_equal. lia.
  - intros i Hi. destruct (lookup_lt_is_Some_2 l (2 * i + 1)) as [a Ha]; [lia|].
    destruct (lookup_lt_is_Some_2 l (2 * i + 2)) as [b Hb]; [lia|].
    exists a, b. split; [done|]. split; [done|].
    pose proof (heap_fill_node f d n (heap_leaves vals n (replicate (2 * n + 1) x)) i Hi) as Hn.
    rewrite heap_leaves_length, length_replicate in Hn. specialize (Hn ltac:(lia)).
    fold l in Hn. cbv zeta in Hn. by rewrite Ha, Hb in Hn.
Qed.

Section structure.
Context `{!BTreeOps item, !BTreeLaws less, !SliceSort, !SliceSortLaws}.

Lemma Build_is_tree st n p : btree_ok (tree st) → leaves_pow2 (leaf_count n) p →
  ∃ t, Build st n = Some t ∧ tree_of st p t ∧ numLeaves t = leaf_count n.
Proof.
  intros Ht Hnl. pose proof (leaves_pow2_pos _ _ Hnl) as [Hr _].
  unfold Build. set (nl := leaf_count n) in *. rewrite (raw_buckets_pow2 _ _ p) by done. simpl.
  assert (Slice kv_less <$> (leaf_bucket st p <$> seqZ 0 nl) = leaf_bucket st p <$> seqZ 0 nl) as ->.
  { rewrite <-list_fmap_compose. apply list_fmap_ext. intros i x _. by apply Slice_leaf_bucket. }
  rewrite fill_leaves_heap, fill_internal_heap. set (bs := leaf_bucket st p <$> seqZ 0 nl).
  assert (Hbs : length bs = Z.to_nat nl) by (unfold bs; by rewrite length_fmap, length_seqZ).
  set (m := Z.to_nat (nl - 1)). assert (Z.to_nat (2 * nl - 1) = (2 * m + 1)%nat) as -> by lia.
  replace (length bs - 1)%nat with m by lia.
  destruct (heap_node hash_pair "" "" (leafHash <$> bs) m) as (Hh1 & Hh2 & Hh3);
    [rewrite length_fmap; lia|].
  destruct (heap_node Z.add 0 0 ((λ b, Z.of_nat (length b)) <$> bs) m) as (Hk1 & Hk2 & Hk3);
    [rewrite length_fmap; lia|].
  assert (Hb : ∀ i, 0 ≤ i < nl → bs !! Z.to_nat i = Some (leaf_bucket st p i)).
  { intros i Hi. unfold bs. rewrite list_lookup_fmap, lookup_seqZ_lt by lia. simpl. f_equal. f_equal. lia. }
  eexists. split; [done|]. split; [|done]. split; cbn [numLeaves hashes keyCounts].
  - done.
  - rewrite Hh1. lia.
  - rewrite Hk1. lia.
  - intros i Hi. replace (Z.to_nat (nl - 1 + i)) with (m + Z.to_nat i)%nat by lia.
    by rewrite Hh2, list_lookup_fmap, Hb by lia.
  - intros i Hi. replace (Z.to_nat (nl - 1 + i)) with (m + Z.to_nat i)%nat by lia.
    by rewrite Hk2, list_lookup_fmap, Hb by lia.
  - intros i Hi. apply Hh3. lia.
  - intros i Hi. apply Hk3. lia.
Qed.
End structure.

Lemma leaf_count_pow2 n : 2 ≤ n ≤ 2 ^ 32 →
  leaves_pow2 (leaf_count n) (Z.log2 (n - 1) + 1) ∧ n ≤ leaf_count n < 2 * n.
Proof.
  intros Hn. unfold leaf_count. rewrite roundUp_pow2 by lia. cbv zeta.
  pose proof (Z.log2_spec (n - 1)) as Hl. pose proof (Z.log2_nonneg (n - 1)).
  assert (Z.log2 (n - 1) < 32) by (apply Z.log2_lt_pow2; lia).
  assert (0 < 2 ^ (Z.log2 (n - 1) + 1)) by (apply Z.pow_pos_nonneg; lia).
  destruct (Z.leb_spec (2 ^ (Z.log2 (n - 1) + 1)) 0); [lia|].
  split; [split; [lia|done]|]. rewrite <-Z.add_1_r in Hl.
  rewrite Z.pow_add_r in * by lia. lia.
Qed.

(** ** Key counts *)

Definition sumZ (l : list Z) : Z := foldr Z.add 0 l.

Lemma sumZ_app l1 l2 : sumZ (l1 ++ l2) = sumZ l1 + sumZ l2.
Proof. induction l1 as [|x l1 IH]; simpl; [done|]. unfold sumZ in *. simpl. lia. Qed.

(** In a heap whose internal nodes add up their children, the internal nodes
    together count every node but the root, *)
Lemma heap_sum_below (g : nat → Z) m n : (n ≤ m)%nat →
  (∀ i, (i < m)%nat → g i = g (2 * i + 1)%nat + g (2 * i + 2)%nat) →
  sumZ (g <$> seq 0 n) = sumZ (g <$> seq 1 (2 * n)).
Proof.
  intros Hn Hg. induction n as [|n IH]; [done|].
  replace (2 * S n)%nat with (S (S (2 * n))) by lia. rewrite !seq_S, !fmap_app, !sumZ_app, IH by lia.
  cbn. rewrite (Hg n) by lia. replace (2 * n + 1)%nat with (1 + 2 * n)%nat by lia.
  replace (2 * n + 2)%nat with (1 + S (2 * n))%nat by lia. cbn. lia.
Qed.

(** so the root counts the leaves. *)
Lemma heap_sum_root (g : nat → Z) m :
  (∀ i, (i < m)%nat → g i = g (2 * i + 1)%nat + g (2 * i + 2)%nat) →
  g 0%nat = sumZ (g <$> seq m (S m)).
Proof.
  intros Hg. destruct m as [|m]; [cbn; lia|].
  pose proof (heap_sum_below g (S m) (S m) ltac:(lia) Hg) as Hs.
  replace (2 * S m)%nat with (m + S (S m))%nat in Hs by lia.
  rewrite seq_app, fmap_app, sumZ_app in Hs.
  replace (seq 0 (S m)) with (0%nat :: seq 1 m) in Hs by done.
  change (1 + m)%nat with (S m) in Hs. rewrite fmap_cons in Hs. cbn [sumZ foldr] in Hs.
  unfold sumZ in *. cbn [foldr] in Hs. lia.
Qed.

Lemma sumZ_partition {A} (f : A → Z) (l : list A) n : (∀ x, x ∈ l → 0 ≤ f x < n) →
  sumZ ((λ i, Z.of_nat (length (List.filter (λ x, bool_decide (f x = i)) l))) <$> seqZ 0 n) =
  Z.of_nat (length l).
Proof.
  induction l as [|x l IH]; intros Hf.
  { clear Hf. induction (seqZ 0 n) as [|i s IHs]; [done|]. rewrite fmap_cons. cbn [sumZ foldr].
    exact IHs. }
  assert (Hx : 0 ≤ f x < n) by (apply Hf, elem_of_cons; by left).
  cbn [length]. rewrite Nat2Z.inj_succ, <-IH by (intros y Hy; apply Hf, elem_of_cons; by right).
  clear IH. assert (Hg : ∀ s, NoDup s →
    sumZ ((λ i, Z.of_nat (length (List.filter (λ y, bool_decide (f y = i)) (x :: l)))) <$> s) =
    sumZ ((λ i, Z.of_nat (length (List.filter (λ y, bool_decide (f y = i)) l))) <$> s) +
    (if decide (f x ∈ s) then 1 else 0)).
  { induction 1 as [|i s Hi Hs IHs]; [done|]. cbn [fmap list_fmap sumZ foldr].
    fold (sumZ ((λ i, Z.of_nat (length (List.filter (λ y, bool_decide (f y = i)) (x :: l)))) <$> s)).
    fold (sumZ ((λ i, Z.of_nat (length (List.filter (λ y, bool_decide (f y = i)) l))) <$> s)).
    rewrite IHs. cbn [List.filter]. destruct (decide (f x = i)) as [<-|Hne].
    - rewrite bool_decide_eq_true_2 by done. rewrite decide_False by done.
      rewrite decide_True by (apply elem_of_cons; by left). cbn [length]. lia.
    - rewrite bool_decide_eq_false_2 by done.
      destruct (decide (f x ∈ s)); [rewrite decide_True by (apply elem_of_cons; by right)
        |rewrite decide_False by (rewrite elem_of_cons; naive_solver)]; lia. }
  rewrite Hg by apply NoDup_seqZ. rewrite decide_True by (apply elem_of_seqZ; lia). lia.
Qed.

(** ** The contents a tree stands for *)

Definition visible (e : Entry) : option (string * Z) :=
  if Deleted e then None else Some (Value e, Version e).

Section contents.
Context `{!BTreeOps item, !BTreeLaws less}.
Implicit Types st : Store.

(** What a reader can see: the value and version of every live key. *)
Definition contents st : gmap string (string * Z) := omap visible (Snapshot st).

Definition live_kvs st : list kv := to_kv <$> live_items st.

Lemma elem_of_live_kvs st k v n : btree_ok (tree st) →
  mkKv k v n ∈ live_kvs st ↔ contents st !! k = Some (v, n).
Proof.
  intros Ht. unfold live_kvs, contents. rewrite list_elem_of_fmap, lookup_omap_Some. split.
  - intros ([k' e] & [= -> -> ->] & [Hk Hd]%elem_of_live_items); [|done].
    exists e. unfold visible. by rewrite Hd.
  - intros (e & Hv & Hk). unfold visible in Hv. destruct (Deleted e) eqn:Hd; [done|].
    injection Hv as <- <-. exists (mkItem k e). split; [done|]. by apply elem_of_live_items.
Qed.

Lemma live_kvs_sorted st : btree_ok (tree st) →
  StronglySorted (λ x y, kv_less x y = true) (live_kvs st).
Proof.
  intros Ht. unfold live_kvs. pose proof (live_items_sorted st Ht) as Hl.
  induction Hl as [|x l Hl IH Hall]; simpl; constructor; [done|].
  apply Forall_fmap. eapply Forall_impl; [exact Hall|]. done.
Qed.

Lemma leaf_bucket_filter st p i :
  leaf_bucket st p i = List.filter (λ x, bool_decide (leaf_of p (kv_key x) = i)) (live_kvs st).
Proof.
  unfold leaf_bucket, leaf_items, live_kvs.
  induction (live_items st) as [|it l IH]; [done|].
  rewrite fmap_cons. cbn [List.filter]. cbn [to_kv kv_key].
  destruct (bool_decide (leaf_of p (key it) = i)); [rewrite fmap_cons|]; by rewrite IH.
Qed.

Lemma elem_of_leaf_bucket st p i k v n : btree_ok (tree st) →
  mkKv k v n ∈ leaf_bucket st p i ↔ leaf_of p k = i ∧ contents st !! k = Some (v, n).
Proof.
  intros Ht. rewrite leaf_bucket_filter, elem_of_list_filter_bool, elem_of_live_kvs by done.
  cbn [kv_key]. rewrite bool_decide_eq_true. naive_solver.
Qed.

Lemma length_live_items st : btree_ok (tree st) → Z.of_nat (length (live_items st)) = live (Snapshot st).
Proof.
  intros Ht. unfold live. f_equal.
  assert (Hnd : NoDup (((λ it, (key it, item_Entry it)) <$> live_items st).*1)).
  { rewrite <-list_fmap_compose. change (fst ∘ _) with key.
    apply (sublist_NoDup _ (key <$> Ascend (tree st))); [by apply NoDup_keys|].
    unfold live_items. clear.
    induction (Ascend (tree st)) as [|x l IH]; simpl; [constructor|].
    destruct (item_live x); simpl; by constructor. }
  rewrite <-(length_fmap (λ it, (key it, item_Entry it))), <-(map_size_list_to_map (M := gmap string)) by done.
  f_equal. apply map_eq. intros k. apply option_eq. intros e.
  rewrite <-elem_of_list_to_map, map_lookup_filter_Some, <-elem_of_live_items by done.
  rewrite list_elem_of_fmap. split.
  - by intros ([k' e'] & [= -> ->] & Hin).
  - intros Hin. by exists (mkItem k e).
Qed.

(** Two stores have the same bucket exactly when they agree on its keys. *)
Lemma leaf_bucket_eq st1 st2 p i : btree_ok (tree st1) → btree_ok (tree st2) →
  leaf_bucket st1 p i = leaf_bucket st2 p i ↔
  ∀ k, leaf_of p k = i → contents st1 !! k = contents st2 !! k.
Proof.
  intros H1 H2. split.
  - intros He k Hk. apply option_eq. intros [v n].
    pose proof (elem_of_leaf_bucket st1 p i k v n H1) as E1.
    pose proof (elem_of_leaf_bucket st2 p i k v n H2) as E2. rewrite He in E1. naive_solver.
  - intros Hag. assert (Hs : ∀ st, btree_ok (tree st) →
      StronglySorted (λ x y, kv_less x y = true) (leaf_bucket st p i)).
    { intros st Ht. rewrite leaf_bucket_filter. by apply StronglySorted_filter, live_kvs_sorted. }
    assert (Hin : ∀ x, x ∈ leaf_bucket st1 p i ↔ x ∈ leaf_bucket st2 p i).
    { intros [k v n]. rewrite !elem_of_leaf_bucket by done. split; intros [Hk Hc]; (split; [done|]);
        [by rewrite <-Hag|by rewrite Hag]. }
    assert (Hnd : ∀ l, StronglySorted (λ x y, kv_less x y = true) l → NoDup l).
    { induction 1 as [|x l Hl IH Hall]; constructor; [|done]. intros Hx.
      rewrite Forall_forall in Hall. specialize (Hall x Hx). unfold kv_less in Hall.
      by rewrite GoStr.ltb_irrefl in Hall. }
    apply (StronglySorted_unique_strong (λ x y, kv_less x y = true)).
    + intros x y _ _ Hxy Hyx. apply GoStr.ltb_asym in Hxy. unfold kv_less in Hyx. congruence.
    + by apply Hs.
    + by apply Hs.
    + apply NoDup_Permutation; auto.
Qed.
End contents.

(** ** The encoding of a leaf is injective *)

(** Lengths that fit the 32-bit length fields, and a version that is an
    [int64]. *)
Definition kv_wf (x : kv) : Prop :=
  GoStr.len (kv_key x) < 2 ^ 32 ∧ GoStr.len (kv_value x) < 2 ^ 32 ∧ in_int64 (kv_ver x).

#[export] Instance kv_wf_dec x : Decision (kv_wf x).
Proof. unfold kv_wf. apply _. Defined.

Definition encode_all (es : list kv) : string := foldr (λ e s, encode_kv e +:+ s) "" es.

Lemma encode_leaf_all es : encode_leaf es = encode_all es.
Proof.
  unfold encode_leaf. assert (Hg : ∀ acc,
    fold_left (λ written e, written +:+ encode_kv e) es acc = acc +:+ encode_all es).
  { induction es as [|e es IH]; intros acc; simpl; [by rewrite string_app_nil_r|].
    by rewrite IH, string_app_assoc. }
  apply Hg.
Qed.

Lemma prefixed_inj (a b s s' : string) : GoStr.len a < 2 ^ 32 → GoStr.len b < 2 ^ 32 →
  PutUint32 (uint32 (GoStr.len a)) +:+ a +:+ s = PutUint32 (uint32 (GoStr.len b)) +:+ b +:+ s' →
  a = b ∧ s = s'.
Proof.
  intros Ha Hb He. unfold PutUint32 in He.
  apply string_app_inj in He as [Hp He]; [|by rewrite !put_be_length].
  assert (Hr : ∀ c, GoStr.len c < 2 ^ 32 → uint32 (GoStr.len c) = GoStr.len c).
  { intros c Hc. unfold uint32. apply Z.mod_small. unfold GoStr.len in *. lia. }
  rewrite !Hr in Hp by done. unfold GoStr.len in *.
  apply put_be_inj in Hp; [|cbn; lia..]. apply string_app_inj; [lia|done].
Qed.

Lemma encode_kv_inj x y s s' : kv_wf x → kv_wf y →
  encode_kv x +:+ s = encode_kv y +:+ s' → x = y ∧ s = s'.
Proof.
  destruct x as [k v n], y as [k' v' n']. intros (Hk & Hv & Hn) (Hk' & Hv' & Hn') He.
  unfold encode_kv in He. cbn [kv_key kv_value kv_ver] in *. rewrite !string_app_assoc in He.
  apply prefixed_inj in He as [<- He]; [|done..].
  apply prefixed_inj in He as [<- He]; [|done..].
  unfold PutUint64 in He. apply string_app_inj in He as [Hp <-]; [|by rewrite !put_be_length].
  apply put_be_inj in Hp;
    [|change (256 ^ Z.of_nat 8) with (2 ^ 64); unfold uint64; apply Z.mod_pos_bound; lia..].
  split; [|done]. f_equal. unfold uint64, in_int64, minInt64, maxInt64 in *.
  pose proof (Z.div_mod n (2 ^ 64)). pose proof (Z.div_mod n' (2 ^ 64)).
  pose proof (Z.mod_pos_bound n (2 ^ 64)). lia.
Qed.

Lemma encode_leaf_inj es es' : Forall kv_wf es → Forall kv_wf es' →
  encode_leaf es = encode_leaf es' → es = es'.
Proof.
  rewrite !encode_leaf_all. intros Hw. revert es'.
  assert (Hne : ∀ x s, encode_kv x +:+ s ≠ "").
  { intros x s He. apply (f_equal String.length) in He. unfold encode_kv, PutUint32 in He.
    rewrite !string_length_app, put_be_length in He. simpl in He. lia. }
  induction Hw as [|x es Hx Hes IH]; intros [|y es'] Hw' He; simpl in He.
  - done.
  - by apply eq_sym, Hne in He.
  - by apply Hne in He.
  - apply Forall_cons in Hw' as [Hy Hes']. apply encode_kv_inj in He as [-> He]; [|done..].
    f_equal. by apply IH.
Qed.

(** ** Comparing trees *)

Lemma bytesEqual_spec a b : bytesEqual a b = String.eqb a b.
Proof.
  unfold bytesEqual, GoStr.len. destruct (Z.eqb_spec (Z.of_nat (String.length a)) (Z.of_nat (String.length b)))
    as [Hl|Hl]; simpl.
  - apply Nat2Z.inj in Hl. revert b Hl. induction a as [|x a IH]; intros [|y b] Hl; simpl in *; try done.
    destruct (Ascii.eqb x y); simpl; [|done]. apply IH. lia.
  - symmetry. apply String.eqb_neq. by intros ->.
Qed.

Lemma elem_of_Diff t1 t2 i : numLeaves t1 = numLeaves t2 →
  i ∈ Diff t1 t2 ↔ 0 ≤ i < numLeaves t1 ∧
    default "" (hashes t1 !! Z.to_nat (numLeaves t1 - 1 + i)) ≠
    default "" (hashes t2 !! Z.to_nat (numLeaves t1 - 1 + i)).
Proof.
  intros He. unfold Diff. rewrite He, Z.eqb_refl. simpl.
  set (p i := negb (bytesEqual (default "" (hashes t1 !! Z.to_nat (numLeaves t2 - 1 + i)))
                               (default "" (hashes t2 !! Z.to_nat (numLeaves t2 - 1 + i))))).
  rewrite <-(fold_left_filter p (λ diffs i, diffs ++ [i])), (fold_left_snoc id), list_fmap_id. simpl.
  rewrite elem_of_list_filter_bool, elem_of_seqZ. unfold p.
  rewrite bytesEqual_spec, negb_true_iff, String.eqb_neq. rewrite Z.add_0_l. done.
Qed.

Section compare.
Context `{!BTreeOps item, !BTreeLaws less}.
Implicit Types (st : Store) (t : Tree).

(** Every hash of a tree is a SHA-256 digest. *)
Lemma tree_hash_digest st p t i : tree_of st p t → (Z.of_nat i < 2 * numLeaves t - 1) →
  ∃ h, hashes t !! i = Some h ∧ String.length h = 32%nat.
Proof.
  intros Ht Hi. destruct (decide (Z.of_nat i < numLeaves t - 1)) as [Hin|Hleaf].
  - destruct (tree_node_hash _ _ _ Ht i Hin) as (l & r & _ & _ & ->).
    eexists. split; [done|]. apply Sum256_length.
  - pose proof (tree_leaf_hash _ _ _ Ht (Z.of_nat i - (numLeaves t - 1)) ltac:(lia)) as Hh.
    replace (Z.to_nat (numLeaves t - 1 + (Z.of_nat i - (numLeaves t - 1)))) with i in Hh by lia.
    rewrite Hh. eexists. split; [done|]. apply Sum256_length.
Qed.

Lemma tree_leaf_hash_at st p t nl i : tree_of st p t → numLeaves t = nl → 0 ≤ i < nl →
  hashes t !! Z.to_nat (nl - 1 + i) = Some (leafHash (leaf_bucket st p i)).
Proof. intros Ht <-. apply Ht. Qed.

(** The inputs of the hash function in the leaves, *)
Definition leaf_inputs st p nl : list string := (λ i, encode_leaf (leaf_bucket st p i)) <$> seqZ 0 nl.

(** and in the internal nodes. *)
Definition node_inputs t : list string :=
  (λ i, default "" (hashes t !! (2 * i + 1)%nat) +:+ default "" (hashes t !! (2 * i + 2)%nat))
    <$> seq 0 (Z.to_nat (numLeaves t - 1)).

Lemma elem_of_leaf_inputs st p nl i : 0 ≤ i < nl → encode_leaf (leaf_bucket st p i) ∈ leaf_inputs st p nl.
Proof.
  intros Hi. apply list_elem_of_fmap. exists i. split; [done|]. apply elem_of_seqZ. lia.
Qed.

Definition keys_wf st : Prop := Forall kv_wf (live_kvs st).

Lemma leaf_bucket_wf st p i : keys_wf st → Forall kv_wf (leaf_bucket st p i).
Proof.
  unfold keys_wf. rewrite leaf_bucket_filter, !Forall_forall.
  intros Hw x [Hx _]%elem_of_list_filter_bool. by apply Hw.
Qed.

(** Equal leaf hashes mean equal buckets. *)
Lemma leaf_hash_eq st1 st2 p nl i : 0 ≤ i < nl → keys_wf st1 → keys_wf st2 →
  collision_free (leaf_inputs st1 p nl ++ leaf_inputs st2 p nl) →
  leafHash (leaf_bucket st1 p i) = leafHash (leaf_bucket st2 p i) ↔
  leaf_bucket st1 p i = leaf_bucket st2 p i.
Proof.
  intros Hi Hw1 Hw2 Hcf. split; [|by intros ->]. intros He.
  apply encode_leaf_inj; [by apply leaf_bucket_wf..|].
  apply Hcf; [apply elem_of_app; left|apply elem_of_app; right|done]; by apply elem_of_leaf_inputs.
Qed.

(** Equal roots mean equal hashes everywhere. *)
Lemma root_hashes_eq st1 st2 p t1 t2 : tree_of st1 p t1 → tree_of st2 p t2 →
  numLeaves t1 = numLeaves t2 → RootHash t1 = RootHash t2 →
  collision_free (node_inputs t1 ++ node_inputs t2) →
  ∀ i, Z.of_nat i < 2 * numLeaves t1 - 1 → hashes t1 !! i = hashes t2 !! i.
Proof.
  intros H1 H2 Hn Hroot Hcf i. induction (lt_wf i) as [i _ IH]. intros Hi.
  destruct (decide (i = 0)%nat) as [->|Hi0]; [done|].
  pose (j := ((i - 1) / 2)%nat).
  assert (Hj : i = (2 * j + 1)%nat ∨ i = (2 * j + 2)%nat).
  { pose proof (Nat.div_mod_eq (i - 1) 2). pose proof (Nat.mod_upper_bound (i - 1) 2). lia. }
  assert (Hjn : Z.of_nat j < numLeaves t1 - 1) by lia.
  specialize (IH j ltac:(lia) ltac:(lia)).
  destruct (tree_node_hash _ _ _ H1 j Hjn) as (l1 & r1 & Hl1 & Hr1 & Hp1).
  destruct (tree_node_hash _ _ _ H2 j ltac:(lia)) as (l2 & r2 & Hl2 & Hr2 & Hp2).
  rewrite Hp1, Hp2 in IH. apply (inj Some) in IH. unfold hash_pair in IH.
  assert (Hin : ∀ t l r, Z.of_nat j < numLeaves t - 1 → hashes t !! (2 * j + 1)%nat = Some l →
    hashes t !! (2 * j + 2)%nat = Some r → l +:+ r ∈ node_inputs t).
  { intros t l r Hjt Hl Hr. apply list_elem_of_fmap. exists j. rewrite Hl, Hr. split; [done|].
    apply elem_of_seq. lia. }
  apply Hcf in IH; [|apply elem_of_app; left; by apply Hin
                    |apply elem_of_app; right; apply Hin; [lia|done..]].
  apply string_app_inj in IH as [-> ->].
  - destruct Hj as [Ei|Ei]; rewrite Ei; [by rewrite Hl1, Hl2|by rewrite Hr1, Hr2].
  - destruct (tree_hash_digest _ _ _ (2 * j + 1) H1 ltac:(lia)) as (h1 & E1 & ?).
    destruct (tree_hash_digest _ _ _ (2 * j + 1) H2 ltac:(lia)) as (h2 & E2 & ?). congruence.
Qed.

(** A tree is determined by its leaves. *)
Lemma leaves_hashes_eq st1 st2 p t1 t2 : tree_of st1 p t1 → tree_of st2 p t2 →
  numLeaves t1 = numLeaves t2 →
  (∀ i, 0 ≤ i < numLeaves t1 → leaf_bucket st1 p i = leaf_bucket st2 p i) →
  ∀ i, Z.of_nat i < 2 * numLeaves t1 - 1 → hashes t1 !! i = hashes t2 !! i.
Proof.
  intros H1 H2 Hn Hb i. remember (Z.to_nat (2 * numLeaves t1 - 1) - i)%nat as d eqn:Hd.
  revert i Hd. induction (lt_wf d) as [d _ IH]. intros i Hd Hi.
  destruct (decide (Z.of_nat i < numLeaves t1 - 1)) as [Hin|Hleaf].
  - destruct (tree_node_hash _ _ _ H1 i Hin) as (l1 & r1 & Hl1 & Hr1 & ->).
    destruct (tree_node_hash _ _ _ H2 i ltac:(lia)) as (l2 & r2 & Hl2 & Hr2 & ->).
    assert (El : hashes t1 !! (2 * i + 1)%nat = hashes t2 !! (2 * i + 1)%nat) by (eapply IH; [|done|]; lia).
    assert (Er : hashes t1 !! (2 * i + 2)%nat = hashes t2 !! (2 * i + 2)%nat) by (eapply IH; [|done|]; lia).
    congruence.
  - set (q := Z.of_nat i - (numLeaves t1 - 1)).
    pose proof (tree_leaf_hash _ _ _ H1 q ltac:(lia)) as E1.
    pose proof (tree_leaf_hash _ _ _ H2 q ltac:(lia)) as E2.
    rewrite <-Hn in E2. rewrite Hb in E1 by lia.
    replace (Z.to_nat (numLeaves t1 - 1 + q)) with i in E1, E2 by lia. congruence.
Qed.

(** *** LeafEntries *)

Lemma LeafEntries_pow2 st nl p i : leaves_pow2 nl p → 0 ≤ i < nl →
  LeafEntries st nl i = Some (item_Entry <$> leaf_items st p i).
Proof.
  intros Hnl Hi. unfold LeafEntries. rewrite (LeafBounds_pow2 _ p) by done. cbn [mbind option_bind].
  f_equal. rewrite (Iterate_fold _ _
    (λ k e out, if bool_decide (leaf_of p k = i) then out ++ [e] else out)).
  2: { intros k e out. by rewrite (inLeafRange_pow2 nl p) by (done || apply fnv64a_range). }
  rewrite <-(fold_left_filter (λ it, bool_decide (leaf_of p (key it) = i))
    (λ out it, out ++ [item_Entry it])), fold_left_snoc. done.
Qed.

(** *** The root's key count *)

Lemma root_count st p t : btree_ok (tree st) → tree_of st p t →
  keyCounts t !! 0%nat = Some (live (Snapshot st)).
Proof.
  intros Hok Ht. pose proof (leaves_pow2_pos _ _ (tree_leaves _ _ _ Ht)) as [Hr _].
  set (g i := default 0 (keyCounts t !! i)). set (m := Z.to_nat (numLeaves t - 1)).
  assert (Hg : g 0%nat = sumZ (g <$> seq m (S m))).
  { apply heap_sum_root. intros i Hi. unfold g.
    destruct (tree_node_count _ _ _ Ht i ltac:(lia)) as (l & r & -> & -> & ->). done. }
  destruct (lookup_lt_is_Some_2 (keyCounts t) 0) as [c Hc];
    [pose proof (tree_counts_len _ _ _ Ht); lia|].
  rewrite Hc. f_equal. unfold g in Hg at 1. rewrite Hc in Hg. cbn [default from_option id] in Hg. rewrite Hg.
  rewrite <-length_live_items by done.
  rewrite <-(sumZ_partition (λ it, leaf_of p (key it)) _ (numLeaves t)).
  2: { intros it _. apply hash_div_range; [apply Ht|apply fnv64a_range]. }
  f_equal. apply list_eq. intros i. rewrite !list_lookup_fmap.
  destruct (decide (i < S m)%nat) as [Hi|Hi].
  - rewrite lookup_seq_lt, lookup_seqZ_lt by lia. simpl. f_equal. unfold g.
    pose proof (tree_leaf_count _ _ _ Ht (Z.of_nat i) ltac:(lia)) as E.
    replace (Z.to_nat (numLeaves t - 1 + Z.of_nat i)) with (m + i)%nat in E by lia.
    rewrite E. simpl. unfold leaf_bucket. rewrite length_fmap. done.
  - by rewrite lookup_seq_ge, lookup_seqZ_ge by lia.
Qed.
End compare.

(** ** Properties *)

Section properties.
Context `{!BTreeOps item, !BTreeLaws less, !SliceSort, !SliceSortLaws}.
Implicit Types st : Store.

(** [roundUpPowerOfTwo] returns the least power of two that is not below
    its argument for every request from 1 to 2^32; past that the bit smearing
    stops too early, and a request of 2^32+1 gives 2^33-1, which is odd. *)
Theorem roundUpPowerOfTwo_spec :
  (∀ n, 1 ≤ n ≤ 2 ^ 32 → ∃ q, 0 ≤ q ≤ 32 ∧ roundUpPowerOfTwo n = 2 ^ q ∧
     n ≤ 2 ^ q ∧ ∀ q', 0 ≤ q' → n ≤ 2 ^ q' → q ≤ q') ∧
  (∀ n, n ≤ 0 → roundUpPowerOfTwo n = 0 ∧ leaf_count n = defaultNumLeaves) ∧
  roundUpPowerOfTwo (2 ^ 32 + 1) = 2 ^ 33 - 1.
Proof.
  split; [|split; [|by vm_compute]].
  - intros n Hn. destruct (decide (n = 1)) as [->|Hn1].
    { exists 0. split; [lia|]. split; [by vm_compute|]. split; [done|lia]. }
    rewrite roundUp_pow2 by lia. pose proof (Z.log2_nonneg (n - 1)).
    assert (Z.log2 (n - 1) < 32) by (apply Z.log2_lt_pow2; lia).
    pose proof (Z.log2_spec (n - 1) ltac:(lia)) as [Hl Hu]. rewrite <-Z.add_1_r in Hu.
    exists (Z.log2 (n - 1) + 1). split; [lia|]. split; [done|]. split; [lia|].
    intros q' Hq' Hle.
    assert (Z.log2 (n - 1) < q'); [|lia]. apply (Z.pow_lt_mono_r_iff 2); lia.
  - intros n Hn. unfold leaf_count. assert (roundUpPowerOfTwo n = 0) as ->; [|done].
    unfold roundUpPowerOfTwo. by destruct (Z.leb_spec n 0); [|lia].
Qed.

(** For a request of 2 to 2^32 leaves [Build] returns a tree and does not
    panic: a complete binary tree of 2n-1 nodes over a power of two of leaves,
    in which every internal node hashes its children and adds their key
    counts, leaf [i] hashes and counts exactly the entries [LeafEntries]
    returns for it, and the root's count is the store's [Len]. *)
Theorem Build_structure st n : store_inv st → 2 ≤ n ≤ 2 ^ 32 →
  ∃ t, Build st n = Some t ∧ n ≤ NumLeaves t < 2 * n ∧
    (∀ i, 0 ≤ i < NumLeaves t → ∃ es bs, LeafEntries st (NumLeaves t) i = Some es ∧
       LeafHash t i = Some (leafHash bs) ∧ LeafKeyCount t i = Some (Z.of_nat (length es)) ∧
       (λ b, (kv_value b, kv_ver b)) <$> bs = (λ e, (Value e, Version e)) <$> es ∧
       ∀ b, b ∈ bs ↔ bucket_index (NumLeaves t) (kv_key b) = Some (Z.to_nat i) ∧
                      Get st (kv_key b) = (kv_value b, kv_ver b, true)) ∧
    (∀ i, Z.of_nat i < NumLeaves t - 1 → ∃ l r,
       hashes t !! (2 * i + 1)%nat = Some l ∧ hashes t !! (2 * i + 2)%nat = Some r ∧
       hashes t !! i = Some (Sum256 (l +:+ r))) ∧
    (∀ i, Z.of_nat i < NumLeaves t - 1 → ∃ l r,
       keyCounts t !! (2 * i + 1)%nat = Some l ∧ keyCounts t !! (2 * i + 2)%nat = Some r ∧
       keyCounts t !! i = Some (l + r)) ∧
    keyCounts t !! 0%nat = Some (Len st).
Proof.
  intros Hst Hn. destruct (leaf_count_pow2 n Hn) as [Hnl Hb].
  set (p := Z.log2 (n - 1) + 1) in *. pose proof (inv_tree _ Hst) as Hok.
  destruct (Build_is_tree st n p Hok Hnl) as (t & HB & Ht & Hm).
  exists t. unfold NumLeaves. rewrite Hm. split; [done|]. split; [done|].
  rewrite <-Hm in *. split; [|split; [|split]].
  - intros i Hi. exists (item_Entry <$> leaf_items st p i), (leaf_bucket st p i).
    split; [by apply LeafEntries_pow2|]. unfold LeafHash, LeafKeyCount.
    destruct (Z.ltb_spec (numLeaves t - 1 + i) 0); [lia|].
    rewrite (tree_leaf_hash _ _ _ Ht), (tree_leaf_count _ _ _ Ht) by done.
    split; [done|]. split; [unfold leaf_bucket; by rewrite !length_fmap|]. split.
    { unfold leaf_bucket. by rewrite <-!list_fmap_compose. }
    intros [k v m]. rewrite elem_of_leaf_bucket by done. cbn [kv_key kv_value kv_ver].
    rewrite (bucket_index_pow2 _ p), Get_lookup by done. unfold contents. rewrite lookup_omap.
    pose proof (hash_div_range _ p (hashKey k) Hnl (fnv64a_range k)) as Hh. unfold leaf_of.
    assert (Hq : Some (Z.to_nat (hashKey k / 2 ^ (64 - p))) = Some (Z.to_nat i) ↔
      hashKey k / 2 ^ (64 - p) = i) by (split; [intros [= ?]; lia|by intros ->]).
    rewrite Hq. destruct (Snapshot st !! k) as [e|]; simpl; [unfold visible; destruct (Deleted e)|];
      naive_solver.
  - intros i Hi. by apply (tree_node_hash _ _ _ Ht).
  - intros i Hi. by apply (tree_node_count _ _ _ Ht).
  - rewrite (root_count st p t) by done. f_equal. by rewrite <-(inv_length _ Hst).
Qed.

(** A request of one leaf panics as soon as the store has a live key: the
    step [maxUint64/1 + 1] wraps to zero and the bucket index divides by it. *)
Theorem Build_one_leaf_panics st : store_inv st → Build st 1 = None ↔ Len st ≠ 0.
Proof.
  intros Hst. unfold Len. rewrite (inv_length _ Hst), <-length_live_items by apply Hst.
  unfold Build. change (leaf_count 1) with 1.
  assert (raw_buckets st 1 = match live_items st with [] => Some [[]] | _ => None end) as ->.
  { unfold raw_buckets, Iterate, live_items.
    induction (Ascend (tree st)) as [|it l IH]; [done|]. cbn [visit List.filter].
    unfold item_live at 1. destruct (Deleted (item_Entry it)) eqn:Hd; [exact IH|].
    by unfold add_to_bucket. }
  destruct (live_items st) as [|it l]; cbn [mbind option_bind length]; [|split; [lia|done]].
  cbv zeta. split; [|done]. by case_match.
Qed.

(** C19: [Diff] is exact: under the assumption that SHA-256 does not collide on
    the leaf encodings of the two stores, a leaf is reported exactly when it is
    the leaf of some key whose visible value or version differs between the
    stores.  Keys and values are shorter than 2^32 bytes, the limit of the
    length prefixes. *)
Theorem Diff_exact st1 st2 n t1 t2 : store_inv st1 → store_inv st2 → 2 ≤ n ≤ 2 ^ 32 →
  Build st1 n = Some t1 → Build st2 n = Some t2 → keys_wf st1 → keys_wf st2 →
  collision_free (leaf_inputs st1 (Z.log2 (n - 1) + 1) (leaf_count n) ++
                  leaf_inputs st2 (Z.log2 (n - 1) + 1) (leaf_count n)) →
  ∀ i, i ∈ Diff t1 t2 ↔
    ∃ k, bucket_index (leaf_count n) k = Some (Z.to_nat i) ∧ 0 ≤ i ∧
         contents st1 !! k ≠ contents st2 !! k.
Proof.
  intros H1 H2 Hn HB1 HB2 Hw1 Hw2 Hcf i. destruct (leaf_count_pow2 n Hn) as [Hnl _].
  set (p := Z.log2 (n - 1) + 1) in *.
  destruct (Build_is_tree st1 n p (inv_tree _ H1) Hnl) as (t1' & E1 & Ht1 & Hm1).
  destruct (Build_is_tree st2 n p (inv_tree _ H2) Hnl) as (t2' & E2 & Ht2 & Hm2).
  rewrite HB1 in E1. rewrite HB2 in E2. injection E1 as <-. injection E2 as <-.
  rewrite elem_of_Diff, Hm1 by congruence. split.
  - intros [Hi Hd]. rewrite (tree_leaf_hash_at _ _ _ _ _ Ht1 Hm1), (tree_leaf_hash_at _ _ _ _ _ Ht2 Hm2) in Hd by lia. cbn [default] in Hd.
    destruct (decide (Exists (λ x, contents st1 !! kv_key x ≠ contents st2 !! kv_key x)
      (leaf_bucket st1 p i ++ leaf_bucket st2 p i))) as [(x & Hx & Hne)%Exists_exists|Hno].
    + exists (kv_key x). split; [|split; [lia|done]]. rewrite (bucket_index_pow2 _ p) by done. f_equal. f_equal.
      destruct x as [k v m]. rewrite elem_of_app, !elem_of_leaf_bucket in Hx by apply H1 || apply H2.
      unfold leaf_of in Hx. naive_solver.
    + exfalso. apply Hd. cbn. apply (leaf_hash_eq st1 st2 p (leaf_count n)); [done..|].
      apply leaf_bucket_eq; [apply H1|apply H2|]. intros k Hk.
      rewrite <-Forall_Exists_neg, Forall_forall in Hno. apply option_eq. intros [v m].
      pose proof (elem_of_leaf_bucket st1 p i k v m (inv_tree _ H1)) as L1.
      pose proof (elem_of_leaf_bucket st2 p i k v m (inv_tree _ H2)) as L2.
      assert (Hag : ∀ x, x ∈ leaf_bucket st1 p i ++ leaf_bucket st2 p i →
        contents st1 !! kv_key x = contents st2 !! kv_key x).
      { intros x Hx. apply dec_stable. by apply Hno. }
      split; intros Hc.
      * etransitivity; [symmetry; apply (Hag (mkKv k v m))|done]. apply elem_of_app. left. by apply L1.
      * etransitivity; [apply (Hag (mkKv k v m))|done]. apply elem_of_app. right. by apply L2.
  - intros (k & Hk & Hi & Hne). rewrite (bucket_index_pow2 _ p) in Hk by done. injection Hk as Hk.
    pose proof (hash_div_range _ p (hashKey k) Hnl (fnv64a_range k)) as Hh.
    assert (Hlk : leaf_of p k = i) by (unfold leaf_of; lia).
    assert (Hir : 0 ≤ i < leaf_count n) by (unfold leaf_of in Hlk; lia). split; [done|].
    rewrite (tree_leaf_hash_at _ _ _ _ _ Ht1 Hm1), (tree_leaf_hash_at _ _ _ _ _ Ht2 Hm2) by lia. cbn. intros He.
    apply (leaf_hash_eq st1 st2 p (leaf_count n)) in He; [|done..].
    rewrite leaf_bucket_eq in He by apply H1 || apply H2. by apply Hne, He.
Qed.

(** The root hash decides equality: under the assumption that SHA-256 does
    not collide on the inputs the two builds hash, two stores have the same
    root exactly when they show the same live keys, values and versions.
    Origins and tombstones are not part of what is compared. *)
Theorem RootHash_exact st1 st2 n t1 t2 : store_inv st1 → store_inv st2 → 2 ≤ n ≤ 2 ^ 32 →
  Build st1 n = Some t1 → Build st2 n = Some t2 → keys_wf st1 → keys_wf st2 →
  collision_free (leaf_inputs st1 (Z.log2 (n - 1) + 1) (leaf_count n) ++
                  leaf_inputs st2 (Z.log2 (n - 1) + 1) (leaf_count n)) →
  collision_free (node_inputs t1 ++ node_inputs t2) →
  RootHash t1 = RootHash t2 ↔ contents st1 = contents st2.
Proof.
  intros H1 H2 Hn HB1 HB2 Hw1 Hw2 Hcl Hcn. destruct (leaf_count_pow2 n Hn) as [Hnl _].
  set (p := Z.log2 (n - 1) + 1) in *.
  destruct (Build_is_tree st1 n p (inv_tree _ H1) Hnl) as (t1' & E1 & Ht1 & Hm1).
  destruct (Build_is_tree st2 n p (inv_tree _ H2) Hnl) as (t2' & E2 & Ht2 & Hm2).
  rewrite HB1 in E1. rewrite HB2 in E2. injection E1 as <-. injection E2 as <-.
  pose proof (leaves_pow2_pos _ _ Hnl) as [Hr _]. split.
  - intros Hroot. apply map_eq. intros k.
    pose proof (hash_div_range _ p (hashKey k) Hnl (fnv64a_range k)) as Hh. fold (leaf_of p k) in Hh.
    pose proof (root_hashes_eq st1 st2 p t1 t2 Ht1 Ht2 ltac:(congruence) Hroot Hcn
      (Z.to_nat (leaf_count n - 1 + leaf_of p k)) ltac:(lia)) as He.
    rewrite (tree_leaf_hash_at _ _ _ _ _ Ht1 Hm1), (tree_leaf_hash_at _ _ _ _ _ Ht2 Hm2) in He by lia.
    apply (inj Some), (leaf_hash_eq st1 st2 p (leaf_count n)) in He; [|done..].
    rewrite leaf_bucket_eq in He by apply H1 || apply H2. by apply He.
  - intros Hc. unfold RootHash.
    apply (leaves_hashes_eq st1 st2 p t1 t2 Ht1 Ht2); [congruence| |lia].
    intros i Hi. apply leaf_bucket_eq; [apply H1|apply H2|]. intros k _. by rewrite Hc.
Qed.
End properties.

(** ** Concrete instances *)

Module MerkleExamples.
#[local] Existing Instances SortedList.ops SortedList_laws MergeSort MergeSort_laws.

Definition sa : Store := run Store.New [OpSetFrom "a" "1" "n1"; OpSetFrom "b" "2" "n1"].
Definition sb : Store :=
  run Store.New [OpSetFrom "a" "1" "n2"; OpSetFrom "b" "3" "n2"; OpSetFrom "c" "4" "n2"; OpDel "n2" ["c"]].

Lemma sa_inv : store_inv sa.
Proof. apply run_inv; [apply store_inv_New|vm_compute; reflexivity]. Qed.

Lemma sb_inv : store_inv sb.
Proof. apply run_inv; [apply store_inv_New|vm_compute; reflexivity]. Qed.

Definition ta : Tree := default (mkTree 0 [] []) (Build sa 4).
Definition tb : Tree := default (mkTree 0 [] []) (Build sb 4).

Lemma ta_build : Build sa 4 = Some ta.
Proof. vm_compute. reflexivity. Qed.
Lemma tb_build : Build sb 4 = Some tb.
Proof. vm_compute. reflexivity. Qed.

Lemma sa_wf : keys_wf sa.
Proof. unfold keys_wf. apply (bool_decide_unpack _). vm_compute. exact I. Qed.
Lemma sb_wf : keys_wf sb.
Proof. unfold keys_wf. apply (bool_decide_unpack _). vm_compute. exact I. Qed.

Lemma leaves_cf : collision_free (leaf_inputs sa (Z.log2 (4 - 1) + 1) (leaf_count 4) ++
                                  leaf_inputs sb (Z.log2 (4 - 1) + 1) (leaf_count 4)).
Proof. apply collision_free_b_sound. vm_compute. reflexivity. Qed.

Lemma nodes_cf : collision_free (node_inputs ta ++ node_inputs tb).
Proof. apply collision_free_b_sound. vm_compute. reflexivity. Qed.

Lemma Build_structure_witness : ∃ t, Build sa 4 = Some t ∧ 4 ≤ NumLeaves t < 8.
Proof.
  destruct (Build_structure sa 4 sa_inv ltac:(lia)) as (t & HB & Hn & _). exact (ex_intro _ t (conj HB Hn)).
Defined.

Lemma Build_one_leaf_panics_witness : Build sa 1 = None.
Proof. apply (Build_one_leaf_panics sa sa_inv). vm_compute. discriminate. Defined.

(** The stores differ on ["b"], which lies in leaf 2 of 4. *)
Lemma Diff_exact_witness : 2 ∈ Diff ta tb.
Proof.
  refine (proj2 (Diff_exact sa sb 4 ta tb sa_inv sb_inv ltac:(lia) ta_build tb_build sa_wf sb_wf
    leaves_cf 2) _).
  exists "b". split; [vm_compute; reflexivity|]. split; [lia|]. vm_compute. discriminate.
Defined.

Lemma RootHash_exact_witness : RootHash ta ≠ RootHash tb.
Proof.
  intros He. apply (RootHash_exact sa sb 4 ta tb sa_inv sb_inv ltac:(lia) ta_build tb_build
    sa_wf sb_wf leaves_cf nodes_cf) in He.
  apply (f_equal (λ m : gmap string (string * Z), m !! "b")) in He. vm_compute in He. discriminate He.
Defined.
End MerkleExamples.
