(* ===== verification/Resp.v ===== *)
(** * pkg/api: the RESP wire protocol

    The values and their encoding ([types.go]), the buffered reader and the
    recursive-descent parser ([reader.go]), and the buffered writer
    ([writer.go]).

    A stream is the string of the bytes still to be read followed by the
    error its end gives ([io.EOF], or a network error).  Every reader function
    maps the remaining bytes to an error or to a value and the bytes left; the
    only caller gives a connection up on the first error, so the bytes left
    after an error are not kept. *)

From S2P Require Import Prelude GoStrconv.
Local Open Scope Z_scope.

Definition CR : ascii := "013".
Definition LF : ascii := "010".
Definition CRLF : string := String CR (String LF "").

(** ** Values *)

(** [Nil] is the nil interface, which [ReadValue] returns for a null array; a
    nil [Data] is [None]. *)
Inductive Value :=
  | SimpleString (s : string)
  | Error (s : string)
  | Integer (i : Z)
  | BulkString (data : option string)
  | Array (vs : list Value)
  | Nil.

Definition NewBulkString (s : string) : Value := BulkString (Some s).
Definition NullBulkString : Value := BulkString None.
Definition OK : Value := SimpleString "OK".
Definition PONG : Value := SimpleString "PONG".

(** The encoders; the method call on a nil interface panics ([None]). *)
Fixpoint Resp (v : Value) : option string :=
  match v with
  | SimpleString s => Some ("+" +:+ s +:+ CRLF)
  | Error s => Some ("-" +:+ s +:+ CRLF)
  | Integer i => Some (":" +:+ Itoa i +:+ CRLF)
  | BulkString None => Some ("$-1" +:+ CRLF)
  | BulkString (Some d) => Some ("$" +:+ Itoa (GoStr.len d) +:+ CRLF +:+ d +:+ CRLF)
  | Array vs =>
      (fix go (b : string) (vs : list Value) : option string :=
         match vs with
         | [] => Some b
         | v :: vs' => match Resp v with Some e => go (b +:+ e) vs' | None => None end
         end) ("*" +:+ Itoa (Z.of_nat (length vs)) +:+ CRLF) vs
  | Nil => None
  end.

(** ** bufio.Reader *)

Inductive IoError := EOF | ErrUnexpectedEOF | NetError (what : string).

(** The buffer size of [bufio.NewReader]. *)
Definition bufSize : Z := 4096.

Inductive SliceError := ErrBufferFull | SliceIo (e : IoError).

(** [ReadSlice('\n')]: the bytes up to the delimiter, or a full buffer, or
    what is left with the stream's error.  [room] is the free space of the
    buffer, which starts empty as the unread bytes are moved to its front. *)
Fixpoint ReadSlice_ (end_ : IoError) (room : Z) (s : string)
    : string * option SliceError * string :=
  if room <=? 0 then ("", Some ErrBufferFull, s)
  else match s with
       | EmptyString => ("", Some (SliceIo end_), "")
       | String c s' =>
           if Ascii.eqb c LF then (String c "", None, s')
           else let '(part, err, rest) := ReadSlice_ end_ (room - 1) s' in
                (String c part, err, rest)
       end.

Definition ReadSlice (end_ : IoError) (s : string) := ReadSlice_ end_ bufSize s.

(** Exactly [n] bytes, or nothing. *)
Fixpoint take_bytes (n : Z) (s : string) : option (string * string) :=
  if n <=? 0 then Some ("", s)
  else match s with
       | EmptyString => None
       | String c s' => '(b, rest) ← take_bytes (n - 1) s'; Some (String c b, rest)
       end.

(** [io.ReadFull] of [n] bytes: a stream that ends before the first byte gives
    its own error, later [ErrUnexpectedEOF] takes the place of [EOF]. *)
Definition ReadFull (end_ : IoError) (n : Z) (s : string) : IoError + string * string :=
  match take_bytes n s with
  | Some r => inr r
  | None => inl (match end_, s with
                 | EOF, String _ _ => ErrUnexpectedEOF
                 | _, _ => end_
                 end)
  end.

(** ** strings.Fields *)

(** The number of bytes of the white-space rune (as [unicode.IsSpace] has it)
    at the head of a string, 0 if there is none.  Lead bytes occur in UTF-8
    only at the start of a rune, so a scan by bytes finds the same runes as a
    scan by runes. *)
Definition space_width (s : string) : nat :=
  match s with
  | String a s1 =>
      let a := byte_val a in
      if ((9 <=? a) && (a <=? 13)) || (a =? 32) then 1
      else match s1 with
           | String b s2 =>
               let b := byte_val b in
               if (a =? 0xC2) && ((b =? 0x85) || (b =? 0xA0)) then 2
               else match s2 with
                    | String c _ =>
                        let c := byte_val c in
                        if (a =? 0xE1) && (b =? 0x9A) && (c =? 0x80) then 3
                        else if (a =? 0xE2) && (b =? 0x80) &&
                                (((0x80 <=? c) && (c <=? 0x8A)) || (c =? 0xA8) || (c =? 0xA9) || (c =? 0xAF)) then 3
                        else if (a =? 0xE2) && (b =? 0x81) && (c =? 0x9F) then 3
                        else if (a =? 0xE3) && (b =? 0x80) && (c =? 0x80) then 3
                        else 0
                    | EmptyString => 0
                    end
           | EmptyString => 0
           end
  | EmptyString => 0
  end.

Definition flush_field (field : string) (fields : list string) : list string :=
  match field with EmptyString => fields | _ => field :: fields end.

(** [skip] counts the bytes of a white-space rune still to be passed over. *)
Fixpoint fields_loop (s : string) (skip : nat) (field : string) : list string :=
  match s with
  | EmptyString => flush_field field []
  | String c s' =>
      match skip with
      | S skip' => fields_loop s' skip' field
      | O => match space_width s with
             | O => fields_loop s' 0 (field +:+ String c "")
             | S w => flush_field field (fields_loop s' w "")
             end
      end
  end.

Definition Fields (s : string) : list string := fields_loop s 0 "".

Example Fields_example :
  Fields ("  SET" +:+ String "009" "k " +:+ String "194" (String "160" "v ")) = ["SET"; "k"; "v"].
Proof. vm_compute. reflexivity. Qed.

(** ** The reader *)

Definition maxBulkStringLength : Z := Z.shiftl 64 20.
Definition maxArrayLength : Z := Z.shiftl 1 20.
Definition maxLineLength : Z := Z.shiftl 64 10.
Definition maxArrayDepth : nat := 32.

Inductive RespError :=
  | ErrNesting
  | ErrLine
  | ErrIo (e : IoError)
  | ErrMissingCRLF
  | ErrInteger (s : string) (e : NumError)
  | ErrBulkLength (s : string) (e : NumError)
  | ErrNegativeBulk (n : Z)
  | ErrBulkTooLong (n : Z)
  | ErrShortRead (e : IoError)
  | ErrMissingCR (e : IoError)
  | ErrExpectedCR (c : ascii)
  | ErrMissingLF (e : IoError)
  | ErrExpectedLF (c : ascii)
  | ErrArrayLength (s : string) (e : NumError)
  | ErrNegativeArray (n : Z)
  | ErrArrayTooLong (n : Z)
  | ErrElement (i : Z) (e : RespError).

(** The monad of the reader functions. *)
Definition reader (A : Type) : Type := string → RespError + A * string.

#[export] Instance reader_ret : MRet reader := λ A a s, inr (a, s).
#[export] Instance reader_bind : MBind reader := λ A B f m s,
  match m s with inl e => inl e | inr (a, s') => f a s' end.
Definition fail {A} (e : RespError) : reader A := λ _, inl e.

(** The last two bytes of a line are dropped when they are CR LF. *)
Definition strip_crlf (line : string) : RespError + string :=
  let n := String.length line in
  if (Z.of_nat n <? 2) || negb (bool_decide (String.get (n - 2) line = Some CR))
  then inl ErrMissingCRLF
  else inr (String.substring 0 (n - 2) line).

Section reader.
Context (end_ : IoError).

(** The loop over the buffer's slices; [None] when the fuel is used up. *)
Fixpoint readLine_loop (fuel : nat) (line : string) (s : string) : option (RespError + string * string) :=
  match fuel with
  | O => None
  | S fuel' =>
      let '(part, err, rest) := ReadSlice end_ s in
      if maxLineLength <? GoStr.len line + GoStr.len part then Some (inl ErrLine)
      else
        let line := line +:+ part in
        match err with
        | None => Some (match strip_crlf line with inl e => inl e | inr l => inr (l, rest) end)
        | Some ErrBufferFull => readLine_loop fuel' line rest
        | Some (SliceIo e) => Some (inl (ErrIo e))
        end
  end.

(** Sixteen full buffers reach the line limit, the seventeenth slice ends the
    loop. *)
Definition readLine_fuel : nat := 17.

Definition readLine : reader string := λ s,
  match readLine_loop readLine_fuel "" s with Some r => r | None => inl ErrLine end.

Definition readSimpleString : reader Value := s ← readLine; mret (SimpleString s).
Definition readError : reader Value := s ← readLine; mret (Error s).

Definition readInteger : reader Value :=
  s ← readLine;
  match Atoi s with
  | (_, Some e) => fail (ErrInteger s e)
  | (n, None) => mret (Integer n)
  end.

Definition read_full (n : Z) (wrap : IoError → RespError) : reader string := λ s,
  match ReadFull end_ n s with inl e => inl (wrap e) | inr r => inr r end.

(** One byte that must be [c]. *)
Definition expect (c : ascii) (missing : IoError → RespError) (wrong : ascii → RespError) : reader unit :=
  b ← read_full 1 missing;
  match b with
  | String x _ => if negb (Ascii.eqb x c) then fail (wrong x) else mret tt
  | EmptyString => mret tt
  end.

Definition readBulkString : reader Value :=
  s ← readLine;
  if String.eqb s "-1" then mret NullBulkString
  else match Atoi s with
  | (_, Some e) => fail (ErrBulkLength s e)
  | (n, None) =>
      if n <? 0 then fail (ErrNegativeBulk n)
      else if maxBulkStringLength <? n then fail (ErrBulkTooLong n)
      else
        buf ← read_full n ErrShortRead;
        _ ← expect CR ErrMissingCR ErrExpectedCR;
        _ ← expect LF ErrMissingLF ErrExpectedLF;
        mret (BulkString (Some buf))
  end.

Definition readInline : reader Value :=
  s ← readLine;
  mret (Array (NewBulkString <$> Fields s)).

(** The loop over the elements of an array, [todo] of them from index [i]. *)
Fixpoint read_elements (read : reader Value) (todo : nat) (i : Z) : reader (list Value) :=
  match todo with
  | O => mret []
  | S todo' => λ s,
      match read s with
      | inl e => inl (ErrElement i e)
      | inr (v, s') => (vs ← read_elements read todo' (i + 1); mret (v :: vs)) s'
      end
  end.

(** [None] is the nil array. *)
Definition readArray (read : reader Value) : reader (option (list Value)) :=
  s ← readLine;
  if String.eqb s "-1" then mret None
  else match Atoi s with
  | (_, Some e) => fail (ErrArrayLength s e)
  | (n, None) =>
      if n <? 0 then fail (ErrNegativeArray n)
      else if maxArrayLength <? n then fail (ErrArrayTooLong n)
      else vs ← read_elements read (Z.to_nat n) 0; mret (Some vs)
  end.

(** [left] is the number of array levels that may still be opened:
    [maxArrayDepth] minus the source's [depth]. *)
Fixpoint readValue (left : nat) : reader Value := λ s,
  match s with
  | EmptyString => inl (ErrIo end_)
  | String "+" s' => readSimpleString s'
  | String "-" s' => readError s'
  | String ":" s' => readInteger s'
  | String "$" s' => readBulkString s'
  | String "*" s' =>
      match left with
      | O => inl ErrNesting
      | S left' =>
          (arr ← readArray (readValue left');
           mret match arr with None => Nil | Some vs => Array vs end) s'
      end
  | _ => readInline s
  end.

Definition ReadValue : reader Value := readValue maxArrayDepth.
End reader.

(** ** The writer *)

(** [bufio.Writer] over a connection that takes [room] more bytes before its
    writes fail; [out] is what the connection has taken, [buf] what is
    buffered, [failed] the sticky error. *)
Record Writer := mkWriter { out : string; room : Z; buf : string; failed : bool }.

Definition NewWriter (room : Z) : Writer := mkWriter "" room "" false.

Definition drop_bytes (n : Z) (s : string) : string :=
  String.substring (Z.to_nat n) (String.length s) s.

(** A write of the connection: all of [p], or as much as fits and an error. *)
Definition conn_Write (w : Writer) (p : string) : Z * bool :=
  if GoStr.len p <=? room w then (GoStr.len p, true) else (Z.max 0 (room w), false).

Definition took (w : Writer) (p : string) (n : Z) : Writer :=
  mkWriter (out w +:+ String.substring 0 (Z.to_nat n) p) (room w - n) (buf w) (failed w).

(** [Flush]; the result is whether it succeeded. *)
Definition Flush (w : Writer) : bool * Writer :=
  if failed w then (false, w)
  else if GoStr.len (buf w) =? 0 then (true, w)
  else
    let '(n, ok) := conn_Write w (buf w) in
    let w1 := took w (buf w) n in
    if negb ok then (false, mkWriter (out w1) (room w1) (drop_bytes n (buf w)) true)
    else (true, mkWriter (out w1) (room w1) "" (failed w1)).

(** [bufio.Writer.Write]: while [p] does not fit in the buffer, a write goes
    straight to the connection if nothing is buffered, else the buffer is
    topped up and flushed. *)
Fixpoint write_loop (fuel : nat) (w : Writer) (p : string) : option Writer :=
  match fuel with
  | O => None
  | S fuel' =>
      let available := bufSize - GoStr.len (buf w) in
      if (available <? GoStr.len p) && negb (failed w) then
        if GoStr.len (buf w) =? 0 then
          let '(n, ok) := conn_Write w p in
          let w1 := took w p n in
          write_loop fuel' (mkWriter (out w1) (room w1) (buf w1) (negb ok)) (drop_bytes n p)
        else
          let w1 := mkWriter (out w) (room w)
                      (buf w +:+ String.substring 0 (Z.to_nat available) p) (failed w) in
          write_loop fuel' (Flush w1).2 (drop_bytes available p)
      else if failed w then Some w
      else Some (mkWriter (out w) (room w) (buf w +:+ p) (failed w))
  end.

(** Topping up, one direct write and the final copy: three rounds. *)
Definition buf_Write (w : Writer) (p : string) : Writer := default w (write_loop 3 w p).

(** [Write] of a value; [None] is the panic of encoding a nil interface. *)
Definition Write (w : Writer) (v : Value) : option Writer := buf_Write w <$> Resp v.

Definition WriteValue (w : Writer) (v : Value) : option (bool * Writer) := Flush <$> Write w v.
