(* ===== verification/RespProps.v ===== *)
(** * The correctness of the RESP reader and writer

    The chunked line reader implements a direct description of a line, the
    parser inverts the encoders, and everything it returns is within the
    protocol's limits. *)

From S2P Require Import Prelude GoStrconv GoCrypto Resp.
Local Open Scope Z_scope.

(** ** Lines *)

(** A string split at its first line feed. *)
Fixpoint find_lf (s : string) : option (string * string) :=
  match s with
  | EmptyString => None
  | String c s' => if Ascii.eqb c LF then Some ("", s')
                   else '(pre, rest) ← find_lf s'; Some (String c pre, rest)
  end.

Definition no_lf (s : string) : Prop := find_lf s = None.

#[export] Instance no_lf_dec s : Decision (no_lf s).
Proof. unfold no_lf. apply _. Defined.

(** What a call of [readLine] returns, described without the buffer: a line of
    at most 65536 bytes, terminator included. *)
Definition line_spec (end_ : IoError) (s : string) : RespError + string * string :=
  match find_lf s with
  | Some (pre, rest) =>
      if maxLineLength <? GoStr.len pre + 1 then inl ErrLine
      else match strip_crlf (pre +:+ String LF "") with inl e => inl e | inr l => inr (l, rest) end
  | None => if maxLineLength <? GoStr.len s then inl ErrLine else inl (ErrIo end_)
  end.

Lemma find_lf_app_lf pre rest : no_lf pre → find_lf (pre +:+ String LF rest) = Some (pre, rest).
Proof.
  unfold no_lf, String.app. induction pre as [|c pre IH]; simpl; [done|].
  destruct (Ascii.eqb c LF); [done|]. destruct (find_lf pre) as [[]|] eqn:?; [done|].
  intros _. by rewrite IH.
Qed.

Lemma find_lf_app part s : no_lf part →
  find_lf (part +:+ s) = (λ pr, (part +:+ pr.1, pr.2)) <$> find_lf s.
Proof.
  unfold no_lf, String.app. induction part as [|c part IH]; simpl.
  { intros _. by destruct (find_lf s) as [[]|]. }
  destruct (Ascii.eqb c LF); [done|]. destruct (find_lf part) as [[]|] eqn:?; [done|].
  intros _. rewrite IH by done. by destruct (find_lf s) as [[]|].
Qed.

Lemma no_lf_app a b : no_lf a → no_lf b → no_lf (a +:+ b).
Proof. unfold no_lf. intros Ha Hb. by rewrite find_lf_app, Hb. Qed.

Lemma no_lf_cons c s : c ≠ LF → no_lf s → no_lf (String c s).
Proof.
  unfold no_lf. intros Hc Hs. simpl. destruct (Ascii.eqb_spec c LF); [done|]. by rewrite Hs.
Qed.

Lemma len_app a b : GoStr.len (a +:+ b) = GoStr.len a + GoStr.len b.
Proof. unfold GoStr.len. rewrite string_length_app. lia. Qed.

Lemma len_cons c s : GoStr.len (String c s) = GoStr.len s + 1.
Proof. unfold GoStr.len. simpl. lia. Qed.

Lemma len_nonneg s : 0 ≤ GoStr.len s.
Proof. unfold GoStr.len. lia. Qed.

(** The three ways a call of [ReadSlice] ends. *)
Lemma ReadSlice_spec end_ room s part err rest : 0 ≤ room →
  ReadSlice_ end_ room s = (part, err, rest) →
  s = part +:+ rest ∧
  match err with
  | None => ∃ pre, part = pre +:+ String LF "" ∧ no_lf pre ∧ GoStr.len part ≤ room
  | Some ErrBufferFull => no_lf part ∧ GoStr.len part = room
  | Some (SliceIo e) => e = end_ ∧ rest = "" ∧ no_lf part ∧ GoStr.len part < room
  end.
Proof.
  revert room part err rest. induction s as [|c s IH]; intros room part err rest Hr; simpl;
    destruct (Z.leb_spec room 0) as [Hle|Hgt].
  - intros [= <- <- <-]. split; [done|]. split; [done|]. unfold GoStr.len. simpl. lia.
  - intros [= <- <- <-]. done.
  - intros [= <- <- <-]. split; [done|]. split; [done|]. unfold GoStr.len. simpl. lia.
  - destruct (Ascii.eqb_spec c LF) as [->|Hc].
    + intros [= <- <- <-]. split; [done|]. exists "". split; [done|]. split; [done|]. unfold GoStr.len. simpl. lia.
    + destruct (ReadSlice_ end_ (room - 1) s) as [[part' err'] rest'] eqn:E.
      intros [= <- <- <-]. apply IH in E as [-> E]; [|lia]. split; [done|].
      destruct err' as [[|e]|].
      * destruct E as [Hn Hl]. split; [by apply no_lf_cons|]. rewrite len_cons. lia.
      * destruct E as (-> & -> & Hn & Hl). split; [done|]. split; [done|].
        split; [by apply no_lf_cons|]. rewrite len_cons. lia.
      * destruct E as (pre & -> & Hn & Hl). exists (String c pre). split; [done|].
        split; [by apply no_lf_cons|]. rewrite len_cons. lia.
Qed.

(** One round of the loop settles the line or reads a full buffer. *)
Lemma readLine_loop_step end_ k line s : no_lf line →
  readLine_loop end_ (S k) line s = Some (line_spec end_ (line +:+ s)) ∨
  ∃ part rest, s = part +:+ rest ∧ no_lf part ∧ GoStr.len part = bufSize ∧
    GoStr.len line + bufSize ≤ maxLineLength ∧
    readLine_loop end_ (S k) line s = readLine_loop end_ k (line +:+ part) rest.
Proof.
  intros Hn. cbn [readLine_loop]. unfold ReadSlice.
  destruct (ReadSlice_ end_ bufSize s) as [[part err] rest] eqn:E.
  apply ReadSlice_spec in E as [-> E]; [|done]. cbv zeta.
  destruct (Z.ltb_spec maxLineLength (GoStr.len line + GoStr.len part)) as [Hlim|Hlim].
  - left. f_equal. unfold line_spec. rewrite find_lf_app by done. pose proof (len_nonneg rest).
    destruct (find_lf (part +:+ rest)) as [[pre r]|] eqn:Hf; cbn [fmap option_fmap option_map fst snd].
    + assert (Hp : GoStr.len part ≤ GoStr.len pre + 1).
      { destruct err as [[|e]|].
        - destruct E as [Hp _]. rewrite find_lf_app in Hf by done.
          destruct (find_lf rest) as [[pre' r']|]; simplify_eq/=. rewrite len_app.
          pose proof (len_nonneg pre'). lia.
        - destruct E as (-> & -> & Hp & _). rewrite string_app_nil_r in Hf. by rewrite Hp in Hf.
        - destruct E as (pre' & -> & Hp & _). rewrite string_app_assoc, app_cons in Hf.
          rewrite find_lf_app_lf in Hf by done. simplify_eq. by rewrite len_app. }
      rewrite len_app. destruct (Z.ltb_spec maxLineLength (GoStr.len line + GoStr.len pre + 1)); [done|lia].
    + rewrite !len_app.
      destruct (Z.ltb_spec maxLineLength (GoStr.len line + (GoStr.len part + GoStr.len rest))); [done|lia].
  - destruct err as [[|e]|].
    + destruct E as [Hp Hl]. right. exists part, rest. rewrite Hl in *. done.
    + destruct E as (-> & -> & Hp & _). left. unfold line_spec. rewrite string_app_nil_r.
      rewrite (no_lf_app line part) by done. rewrite len_app.
      by destruct (Z.ltb_spec maxLineLength (GoStr.len line + GoStr.len part)); [lia|].
    + destruct E as (pre & -> & Hp & _). left. unfold line_spec.
      assert (line +:+ (pre +:+ String LF "") +:+ rest = (line +:+ pre) +:+ String LF rest) as ->
        by (by rewrite !string_app_assoc).
      rewrite find_lf_app_lf by (by apply no_lf_app). rewrite !len_app in *.
      change (GoStr.len (String LF "")) with 1 in *. rewrite string_app_assoc.
      by destruct (Z.ltb_spec maxLineLength (GoStr.len line + GoStr.len pre + 1)); [lia|].
Qed.

Lemma readLine_loop_spec end_ k line s : no_lf line →
  GoStr.len line + bufSize * Z.of_nat k = maxLineLength →
  readLine_loop end_ (S k) line s = Some (line_spec end_ (line +:+ s)).
Proof.
  revert line s. induction k as [|k IH]; intros line s Hn Hl;
    match goal with |- readLine_loop _ (S ?n) _ _ = _ =>
      destruct (readLine_loop_step end_ n line s Hn) as [->|(part & rest & -> & Hp & Hlp & Hle & ->)];
      [done|] end.
  - unfold bufSize in *. lia.
  - rewrite IH, string_app_assoc; [done|by apply no_lf_app|rewrite len_app; unfold bufSize in *; lia].
Qed.

Lemma readLine_line_spec end_ s : readLine end_ s = line_spec end_ s.
Proof. unfold readLine, readLine_fuel. by rewrite (readLine_loop_spec end_ 16). Qed.

(** ** Encoded text *)

Lemma string_get_app (a : string) c b : String.get (String.length a) (a +:+ String c b) = Some c.
Proof. unfold String.app. induction a as [|x a IH]; simpl; [done|]. exact IH. Qed.

Lemma substring_app (a b : string) : String.substring 0 (String.length a) (a +:+ b) = a.
Proof. unfold String.app. induction a as [|x a IH]; simpl; [by destruct b|]. by rewrite IH. Qed.

Lemma strip_crlf_app l : strip_crlf (l +:+ CRLF) = inr l.
Proof.
  unfold strip_crlf. rewrite string_length_app. cbn [CRLF String.length].
  replace (String.length l + 2 - 2)%nat with (String.length l) by lia. unfold CRLF.
  rewrite string_get_app, substring_app, bool_decide_eq_true_2 by done.
  by destruct (Z.ltb_spec (Z.of_nat (String.length l + 2)) 2); [lia|].
Qed.

(** A line that [readLine] returns as it was written. *)
Definition line_ok (l : string) : Prop := no_lf l ∧ GoStr.len l + 2 ≤ maxLineLength.

#[export] Instance line_ok_dec l : Decision (line_ok l).
Proof. unfold line_ok. apply _. Defined.

Lemma readLine_line end_ l rest : line_ok l → readLine end_ (l +:+ CRLF +:+ rest) = inr (l, rest).
Proof.
  intros [Hn Hl]. rewrite readLine_line_spec. unfold line_spec.
  assert (l +:+ CRLF +:+ rest = (l +:+ String CR "") +:+ String LF rest) as ->
    by (by rewrite string_app_assoc).
  rewrite find_lf_app_lf by (by apply no_lf_app).
  rewrite len_app. change (GoStr.len (String CR "")) with 1.
  destruct (Z.ltb_spec maxLineLength (GoStr.len l + 1 + 1)); [lia|].
  rewrite string_app_assoc. change (String CR "" +:+ String LF "") with CRLF.
  by rewrite strip_crlf_app.
Qed.

Lemma digit_not_lf c : is_digit c = true → c ≠ LF.
Proof. intros H ->. done. Qed.

Lemma digits_line fuel n acc : 0 ≤ n → no_lf acc →
  no_lf (digits fuel n acc) ∧ GoStr.len (digits fuel n acc) ≤ GoStr.len acc + Z.of_nat fuel.
Proof.
  revert n acc. induction fuel as [|fuel IH]; intros n acc Hn Ha; cbn [digits]; [split; [done|lia]|].
  assert (Hd : no_lf (String (digit (n mod 10)) acc)).
  { apply no_lf_cons; [|done]. apply digit_not_lf, digit_is_digit, Z.mod_pos_bound. lia. }
  destruct (n <? 10); [split; [done|rewrite len_cons; lia]|].
  destruct (IH (n / 10) _ ltac:(apply Z.div_pos; lia) Hd) as [Hl1 Hl2].
  split; [done|]. rewrite len_cons in Hl2. lia.
Qed.

Lemma Itoa_line n : line_ok (Itoa n).
Proof.
  unfold line_ok, Itoa. destruct (Z.ltb_spec n 0).
  - destruct (digits_line 20 (- n) "" ltac:(lia) eq_refl) as [H1 H2].
    split; [by apply no_lf_cons|]. rewrite len_cons. change (GoStr.len "") with 0 in H2.
    change maxLineLength with 65536. lia.
  - destruct (digits_line 20 n "" ltac:(lia) eq_refl) as [H1 H2].
    split; [done|]. change (GoStr.len "") with 0 in H2. change maxLineLength with 65536. lia.
Qed.

Lemma Itoa_not_null n : in_int64 n → 0 ≤ n → String.eqb (Itoa n) "-1" = false.
Proof.
  intros Hn Hp. apply String.eqb_neq. intros He.
  assert (n = -1); [|lia]. apply Itoa_inj; [done|by vm_compute|done].
Qed.

Lemma take_bytes_app a b : take_bytes (GoStr.len a) (a +:+ b) = Some (a, b).
Proof.
  induction a as [|c a IH]; [by destruct b|]. rewrite len_cons, app_cons. cbn [take_bytes].
  pose proof (len_nonneg a). destruct (Z.leb_spec (GoStr.len a + 1) 0); [lia|].
  rewrite Z.add_simpl_r. by rewrite IH.
Qed.

(** ** The round trip *)

(** The values that survive the wire: texts without line feeds, and sizes
    within the limits, nested at most [left] levels. *)
Fixpoint wire_ok (left : nat) (v : Value) : bool :=
  match v with
  | SimpleString s | Error s => bool_decide (line_ok s)
  | Integer i => bool_decide (in_int64 i)
  | BulkString None => true
  | BulkString (Some d) => GoStr.len d <=? maxBulkStringLength
  | Array vs =>
      match left with
      | O => false
      | S left' => (Z.of_nat (length vs) <=? maxArrayLength) && forallb (wire_ok left') vs
      end
  | Nil => false
  end.

(** The encoding of an array is its header and the encodings of its elements. *)
Fixpoint concat_resp (vs : list Value) : option string :=
  match vs with
  | [] => Some ""
  | v :: vs' => e ← Resp v; es ← concat_resp vs'; Some (e +:+ es)
  end.

Lemma Resp_Array vs :
  Resp (Array vs) = (λ es, "*" +:+ Itoa (Z.of_nat (length vs)) +:+ CRLF +:+ es) <$> concat_resp vs.
Proof.
  cbn [Resp]. set (h := "*" +:+ Itoa (Z.of_nat (length vs)) +:+ CRLF).
  assert (Hh : ∀ es, "*" +:+ Itoa (Z.of_nat (length vs)) +:+ CRLF +:+ es = h +:+ es).
  { intros es. unfold h. by rewrite !string_app_assoc. }
  clearbody h. assert (Hg : ∀ vs' b,
    (fix go (b : string) (vs : list Value) : option string :=
       match vs with
       | [] => Some b
       | v :: vs' => match Resp v with Some e => go (b +:+ e) vs' | None => None end
       end) b vs' = (λ es, b +:+ es) <$> concat_resp vs').
  { induction vs' as [|v vs' IH]; intros b; simpl; [by rewrite string_app_nil_r|].
    destruct (Resp v) as [e|]; [|done]. simpl. rewrite IH.
    destruct (concat_resp vs'); simpl; [by rewrite string_app_assoc|done]. }
  rewrite Hg. destruct (concat_resp vs); simpl; [by rewrite Hh|done].
Qed.

Lemma reader_bind_eq {A B} (m : reader A) (f : A → reader B) s a s' :
  m s = inr (a, s') → mbind f m s = f a s'.
Proof. intros E. unfold mbind, reader_bind. by rewrite E. Qed.

Section roundtrip.
Context (end_ : IoError).

Lemma expect_ok c missing wrong rest : expect end_ c missing wrong (String c rest) = inr (tt, rest).
Proof.
  unfold expect, mbind, reader_bind, read_full, ReadFull. cbn [take_bytes Z.leb Z.compare].
  replace (take_bytes (1 - 1) rest) with (Some ("", rest)) by (by destruct rest).
  cbn. by rewrite Ascii.eqb_refl.
Qed.

Lemma readBulkString_ok d rest : GoStr.len d ≤ maxBulkStringLength →
  readBulkString end_ (Itoa (GoStr.len d) +:+ CRLF +:+ d +:+ CRLF +:+ rest) =
  inr (BulkString (Some d), rest).
Proof.
  intros Hd. pose proof (len_nonneg d) as Hd0. change maxBulkStringLength with 67108864 in Hd.
  assert (Hi : in_int64 (GoStr.len d)) by (unfold in_int64, minInt64, maxInt64; lia).
  unfold readBulkString. rewrite (reader_bind_eq _ _ _ _ _ (readLine_line _ _ _ (Itoa_line _))).
  rewrite Itoa_not_null, Atoi_Itoa_id by done. change maxBulkStringLength with 67108864.
  destruct (Z.ltb_spec (GoStr.len d) 0); [lia|]. destruct (Z.ltb_spec 67108864 (GoStr.len d)); [lia|].
  rewrite (reader_bind_eq _ _ _ d (CRLF +:+ rest)).
  2: { unfold read_full, ReadFull. by rewrite take_bytes_app. }
  change (CRLF +:+ rest) with (String CR (String LF rest)).
  by rewrite !(reader_bind_eq _ _ _ _ _ (expect_ok _ _ _ _)).
Qed.

Lemma read_elements_ok read vs es rest i :
  Forall (λ v, ∀ e r, Resp v = Some e → read (e +:+ r) = inr (v, r)) vs →
  concat_resp vs = Some es →
  read_elements read (length vs) i (es +:+ rest) = inr (vs, rest).
Proof.
  revert es i. induction vs as [|v vs IH]; intros es i Hf Hes; simpl in *.
  { by simplify_eq. }
  apply Forall_cons in Hf as [Hv Hf].
  destruct (Resp v) as [e|] eqn:He; [|done]. simpl in Hes.
  destruct (concat_resp vs) as [es'|] eqn:Hc; [|done]. simplify_eq/=.
  rewrite string_app_assoc, Hv by done. by rewrite (reader_bind_eq _ _ _ _ _ (IH es' (i + 1) Hf eq_refl)).
Qed.

(** The first byte selects the reader. *)
Lemma readValue_dispatch left s :
  readValue end_ left (String "+" s) = readSimpleString end_ s ∧
  readValue end_ left (String "-" s) = readError end_ s ∧
  readValue end_ left (String ":" s) = readInteger end_ s ∧
  readValue end_ left (String "$" s) = readBulkString end_ s.
Proof. by destruct left. Qed.

Lemma readValue_Resp left v b rest : wire_ok left v = true → Resp v = Some b →
  readValue end_ left (b +:+ rest) = inr (v, rest).
Proof.
  revert v b rest. induction left as [left IH] using lt_wf_ind; intros v b rest Hok Hb.
  assert (Hflat : ∀ v, match v with Array _ => False | _ => True end → wire_ok left v = wire_ok 0 v)
    by (by destruct left; intros []).
  destruct v as [s|s|i|[d|]|vs|]; try (rewrite Hflat in Hok by done); try discriminate;
    try (injection Hb as <-; rewrite !string_app_assoc); cbn in Hok; bool_to_prop.
  - apply bool_decide_eq_true in Hok.
    etransitivity; [apply (readValue_dispatch left)|]. unfold readSimpleString, readError.
    by rewrite (reader_bind_eq _ _ _ _ _ (readLine_line _ _ _ Hok)).
  - apply bool_decide_eq_true in Hok.
    etransitivity; [apply (readValue_dispatch left)|]. unfold readSimpleString, readError.
    by rewrite (reader_bind_eq _ _ _ _ _ (readLine_line _ _ _ Hok)).
  - apply bool_decide_eq_true in Hok.
    etransitivity; [apply (readValue_dispatch left)|]. unfold readInteger.
    rewrite (reader_bind_eq _ _ _ _ _ (readLine_line _ _ _ (Itoa_line _))).
    by rewrite Atoi_Itoa_id.
  - etransitivity; [apply (readValue_dispatch left)|]. by apply readBulkString_ok.
  - etransitivity; [apply (readValue_dispatch left)|]. unfold readBulkString.
    by rewrite (reader_bind_eq _ _ _ "-1" rest) by (by apply (readLine_line end_ "-1")).
  - destruct left as [|left]; [done|]. apply andb_prop in Hok as [Hl Hvs].
    apply Z.leb_le in Hl. change maxArrayLength with 1048576 in Hl.
    rewrite Resp_Array in Hb. destruct (concat_resp vs) as [es|] eqn:Hes; [|discriminate Hb].
    injection Hb as <-. rewrite !string_app_assoc. change ("*" +:+ ?x) with (String "*" x).
    cbn [readValue]. assert (Hi : in_int64 (Z.of_nat (length vs))) by (unfold in_int64, minInt64, maxInt64; lia).
    assert (E : readArray end_ (readValue end_ left)
      (Itoa (Z.of_nat (length vs)) +:+ CRLF +:+ es +:+ rest) = inr (Some vs, rest)).
    { unfold readArray. rewrite (reader_bind_eq _ _ _ _ _ (readLine_line _ _ _ (Itoa_line _))).
      rewrite Itoa_not_null, Atoi_Itoa_id by (done || lia). change maxArrayLength with 1048576.
      destruct (Z.ltb_spec (Z.of_nat (length vs)) 0); [lia|].
      destruct (Z.ltb_spec 1048576 (Z.of_nat (length vs))); [lia|]. rewrite Nat2Z.id.
      by erewrite reader_bind_eq by (apply read_elements_ok; [|done];
        apply Forall_forall; intros v Hv e r He; apply IH; [lia| |done];
        rewrite forallb_forall in Hvs; by apply Hvs, list_elem_of_In). }
    by rewrite (reader_bind_eq _ _ _ _ _ E).
Qed.
End roundtrip.

(** ** Limits *)

Lemma find_lf_split s pre rest : find_lf s = Some (pre, rest) → s = pre +:+ String LF rest ∧ no_lf pre.
Proof.
  revert pre. induction s as [|c s IH]; intros pre; simpl; [done|].
  destruct (Ascii.eqb_spec c LF) as [->|Hc]; [by intros [= <- <-]|].
  destruct (find_lf s) as [[pre' rest']|]; [|done]. simpl. intros [= <- <-].
  destruct (IH pre' eq_refl) as [-> Hn]. split; [done|]. by apply no_lf_cons.
Qed.

Lemma substring_prefix n (s : string) : ∃ t, s = String.substring 0 n s +:+ t.
Proof.
  revert s. induction n as [|n IH]; intros [|c s]; simpl; [by exists ""|by exists (String c s)|by exists ""|].
  destruct (IH s) as [t Ht]. exists t. by rewrite app_cons, <-Ht.
Qed.

Lemma length_substring n (s : string) : (n ≤ String.length s)%nat →
  String.length (String.substring 0 n s) = n.
Proof.
  revert s. induction n as [|n IH]; intros [|c s]; simpl; intros; [done..|lia|]. by rewrite IH by lia.
Qed.

Lemma strip_crlf_split pre l :
  strip_crlf (pre +:+ String LF "") = inr l → pre = l +:+ String CR "".
Proof.
  unfold strip_crlf. rewrite string_length_app. cbn [String.length].
  destruct (Z.ltb_spec (Z.of_nat (String.length pre + 1)) 2); simpl; [done|].
  case_bool_decide as Hg; simpl; [|done]. intros [= <-].
  set (n := (String.length pre + 1 - 2)%nat) in *.
  destruct (substring_prefix n (pre +:+ String LF "")) as [t Ht].
  pose proof (length_substring n (pre +:+ String LF "")) as Hln.
  rewrite string_length_app in Hln. specialize (Hln ltac:(lia)).
  remember (String.substring 0 n (pre +:+ String LF "")) as l eqn:Hl. rewrite Ht in Hg. clear Hl.
  assert (Hlt : String.length t = 2%nat).
  { apply (f_equal String.length) in Ht. rewrite !string_length_app in Ht. simpl in Ht. lia. }
  destruct t as [|x [|y [|]]]; try discriminate Hlt. rewrite <-Hln, string_get_app in Hg.
  injection Hg as ->. change (String CR (String y "")) with (String CR "" +:+ String y "") in Ht.
  rewrite <-string_app_assoc in Ht. apply string_app_inj in Ht as [-> _]; [done|].
  rewrite string_length_app. simpl. lia.
Qed.

(** What [readLine] returns is a line within the limit, and the bytes it
    consumed are that line. *)
Lemma readLine_inv end_ s l rest : readLine end_ s = inr (l, rest) →
  line_ok l ∧ s = l +:+ CRLF +:+ rest.
Proof.
  rewrite readLine_line_spec. unfold line_spec.
  destruct (find_lf s) as [[pre r]|] eqn:Hf; [|by destruct (maxLineLength <? GoStr.len s)].
  destruct (Z.ltb_spec maxLineLength (GoStr.len pre + 1)) as [|Hl]; [done|].
  destruct (strip_crlf _) as [|l'] eqn:Hs; [done|]. intros [= -> ->].
  apply strip_crlf_split in Hs as ->. apply find_lf_split in Hf as [-> Hn].
  rewrite len_app in Hl. change (GoStr.len (String CR "")) with 1 in Hl.
  split; [|by rewrite string_app_assoc]. split; [|lia]. unfold no_lf in *.
  destruct (find_lf l) as [[p q]|] eqn:Hf; [|done].
  apply find_lf_split in Hf as [-> Hp]. rewrite string_app_assoc, app_cons, find_lf_app_lf in Hn by done.
  done.
Qed.

Lemma flush_field_bound (field : string) fields n :
  Forall (λ f, 0 < GoStr.len f ≤ n) fields → GoStr.len field ≤ n →
  Forall (λ f, 0 < GoStr.len f ≤ n) (flush_field field fields).
Proof.
  intros Hf Hn. destruct field as [|c field]; [done|]. constructor; [|done]. split; [|done].
  rewrite len_cons. pose proof (len_nonneg field). lia.
Qed.

Lemma flush_field_length (field : string) fields :
  Z.of_nat (length (flush_field field fields)) ≤ Z.of_nat (length fields) + Z.min 1 (GoStr.len field).
Proof.
  destruct field as [|c field]; [simpl; unfold GoStr.len; simpl; lia|].
  cbn [flush_field length]. rewrite len_cons. pose proof (len_nonneg field). lia.
Qed.

Lemma fields_loop_bound s skip field n : GoStr.len field + GoStr.len s ≤ n →
  Forall (λ f, 0 < GoStr.len f ≤ n) (fields_loop s skip field).
Proof.
  revert skip field. induction s as [|c s IH]; intros skip field Hn; cbn [fields_loop].
  { apply flush_field_bound; [done|]. change (GoStr.len "") with 0 in Hn. lia. }
  rewrite len_cons in Hn. pose proof (len_nonneg field).
  destruct skip as [|skip]; [|apply IH; lia].
  destruct (space_width (String c s)) as [|w].
  - apply IH. rewrite len_app. change (GoStr.len (String c "")) with 1. lia.
  - pose proof (len_nonneg s). apply flush_field_bound; [|lia]. apply IH. change (GoStr.len "") with 0. lia.
Qed.

Lemma fields_loop_length s skip field :
  Z.of_nat (length (fields_loop s skip field)) ≤ GoStr.len s + Z.min 1 (GoStr.len field).
Proof.
  revert skip field. induction s as [|c s IH]; intros skip field; cbn [fields_loop].
  { pose proof (flush_field_length field []) as H. simpl in H. change (GoStr.len "") with 0. lia. }
  rewrite len_cons. pose proof (len_nonneg field).
  destruct skip as [|skip]; [|specialize (IH skip field); lia].
  destruct (space_width (String c s)) as [|w].
  - specialize (IH 0%nat (field +:+ String c "")). lia.
  - pose proof (flush_field_length field (fields_loop s w "")). specialize (IH w "").
    change (GoStr.len "") with 0 in IH. lia.
Qed.

(** An inline command: non-empty words of one line. *)
Definition inline_ok (vs : list Value) : Prop :=
  Z.of_nat (length vs) ≤ maxLineLength ∧
  Forall (λ v, ∃ f, v = BulkString (Some f) ∧ 0 < GoStr.len f ≤ maxLineLength) vs.

(** The values the reader can return when [left] more arrays may be opened. *)
Fixpoint within (left : nat) (v : Value) : Prop :=
  match v with
  | SimpleString s | Error s => line_ok s
  | Integer i => in_int64 i
  | BulkString None => True
  | BulkString (Some d) => GoStr.len d ≤ maxBulkStringLength
  | Array vs => inline_ok vs ∨
      match left with
      | O => False
      | S left' => Z.of_nat (length vs) ≤ maxArrayLength ∧ Forall (within left') vs
      end
  | Nil => (0 < left)%nat
  end.

Lemma Atoi_range s n : Atoi s = (n, None) → in_int64 n.
Proof. intros E. pose proof (Atoi_in_int64 s) as Hr. by rewrite E in Hr. Qed.

(** The unread bytes are a suffix of the input. *)
Definition consumed (s rest : string) : Prop := ∃ used, s = used +:+ rest.

#[export] Instance consumed_preorder : PreOrder consumed.
Proof.
  split; [intros s; by exists ""|]. intros s t u [a ->] [b ->]. exists (a +:+ b).
  by rewrite string_app_assoc.
Qed.

Lemma consumed_cons c s rest : consumed s rest → consumed (String c s) rest.
Proof. intros [a ->]. by exists (String c a). Qed.

Lemma consumed_len s rest : consumed s rest → GoStr.len rest ≤ GoStr.len s.
Proof. intros [a ->]. rewrite len_app. pose proof (len_nonneg a). lia. Qed.

Lemma reader_bind_inv {A B} (m : reader A) (f : A → reader B) s r :
  mbind f m s = inr r → ∃ a s', m s = inr (a, s') ∧ f a s' = inr r.
Proof. unfold mbind, reader_bind. destruct (m s) as [|[a s']]; [done|]. eauto. Qed.

Lemma take_bytes_inv n s b rest : take_bytes n s = Some (b, rest) →
  s = b +:+ rest ∧ GoStr.len b = Z.max 0 n.
Proof.
  revert n b. induction s as [|c s IH]; intros n b; simpl; destruct (Z.leb_spec n 0) as [Hn|Hn]; try done.
  - intros [= <- <-]. split; [done|]. change (GoStr.len "") with 0. lia.
  - intros [= <- <-]. split; [done|]. change (GoStr.len "") with 0. lia.
  - destruct (take_bytes (n - 1) s) as [[b' rest']|] eqn:E; [|done]. intros [= <- <-].
    apply IH in E as [-> Hl]. split; [done|]. rewrite len_cons. lia.
Qed.

Section limits.
Context (end_ : IoError).

Lemma read_full_inv n wrap s b rest : read_full end_ n wrap s = inr (b, rest) →
  s = b +:+ rest ∧ GoStr.len b = Z.max 0 n.
Proof.
  unfold read_full, ReadFull. destruct (take_bytes n s) as [[b' rest']|] eqn:E; [|done].
  intros [= <- <-]. by apply take_bytes_inv.
Qed.

Lemma expect_consumed c missing wrong s u rest : expect end_ c missing wrong s = inr (u, rest) → consumed s rest.
Proof.
  unfold expect. intros (b & s' & [-> _]%read_full_inv & E)%reader_bind_inv.
  exists b. destruct b as [|x b]; [by injection E as _ <-|].
  destruct (negb (Ascii.eqb x c)); [done|]. by injection E as _ <-.
Qed.

Lemma readLine_consumed s l rest : readLine end_ s = inr (l, rest) → line_ok l ∧ consumed s rest ∧ GoStr.len rest < GoStr.len s.
Proof.
  intros [Hl ->]%readLine_inv. split; [done|]. split; [exists (l +:+ CRLF); by rewrite string_app_assoc|].
  rewrite !len_app. change (GoStr.len CRLF) with 2. pose proof (len_nonneg l). lia.
Qed.

Lemma readBulkString_within s v rest : readBulkString end_ s = inr (v, rest) →
  (∃ o, v = BulkString o ∧ within 0 v) ∧ consumed s rest.
Proof.
  unfold readBulkString. intros (l & s1 & (Hl & Hc & _)%readLine_consumed & E)%reader_bind_inv.
  destruct (String.eqb l "-1"). { injection E as <- <-. split; [by exists None|done]. }
  destruct (Atoi l) as [n [e|]]; [done|].
  destruct (Z.ltb_spec n 0); [done|]. destruct (Z.ltb_spec maxBulkStringLength n); [done|].
  apply reader_bind_inv in E as (b & s2 & [-> Hb]%read_full_inv & E).
  apply reader_bind_inv in E as (u1 & s3 & H1%expect_consumed & E).
  apply reader_bind_inv in E as (u2 & s4 & H2%expect_consumed & E). injection E as <- <-.
  split; [exists (Some b); split; [done|]; simpl; lia|].
  etransitivity; [exact Hc|]. etransitivity; [by exists b|]. by etransitivity.
Qed.

Lemma readInline_within s v rest : readInline end_ s = inr (v, rest) →
  (∃ vs, v = Array vs ∧ inline_ok vs) ∧ consumed s rest ∧ GoStr.len rest < GoStr.len s.
Proof.
  unfold readInline. intros (l & s1 & ([_ Hl] & Hc)%readLine_consumed & E)%reader_bind_inv.
  injection E as <- <-. split; [|done]. eexists. split; [done|]. unfold inline_ok, Fields. rewrite length_fmap. split.
  - pose proof (fields_loop_length l 0 "") as H. change (GoStr.len "") with 0 in H. lia.
  - apply Forall_fmap. eapply Forall_impl; [apply (fields_loop_bound l 0 "" maxLineLength)|].
    + change (GoStr.len "") with 0. lia.
    + intros f Hf. by exists f.
Qed.

Lemma read_elements_within read todo i s vs rest P :
  (∀ s v rest, read s = inr (v, rest) → P v ∧ consumed s rest) →
  read_elements read todo i s = inr (vs, rest) →
  length vs = todo ∧ Forall P vs ∧ consumed s rest.
Proof.
  intros Hr. revert i s vs rest. induction todo as [|todo IH]; intros i s vs rest; simpl.
  { intros [= <- <-]. done. }
  destruct (read s) as [e|[v s']] eqn:E; [done|]. apply Hr in E as [Hv Hc].
  intros (vs' & s2 & (Hl & Hf & Hc2)%IH & E)%reader_bind_inv. injection E as <- <-.
  split; [simpl; lia|]. split; [by constructor|]. by etransitivity.
Qed.

Lemma readArray_within left read s o rest :
  (∀ s v rest, read s = inr (v, rest) → within left v ∧ consumed s rest) →
  readArray end_ read s = inr (o, rest) →
  consumed s rest ∧ ∀ vs, o = Some vs → Z.of_nat (length vs) ≤ maxArrayLength ∧ Forall (within left) vs.
Proof.
  intros Hr. unfold readArray.
  intros (l & s1 & (Hl & Hc & _)%readLine_consumed & E)%reader_bind_inv.
  destruct (String.eqb l "-1"). { injection E as <- <-. done. }
  destruct (Atoi l) as [n [e|]]; [done|].
  destruct (Z.ltb_spec n 0); [done|]. destruct (Z.ltb_spec maxArrayLength n); [done|].
  apply reader_bind_inv in E as (vs & s2 & E & E').
  apply (read_elements_within _ _ _ _ _ _ (within left)) in E as (Hn & Hf & Hc2); [|done].
  injection E' as <- <-. split; [by etransitivity|]. intros vs' [= <-]. split; [lia|done].
Qed.

(** Every byte that is not one of the five type bytes starts an inline
    command. *)
Lemma readValue_inline left c s :
  c ≠ "+"%char → c ≠ "-"%char → c ≠ ":"%char → c ≠ "$"%char → c ≠ "*"%char →
  readValue end_ left (String c s) = readInline end_ (String c s).
Proof.
  intros H1 H2 H3 H4 H5. destruct left;
    (destruct c as [[] [] [] [] [] [] [] []]; try reflexivity; by contradict H1 || by contradict H2 ||
     by contradict H3 || by contradict H4 || by contradict H5).
Qed.

Lemma readValue_within left s v rest : readValue end_ left s = inr (v, rest) →
  within left v ∧ consumed s rest ∧ GoStr.len rest < GoStr.len s.
Proof.
  revert s v rest. induction left as [left IH] using lt_wf_ind; intros s v rest.
  destruct s as [|c s]; [by destruct left|].
  assert (Hmono : ∀ v, match v with Array _ | Nil => False | _ => True end → within 0 v → within left v)
    by (by destruct left; intros []).
  assert (Hcons : ∀ s', consumed s s' → consumed (String c s) s' ∧ GoStr.len s' < GoStr.len (String c s)).
  { intros s' Hc. split; [by apply consumed_cons|]. apply consumed_len in Hc. rewrite len_cons. lia. }
  destruct (readValue_dispatch end_ left s) as (D1 & D2 & D3 & D4).
  destruct (decide (c = "+"%char)) as [->|N1].
  { rewrite D1. intros (l & s1 & (Hl & Hc & _)%readLine_consumed & E)%reader_bind_inv.
    injection E as <- <-. split; [by apply Hmono|auto]. }
  destruct (decide (c = "-"%char)) as [->|N2].
  { rewrite D2. intros (l & s1 & (Hl & Hc & _)%readLine_consumed & E)%reader_bind_inv.
    injection E as <- <-. split; [by apply Hmono|auto]. }
  destruct (decide (c = ":"%char)) as [->|N3].
  { rewrite D3. intros (l & s1 & (Hl & Hc & _)%readLine_consumed & E)%reader_bind_inv.
    destruct (Atoi l) as [n [e|]] eqn:Ha; [done|]. injection E as <- <-.
    split; [apply Hmono; [done|]; by eapply Atoi_range|auto]. }
  destruct (decide (c = "$"%char)) as [->|N4].
  { rewrite D4. intros [(o & -> & Hw) Hc]%readBulkString_within. split; [by apply Hmono|auto]. }
  destruct (decide (c = "*"%char)) as [->|N5].
  { destruct left as [|left]; [done|]. cbn [readValue]. intros (o & s1 & E & E')%reader_bind_inv.
    apply (readArray_within left) in E as [Hc Ho].
    - injection E' as <- <-. split; [|auto]. destruct o as [vs|]; [right; by apply Ho|simpl; lia].
    - intros s2 v2 r2 Hr. apply IH in Hr as (? & ? & _); [done|lia]. }
  rewrite readValue_inline by done. intros [(vs & -> & Hi) Hc]%readInline_within. split; [|done].
  destruct left; by left.
Qed.
End limits.

(** ** The writer *)

Lemma substring_all m (s : string) : (String.length s ≤ m)%nat → String.substring 0 m s = s.
Proof.
  revert s. induction m as [|m IH]; intros [|c s]; simpl; intros; [done|lia|done|]. by rewrite IH by lia.
Qed.

Lemma substring_split n m (s : string) : (String.length s ≤ n + m)%nat →
  String.substring 0 n s +:+ String.substring n m s = s.
Proof.
  revert s. induction n as [|n IH]; intros s Hl.
  { rewrite (substring_all m) by lia. by destruct s. }
  destruct s as [|c s]; [done|]. simpl in *. rewrite app_cons, IH by lia. done.
Qed.

Lemma take_drop_bytes n s : String.substring 0 (Z.to_nat n) s +:+ drop_bytes n s = s.
Proof. unfold drop_bytes. apply substring_split. lia. Qed.

Lemma len_take n s : 0 ≤ n ≤ GoStr.len s → GoStr.len (String.substring 0 (Z.to_nat n) s) = n.
Proof. unfold GoStr.len. intros Hn. rewrite length_substring by lia. lia. Qed.

(** [rest] is what of the text [t] the connection has not taken; a writer has
    failed only when the connection is full and something is left over. *)
Record writing (w : Writer) (cap : Z) (t rest : string) : Prop := {
  wr_text : out w +:+ rest = t;
  wr_room : 0 ≤ room w;
  wr_cap : room w + GoStr.len (out w) = cap;
  wr_buf : GoStr.len (buf w) ≤ bufSize;
  wr_live : failed w = true → room w = 0 ∧ rest ≠ "";
}.

Lemma conn_Write_spec w cap p q : writing w cap (out w +:+ p +:+ q) (p +:+ q) → failed w = false →
  let '(n, ok) := conn_Write w p in
  0 ≤ n ∧ ok = (GoStr.len p <=? room w) ∧
  writing (mkWriter (out (took w p n)) (room (took w p n)) "" (negb ok)) cap (out w +:+ p +:+ q)
    (drop_bytes n p +:+ q) ∧ GoStr.len (drop_bytes n p) = GoStr.len p - n ∧ (ok = true → n = GoStr.len p).
Proof.
  intros [Ht Hr Hc Hb Hl] Hf. unfold conn_Write. pose proof (len_nonneg p).
  assert (Hdrop : ∀ n, 0 ≤ n ≤ GoStr.len p → GoStr.len (drop_bytes n p) = GoStr.len p - n).
  { intros n Hn. pose proof (take_drop_bytes n p) as E. apply (f_equal GoStr.len) in E.
    rewrite len_app, len_take in E by done. lia. }
  assert (Hw : ∀ n failed, 0 ≤ n ≤ GoStr.len p → n ≤ room w →
    (failed = true → n = room w ∧ n < GoStr.len p) →
    writing (mkWriter (out (took w p n)) (room (took w p n)) "" failed) cap (out w +:+ p +:+ q)
      (drop_bytes n p +:+ q)).
  { intros n fl Hn Hnr Hfl. unfold took. split; cbn [out room buf failed].
    - by rewrite string_app_assoc, <-(string_app_assoc _ (drop_bytes n p)), take_drop_bytes.
    - lia.
    - rewrite len_app, len_take by lia. lia.
    - done.
    - intros [-> Hlt]%Hfl. split; [lia|]. intros E. apply (f_equal GoStr.len) in E.
      rewrite len_app, Hdrop in E by lia. change (GoStr.len "") with 0 in E. pose proof (len_nonneg q). lia. }
  destruct (Z.leb_spec (GoStr.len p) (room w)) as [Hle|Hgt]; cbn [negb].
  - split; [lia|]. split; [done|]. split; [by apply Hw|]. rewrite Hdrop by lia. lia.
  - rewrite Z.max_r by lia. split; [lia|]. split; [done|]. split; [apply Hw; lia|]. split; [by apply Hdrop; lia|done].
Qed.

Lemma Flush_spec w cap t : writing w cap t (buf w) → failed w = false →
  let '(ok, w') := Flush w in
  writing w' cap t (buf w') ∧ failed w' = negb ok ∧ (ok = true → buf w' = "") ∧
  (GoStr.len (buf w) ≤ room w → ok = true).
Proof.
  intros Hw Hf. unfold Flush. rewrite Hf. pose proof (wr_text _ _ _ _ Hw) as <-.
  destruct (Z.eqb_spec (GoStr.len (buf w)) 0) as [H0|H0].
  { split; [done|]. split; [done|]. split; [|done]. intros _. by destruct (buf w). }
  pose proof (conn_Write_spec w cap (buf w) "") as Hs. rewrite string_app_nil_r in Hs.
  specialize (Hs Hw Hf). destruct (conn_Write w (buf w)) as [n ok] eqn:E.
  destruct Hs as (Hn & Hok & Hw' & Hd & Hall). rewrite string_app_nil_r in Hw'.
  destruct ok; cbn [negb] in *.
  - specialize (Hall eq_refl). assert (drop_bytes n (buf w) = "") as Hdr.
    { destruct (drop_bytes n (buf w)) as [|c d]; [done|]. rewrite len_cons in Hd.
      pose proof (len_nonneg d). lia. }
    rewrite Hdr in Hw'. unfold took in *. cbn [out room failed] in *. rewrite Hf. done.
  - split; [|split; [done|split; [done|]]].
    + destruct Hw' as [H1 H2 H3 H4 H5]. split; cbn [out room buf failed] in *; try done.
      destruct Hw. lia.
    + intros Hle. apply Z.leb_le in Hle. congruence.
Qed.

(** The result of writing [t] is a writer whose unsent text is its buffer,
    unless the connection failed. *)
Definition written (w : option Writer) (cap : Z) (t : string) : Prop :=
  ∃ w' rest, w = Some w' ∧ writing w' cap t rest ∧ (failed w' = false → rest = buf w').

Lemma write_loop_last k w cap t p : writing w cap t (buf w +:+ p) → failed w = false →
  GoStr.len p ≤ bufSize - GoStr.len (buf w) → written (write_loop (S k) w p) cap t.
Proof.
  intros Hw Hf Hfit. cbn [write_loop]. rewrite Hf.
  destruct (Z.ltb_spec (bufSize - GoStr.len (buf w)) (GoStr.len p)); [lia|]. cbn [andb].
  eexists _, _. split; [done|]. split; [|done]. destruct Hw as [H1 H2 H3 H4 H5].
  split; cbn [out room buf failed]; try done. rewrite len_app. lia.
Qed.

Lemma write_loop_failed k w cap t p rest : writing w cap t rest → failed w = true →
  written (write_loop (S k) w p) cap t.
Proof.
  intros Hw Hf. cbn [write_loop]. rewrite Hf, andb_false_r. exists w, rest. by rewrite Hf.
Qed.

Lemma write_loop_empty k w cap t p : writing w cap t p → failed w = false → buf w = "" →
  written (write_loop (S (S k)) w p) cap t.
Proof.
  intros Hw Hf Hb. destruct (Z_le_gt_dec (GoStr.len p) bufSize) as [Hle|Hgt].
  { apply (write_loop_last (S k)); [by rewrite Hb|done|]. rewrite Hb. change (GoStr.len "") with 0. lia. }
  remember (S k) as k' eqn:Hk. cbn [write_loop]. rewrite Hf, Hb. change (GoStr.len "") with 0.
  destruct (Z.ltb_spec (bufSize - 0) (GoStr.len p)); [|lia]. cbn [andb negb Z.eqb].
  pose proof (wr_text _ _ _ _ Hw) as <-. pose proof (conn_Write_spec w cap p "") as Hs.
  rewrite string_app_nil_r in Hs. specialize (Hs Hw Hf).
  destruct (conn_Write w p) as [n ok]. destruct Hs as (Hn & Hok & Hw' & Hd & Hall).
  rewrite string_app_nil_r in Hw'. unfold took in *. cbn [out room buf failed] in *. rewrite Hb.
  destruct ok; cbn [negb] in *.
  - specialize (Hall eq_refl). subst k'. apply (write_loop_last k); cbn [buf failed]; [done|done|].
    change (GoStr.len "") with 0. unfold bufSize. lia.
  - subst k'. by eapply (write_loop_failed k).
Qed.

Lemma buf_Write_spec w cap t p : writing w cap t (buf w) → failed w = false →
  written (Some (buf_Write w p)) cap (t +:+ p).
Proof.
  intros Hw Hf. assert (written (write_loop 3 w p) cap (t +:+ p)) as (w' & rest & E & Hr).
  2: { exists w', rest. unfold buf_Write. by rewrite E. }
  assert (Hw1 : writing w cap (t +:+ p) (buf w +:+ p)).
  { destruct Hw as [H1 H2 H3 H4 H5]. split; try done; [by rewrite <-string_app_assoc, H1|by rewrite Hf]. }
  destruct (Z_le_gt_dec (GoStr.len p) (bufSize - GoStr.len (buf w))) as [Hle|Hgt].
  { by apply (write_loop_last 2). }
  destruct (decide (buf w = "")) as [Hb|Hb].
  { apply (write_loop_empty 1); [|done|done]. by rewrite Hb in Hw1. }
  remember 2%nat as k' eqn:Hk. cbn [write_loop]. rewrite Hf. pose proof (len_nonneg p). pose proof (wr_buf _ _ _ _ Hw) as Hbl.
  destruct (Z.ltb_spec (bufSize - GoStr.len (buf w)) (GoStr.len p)); [|lia]. cbn [andb negb].
  destruct (Z.eqb_spec (GoStr.len (buf w)) 0) as [Hb0|Hb0]; [by destruct (buf w)|].
  set (a := bufSize - GoStr.len (buf w)) in *.
  set (q := String.substring 0 (Z.to_nat a) p).
  set (w1 := mkWriter (out w) (room w) (buf w +:+ q) false).
  assert (Hq : q +:+ drop_bytes a p = p) by apply take_drop_bytes.
  assert (Hw2 : writing w1 cap (t +:+ q) (buf w1)).
  { destruct Hw as [H1 H2 H3 H4 H5]. split; cbn [out room buf failed w1]; try done.
    - by rewrite <-string_app_assoc, H1.
    - rewrite len_app. unfold q. rewrite len_take by lia. lia. }
  pose proof (Flush_spec w1 cap _ Hw2 eq_refl) as Hfl. destruct (Flush w1) as [ok w2].
  destruct Hfl as (Hw3 & Hf2 & Hb2 & _). cbn [snd].
  assert (Hw4 : writing w2 cap (t +:+ p) (buf w2 +:+ drop_bytes a p)).
  { destruct Hw3 as [H1 H2 H3 H4 H5]. split; try done.
    - by rewrite <-string_app_assoc, H1, string_app_assoc, Hq.
    - intros [? Hne]%H5. split; [done|]. intros E. apply Hne. by destruct (buf w2). }
  subst k'. destruct ok; cbn [negb] in *.
  - rewrite Hb2 in Hw4 by done. by apply (write_loop_empty 0); [|done|apply Hb2].
  - by eapply (write_loop_failed 1).
Qed.

Lemma Write_spec w cap t v b : writing w cap t (buf w) → failed w = false → Resp v = Some b →
  ∃ ok w', WriteValue w v = Some (ok, w') ∧ failed w' = negb ok ∧
    (ok = true ↔ GoStr.len (t +:+ b) ≤ cap) ∧
    (ok = true → out w' = t +:+ b ∧ writing w' cap (t +:+ b) (buf w') ∧ buf w' = "") ∧
    ∃ unsent, out w' +:+ unsent = t +:+ b.
Proof.
  intros Hw Hf Hb. unfold WriteValue, Write. rewrite Hb. cbn [fmap option_fmap option_map].
  destruct (buf_Write_spec w cap t b Hw Hf) as (w1 & rest & [= ->] & Hw1 & Hr).
  assert (Hlen : ∀ w r, writing w cap (t +:+ b) r → GoStr.len (t +:+ b) = cap - room w + GoStr.len r).
  { intros w' r [H1 _ H3 _ _]. rewrite <-H1, len_app. lia. }
  destruct (failed w1) eqn:Hf1.
  - exists false, w1. unfold Flush. rewrite Hf1. split; [done|]. split; [done|].
    split; [|split; [done|exists rest; apply Hw1]]. split; [done|]. intros Hle.
    destruct (wr_live _ _ _ _ Hw1 Hf1) as [Hr0 Hne]. specialize (Hlen _ _ Hw1).
    destruct rest as [|c rest]; [done|]. rewrite len_cons in Hlen. pose proof (len_nonneg rest). lia.
  - rewrite Hr in Hw1 by done. pose proof (Flush_spec w1 cap _ Hw1 Hf1) as Hfl.
    destruct (Flush w1) as [ok w2]. destruct Hfl as (Hw2 & Hf2 & Hb2 & Hok).
    exists ok, w2. split; [done|]. split; [done|]. specialize (Hlen _ _ Hw2) as Hl2. split; [|split].
    + split.
      * intros Ht. rewrite (Hb2 Ht) in Hl2. change (GoStr.len "") with 0 in Hl2.
        pose proof (wr_room _ _ _ _ Hw2). lia.
      * intros Hle. destruct ok; [done|].
        destruct (wr_live _ _ _ _ Hw2 Hf2) as [Hr0 Hne].
        destruct (buf w2) as [|c r]; [done|]. rewrite len_cons in Hl2. pose proof (len_nonneg r). lia.
    + intros Ht. pose proof (wr_text _ _ _ _ Hw2) as E. rewrite (Hb2 Ht), string_app_nil_r in E.
      split; [done|]. split; [done|]. by apply Hb2.
    + exists (buf w2). apply Hw2.
Qed.

Lemma writing_New cap : 0 ≤ cap → writing (NewWriter cap) cap "" "".
Proof. intros Hc. split; try done. cbn. change (GoStr.len "") with 0. lia. Qed.

(** A connection's replies, one [WriteValue] each; stops at the first that
    fails. *)
Fixpoint write_all (w : Writer) (vs : list Value) : option Writer :=
  match vs with
  | [] => Some w
  | v :: vs' => '(ok, w') ← WriteValue w v; if (ok : bool) then write_all w' vs' else None
  end.

Lemma write_all_out w cap t vs w' : writing w cap t (buf w) → buf w = "" → failed w = false →
  write_all w vs = Some w' → ∃ es, concat_resp vs = Some es ∧ out w' = t +:+ es.
Proof.
  revert w t. induction vs as [|v vs IH]; intros w t Hw Hb Hf; simpl.
  { intros [= ->]. exists "". rewrite string_app_nil_r. split; [done|].
    pose proof (wr_text _ _ _ _ Hw) as E. by rewrite Hb, string_app_nil_r in E. }
  destruct (Resp v) as [b|] eqn:Hv; [|unfold WriteValue, Write; by rewrite Hv].
  destruct (Write_spec w cap t v b Hw Hf Hv) as (ok & w1 & -> & Hf1 & _ & Hok & _).
  cbn [mbind option_bind]. destruct ok; [|done]. destruct (Hok eq_refl) as (_ & Hw1 & Hb1).
  intros Hall. destruct (IH w1 _ Hw1 Hb1 Hf1 Hall) as (es & -> & ->).
  exists (b +:+ es). by rewrite string_app_assoc.
Qed.

(** ** Properties *)

(** The parser inverts the encoders: the encoding of any value whose texts
    have no line feed and whose sizes are within the protocol's limits is read
    back as that value, whatever follows it on the stream, and exactly its own
    bytes are consumed. *)
Theorem ReadValue_roundtrip end_ v b rest : wire_ok maxArrayDepth v = true → Resp v = Some b →
  ReadValue end_ (b +:+ rest) = inr (v, rest).
Proof. apply readValue_Resp. Qed.

(** The line reader, which collects 4096-byte buffer slices, terminates
    within 17 rounds on every stream and returns what the direct description
    of a line says: the text before the first CR LF when the line has at most
    65536 bytes, an error for a longer line, for a bare line feed and for a
    stream that ends first. *)
Theorem readLine_refines end_ s :
  readLine_loop end_ readLine_fuel "" s = Some (line_spec end_ s).
Proof. by apply (readLine_loop_spec end_ 16). Qed.


(** [WriteValue] delivers a value whole or reports failure: on a connection
    that takes [cap] bytes it succeeds exactly when everything written so far
    fits, then the connection has received all of it and nothing stays
    buffered; otherwise the error is sticky and the connection has received a
    prefix. *)
Theorem WriteValue_delivers w cap t v b : writing w cap t (buf w) → failed w = false → Resp v = Some b →
  ∃ ok w', WriteValue w v = Some (ok, w') ∧ (ok = true ↔ GoStr.len (t +:+ b) ≤ cap) ∧
    (ok = true → out w' = t +:+ b ∧ buf w' = "") ∧
    (ok = false → failed w' = true ∧ ∃ unsent, out w' +:+ unsent = t +:+ b) ∧
    (ok = false → ∀ v' r, WriteValue w' v' = Some r → r = (false, w')).
Proof.
  intros Hw Hf Hb. destruct (Write_spec w cap t v b Hw Hf Hb) as (ok & w' & E & Hfl & Hok & Hall & Hpre).
  exists ok, w'. split; [done|]. split; [done|]. split; [naive_solver|].
  split; intros ->; cbn [negb] in Hfl; [done|]. intros v' r. unfold WriteValue, Write.
  destruct (Resp v') as [b'|]; [|done]. cbn. unfold buf_Write. cbn [write_loop].
  rewrite Hfl, andb_false_r. cbn. unfold Flush. rewrite Hfl. by intros [= <-].
Qed.

(** C20: A pipelined exchange: values sent over one connection with
    [WriteValue], all writes succeeding, are read back by as many calls of
    [ReadValue], in order and with nothing left over.  The values are those of
    [wire_ok]: simple strings and errors have no line feed and
    keep the line limit, integers have 64 bits, bulk
    strings, arrays and their nesting keep the reader's limits, and there is no
    nil. *)
Theorem pipeline_roundtrip end_ cap vs w : 0 ≤ cap →
  forallb (wire_ok maxArrayDepth) vs = true → write_all (NewWriter cap) vs = Some w →
  read_elements (ReadValue end_) (length vs) 0 (out w) = inr (vs, "").
Proof.
  intros Hcap Hvs Hw. destruct (write_all_out _ cap "" _ _ (writing_New cap Hcap) eq_refl eq_refl Hw)
    as (es & Hes & ->).
  rewrite <-(string_app_nil_r ("" +:+ es)). apply read_elements_ok; [|done].
  apply Forall_forall. intros v Hv e r He. apply readValue_Resp; [|done].
  rewrite forallb_forall in Hvs. by apply Hvs, list_elem_of_In.
Qed.

(** ** Instances at concrete inputs *)

Module RespExamples.
Definition cmd : Value := Array [NewBulkString "SET"; NewBulkString "k"; Integer (-5); Array []].

Lemma ReadValue_roundtrip_witness :
  ReadValue EOF (default "" (Resp cmd) +:+ "+x") = inr (cmd, "+x").
Proof. apply (ReadValue_roundtrip EOF cmd); vm_compute; reflexivity. Defined.

Definition inline : string := "GET  key" +:+ CRLF.


Lemma WriteValue_delivers_witness :
  ∃ ok w', WriteValue (NewWriter 4) OK = Some (ok, w') ∧ (ok = true ↔ GoStr.len (("+OK" +:+ CRLF) : string) ≤ 4).
Proof.
  destruct (WriteValue_delivers (NewWriter 4) 4 "" OK ("+OK" +:+ CRLF)) as (ok & w' & E & H & _).
  - apply writing_New. lia.
  - reflexivity.
  - reflexivity.
  - exact (ex_intro _ ok (ex_intro _ w' (conj E H))).
Defined.

Lemma pipeline_roundtrip_witness :
  read_elements (ReadValue EOF) 2 0 (out (default (NewWriter 0) (write_all (NewWriter 100) [OK; cmd])))
  = inr ([OK; cmd], "").
Proof.
  apply (pipeline_roundtrip EOF 100 [OK; cmd]); [lia|vm_compute; reflexivity|vm_compute; reflexivity].
Defined.
End RespExamples.
