(* ===== verification/EventRing.v ===== *)
(** * internal/gossip/gossip.go: the event log

    [eventRing], a fixed-size circular buffer of cluster events, with the proof
    that it implements the list of the most recent events. *)

From S2P Require Import Prelude.
Local Open Scope Z_scope.

(** ** Data *)

(** A time stamp is the number of nanoseconds since the epoch. *)
Record ClusterEvent := mkClusterEvent {
  Timestamp : Z;
  Type_ : string;
  NodeName : string;
  Address : string;
  EvRedisAddr : string;
  Meta : string;
}.

#[export] Instance ClusterEvent_eq_dec : EqDecision ClusterEvent.
Proof. solve_decision. Defined.

Definition zeroEvent : ClusterEvent := mkClusterEvent 0 "" "" "" "" "".

Record eventRing := mkEventRing {
  ring_buf : list ClusterEvent;
  ring_pos : Z;
  ring_count : Z;
}.

Definition eventRingSize : Z := 200.

(** ** Operations *)

Definition newEventRing (capacity : Z) : eventRing :=
  mkEventRing (replicate (Z.to_nat capacity) zeroEvent) 0 0.

(** [None] is the panic of an index out of range. *)
Definition Push (r : eventRing) (e : ClusterEvent) : option eventRing :=
  let len := Z.of_nat (length (ring_buf r)) in
  if (0 <=? ring_pos r) && (ring_pos r <? len) then
    Some (mkEventRing (<[Z.to_nat (ring_pos r) := e]> (ring_buf r))
            ((ring_pos r + 1) mod len)
            (if ring_count r <? len then ring_count r + 1 else ring_count r))
  else None.

(** Go's [copy]: the number of elements copied and the destination. *)
Definition copy {A} (dst src : list A) : nat * list A :=
  (Nat.min (length dst) (length src), take (length dst) src ++ drop (length src) dst).

(** [None] is the panic of a slice bound out of range. *)
Definition Recent (r : eventRing) (n : Z) : option (list ClusterEvent) :=
  let n := if (n <=? 0) || (ring_count r <? n) then ring_count r else n in
  let len := Z.of_nat (length (ring_buf r)) in
  let out := replicate (Z.to_nat n) zeroEvent in
  let start := ring_pos r - n in
  if start <? 0 then
    if len + start <? 0 then None
    else
      let '(part, out) := copy out (drop (Z.to_nat (len + start)) (ring_buf r)) in
      Some (take part out ++
            (copy (drop part out) (take (Z.to_nat (ring_pos r)) (ring_buf r))).2)
  else
    Some (copy out (drop (Z.to_nat start) (take (Z.to_nat (ring_pos r)) (ring_buf r)))).2.

(** ** The abstract event log *)

(** The ring read from the oldest slot to the newest. *)
Definition view (r : eventRing) : list ClusterEvent :=
  drop (Z.to_nat (ring_pos r)) (ring_buf r) ++ take (Z.to_nat (ring_pos r)) (ring_buf r).

(** The ring [r] holds the last events of the history [es]. *)
Record logs (r : eventRing) (cap : Z) (es : list ClusterEvent) : Prop := {
  logs_len : Z.of_nat (length (ring_buf r)) = cap;
  logs_pos : 0 ≤ ring_pos r < cap;
  logs_count : ring_count r = Z.min (Z.of_nat (length es)) cap;
  logs_view : view r = drop (length es) (replicate (Z.to_nat cap) zeroEvent ++ es);
}.

Lemma logs_new cap : 0 < cap → logs (newEventRing cap) cap [].
Proof.
  intros Hc. split; cbn [newEventRing ring_buf ring_pos ring_count length].
  - rewrite length_replicate. lia.
  - lia.
  - lia.
  - unfold view. cbn [ring_buf ring_pos]. change (Z.to_nat 0) with 0%nat.
    by rewrite take_0, !drop_0, !app_nil_r.
Qed.

Lemma view_Push (buf : list ClusterEvent) e p : (p < length buf)%nat →
  let p' := if decide (S p = length buf) then 0%nat else S p in
  drop p' (<[p := e]> buf) ++ take p' (<[p := e]> buf) = drop 1 (drop p buf ++ take p buf) ++ [e].
Proof.
  intros Hp. cbv zeta. rewrite insert_take_drop by done.
  assert (Hd : drop 1 (drop p buf ++ take p buf) = drop (S p) buf ++ take p buf).
  { rewrite drop_app_le by (rewrite length_drop; lia). rewrite drop_drop. do 2 f_equal. lia. }
  rewrite Hd. case_decide as Hs.
  - rewrite drop_0, take_0, app_nil_r. rewrite (drop_ge buf) by lia. done.
  - rewrite (cons_middle e), app_assoc.
    assert (Hl : length (take p buf ++ [e]) = S p) by (rewrite length_app, length_take; simpl; lia).
    rewrite drop_app_length', take_app_length' by done. by rewrite <-app_assoc.
Qed.

Lemma logs_Push r cap es e : logs r cap es → ∃ r', Push r e = Some r' ∧ logs r' cap (es ++ [e]).
Proof.
  intros [Hl Hp Hc Hv]. unfold Push. rewrite Hl.
  destruct (Z.leb_spec 0 (ring_pos r)), (Z.ltb_spec (ring_pos r) cap); try lia. cbn [andb].
  eexists. split; [done|]. split; cbn [ring_buf ring_pos ring_count].
  - by rewrite length_insert.
  - apply Z.mod_pos_bound. lia.
  - rewrite length_app. cbn [length]. destruct (Z.ltb_spec (ring_count r) cap); lia.
  - unfold view in *. cbn [ring_buf ring_pos].
    pose proof (view_Push (ring_buf r) e (Z.to_nat (ring_pos r)) ltac:(lia)) as Hview.
    rewrite Hv in Hview.
    replace (Z.to_nat ((ring_pos r + 1) mod cap)) with
      (if decide (S (Z.to_nat (ring_pos r)) = length (ring_buf r)) then 0%nat else S (Z.to_nat (ring_pos r))).
    2: { case_decide as Hd.
         - replace (ring_pos r + 1) with cap by lia. by rewrite Z.mod_same by lia.
         - rewrite Z.mod_small by lia. lia. }
    etransitivity; [exact Hview|]. rewrite drop_drop.
    rewrite app_assoc, (length_app es). cbn [length].
    rewrite (drop_app_le _ [e]); [done|]. rewrite length_app, length_replicate. lia.
Qed.

Lemma copy_exact {A} (dst src : list A) : length src = length dst → (copy dst src).2 = src.
Proof.
  intros Hl. unfold copy. cbn [snd]. rewrite take_ge, drop_ge by lia. apply app_nil_r.
Qed.

Lemma logs_Recent r cap es n : logs r cap es →
  let m := if (n <=? 0) || (ring_count r <? n) then ring_count r else n in
  Recent r n = Some (drop (length es - Z.to_nat m) es).
Proof.
  intros [Hl Hp Hc Hv]. cbv zeta. unfold Recent.
  set (m := if (n <=? 0) || (ring_count r <? n) then ring_count r else n).
  assert (Hm : 0 ≤ m ≤ Z.min (Z.of_nat (length es)) cap).
  { unfold m. destruct (Z.leb_spec n 0); cbn [orb]; [lia|]. destruct (Z.ltb_spec (ring_count r) n); lia. }
  assert (Hspec : drop (length es - Z.to_nat m) es = drop (Z.to_nat (cap - m)) (view r)).
  { rewrite Hv, drop_drop. rewrite drop_app_ge by (rewrite length_replicate; lia).
    rewrite length_replicate. f_equal. lia. }
  rewrite Hspec, Hl. unfold view.
  set (p := Z.to_nat (ring_pos r)). set (buf := ring_buf r) in *.
  destruct (Z.ltb_spec (ring_pos r - m) 0) as [Hw|Hw].
  - destruct (Z.ltb_spec (cap + (ring_pos r - m)) 0); [lia|].
    unfold copy at 1. rewrite length_replicate, length_drop.
    rewrite (drop_app_le (drop p buf)) by (rewrite length_drop; lia). rewrite drop_drop.
    replace (p + Z.to_nat (cap - m))%nat with (Z.to_nat (cap + (ring_pos r - m))) by lia.
    set (src := drop (Z.to_nat (cap + (ring_pos r - m))) buf).
    assert (Hsrc : length src = (Z.to_nat m - p)%nat) by (unfold src; rewrite length_drop; lia).
    rewrite Nat.min_r by lia. replace (length buf - Z.to_nat (cap + (ring_pos r - m)))%nat with (length src)
      by (unfold src; by rewrite length_drop).
    rewrite (take_ge src) by lia. rewrite take_app_length, drop_app_length, copy_exact; [done|].
    rewrite length_take, length_drop, length_replicate. lia.
  - rewrite copy_exact; [|rewrite length_drop, length_take, length_replicate; lia].
    rewrite drop_app_ge by (rewrite length_drop; lia). rewrite length_drop. do 2 f_equal. lia.
Qed.

(** Pushing a sequence of events. *)
Fixpoint push_all (r : eventRing) (es : list ClusterEvent) : option eventRing :=
  match es with
  | [] => Some r
  | e :: es' => r' ← Push r e; push_all r' es'
  end.

Lemma logs_push_all r cap es es' : logs r cap es →
  ∃ r', push_all r es' = Some r' ∧ logs r' cap (es ++ es').
Proof.
  revert r es. induction es' as [|e es' IH]; intros r es Hr; simpl.
  { exists r. by rewrite app_nil_r. }
  destruct (logs_Push r cap es e Hr) as (r1 & -> & Hr1). simpl.
  destruct (IH r1 _ Hr1) as (r2 & -> & Hr2). exists r2. by rewrite <-app_assoc in Hr2.
Qed.

(** ** Property *)

(** C34: The circular buffer refines the list of all events pushed so far: no
    sequence of [Push] calls panics, and [Recent n] returns, oldest first, the
    last [n] events, or as many as are kept (the capacity at most) when [n] is
    not positive or exceeds them. *)
Theorem eventRing_refines cap es n : 0 < cap →
  ∃ r, push_all (newEventRing cap) es = Some r ∧
    let kept := Z.min (Z.of_nat (length es)) cap in
    let m := if (n <=? 0) || (kept <? n) then kept else n in
    Recent r n = Some (drop (length es - Z.to_nat m) es).
Proof.
  intros Hc. destruct (logs_push_all _ cap [] es (logs_new cap Hc)) as (r & Hr & Hlog).
  cbn [app] in Hlog. exists r. split; [done|]. cbv zeta. rewrite <-(logs_count _ _ _ Hlog).
  by apply (logs_Recent r cap).
Qed.

Module EventRingExamples.
Definition ev (s : string) : ClusterEvent := mkClusterEvent 0 "join" s "" "" "".

Lemma eventRing_refines_witness :
  ∃ r, push_all (newEventRing 2) [ev "a"; ev "b"; ev "c"] = Some r ∧
    Recent r 0 = Some [ev "b"; ev "c"].
Proof. exact (eventRing_refines 2 [ev "a"; ev "b"; ev "c"] 0 ltac:(lia)). Defined.
End EventRingExamples.
