(* ===== verification/RingInterface.v ===== *)
(** * The interface [hashring.Hashring]

    The gossip layer and the server use the ring through the Go interface
    [Hashring].  Its operations are the class [Hashring]; the promises that its
    clients rely on are the class [HashringLaws]; [consistent] shows that the
    implementation [consistentHashring] keeps them. *)

From S2P Require Import Prelude GoStrconv GoSort HashRing HashRingProps.
Local Open Scope Z_scope.

Class Hashring := {
  Ring : Type;
  ring_AddNode : Ring → string → string → Z → Ring;
  ring_RemoveNode : Ring → string → Ring;
  ring_GetNode : Ring → string → string * string;
  ring_GetReplicas : Ring → string → Z → list Replica;
  ring_GetSlotRanges : Ring → list SlotRange;
  ring_Nodes : Ring → list string;
  ring_RingSnapshot : Ring → list RingEntryInfo;
}.

(** What the ring promises: replica sets have no node twice and respect the
    count, the owner is the first replica, a node is answered with the address
    it was last added with, the slot table, unless it is empty, tiles the
    slots by their owners, and when a node leaves the other replicas of a key
    move up in order. *)
Class HashringLaws `{!Hashring} := {
  ring_ok : Ring → Prop;
  ring_ok_AddNode r id addr n : ring_ok r → ring_ok (ring_AddNode r id addr n);
  ring_ok_RemoveNode r id : ring_ok r → ring_ok (ring_RemoveNode r id);
  replicas_NoDup r key count : ring_ok r → NoDup (NodeID <$> ring_GetReplicas r key count);
  replicas_length r key count : ring_ok r →
    Z.of_nat (length (ring_GetReplicas r key count)) ≤ Z.max 0 count;
  replicas_owner r key count rep : ring_ok r → 0 < count →
    head (ring_GetReplicas r key count) = Some rep →
    ring_GetNode r key = (NodeID rep, Address rep);
  replicas_empty r key count : ring_ok r → 0 < count →
    ring_GetReplicas r key count = [] → ring_GetNode r key = ("", "");
  owner_address r id addr n key a : ring_ok r → id ≠ "" →
    ring_GetNode (ring_AddNode r id addr n) key = (id, a) → a = addr;
  slots_tile r : ring_ok r → ring_GetSlotRanges r ≠ [] →
    tiles (λ s, let '(id, a) := ring_GetNode r ("SLOT:" +:+ Itoa s) in mkReplica id a) 0 (ring_GetSlotRanges r) numSlots;
  replicas_remove r id key count : ring_ok r → 0 < count →
    List.filter (λ rep, negb (String.eqb (NodeID rep) id)) (ring_GetReplicas r key count)
      `prefix_of` ring_GetReplicas (ring_RemoveNode r id) key count;
}.

Section implementation.
Context `{!XXHash, !SliceSort}.

Definition consistent : Hashring := {|
  Ring := consistentHashring;
  ring_AddNode := AddNode;
  ring_RemoveNode := RemoveNode;
  ring_GetNode := GetNode;
  ring_GetReplicas := GetReplicas;
  ring_GetSlotRanges := GetSlotRanges;
  ring_Nodes := Nodes;
  ring_RingSnapshot := RingSnapshot;
|}.

Lemma GetReplicas_nonpos r key count : count ≤ 0 → GetReplicas r key count = [].
Proof.
  intros Hc. unfold GetReplicas. destruct (entries r); [done|].
  by destruct (Z.leb_spec count 0); [|lia].
Qed.

Lemma consistent_slots_nonempty (r : consistentHashring) : entries r ≠ [] → @ring_GetSlotRanges consistent r ≠ [].
Proof. cbn [ring_GetSlotRanges consistent]. exact (GetSlotRanges_nonempty r). Qed.

Context `{!SliceSortLaws}.

#[refine] Definition consistent_laws : @HashringLaws consistent := {|
  ring_ok := λ r : @Ring consistent, ∃ M, ring_repr r M;
|}.
Proof.
  - intros r id addr n [M Hr]. eexists. by apply AddNode_repr.
  - intros r id [M Hr]. eexists. by apply RemoveNode_repr.
  - intros r key count [M Hr]. cbn [ring_GetReplicas consistent].
    destruct (Z_lt_le_dec 0 count) as [Hc|Hc]; [|rewrite GetReplicas_nonpos by done; constructor].
    rewrite GetReplicas_walk by (done || by apply (repr_sorted _ _ Hr)).
    rewrite fmap_take, <-list_fmap_compose. change (NodeID ∘ to_replica) with nodeID.
    set (w := clockwise _ _). eapply sublist_NoDup; [apply (proj1 (distinct_NoDup ∅ w))|apply sublist_take].
  - intros r key count [M Hr]. cbn [ring_GetReplicas consistent].
    destruct (Z_lt_le_dec 0 count) as [Hc|Hc]; [|rewrite GetReplicas_nonpos by done; simpl; lia].
    rewrite GetReplicas_walk by (done || by apply (repr_sorted _ _ Hr)).
    rewrite length_take. lia.
  - intros r key count rep [M Hr] Hc. cbn [ring_GetReplicas ring_GetNode consistent].
    pose proof (repr_sorted _ _ Hr) as Hs.
    rewrite GetReplicas_walk, GetNode_successor, <-clockwise_head by done.
    destruct (Z.to_nat count) eqn:?; [lia|].
    destruct (clockwise (entries r) (hashKey key)) as [|e w]; [done|]. simpl.
    rewrite decide_False by set_solver. by intros [= <-].
  - intros r key count [M Hr] Hc. cbn [ring_GetReplicas ring_GetNode consistent].
    pose proof (repr_sorted _ _ Hr) as Hs.
    rewrite GetReplicas_walk, GetNode_successor, <-clockwise_head by done.
    destruct (Z.to_nat count) eqn:?; [lia|].
    destruct (clockwise (entries r) (hashKey key)) as [|e w]; [done|]. simpl.
    by rewrite decide_False by set_solver.
  - intros r id addr n key a [M Hr] Hid. cbn [ring_GetNode ring_AddNode consistent].
    pose proof (AddNode_repr r M id addr n Hr) as Hr'.
    rewrite GetNode_successor by apply (repr_sorted _ _ Hr').
    destruct (successor _ _) as [e|] eqn:He; [|by intros [= <-]]. intros [= <- <-].
    apply successor_elem, (repr_elem _ _ _ Hr') in He as (m & HM & _).
    rewrite lookup_insert_eq in HM. by injection HM.
  - intros r [M Hr]. cbn [ring_GetSlotRanges ring_GetNode consistent]. intros Hne.
    apply (GetSlotRanges_tiles r M); [done|]. intros E. destruct Hne. unfold GetSlotRanges. by rewrite E.
  - intros r id key count [M Hr]. cbn [ring_GetReplicas ring_RemoveNode consistent]. by apply (GetReplicas_remove r M).
Defined.
End implementation.
