(* ===== verification/GoUtf8.v ===== *)
(** * UTF-8 validity, as [utf8.ValidString] has it *)

From S2P Require Import Prelude GoStrconv.
Local Open Scope Z_scope.

(** The number of continuation bytes after a lead byte and the range of the
    first of them (overlong forms, surrogates and code points past U+10FFFF
    are excluded by it). *)
Definition utf8_lead (b : Z) : option (nat * Z * Z) :=
  if b <? 0x80 then Some (0%nat, 0, 0)
  else if (0xC2 <=? b) && (b <=? 0xDF) then Some (1%nat, 0x80, 0xBF)
  else if b =? 0xE0 then Some (2%nat, 0xA0, 0xBF)
  else if b =? 0xED then Some (2%nat, 0x80, 0x9F)
  else if (0xE1 <=? b) && (b <=? 0xEF) then Some (2%nat, 0x80, 0xBF)
  else if b =? 0xF0 then Some (3%nat, 0x90, 0xBF)
  else if (0xF1 <=? b) && (b <=? 0xF3) then Some (3%nat, 0x80, 0xBF)
  else if b =? 0xF4 then Some (3%nat, 0x80, 0x8F)
  else None.

(** [todo] continuation bytes are still due, the next one from [lo] to [hi]. *)
Fixpoint valid_loop (s : string) (todo : nat) (lo hi : Z) : bool :=
  match s with
  | EmptyString => (todo =? 0)%nat
  | String c s' =>
      let b := byte_val c in
      match todo with
      | O => match utf8_lead b with
             | Some (n, lo', hi') => valid_loop s' n lo' hi'
             | None => false
             end
      | S n => (lo <=? b) && (b <=? hi) && valid_loop s' n 0x80 0xBF
      end
  end.

Definition ValidString (s : string) : bool := valid_loop s 0 0 0.

Example ValidString_examples :
  (ValidString "plain", ValidString (String "195" (String "169" "")),
   ValidString (String "255" ""), ValidString (String "237" (String "160" (String "128" ""))))
  = (true, true, false, false).
Proof. vm_compute. reflexivity. Qed.
