(* ===== verification/Gossip.v ===== *)
(** * internal/gossip: replication over the gossip transport

    The model of [gossip.Handler]: the messages, the transport callbacks, the
    quorum write, anti-entropy and joining.

    Not in the repository, and therefore parameters: protobuf
    ([proto.Marshal]/[proto.Unmarshal], class [Proto]), the identifiers of
    google/uuid (an argument), the answers of the transport and of the clock
    (arguments).  The store and the ring are shared references in the source;
    the handler's record owns them here, and whoever else uses them takes them
    from it.  Messages accepted by the transport are collected in an outbox of
    (destination, bytes). *)

From S2P Require Import Prelude GoStrconv GoSort GoUtf8 BTree Store HashRing RingInterface EventRing.
Local Open Scope Z_scope.

(** ** Messages (gossip.proto) *)

Record pbEntry := mkPbEntry {
  pb_Key : string;
  pb_Value : string;
  pb_Version : Z;
  pb_Origin : string;
  pb_Deleted : bool;
}.

Record ReplicateRequest := mkReplicateRequest {
  req_RequestId : string;
  req_SenderId : string;
  req_Entries : list pbEntry;
}.

Record ReplicateResponse := mkReplicateResponse {
  resp_RequestId : string;
  resp_NodeId : string;
  resp_Success : bool;
}.

(** The [oneof] of [GossipMessage]; [NoPayload] is an empty envelope. *)
Inductive GossipMessage :=
  | EntryBatch (entries : list pbEntry)
  | ReplicateReq (req : ReplicateRequest)
  | ReplicateResp (resp : ReplicateResponse)
  | NoPayload.

#[export] Instance pbEntry_eq_dec : EqDecision pbEntry.
Proof. solve_decision. Defined.
#[export] Instance ReplicateRequest_eq_dec : EqDecision ReplicateRequest.
Proof. solve_decision. Defined.
#[export] Instance ReplicateResponse_eq_dec : EqDecision ReplicateResponse.
Proof. solve_decision. Defined.
#[export] Instance GossipMessage_eq_dec : EqDecision GossipMessage.
Proof. solve_decision. Defined.

Definition to_pb (k : string) (e : Entry) : pbEntry :=
  mkPbEntry k (Value e) (Version e) (Origin e) (Deleted e).
Definition of_pb (p : pbEntry) : Entry :=
  mkEntry (pb_Value p) (pb_Version p) (pb_Origin p) (pb_Deleted p).

(** The string fields of a message are valid UTF-8. *)
Definition entry_utf8 (p : pbEntry) : bool :=
  ValidString (pb_Key p) && ValidString (pb_Value p) && ValidString (pb_Origin p).
Definition message_utf8 (m : GossipMessage) : bool :=
  match m with
  | EntryBatch es => forallb entry_utf8 es
  | ReplicateReq r => ValidString (req_RequestId r) && ValidString (req_SenderId r) &&
                      forallb entry_utf8 (req_Entries r)
  | ReplicateResp r => ValidString (resp_RequestId r) && ValidString (resp_NodeId r)
  | NoPayload => true
  end.

(** The entries a message carries, and that their versions are [int64]. *)
Definition message_entries (m : GossipMessage) : list pbEntry :=
  match m with EntryBatch es => es | ReplicateReq r => req_Entries r | _ => [] end.
Definition message_int64 (m : GossipMessage) : bool :=
  forallb (λ e, bool_decide (in_int64 (pb_Version e))) (message_entries m).

(** Protocol buffers; [None] is an error, whose text is [MarshalError]. *)
Class Proto := {
  Marshal : GossipMessage → option string;
  MarshalError : GossipMessage → string;
  Unmarshal : string → option GossipMessage;
  MarshalMeta : string → option string;
  UnmarshalMeta : string → option string;
}.

(** Documented behaviour: a [string] field must be valid UTF-8, a message that
    was encoded is decoded to itself, and an [int64] field decodes to an
    [int64]. *)
Class ProtoLaws `{!Proto} : Prop := {
  Marshal_utf8 m : is_Some (Marshal m) ↔ message_utf8 m = true;
  Unmarshal_Marshal m b : Marshal m = Some b → message_int64 m = true → Unmarshal b = Some m;
  Unmarshal_int64 m b : Unmarshal b = Some m → message_int64 m = true;
  MarshalMeta_utf8 a : is_Some (MarshalMeta a) ↔ ValidString a = true;
  UnmarshalMeta_Marshal a b : MarshalMeta a = Some b → UnmarshalMeta b = Some a;
}.

(** The order in which a [range] loop visits a Go map, which is unspecified. *)
Class MapRange := range_map : gmap string Entry → list (string * Entry).
Class MapRangeLaws `{!MapRange} : Prop := range_map_perm m : range_map m ≡ₚ map_to_list m.

(** ** State *)

Record MemberInfo := mkMemberInfo {
  mi_Name : string;
  mi_RedisAddr : string;
  mi_Addr : string;
  mi_Status : string;
}.

Record Config := mkConfig {
  cfg_NodeID : string;
  cfg_RedisAddr : string;
  cfg_ReplicaRF : Z;
  cfg_WriteConcern : Z;
  cfg_AntiEntropySec : Z;
}.

(** [err] of the source is an error text or nil. *)
Record ackResult := mkAck { ack_nodeID : string; ack_err : option string }.

(** A buffered channel. *)
Record chan (A : Type) := mkChan { ch_cap : Z; ch_queue : list A }.
Arguments mkChan {A} _ _.
Arguments ch_cap {A} _.
Arguments ch_queue {A} _.

(** The non-blocking send of a [select] with a default branch. *)
Definition try_send {A} (c : chan A) (x : A) : chan A :=
  if Z.of_nat (length (ch_queue c)) <? ch_cap c then mkChan (ch_cap c) (ch_queue c ++ [x]) else c.

Definition Packet : Type := string * string.

Section handler.
Context `{!BTreeOps item, !Hashring, !Proto, !SliceSort, !MapRange}.

Record Handler := mkHandler {
  cfg : Config;
  localID : string;
  h_store : Store;
  h_ring : Ring;
  events : eventRing;
  subNext : Z;
  subscribers : gmap Z (chan ClusterEvent);
  pendingReqs : gmap string (chan ackResult);
  antiEntropyPos : Z;
}.

(** Field updates. *)
Definition with_store (h : Handler) (s : Store) : Handler :=
  mkHandler (cfg h) (localID h) s (h_ring h) (events h) (subNext h) (subscribers h)
    (pendingReqs h) (antiEntropyPos h).
Definition with_ring (h : Handler) (r : Ring) : Handler :=
  mkHandler (cfg h) (localID h) (h_store h) r (events h) (subNext h) (subscribers h)
    (pendingReqs h) (antiEntropyPos h).
Definition with_pending (h : Handler) (p : gmap string (chan ackResult)) : Handler :=
  mkHandler (cfg h) (localID h) (h_store h) (h_ring h) (events h) (subNext h) (subscribers h)
    p (antiEntropyPos h).
Definition with_events (h : Handler) (es : eventRing) (subs : gmap Z (chan ClusterEvent)) : Handler :=
  mkHandler (cfg h) (localID h) (h_store h) (h_ring h) es (subNext h) subs
    (pendingReqs h) (antiEntropyPos h).

(** [NodeID()], which asks the transport; the transport's name is the
    configured one. *)
Definition NodeID_ (h : Handler) : string := localID h.

(** ** Construction *)

(** [New]: the write concern defaults to all replicas. *)
Definition New (c : Config) (s : Store) (r : Ring) : Handler :=
  let w := if (cfg_WriteConcern c <=? 0) || (cfg_ReplicaRF c <? cfg_WriteConcern c)
           then cfg_ReplicaRF c else cfg_WriteConcern c in
  mkHandler (mkConfig (cfg_NodeID c) (cfg_RedisAddr c) (cfg_ReplicaRF c) w (cfg_AntiEntropySec c))
    (cfg_NodeID c) s r (newEventRing eventRingSize) 0 ∅ ∅ 0.

(** ** Events *)

(** [None] is a panic of the ring buffer. *)
Definition PushEvent (h : Handler) (e : ClusterEvent) : option Handler :=
  es ← Push (events h) e;
  Some (with_events h es ((λ c, try_send c e) <$> subscribers h)).

(** [Subscribe]; the returned closure is [Unsubscribe] of the identifier. *)
Definition Subscribe (h : Handler) (c : chan ClusterEvent) : Z * Handler :=
  let id := subNext h in
  (id, mkHandler (cfg h) (localID h) (h_store h) (h_ring h) (events h) (subNext h + 1)
         (<[id := c]> (subscribers h)) (pendingReqs h) (antiEntropyPos h)).

Definition Unsubscribe (h : Handler) (id : Z) : Handler :=
  with_events h (events h) (delete id (subscribers h)).

Definition RecentEvents (h : Handler) (n : Z) : option (list ClusterEvent) := Recent (events h) n.

(** ** Membership callbacks; [now] is the clock *)

Definition handleJoin (h : Handler) (now : Z) (id redisAddr : string) : option Handler :=
  PushEvent (with_ring h (ring_AddNode (h_ring h) id redisAddr 256))
    (mkClusterEvent now "join" id "" redisAddr "").

Definition handleLeave (h : Handler) (now : Z) (id : string) : option Handler :=
  PushEvent (with_ring h (ring_RemoveNode (h_ring h) id)) (mkClusterEvent now "leave" id "" "" "").

Definition handleUpdate (h : Handler) (now : Z) (id redisAddr : string) : option Handler :=
  PushEvent h (mkClusterEvent now "update" id "" redisAddr "").

(** ** Replication handlers *)

(** The loop that looks for this node among a key's replicas. *)
Definition isReplica (h : Handler) (key : string) : bool :=
  existsb (λ r, String.eqb (NodeID r) (NodeID_ h))
    (ring_GetReplicas (h_ring h) key (cfg_ReplicaRF (cfg h))).

Definition apply_entry (h : Handler) (e : pbEntry) : Handler :=
  with_store h (SetWithVersion (h_store h) (pb_Key e) (of_pb e)).2.

Definition HandleReplication (h : Handler) (entries : list pbEntry) : Handler :=
  fold_left (λ h e, if negb (isReplica h (pb_Key e)) then h else apply_entry h e) entries h.

(** The loop of [handleReplicateRequest]: it stops at the first entry this
    node is not a replica of. *)
Fixpoint apply_request (h : Handler) (entries : list pbEntry) : bool * Handler :=
  match entries with
  | [] => (true, h)
  | e :: entries' =>
      if negb (isReplica h (pb_Key e)) then (false, h)
      else apply_request (apply_entry h e) entries'
  end.

(** [send_ok] is the transport's answer for a destination. *)
Definition handleReplicateRequest (h : Handler) (send_ok : string → bool) (req : ReplicateRequest)
    : Handler * list Packet :=
  let '(success, h) := apply_request h (req_Entries req) in
  match Marshal (ReplicateResp (mkReplicateResponse (req_RequestId req) (NodeID_ h) success)) with
  | None => (h, [])
  | Some buf => (h, if send_ok (req_SenderId req) then [(req_SenderId req, buf)] else [])
  end.

Definition handleReplicateResponse (h : Handler) (resp : ReplicateResponse) : Handler :=
  match pendingReqs h !! resp_RequestId resp with
  | None => h
  | Some ch =>
      let err := if resp_Success resp then None
                 else Some ("replica " +:+ resp_NodeId resp +:+ " rejected write") in
      with_pending h (<[resp_RequestId resp := try_send ch (mkAck (resp_NodeId resp) err)]> (pendingReqs h))
  end.

Definition handleMessage (h : Handler) (send_ok : string → bool) (buf : string) : Handler * list Packet :=
  match Unmarshal buf with
  | None => (h, [])
  | Some (EntryBatch es) => (HandleReplication h es, [])
  | Some (ReplicateReq req) => handleReplicateRequest h send_ok req
  | Some (ReplicateResp resp) => (handleReplicateResponse h resp, [])
  | Some NoPayload => (h, [])
  end.

(** ** The quorum write *)

Inductive QuorumError :=
  | NotReachable (available need : Z)
  | MarshalFailed (why : string)
  | NotSent (reachable need : Z)
  | NotReached (acks need : Z).

(** The text of the error. *)
Definition QuorumError_text (e : QuorumError) : string :=
  match e with
  | NotReachable n w => "quorum not reachable: " +:+ Itoa n +:+ " replicas available, need " +:+ Itoa w
  | MarshalFailed why => "marshal replicate request: " +:+ why
  | NotSent n w => "quorum not reachable: " +:+ Itoa n +:+ " replicas reachable, need " +:+ Itoa w
  | NotReached n w => "quorum not reached: " +:+ Itoa n +:+ "/" +:+ Itoa w +:+ " ACKs after 2s"
  end.

(** The locals of a call that waits for acknowledgements. *)
Record Call := mkCall {
  call_id : string;
  call_w : Z;
  call_expected : gset string;
  call_acked : gset string;
  call_acks : Z;
}.

(** What a call has come to: it has returned, with an error or nil, or it
    waits. *)
Inductive Progress := Returned (err : option QuorumError) | Waiting (c : Call).

Definition remoteNodes (h : Handler) (key : string) : list Replica :=
  List.filter (λ r, negb (String.eqb (NodeID r) (NodeID_ h)))
    (ring_GetReplicas (h_ring h) key (cfg_ReplicaRF (cfg h))).

(** The destinations that accept the request, in order. *)
Definition reachable (send_ok : string → bool) (remote : list Replica) : list string :=
  List.filter send_ok (NodeID <$> remote).

(** [ReplicateWithQuorum] up to its wait: apply locally, check that enough
    replicas exist, register the request and send it.  [uuid] is the fresh
    request identifier. *)
Definition replicate_begin (h : Handler) (uuid : string) (send_ok : string → bool)
    (key : string) (entry : Entry) (w : Z) : Handler * list Packet * Progress :=
  let h := with_store h (SetWithVersion (h_store h) key entry).2 in
  if w <=? 1 then (h, [], Returned None)
  else
    let remote := remoteNodes h key in
    let n := Z.of_nat (length remote) in
    if n + 1 <? w then (h, [], Returned (Some (NotReachable (n + 1) w)))
    else
      let req := ReplicateReq (mkReplicateRequest uuid (NodeID_ h) [to_pb key entry]) in
      match Marshal req with
      | None => (h, [], Returned (Some (MarshalFailed (MarshalError req))))
      | Some reqBuf =>
          let h := with_pending h (<[uuid := mkChan n []]> (pendingReqs h)) in
          let dests := reachable send_ok remote in
          let packets := (λ d, (d, reqBuf)) <$> dests in
          let sent := Z.of_nat (length dests) in
          if sent + 1 <? w then
            (with_pending h (delete uuid (pendingReqs h)), packets, Returned (Some (NotSent (sent + 1) w)))
          else (h, packets, Waiting (mkCall uuid w (list_to_set dests) ∅ 1))
      end.

(** One acknowledgement taken from the channel. *)
Definition count_ack (c : Call) (res : ackResult) : Call :=
  if bool_decide (ack_nodeID res ∈ call_expected c) && bool_decide (ack_err res = None) then
    if bool_decide (ack_nodeID res ∈ call_acked c) then c
    else mkCall (call_id c) (call_w c) (call_expected c) ({[ack_nodeID res]} ∪ call_acked c)
           (call_acks c + 1)
  else c.

(** The loop condition after an acknowledgement. *)
Definition call_progress (c : Call) : Progress :=
  if call_acks c <? call_w c then Waiting c else Returned None.

(** Removing the request when the call returns. *)
Definition call_done (h : Handler) (c : Call) : Handler :=
  with_pending h (delete (call_id c) (pendingReqs h)).

(** The call receives the next acknowledgement of its channel; [None] when the
    channel is empty. *)
Definition replicate_recv (h : Handler) (c : Call) : option (Handler * Progress) :=
  ch ← pendingReqs h !! call_id c;
  match ch_queue ch with
  | [] => None
  | res :: q =>
      let h := with_pending h (<[call_id c := mkChan (ch_cap ch) q]> (pendingReqs h)) in
      match call_progress (count_ack c res) with
      | Waiting c' => Some (h, Waiting c')
      | Returned e => Some (call_done h c, Returned e)
      end
  end.

(** The deadline passes first. *)
Definition replicate_deadline (h : Handler) (c : Call) : Handler * Progress :=
  (call_done h c, Returned (Some (NotReached (call_acks c) (call_w c)))).

(** The wait for a given sequence of received acknowledgements, followed by
    the deadline. *)
Fixpoint wait_acks (c : Call) (acks : list ackResult) : option QuorumError :=
  match acks with
  | [] => Some (NotReached (call_acks c) (call_w c))
  | res :: acks' =>
      match call_progress (count_ack c res) with
      | Returned e => e
      | Waiting c' => wait_acks c' acks'
      end
  end.

(** The whole call for a given sequence of received acknowledgements. *)
Definition ReplicateWithQuorum (h : Handler) (uuid : string) (send_ok : string → bool)
    (acks : list ackResult) (key : string) (entry : Entry) (w : Z)
    : Handler * list Packet * option QuorumError :=
  match replicate_begin h uuid send_ok key entry w with
  | (h, packets, Returned e) => (h, packets, e)
  | (h, packets, Waiting c) => (call_done h c, packets, wait_acks c acks)
  end.

(** ** Anti-entropy *)

Definition serializeStore (h : Handler) : option GossipMessage :=
  let snap := Snapshot (h_store h) in
  if (size snap =? 0)%nat then None
  else Some (EntryBatch ((λ ke, to_pb ke.1 ke.2) <$> range_map snap)).

Definition member_less (a b : MemberInfo) : bool := GoStr.ltb (mi_Name a) (mi_Name b).

(** The members other than this node, sorted by name. *)
Definition peers (h : Handler) (members : list MemberInfo) : list MemberInfo :=
  Slice member_less (List.filter (λ m, negb (String.eqb (mi_Name m) (NodeID_ h))) members).

(** One round of anti-entropy: the next peer in turn gets the snapshot. *)
Definition exchangeState (h : Handler) (members : list MemberInfo) (send_ok : string → bool)
    : Handler * list Packet :=
  match serializeStore h with
  | None => (h, [])
  | Some snapshot =>
      if Z.of_nat (length members) <=? 1 then (h, [])
      else
        let ps := peers h members in
        let n := Z.of_nat (length ps) in
        if n =? 0 then (h, [])
        else
          let index := antiEntropyPos h mod n in
          let h' := mkHandler (cfg h) (localID h) (h_store h) (h_ring h) (events h) (subNext h)
                      (subscribers h) (pendingReqs h) ((index + 1) mod n) in
          match ps !! Z.to_nat index, Marshal snapshot with
          | Some peer, Some buf =>
              (h', if send_ok (mi_Name peer) then [(mi_Name peer, buf)] else [])
          | _, _ => (h', [])
          end
  end.

Definition handleLocalState (h : Handler) : option string :=
  snapshot ← serializeStore h; Marshal snapshot.

Definition handleMergeRemoteState (h : Handler) (buf : string) : Handler :=
  match Unmarshal buf with
  | Some (EntryBatch es) => HandleReplication h es
  | _ => h
  end.

(** ** Joining *)

(** What happens at one tick of the retry loop: the number of members the
    transport knows, the answer of the discoverer, the answer of [Join]. *)
Record Tick := mkTick { tick_members : Z; tick_discover : list string * option string; tick_join_ok : bool }.

(** The events that wake the retry loop. *)
Inductive RetryEvent := Stop | OnTick (t : Tick).

(** The seed lists passed to [Join] and whether the loop has ended. *)
Fixpoint retry_loop (evs : list RetryEvent) : list (list string) * bool :=
  match evs with
  | [] => ([], false)
  | Stop :: _ => ([], true)
  | OnTick t :: evs' =>
      if 1 <? tick_members t then ([], true)
      else
        let '(seeds, err) := tick_discover t in
        match err with
        | Some _ => retry_loop evs'
        | None =>
            match seeds with
            | [] => retry_loop evs'
            | _ :: _ => if tick_join_ok t then ([seeds], true)
                        else let '(js, fin) := retry_loop evs' in (seeds :: js, fin)
            end
        end
  end.

Definition retryJoin (seeds : list string) (members : Z) (evs : list RetryEvent) : list (list string) * bool :=
  match seeds with
  | [] => ([], true)
  | _ :: _ => if 1 <? members then ([], true) else retry_loop evs
  end.

(** [Start]: the anti-entropy interval defaults to 30 s; the initial join,
    whose outcome is only logged; the retry loop, which first looks at the
    number of [members] the transport knows.  The result is [None] when the
    transport does not start, else the handler and the seed lists passed to
    [Join]. *)
Definition Start (h : Handler) (transport_ok : bool) (discoverer : option (list string * option string))
    (members : Z) (evs : list RetryEvent) : option (Handler * list (list string)) :=
  let c := cfg h in
  let sec := if cfg_AntiEntropySec c <=? 0 then 30 else cfg_AntiEntropySec c in
  let h := mkHandler (mkConfig (cfg_NodeID c) (cfg_RedisAddr c) (cfg_ReplicaRF c) (cfg_WriteConcern c) sec)
             (localID h) (h_store h) (h_ring h) (events h) (subNext h) (subscribers h)
             (pendingReqs h) (antiEntropyPos h) in
  if negb transport_ok then None
  else match discoverer with
       | None => Some (h, [])
       | Some (seeds, err) =>
           let first := match err, seeds with None, _ :: _ => [seeds] | _, _ => [] end in
           Some (h, first ++ (retryJoin seeds members evs).1)
       end.

Definition KeyCount (h : Handler) : Z := Store.Len (h_store h).

(** [DecodeMetaRedisAddr]. *)
Definition DecodeMetaRedisAddr (meta : string) : string :=
  if GoStr.len meta =? 0 then ""
  else match UnmarshalMeta meta with Some a => a | None => "" end.
End handler.
Arguments Handler {_ _}.
