(* ===== verification/Instances.v ===== *)
(** * Concrete parameters

    A serialization that satisfies the laws assumed of protocol buffers, a map
    order, a hash function and with them a complete instance of every
    parameter of the gossip layer, used to evaluate the model and to apply its
    theorems at concrete inputs. *)

From S2P Require Import Prelude GoStrconv GoSort GoUtf8 BTree Store HashRing HashRingProps.
From S2P Require Import RingInterface GoCrypto EventRing Gossip.
Local Open Scope Z_scope.

(** ** Serialization *)

#[export] Instance pbEntry_countable : Countable pbEntry.
Proof.
  refine (inj_countable' (λ e, (pb_Key e, pb_Value e, pb_Version e, pb_Origin e, pb_Deleted e))
    (λ '(k, v, n, o, d), mkPbEntry k v n o d) _). by intros [].
Defined.

#[export] Instance GossipMessage_countable : Countable GossipMessage.
Proof.
  refine (inj_countable'
    (λ m, match m with
          | EntryBatch es => inl (inl es)
          | ReplicateReq (mkReplicateRequest i s es) => inl (inr (i, s, es))
          | ReplicateResp (mkReplicateResponse i n s) => inr (inl (i, n, s))
          | NoPayload => inr (inr tt)
          end)
    (λ s, match s with
          | inl (inl es) => EntryBatch es
          | inl (inr (i, s, es)) => ReplicateReq (mkReplicateRequest i s es)
          | inr (inl (i, n, s)) => ReplicateResp (mkReplicateResponse i n s)
          | inr (inr tt) => NoPayload
          end) _).
  by intros [es|[]|[]|].
Defined.

Fixpoint bits (p : positive) : string :=
  match p with
  | xH => ""
  | xO p' => String "0" (bits p')
  | xI p' => String "1" (bits p')
  end.

Fixpoint unbits (s : string) : positive :=
  match s with
  | EmptyString => xH
  | String "1" s' => xI (unbits s')
  | String _ s' => xO (unbits s')
  end.

Lemma unbits_bits p : unbits (bits p) = p.
Proof. induction p as [p IH|p IH|]; simpl; [by rewrite IH|by rewrite IH|done]. Qed.

Definition demo_proto : Proto := {|
  Marshal m := if message_utf8 m then Some (bits (encode m)) else None;
  MarshalError m := "string field contains invalid UTF-8";
  Unmarshal b := m ← decode (unbits b); if message_int64 m then Some m else None;
  MarshalMeta a := if ValidString a then Some (String "1" a) else None;
  UnmarshalMeta b := match b with String "1" a => Some a | _ => None end;
|}.

Lemma is_Some_if {A} (b : bool) (x : A) : is_Some (if b then Some x else None) ↔ b = true.
Proof. destruct b; [by split; [|eexists]|split; [by intros []|done]]. Qed.

Lemma demo_proto_laws : @ProtoLaws demo_proto.
Proof.
  split; cbn.
  - intros m. apply is_Some_if.
  - intros m b. destruct (message_utf8 m); [|done]. intros [= <-] Hi.
    rewrite unbits_bits, decode_encode. cbn. by rewrite Hi.
  - intros m b. destruct (decode (unbits b)) as [m'|]; [|done]. cbn.
    destruct (message_int64 m') eqn:E; [|done]. by intros [= <-].
  - intros a. apply is_Some_if.
  - intros a b. destruct (ValidString a); [|done]. by intros [= <-].
Qed.

Definition demo_range : MapRange := λ m, map_to_list m.

Lemma demo_range_laws : @MapRangeLaws demo_range.
Proof. by intros m. Qed.

(** ** The ring *)

Definition demo_xxhash : XXHash := fnv64a.

Lemma demo_xxhash_laws : @XXHashLaws demo_xxhash.
Proof. exact fnv64a_range. Qed.

Definition demo_ring : Hashring := @consistent demo_xxhash MergeSort.
Definition demo_ring_laws : @HashringLaws demo_ring := @consistent_laws demo_xxhash MergeSort MergeSort_laws.
