(* ===== verification/GossipProps.v ===== *)
(** * The correctness of the gossip handler

    What a quorum write guarantees, how replicated entries are merged, that
    anti-entropy brings replicas together, and the invariant every callback
    preserves. *)

From S2P Require Import Prelude GoStrconv GoSort GoUtf8 BTree Store StoreProps.
From S2P Require Import HashRing HashRingProps RingInterface EventRing Gossip Instances.
Local Open Scope Z_scope.

(** ** Counting acknowledgements *)

(** The expected nodes that acknowledge successfully in a sequence of results. *)
Definition ackers (expected : gset string) (acks : list ackResult) : gset string :=
  list_to_set (ack_nodeID <$> List.filter (λ a, bool_decide (ack_nodeID a ∈ expected) && bool_decide (ack_err a = None)) acks).

Lemma elem_of_ackers expected acks id :
  id ∈ ackers expected acks ↔ id ∈ expected ∧ mkAck id None ∈ acks.
Proof.
  unfold ackers. rewrite elem_of_list_to_set, list_elem_of_fmap. split.
  - intros ([n e] & -> & [Hin Hb]%elem_of_list_filter_bool). apply andb_prop in Hb as [Ea Eb].
    apply bool_decide_eq_true in Ea, Eb. simpl in *. by subst e.
  - intros [He Ha]. exists (mkAck id None). split; [done|]. apply elem_of_list_filter_bool.
    split; [done|]. simpl. by rewrite bool_decide_eq_true_2.
Qed.

Lemma ackers_cons expected a acks :
  ackers expected (a :: acks) =
  (if bool_decide (ack_nodeID a ∈ expected) && bool_decide (ack_err a = None)
   then {[ack_nodeID a]} else ∅) ∪ ackers expected acks.
Proof.
  unfold ackers. cbn [List.filter].
  destruct (bool_decide (ack_nodeID a ∈ expected) && bool_decide (ack_err a = None)); simpl;
    [done|by rewrite (left_id_L ∅ (∪))].
Qed.

(** The counter is one, for the local write, plus the distinct nodes heard. *)
Definition call_ok (c : Call) : Prop := call_acks c = 1 + Z.of_nat (size (call_acked c)).

Lemma count_ack_ok c res : call_ok c → call_ok (count_ack c res) ∧
  call_id (count_ack c res) = call_id c ∧ call_w (count_ack c res) = call_w c ∧
  call_expected (count_ack c res) = call_expected c ∧
  call_acked (count_ack c res) = ackers (call_expected c) [res] ∪ call_acked c.
Proof.
  unfold call_ok, count_ack. rewrite ackers_cons. intros Hc.
  replace (ackers (call_expected c) []) with (∅ : gset string) by done. rewrite (right_id_L ∅ (∪)).
  destruct (bool_decide (ack_nodeID res ∈ call_expected c) && bool_decide (ack_err res = None)).
  - case_bool_decide as Hin.
    + split_and!; try done. set_solver.
    + cbn [call_acks call_acked call_id call_w call_expected]. split_and!; try done.
      rewrite size_union, size_singleton by set_solver. lia.
  - split_and!; try done. by rewrite (left_id_L ∅ (∪)).
Qed.

(** The wait succeeds exactly when enough distinct expected nodes acknowledge. *)
Lemma wait_acks_spec c acks : call_ok c → call_acks c < call_w c →
  wait_acks c acks = None ↔
  call_w c ≤ 1 + Z.of_nat (size (ackers (call_expected c) acks ∪ call_acked c)).
Proof.
  revert c. induction acks as [|res acks IH]; intros c Hc Hlt; simpl.
  { split; [done|]. replace (ackers (call_expected c) []) with (∅ : gset string) by done.
    rewrite (left_id_L ∅ (∪)). unfold call_ok in Hc. lia. }
  destruct (count_ack_ok c res Hc) as (Hc' & Hid & Hw & He & Ha).
  assert (Hset : ackers (call_expected c) (res :: acks) ∪ call_acked c =
                 ackers (call_expected c) acks ∪ call_acked (count_ack c res)).
  { rewrite Ha, !ackers_cons.
    replace (ackers (call_expected c) []) with (∅ : gset string) by done. set_solver. }
  unfold call_progress. destruct (Z.ltb_spec (call_acks (count_ack c res)) (call_w (count_ack c res))) as [Hl|Hl].
  - rewrite IH by done. by rewrite Hset, Hw, He.
  - split; [|done]. intros _. rewrite Hset. unfold call_ok in Hc'. rewrite Hw in Hl.
    assert (size (call_acked (count_ack c res)) ≤
            size (ackers (call_expected c) acks ∪ call_acked (count_ack c res)))%nat.
    { apply subseteq_size. set_solver. }
    lia.
Qed.

Section facts.
Context `{!BTreeOps item, !BTreeLaws less, !Hashring, !Proto, !SliceSort, !MapRange}.
Implicit Types h : Handler.

(** ** Merging *)

Lemma isReplica_with_store h s k : isReplica (with_store h s) k = isReplica h k.
Proof. done. Qed.

Definition pb_update (e : pbEntry) : string * Entry := (pb_Key e, of_pb e).

Lemma apply_entry_Snapshot h e : btree_ok (tree (h_store h)) →
  Snapshot (h_store (apply_entry h e)) = merge (Snapshot (h_store h)) (pb_update e).
Proof. intros Ht. unfold apply_entry. simpl. by apply SetWithVersion_Snapshot. Qed.

Lemma apply_entry_tree h e : btree_ok (tree (h_store h)) → btree_ok (tree (h_store (apply_entry h e))).
Proof. intros Ht. by apply SetWithVersion_tree. Qed.

(** The handler up to its store. *)
Definition same_but_store h h' : Prop := h' = with_store h (h_store h').

Lemma same_but_store_refl h : same_but_store h h.
Proof. by destruct h. Qed.

Lemma HandleReplication_frame h es : same_but_store h (HandleReplication h es).
Proof.
  unfold HandleReplication. revert h. induction es as [|e es IH]; intros h; simpl.
  { apply same_but_store_refl. }
  destruct (isReplica h (pb_Key e)); simpl; [|apply IH].
  unfold same_but_store in *. rewrite IH at 1. done.
Qed.

Lemma HandleReplication_Snapshot h es : btree_ok (tree (h_store h)) →
  btree_ok (tree (h_store (HandleReplication h es))) ∧
  Snapshot (h_store (HandleReplication h es)) =
  merge_all (Snapshot (h_store h)) (pb_update <$> List.filter (λ e, isReplica h (pb_Key e)) es).
Proof.
  unfold HandleReplication. revert h. induction es as [|e es IH]; intros h Ht; simpl; [done|].
  destruct (isReplica h (pb_Key e)) eqn:Hr; simpl.
  - destruct (IH (apply_entry h e)) as [Ea Eb]; [by apply apply_entry_tree|]. split; [done|].
    rewrite Eb, apply_entry_Snapshot by done. unfold merge_all. simpl. do 2 f_equal.
  - by apply IH.
Qed.

Lemma apply_request_spec h es : btree_ok (tree (h_store h)) →
  let '(ok, h') := apply_request h es in
  btree_ok (tree (h_store h')) ∧ same_but_store h h' ∧
  ok = forallb (λ e, isReplica h (pb_Key e)) es ∧
  ∃ done_, done_ `prefix_of` es ∧ (ok = true → done_ = es) ∧
    Snapshot (h_store h') = merge_all (Snapshot (h_store h)) (pb_update <$> done_).
Proof.
  revert h. induction es as [|e es IH]; intros h Ht; simpl.
  { split; [done|]. split; [apply same_but_store_refl|]. split; [done|]. by exists []. }
  destruct (isReplica h (pb_Key e)) eqn:Hr; simpl.
  2: { split; [done|]. split; [apply same_but_store_refl|]. split; [done|]. exists [].
       split; [apply prefix_nil|]. split; [done|]. done. }
  specialize (IH (apply_entry h e) (apply_entry_tree h e Ht)).
  destruct (apply_request (apply_entry h e) es) as [ok h']. destruct IH as (Ea & Eb & Ec & d & Hd & Hall & Hs).
  split; [done|]. split; [unfold same_but_store in *; rewrite Eb at 1; done|].
  split; [by rewrite Ec|]. exists (e :: d). split; [by apply prefix_cons|].
  split; [intros Ho; by rewrite (Hall Ho)|].
  rewrite Hs, apply_entry_Snapshot by done. done.
Qed.

(** ** The quorum write *)

Lemma elem_of_reachable send_ok remote d :
  d ∈ reachable send_ok remote ↔ send_ok d = true ∧ d ∈ NodeID <$> remote.
Proof. unfold reachable. rewrite elem_of_list_filter_bool. naive_solver. Qed.

Lemma remote_not_self h key d : d ∈ NodeID <$> remoteNodes h key → d ≠ NodeID_ h.
Proof.
  intros (r & -> & [_ Hne]%elem_of_list_filter_bool)%list_elem_of_fmap. by bool_to_prop.
Qed.

(** The acknowledgements a call can count come from the nodes it has sent to. *)
Lemma ackers_size h send_ok key acks :
  (size (ackers (list_to_set (reachable send_ok (remoteNodes h key))) acks) ≤
   length (reachable send_ok (remoteNodes h key)) ≤ length (remoteNodes h key))%nat.
Proof.
  split.
  - etransitivity; [apply subseteq_size|apply size_list_to_set_le].
    intros id [Hid _]%elem_of_ackers. exact Hid.
  - unfold reachable. etransitivity; [apply List.filter_length_le|]. by rewrite length_fmap.
Qed.

(** What a call has established when it starts to wait. *)
Lemma replicate_begin_spec h uuid send_ok key entry w :
  btree_ok (tree (h_store h)) → pendingReqs h !! uuid = None →
  let '(h', packets, p) := replicate_begin h uuid send_ok key entry w in
  let req := ReplicateReq (mkReplicateRequest uuid (NodeID_ h) [to_pb key entry]) in
  let dests := reachable send_ok (remoteNodes h key) in
  h_store h' = (SetWithVersion (h_store h) key entry).2 ∧
  (∀ d b, (d, b) ∈ packets → d ∈ dests ∧ Marshal req = Some b ∧ 1 < w) ∧
  match p with
  | Returned None => w ≤ 1 ∧ h' = with_store h (h_store h')
  | Returned (Some _) => 1 < w ∧ h' = with_store h (h_store h') ∧
      (Marshal req = None ∨ Z.of_nat (length dests) + 1 < w)
  | Waiting c => 1 < w ∧ c = mkCall uuid w (list_to_set dests) ∅ 1 ∧ is_Some (Marshal req) ∧
      w ≤ Z.of_nat (length dests) + 1 ∧
      h' = with_pending (with_store h (h_store h'))
             (<[uuid := mkChan (Z.of_nat (length (remoteNodes h key))) []]> (pendingReqs h))
  end.
Proof.
  intros Ht Hfresh. unfold replicate_begin.
  set (h1 := with_store h (SetWithVersion (h_store h) key entry).2).
  assert (Hh1 : h1 = with_store h (h_store h1)) by done.
  change (NodeID_ h1) with (NodeID_ h). change (remoteNodes h1 key) with (remoteNodes h key).
  pose proof (proj2 (ackers_size h send_ok key [])) as Hle.
  destruct (Z.leb_spec w 1) as [Hw|Hw]; [split; [done|]; split; [by intros ? ? ?%elem_of_nil|done]|].
  destruct (Z.ltb_spec (Z.of_nat (length (remoteNodes h key)) + 1) w).
  { split; [done|]. split; [by intros ? ? ?%elem_of_nil|]. split; [done|]. split; [done|]. right. lia. }
  cbv zeta. destruct (Marshal _) as [b|] eqn:HM.
  2: { split; [done|]. split; [by intros ? ? ?%elem_of_nil|]. split; [done|]. split; [done|]. by left. }
  assert (Hp : ∀ d b', (d, b') ∈ (λ d, (d, b)) <$> reachable send_ok (remoteNodes h key) →
    d ∈ reachable send_ok (remoteNodes h key) ∧ Some b = Some b' ∧ 1 < w).
  { by intros d b' (d' & [= -> ->] & Hd)%list_elem_of_fmap. }
  destruct (Z.ltb_spec (Z.of_nat (length (reachable send_ok (remoteNodes h key))) + 1) w).
  - split; [done|]. split; [done|]. split; [done|]. split; [|right; lia].
    unfold with_pending. cbn. rewrite delete_insert_id by done. done.
  - split; [done|]. split; [done|]. split; [done|]. split; [done|]. split; [by eexists|]. split; [lia|done].
Qed.

(** ** The invariant *)

Context `{!HashringLaws}.

Record handler_inv h : Prop := {
  hi_store : store_inv (h_store h);
  hi_clock : clock_inv (h_store h);
  hi_versions : versions_ok (Snapshot (h_store h));
  hi_ring : ring_ok (h_ring h);
  hi_events : ∃ es, logs (events h) eventRingSize es;
}.

(** [h'] still has every write [h] had, or one that supersedes it. *)
Definition keeps_writes h h' : Prop :=
  ∀ k e, covers (Snapshot (h_store h)) k e → covers (Snapshot (h_store h')) k e.

#[export] Instance keeps_writes_preorder : PreOrder keeps_writes.
Proof. split; [by intros h k e|]. intros x y z Hxy Hyz k e Hc. by apply Hyz, Hxy. Qed.

Definition entries_int64 (es : list pbEntry) : Prop := Forall (λ e, in_int64 (pb_Version e)) es.

Lemma message_int64_entries m : message_int64 m = true → entries_int64 (message_entries m).
Proof.
  unfold message_int64, entries_int64. rewrite forallb_forall, Forall_forall. intros Ha e He.
  by apply (bool_decide_eq_true_1 _), Ha, list_elem_of_In.
Qed.

Lemma set_inv h k e : handler_inv h → in_int64 (Version e) →
  handler_inv (with_store h (SetWithVersion (h_store h) k e).2) ∧
  keeps_writes h (with_store h (SetWithVersion (h_store h) k e).2).
Proof.
  intros [Hs Hc Hvs Hr He] Hv.
  split; [split; [by apply SetWithVersion_inv|by apply SetWithVersion_clock| |done..]|].
  { cbn [h_store with_store]. rewrite SetWithVersion_Snapshot by apply Hs. by apply merge_versions. }
  intros k' e' Hc'. cbn [h_store with_store].
  rewrite SetWithVersion_Snapshot by apply Hs. by apply covers_merge.
Qed.

Lemma HandleReplication_inv h es : handler_inv h → entries_int64 es →
  handler_inv (HandleReplication h es) ∧ keeps_writes h (HandleReplication h es).
Proof.
  unfold HandleReplication. revert h. induction es as [|e es IH]; intros h Hh Hes; simpl; [done|].
  apply Forall_cons in Hes as [He Hes]. destruct (isReplica h (pb_Key e)); simpl; [|by apply IH].
  destruct (set_inv h (pb_Key e) (of_pb e) Hh He) as [Ea Eb].
  destruct (IH _ Ea Hes) as [Ec Ed]. split; [done|]. by etransitivity.
Qed.

Lemma apply_request_inv h es : handler_inv h → entries_int64 es →
  handler_inv (apply_request h es).2 ∧ keeps_writes h (apply_request h es).2.
Proof.
  revert h. induction es as [|e es IH]; intros h Hh Hes; simpl; [done|].
  apply Forall_cons in Hes as [He Hes]. destruct (isReplica h (pb_Key e)); simpl; [|done].
  destruct (set_inv h (pb_Key e) (of_pb e) Hh He) as [Ea Eb].
  destruct (IH _ Ea Hes) as [Ec Ed]. split; [done|]. by etransitivity.
Qed.

Lemma handleMessage_inv `{!ProtoLaws} h send_ok buf : handler_inv h →
  handler_inv (handleMessage h send_ok buf).1 ∧ keeps_writes h (handleMessage h send_ok buf).1.
Proof.
  intros Hh. unfold handleMessage. destruct (Unmarshal buf) as [m|] eqn:Hm; [|done].
  apply Unmarshal_int64, message_int64_entries in Hm. destruct m as [es|req|resp|]; cbn [fst message_entries] in *.
  - by apply HandleReplication_inv.
  - unfold handleReplicateRequest. pose proof (apply_request_inv h _ Hh Hm) as Hi.
    destruct (apply_request h (req_Entries req)) as [ok h']. by destruct (Marshal _).
  - unfold handleReplicateResponse. destruct (pendingReqs h !! _); [|done].
    split; [|by intros k e]. by destruct Hh.
  - done.
Qed.

Lemma PushEvent_inv h e : handler_inv h → ∃ h', PushEvent h e = Some h' ∧ handler_inv h' ∧
  h_store h' = h_store h ∧ h_ring h' = h_ring h ∧
  ∀ es, logs (events h) eventRingSize es → logs (events h') eventRingSize (es ++ [e]).
Proof.
  intros [Hs Hc Hvs Hr [es He]]. unfold PushEvent.
  destruct (logs_Push _ _ es e He) as (r & E & Hl). rewrite E. cbn [mbind option_bind].
  eexists. split; [done|]. split; [split; cbn; eauto|]. split; [done|]. split; [done|].
  intros es' He'. destruct (logs_Push _ _ es' e He') as (r' & E' & Hl'). rewrite E in E'.
  injection E' as <-. done.
Qed.

Lemma replicate_begin_inv h uuid send_ok key entry w : handler_inv h → in_int64 (Version entry) →
  let h' := (replicate_begin h uuid send_ok key entry w).1.1 in
  handler_inv h' ∧ keeps_writes h h' ∧ covers (Snapshot (h_store h')) key entry ∧ h_ring h' = h_ring h.
Proof.
  intros Hh Hv. destruct (set_inv h key entry Hh Hv) as [Hi Hk]. cbv zeta.
  assert (Hs : h_store (replicate_begin h uuid send_ok key entry w).1.1 = (SetWithVersion (h_store h) key entry).2 ∧
    h_ring (replicate_begin h uuid send_ok key entry w).1.1 = h_ring h ∧
    events (replicate_begin h uuid send_ok key entry w).1.1 = events h).
  { unfold replicate_begin. repeat case_match; done. }
  destruct Hs as (Hs & Hr & He). split_and!; [|intros k e Hc; rewrite Hs; by apply Hk| |done].
  - destruct Hi as [Ea Eb Ev Ec Ed]. split; [by rewrite Hs|by rewrite Hs|by rewrite Hs|by rewrite Hr|by rewrite He].
  - rewrite Hs, SetWithVersion_Snapshot by apply Hh. apply merge_covers.
Qed.

(** ** Anti-entropy *)

Lemma serializeStore_spec `{!MapRangeLaws} h m : serializeStore h = Some m →
  ∃ es, m = EntryBatch es ∧ ∀ k e, (k, e) ∈ pb_update <$> es ↔ Snapshot (h_store h) !! k = Some e.
Proof.
  unfold serializeStore. case_match; [done|]. intros [= <-]. eexists. split; [done|].
  intros k e. rewrite <-list_fmap_compose.
  assert (Hid : ∀ l : list (string * Entry), pb_update ∘ (λ ke, to_pb ke.1 ke.2) <$> l = l).
  { intros l. rewrite <-(list_fmap_id l) at 2. apply list_fmap_ext. intros i [k' [v n o d]] _. done. }
  rewrite Hid, range_map_perm. apply elem_of_map_to_list.
Qed.

(** The encoding of a snapshot is decoded to all of its entries. *)
Lemma snapshot_decodes `{!MapRangeLaws, !ProtoLaws} h m buf : handler_inv h →
  serializeStore h = Some m → Marshal m = Some buf →
  ∃ es, Unmarshal buf = Some (EntryBatch es) ∧
    ∀ k e, (k, e) ∈ pb_update <$> es ↔ Snapshot (h_store h) !! k = Some e.
Proof.
  intros Hh Hm HM. destruct (serializeStore_spec h m Hm) as (es & -> & Hes). exists es. split; [|done].
  apply Unmarshal_Marshal; [done|]. apply forallb_forall. intros p Hp%list_elem_of_In.
  apply bool_decide_eq_true. apply (hi_versions _ Hh (pb_Key p) (of_pb p)), Hes.
  apply list_elem_of_fmap. by exists p.
Qed.

Lemma serializeStore_nonempty h k e : Snapshot (h_store h) !! k = Some e → is_Some (serializeStore h).
Proof.
  intros Hk. unfold serializeStore. case_match eqn:Hz; [|by eexists].
  apply Nat.eqb_eq, map_size_empty_inv in Hz. by rewrite Hz, lookup_empty in Hk.
Qed.

(** A replica that merges a snapshot covers every entry of it. *)
Lemma merge_snapshot_covers h es k e : btree_ok (tree (h_store h)) →
  (k, e) ∈ pb_update <$> es → isReplica h k = true →
  covers (Snapshot (h_store (HandleReplication h es))) k e.
Proof.
  intros Ht Hin Hr. destruct (HandleReplication_Snapshot h es Ht) as [_ ->].
  apply merge_all_covers. apply list_elem_of_fmap in Hin as (p & Hp & Hin). apply list_elem_of_fmap.
  exists p. split; [done|]. apply elem_of_list_filter_bool. split; [done|]. by injection Hp as ->.
Qed.

(** An entry after the merge was there before or came with the snapshot. *)
Lemma merge_snapshot_source h es k e : btree_ok (tree (h_store h)) →
  Snapshot (h_store (HandleReplication h es)) !! k = Some e →
  Snapshot (h_store h) !! k = Some e ∨ (k, e) ∈ pb_update <$> es.
Proof.
  intros Ht. destruct (HandleReplication_Snapshot h es Ht) as [_ ->].
  intros [Hk|Hin]%merge_all_source; [by left|right].
  apply list_elem_of_fmap in Hin as (p & Hp & [Hin _]%elem_of_list_filter_bool).
  apply list_elem_of_fmap. eauto.
Qed.

(** Pushing a's state to b and b's new state back to a makes them agree. *)
Lemma push_pull_agree a b esa esb k :
  btree_ok (tree (h_store a)) → btree_ok (tree (h_store b)) →
  (∀ k e, (k, e) ∈ pb_update <$> esa ↔ Snapshot (h_store a) !! k = Some e) →
  let b' := HandleReplication b esa in
  (∀ k e, (k, e) ∈ pb_update <$> esb ↔ Snapshot (h_store b') !! k = Some e) →
  let a' := HandleReplication a esb in
  isReplica a k = true → isReplica b k = true →
  Snapshot (h_store a') !! k = Snapshot (h_store b') !! k.
Proof.
  intros Ha Hb Hsa b' Hsb a' Hra Hrb.
  assert (Hab : ∀ e, Snapshot (h_store b') !! k = Some e → covers (Snapshot (h_store a')) k e).
  { intros e He. apply merge_snapshot_covers; [done|by apply Hsb|done]. }
  assert (Hba : ∀ e, Snapshot (h_store a') !! k = Some e → covers (Snapshot (h_store b')) k e).
  { intros e [He|Hin]%merge_snapshot_source; [| |done].
    - apply merge_snapshot_covers; [done|by apply Hsa|done].
    - apply Hsb in Hin. exists e. split; [done|]. apply newer_irrefl. }
  destruct (Snapshot (h_store a') !! k) as [e1|] eqn:E1, (Snapshot (h_store b') !! k) as [e2|] eqn:E2; [| | |done].
  - f_equal. eapply (covers_unique k e1 e2 (Snapshot (h_store a')) (Snapshot (h_store b'))); auto.
  - destruct (Hba e1 eq_refl) as (? & ? & _). congruence.
  - destruct (Hab e2 eq_refl) as (? & ? & _). congruence.
Qed.

(** Successive rounds of anti-entropy with the same members. *)
Fixpoint rounds (n : nat) h (members : list MemberInfo) (send_ok : string → bool) : Handler * list Packet :=
  match n with
  | O => (h, [])
  | S n' => let '(h, ps) := exchangeState h members send_ok in
            let '(h, qs) := rounds n' h members send_ok in (h, ps ++ qs)
  end.

Lemma rounds_dests h members snap buf n : serializeStore h = Some snap → Marshal snap = Some buf →
  (1 < length members)%nat → (0 < length (peers h members))%nat → 0 ≤ antiEntropyPos h →
  (rounds n h members (λ _, true)).2 =
  (λ t, (default "" (mi_Name <$> peers h members !!
     ((Z.to_nat (antiEntropyPos h) + t) mod length (peers h members))%nat), buf)) <$> seq 0 n.
Proof.
  intros Hs HM Hlen Hp. revert h Hs Hp. induction n as [|n IH]; intros h Hs Hp Hpos; [done|].
  cbn [rounds]. unfold exchangeState. rewrite Hs.
  destruct (Z.leb_spec (Z.of_nat (length members)) 1); [lia|]. cbv zeta.
  set (ps := peers h members) in *. set (N := length ps) in *.
  destruct (Z.eqb_spec (Z.of_nat N) 0); [lia|].
  set (i := antiEntropyPos h mod Z.of_nat N).
  assert (Hi : 0 ≤ i < Z.of_nat N) by (apply Z.mod_pos_bound; lia).
  assert (Hin : Z.to_nat i = (Z.to_nat (antiEntropyPos h) mod N)%nat).
  { unfold i. rewrite <-(Z2Nat.id (antiEntropyPos h)) at 1 by done. by rewrite <-Nat2Z.inj_mod, Nat2Z.id. }
  destruct (lookup_lt_is_Some_2 ps (Z.to_nat i)) as [peer Hpeer]; [unfold N in *; lia|].
  rewrite Hpeer, HM. cbv beta iota.
  match goal with |- context [rounds n ?g _ _] => set (h1 := g) end.
  specialize (IH h1 Hs). change (peers h1 members) with ps in IH. fold N in IH.
  specialize (IH Hp ltac:(unfold h1; cbn; apply Z.mod_pos_bound; lia)).
  destruct (rounds n h1 members (λ _, true)) as [h2 qs]. cbn [snd] in *. rewrite IH.
  change (seq 0 (S n)) with (0%nat :: seq 1 n). rewrite fmap_cons. cbn [app]. f_equal.
  - rewrite Nat.add_0_r, <-Hin, Hpeer. done.
  - rewrite <-fmap_S_seq, <-list_fmap_compose. apply list_fmap_ext. intros j t _. cbn [compose].
    do 3 f_equal. unfold h1. cbn [antiEntropyPos].
    assert (Hq : Z.to_nat ((i + 1) mod Z.of_nat N) = ((Z.to_nat i + 1) mod N)%nat).
    { rewrite <-(Z2Nat.id i) at 1 by lia. change 1 with (Z.of_nat 1) at 1.
      by rewrite <-Nat2Z.inj_add, <-Nat2Z.inj_mod, Nat2Z.id. }
    rewrite Hq, Hin, Nat.Div0.add_mod_idemp_l, <-Nat.add_assoc, Nat.Div0.add_mod_idemp_l. done.
Qed.

(** The part of a handler that stays while the membership does. *)
Definition same_view h h' : Prop := cfg h' = cfg h ∧ localID h' = localID h ∧ h_ring h' = h_ring h.

#[export] Instance same_view_preorder : PreOrder same_view.
Proof. split; [by intros h|]. intros x y z (?&?&?) (?&?&?). split_and!; congruence. Qed.

Lemma same_view_replica h h' k : same_view h h' → isReplica h' k = isReplica h k.
Proof. intros (Ea & Eb & Ec). unfold isReplica, NodeID_. by rewrite Ea, Eb, Ec. Qed.

(** A round of anti-entropy changes no entry and sends only the own state. *)
Lemma exchange_spec h members send_ok :
  let '(h', ps) := exchangeState h members send_ok in
  h_store h' = h_store h ∧ events h' = events h ∧ pendingReqs h' = pendingReqs h ∧ same_view h h' ∧
  ∀ d buf, (d, buf) ∈ ps → ∃ m, serializeStore h = Some m ∧ Marshal m = Some buf.
Proof.
  assert (Hnone : h_store h = h_store h ∧ events h = events h ∧ pendingReqs h = pendingReqs h ∧ same_view h h ∧
    ∀ d buf, (d, buf) ∈ ([] : list Packet) → ∃ m, serializeStore h = Some m ∧ Marshal m = Some buf).
  { split_and!; try done. by intros d buf ?%elem_of_nil. }
  unfold exchangeState. destruct (serializeStore h) as [m|]; [|exact Hnone].
  destruct (_ <=? 1); [exact Hnone|]. destruct (_ =? 0); [exact Hnone|].
  destruct (peers h members !! _) as [peer|], (Marshal m) as [b|] eqn:HM; (split_and!; [done..|]);
    intros d buf Hin; try (by apply elem_of_nil in Hin).
  destruct (send_ok (mi_Name peer)); [|by apply elem_of_nil in Hin].
  apply list_elem_of_singleton in Hin. injection Hin as -> ->. eauto.
Qed.

Lemma peers_perm `{!SliceSortLaws} h members :
  peers h members ≡ₚ List.filter (λ m, negb (String.eqb (mi_Name m) (NodeID_ h))) members.
Proof. apply Slice_perm. Qed.
End facts.

(** ** Histories of calls and callbacks *)

Section histories.
Context `{!BTreeOps item, !Hashring, !Proto, !SliceSort, !MapRange}.

(** Everything that can happen to a handler: the transport's callbacks, the
    quorum writes of the server and their acknowledgements, and the
    subscriptions of the management interface. *)
Inductive gossip_op :=
  | OpMessage (send_ok : string → bool) (buf : string)
  | OpMerge (buf : string)
  | OpJoin (now : Z) (id addr : string)
  | OpLeave (now : Z) (id : string)
  | OpUpdate (now : Z) (id addr : string)
  | OpExchange (members : list MemberInfo) (send_ok : string → bool)
  | OpReplicate (uuid : string) (send_ok : string → bool) (acks : list ackResult)
      (key : string) (entry : Entry) (w : Z)
  | OpSubscribe (c : chan ClusterEvent)
  | OpUnsubscribe (id : Z).

Definition exec_gossip (h : Handler) (op : gossip_op) : option Handler :=
  match op with
  | OpMessage send_ok buf => Some (handleMessage h send_ok buf).1
  | OpMerge buf => Some (handleMergeRemoteState h buf)
  | OpJoin now id addr => handleJoin h now id addr
  | OpLeave now id => handleLeave h now id
  | OpUpdate now id addr => handleUpdate h now id addr
  | OpExchange members send_ok => Some (exchangeState h members send_ok).1
  | OpReplicate uuid send_ok acks key entry w =>
      Some (ReplicateWithQuorum h uuid send_ok acks key entry w).1.1
  | OpSubscribe c => Some (Subscribe h c).2
  | OpUnsubscribe id => Some (Unsubscribe h id)
  end.

(** The entry of a quorum write comes from the store, whose clock is 64 bits. *)
Definition gossip_op_wf (op : gossip_op) : bool :=
  match op with
  | OpReplicate _ _ _ _ entry _ => bool_decide (in_int64 (Version entry))
  | _ => true
  end.

Fixpoint run_gossip (h : Handler) (ops : list gossip_op) : option Handler :=
  match ops with
  | [] => Some h
  | op :: ops' => h' ← exec_gossip h op; run_gossip h' ops'
  end.
End histories.

Section history_facts.
Context `{!BTreeOps item, !BTreeLaws less, !Hashring, !HashringLaws, !Proto, !ProtoLaws,
          !SliceSort, !MapRange}.
Implicit Types h : Handler.

Lemma keeps_same_store h h' : h_store h' = h_store h → keeps_writes h h'.
Proof. intros E k e. by rewrite E. Qed.

Lemma exec_gossip_inv h op : handler_inv h → gossip_op_wf op = true →
  ∃ h', exec_gossip h op = Some h' ∧ handler_inv h' ∧ keeps_writes h h'.
Proof.
  assert (Hev : ∀ g e, handler_inv g →
    ∃ g', PushEvent g e = Some g' ∧ handler_inv g' ∧ keeps_writes g g').
  { intros g e Hg. destruct (PushEvent_inv g e Hg) as (g' & E & Hi & Hs & _).
    exists g'. split; [done|]. split; [done|]. by apply keeps_same_store. }
  intros Hh Hwf. destruct op as [so buf|buf|now id a|now id|now id a|ms so|u so acks k e w|c|id]; cbn [exec_gossip].
  - eexists. split; [done|]. by apply handleMessage_inv.
  - eexists. split; [done|]. unfold handleMergeRemoteState.
    destruct (Unmarshal buf) as [[es| | |]|] eqn:Hm; try done.
    apply Unmarshal_int64, message_int64_entries in Hm. by apply HandleReplication_inv.
  - apply (Hev (with_ring h (ring_AddNode (h_ring h) id a 256))).
    destruct Hh as [Ea Eb Ev Ec Ed]. split; [done|done|done| |done]. by apply ring_ok_AddNode.
  - apply (Hev (with_ring h (ring_RemoveNode (h_ring h) id))).
    destruct Hh as [Ea Eb Ev Ec Ed]. split; [done|done|done| |done]. by apply ring_ok_RemoveNode.
  - by apply Hev.
  - eexists. split; [done|]. unfold exchangeState.
    repeat case_match; (split; [by destruct Hh|by apply keeps_same_store]).
  - eexists. split; [done|]. apply bool_decide_eq_true in Hwf.
    destruct (replicate_begin_inv h u so k e w Hh Hwf) as (Ea & Eb & _ & _). cbv zeta in *.
    unfold ReplicateWithQuorum. destruct (replicate_begin h u so k e w) as [[h' ps] [err|c]]; cbn [fst] in *; [done|].
    split; [by destruct Ea|done].
  - eexists. split; [done|]. split; [by destruct Hh|by apply keeps_same_store].
  - eexists. split; [done|]. split; [by destruct Hh|by apply keeps_same_store].
Qed.

Lemma handler_inv_New c s r : store_inv s → clock_inv s → versions_ok (Snapshot s) → ring_ok r →
  handler_inv (New c s r).
Proof. intros Hs Hc Hv Hr. split; [done|done|done|done|]. exists []. by apply logs_new. Qed.
End history_facts.

(** ** Properties *)

Section properties.
Context `{!BTreeOps item, !BTreeLaws less, !Hashring, !HashringLaws, !Proto, !ProtoLaws,
          !SliceSort, !SliceSortLaws, !MapRange, !MapRangeLaws}.
Implicit Types h : Handler.

(** The outcome of a quorum write, for every answer of the transport. *)
Lemma quorum_outcome h uuid send_ok acks key entry w :
  handler_inv h → pendingReqs h !! uuid = None →
  let '(h', packets, err) := ReplicateWithQuorum h uuid send_ok acks key entry w in
  let dests := reachable send_ok (remoteNodes h key) in
  (err = None ↔ w ≤ 1 ∨
     is_Some (Marshal (ReplicateReq (mkReplicateRequest uuid (NodeID_ h) [to_pb key entry]))) ∧
     w ≤ 1 + Z.of_nat (size (ackers (list_to_set dests) acks))) ∧
  (∀ id, id ∈ ackers (list_to_set dests) acks → id ≠ NodeID_ h ∧ mkAck id None ∈ acks ∧
     id ∈ NodeID <$> ring_GetReplicas (h_ring h) key (cfg_ReplicaRF (cfg h))) ∧
  covers (Snapshot (h_store h')) key entry ∧ pendingReqs h' = pendingReqs h ∧
  ∀ d b, (d, b) ∈ packets → d ∈ dests ∧ d ≠ NodeID_ h.
Proof.
  intros Hh Hfresh. pose proof (inv_tree _ (hi_store _ Hh)) as Ht. unfold ReplicateWithQuorum.
  pose proof (replicate_begin_spec h uuid send_ok key entry w Ht Hfresh) as Hb.
  set (dests := reachable send_ok (remoteNodes h key)) in *.
  destruct (replicate_begin h uuid send_ok key entry w) as [[h1 packets] p]. cbv zeta in Hb.
  destruct Hb as (Hs & Hp & Hprog).
  assert (Hself : ∀ d, d ∈ dests → d ≠ NodeID_ h).
  { intros d [_ Hd]%elem_of_reachable. by apply (remote_not_self h key). }
  assert (Hack : ∀ id, id ∈ ackers (list_to_set dests) acks → id ≠ NodeID_ h ∧ mkAck id None ∈ acks ∧
     id ∈ NodeID <$> ring_GetReplicas (h_ring h) key (cfg_ReplicaRF (cfg h))).
  { intros id [Hid Ha]%elem_of_ackers. apply elem_of_list_to_set in Hid. split; [by apply Hself|]. split; [done|].
    apply elem_of_reachable in Hid as [_ Hid]. apply list_elem_of_fmap in Hid as (r & -> & [Hr _]%elem_of_list_filter_bool).
    by apply list_elem_of_fmap_2. }
  assert (Hcov : ∀ g : Handler, h_store g = h_store h1 → covers (Snapshot (h_store g)) key entry).
  { intros g ->. rewrite Hs, SetWithVersion_Snapshot by done. apply merge_covers. }
  assert (Hpk : ∀ d b, (d, b) ∈ packets → d ∈ dests ∧ d ≠ NodeID_ h).
  { intros d b Hd. destruct (Hp d b Hd) as [Hd' _]. auto. }
  pose proof (ackers_size h send_ok key acks) as Hsz. fold dests in Hsz.
  destruct p as [[e|]|c].
  - destruct Hprog as (Hw & Hh1 & Hbad). split; [|split; [done|split; [by apply Hcov|split; [by rewrite Hh1|done]]]].
    split; [done|]. intros [?|[[b HM] Hle]]; [lia|]. destruct Hbad as [HN|?]; [congruence|lia].
  - destruct Hprog as (Hw & Hh1). split; [|split; [done|split; [by apply Hcov|split; [by rewrite Hh1|done]]]].
    split; [by left|done].
  - destruct Hprog as (Hw & -> & HM & Hle & Hh1).
    split; [|split; [done|split; [by apply Hcov|split; [|done]]]].
    + rewrite wait_acks_spec by done. cbn [call_w call_expected call_acked]. rewrite (right_id_L ∅ (∪)).
      naive_solver lia.
    + rewrite Hh1. cbn. by rewrite delete_insert_id.
Qed.

(** C7: A quorum write reports success exactly when enough replicas have it.
    For every sequence of acknowledgements the call receives before its
    deadline, [ReplicateWithQuorum] returns nil if and only if the write
    concern is at most 1, or the request could be encoded and the distinct
    nodes it was sent to that acknowledged it successfully, with this node,
    are at least [w]; duplicate acknowledgements, rejections and
    acknowledgements of unasked nodes never count.  The write is in the local
    store in any case, requests go only to remote replicas of the key, and no
    trace of the request stays pending. *)
Theorem ReplicateWithQuorum_outcome h uuid send_ok acks key entry w :
  handler_inv h → pendingReqs h !! uuid = None →
  let '(h', packets, err) := ReplicateWithQuorum h uuid send_ok acks key entry w in
  let dests := reachable send_ok (remoteNodes h key) in
  (err = None ↔ w ≤ 1 ∨
     is_Some (Marshal (ReplicateReq (mkReplicateRequest uuid (NodeID_ h) [to_pb key entry]))) ∧
     w ≤ 1 + Z.of_nat (size (ackers (list_to_set dests) acks))) ∧
  (∀ id, id ∈ ackers (list_to_set dests) acks → id ≠ NodeID_ h ∧ mkAck id None ∈ acks ∧
     id ∈ NodeID <$> ring_GetReplicas (h_ring h) key (cfg_ReplicaRF (cfg h))) ∧
  covers (Snapshot (h_store h')) key entry ∧ pendingReqs h' = pendingReqs h ∧
  ∀ d b, (d, b) ∈ packets → d ∈ dests ∧ d ≠ NodeID_ h.
Proof.
  apply quorum_outcome.
Qed.

(** C22: Nothing that happens to a node loses a write.  No sequence of transport
    callbacks, quorum writes, anti-entropy rounds and subscriptions panics or
    breaks the handler's invariant, and every entry the store had is still
    there afterwards or has been superseded by a newer write of its key. *)
Theorem gossip_history_safe h ops : handler_inv h → forallb gossip_op_wf ops = true →
  ∃ h', run_gossip h ops = Some h' ∧ handler_inv h' ∧ keeps_writes h h'.
Proof.
  revert h. induction ops as [|op ops IH]; intros h Hh Hwf; simpl; [by exists h|].
  apply andb_prop in Hwf as [Hop Hops].
  destruct (exec_gossip_inv h op Hh Hop) as (h1 & -> & Hi & Hk). cbn [mbind option_bind].
  destruct (IH h1 Hi Hops) as (h2 & -> & Hi2 & Hk2). exists h2. split; [done|]. split; [done|]. by etransitivity.
Qed.

(** Replicated batches are merged by last-writer-wins, restricted to the
    keys this node is a replica of; the result depends only on which entries
    arrive, not on their order, their repetition or how they are batched. *)
Theorem HandleReplication_merges h es1 es2 : handler_inv h → (∀ e, e ∈ es1 ↔ e ∈ es2) →
  Snapshot (h_store (HandleReplication h es1)) =
    merge_all (Snapshot (h_store h)) (pb_update <$> List.filter (λ e, isReplica h (pb_Key e)) es1) ∧
  Snapshot (h_store (HandleReplication h es1)) = Snapshot (h_store (HandleReplication h es2)) ∧
  HandleReplication h (es1 ++ es2) = HandleReplication (HandleReplication h es1) es2.
Proof.
  intros Hh Hset. pose proof (inv_tree _ (hi_store _ Hh)) as Ht. split; [by apply HandleReplication_Snapshot|]. split.
  - destruct (HandleReplication_Snapshot h es1 Ht) as [_ ->]. destruct (HandleReplication_Snapshot h es2 Ht) as [_ ->].
    apply merge_all_set. intros u. rewrite !list_elem_of_fmap.
    split; intros (p & -> & [Hp Hr]%elem_of_list_filter_bool); exists p;
      (split; [done|]); apply elem_of_list_filter_bool; (split; [by apply Hset|done]).
  - unfold HandleReplication. by rewrite fold_left_app.
Qed.

(** One push-pull exchange makes two replicas agree: when [b] merges the
    state of [a] and [a] merges the state [b] then has, the two stores hold
    the same entry for every key both are replicas of, and it is at least as
    new as every entry either of them had. *)
Theorem push_pull_converges a b bufa bufb :
  handler_inv a → handler_inv b →
  handleLocalState a = Some bufa →
  let b' := handleMergeRemoteState b bufa in
  handleLocalState b' = Some bufb →
  let a' := handleMergeRemoteState a bufb in
  ∀ k, isReplica a k = true → isReplica b k = true →
    Snapshot (h_store a') !! k = Snapshot (h_store b') !! k ∧
    ∀ e, Snapshot (h_store a) !! k = Some e ∨ Snapshot (h_store b) !! k = Some e →
      covers (Snapshot (h_store a')) k e.
Proof.
  intros Ha Hb Hba b' Hbb a'.
  assert (Hdec : ∀ (g : Handler) buf, handler_inv g → handleLocalState g = Some buf →
    ∃ es, Unmarshal buf = Some (EntryBatch es) ∧
      ∀ k e, (k, e) ∈ pb_update <$> es ↔ Snapshot (h_store g) !! k = Some e).
  { intros g buf Hg Hl. unfold handleLocalState in Hl. destruct (serializeStore g) as [m|] eqn:Es; [|done].
    by apply (snapshot_decodes g m). }
  destruct (Hdec a bufa Ha Hba) as (esa & Ea & Hsa).
  unfold b', handleMergeRemoteState in *. rewrite Ea in *.
  assert (Hi : handler_inv (HandleReplication b esa) ∧ keeps_writes b (HandleReplication b esa)).
  { apply HandleReplication_inv; [done|]. apply Unmarshal_int64, message_int64_entries in Ea. done. }
  destruct Hi as [Hi Hkeep]. destruct (Hdec _ bufb Hi Hbb) as (esb & Eb & Hsb).
  unfold a'. rewrite Eb. intros k Hra Hrb.
  assert (Heq : Snapshot (h_store (HandleReplication a esb)) !! k = Snapshot (h_store (HandleReplication b esa)) !! k)
    by (apply (push_pull_agree a b esa esb k); try done; [apply Ha|apply Hb]).
  split; [exact Heq|]. intros e He. unfold covers. rewrite Heq. destruct He as [He|He].
  - apply merge_snapshot_covers; [apply Hb| |done]. by apply Hsa.
  - apply Hkeep. exists e. split; [done|]. apply newer_irrefl.
Qed.

(** Anti-entropy is fair: with an unchanged membership, as many rounds as
    there are peers send the snapshot to every peer exactly once. *)
Theorem anti_entropy_fair h members snap buf :
  serializeStore h = Some snap → Marshal snap = Some buf → 0 ≤ antiEntropyPos h →
  (1 < length members)%nat → (0 < length (peers h members))%nat →
  (rounds (length (peers h members)) h members (λ _, true)).2 ≡ₚ
  (λ m, (mi_Name m, buf)) <$> List.filter (λ m, negb (String.eqb (mi_Name m) (NodeID_ h))) members.
Proof.
  intros Hs HM Hpos Hm Hp. rewrite (rounds_dests h members snap buf) by done.
  rewrite <-peers_perm. set (ps := peers h members) in *. set (i := (Z.to_nat (antiEntropyPos h) mod length ps)%nat).
  assert (Hi : (i < length ps)%nat) by (apply Nat.mod_upper_bound; lia).
  trans ((λ m, (mi_Name m, buf)) <$> (drop i ps ++ take i ps)).
  - apply reflexive_eq, list_eq. intros t. rewrite !list_lookup_fmap.
    destruct (decide (t < length ps)%nat) as [Hlt|Hge].
    + rewrite lookup_seq_lt by done. rewrite <-clockwise_lookup by done. cbn.
      unfold i. rewrite Nat.Div0.add_mod_idemp_l.
      destruct (lookup_lt_is_Some_2 ps ((Z.to_nat (antiEntropyPos h) + t) mod length ps)%nat) as [m Hm'].
      { apply Nat.mod_upper_bound. lia. }
      by rewrite Hm'.
    + rewrite lookup_seq_ge by lia. rewrite lookup_ge_None_2; [done|].
      rewrite length_app, length_drop, length_take. lia.
  - apply fmap_Permutation. rewrite Permutation_app_comm. by rewrite take_drop.
Qed.

(** C39: A single entry that is not valid UTF-8 stops anti-entropy: as long as
    the store holds it, no round sends anything to any peer and no local state
    is offered for push-pull, and a quorum write of such an entry fails with a
    write concern above 1 although it has been applied locally. *)
Theorem invalid_utf8_blocks_replication h k e members send_ok n uuid acks w :
  handler_inv h → Snapshot (h_store h) !! k = Some e → entry_utf8 (to_pb k e) = false →
  (rounds n h members send_ok).2 = [] ∧ handleLocalState h = None ∧
  (pendingReqs h !! uuid = None → 1 < w →
   (ReplicateWithQuorum h uuid send_ok acks k e w).2 ≠ None).
Proof.
  intros Hh Hk Hbad.
  assert (Hnone : ∀ m, to_pb k e ∈ message_entries m → Marshal m = None).
  { intros m Hin. destruct (Marshal m) as [b|] eqn:HM; [|done].
    assert (Hu : message_utf8 m = true) by (apply Marshal_utf8; by eexists).
    assert (Hall : forallb entry_utf8 (message_entries m) = true).
    { destruct m; cbn in *; try done. by apply andb_prop in Hu as [_ ?]. }
    rewrite forallb_forall in Hall. rewrite (Hall (to_pb k e)) in Hbad; [done|]. by apply list_elem_of_In. }
  assert (Hser : ∀ g : Handler, h_store g = h_store h → ∀ m, serializeStore g = Some m → Marshal m = None).
  { intros g Hg m Hm. destruct (serializeStore_spec g m Hm) as (es & -> & Hes). apply Hnone. cbn.
    rewrite Hg in Hes. apply Hes in Hk. apply list_elem_of_fmap in Hk as ([k' v n' o d] & [= -> ->] & Hin).
    done. }
  split; [|split].
  - assert (Hg : ∀ g : Handler, h_store g = h_store h → (rounds n g members send_ok).2 = []); [|by apply Hg].
    induction n as [|n IH]; intros g Hg; [done|]. cbn [rounds].
    destruct (exchangeState g members send_ok) as [g' ps] eqn:Ex.
    assert (h_store g' = h_store h ∧ ps = []) as [Hg' ->].
    { unfold exchangeState in Ex. destruct (serializeStore g) as [m|] eqn:Em; [|by simplify_eq].
      rewrite (Hser g Hg m Em) in Ex. cbv zeta in Ex. repeat case_match; by simplify_eq. }
    specialize (IH g' Hg'). by destruct (rounds n g' members send_ok).
  - unfold handleLocalState. destruct (serializeStore h) as [m|] eqn:Em; [|done]. by apply (Hser h).
  - intros Hfresh Hw. pose proof (inv_tree _ (hi_store _ Hh)) as Ht.
    pose proof (replicate_begin_spec h uuid send_ok k e w Ht Hfresh) as Hb. unfold ReplicateWithQuorum.
    destruct (replicate_begin h uuid send_ok k e w) as [[h1 packets] [[err|]|c]]; cbn [snd]; [done| |].
    + destruct Hb as (_ & _ & ? & _). lia.
    + destruct Hb as (_ & _ & _ & _ & [b HM] & _). rewrite Hnone in HM; [done|]. cbn. by apply list_elem_of_singleton.
Qed.

(** A membership change is recorded and announced: [handleJoin] puts the
    node on the ring with 256 virtual nodes, [handleLeave] takes it off, the
    event is the most recent one of the log, and it reaches every subscriber
    whose channel has room, after the events already queued there; a full
    channel is left as it is and no other subscriber is affected. *)
Theorem membership_events h now id addr (join : bool) : handler_inv h →
  let ev := if join then mkClusterEvent now "join" id "" addr "" else mkClusterEvent now "leave" id "" "" "" in
  ∃ h', (if join then handleJoin h now id addr else handleLeave h now id) = Some h' ∧
    h_ring h' = (if join then ring_AddNode (h_ring h) id addr 256 else ring_RemoveNode (h_ring h) id) ∧
    RecentEvents h' 1 = Some [ev] ∧ h_store h' = h_store h ∧
    (∀ i c, subscribers h !! i = Some c → ∃ c', subscribers h' !! i = Some c' ∧ ch_cap c' = ch_cap c ∧
       ch_queue c' = if Z.of_nat (length (ch_queue c)) <? ch_cap c then ch_queue c ++ [ev] else ch_queue c) ∧
    dom (subscribers h') = dom (subscribers h).
Proof.
  intros Hh ev.
  assert (Hgen : ∀ g e, handler_inv g → ∃ g', PushEvent g e = Some g' ∧ h_ring g' = h_ring g ∧
    RecentEvents g' 1 = Some [e] ∧ h_store g' = h_store g ∧
    subscribers g' = (λ c, try_send c e) <$> subscribers g).
  { intros g e [Ea Eb Ev Ed [es Ec]]. unfold PushEvent. destruct (logs_Push _ _ es e Ec) as (r & Er & Hl).
    rewrite Er. cbn [mbind option_bind]. eexists. split; [done|]. split; [done|]. split; [|done].
    unfold RecentEvents. cbn [events with_events]. rewrite (logs_Recent r eventRingSize (es ++ [e])) by done.
    rewrite (logs_count _ _ _ Hl), length_app. cbn [length]. change eventRingSize with 200.
    destruct (Z.ltb_spec (Z.min (Z.of_nat (length es + 1)) 200) 1); [lia|].
    change (1 <=? 0) with false. cbn [orb]. change (Z.to_nat 1) with 1%nat.
    by rewrite Nat.add_sub, drop_app_length. }
  assert (Hsub : ∀ (g g' : Handler) e, subscribers g' = (λ c, try_send c e) <$> subscribers g →
    (∀ i c, subscribers g !! i = Some c → ∃ c', subscribers g' !! i = Some c' ∧ ch_cap c' = ch_cap c ∧
       ch_queue c' = if Z.of_nat (length (ch_queue c)) <? ch_cap c then ch_queue c ++ [e] else ch_queue c) ∧
    dom (subscribers g') = dom (subscribers g)).
  { intros g g' e ->. split; [|apply dom_fmap_L]. intros i c Hc. rewrite lookup_fmap, Hc.
    eexists. split; [done|]. unfold try_send. by case_match. }
  destruct join; unfold handleJoin, handleLeave.
  - destruct (Hgen (with_ring h (ring_AddNode (h_ring h) id addr 256)) ev) as (g & Eg & E1 & E2 & E3 & E4).
    { destruct Hh as [Ea Eb Ev Ec Ed]. split; [done|done|done| |done]. by apply ring_ok_AddNode. }
    exists g. split; [done|]. split; [done|]. split; [done|]. split; [done|]. by apply (Hsub _ g).
  - destruct (Hgen (with_ring h (ring_RemoveNode (h_ring h) id)) ev) as (g & Eg & E1 & E2 & E3 & E4).
    { destruct Hh as [Ea Eb Ev Ec Ed]. split; [done|done|done| |done]. by apply ring_ok_RemoveNode. }
    exists g. split; [done|]. split; [done|]. split; [done|]. split; [done|]. by apply (Hsub _ g).
Qed.

(** [New] leaves a usable write concern: whatever was configured, with a
    positive replication factor it is between 1 and that factor, and a value
    already in that range is kept. *)
Theorem New_write_concern c s r :
  let w := cfg_WriteConcern (cfg (New c s r)) in
  (1 ≤ cfg_ReplicaRF c → 1 ≤ w ≤ cfg_ReplicaRF c) ∧
  (1 ≤ cfg_WriteConcern c ≤ cfg_ReplicaRF c → w = cfg_WriteConcern c).
Proof.
  cbn. destruct (Z.leb_spec (cfg_WriteConcern c) 0), (Z.ltb_spec (cfg_ReplicaRF c) (cfg_WriteConcern c)); cbn; lia.
Qed.
End properties.

(** ** Joining *)

Definition tick_joins (t : Tick) : bool :=
  (tick_members t <=? 1) && bool_decide ((tick_discover t).2 = None) &&
  negb (bool_decide ((tick_discover t).1 = [])) && tick_join_ok t.

Section joining.
Context `{!BTreeOps item, !Hashring}.
Implicit Types h : Handler.

(** A join that failed at start is retried until it succeeds: when the
    seeds were found but no other member is known yet, the first tick at which
    discovery and [Join] succeed ends the loop with a successful join,
    provided no stop and no other way into the cluster came before it. *)
Theorem retryJoin_succeeds seeds before t after : seeds ≠ [] →
  (∀ ev, ev ∈ before → ∃ t', ev = OnTick t' ∧ tick_members t' ≤ 1 ∧ tick_joins t' = false) →
  tick_joins t = true →
  ∃ js, retryJoin seeds 1 (before ++ OnTick t :: after) = (js ++ [(tick_discover t).1], true) ∧
    ∀ j, j ∈ js → ∃ t', OnTick t' ∈ before ∧ j = (tick_discover t').1 ∧ tick_join_ok t' = false.
Proof.
  intros Hs Hb Ht. unfold retryJoin. destruct seeds as [|s0 seeds]; [done|]. cbn [Z.ltb Z.compare].
  change (1 <? 1) with false. cbv iota. clear Hs s0 seeds.
  induction before as [|ev before IH]; cbn [app retry_loop].
  - exists []. split; [|by intros j ?%elem_of_nil]. unfold tick_joins in Ht. bool_to_prop.
    destruct (Z.ltb_spec 1 (tick_members t)); [lia|].
    destruct (tick_discover t) as [sd err]. cbn [fst snd] in *.
    repeat match goal with E : bool_decide _ = true |- _ => apply bool_decide_eq_true in E
                         | E : bool_decide _ = false |- _ => apply bool_decide_eq_false in E end.
    subst err. destruct sd as [|x sd]; [done|].
    match goal with E : tick_join_ok t = true |- _ => rewrite E end. done.
  - destruct (Hb ev) as (t' & -> & Hm & Hj); [apply elem_of_cons; by left|].
    destruct IH as (js & Hjs & Hsrc); [intros e He; apply Hb, elem_of_cons; by right|].
    assert (Hcase : ∃ pre, retry_loop (OnTick t' :: before ++ OnTick t :: after) =
      (pre ++ js ++ [(tick_discover t).1], true) ∧
      ∀ j, j ∈ pre → j = (tick_discover t').1 ∧ tick_join_ok t' = false).
    { cbn [retry_loop]. destruct (Z.ltb_spec 1 (tick_members t')); [lia|]. rewrite Hjs.
      unfold tick_joins in Hj. destruct (Z.leb_spec (tick_members t') 1); [|lia].
      destruct (tick_discover t') as [[|x sd] [e|]]; cbn [fst snd] in *;
        try (exists []; split; [done|by intros j ?%elem_of_nil]).
      rewrite bool_decide_eq_true_2, bool_decide_eq_false_2 in Hj by done. cbn in Hj. rewrite Hj.
      exists [x :: sd]. split; [done|]. by intros j ->%list_elem_of_singleton. }
    destruct Hcase as (pre & Hpre & Hp). exists (pre ++ js). split; [rewrite <-app_assoc; exact Hpre|].
    intros j [Hj'|Hj']%elem_of_app.
    + destruct (Hp j Hj') as [-> Hf]. exists t'. split; [apply elem_of_cons; by left|done].
    + destruct (Hsrc j Hj') as (t2 & Hin & ?). exists t2. split; [apply elem_of_cons; by right|done].
Qed.

(** A failed seed discovery at start is never retried, although the log
    message announces a retry in the background: the retry loop returns at
    once on an empty seed list, so for every later event no join is attempted
    and the node stays alone. *)
Theorem discover_error_never_joins h err members evs :
  ∃ h', Start h true (Some ([], Some err)) members evs = Some (h', []).
Proof. by eexists. Qed.
End joining.

(** ** Instances at concrete inputs *)

Module GossipExamples.
#[local] Existing Instances SortedList.ops SortedList_laws MergeSort MergeSort_laws.
#[local] Existing Instances demo_proto demo_proto_laws demo_range demo_range_laws demo_ring demo_ring_laws.

Definition ring3 (local : string) : consistentHashring :=
  run_ring (H := demo_xxhash) local [HashRingProps.Join "a" "1:1" 3; HashRingProps.Join "b" "2:1" 3; HashRingProps.Join "c" "3:1" 3].

Lemma ring3_ok local : ring_ok (ring3 local : Ring).
Proof. exact (ex_intro _ _ (run_ring_repr (H := demo_xxhash) local _)). Qed.

Definition mk (id : string) (ops : list store_op) : Handler :=
  New (mkConfig id "" 3 2 30) (run Store.New ops) (ring3 id : Ring).

Lemma mk_inv id ops : forallb op_wf ops = true → no_wrap Store.New ops = true → handler_inv (mk id ops).
Proof.
  intros Hw Hn. apply handler_inv_New; [| | |apply ring3_ok].
  - apply run_inv; [apply store_inv_New|done].
  - by apply (run_clock Store.New ops store_inv_New clock_inv_New).
  - apply run_versions; [apply store_inv_New|apply clock_inv_New|done|done|].
    rewrite Snapshot_New. apply map_Forall_empty.
Qed.

Definition ha : Handler := mk "a" [OpSetFrom "k" "v" "a"].
Definition hb : Handler := mk "b" [OpSetFrom "k" "w" "b"; OpSetFrom "x" "y" "b"].
Definition entry : Entry := mkEntry "v" 1 "a" false.

Lemma ha_inv : handler_inv ha.
Proof. by apply mk_inv. Qed.
Lemma hb_inv : handler_inv hb.
Proof. by apply mk_inv. Qed.

(** Node "b" acknowledges twice, which counts once and is enough for w = 2. *)
Lemma ReplicateWithQuorum_outcome_witness :
  (ReplicateWithQuorum ha "id" (λ _, true) [mkAck "b" None; mkAck "b" None] "k" entry 2).2 = None ∧
  (ReplicateWithQuorum ha "id" (λ _, true) [mkAck "b" None; mkAck "b" None] "k" entry 3).2 ≠ None.
Proof.
  pose proof (ReplicateWithQuorum_outcome ha "id" (λ _, true) [mkAck "b" None; mkAck "b" None] "k" entry 2
    ha_inv eq_refl) as E2.
  pose proof (ReplicateWithQuorum_outcome ha "id" (λ _, true) [mkAck "b" None; mkAck "b" None] "k" entry 3
    ha_inv eq_refl) as E3.
  destruct (ReplicateWithQuorum ha _ _ _ _ _ 2) as [[h2 p2] r2], (ReplicateWithQuorum ha _ _ _ _ _ 3) as [[h3 p3] r3].
  cbv zeta in E2, E3. destruct E2 as [E2 _], E3 as [E3 _]. cbn [snd]. split.
  - apply E2. right. split; [vm_compute; by eexists|]. vm_compute. discriminate.
  - intros Hr. apply E3 in Hr as [Hr|[_ Hr]]; vm_compute in Hr; contradiction (Hr eq_refl).
Defined.

Lemma gossip_history_safe_witness :
  ∃ h', run_gossip ha [OpJoin 5 "d" "4:1"; OpLeave 6 "b"; OpMerge "0"; OpReplicate "id" (λ _, false) [] "z" entry 2] = Some h' ∧
    handler_inv h' ∧ keeps_writes ha h'.
Proof.
  apply (gossip_history_safe ha [OpJoin 5 "d" "4:1"; OpLeave 6 "b"; OpMerge "0"; OpReplicate "id" (λ _, false) [] "z" entry 2]).
  - exact ha_inv.
  - vm_compute. reflexivity.
Defined.

Definition p1 := to_pb "k" (mkEntry "w" 4 "b" false).
Definition p2 := to_pb "k" (mkEntry "" 7 "c" true).

Lemma HandleReplication_merges_witness :
  Snapshot (h_store (HandleReplication ha [p1; p2])) = Snapshot (h_store (HandleReplication ha [p2; p1; p2])).
Proof.
  refine (proj1 (proj2 (HandleReplication_merges ha [p1; p2] [p2; p1; p2] ha_inv _))).
  set_solver.
Defined.

Definition buf_a : string := default "" (handleLocalState ha).
Definition buf_b : string := default "" (handleLocalState (handleMergeRemoteState hb buf_a)).

Lemma push_pull_converges_witness :
  Snapshot (h_store (handleMergeRemoteState ha buf_b)) !! "k" =
  Snapshot (h_store (handleMergeRemoteState hb buf_a)) !! "k".
Proof.
  refine (proj1 (push_pull_converges ha hb buf_a buf_b ha_inv hb_inv _ _ "k" _ _)).
  - vm_compute. reflexivity.
  - vm_compute. reflexivity.
  - vm_compute. reflexivity.
  - vm_compute. reflexivity.
Defined.

Definition members3 : list MemberInfo := [mkMemberInfo "c" "" "" "alive"; mkMemberInfo "a" "" "" "alive"; mkMemberInfo "b" "" "" "alive"].
Definition snap_a : GossipMessage := default NoPayload (serializeStore ha).

Lemma anti_entropy_fair_witness :
  (rounds 2 ha members3 (λ _, true)).2 ≡ₚ [("c", buf_a); ("b", buf_a)].
Proof.
  refine (anti_entropy_fair ha members3 snap_a buf_a _ _ _ _ _).
  - vm_compute. reflexivity.
  - vm_compute. reflexivity.
  - vm_compute. discriminate.
  - vm_compute. lia.
  - vm_compute. lia.
Defined.

Definition binary : string := String "255" "".
Definition hx : Handler := mk "a" [OpSetFrom "k" binary "a"].

Lemma hx_inv : handler_inv hx.
Proof. by apply mk_inv. Qed.

Lemma invalid_utf8_blocks_replication_witness : handleLocalState hx = None.
Proof.
  refine (proj1 (proj2 (invalid_utf8_blocks_replication hx "k" (mkEntry binary 1 "a" false) members3 (λ _, true) 4
    "id" [] 2 hx_inv _ _))); vm_compute; reflexivity.
Defined.

Lemma membership_events_witness : ∃ h', handleLeave ha 9 "b" = Some h' ∧
  RecentEvents h' 1 = Some [mkClusterEvent 9 "leave" "b" "" "" ""].
Proof.
  destruct (membership_events ha 9 "b" "" false ha_inv) as (h' & E & _ & Hr & _).
  exact (ex_intro _ h' (conj E Hr)).
Defined.

Lemma retryJoin_succeeds_witness :
  ∃ js, retryJoin ["s:1"] 1 [OnTick (mkTick 1 ([], Some "dns") true); OnTick (mkTick 1 (["s:1"], None) true)] = (js ++ [["s:1"]], true).
Proof.
  destruct (retryJoin_succeeds ["s:1"] [OnTick (mkTick 1 ([], Some "dns") true)] (mkTick 1 (["s:1"], None) true) [])
    as (js & E & _); [done| |vm_compute; reflexivity|].
  - intros ev ->%list_elem_of_singleton. eexists. split; [done|]. split; [cbn; lia|vm_compute; reflexivity].
  - exact (ex_intro _ js E).
Defined.
End GossipExamples.
