(* ===== verification/Cluster.v ===== *)
(** * The cluster: nodes that exchange gossip messages

    The handlers of [internal/gossip] run on several nodes over an unreliable
    network.  A packet that was accepted for sending stays in the network for
    ever, so it may be delivered never, late, repeatedly and in any order.
    Calls of [ReplicateWithQuorum] run concurrently with the delivery of
    messages: each is a [Call] of its node that waits for acknowledgements.

    The record also keeps, for the statements, which request stands for which
    write ([c_reqs]) and which writes have been reported successful
    ([c_done]). *)

From S2P Require Import Prelude GoStrconv GoSort GoUtf8 BTree Store StoreProps.
From S2P Require Import HashRing HashRingProps RingInterface EventRing Gossip Instances GossipProps.
Local Open Scope Z_scope.

(** ** States and steps *)

Section cluster.
Context `{!BTreeOps item, !Hashring, !Proto, !SliceSort, !MapRange}.

Record node := mkNode { n_handler : Handler; n_calls : gmap string Call }.

(** A write: the node that coordinates it, the key, the entry, and the key's
    replicas in the coordinator's ring when the call began. *)
Record write := mkWrite { wr_node : string; wr_key : string; wr_entry : Entry; wr_replicas : gset string }.

Definition new_write (id : string) (h : Handler) (key : string) (entry : Entry) : write :=
  mkWrite id key entry (list_to_set (NodeID <$> ring_GetReplicas (h_ring h) key (cfg_ReplicaRF (cfg h)))).

Record cluster := mkCluster {
  c_nodes : gmap string node;
  c_net : list Packet;
  c_reqs : gmap string write;
  c_done : list (write * Z);
}.

(** Node [id] becomes [nd], [ps] are sent. *)
Definition update (cl : cluster) (id : string) (nd : node) (ps : list Packet) : cluster :=
  mkCluster (<[id := nd]> (c_nodes cl)) (ps ++ c_net cl) (c_reqs cl) (c_done cl).

(** A call starts: its request is remembered. *)
Definition register (cl : cluster) (uuid : string) (wr : write) : cluster :=
  mkCluster (c_nodes cl) (c_net cl) (<[uuid := wr]> (c_reqs cl)) (c_done cl).

(** A call returns nil. *)
Definition report (cl : cluster) (wr : write) (w : Z) : cluster :=
  mkCluster (c_nodes cl) (c_net cl) (c_reqs cl) ((wr, w) :: c_done cl).

(** What a call's progress means for its node and the cluster. *)
Definition settle (cl : cluster) (id : string) (h : Handler) (calls : gmap string Call)
    (ps : list Packet) (uuid : string) (wr : write) (w : Z) (p : Progress) : cluster :=
  match p with
  | Waiting c => update cl id (mkNode h (<[uuid := c]> calls)) ps
  | Returned None => report (update cl id (mkNode h (delete uuid calls)) ps) wr w
  | Returned (Some _) => update cl id (mkNode h (delete uuid calls)) ps
  end.

(** What the nodes do without a client: calls make progress, messages arrive,
    states are exchanged. *)
Inductive bstep (cl : cluster) : cluster → Prop :=
  (** a waiting call takes an acknowledgement *)
  | step_ack id nd uuid c wr h p :
      c_nodes cl !! id = Some nd → n_calls nd !! uuid = Some c → c_reqs cl !! uuid = Some wr →
      replicate_recv (n_handler nd) c = Some (h, p) →
      bstep cl (settle cl id h (n_calls nd) [] uuid wr (call_w c) p)
  (** a waiting call reaches its deadline *)
  | step_deadline id nd uuid c wr :
      c_nodes cl !! id = Some nd → n_calls nd !! uuid = Some c → c_reqs cl !! uuid = Some wr →
      bstep cl (let '(h, p) := replicate_deadline (n_handler nd) c in
                settle cl id h (n_calls nd) [] uuid wr (call_w c) p)
  (** a packet arrives *)
  | step_deliver id nd buf send_ok :
      c_nodes cl !! id = Some nd → (id, buf) ∈ c_net cl →
      bstep cl (let '(h, ps) := handleMessage (n_handler nd) send_ok buf in
                update cl id (mkNode h (n_calls nd)) ps)
  (** a round of anti-entropy *)
  | step_exchange id nd members send_ok :
      c_nodes cl !! id = Some nd →
      bstep cl (let '(h, ps) := exchangeState (n_handler nd) members send_ok in
                update cl id (mkNode h (n_calls nd)) ps)
  (** a push-pull synchronisation *)
  | step_merge id nd from nd' buf :
      c_nodes cl !! id = Some nd → c_nodes cl !! from = Some nd' →
      handleLocalState (n_handler nd') = Some buf →
      bstep cl (update cl id (mkNode (handleMergeRemoteState (n_handler nd) buf) (n_calls nd)) []).

(** [ReplicateWithQuorum] is called on node [id]. *)
Definition begin_write (cl : cluster) (id : string) (nd : node) (uuid : string) (send_ok : string → bool)
    (key : string) (entry : Entry) (w : Z) : cluster :=
  let wr := new_write id (n_handler nd) key entry in
  let '(h, ps, p) := replicate_begin (n_handler nd) uuid send_ok key entry w in
  settle (register cl uuid wr) id h (n_calls nd) ps uuid wr w p.

Inductive cstep (cl : cluster) : cluster → Prop :=
  (** a call of the store that is not replicated yet; the clock has room *)
  | step_store id nd op :
      c_nodes cl !! id = Some nd → op_wf op = true →
      clock (h_store (n_handler nd)) + op_ticks op ≤ maxInt64 →
      cstep cl (update cl id (mkNode (with_store (n_handler nd) (exec_op (h_store (n_handler nd)) op))
                                     (n_calls nd)) [])
  (** a quorum write begins; its identifier is fresh *)
  | step_write id nd uuid send_ok key entry w :
      c_nodes cl !! id = Some nd → c_reqs cl !! uuid = None → in_int64 (Version entry) →
      cstep cl (begin_write cl id nd uuid send_ok key entry w)
  | step_background cl' : bstep cl cl' → cstep cl cl'
  (** a membership change is noticed *)
  | step_member id nd h now other addr :
      c_nodes cl !! id = Some nd →
      handleJoin (n_handler nd) now other addr = Some h ∨
      handleLeave (n_handler nd) now other = Some h ∨
      handleUpdate (n_handler nd) now other addr = Some h →
      cstep cl (update cl id (mkNode h (n_calls nd)) []).

(** The start: fresh handlers, nothing sent, nothing pending. *)
Definition initial (cl : cluster) : Prop :=
  c_net cl = [] ∧ c_reqs cl = ∅ ∧ c_done cl = [] ∧
  ∀ id nd, c_nodes cl !! id = Some nd →
    n_calls nd = ∅ ∧ pendingReqs (n_handler nd) = ∅ ∧ localID (n_handler nd) = id.

Definition reachable_from (cl0 cl : cluster) : Prop := rtc cstep cl0 cl.
End cluster.

(** ** The invariant *)

Section invariant.
Context `{!BTreeOps item, !BTreeLaws less, !Hashring, !HashringLaws, !Proto, !ProtoLaws,
          !SliceSort, !MapRange, !MapRangeLaws}.
Implicit Types cl : cluster.

(** Node [id] holds the write or a newer one of its key. *)
Definition holds cl (id key : string) (e : Entry) : Prop :=
  ∃ nd, c_nodes cl !! id = Some nd ∧ covers (Snapshot (h_store (n_handler nd))) key e.

(** What a packet in the network may be. *)
Definition packet_ok cl (buf : string) : Prop :=
  match Unmarshal buf with
  | Some (ReplicateReq req) => ∃ s k e T, c_reqs cl !! req_RequestId req = Some (mkWrite s k e T) ∧
      req_Entries req = [to_pb k e]
  | Some (ReplicateResp resp) => resp_Success resp = true →
      ∃ s k e T, c_reqs cl !! resp_RequestId resp = Some (mkWrite s k e T) ∧ holds cl (resp_NodeId resp) k e
  | _ => True
  end.

(** A positive acknowledgement in a channel is from a node that has the write. *)
Definition ack_ok cl (uuid : string) (a : ackResult) : Prop :=
  ack_err a = None → ∃ s k e T, c_reqs cl !! uuid = Some (mkWrite s k e T) ∧ holds cl (ack_nodeID a) k e.

Definition call_inv cl (id uuid : string) (c : Call) : Prop :=
  call_id c = uuid ∧ call_ok c ∧ id ∉ call_expected c ∧ call_acked c ⊆ call_expected c ∧
  ∃ k e T, c_reqs cl !! uuid = Some (mkWrite id k e T) ∧ call_expected c ⊆ T ∧ holds cl id k e ∧
    ∀ m, m ∈ call_acked c → holds cl m k e.

Record node_inv cl (id : string) (nd : node) : Prop := {
  ni_handler : handler_inv (n_handler nd);
  ni_id : localID (n_handler nd) = id;
  ni_pending uuid ch : pendingReqs (n_handler nd) !! uuid = Some ch →
    is_Some (c_reqs cl !! uuid) ∧ ∀ a, a ∈ ch_queue ch → ack_ok cl uuid a;
  ni_calls uuid c : n_calls nd !! uuid = Some c → call_inv cl id uuid c;
}.

(** At least [w] nodes hold the write. *)
Definition replicated cl (wr : write) (w : Z) : Prop :=
  ∃ S : gset string, S ⊆ {[wr_node wr]} ∪ wr_replicas wr ∧ w ≤ Z.of_nat (size S) ∧
    ∀ m, m ∈ S → holds cl m (wr_key wr) (wr_entry wr).

Record cluster_inv cl : Prop := {
  ci_node id nd : c_nodes cl !! id = Some nd → node_inv cl id nd;
  ci_net d buf : (d, buf) ∈ c_net cl → packet_ok cl buf;
  ci_done wr w : (wr, w) ∈ c_done cl → replicated cl wr w;
}.

(** ** Monotonicity *)

(** [cl'] knows the requests of [cl] and has lost no write. *)
Record extends cl cl' : Prop := {
  ex_reqs : c_reqs cl ⊆ c_reqs cl';
  ex_holds id k e : holds cl id k e → holds cl' id k e;
}.

Lemma extends_refl cl : extends cl cl.
Proof. by split. Qed.

Lemma packet_ok_mono cl cl' buf : extends cl cl' → packet_ok cl buf → packet_ok cl' buf.
Proof.
  intros [Hr Hh]. unfold packet_ok. destruct (Unmarshal buf) as [[es|req|resp|]|]; try done.
  - intros (s & k & e & T & Hq & He). exists s, k, e, T. split; [by eapply lookup_weaken|done].
  - intros Hp Ho. destruct (Hp Ho) as (s & k & e & T & Hq & He). exists s, k, e, T.
    split; [by eapply lookup_weaken|auto].
Qed.

Lemma ack_ok_mono cl cl' uuid a : extends cl cl' → ack_ok cl uuid a → ack_ok cl' uuid a.
Proof.
  intros [Hr Hh] Ha He. destruct (Ha He) as (s & k & e & T & Hq & Hk). exists s, k, e, T.
  split; [by eapply lookup_weaken|auto].
Qed.

Lemma call_inv_mono cl cl' id uuid c : extends cl cl' → call_inv cl id uuid c → call_inv cl' id uuid c.
Proof.
  intros [Hr Hh] (Hid & Hok & Hn & Hs & k & e & T & Hq & HT & Hl & Ha).
  split_and!; try done. exists k, e, T. split_and!; [by eapply lookup_weaken|auto..].
Qed.

Lemma node_inv_mono cl cl' id nd : extends cl cl' → node_inv cl id nd → node_inv cl' id nd.
Proof.
  intros Hx [Ha Hb Hc Hd]. split; [done|done| |].
  - intros uuid ch Hch. destruct (Hc uuid ch Hch) as [[wr Hw] Hq].
    split; [exists wr; by eapply lookup_weaken, ex_reqs|]. intros a Hin. by eapply ack_ok_mono, Hq.
  - intros uuid c Hcall. by eapply call_inv_mono, Hd.
Qed.

Lemma replicated_mono cl cl' wr w : extends cl cl' → replicated cl wr w → replicated cl' wr w.
Proof. intros [_ Hh] (S & Hsub & Hw & Hs). exists S. auto. Qed.

(** Replacing a node by one that keeps its writes. *)
Lemma update_extends cl id nd nd' ps : c_nodes cl !! id = Some nd →
  keeps_writes (n_handler nd) (n_handler nd') → extends cl (update cl id nd' ps).
Proof.
  intros Hn Hk. split; [done|]. intros m k e (x & Hx & Hc). unfold holds. cbn [c_nodes update].
  destruct (decide (id = m)) as [->|Hne].
  - rewrite lookup_insert_eq. simplify_eq. eauto.
  - rewrite lookup_insert_ne by done. eauto.
Qed.

(** The invariant is preserved when one node changes and packets are added. *)
Lemma update_inv cl id nd nd' ps : cluster_inv cl → c_nodes cl !! id = Some nd →
  keeps_writes (n_handler nd) (n_handler nd') →
  node_inv (update cl id nd' ps) id nd' →
  (∀ d buf, (d, buf) ∈ ps → packet_ok (update cl id nd' ps) buf) →
  cluster_inv (update cl id nd' ps).
Proof.
  intros [Ha Hb Hc] Hn Hk Hi Hp. pose proof (update_extends cl id nd nd' ps Hn Hk) as Hx. split.
  - intros m x. cbn [c_nodes update]. destruct (decide (id = m)) as [->|Hne].
    + rewrite lookup_insert_eq. by intros [= <-].
    + rewrite lookup_insert_ne by done. intros Hm. by eapply node_inv_mono, Ha.
  - intros d buf. cbn [c_net update]. intros [Hin|Hin]%elem_of_app; [by eapply Hp|].
    by eapply packet_ok_mono, Hb.
  - intros wr w Hw. by eapply replicated_mono, Hc.
Qed.

(** The frequent case: the pending requests and the calls do not change. *)
Lemma update_frame cl id nd h ps : cluster_inv cl → c_nodes cl !! id = Some nd →
  handler_inv h → keeps_writes (n_handler nd) h →
  localID h = localID (n_handler nd) → pendingReqs h = pendingReqs (n_handler nd) →
  (∀ d buf, (d, buf) ∈ ps → packet_ok (update cl id (mkNode h (n_calls nd)) ps) buf) →
  cluster_inv (update cl id (mkNode h (n_calls nd)) ps).
Proof.
  intros Hcl Hn Hh Hk Hid Hpe Hp. apply (update_inv cl id nd); try done.
  pose proof (update_extends cl id nd (mkNode h (n_calls nd)) ps Hn Hk) as Hx.
  destruct (ci_node _ Hcl _ _ Hn) as [Ha Hb Hc Hd]. split; cbn [n_handler n_calls].
  - done.
  - by rewrite Hid.
  - rewrite Hpe. intros uuid ch Hch. destruct (Hc uuid ch Hch) as [Hr Hq]. split; [done|].
    intros a Hin. by eapply ack_ok_mono, Hq.
  - intros uuid c Hcall. by eapply call_inv_mono, Hd.
Qed.

(** ** Steps that preserve the invariant *)

Lemma register_inv cl uuid wr : cluster_inv cl → c_reqs cl !! uuid = None →
  cluster_inv (register cl uuid wr).
Proof.
  intros [Ha Hb Hc] Hf.
  assert (Hx : extends cl (register cl uuid wr)) by (split; [by apply insert_subseteq|done]).
  split.
  - intros id nd Hn. by eapply node_inv_mono, Ha.
  - intros d buf Hin. by eapply packet_ok_mono, (Hb d).
  - intros wr' w Hw. by eapply replicated_mono, Hc.
Qed.

Lemma report_inv cl wr w : cluster_inv cl → replicated cl wr w → cluster_inv (report cl wr w).
Proof.
  intros [Ha Hb Hc] Hr.
  assert (Hx : extends cl (report cl wr w)) by (by split).
  split.
  - intros id nd Hn. by eapply node_inv_mono, Ha.
  - intros d buf Hin. by eapply packet_ok_mono, (Hb d).
  - intros wr' w'. cbn [c_done report]. intros [[= -> ->]|Hw]%elem_of_cons; [by eapply replicated_mono|].
    by eapply replicated_mono, Hc.
Qed.

(** A node whose pending requests and calls change. *)
Lemma node_inv_change cl id nd h calls ps : cluster_inv cl → c_nodes cl !! id = Some nd →
  handler_inv h → keeps_writes (n_handler nd) h → localID h = localID (n_handler nd) →
  let cl' := update cl id (mkNode h calls) ps in
  (∀ uuid ch, pendingReqs h !! uuid = Some ch →
     pendingReqs (n_handler nd) !! uuid = Some ch ∨
     is_Some (c_reqs cl !! uuid) ∧ ∀ a, a ∈ ch_queue ch → ack_ok cl uuid a) →
  (∀ uuid c, calls !! uuid = Some c → n_calls nd !! uuid = Some c ∨ call_inv cl' id uuid c) →
  node_inv cl' id (mkNode h calls).
Proof.
  intros Hcl Hn Hh Hk Hid cl' Hp Hc.
  pose proof (update_extends cl id nd (mkNode h calls) ps Hn Hk : extends cl cl') as Hx.
  destruct (ci_node _ Hcl _ _ Hn) as [Ea Eb Ec Ed]. split; cbn [n_handler n_calls].
  - done.
  - by rewrite Hid.
  - intros uuid ch Hch.
    assert (is_Some (c_reqs cl !! uuid) ∧ ∀ a, a ∈ ch_queue ch → ack_ok cl uuid a) as [Hr Hq].
    { destruct (Hp _ _ Hch) as [Hold|Hnew]; [by apply Ec|done]. }
    split; [done|]. intros a Hin. by eapply ack_ok_mono, Hq.
  - intros uuid c Hcall. destruct (Hc _ _ Hcall) as [Hold|Hnew]; [|done]. by eapply call_inv_mono, Ed.
Qed.

Lemma deliver_inv cl id nd buf send_ok : cluster_inv cl → c_nodes cl !! id = Some nd →
  (id, buf) ∈ c_net cl →
  cluster_inv (let '(h, ps) := handleMessage (n_handler nd) send_ok buf in
               update cl id (mkNode h (n_calls nd)) ps).
Proof.
  intros Hcl Hn Hin. pose proof (ci_net _ Hcl _ _ Hin) as Hpk.
  destruct (ci_node _ Hcl _ _ Hn) as [Hh Hid Hpend Hcalls].
  pose proof (handleMessage_inv (n_handler nd) send_ok buf Hh) as [Hh' Hk].
  unfold handleMessage in *. unfold packet_ok in Hpk.
  destruct (Unmarshal buf) as [[es|req|resp|]|] eqn:Hu; cbn [fst] in *.
  - pose proof (HandleReplication_frame (n_handler nd) es) as Hf.
    apply (update_frame cl id nd); try done; [by rewrite Hf|by rewrite Hf|by intros ? ? ?%elem_of_nil].
  - destruct Hpk as (s & k & e & T & Hreq & Hes).
    unfold handleReplicateRequest in *. rewrite Hes in *.
    pose proof (apply_request_spec (n_handler nd) [to_pb k e] (inv_tree _ (hi_store _ Hh))) as Hap.
    destruct (apply_request (n_handler nd) [to_pb k e]) as [ok h'] eqn:Ea.
    destruct Hap as (Ht' & Hsame & _ & d & _ & Hall & Hs').
    assert (Hid' : localID h' = id) by (by rewrite Hsame).
    assert (Hframe : ∀ ps, handler_inv h' → keeps_writes (n_handler nd) h' →
      (∀ d buf', (d, buf') ∈ ps →
         packet_ok (update cl id (mkNode h' (n_calls nd)) ps) buf') →
      cluster_inv (update cl id (mkNode h' (n_calls nd)) ps)).
    { intros ps E1 E2 E3. apply (update_frame cl id nd); try done; by rewrite Hsame. }
    destruct (Marshal _) as [rb|] eqn:HM; cbn [fst] in *; [|apply Hframe; try done; by intros ? ? ?%elem_of_nil].
    apply Hframe; [done|done|]. intros d' buf' Hin'.
    assert (buf' = rb) as ->.
    { destruct (send_ok (req_SenderId req)); [|by apply elem_of_nil in Hin'].
      apply list_elem_of_singleton in Hin'. congruence. }
    apply Unmarshal_Marshal in HM; [|done]. unfold packet_ok. rewrite HM. cbn [resp_Success resp_RequestId resp_NodeId].
    intros Hok. exists s, k, e, T. split; [done|]. unfold NodeID_. rewrite Hid'.
    eexists. split; [apply lookup_insert_eq|]. cbn [n_handler]. rewrite Hs', (Hall Hok).
    destruct e as [v n o dl]. apply merge_all_covers. apply list_elem_of_singleton. done.
  - unfold handleReplicateResponse in *.
    destruct (pendingReqs (n_handler nd) !! resp_RequestId resp) as [ch|] eqn:Hch.
    2: { apply (update_frame cl id nd); try done. by intros ? ? ?%elem_of_nil. }
    apply (update_inv cl id nd); [done|done|done| |by intros ? ? ?%elem_of_nil].
    apply (node_inv_change cl id nd); [done|done|done|done|done| |by left].
    cbn [pendingReqs with_pending]. intros uuid ch' Hl.
    destruct (decide (resp_RequestId resp = uuid)) as [<-|Hne].
    2: { rewrite lookup_insert_ne in Hl by done. by left. }
    rewrite lookup_insert_eq in Hl. injection Hl as <-. right.
    destruct (Hpend _ _ Hch) as [Hr Hq]. split; [done|]. intros a Ha.
    unfold try_send in Ha. case_match; [|by apply Hq]. cbn [ch_queue] in Ha.
    apply elem_of_app in Ha as [Ha|Ha]; [by apply Hq|]. apply list_elem_of_singleton in Ha as ->.
    intros Herr. cbn [ack_err ack_nodeID] in *. destruct (resp_Success resp); [|done]. by apply Hpk.
  - apply (update_frame cl id nd); try done. by intros ? ? ?%elem_of_nil.
  - apply (update_frame cl id nd); try done. by intros ? ? ?%elem_of_nil.
Qed.

Lemma write_inv cl id nd uuid send_ok key entry w : cluster_inv cl → c_nodes cl !! id = Some nd →
  c_reqs cl !! uuid = None → in_int64 (Version entry) →
  cluster_inv (begin_write cl id nd uuid send_ok key entry w).
Proof.
  intros Hcl0 Hn Hfresh Hv. unfold begin_write. cbv zeta.
  assert (Hnew : pendingReqs (n_handler nd) !! uuid = None).
  { destruct (pendingReqs (n_handler nd) !! uuid) as [ch|] eqn:E; [|done].
    destruct (ni_pending _ _ _ (ci_node _ Hcl0 _ _ Hn) _ _ E) as [[wr Hw] _]. congruence. }
  pose proof (register_inv cl uuid (new_write id (n_handler nd) key entry) Hcl0 Hfresh) as Hcl.
  set (cl1 := register cl uuid (new_write id (n_handler nd) key entry)) in *.
  assert (Hn1 : c_nodes cl1 !! id = Some nd) by done.
  assert (Hq1 : c_reqs cl1 !! uuid = Some (new_write id (n_handler nd) key entry)) by apply lookup_insert_eq.
  destruct (ci_node _ Hcl _ _ Hn1) as [Hh Hid Hpend Hcalls].
  pose proof (replicate_begin_spec (n_handler nd) uuid send_ok key entry w (inv_tree _ (hi_store _ Hh)) Hnew) as Hb.
  pose proof (replicate_begin_inv (n_handler nd) uuid send_ok key entry w Hh Hv) as Hi.
  destruct (replicate_begin (n_handler nd) uuid send_ok key entry w) as [[h ps] p]. cbn [fst] in Hi.
  cbv zeta in Hb. destruct Hb as (Hs & Hp & Hprog), Hi as (Hh' & Hk & Hcov & _).
  assert (Hpk : ∀ cl', c_reqs cl' = c_reqs cl1 → ∀ d buf, (d, buf) ∈ ps → packet_ok cl' buf).
  { intros cl' Hcl' d buf Hin. destruct (Hp d buf Hin) as (_ & HM & _).
    apply Unmarshal_Marshal in HM; [|cbn; by rewrite bool_decide_eq_true_2].
    unfold packet_ok. rewrite HM. eexists id, key, entry, _. cbn. by rewrite Hcl'. }
  assert (Hholds : ∀ calls, holds (update cl1 id (mkNode h calls) ps) id key entry).
  { intros calls. eexists. split; [apply lookup_insert_eq|]. exact Hcov. }
  assert (Hret : h = with_store (n_handler nd) (h_store h) →
    cluster_inv (update cl1 id (mkNode h (delete uuid (n_calls nd))) ps)).
  { intros Hsame. apply (update_inv cl1 id nd); [done|done|done| |by apply Hpk].
    apply (node_inv_change cl1 id nd); [done|done|done|done|by rewrite Hsame| |].
    - intros u ch Hu. left. by rewrite Hsame in Hu.
    - intros u c [_ Hu]%lookup_delete_Some. by left. }
  destruct p as [[err|]|c]; cbn [settle].
  - destruct Hprog as (_ & Hsame & _). by apply Hret.
  - destruct Hprog as (Hw & Hsame). apply report_inv; [by apply Hret|].
    exists {[id]}. rewrite size_singleton. split; [apply union_subseteq_l|]. split; [lia|]. intros m ->%elem_of_singleton. apply Hholds.
  - destruct Hprog as (Hw & -> & _ & _ & Hsame).
    apply (update_inv cl1 id nd); [done|done|done| |by apply Hpk].
    apply (node_inv_change cl1 id nd); [done|done|done|done|by rewrite Hsame| |].
    + intros u ch Hu. rewrite Hsame in Hu. cbn [pendingReqs with_pending] in Hu.
      apply lookup_insert_Some in Hu as [[<- <-]|[_ Hu]]; [|by left].
      right. split; [by eexists|]. by intros a ?%elem_of_nil.
    + intros u c Hu. apply lookup_insert_Some in Hu as [[<- <-]|[_ Hu]]; [|by left]. right.
      split; [done|]. split; [done|]. split.
      { cbn [call_expected]. rewrite elem_of_list_to_set. intros [_ Hr]%elem_of_reachable.
        apply remote_not_self in Hr. unfold NodeID_ in Hr. congruence. }
      split; [done|]. eexists key, entry, _. split; [done|]. split; [|split; [apply Hholds|]].
      { intros d [_ Hd]%elem_of_list_to_set%elem_of_reachable. apply elem_of_list_to_set.
        apply list_elem_of_fmap in Hd as (rp & -> & [Hrp _]%elem_of_list_filter_bool). by apply list_elem_of_fmap_2. }
      by intros m ?%elem_of_empty.
Qed.

Lemma call_done_inv h c : handler_inv h → handler_inv (call_done h c) ∧ keeps_writes h (call_done h c).
Proof. intros [Ea Eb Ec Ed Ee]. split; [by split|by apply keeps_same_store]. Qed.

Lemma deadline_inv cl id nd uuid c wr : cluster_inv cl → c_nodes cl !! id = Some nd →
  n_calls nd !! uuid = Some c →
  cluster_inv (let '(h, p) := replicate_deadline (n_handler nd) c in
               settle cl id h (n_calls nd) [] uuid wr (call_w c) p).
Proof.
  intros Hcl Hn Hc. cbn [replicate_deadline settle].
  destruct (ci_node _ Hcl _ _ Hn) as [Hh Hid Hpend Hcalls].
  destruct (call_done_inv (n_handler nd) c Hh) as [Hh' Hk].
  apply (update_inv cl id nd); [done|done|done| |by intros ? ? ?%elem_of_nil].
  apply (node_inv_change cl id nd); [done..| |].
  - cbn [pendingReqs call_done with_pending]. intros u ch [_ Hu]%lookup_delete_Some. by left.
  - intros u c' [_ Hu]%lookup_delete_Some. by left.
Qed.

Lemma ack_inv cl id nd uuid c wr h p : cluster_inv cl → c_nodes cl !! id = Some nd →
  n_calls nd !! uuid = Some c → c_reqs cl !! uuid = Some wr →
  replicate_recv (n_handler nd) c = Some (h, p) →
  cluster_inv (settle cl id h (n_calls nd) [] uuid wr (call_w c) p).
Proof.
  intros Hcl Hn Hc Hreq Hrecv.
  destruct (ci_node _ Hcl _ _ Hn) as [Hh Hid Hpend Hcalls].
  destruct (Hcalls _ _ Hc) as (Hcid & Hcok & Hnself & Hsub & k & e & T & Hq & HT & Hself & Hacked).
  assert (wr = mkWrite id k e T) as -> by congruence. unfold replicate_recv in Hrecv. rewrite Hcid in Hrecv.
  destruct (pendingReqs (n_handler nd) !! uuid) as [ch|] eqn:Hch; [|done]. cbn [mbind option_bind] in Hrecv.
  destruct (ch_queue ch) as [|res q] eqn:Hqueue; [done|].
  destruct (Hpend _ _ Hch) as [Hr Hack]. rewrite Hqueue in Hack.
  destruct (count_ack_ok c res Hcok) as (Hcok' & Hcid' & Hw' & Hexp' & Hacked').
  set (c' := count_ack c res) in *.
  assert (Hgood : ∀ m, m ∈ call_acked c' → m ∈ call_expected c ∧ holds cl m k e).
  { intros m. rewrite Hacked'. intros [Hm|Hm]%elem_of_union; [|auto].
    apply elem_of_ackers in Hm as [Hm Hin]. split; [done|]. apply list_elem_of_singleton in Hin.
    destruct (Hack res ltac:(apply elem_of_cons; by left)) as (s & k' & e' & T' & Hq' & Hm'); [by subst res|].
    assert (mkWrite s k' e' T' = mkWrite id k e T) as [= -> -> -> ->] by congruence. by subst res. }
  set (h1 := with_pending (n_handler nd) (<[uuid := mkChan (ch_cap ch) q]> (pendingReqs (n_handler nd)))) in *.
  assert (Hh1 : handler_inv h1 ∧ keeps_writes (n_handler nd) h1)
    by (split; [by destruct Hh|by apply keeps_same_store]).
  assert (Hpend1 : ∀ u ch', pendingReqs h1 !! u = Some ch' → pendingReqs (n_handler nd) !! u = Some ch' ∨
     is_Some (c_reqs cl !! u) ∧ ∀ a, a ∈ ch_queue ch' → ack_ok cl u a).
  { intros u ch' Hu. cbn [pendingReqs with_pending h1] in Hu. apply lookup_insert_Some in Hu as [[<- <-]|[_ Hu]]; [|by left]. right. split; [done|].
    intros a Ha. apply Hack, elem_of_cons. by right. }
  unfold call_progress in Hrecv. destruct (Z.ltb_spec (call_acks c') (call_w c')) as [Hlt|Hge];
    injection Hrecv as <- <-; cbn [settle].
  - apply (update_inv cl id nd); [done|done|apply Hh1| |by intros ? ? ?%elem_of_nil].
    apply (node_inv_change cl id nd); [done|done|apply Hh1|apply Hh1|done|done|].
    intros u c2 Hu. apply lookup_insert_Some in Hu as [[<- <-]|[_ Hu]]; [|by left]. right.
    apply (call_inv_mono cl); [apply (update_extends cl id nd); [done|apply Hh1]|].
    split; [by rewrite Hcid'|]. split; [done|]. rewrite Hexp'. split; [done|].
    split; [intros m Hm; by apply Hgood|]. exists k, e, T. split; [done|]. split; [done|]. split; [done|].
    intros m Hm. by apply Hgood.
  - destruct (call_done_inv h1 c (proj1 Hh1)) as [Hh2 Hk2].
    assert (Hk3 : keeps_writes (n_handler nd) (call_done h1 c)) by (etransitivity; [apply Hh1|done]).
    apply report_inv.
    + apply (update_inv cl id nd); [done|done|done| |by intros ? ? ?%elem_of_nil].
      apply (node_inv_change cl id nd); [done|done|done|done|done| |].
      * cbn [pendingReqs call_done with_pending h1]. intros u ch' [_ Hu]%lookup_delete_Some. by apply Hpend1.
      * intros u c2 [_ Hu]%lookup_delete_Some. by left.
    + apply (replicated_mono cl); [by apply (update_extends cl id nd)|].
      exists ({[id]} ∪ call_acked c'). split; [|split].
      * apply union_mono_l. intros m [Hm _]%Hgood. by apply HT.
      * rewrite size_union, size_singleton; [unfold call_ok in Hcok'; lia|].
        intros m ->%elem_of_singleton Hm. by apply Hnself, Hgood.
      * intros m [->%elem_of_singleton|Hm]%elem_of_union; [done|]. by apply Hgood.
Qed.

Lemma exchange_inv cl id nd members send_ok : cluster_inv cl → c_nodes cl !! id = Some nd →
  cluster_inv (let '(h, ps) := exchangeState (n_handler nd) members send_ok in
               update cl id (mkNode h (n_calls nd)) ps).
Proof.
  intros Hcl Hn. destruct (ci_node _ Hcl _ _ Hn) as [Hh Hid Hpend Hcalls].
  destruct (exec_gossip_inv (n_handler nd) (OpExchange members send_ok) Hh eq_refl) as (h' & [= <-] & Hh' & Hk).
  pose proof (exchange_spec (n_handler nd) members send_ok) as Hx.
  destruct (exchangeState (n_handler nd) members send_ok) as [h ps]. cbn [fst] in *.
  destruct Hx as (_ & _ & Hp & (_ & Hl & _) & Hps).
  apply (update_frame cl id nd); try done. intros d buf Hin. destruct (Hps d buf Hin) as (m & Hm & HM).
  destruct (snapshot_decodes _ _ _ Hh Hm HM) as (es & Hu & _). unfold packet_ok. by rewrite Hu.
Qed.

Lemma store_step_inv cl id nd op : cluster_inv cl → c_nodes cl !! id = Some nd → op_wf op = true →
  clock (h_store (n_handler nd)) + op_ticks op ≤ maxInt64 →
  cluster_inv (update cl id (mkNode (with_store (n_handler nd) (exec_op (h_store (n_handler nd)) op))
                                    (n_calls nd)) []).
Proof.
  intros Hcl Hn Hop Hlt. destruct (ci_node _ Hcl _ _ Hn) as [[Ea Eb Ec Ed Ee] Hid Hpend Hcalls].
  apply (update_frame cl id nd); try done; [split; try done| |by intros ? ? ?%elem_of_nil].
  - by apply exec_op_inv.
  - by apply exec_op_clock.
  - by apply exec_op_versions.
  - intros k e Hc. by apply exec_op_keeps.
Qed.

Lemma merge_step_inv cl id nd buf : cluster_inv cl → c_nodes cl !! id = Some nd →
  cluster_inv (update cl id (mkNode (handleMergeRemoteState (n_handler nd) buf) (n_calls nd)) []).
Proof.
  intros Hcl Hn. destruct (ci_node _ Hcl _ _ Hn) as [Hh Hid Hpend Hcalls].
  destruct (exec_gossip_inv (n_handler nd) (OpMerge buf) Hh eq_refl) as (h' & [= <-] & Hh' & Hk).
  assert (localID (handleMergeRemoteState (n_handler nd) buf) = localID (n_handler nd) ∧
    pendingReqs (handleMergeRemoteState (n_handler nd) buf) = pendingReqs (n_handler nd)) as [El Ep].
  { unfold handleMergeRemoteState. destruct (Unmarshal buf) as [[es| | |]|]; try done.
    by rewrite (HandleReplication_frame (n_handler nd) es). }
  apply (update_frame cl id nd); try done. by intros ? ? ?%elem_of_nil.
Qed.

Lemma member_step_inv cl id nd h now other addr : cluster_inv cl → c_nodes cl !! id = Some nd →
  handleJoin (n_handler nd) now other addr = Some h ∨
  handleLeave (n_handler nd) now other = Some h ∨
  handleUpdate (n_handler nd) now other addr = Some h →
  cluster_inv (update cl id (mkNode h (n_calls nd)) []).
Proof.
  intros Hcl Hn Hcase. destruct (ci_node _ Hcl _ _ Hn) as [Hh Hid Hpend Hcalls].
  assert (Hinv : handler_inv h ∧ keeps_writes (n_handler nd) h).
  { destruct Hcase as [E|[E|E]];
      [destruct (exec_gossip_inv _ (OpJoin now other addr) Hh eq_refl) as (h' & E' & Ha & Hb)
      |destruct (exec_gossip_inv _ (OpLeave now other) Hh eq_refl) as (h' & E' & Ha & Hb)
      |destruct (exec_gossip_inv _ (OpUpdate now other addr) Hh eq_refl) as (h' & E' & Ha & Hb)];
      cbn [exec_gossip] in E'; rewrite E in E'; injection E' as <-; done. }
  assert (Hframe : ∀ (g g' : Handler) e, PushEvent g e = Some g' → localID g' = localID g ∧ pendingReqs g' = pendingReqs g).
  { intros g g' e. unfold PushEvent. destruct (Push (events g) e); [|done]. cbn. by intros [= <-]. }
  assert (localID h = localID (n_handler nd) ∧ pendingReqs h = pendingReqs (n_handler nd)) as [El Ep].
  { destruct Hcase as [E|[E|E]]; by apply Hframe in E. }
  apply (update_frame cl id nd); try done; [apply Hinv|apply Hinv|by intros ? ? ?%elem_of_nil].
Qed.

Lemma bstep_inv cl cl' : cluster_inv cl → bstep cl cl' → cluster_inv cl'.
Proof.
  intros Hcl Hstep. destruct Hstep; eauto using ack_inv, deadline_inv, deliver_inv, exchange_inv, merge_step_inv.
Qed.

Lemma cstep_inv cl cl' : cluster_inv cl → cstep cl cl' → cluster_inv cl'.
Proof.
  intros Hcl Hstep. destruct Hstep; eauto using store_step_inv, write_inv, bstep_inv, member_step_inv.
Qed.

Lemma initial_inv cl : initial cl →
  (∀ id nd, c_nodes cl !! id = Some nd → handler_inv (n_handler nd)) → cluster_inv cl.
Proof.
  intros (Hnet & Hreqs & Hdone & Hnodes) Hinv. split.
  - intros id nd Hn. destruct (Hnodes id nd Hn) as (Hc & Hp & Hi). split; [by eapply Hinv|done| |].
    + intros uuid ch. by rewrite Hp, lookup_empty.
    + intros uuid c. by rewrite Hc, lookup_empty.
  - intros d buf. rewrite Hnet. by intros ?%elem_of_nil.
  - intros wr w. rewrite Hdone. by intros ?%elem_of_nil.
Qed.

Lemma reachable_inv cl0 cl : cluster_inv cl0 → reachable_from cl0 cl → cluster_inv cl.
Proof. intros Hcl Hr. induction Hr; eauto using cstep_inv. Qed.

(** A reported write stays reported. *)
Lemma done_mono cl cl' : rtc cstep cl cl' → ∀ x, x ∈ c_done cl → x ∈ c_done cl'.
Proof.
  induction 1 as [|cl cl1 cl2 Hstep _ IH]; [done|]. intros x Hx. apply IH.
  destruct Hstep as [| |? Hb|]; [done| | |done].
  - unfold begin_write. destruct (replicate_begin _ _ _ _ _ _) as [[h0 ps] [[err|]|c]]; cbn; try done. apply elem_of_cons. by right.
  - destruct Hb as [? ? ? ? ? ? p| | | |]; try done.
    + destruct p as [[err|]|c']; cbn; try done. apply elem_of_cons. by right.
    + by destruct (handleMessage _ _ _).
    + by destruct (exchangeState _ _ _).
Qed.

(** ** Property *)

(** C1: Quorum safety.  In every state a cluster of gossip handlers can reach,
    over a network that loses, delays, duplicates and reorders messages, with
    concurrent writes, deletions, anti-entropy rounds and membership changes:
    if [ReplicateWithQuorum] has returned nil for a write with write concern
    [w], then in that state and in every later one at least [w] distinct nodes,
    the coordinator and replicas of the key, hold that write or a newer one of
    the same key. *)
Theorem quorum_safety cl0 cl cl' wr w : initial cl0 →
  (∀ id nd, c_nodes cl0 !! id = Some nd → handler_inv (n_handler nd)) →
  reachable_from cl0 cl → (wr, w) ∈ c_done cl → rtc cstep cl cl' →
  ∃ S : gset string, S ⊆ {[wr_node wr]} ∪ wr_replicas wr ∧ w ≤ Z.of_nat (size S) ∧
    ∀ id, id ∈ S → ∃ nd, c_nodes cl' !! id = Some nd ∧
      covers (Snapshot (h_store (n_handler nd))) (wr_key wr) (wr_entry wr).
Proof.
  intros Hinit Hh Hr Hd Hr'. assert (Hcl : cluster_inv cl').
  { apply (reachable_inv cl0); [by apply initial_inv|]. unfold reachable_from in *. by etransitivity. }
  apply (done_mono _ _ Hr'), (ci_done _ Hcl) in Hd. exact Hd.
Qed.
End invariant.

(** ** An instance: a write with two acknowledged copies *)

Module ClusterExamples.
#[local] Existing Instances SortedList.ops SortedList_laws MergeSort MergeSort_laws.
#[local] Existing Instances demo_proto demo_proto_laws demo_range demo_range_laws demo_ring demo_ring_laws.
Import GossipExamples.

Definition cl0 : cluster :=
  mkCluster (<["a" := mkNode ha ∅]> (<["b" := mkNode hb ∅]> ∅)) [] ∅ [].

Definition e2 : Entry := mkEntry "new" 9 "a" false.
Definition all : string → bool := λ _, true.

Definition node_of (cl : cluster) (id : string) : node := default (mkNode ha ∅) (c_nodes cl !! id).

(** The last packet for a node. *)
Definition packet_for (cl : cluster) (id : string) : string :=
  default "" (snd <$> List.find (λ p, String.eqb p.1 id) (c_net cl)).

Definition deliver (cl : cluster) (id : string) : cluster :=
  let '(h, ps) := handleMessage (n_handler (node_of cl id)) all (packet_for cl id) in
  update cl id (mkNode h (n_calls (node_of cl id))) ps.

(** Node a starts the write, b applies it and acknowledges, a counts it. *)
Definition wr : write := new_write "a" ha "k" e2.
Definition cl1 : cluster := begin_write cl0 "a" (mkNode ha ∅) "id" all "k" e2 2.
Definition cl2 : cluster := deliver cl1 "b".
Definition cl3 : cluster := deliver cl2 "a".
Definition call : Call := default (mkCall "" 0 ∅ ∅ 0) (n_calls (node_of cl3 "a") !! "id").
Definition recv : Handler * Progress :=
  default (ha, Returned None) (replicate_recv (n_handler (node_of cl3 "a")) call).
Definition cl4 : cluster :=
  settle cl3 "a" recv.1 (n_calls (node_of cl3 "a")) [] "id" wr (call_w call) recv.2.

Lemma some_default {A} (o : option A) d : (if o then true else false) = true → o = Some (default d o).
Proof. by destruct o. Qed.

Lemma deliver_step cl id : (if c_nodes cl !! id then true else false) = true →
  bool_decide ((id, packet_for cl id) ∈ c_net cl) = true → cstep cl (deliver cl id).
Proof.
  intros Hn Hin. apply bool_decide_eq_true in Hin. apply step_background, step_deliver; [|done].
  unfold node_of. by destruct (c_nodes cl !! id).
Qed.

Lemma run_reaches : rtc cstep cl0 cl4.
Proof.
  apply (rtc_l _ _ cl1).
  { apply (step_write cl0 "a" (mkNode ha ∅)); [reflexivity|reflexivity|by vm_compute]. }
  apply (rtc_l _ _ cl2); [apply deliver_step; vm_compute; reflexivity|].
  apply (rtc_l _ _ cl3); [apply deliver_step; vm_compute; reflexivity|].
  apply (rtc_l _ _ cl4); [|apply rtc_refl]. unfold cl4. apply step_background.
  simple refine (step_ack cl3 "a" (node_of cl3 "a") "id" call wr recv.1 recv.2 _ _ _ _).
  - apply some_default. vm_compute. reflexivity.
  - apply some_default. vm_compute. reflexivity.
  - vm_compute. reflexivity.
  - rewrite <-surjective_pairing. apply some_default. vm_compute. reflexivity.
Qed.

Lemma quorum_safety_witness : ∃ S : gset string, S ⊆ {["a"]} ∪ wr_replicas wr ∧ 2 ≤ Z.of_nat (size S) ∧
  ∀ id, id ∈ S → ∃ nd, c_nodes cl4 !! id = Some nd ∧ covers (Snapshot (h_store (n_handler nd))) "k" e2.
Proof.
  refine (quorum_safety cl0 cl4 cl4 wr 2 _ _ run_reaches _ _).
  - split; [reflexivity|]. split; [reflexivity|]. split; [reflexivity|]. intros id nd Hn. cbn [c_nodes cl0] in Hn.
    apply lookup_insert_Some in Hn as [[<- <-]|[_ Hn]]; [done|].
    apply lookup_insert_Some in Hn as [[<- <-]|[_ Hn]]; [done|]. by rewrite lookup_empty in Hn.
  - intros id nd Hn. cbn [c_nodes cl0] in Hn.
    apply lookup_insert_Some in Hn as [[<- <-]|[_ Hn]]; [exact ha_inv|].
    apply lookup_insert_Some in Hn as [[<- <-]|[_ Hn]]; [exact hb_inv|]. by rewrite lookup_empty in Hn.
  - assert (c_done cl4 = [(wr, 2)]) as -> by (vm_compute; reflexivity). apply list_elem_of_singleton. reflexivity.
  - apply rtc_refl.
Defined.
End ClusterExamples.
