(* ===== verification/GoNet.v ===== *)
(** * The parts of Go's net and strings packages in use *)

From S2P Require Import Prelude GoStrconv GoCrypto.
Local Open Scope Z_scope.

(** ** Searching for bytes *)

(** The parts before and after the first occurrence of a byte. *)
Fixpoint cut_first (c : ascii) (s : string) : option (string * string) :=
  match s with
  | EmptyString => None
  | String x s' => if Ascii.eqb x c then Some ("", s')
                   else '(a, b) ← cut_first c s'; Some (String x a, b)
  end.

(** The same for the last occurrence. *)
Fixpoint cut_last (c : ascii) (s : string) : option (string * string) :=
  match s with
  | EmptyString => None
  | String x s' => match cut_last c s' with
                   | Some (a, b) => Some (String x a, b)
                   | None => if Ascii.eqb x c then Some ("", s') else None
                   end
  end.

Fixpoint has_byte (c : ascii) (s : string) : bool :=
  match s with EmptyString => false | String x s' => Ascii.eqb x c || has_byte c s' end.

(** ** net.SplitHostPort and net.JoinHostPort *)

(** [None] is an error.  The port starts after the last colon; a host in
    brackets ends at the first closing bracket, which must stand right before
    that colon. *)
Definition SplitHostPort (hostport : string) : option (string * string) :=
  match cut_last ":" hostport with
  | None => None
  | Some (before, port) =>
      match hostport with
      | String "[" rest =>
          match cut_first "]" rest with
          | None => None
          | Some (host, after) =>
              match after with
              | String ":" p =>
                  if String.eqb p port && negb (has_byte "[" rest) && negb (has_byte "]" after)
                  then Some (host, port) else None
              | _ => None
              end
          end
      | _ =>
          if has_byte ":" before || has_byte "[" hostport || has_byte "]" hostport then None
          else Some (before, port)
      end
  end.

Definition JoinHostPort (host port : string) : string :=
  if has_byte ":" host then "[" +:+ host +:+ "]:" +:+ port else host +:+ ":" +:+ port.

Example SplitHostPort_examples :
  (SplitHostPort "10.0.0.1:6379", SplitHostPort ":6379", SplitHostPort "[::1]:80",
   SplitHostPort "host", SplitHostPort "a:b:c", SplitHostPort "[::1]")
  = (Some ("10.0.0.1", "6379"), Some ("", "6379"), Some ("::1", "80"), None, None, None).
Proof. vm_compute. reflexivity. Qed.

Lemma cut_last_none c s : has_byte c s = false → cut_last c s = None.
Proof.
  induction s as [|x s IH]; simpl; [done|]. intros [-> Hs]%orb_false_elim. by rewrite IH.
Qed.

Lemma cut_last_app c a b : has_byte c b = false → cut_last c (a +:+ String c b) = Some (a, b).
Proof.
  intros Hb. unfold String.app. induction a as [|x a IH]; simpl.
  - by rewrite cut_last_none, Ascii.eqb_refl.
  - by rewrite IH.
Qed.

Lemma has_byte_app c a b : has_byte c (a +:+ b) = has_byte c a || has_byte c b.
Proof.
  unfold String.app. induction a as [|x a IH]; simpl; [done|]. by rewrite IH, orb_assoc.
Qed.

(** A decimal text holds digits only. *)
Lemma has_byte_Itoa_pos x n : 0 ≤ n → is_digit x = false → has_byte x (Itoa n) = false.
Proof.
  intros Hn Hx. unfold Itoa. destruct (Z.ltb_spec n 0); [lia|].
  assert (Hgen : ∀ fuel n acc, 0 ≤ n → has_byte x acc = false → has_byte x (digits fuel n acc) = false);
    [|by apply Hgen].
  clear n Hn H. induction fuel as [|fuel IH]; intros n acc Hn Ha; [done|]. cbn [digits].
  pose proof (Z.mod_pos_bound n 10 eq_refl).
  assert (Hc : has_byte x (String (digit (n mod 10)) acc) = false).
  { cbn [has_byte]. rewrite Ha, orb_false_r. apply Ascii.eqb_neq. intros <-.
    by rewrite digit_is_digit in Hx. }
  destruct (n <? 10); [done|]. apply IH; [|done]. apply Z.div_pos; lia.
Qed.

Lemma cut_first_app c a b : has_byte c a = false → cut_first c (a +:+ String c b) = Some (a, b).
Proof.
  induction a as [|x a IH]; intros Ha.
  - change ("" +:+ String c b) with (String c b). cbn [cut_first]. by rewrite Ascii.eqb_refl.
  - cbn [has_byte] in Ha. apply orb_false_elim in Ha as [Hx Ha]. rewrite app_cons. cbn [cut_first]. by rewrite Hx, IH.
Qed.

Lemma cut_first_none c a : has_byte c a = false → cut_first c a = None.
Proof. induction a as [|x a IH]; [done|]. cbn. intros [-> Ha]%orb_false_elim. by rewrite IH. Qed.

(** A host without brackets survives the round trip, with or without colons. *)
Lemma SplitHostPort_Join host port :
  has_byte "[" host = false → has_byte "]" host = false →
  has_byte ":" port = false → has_byte "[" port = false → has_byte "]" port = false →
  SplitHostPort (JoinHostPort host port) = Some (host, port).
Proof.
  intros H2 H3 H4 H5 H6. unfold JoinHostPort, SplitHostPort. destruct (has_byte ":" host) eqn:H1.
  - change ("[" +:+ host +:+ "]:" +:+ port) with (String "[" (host +:+ String "]" ("" +:+ String ":" port))).
    assert (cut_last ":" (String "[" (host +:+ String "]" ("" +:+ String ":" port))) = Some (String "[" (host +:+ "]"), port)) as ->.
    { replace (String "[" (host +:+ String "]" ("" +:+ String ":" port))) with (String "[" (host +:+ "]") +:+ String ":" port);
        [by apply cut_last_app|]. by rewrite app_cons, string_app_assoc. }
    rewrite cut_first_app by done. change ("" +:+ ?x) with x. cbv iota beta. rewrite String.eqb_refl, !has_byte_app, H2.
    cbn [has_byte]. by rewrite H5, H6.
  - change (host +:+ ":" +:+ port) with (host +:+ String ":" port).
    rewrite cut_last_app by done. rewrite !has_byte_app, H1, H2, H3. cbn [orb has_byte]. rewrite H5, H6.
    destruct host as [|x host]; [done|]. apply orb_false_elim in H2 as [H2 _].
    destruct x as [[] [] [] [] [] [] [] []]; try reflexivity. discriminate H2.
Qed.

(** ** strings.ToUpper *)

Fixpoint is_ascii (s : string) : bool :=
  match s with EmptyString => true | String c s' => (byte_val c <? 128) && is_ascii s' end.

Definition upper_byte (c : ascii) : ascii :=
  if (97 <=? byte_val c) && (byte_val c <=? 122) then byte_of (byte_val c - 32) else c.

Fixpoint map_bytes (f : ascii → ascii) (s : string) : string :=
  match s with EmptyString => "" | String c s' => String (f c) (map_bytes f s') end.

(** The upper case of a string with runes beyond ASCII is a matter of the
    Unicode tables, which are a parameter. *)
Class UnicodeTables := unicode_upper : string → string.

Definition ToUpper `{!UnicodeTables} (s : string) : string :=
  if is_ascii s then map_bytes upper_byte s else unicode_upper s.

(** ** strings.Join *)

Fixpoint Join (parts : list string) (sep : string) : string :=
  match parts with
  | [] => ""
  | [p] => p
  | p :: parts' => p +:+ sep +:+ Join parts' sep
  end.
