(* ===== verification/GoIP.v ===== *)
(** * The parts of Go's net and net/netip that read IP addresses

    [ParseIP] with the parsers of net/netip behind it and [IP.IsLoopback]; an
    address is the list of its sixteen bytes.  The parsers follow the code of
    [netip.parseIPv4Fields] and [netip.parseIPv6] step by step; [None] is an
    error. *)

From S2P Require Import Prelude GoStrconv GoNet.
Local Open Scope Z_scope.

(** ** IPv4 *)

(** [val] and [digLen] are the value and the number of digits of the current
    octet, [fields] the octets before it. *)
Fixpoint parseIPv4Fields (s : string) (val digLen : Z) (fields : list Z) : option (list Z) :=
  match s with
  | EmptyString => if (length fields <? 3)%nat then None else Some (fields ++ [val])
  | String c s' =>
      if is_digit c then
        if (digLen =? 1) && (val =? 0) then None
        else
          let val := val * 10 + (byte_val c - 48) in
          if 255 <? val then None else parseIPv4Fields s' val (digLen + 1) fields
      else if Ascii.eqb c "." then
        if (digLen =? 0) || String.eqb s' "" then None
        else if (length fields =? 3)%nat then None
        else parseIPv4Fields s' 0 0 (fields ++ [val])
      else None
  end.

(** ** IPv6 *)

Definition hex_value (c : ascii) : option Z :=
  let v := byte_val c in
  if (48 <=? v) && (v <=? 57) then Some (v - 48)
  else if (97 <=? v) && (v <=? 102) then Some (v - 87)
  else if (65 <=? v) && (v <=? 70) then Some (v - 55)
  else None.

(** A group of hexadecimal digits: its value, its length and the rest. *)
Fixpoint hex_group (s : string) (off acc : Z) : option (Z * Z * string) :=
  match s with
  | EmptyString => Some (acc, off, s)
  | String c s' =>
      match hex_value c with
      | None => Some (acc, off, s)
      | Some d =>
          let acc := acc * 16 + d in
          if 3 <? off then None
          else if 65535 <? acc then None
          else hex_group s' (off + 1) acc
      end
  end.

(** The loop over the groups: the bytes so far, the position of the ellipsis
    and the unread text.  Eight groups fill the address. *)
Fixpoint groups_loop (fuel : nat) (s : string) (ip : list Z) (ellipsis : option nat)
    : option (list Z * option nat * string) :=
  match fuel with
  | O => Some (ip, ellipsis, s)
  | S fuel' =>
      '(acc, off, rest) ← hex_group s 0 0;
      if off =? 0 then None
      else match rest with
      | String "." _ =>
          if negb (bool_decide (is_Some ellipsis)) && negb (length ip =? 12)%nat then None
          else if (16 <? length ip + 4)%nat then None
          else v4 ← parseIPv4Fields s 0 0 []; Some (ip ++ v4, ellipsis, "")
      | _ =>
          let ip := ip ++ [acc / 256; acc mod 256] in
          match rest with
          | EmptyString => Some (ip, ellipsis, "")
          | String ":" s1 =>
              match s1 with
              | EmptyString => None
              | String ":" s2 =>
                  match ellipsis with
                  | Some _ => None
                  | None => match s2 with
                            | EmptyString => Some (ip, Some (length ip), "")
                            | String _ _ => groups_loop fuel' s2 ip (Some (length ip))
                            end
                  end
              | String _ _ => groups_loop fuel' s1 ip ellipsis
              end
          | String _ _ => None
          end
      end
  end.

(** The end of [parseIPv6]: the whole text is used and the ellipsis, if there
    is one, stands for at least one group. *)
Definition expand_ellipsis (ip : list Z) (ellipsis : option nat) (s : string) : option (list Z) :=
  if negb (String.eqb s "") then None
  else if (length ip <? 16)%nat then
    e ← ellipsis; Some (take e ip ++ replicate (16 - length ip) 0 ++ drop e ip)
  else match ellipsis with Some _ => None | None => Some ip end.

Definition parseIPv6 (s : string) : option (list Z) :=
  match s with
  | String ":" (String ":" s') =>
      match s' with
      | EmptyString => Some (replicate 16 0)
      | String _ _ => '(ip, e, rest) ← groups_loop 8 s' [] (Some 0%nat); expand_ellipsis ip e rest
      end
  | _ => '(ip, e, rest) ← groups_loop 8 s [] None; expand_ellipsis ip e rest
  end.

(** ** net.ParseIP *)

(** The IPv4 address as an IPv6 address. *)
Definition mapped (v4 : list Z) : list Z := replicate 10 0 ++ [255; 255] ++ v4.

(** The first of the characters ['.'], [':'] and ['%'] decides. *)
Fixpoint parse_addr (whole s : string) : option (list Z) :=
  match s with
  | EmptyString => None
  | String c s' =>
      if Ascii.eqb c "." then mapped <$> parseIPv4Fields whole 0 0 []
      else if Ascii.eqb c ":" then parseIPv6 whole
      else if Ascii.eqb c "%" then None
      else parse_addr whole s'
  end.

(** An address with a zone is none for [net.ParseIP]. *)
Definition ParseIP (s : string) : option (list Z) :=
  if has_byte "%" s then None else parse_addr s s.

(** ** IP.IsLoopback *)

Definition To4 (ip : list Z) : option (list Z) :=
  if bool_decide (take 12 ip = replicate 10 0 ++ [255; 255]) then Some (drop 12 ip) else None.

Definition IPv6loopback : list Z := replicate 15 0 ++ [1].

Definition IsLoopback (ip : list Z) : bool :=
  match To4 ip with
  | Some ip4 => bool_decide (head ip4 = Some 127)
  | None => bool_decide (ip = IPv6loopback)
  end.

Example ParseIP_examples :
  (IsLoopback <$> ParseIP "127.0.0.1", IsLoopback <$> ParseIP "::1", IsLoopback <$> ParseIP "::ffff:127.9.9.9",
   IsLoopback <$> ParseIP "0.0.0.0", IsLoopback <$> ParseIP "::", ParseIP "localhost", ParseIP "", ParseIP "1.2.3",
   ParseIP "127.0.0.01", ParseIP "1.2.3.256", ParseIP "fe80::1%eth0", ParseIP "1:2:3:4:5:6:7:8:9", ParseIP "1::2::3")
  = (Some true, Some true, Some true, Some false, Some false, None, None, None, None, None, None, None, None).
Proof. vm_compute. reflexivity. Qed.

Example ParseIP_full : ParseIP "2001:db8::8:800:200c:417A" =
  Some [32; 1; 13; 184; 0; 0; 0; 0; 0; 8; 8; 0; 32; 12; 65; 122].
Proof. vm_compute. reflexivity. Qed.

(** ** Facts *)

(** The decimal text of an octet. *)
Lemma Itoa_octet n : 0 ≤ n < 256 →
  (n < 10 ∧ Itoa n = String (digit n) "") ∨
  (10 ≤ n < 100 ∧ Itoa n = String (digit (n / 10)) (String (digit (n mod 10)) "")) ∨
  (100 ≤ n ∧ Itoa n = String (digit (n / 10 / 10)) (String (digit ((n / 10) mod 10)) (String (digit (n mod 10)) ""))).
Proof.
  intros Hn. unfold Itoa. destruct (Z.ltb_spec n 0); [lia|]. cbn [digits].
  assert (0 ≤ n / 10 < 26) by (split; [apply Z.div_pos|apply Z.div_lt_upper_bound]; lia).
  assert (0 ≤ n / 10 / 10 < 10) by (split; [apply Z.div_pos|apply Z.div_lt_upper_bound]; lia).
  pose proof (Z.div_mod n 10). pose proof (Z.mod_pos_bound n 10).
  destruct (Z.ltb_spec n 10); [left; split; [done|]; by rewrite Z.mod_small by lia|right].
  destruct (Z.ltb_spec (n / 10) 10); [left; split; [lia|]; by rewrite (Z.mod_small (n / 10)) by lia|right].
  split; [lia|]. destruct (Z.ltb_spec (n / 10 / 10) 10); [|lia]. by rewrite (Z.mod_small (n / 10 / 10)) by lia.
Qed.

Lemma parse_digit d s val k fields : 0 ≤ d < 10 → (k =? 1) && (val =? 0) = false → val * 10 + d ≤ 255 →
  parseIPv4Fields (String (digit d) s) val k fields = parseIPv4Fields s (val * 10 + d) (k + 1) fields.
Proof.
  intros Hd Hz Hv. cbn [parseIPv4Fields]. rewrite digit_is_digit, Hz, digit_val by done.
  replace (48 + d - 48) with d by lia. by destruct (Z.ltb_spec 255 (val * 10 + d)); [lia|].
Qed.

(** Reading the text of an octet. *)
Lemma parse_octet n s fields : 0 ≤ n < 256 →
  ∃ k, 0 < k ∧ parseIPv4Fields (Itoa n +:+ s) 0 0 fields = parseIPv4Fields s n k fields.
Proof.
  intros Hn. pose proof (Z.div_mod n 10). pose proof (Z.mod_pos_bound n 10).
  pose proof (Z.div_mod (n / 10) 10). pose proof (Z.mod_pos_bound (n / 10) 10).
  destruct (Itoa_octet n Hn) as [[? ->]|[[? ->]|[? ->]]]; cbn [String.app].
  - exists 1. split; [lia|]. change (String (digit n) "" +:+ s) with (String (digit n) s).
    rewrite parse_digit by (done || lia). done.
  - exists 2. split; [lia|].
    change (_ +:+ s) with (String (digit (n / 10)) (String (digit (n mod 10)) s)).
    rewrite parse_digit by (done || lia). rewrite parse_digit by lia. f_equal; lia.
  - exists 3. split; [lia|].
    change (_ +:+ s) with (String (digit (n / 10 / 10)) (String (digit ((n / 10) mod 10)) (String (digit (n mod 10)) s))).
    rewrite parse_digit by (done || lia). rewrite !parse_digit by lia. f_equal; lia.
Qed.

Lemma parse_dot s val k fields : 0 < k → s ≠ "" → (length fields < 3)%nat →
  parseIPv4Fields (String "." s) val k fields = parseIPv4Fields s 0 0 (fields ++ [val]).
Proof.
  intros Hk Hs Hf. cbn [parseIPv4Fields]. change (is_digit ".") with false. cbv iota.
  change (Ascii.eqb "." ".") with true. cbv iota. destruct (Z.eqb_spec k 0); [lia|].
  apply String.eqb_neq in Hs. rewrite Hs. cbn [orb]. by destruct (Nat.eqb_spec (length fields) 3); [lia|].
Qed.

(** Dotted decimal text. *)
Definition quad (a b c d : Z) : string := Itoa a +:+ "." +:+ Itoa b +:+ "." +:+ Itoa c +:+ "." +:+ Itoa d.

Lemma Itoa_octet_nonempty n s : 0 ≤ n < 256 → Itoa n +:+ s ≠ "".
Proof. intros Hn. destruct (Itoa_octet n Hn) as [[_ ->]|[[_ ->]|[_ ->]]]; discriminate. Qed.

Lemma quad_dots a b c d :
  quad a b c d = Itoa a +:+ String "." (Itoa b +:+ String "." (Itoa c +:+ String "." (Itoa d +:+ ""))).
Proof. unfold quad. by rewrite (string_app_nil_r (Itoa d)). Qed.

Lemma parse_quad a b c d : 0 ≤ a < 256 → 0 ≤ b < 256 → 0 ≤ c < 256 → 0 ≤ d < 256 →
  parseIPv4Fields (quad a b c d) 0 0 [] = Some [a; b; c; d].
Proof.
  intros Ha Hb Hc Hd. rewrite quad_dots.
  assert (Hstep : ∀ n m s fields, 0 ≤ n < 256 → 0 ≤ m < 256 → (length fields < 3)%nat →
    parseIPv4Fields (Itoa n +:+ String "." (Itoa m +:+ s)) 0 0 fields =
    parseIPv4Fields (Itoa m +:+ s) 0 0 (fields ++ [n])).
  { intros n m s fields Hn Hm Hf.
    destruct (parse_octet n (String "." (Itoa m +:+ s)) fields Hn) as (k & Hk & ->).
    apply parse_dot; [done|by apply Itoa_octet_nonempty|done]. }
  rewrite !Hstep by (done || (cbn; lia)). cbn [app].
  destruct (parse_octet d "" [a; b; c] Hd) as (k & Hk & ->). done.
Qed.

(** No text of decimal digits and dots has another character. *)
Lemma has_byte_Itoa x n : 0 ≤ n < 256 → is_digit x = false → has_byte x (Itoa n) = false.
Proof. intros [Hn _]. by apply has_byte_Itoa_pos. Qed.

Lemma parse_addr_skip whole s t : has_byte "." s = false → has_byte ":" s = false → has_byte "%" s = false →
  parse_addr whole (s +:+ t) = parse_addr whole t.
Proof.
  intros H1 H2 H3. induction s as [|c s IH]; [done|]. cbn [has_byte] in *.
  apply orb_false_elim in H1 as [E1 H1]. apply orb_false_elim in H2 as [E2 H2]. apply orb_false_elim in H3 as [E3 H3].
  change (String c s +:+ t) with (String c (s +:+ t)). cbn [parse_addr]. rewrite E1, E2, E3. by apply IH.
Qed.

(** The text of an IPv4 address is read back. *)
Lemma ParseIP_quad a b c d : 0 ≤ a < 256 → 0 ≤ b < 256 → 0 ≤ c < 256 → 0 ≤ d < 256 →
  ParseIP (quad a b c d) = Some (mapped [a; b; c; d]).
Proof.
  intros Ha Hb Hc Hd. unfold ParseIP.
  assert (Hp : has_byte "%" (quad a b c d) = false).
  { unfold quad. rewrite !has_byte_app. cbn [has_byte]. by rewrite !has_byte_Itoa. }
  rewrite Hp. transitivity (mapped <$> parseIPv4Fields (quad a b c d) 0 0 []); [|by rewrite parse_quad].
  generalize (quad a b c d) at 1 3. intros whole. rewrite quad_dots, parse_addr_skip by (by apply has_byte_Itoa).
  cbn [parse_addr]. done.
Qed.

(** What a loopback address is. *)
Lemma IsLoopback_spec ip : length ip = 16%nat →
  IsLoopback ip = true ↔ ip = IPv6loopback ∨ ∃ b c d, ip = mapped [127; b; c; d].
Proof.
  intros Hl. unfold IsLoopback, To4. case_bool_decide as Ht.
  - assert (Hip : ip = (replicate 10 0 ++ [255; 255]) ++ drop 12 ip) by (by rewrite <-Ht, take_drop).
    assert (Hd : length (drop 12 ip) = 4%nat) by (rewrite length_drop; lia).
    destruct (drop 12 ip) as [|a [|b [|c [|d [|]]]]]; try done. cbn [head]. rewrite bool_decide_eq_true. split.
    + intros [= ->]. right. by exists b, c, d.
    + intros [->|(b' & c' & d' & He)]; [done|]. rewrite He in Hip. injection Hip. by intros _ _ _ ->.
  - rewrite bool_decide_eq_true. split; [by left|]. intros [->|(b & c & d & ->)]; [done|].
    by destruct Ht.
Qed.

Lemma parseIPv4Fields_length s val k fields v4 : (length fields ≤ 3)%nat →
  parseIPv4Fields s val k fields = Some v4 → length v4 = 4%nat.
Proof.
  revert val k fields. induction s as [|c s IH]; intros val k fields Hf; cbn [parseIPv4Fields].
  - destruct (Nat.ltb_spec (length fields) 3); [done|]. intros [= <-]. rewrite length_app. cbn. lia.
  - repeat case_match; try done; bool_to_prop; intros E.
    + by eapply IH.
    + eapply IH; [|exact E]. rewrite length_app. cbn.
      match goal with H : (_ =? 3)%nat = false |- _ => apply Nat.eqb_neq in H end. lia.
Qed.

Lemma groups_loop_length fuel s ip e ip' e' rest : (length ip + 2 * fuel ≤ 16)%nat →
  groups_loop fuel s ip e = Some (ip', e', rest) → (length ip' ≤ 16)%nat.
Proof.
  revert s ip e. induction fuel as [|fuel IH]; intros s ip e Hl; cbn [groups_loop]; [intros [= <- _ _]; lia|].
  destruct (hex_group s 0 0) as [[[acc off] r]|]; [|done]. cbn [mbind option_bind].
  destruct (off =? 0); [done|].
  assert (Hl2 : length (ip ++ [acc / 256; acc mod 256]) = (length ip + 2)%nat) by (rewrite length_app; done).
  assert (Hrec : ∀ s' e2, groups_loop fuel s' (ip ++ [acc / 256; acc mod 256]) e2 = Some (ip', e', rest) →
    (length ip' ≤ 16)%nat) by (intros s' e2; apply IH; lia).
  assert (Hv4 : (if negb (bool_decide (is_Some e)) && negb (length ip =? 12)%nat then None
     else if (16 <? length ip + 4)%nat then None
     else v4 ← parseIPv4Fields s 0 0 []; Some (ip ++ v4, e, "")) = Some (ip', e', rest) → (length ip' ≤ 16)%nat).
  { destruct (_ && _); [done|]. destruct (Nat.ltb_spec 16 (length ip + 4)) as [|Hle]; [done|].
    destruct (parseIPv4Fields s 0 0 []) as [v4|] eqn:E4; [|done]. intros [= <- _ _].
    rewrite length_app, (parseIPv4Fields_length s 0 0 [] v4 ltac:(cbn; lia) E4). lia. }
  repeat case_match; try done; try (by apply Hv4); try (by apply Hrec); intros [= <- _ _]; rewrite Hl2; lia.
Qed.

Lemma expand_ellipsis_length ip e s ip' : (length ip ≤ 16)%nat → expand_ellipsis ip e s = Some ip' → length ip' = 16%nat.
Proof.
  intros Hl. unfold expand_ellipsis. destruct (negb _); [done|].
  destruct (Nat.ltb_spec (length ip) 16); [destruct e as [e|]|destruct e]; try done; cbn [mbind option_bind]; intros [= <-].
  - rewrite !length_app, length_replicate, length_take, length_drop. lia.
  - lia.
Qed.

Lemma ParseIP_length s ip : ParseIP s = Some ip → length ip = 16%nat.
Proof.
  unfold ParseIP. destruct (has_byte "%" s); [done|]. generalize s at 2. intros t. revert t.
  assert (Hg : ∀ t e, ('(ip, e, rest) ← groups_loop 8 t [] e; expand_ellipsis ip e rest) = Some ip → length ip = 16%nat).
  { intros t e. destruct (groups_loop 8 t [] e) as [[[i e'] r]|] eqn:E; [|done].
    apply groups_loop_length in E; [|cbn; lia]. by apply expand_ellipsis_length. }
  assert (H6 : parseIPv6 s = Some ip → length ip = 16%nat).
  { unfold parseIPv6. repeat case_match; try (by apply Hg). by intros [= <-]. }
  induction t as [|c t IH]; [done|]. cbn [parse_addr].
  destruct (Ascii.eqb c "."); [|by destruct (Ascii.eqb c ":"), (Ascii.eqb c "%")].
  intros (v4 & E & ->)%fmap_Some. unfold mapped. rewrite !length_app, length_replicate.
  by rewrite (parseIPv4Fields_length s 0 0 [] v4 ltac:(cbn; lia) E).
Qed.
