(* ===== verification/GoJson.v ===== *)
(** * The parts of encoding/json in use

    [json_string] is the encoder's treatment of strings (with the escaping of
    HTML characters, which is on by default): control characters, quotes and
    backslashes are escaped, bytes that are not UTF-8 become the replacement
    character, and the two line separators of Unicode are escaped.  The text
    of a time depends on the zone and is a parameter. *)

From S2P Require Import Prelude GoStrconv GoUtf8 GoNet.
Local Open Scope Z_scope.

Definition quote_char : ascii := "034".
Definition backslash : ascii := "092".

(** ** Strings *)

Definition unicode_escape (b : Z) : string :=
  String backslash (String "u" (String "0" (String "0"
    (String (hex_digit (b / 16)) (String (hex_digit (b mod 16)) ""))))).

(** The encoding of an ASCII byte. *)
Definition escape_byte (c : ascii) : string :=
  let b := byte_val c in
  if (b =? 34) || (b =? 92) then String backslash (String c "")
  else if b =? 8 then String backslash "b"
  else if b =? 9 then String backslash "t"
  else if b =? 10 then String backslash "n"
  else if b =? 12 then String backslash "f"
  else if b =? 13 then String backslash "r"
  else if (b <? 32) || (b =? 38) || (b =? 60) || (b =? 62) then unicode_escape b
  else String c "".

(** The next [n] bytes continue a rune. *)
Fixpoint continues (n : nat) (lo hi : Z) (s : string) : bool :=
  match n, s with
  | O, _ => true
  | S n', String c s' => (lo <=? byte_val c) && (byte_val c <=? hi) && continues n' 0x80 0xBF s'
  | S _, EmptyString => false
  end.

(** The number of bytes after the first of the rune at the head, [None] when
    there is no valid rune. *)
Definition rune_tail (s : string) : option nat :=
  match s with
  | EmptyString => None
  | String c s' => '(n, lo, hi) ← utf8_lead (byte_val c); if continues n lo hi s' then Some n else None
  end.

(** U+2028 and U+2029: the last digit. *)
Definition line_separator (s : string) : option Z :=
  match s with
  | String a (String b (String c _)) =>
      if (byte_val a =? 0xE2) && (byte_val b =? 0x80) && ((byte_val c =? 0xA8) || (byte_val c =? 0xA9))
      then Some (byte_val c - 0xA0) else None
  | _ => None
  end.

(** The loop of [appendString]: [copy] bytes of a rune are still to be copied,
    or [drop] bytes of an escaped one skipped. *)
Fixpoint json_body (copy drop : nat) (s : string) : string :=
  match s with
  | EmptyString => ""
  | String c s' =>
      match copy, drop with
      | S n, _ => String c (json_body n 0 s')
      | O, S n => json_body 0 n s'
      | O, O =>
          if byte_val c <? 128 then escape_byte c +:+ json_body 0 0 s'
          else match rune_tail s with
               | None => String backslash "ufffd" +:+ json_body 0 0 s'
               | Some n =>
                   match line_separator s with
                   | Some d => String backslash "u202" +:+ String (hex_digit d) "" +:+ json_body 0 n s'
                   | None => String c (json_body n 0 s')
                   end
               end
      end
  end.

Definition json_string (s : string) : string :=
  String quote_char (json_body 0 0 s +:+ String quote_char "").

Example json_string_examples :
  (json_string "plain", json_string (String "010" "<x>"), json_string (String "226" (String "128" (String "168" "é"))),
   json_string (String "255" "a"))
  = (String "034" ("plain" +:+ String "034" ""),
     String "034" (String "092" ("n" +:+ String "092" ("u003cx" +:+ String "092" ("u003e" +:+ String "034" "")))),
     String "034" (String "092" ("u2028é" +:+ String "034" "")),
     String "034" (String "092" ("ufffda" +:+ String "034" ""))).
Proof. vm_compute. reflexivity. Qed.

(** ** Times *)

(** The text of a time, quotes included; [None] is the error for a year
    outside 0 to 9999. *)
Class TimeText := time_json : Z → option string.

(** ** Texts without control characters *)

Fixpoint printable (s : string) : bool :=
  match s with EmptyString => true | String c s' => (32 <=? byte_val c) && printable s' end.

(** Documented behaviour: a quoted string in the format of RFC 3339. *)
Class TimeTextLaws `{!TimeText} : Prop :=
  time_quoted t s : time_json t = Some s → ∃ raw, s = json_string raw ∧ ValidString raw = true.

Lemma printable_app a b : printable (a +:+ b) = printable a && printable b.
Proof.
  unfold String.app. induction a as [|c a IH]; cbn [String.append printable]; [done|].
  by rewrite IH, andb_assoc.
Qed.

Lemma hex_digit_printable d : 0 ≤ d < 16 → (32 <=? byte_val (hex_digit d)) = true.
Proof.
  intros Hd. unfold hex_digit. rewrite byte_val_of by (destruct (Z.ltb_spec d 10); lia).
  apply Z.leb_le. destruct (Z.ltb_spec d 10); lia.
Qed.

Lemma unicode_escape_printable b : 0 ≤ b < 256 → printable (unicode_escape b) = true.
Proof.
  intros Hb. unfold unicode_escape. cbn [printable]. rewrite !hex_digit_printable; [done| |].
  - apply Z.mod_pos_bound. lia.
  - split; [apply Z.div_pos; lia|apply Z.div_lt_upper_bound; lia].
Qed.

Lemma escape_byte_printable c : byte_val c < 128 → printable (escape_byte c) = true.
Proof.
  intros Hc. pose proof (byte_val_range c) as Hr. unfold escape_byte.
  destruct ((byte_val c =? 34) || (byte_val c =? 92)) eqn:E1.
  { cbn [printable]. apply orb_prop in E1. destruct E1 as [->%Z.eqb_eq| ->%Z.eqb_eq]; done. }
  destruct (byte_val c =? 8); [done|]. destruct (byte_val c =? 9); [done|].
  destruct (byte_val c =? 10); [done|]. destruct (byte_val c =? 12); [done|].
  destruct (byte_val c =? 13); [done|].
  destruct (Z.ltb_spec (byte_val c) 32) as [Hl|Hl]; cbn [orb].
  - by apply unicode_escape_printable.
  - clear E1. destruct ((byte_val c =? 38) || (byte_val c =? 60) || (byte_val c =? 62)); [by apply unicode_escape_printable|].
    cbn [printable]. rewrite andb_true_r. by apply Z.leb_le.
Qed.

Lemma continues_lead b n lo hi : utf8_lead b = Some (n, lo, hi) → b <? 128 = false → 0x80 ≤ lo.
Proof.
  unfold utf8_lead. intros E Hb. rewrite Hb in E.
  repeat match type of E with (if ?x then _ else _) = _ => destruct x; [injection E as <- <- <-; lia|] end. done.
Qed.

(** The text of a string has no control characters. *)
Lemma json_body_printable s : ∀ copy drop lo hi, continues copy lo hi s = true → 0x80 ≤ lo →
  printable (json_body copy drop s) = true.
Proof.
  induction s as [|c s IH]; intros copy drop lo hi Hc Hlo; [done|]. cbn [json_body].
  destruct copy as [|n]; [destruct drop as [|n]|].
  - destruct (Z.ltb_spec (byte_val c) 128) as [Hb|Hb].
    { rewrite printable_app, escape_byte_printable by done. by apply (IH 0%nat 0%nat 128 128). }
    destruct (rune_tail (String c s)) as [n|] eqn:Hr.
    + cbn [rune_tail] in Hr. destruct (utf8_lead (byte_val c)) as [[[m l] h]|] eqn:El; [|done]. cbn in Hr.
      destruct (continues m l h s) eqn:Ec; [|done]. injection Hr as <-.
      destruct (line_separator (String c s)) as [d|] eqn:Es.
      * rewrite !printable_app. cbn [printable]. rewrite hex_digit_printable; [by apply (IH 0%nat m 128 128)|].
        unfold line_separator in Es. destruct s as [|b [|e s]]; try done.
        destruct (_ && _) eqn:Eb; [|done]. injection Es as <-.
        apply andb_prop in Eb as [_ [Eb|Eb]%orb_prop]; apply Z.eqb_eq in Eb; lia.
      * cbn [printable]. rewrite (IH m 0%nat l h Ec) by (eapply continues_lead; [done|by apply Z.ltb_ge]).
        rewrite andb_true_r. apply Z.leb_le. lia.
    + rewrite printable_app. by apply (IH 0%nat 0%nat 128 128).
  - by apply (IH 0%nat n 128 128).
  - cbn [continues] in Hc. apply andb_prop in Hc as [[Hb _]%andb_prop Hc]. cbn [printable].
    rewrite (IH n 0%nat 0x80 0xBF Hc) by lia. apply Z.leb_le in Hb. rewrite andb_true_r. apply Z.leb_le. lia.
Qed.

Lemma json_string_printable s : printable (json_string s) = true.
Proof.
  unfold json_string. cbn [printable]. rewrite printable_app.
  by rewrite (json_body_printable s 0 0 128 128).
Qed.
