(* ===== verification/GoJsonDecode.v ===== *)
(** * encoding/json: decoding a value

    [json.Decoder.Decode] reads the first value of its input.  The grammar of
    its scanner is [parse_value], with the contexts of the syntax errors;
    strings are unquoted as [unquoteBytes] does, with the replacement character
    for invalid UTF-8 and for unpaired surrogates.  The scanner's limit on
    nesting (10000) is beyond the inputs in use, which have at most 4096
    bytes. *)

From S2P Require Import Prelude GoStrconv GoUtf8 GoNet GoJson.
Local Open Scope Z_scope.

(** ** Results *)

Inductive json :=
  | JNull
  | JBool (b : bool)
  | JNumber (text : string)
  | JString (s : string)
  | JArray (l : list json)
  | JObject (l : list (string * json)).

(** A value and the rest of the input; an invalid byte and where it was found;
    the end of the input; the end of the fuel. *)
Inductive parsed (A : Type) :=
  | Done (a : A) (rest : string)
  | Invalid (c : ascii) (context : string)
  | NoMore
  | NoFuel.
Arguments Done {A} a rest.
Arguments Invalid {A} c context.
Arguments NoMore {A}.
Arguments NoFuel {A}.

Definition pbind {A B} (p : parsed A) (f : A → string → parsed B) : parsed B :=
  match p with Done a rest => f a rest | Invalid c m => Invalid c m | NoMore => NoMore | NoFuel => NoFuel end.

Definition pmap {A B} (f : A → B) (p : parsed A) : parsed B := pbind p (λ a rest, Done (f a) rest).

(** ** Strings *)

Definition is_hex (c : ascii) : bool :=
  let b := byte_val c in
  is_digit c || (97 <=? b) && (b <=? 102) || (65 <=? b) && (b <=? 70).

(** Inside a string, after a backslash, or inside a [\u] escape with that many
    digits to come. *)
Inductive in_string := InString | InEsc | InHex (todo : nat).

Definition one_char_escape (c : ascii) : bool :=
  existsb (Ascii.eqb c) ["b"; "f"; "n"; "r"; "t"; backslash; "/"; quote_char]%char.

(** The raw text of a string up to its closing quote. *)
Fixpoint scan_string (st : in_string) (s : string) : parsed string :=
  match s with
  | EmptyString => NoMore
  | String c s' =>
      match st with
      | InString =>
          if Ascii.eqb c quote_char then Done "" s'
          else if Ascii.eqb c backslash then pmap (String c) (scan_string InEsc s')
          else if byte_val c <? 32 then Invalid c "in string literal"
          else pmap (String c) (scan_string InString s')
      | InEsc =>
          if one_char_escape c then pmap (String c) (scan_string InString s')
          else if Ascii.eqb c "u" then pmap (String c) (scan_string (InHex 3) s')
          else Invalid c "in string escape code"
      | InHex n =>
          if is_hex c then pmap (String c) (scan_string (match n with O => InString | S n' => InHex n' end) s')
          else Invalid c ("in " +:+ String backslash "u hexadecimal character escape")
      end
  end.

Definition hex_val (c : ascii) : Z :=
  let b := byte_val c in if is_digit c then b - 48 else if 97 <=? b then b - 87 else b - 55.

Definition hex4 (s : string) : option Z :=
  match s with
  | String h1 (String h2 (String h3 (String h4 _))) =>
      if is_hex h1 && is_hex h2 && is_hex h3 && is_hex h4
      then Some (((hex_val h1 * 16 + hex_val h2) * 16 + hex_val h3) * 16 + hex_val h4) else None
  | _ => None
  end.

(** [getu4]: the number of a [\u] escape at the head. *)
Definition getu4 (s : string) : option Z :=
  match s with
  | String b (String u s') => if Ascii.eqb b backslash && Ascii.eqb u "u" then hex4 s' else None
  | _ => None
  end.

(** [utf8.EncodeRune] for a rune that is not a surrogate. *)
Definition EncodeRune (r : Z) : string :=
  if r <? 0x80 then String (byte_of r) ""
  else if r <? 0x800 then String (byte_of (0xC0 + r / 64)) (String (byte_of (0x80 + r mod 64)) "")
  else if r <? 0x10000 then
    String (byte_of (0xE0 + r / 4096)) (String (byte_of (0x80 + r / 64 mod 64)) (String (byte_of (0x80 + r mod 64)) ""))
  else
    String (byte_of (0xF0 + r / 262144)) (String (byte_of (0x80 + r / 4096 mod 64))
      (String (byte_of (0x80 + r / 64 mod 64)) (String (byte_of (0x80 + r mod 64)) ""))).

Definition replacement : string := EncodeRune 0xFFFD.

(** [utf16.IsSurrogate] and the pairs [utf16.DecodeRune] accepts. *)
Definition IsSurrogate (r : Z) : bool := (0xD800 <=? r) && (r <? 0xE000).
Definition surrogate_pair (r1 r2 : Z) : option Z :=
  if (0xD800 <=? r1) && (r1 <? 0xDC00) && (0xDC00 <=? r2) && (r2 <? 0xE000)
  then Some ((r1 - 0xD800) * 1024 + (r2 - 0xDC00) + 0x10000) else None.

(** The byte of a one-character escape. *)
Definition unescape (c : ascii) : ascii :=
  if Ascii.eqb c "b" then "008" else if Ascii.eqb c "f" then "012" else if Ascii.eqb c "n" then "010"
  else if Ascii.eqb c "r" then "013" else if Ascii.eqb c "t" then "009" else c.

Fixpoint sdrop (n : nat) (s : string) : string :=
  match n, s with S n', String _ s' => sdrop n' s' | _, _ => s end.

(** [unquoteBytes] on the text between the quotes: [copy] bytes of a rune are
    still to be copied, or [drop] bytes of an escape skipped. *)
Fixpoint unquote (copy drop : nat) (s : string) : string :=
  match s with
  | EmptyString => ""
  | String c s' =>
      match copy, drop with
      | S n, _ => String c (unquote n 0 s')
      | O, S n => unquote 0 n s'
      | O, O =>
          if Ascii.eqb c backslash then
            match getu4 s with
            | Some r =>
                if IsSurrogate r then
                  match (r2 ← getu4 (sdrop 6 s); surrogate_pair r r2) with
                  | Some r' => EncodeRune r' +:+ unquote 0 11 s'
                  | None => replacement +:+ unquote 0 5 s'
                  end
                else EncodeRune r +:+ unquote 0 5 s'
            | None =>
                match s' with
                | EmptyString => ""
                | String e _ => String (unescape e) (unquote 0 1 s')
                end
            end
          else if byte_val c <? 128 then String c (unquote 0 0 s')
          else match rune_tail s with
               | Some n => String c (unquote n 0 s')
               | None => replacement +:+ unquote 0 0 s'
               end
      end
  end.

(** ** Numbers and words *)

Inductive number_state := NNeg | NZero | NInt | NDot | NFrac | NE | NESign | NExp.

(** The state after a byte of the number. *)
Definition number_step (st : number_state) (c : ascii) : option number_state :=
  let exp := Ascii.eqb c "e" || Ascii.eqb c "E" in
  match st with
  | NNeg => if Ascii.eqb c "0" then Some NZero else if is_digit c then Some NInt else None
  | NZero => if Ascii.eqb c "." then Some NDot else if exp then Some NE else None
  | NInt => if is_digit c then Some NInt else if Ascii.eqb c "." then Some NDot else if exp then Some NE else None
  | NDot => if is_digit c then Some NFrac else None
  | NFrac => if is_digit c then Some NFrac else if exp then Some NE else None
  | NE => if Ascii.eqb c "+" || Ascii.eqb c "-" then Some NESign else if is_digit c then Some NExp else None
  | NESign | NExp => if is_digit c then Some NExp else None
  end.

(** Why the number cannot end in this state, if it cannot. *)
Definition number_context (st : number_state) : option string :=
  match st with
  | NNeg => Some "in numeric literal"
  | NDot => Some "after decimal point in numeric literal"
  | NE | NESign => Some "in exponent of numeric literal"
  | _ => None
  end.

Fixpoint scan_number (st : number_state) (s : string) : parsed string :=
  match s with
  | EmptyString => match number_context st with Some _ => NoMore | None => Done "" "" end
  | String c s' =>
      match number_step st c with
      | Some st' => pmap (String c) (scan_number st' s')
      | None => match number_context st with Some m => Invalid c m | None => Done "" s end
      end
  end.

(** The rest [w] of the word [name]. *)
Fixpoint scan_word (name w s : string) : parsed unit :=
  match w, s with
  | EmptyString, _ => Done tt s
  | String _ _, EmptyString => NoMore
  | String x w', String c s' =>
      if Ascii.eqb c x then scan_word name w' s'
      else Invalid c ("in literal " +:+ name +:+ " (expecting '" +:+ String x "')")
  end.

(** ** Values *)

Definition is_space (c : ascii) : bool := existsb (Ascii.eqb c) [" "; "009"; "013"; "010"]%char.

Fixpoint skip_space (s : string) : string :=
  match s with
  | EmptyString => ""
  | String c s' => if is_space c then skip_space s' else s
  end.

(** The first byte that is not a space. *)
Definition next {A} (s : string) (f : ascii → string → parsed A) : parsed A :=
  match skip_space s with EmptyString => NoMore | String c s' => f c s' end.

Definition parse_string (s : string) : parsed string := pmap (unquote 0 0) (scan_string InString s).

(** The state after the first byte of a number. *)
Definition number_start (c : ascii) : option number_state :=
  if Ascii.eqb c "-" then Some NNeg else if Ascii.eqb c "0" then Some NZero
  else if is_digit c then Some NInt else None.

Definition parse_literal (c : ascii) (s : string) : parsed json :=
  if Ascii.eqb c quote_char then pmap JString (parse_string s)
  else match number_start c with
  | Some st => pmap (λ t, JNumber (String c t)) (scan_number st s)
  | None =>
      if Ascii.eqb c "t" then pmap (λ _, JBool true) (scan_word "true" "rue" s)
      else if Ascii.eqb c "f" then pmap (λ _, JBool false) (scan_word "false" "alse" s)
      else if Ascii.eqb c "n" then pmap (λ _, JNull) (scan_word "null" "ull" s)
      else Invalid c "looking for beginning of value"
  end.

Fixpoint parse_value (fuel : nat) (s : string) : parsed json :=
  match fuel with
  | O => NoFuel
  | S fuel' =>
      next s (λ c s1,
        if Ascii.eqb c "{" then
          next s1 (λ c' s2, if Ascii.eqb c' "}" then Done (JObject []) s2
                            else pmap JObject (parse_members fuel' s1))
        else if Ascii.eqb c "[" then
          next s1 (λ c' s2, if Ascii.eqb c' "]" then Done (JArray []) s2
                            else pmap JArray (parse_elements fuel' s1))
        else parse_literal c s1)
  end
with parse_members (fuel : nat) (s : string) : parsed (list (string * json)) :=
  match fuel with
  | O => NoFuel
  | S fuel' =>
      next s (λ c s1,
        if negb (Ascii.eqb c quote_char) then Invalid c "looking for beginning of object key string"
        else pbind (parse_string s1) (λ key s2,
          next s2 (λ c s3,
            if negb (Ascii.eqb c ":") then Invalid c "after object key"
            else pbind (parse_value fuel' s3) (λ v s4,
              next s4 (λ c s5,
                if Ascii.eqb c "," then pmap (cons (key, v)) (parse_members fuel' s5)
                else if Ascii.eqb c "}" then Done [(key, v)] s5
                else Invalid c "after object key:value pair")))))
  end
with parse_elements (fuel : nat) (s : string) : parsed (list json) :=
  match fuel with
  | O => NoFuel
  | S fuel' =>
      pbind (parse_value fuel' s) (λ v s1,
        next s1 (λ c s2,
          if Ascii.eqb c "," then pmap (cons v) (parse_elements fuel' s2)
          else if Ascii.eqb c "]" then Done [v] s2
          else Invalid c "after array element"))
  end.

(** A value of [n] bytes needs at most this much. *)
Definition enough (s : string) : nat := 2 * String.length s + 2.

(** ** Reading from a request *)

(** [quoteChar]: the byte as a rune in single quotes, as [strconv.Quote] shows
    it. *)
Definition quoteChar (c : ascii) : string :=
  let b := byte_val c in
  let hex2 := String (hex_digit (b / 16)) (String (hex_digit (b mod 16)) "") in
  "'" +:+
  (if b =? 39 then String backslash "'"
   else if b =? 92 then String backslash (String backslash "")
   else if b =? 7 then String backslash "a" else if b =? 8 then String backslash "b"
   else if b =? 12 then String backslash "f" else if b =? 10 then String backslash "n"
   else if b =? 13 then String backslash "r" else if b =? 9 then String backslash "t"
   else if b =? 11 then String backslash "v"
   else if (b <? 32) || (b =? 127) then String backslash ("x" +:+ hex2)
   else if (b <? 127) || (161 <=? b) && negb (b =? 173) then EncodeRune b
   else String backslash ("u00" +:+ hex2))
  +:+ "'".

(** At most [n] bytes. *)
Fixpoint limit_bytes (n : Z) (s : string) : string :=
  match s with
  | EmptyString => ""
  | String c s' => if n <=? 0 then "" else String c (limit_bytes (n - 1) s')
  end.

(** The end of an object or array is recognised at once, the end of another
    value at the next byte or the end of the input. *)
Definition closed_by_itself (v : json) : bool := match v with JArray _ | JObject _ => true | _ => false end.

(** [Decoder.readValue] over [http.MaxBytesReader] with limit [n]: the first
    value of the body or an error.  Bytes beyond the limit give an error when
    they are needed. *)
Definition readValue (n : Z) (body : string) : string + json :=
  let s := limit_bytes n body in
  let too_large := n <? GoStr.len body in
  let at_end := if too_large then "http: request body too large"
                else if String.eqb (skip_space s) "" then "EOF" else "unexpected EOF" in
  match parse_value (enough s) s with
  | Done v rest => if too_large && String.eqb rest "" && negb (closed_by_itself v) then inl at_end else inr v
  | Invalid c context => inl ("invalid character " +:+ quoteChar c +:+ " " +:+ context)
  | NoMore => inl at_end
  | NoFuel => inl "out of fuel"
  end.

(** [foldName], for the comparison with ASCII names: the only runes beyond
    ASCII that fold to ASCII letters are the long s and the Kelvin sign. *)
Fixpoint foldName (s : string) : string :=
  match s with
  | EmptyString => ""
  | String c s' =>
      match s' with
      | String d s2 =>
          if Ascii.eqb c "197" && Ascii.eqb d "191" then String "S" (foldName s2)
          else match s2 with
               | String e s3 =>
                   if Ascii.eqb c "226" && Ascii.eqb d "132" && Ascii.eqb e "170" then String "K" (foldName s3)
                   else String (upper_byte c) (foldName s')
               | EmptyString => String (upper_byte c) (foldName s')
               end
      | EmptyString => String (upper_byte c) ""
      end
  end.

(** The name of a value in type errors. *)
Definition value_kind (v : json) : string :=
  match v with
  | JNull => "null" | JBool _ => "bool" | JNumber _ => "number" | JString _ => "string"
  | JArray _ => "array" | JObject _ => "object"
  end.

Definition qt (s : string) : string := String quote_char (s +:+ String quote_char "").

Example readValue_examples :
  (readValue 4096 (" {" +:+ qt ("a" +:+ String backslash "ud83d" +:+ String backslash "ude00") +:+ ": [1e5, -0.5,true]} tail"),
   readValue 4096 "[1,]", readValue 4096 "{", readValue 4096 " ", readValue 4 "null ", readValue 4 "null", readValue 3 "[] ]",
   readValue 9 "01", readValue 9 "-a", readValue 9 "nil", foldName ("addre" +:+ String "197" (String "191" "s")))
  = (inr (JObject [("a" +:+ EncodeRune 0x1F600, JArray [JNumber "1e5"; JNumber "-0.5"; JBool true])]),
     inl "invalid character ']' looking for beginning of value", inl "unexpected EOF", inl "EOF",
     inl "http: request body too large", inr JNull, inr (JArray []), inr (JNumber "0"),
     inl "invalid character 'a' in numeric literal", inl "invalid character 'i' in literal null (expecting 'u')", "ADDRESS").
Proof. vm_compute. reflexivity. Qed.

(** ** The fuel is enough *)

Definition shorter {A} (n : nat) (p : parsed A) : Prop :=
  match p with Done _ rest => (String.length rest < n)%nat | NoFuel => False | _ => True end.

Lemma shorter_bind {A B} n m (p : parsed A) (f : A → string → parsed B) : shorter n p →
  (∀ a rest, (String.length rest < n)%nat → shorter m (f a rest)) → shorter m (pbind p f).
Proof. destruct p; cbn; auto. Qed.

Lemma shorter_map {A B} n m (p : parsed A) (f : A → B) : shorter n p → (n ≤ m)%nat → shorter m (pmap f p).
Proof. intros Hp Hm. apply (shorter_bind n); [done|]. intros a rest Hr. cbn. lia. Qed.

Lemma shorter_le {A} n m (p : parsed A) : shorter n p → (n ≤ m)%nat → shorter m p.
Proof. destruct p; cbn; lia || auto. Qed.

Lemma skip_space_length s : (String.length (skip_space s) ≤ String.length s)%nat.
Proof. induction s as [|c s IH]; cbn; [done|]. case_match; cbn; lia. Qed.

Lemma shorter_next {A} n s (f : ascii → string → parsed A) :
  (∀ c s', (String.length s' < String.length s)%nat → shorter n (f c s')) → shorter n (next s f).
Proof.
  intros Hf. unfold next. pose proof (skip_space_length s) as Hl.
  destruct (skip_space s) as [|c s']; [done|]. apply Hf. cbn in Hl. lia.
Qed.

Lemma scan_string_shorter s : ∀ st, shorter (String.length s) (scan_string st s).
Proof.
  induction s as [|c s IH]; intros st; cbn [scan_string]; [done|].
  repeat case_match; try done; try (cbn; lia); (eapply shorter_map; [apply IH|cbn; lia]).
Qed.

Lemma scan_number_shorter s : ∀ st, shorter (S (String.length s)) (scan_number st s).
Proof.
  induction s as [|c s IH]; intros st; cbn [scan_number]; [case_match; cbn; lia || done|].
  repeat case_match; try done; try (cbn; lia); (eapply shorter_map; [apply IH|cbn; lia]).
Qed.

Lemma scan_word_shorter name w : ∀ s, shorter (S (String.length s)) (scan_word name w s).
Proof.
  induction w as [|x w IH]; intros s; cbn [scan_word]; [cbn; lia|]. destruct s as [|c s]; [done|].
  case_match; [|done]. eapply shorter_le; [apply IH|cbn; lia].
Qed.

#[local] Hint Resolve scan_string_shorter scan_number_shorter scan_word_shorter : hap.

Lemma parse_literal_shorter c s : shorter (S (String.length s)) (parse_literal c s).
Proof.
  unfold parse_literal, parse_string. destruct (Ascii.eqb c quote_char).
  { eapply shorter_map; [eapply shorter_map|]; [apply scan_string_shorter|reflexivity|lia]. }
  destruct (number_start c); [|repeat match goal with |- shorter _ (if ?b then _ else _) => destruct b end];
    try (eapply shorter_map; [eauto with hap|lia]); done.
Qed.

Lemma parse_shorter fuel : ∀ s,
  (2 * String.length s < fuel → shorter (String.length s) (parse_value fuel s))%nat ∧
  (2 * String.length s + 1 < fuel → shorter (String.length s) (parse_members fuel s))%nat ∧
  (2 * String.length s + 1 < fuel → shorter (String.length s) (parse_elements fuel s))%nat.
Proof.
  induction fuel as [|fuel IH]; intros s; [lia|]. split_and!; intros Hf.
  - cbn [parse_value]. apply shorter_next. intros c s1 H1. case_match.
    { apply shorter_next. intros c' s2 H2. case_match; [cbn; lia|].
      eapply shorter_map; [apply IH; lia|lia]. }
    case_match.
    { apply shorter_next. intros c' s2 H2. case_match; [cbn; lia|].
      eapply shorter_map; [apply IH; lia|lia]. }
    eapply shorter_le; [apply parse_literal_shorter|lia].
  - cbn [parse_members]. apply shorter_next. intros c s1 H1. case_match; [done|].
    eapply shorter_bind; [eapply shorter_map; [apply scan_string_shorter|reflexivity]|]. intros key s2 H2.
    apply shorter_next. intros c2 s3 H3. case_match; [done|].
    eapply shorter_bind; [apply IH; lia|]. intros v s4 H4.
    apply shorter_next. intros c3 s5 H5. case_match; [eapply shorter_map; [apply IH; lia|lia]|].
    case_match; [cbn; lia|done].
  - cbn [parse_elements]. eapply shorter_bind; [apply IH; lia|]. intros v s1 H1.
    apply shorter_next. intros c2 s2 H2. case_match; [eapply shorter_map; [apply IH; lia|lia]|].
    case_match; [cbn; lia|done].
Qed.

(** Parsing ends with a value, a syntax error or the end of the input. *)
Lemma parse_value_total s : parse_value (enough s) s ≠ NoFuel.
Proof.
  intros E. pose proof (proj1 (parse_shorter (enough s) s)) as Hs. rewrite E in Hs. apply Hs. unfold enough. lia.
Qed.

(** ** The decoder inverts the encoder *)

Definition papp (a : string) : parsed string → parsed string := pmap (String.app a).

(** The escape of an ASCII byte is scanned as it is and unquoted to the byte. *)
Lemma scan_escape c s : byte_val c < 128 →
  scan_string InString (escape_byte c +:+ s) = papp (escape_byte c) (scan_string InString s).
Proof.
  intros Hc. destruct c as [[] [] [] [] [] [] [] []]; try (by exfalso; vm_compute in Hc);
    match goal with |- context [escape_byte ?c] => let e := eval vm_compute in (escape_byte c) in change (escape_byte c) with e end;
    unfold String.app, papp; cbn; by destruct (scan_string InString s).
Qed.

Lemma unquote_escape c s : byte_val c < 128 → unquote 0 0 (escape_byte c +:+ s) = String c (unquote 0 0 s).
Proof. intros Hc. destruct c as [[] [] [] [] [] [] [] []]; try (by exfalso; vm_compute in Hc); reflexivity. Qed.

(** Bytes of a rune after the first are copied by both. *)
Lemma continues_body n lo hi s : continues n lo hi s = true → continues n lo hi (json_body n 0 s) = true.
Proof.
  revert lo hi s. induction n as [|n IH]; intros lo hi [|c s]; try done. cbn [continues json_body].
  intros [Hc Hs]%andb_prop. by rewrite Hc, IH.
Qed.

Lemma valid_continues n lo hi s : valid_loop s n lo hi = true → continues n lo hi s = true.
Proof.
  revert lo hi s. induction n as [|n IH]; intros lo hi [|c s]; try done. cbn [continues valid_loop].
  intros [Hc Hs]%andb_prop. by rewrite Hc, IH.
Qed.

Lemma high_byte c : 128 ≤ byte_val c →
  Ascii.eqb c quote_char = false ∧ Ascii.eqb c backslash = false ∧ byte_val c <? 32 = false ∧ byte_val c <? 128 = false.
Proof.
  intros Hc. split_and!; [..|apply Z.ltb_ge; lia|by apply Z.ltb_ge];
    apply Ascii.eqb_neq; intros ->; vm_compute in Hc; by destruct Hc.
Qed.

Lemma line_separator_spec c s d : line_separator (String c s) = Some d →
  ∃ t, (d = 8 ∧ String c s = String "226" (String "128" (String "168" t))) ∨
       (d = 9 ∧ String c s = String "226" (String "128" (String "169" t))).
Proof.
  unfold line_separator. destruct s as [|b [|e t]]; [done..|]. intros E. exists t.
  destruct (_ && _) eqn:Eb; [|done]. injection E as <-.
  apply andb_prop in Eb as [[Ea Eb]%andb_prop [Ee|Ee]%orb_prop]; apply Z.eqb_eq in Ea, Eb, Ee; rewrite Ee; [left|right];
    (split; [done|]); by repeat f_equal; apply byte_val_inj.
Qed.

(** The text between the quotes is scanned up to the closing quote. *)
Lemma scan_body rest s : ∀ copy drop lo hi, continues copy lo hi s = true → 0x80 ≤ lo →
  scan_string InString (json_body copy drop s +:+ String quote_char rest) = Done (json_body copy drop s) rest.
Proof.
  induction s as [|c s IH]; intros copy drop lo hi Hc Hlo; [done|]. cbn [json_body].
  assert (Hhigh : ∀ n l h, 128 ≤ byte_val c → continues n l h s = true → 0x80 ≤ l →
    scan_string InString (String c (json_body n 0 s) +:+ String quote_char rest) = Done (String c (json_body n 0 s)) rest).
  { intros n l h (E1 & E2 & E3 & _)%high_byte Hn Hl. rewrite app_cons. cbn [scan_string].
    rewrite E1, E2, E3. by rewrite (IH n 0%nat l h Hn Hl). }
  destruct copy as [|n]; [destruct drop as [|n]|].
  - destruct (Z.ltb_spec (byte_val c) 128) as [Hb|Hb].
    { rewrite string_app_assoc, scan_escape by done. by rewrite (IH 0%nat 0%nat 128 128). }
    destruct (rune_tail (String c s)) as [n|] eqn:Hr.
    + cbn [rune_tail] in Hr. destruct (utf8_lead (byte_val c)) as [[[m l] h]|] eqn:El; [|done]. cbn in Hr.
      destruct (continues m l h s) eqn:Ec; [|done]. injection Hr as <-.
      destruct (line_separator (String c s)) as [d|] eqn:Es.
      * rewrite !string_app_assoc. change (String (hex_digit d) "" +:+ ?x) with (String (hex_digit d) x).
        pose proof (IH 0%nat m 128 128 eq_refl ltac:(lia)) as E.
        apply line_separator_spec in Es as (t & [[-> _]|[-> _]]); cbn -[json_body]; unfold String.app in *; cbn -[json_body]; by rewrite E.
      * by apply (Hhigh m l h); [|done|eapply continues_lead; [done|by apply Z.ltb_ge]].
    + pose proof (IH 0%nat 0%nat 128 128 eq_refl ltac:(lia)) as E. unfold String.app in *. cbn -[json_body]. by rewrite E.
  - by apply (IH 0%nat n 128 128).
  - cbn [continues] in Hc. apply andb_prop in Hc as [[Hb _]%andb_prop Hc]. apply Z.leb_le in Hb.
    apply (Hhigh n 0x80 0xBF); [lia|done|lia].
Qed.

(** A text with every byte that is not part of a valid rune replaced; [copy]
    bytes of a rune are still to be copied. *)
Fixpoint repair_text (copy : nat) (s : string) : string :=
  match s with
  | EmptyString => ""
  | String c s' =>
      match copy with
      | S n => String c (repair_text n s')
      | O => if byte_val c <? 128 then String c (repair_text 0 s')
             else match rune_tail s with
                  | Some n => String c (repair_text n s')
                  | None => replacement +:+ repair_text 0 s'
                  end
      end
  end.

(** Valid UTF-8 needs no repair. *)
Lemma repair_valid s : ∀ n lo hi, valid_loop s n lo hi = true → repair_text n s = s.
Proof.
  induction s as [|c s IH]; intros n lo hi Hv; [done|]. cbn [repair_text valid_loop] in *. destruct n as [|n].
  - destruct (utf8_lead (byte_val c)) as [[[m l] h]|] eqn:El; [|done].
    destruct (Z.ltb_spec (byte_val c) 128) as [Hb|Hb].
    { f_equal. unfold utf8_lead in El. destruct (Z.ltb_spec (byte_val c) 0x80); [|lia]. injection El as <- <- <-. by apply (IH 0%nat 0 0). }
    cbn [rune_tail]. rewrite El. cbn [mbind option_bind]. rewrite (valid_continues _ _ _ _ Hv). f_equal. by apply (IH m l h).
  - apply andb_prop in Hv as [_ Hv]. f_equal. by apply (IH n 0x80 0xBF).
Qed.

(** Quoting and unquoting is repairing. *)
Lemma unquote_body s : ∀ copy drop lo hi, continues (copy + drop) lo hi s = true → copy = 0%nat ∨ drop = 0%nat →
  unquote copy 0 (json_body copy drop s) = repair_text copy (sdrop drop s).
Proof.
  induction s as [|c s IH]; intros copy drop lo hi Hc Hcd; [by destruct copy, drop|]. cbn [json_body].
  destruct copy as [|n]; [destruct drop as [|n]|].
  - cbn [sdrop repair_text]. destruct (Z.ltb_spec (byte_val c) 128) as [Hb|Hb].
    { rewrite unquote_escape by done. f_equal. by apply (IH 0%nat 0%nat 0 0); [|left]. }
    destruct (rune_tail (String c s)) as [m|] eqn:Hr.
    + cbn [rune_tail] in Hr. destruct (utf8_lead (byte_val c)) as [[[m' l] h]|] eqn:El; [|done]. cbn in Hr.
      destruct (continues m' l h s) eqn:Ec; [|done]. injection Hr as <-.
      destruct (line_separator (String c s)) as [d|] eqn:Es.
      * pose proof (IH 0%nat m' l h Ec (or_introl eq_refl)) as E.
        apply line_separator_spec in Es as (t & [[-> Et]|[-> Et]]); injection Et as -> ->; vm_compute in El; injection El as <- <- <-;
          unfold String.app; cbn; cbn in E; rewrite E; reflexivity.
      * pose proof (IH m' 0%nat l h) as E. rewrite Nat.add_0_r in E.
        destruct (high_byte c Hb) as (_ & E2 & _ & E4). cbn [unquote]. rewrite E2, E4.
        cbn [rune_tail]. rewrite El. cbn. rewrite (continues_body _ _ _ _ Ec). by rewrite (E Ec (or_intror eq_refl)).
    + pose proof (IH 0%nat 0%nat 0 0 eq_refl (or_introl eq_refl)) as E. cbn [sdrop] in E. rewrite <-E. reflexivity.
  - cbn [continues Nat.add] in Hc. apply andb_prop in Hc as [_ Hc]. by apply (IH 0%nat n 0x80 0xBF); [|left].
  - destruct Hcd as [?| ->]; [done|]. cbn [continues Nat.add] in Hc. apply andb_prop in Hc as [_ Hc].
    cbn [unquote sdrop repair_text]. f_equal. by apply (IH n 0%nat 0x80 0xBF); [|right].
Qed.

Lemma parse_json_string s rest :
  parse_string (json_body 0 0 s +:+ String quote_char rest) = Done (repair_text 0 s) rest.
Proof.
  unfold parse_string. rewrite (scan_body rest s 0 0 128 128) by done. cbn [pmap pbind].
  by rewrite (unquote_body s 0 0 0 0) by auto.
Qed.

(** ** Rendering *)

(** The compact text of a value, as the encoder writes it. *)
Fixpoint render (v : json) : string :=
  match v with
  | JNull => "null"
  | JBool b => if b then "true" else "false"
  | JNumber t => t
  | JString s => json_string s
  | JArray l => "[" +:+ GoNet.Join (render <$> l) "," +:+ "]"
  | JObject l => "{" +:+ GoNet.Join ((λ kv, json_string kv.1 +:+ ":" +:+ render kv.2) <$> l) "," +:+ "}"
  end.

Fixpoint number_run (st : number_state) (s : string) : option number_state :=
  match s with EmptyString => Some st | String c s' => st' ← number_step st c; number_run st' s' end.

Definition number_ok (t : string) : bool :=
  match t with
  | EmptyString => false
  | String c s =>
      match (st ← number_start c; number_run st s) with
      | Some st' => match number_context st' with None => true | Some _ => false end
      | None => false
      end
  end.

(** Numbers follow the grammar. *)
Fixpoint numbers_ok (v : json) : bool :=
  match v with
  | JNull | JBool _ | JString _ => true
  | JNumber t => number_ok t
  | JArray l => forallb numbers_ok l
  | JObject l => forallb (λ kv, numbers_ok kv.2) l
  end.

(** The value with all texts repaired. *)
Fixpoint repair (v : json) : json :=
  match v with
  | JNull => JNull
  | JBool b => JBool b
  | JNumber t => JNumber t
  | JString s => JString (repair_text 0 s)
  | JArray l => JArray (repair <$> l)
  | JObject l => JObject ((λ kv, (repair_text 0 kv.1, repair kv.2)) <$> l)
  end.

(** Strings are UTF-8, numbers follow the grammar. *)
Fixpoint json_ok (v : json) : bool :=
  match v with
  | JNull | JBool _ => true
  | JNumber t => number_ok t
  | JString s => ValidString s
  | JArray l => forallb json_ok l
  | JObject l => forallb (λ kv, ValidString kv.1 && json_ok kv.2) l
  end.

Section json_induction.
Variable P : json → Prop.
Hypothesis Hnull : P JNull.
Hypothesis Hbool : ∀ b, P (JBool b).
Hypothesis Hnumber : ∀ t, P (JNumber t).
Hypothesis Hstring : ∀ s, P (JString s).
Hypothesis Harray : ∀ l, Forall P l → P (JArray l).
Hypothesis Hobject : ∀ l, Forall (λ kv, P kv.2) l → P (JObject l).

Fixpoint json_ind' (v : json) : P v :=
  match v with
  | JNull => Hnull
  | JBool b => Hbool b
  | JNumber t => Hnumber t
  | JString s => Hstring s
  | JArray l => Harray l ((fix go (l : list json) : Forall P l :=
      match l with [] => Forall_nil_2 _ | v :: l' => Forall_cons_2 _ _ _ (json_ind' v) (go l') end) l)
  | JObject l => Hobject l ((fix go (l : list (string * json)) : Forall (λ kv, P kv.2) l :=
      match l with [] => Forall_nil_2 _ | kv :: l' => Forall_cons_2 _ _ _ (json_ind' kv.2) (go l') end) l)
  end.
End json_induction.

Lemma json_ok_repair v : json_ok v = true → numbers_ok v = true ∧ repair v = v.
Proof.
  induction v as [|b|t|s|l IH|l IH] using json_ind'; cbn [json_ok numbers_ok repair]; intros Hok; try done.
  - split; [done|]. f_equal. by apply (repair_valid s 0 0 0).
  - assert (Hl : forallb numbers_ok l = true ∧ repair <$> l = l); [|destruct Hl as [? ->]; done].
    induction IH as [|v l Hv _ IHl]; [done|]. cbn [forallb fmap list_fmap] in *. apply andb_prop in Hok as [Ha Hb].
    destruct (Hv Ha) as [-> ->], (IHl Hb) as [-> ->]. done.
  - assert (Hl : forallb (λ kv, numbers_ok kv.2) l = true ∧ (λ kv, (repair_text 0 kv.1, repair kv.2)) <$> l = l);
      [|destruct Hl as [? ->]; done].
    induction IH as [|[k v] l Hv _ IHl]; [done|]. cbn [forallb fmap list_fmap fst snd] in *. apply andb_prop in Hok as [[Hk Ha]%andb_prop Hb].
    destruct (Hv Ha) as [-> ->], (IHl Hb) as [-> ->]. by rewrite (repair_valid k 0 0 0).
Qed.

(** What may follow a value. *)
Definition delimited (rest : string) : bool :=
  match rest with
  | EmptyString => true
  | String c _ => is_space c || Ascii.eqb c "," || Ascii.eqb c "]" || Ascii.eqb c "}"
  end.

Lemma delimiter_ends c st : is_space c || Ascii.eqb c "," || Ascii.eqb c "]" || Ascii.eqb c "}" = true →
  number_step st c = None.
Proof. intros Hc. destruct c as [[] [] [] [] [] [] [] []]; try discriminate Hc; by destruct st. Qed.

Lemma scan_number_run rest s : delimited rest = true → ∀ st st', number_run st s = Some st' → number_context st' = None →
  scan_number st (s +:+ rest) = Done s rest.
Proof.
  intros Hd. induction s as [|c s IH]; intros st st' Hr Hc.
  - injection Hr as <-. change ("" +:+ rest) with rest. destruct rest as [|c rest]; cbn [scan_number]; [by rewrite Hc|].
    by rewrite delimiter_ends, Hc.
  - cbn [number_run] in Hr. rewrite app_cons. cbn [scan_number].
    destruct (number_step st c) as [st1|]; [|done]. by rewrite (IH st1 st').
Qed.

(** The first byte of a value tells how to read it. *)
Lemma render_head v : numbers_ok v = true →
  ∃ c s, render v = String c s ∧ is_space c = false ∧ Ascii.eqb c "]" = false.
Proof.
  destruct v as [|[]|t|s|l|l]; cbn [render numbers_ok]; intros Hok; try by eexists _, _.
  destruct t as [|c s]; [done|]. exists c, s. split; [done|]. cbn [number_ok] in Hok.
  destruct (number_start c) eqn:E; [|done]. clear Hok.
  destruct c as [[] [] [] [] [] [] [] []]; try discriminate E; done.
Qed.

Lemma next_cons {A} c s (f : ascii → string → parsed A) : is_space c = false → next (String c s) f = f c s.
Proof. intros Hc. unfold next. cbn [skip_space]. by rewrite Hc. Qed.

Definition reads (v : json) : Prop := numbers_ok v = true → ∀ rest fuel, delimited rest || closed_by_itself v = true →
  (2 * String.length (render v +:+ rest) < fuel)%nat → parse_value fuel (render v +:+ rest) = Done (repair v) rest.

Lemma literal_reads c s rest v fuel : is_space c = false → Ascii.eqb c "{" = false → Ascii.eqb c "[" = false →
  parse_literal c (s +:+ rest) = Done v rest → (0 < fuel)%nat → parse_value fuel (String c s +:+ rest) = Done v rest.
Proof.
  intros E1 E2 E3 E Hf. destruct fuel as [|fuel]; [lia|]. rewrite app_cons. cbn [parse_value].
  rewrite next_cons by done. by rewrite E2, E3.
Qed.

Lemma number_reads t : reads (JNumber t).
Proof.
  intros Hok rest fuel Hd Hf. cbn [closed_by_itself] in Hd. rewrite orb_false_r in Hd.
  cbn [render numbers_ok repair] in *. destruct t as [|c s]; [done|]. cbn [number_ok] in Hok.
  destruct (number_start c) as [st|] eqn:Es; [|done]. cbn in Hok.
  destruct (number_run st s) as [st'|] eqn:Er; [|done]. destruct (number_context st') eqn:Ec; [done|].
  assert (Hc : is_space c = false ∧ Ascii.eqb c "{" = false ∧ Ascii.eqb c "[" = false ∧ Ascii.eqb c quote_char = false).
  { destruct c as [[] [] [] [] [] [] [] []]; try discriminate Es; done. }
  destruct Hc as (E1 & E2 & E3 & E4). apply literal_reads; [done|done|done| |lia].
  unfold parse_literal. rewrite E4, Es. by rewrite (scan_number_run rest s Hd st st').
Qed.

Lemma string_reads s : reads (JString s).
Proof.
  intros Hok rest fuel Hd Hf. cbn [render numbers_ok repair] in *. unfold json_string in *.
  apply literal_reads; [done|done|done| |lia]. unfold parse_literal. cbn [Ascii.eqb quote_char].
  rewrite string_app_assoc, app_cons. change (String.app "" rest) with rest.
  change (Ascii.eqb quote_char quote_char) with true. cbv iota. by rewrite parse_json_string.
Qed.

(** Lists of elements and members, with what follows the list. *)
Lemma elements_read l : Forall reads l → l ≠ [] → forallb numbers_ok l = true → ∀ rest fuel,
  let t := GoNet.Join (render <$> l) "," +:+ "]" +:+ rest in
  (2 * String.length t + 1 < fuel)%nat → parse_elements fuel t = Done (repair <$> l) rest.
Proof.
  induction l as [|v l IH]; intros Hl Hne Hok rest fuel t Hf; [done|]. clear Hne. subst t.
  apply Forall_cons in Hl as [Hv Hl]. cbn [forallb] in Hok. apply andb_prop in Hok as [Hokv Hok].
  destruct fuel as [|fuel]; [lia|]. cbn [parse_elements]. destruct l as [|w l].
  - cbn [fmap list_fmap GoNet.Join] in *. rewrite Hv by (done || lia). cbn [pbind].
    change ("]" +:+ rest) with (String "]" rest). by rewrite next_cons.
  - change (GoNet.Join (render <$> v :: w :: l) ",") with (render v +:+ "," +:+ GoNet.Join (render <$> w :: l) ",") in *.
    rewrite !string_app_assoc in *. rewrite Hv by (done || lia). cbn [pbind].
    rewrite string_length_app in Hf. change ("," +:+ ?x) with (String "," x) in *. cbn [String.length] in Hf.
    rewrite next_cons by done. cbn [Ascii.eqb Bool.eqb]. rewrite IH by (done || lia). done.
Qed.

Lemma members_read l : Forall (λ kv, reads kv.2) l → l ≠ [] → forallb (λ kv, numbers_ok kv.2) l = true →
  ∀ rest fuel,
  let t := GoNet.Join ((λ kv, json_string kv.1 +:+ ":" +:+ render kv.2) <$> l) "," +:+ "}" +:+ rest in
  (2 * String.length t + 1 < fuel)%nat → parse_members fuel t = Done ((λ kv, (repair_text 0 kv.1, repair kv.2)) <$> l) rest.
Proof.
  induction l as [|[k v] l IH]; intros Hl Hne Hok rest fuel t Hf; [done|]. clear Hne.
  apply Forall_cons in Hl as [Hv Hl]. cbn [forallb fst snd] in *. apply andb_prop in Hok as [Hokv Hok].
  assert (Hmem : ∀ tail, delimited tail = true → (2 * String.length (json_string k +:+ ":" +:+ render v +:+ tail) + 1 < fuel)%nat →
    ∃ fuel', fuel = S fuel' ∧ parse_members fuel (json_string k +:+ ":" +:+ render v +:+ tail) =
      next tail (λ c s5, if Ascii.eqb c "," then pmap (cons (repair_text 0 k, repair v)) (parse_members fuel' s5)
                         else if Ascii.eqb c "}" then Done [(repair_text 0 k, repair v)] s5
                         else Invalid c "after object key:value pair")).
  { intros tail Hd Hlen. destruct fuel as [|fuel]; [lia|]. exists fuel. split; [done|]. cbn [parse_members].
    unfold json_string in *. rewrite app_cons, string_app_assoc, app_cons in *. rewrite next_cons by done.
    change (String.app "" ?x) with x in *. change (negb (Ascii.eqb quote_char quote_char)) with false. cbv iota.
    rewrite parse_json_string by done. cbn [pbind]. change (":" +:+ ?x) with (String ":" x) in *.
    rewrite next_cons by done. cbn [Ascii.eqb Bool.eqb negb].
    cbn [String.length] in Hlen. rewrite string_length_app in Hlen. cbn [String.length] in Hlen.
    rewrite Hv by (done || lia || by rewrite Hd). done. }
  subst t. destruct l as [|w l].
  - cbn [fmap list_fmap GoNet.Join fst snd] in *. rewrite !string_app_assoc in *.
    destruct (Hmem ("}" +:+ rest)) as (fuel' & -> & ->); [done|lia|].
    change ("}" +:+ rest) with (String "}" rest). by rewrite next_cons.
  - match type of Hf with context [GoNet.Join ?x ","] =>
      change (GoNet.Join x ",") with ((json_string k +:+ ":" +:+ render v) +:+ "," +:+
        GoNet.Join ((λ kv, json_string kv.1 +:+ ":" +:+ render kv.2) <$> w :: l) ",") in * end.
    rewrite !string_app_assoc in *.
    match goal with |- parse_members _ (_ +:+ _ +:+ _ +:+ ?t) = _ => destruct (Hmem t eq_refl Hf) as (fuel' & -> & ->) end.
    clear Hmem. rewrite !string_length_app in Hf. cbn [String.length] in Hf.
    match goal with |- next ("," +:+ ?x) _ = _ => change ("," +:+ x) with (String "," x) end.
    rewrite next_cons by done. cbn [Ascii.eqb Bool.eqb].
    rewrite IH; [done|done|done|done|]. rewrite !string_length_app. cbn [String.length]. lia.
Qed.

(** Every value is read back from its text, with its texts repaired, whatever
    delimiter follows, and whatever follows an object or array. *)
Lemma render_reads v : reads v.
Proof.
  induction v as [|b|t|s|l IH|l IH] using json_ind'.
  - intros _ rest fuel _ Hf. by apply (literal_reads "n" "ull"); [..|lia].
  - intros _ rest fuel _ Hf. destruct b; [by apply (literal_reads "t" "rue"); [..|lia]|by apply (literal_reads "f" "alse"); [..|lia]].
  - apply number_reads.
  - apply string_reads.
  - intros Hok rest fuel Hd Hf. cbn [render numbers_ok repair] in *. change ("[" +:+ ?x) with (String "[" x) in *.
    rewrite app_cons, string_app_assoc in *. cbn [String.length] in Hf. destruct fuel as [|fuel]; [lia|].
    cbn [parse_value]. rewrite next_cons by done. cbn [Ascii.eqb Bool.eqb].
    destruct l as [|v l]; [done|]. pose proof (elements_read _ IH ltac:(done) Hok rest fuel ltac:(lia)) as E.
    cbn [forallb] in Hok. apply andb_prop in Hok as [Hv _]. destruct (render_head v Hv) as (c & s & Er & E1 & E2).
    rewrite E. assert (Ht : ∃ s', GoNet.Join (render <$> v :: l) "," +:+ "]" +:+ rest = String c s').
    { cbn [fmap list_fmap GoNet.Join]. rewrite Er. destruct l; by eexists. }
    destruct Ht as [s' ->]. rewrite next_cons by done. by rewrite E2.
  - intros Hok rest fuel Hd Hf. cbn [render numbers_ok repair] in *. change ("{" +:+ ?x) with (String "{" x) in *.
    rewrite app_cons, string_app_assoc in *. cbn [String.length] in Hf. destruct fuel as [|fuel]; [lia|].
    cbn [parse_value]. rewrite next_cons by done. cbn [Ascii.eqb Bool.eqb].
    destruct l as [|[k v] l]; [done|]. pose proof (members_read _ IH ltac:(done) Hok rest fuel ltac:(lia)) as E.
    rewrite E. match goal with |- context [next ?t _] => assert (Ht : ∃ s', t = String quote_char s') by (destruct l; by eexists) end.
    destruct Ht as [s' ->]. by rewrite next_cons.
Qed.

Lemma limit_bytes_id n s : GoStr.len s ≤ n → limit_bytes n s = s.
Proof.
  revert n. induction s as [|c s IH]; intros n Hn; [done|]. cbn [limit_bytes].
  unfold GoStr.len in *. cbn [String.length] in Hn. destruct (Z.leb_spec n 0); [lia|]. rewrite IH by lia. done.
Qed.

Lemma limit_bytes_app n a b : GoStr.len a ≤ n → limit_bytes n (a +:+ b) = a +:+ limit_bytes (n - GoStr.len a) b.
Proof.
  revert n. induction a as [|c a IH]; intros n Hn.
  - change ("" +:+ ?x) with x. f_equal. unfold GoStr.len. cbn. lia.
  - rewrite !app_cons. cbn [limit_bytes]. unfold GoStr.len in *. cbn [String.length] in *.
    destruct (Z.leb_spec n 0); [lia|]. rewrite IH by lia. do 2 f_equal. f_equal. lia.
Qed.

(** A body that starts with the text of a value, within the limit. *)
Lemma readValue_render n v rest : numbers_ok v = true →
  delimited rest = true ∧ GoStr.len (render v +:+ rest) ≤ n ∨ closed_by_itself v = true ∧ GoStr.len (render v) ≤ n →
  readValue n (render v +:+ rest) = inr (repair v).
Proof.
  intros Hok [[Hd Hn]|[Hc Hn]]; unfold readValue.
  - rewrite limit_bytes_id by done. rewrite (render_reads v Hok) by (by rewrite ?Hd || (unfold enough; lia)).
    destruct (Z.ltb_spec n (GoStr.len (render v +:+ rest))); [lia|done].
  - rewrite limit_bytes_app by done. rewrite (render_reads v Hok) by (by rewrite ?Hc, ?orb_true_r || (unfold enough; lia)).
    assert (closed_by_itself (repair v) = true) as -> by (by destruct v). by rewrite andb_false_r.
Qed.

(** ** Decimal numbers *)

Lemma number_run_digits s acc : number_run NInt s = Some NInt → number_run NInt (s +:+ acc) = number_run NInt acc.
Proof.
  enough (Hgen : ∀ st, number_run st s = Some NInt → number_run st (s +:+ acc) = number_run NInt acc) by apply Hgen.
  induction s as [|c s IH]; intros st Hr; [by injection Hr as ->|]. rewrite app_cons. cbn [number_run] in *.
  destruct (number_step st c); [|done]. by apply IH.
Qed.

Lemma number_step_digit d : 0 ≤ d < 10 → number_step NInt (digit d) = Some NInt.
Proof. intros Hd. cbn [number_step]. by rewrite digit_is_digit. Qed.

(** The first digit of a positive number is not zero. *)
Lemma digits_number fuel n acc : 0 < n < 10 ^ Z.of_nat fuel →
  ∃ d s, digits fuel n acc = String (digit d) (s +:+ acc) ∧ 0 < d < 10 ∧ number_run NInt s = Some NInt.
Proof.
  revert n acc. induction fuel as [|fuel IH]; intros n acc Hn; [change (10 ^ Z.of_nat 0) with 1 in Hn; lia|].
  cbn [digits]. destruct (Z.ltb_spec n 10) as [Hl|Hl].
  - exists n, "". rewrite Z.mod_small by lia. split; [done|]. split; [lia|done].
  - rewrite Nat2Z.inj_succ, Z.pow_succ_r in Hn by lia.
    destruct (IH (n / 10) (String (digit (n mod 10)) acc)) as (d & s & E & Hd & Hs).
    { split; [apply Z.div_str_pos; lia|apply Z.div_lt_upper_bound; lia]. }
    exists d, (s +:+ String (digit (n mod 10)) ""). split; [by rewrite E, string_app_assoc|]. split; [done|].
    rewrite number_run_digits by done. cbn [number_run]. rewrite number_step_digit by (apply Z.mod_pos_bound; lia). done.
Qed.

Lemma positive_digit d : 0 < d < 10 →
  number_start (digit d) = Some NInt ∧ number_step NNeg (digit d) = Some NInt.
Proof.
  intros Hd. assert (d = 1 ∨ d = 2 ∨ d = 3 ∨ d = 4 ∨ d = 5 ∨ d = 6 ∨ d = 7 ∨ d = 8 ∨ d = 9) as H by lia.
  by repeat destruct H as [->|H]; [..|subst d].
Qed.

(** The text of an integer is a number of the grammar. *)
Lemma Itoa_number_ok n : - 10 ^ 20 < n < 10 ^ 20 → number_ok (Itoa n) = true.
Proof.
  intros Hn. unfold Itoa. destruct (Z.ltb_spec n 0) as [Hl|Hl].
  - destruct (digits_number 20 (- n) "") as (d & s & -> & Hd & Hs); [change (10 ^ Z.of_nat 20) with (10 ^ 20); lia|].
    rewrite string_app_nil_r. cbn [number_ok number_start Ascii.eqb Bool.eqb mbind option_bind number_run].
    destruct (positive_digit d Hd) as [_ E]. rewrite E. cbn. by rewrite Hs.
  - destruct (Z.eq_dec n 0) as [->|Hz]; [done|].
    destruct (digits_number 20 n "") as (d & s & -> & Hd & Hs); [change (10 ^ Z.of_nat 20) with (10 ^ 20); lia|].
    rewrite string_app_nil_r. cbn [number_ok]. destruct (positive_digit d Hd) as [-> _]. cbn. by rewrite Hs.
Qed.
