(* ===== verification/Server.v ===== *)
(** * internal/server: the Redis-compatible server

    The command handlers, the ownership check with its MOVED redirects, the
    CLUSTER subcommands and the connection loop with its authentication state.

    A handler maps the server and its environment to the new server and the one
    reply it writes; the text of the reply is a [Resp.Value].  The server and
    its gossip handler share one store and one ring: a server without gossip
    owns them ([Standalone]), one with gossip reaches them through the handler
    ([Clustered]).  The environment of a command consists of the answers of
    the transport: for a quorum write the request identifier, which sends are
    accepted and which acknowledgements arrive before the deadline, for
    NODE.LIST the members. *)

From S2P Require Import Prelude GoStrconv GoSort GoNet GoCrypto BTree Store HashRing RingInterface.
From S2P Require Import EventRing Gossip Resp.
Local Open Scope Z_scope.

Section server.
Context `{!BTreeOps item, !Hashring, !Proto, !SliceSort, !MapRange, !UnicodeTables, !XXHash}.

(** ** State *)

Inductive Backend := Standalone (s : Store) (r : Ring) | Clustered (h : Handler).

Record Server := mkServer {
  addr : string;
  srv_localID : string;
  backend : Backend;
  writeConcern : Z;
  authToken : string;
  ln : option string;
}.

Definition store (s : Server) : Store :=
  match backend s with Standalone st _ => st | Clustered h => h_store h end.
Definition ring (s : Server) : Ring :=
  match backend s with Standalone _ r => r | Clustered h => h_ring h end.

Definition set_backend (s : Server) (b : Backend) : Server :=
  mkServer (addr s) (srv_localID s) b (writeConcern s) (authToken s) (ln s).
Definition set_store (s : Server) (st : Store) : Server :=
  set_backend s match backend s with
                | Standalone _ r => Standalone st r
                | Clustered h => Clustered (with_store h st)
                end.
Definition set_ring (s : Server) (r : Ring) : Server :=
  set_backend s match backend s with
                | Standalone st _ => Standalone st r
                | Clustered h => Clustered (with_ring h r)
                end.

(** ** Construction *)

(** [empty_ring] is the value of [hashring.New(nodeID)]. *)
Definition New (empty_ring : string → Ring) (addr nodeID : string) : Server :=
  mkServer addr nodeID
    (Standalone Store.New (ring_AddNode (empty_ring nodeID) nodeID addr 256)) 1 "" None.

(** The handler was built over the server's own store and ring, so from now on
    both are reached through it. *)
Definition SetGossip (s : Server) (g : Handler) : Server := set_backend s (Clustered g).
Definition SetWriteConcern (s : Server) (w : Z) : Server :=
  mkServer (addr s) (srv_localID s) (backend s) w (authToken s) (ln s).
Definition SetAuthToken (s : Server) (token : string) : Server :=
  mkServer (addr s) (srv_localID s) (backend s) (writeConcern s) token (ln s).
Definition SetAdvertiseAddr (s : Server) (a : string) : Server :=
  set_ring s (ring_AddNode (ring s) (srv_localID s) a 256).

Definition nodeID (s : Server) : string :=
  match backend s with Standalone _ _ => srv_localID s | Clustered h => NodeID_ h end.

Definition Addr (s : Server) : string := match ln s with Some a => a | None => addr s end.

(** [ListenAndServe] up to the start of the accept loop; [listen] gives the
    bound address of [net.Listen] or its error. *)
Definition listening (s : Server) (a : string) : Server :=
  mkServer (addr s) (srv_localID s) (backend s) (writeConcern s) (authToken s) (Some a).

Definition ListenAndServe (s : Server) (listen : string → string + string) : string + Server :=
  match listen (addr s) with
  | inl err => inl ("server: listen " +:+ addr s +:+ ": " +:+ err)
  | inr a => inr (listening s a)
  end.

(** ** Replies *)

Definition crlf : string := CRLF.

Definition buildInfo (s : Server) : string :=
  let portStr := match SplitHostPort (Addr s) with Some (_, p) => p | None => "" end in
  let portStr := if String.eqb portStr "" then "6379" else portStr in
  "# Server" +:+ crlf +:+ "redis_version:7.2.0" +:+ crlf +:+ "os:Linux" +:+ crlf +:+
  "tcp_port:" +:+ portStr +:+ crlf +:+ crlf +:+ "# Cluster" +:+ crlf +:+ "cluster_enabled:1" +:+ crlf.

Definition getBulkString (v : Value) : option string :=
  match v with BulkString (Some d) => Some d | _ => None end.

(** The environment of a quorum write. *)
Record Env := mkEnv {
  env_uuid : string;
  env_send_ok : string → bool;
  env_acks : list ackResult;
}.

(** ** Keys *)

(** The redirect for a key of another node. *)
Definition moved (s : Server) (key : string) : option Value :=
  let '(ownerNode, ownerAddr) := ring_GetNode (ring s) key in
  if negb (String.eqb ownerNode "") && negb (String.eqb ownerNode (nodeID s))
  then Some (Error ("MOVED " +:+ ownerAddr)) else None.

Definition handleKeyCommand (s : Server) (cmd : string) (arity : Z) (args : list Value)
    (fn : string → string → Server * Value) : Server * Value :=
  if negb (Z.of_nat (length args) =? arity) then
    (s, Error ("ERR wrong number of arguments for '" +:+ cmd +:+ "' command"))
  else match args with
  | [] => (s, Error "ERR invalid key")
  | a :: args' =>
      match getBulkString a with
      | None => (s, Error "ERR invalid key")
      | Some key =>
          match moved s key with
          | Some e => (s, e)
          | None =>
              if arity =? 2 then
                match args' with
                | v :: _ => match getBulkString v with
                            | None => (s, Error "ERR invalid value")
                            | Some value => fn key value
                            end
                | [] => (s, Error "ERR invalid value")
                end
              else fn key ""
          end
      end
  end.

Definition effective_concern (s : Server) : Z := if writeConcern s <=? 0 then 1 else writeConcern s.

(** The replication of one entry; [None] is success. *)
Definition replicate (s : Server) (env : Env) (key : string) (entry : Entry) : Server * option string :=
  match backend s with
  | Standalone _ _ => (s, None)
  | Clustered h =>
      let '(h, _, err) := ReplicateWithQuorum h (env_uuid env) (env_send_ok env) (env_acks env)
                            key entry (effective_concern s) in
      (set_backend s (Clustered h), QuorumError_text <$> err)
  end.

Definition handleSet (s : Server) (env : string → Env) (args : list Value) : Server * Value :=
  handleKeyCommand s "SET" 2 args (λ key value,
    let '(entry, st) := SetFrom (store s) key value (nodeID s) in
    match replicate (set_store s st) (env key) key entry with
    | (s, Some err) => (s, Error ("ERR " +:+ err))
    | (s, None) => (s, OK)
    end).

Definition handleGet (s : Server) (args : list Value) : Server * Value :=
  handleKeyCommand s "GET" 1 args (λ key _,
    let '(val, _, ok) := Store.Get (store s) key in
    (s, if negb ok then NullBulkString else NewBulkString val)).

(** The loop over the arguments of DEL; [None] is an argument that is not a
    bulk string. *)
Fixpoint del_keys (args : list Value) : option (list string) :=
  match args with
  | [] => Some []
  | a :: args' => key ← getBulkString a; keys ← del_keys args'; Some (key :: keys)
  end.

(** The first redirect among the keys. *)
Fixpoint first_moved (s : Server) (keys : list string) : option Value :=
  match keys with
  | [] => None
  | key :: keys' => match moved s key with Some e => Some e | None => first_moved s keys' end
  end.

(** The loop over the tombstones; it stops at the first error. *)
Fixpoint replicate_all (s : Server) (env : string → Env) (entries : list (string * Entry))
    : Server * option string :=
  match entries with
  | [] => (s, None)
  | (key, entry) :: entries' =>
      match replicate s (env key) key entry with
      | (s, Some err) => (s, Some err)
      | (s, None) => replicate_all s env entries'
      end
  end.

Definition handleDel (s : Server) (env : string → Env) (args : list Value) : Server * Value :=
  match args with
  | [] => (s, Error "ERR wrong number of arguments for 'DEL' command")
  | _ :: _ =>
      match del_keys args with
      | None => (s, Error "ERR invalid key")
      | Some keys =>
          match first_moved s keys with
          | Some e => (s, e)
          | None =>
              let '(n, tombstones, st) := Del (store s) (nodeID s) keys in
              match replicate_all (set_store s st) env (range_map tombstones) with
              | (s, Some err) => (s, Error ("ERR " +:+ err))
              | (s, None) => (s, Integer n)
              end
          end
      end
  end.

(** ** Membership commands *)

Definition handleNodeJoin (s : Server) (args : list Value) : Server * Value :=
  match args with
  | a :: b :: _ =>
      match getBulkString a with
      | None => (s, Error "ERR invalid node-id")
      | Some id =>
          match getBulkString b with
          | None => (s, Error "ERR invalid address")
          | Some address => (set_ring s (ring_AddNode (ring s) id address 256), OK)
          end
      end
  | _ => (s, Error "ERR wrong number of arguments for 'NODE.JOIN' command")
  end.

Definition handleNodeList (s : Server) (members : list MemberInfo) : Value :=
  match backend s with
  | Standalone _ _ => Error "ERR gossip not initialized"
  | Clustered _ =>
      Array ((λ m, Array [NewBulkString (mi_Name m); NewBulkString (mi_RedisAddr m);
                          NewBulkString "healthy"]) <$> members)
  end.

(** ** CLUSTER *)

(** Host and port text of an address, with the fallbacks of the source. *)
Definition split_addr (a : string) : string * string :=
  let '(host, portStr) := match SplitHostPort a with Some hp => hp | None => ("127.0.0.1", a) end in
  (if String.eqb host "" then "127.0.0.1" else host, portStr).

Definition slot_entry (sr : SlotRange) : Value :=
  let '(host, portStr) := split_addr (HashRing.Address (Node sr)) in
  let port := (Atoi portStr).1 in
  let port := if port =? 0 then 6379 else port in
  let id := NodeID (Node sr) in
  let id := if String.eqb id "" then host else id in
  Array [Integer (HashRing.Start sr); Integer (End_ sr);
         Array [NewBulkString host; Integer port; NewBulkString id]].

Definition handleClusterSlots (s : Server) : Value :=
  match ring_GetSlotRanges (ring s) with
  | [] => Error "ERR cluster is empty"
  | ranges => Array (slot_entry <$> ranges)
  end.

(** The text of a slot range. *)
Definition slot_text (sr : SlotRange) : string :=
  if HashRing.Start sr =? End_ sr then Itoa (HashRing.Start sr) else Itoa (HashRing.Start sr) +:+ "-" +:+ Itoa (End_ sr).

Definition nodeSlots (ranges : list SlotRange) : gmap string (list string) :=
  fold_left (λ m sr, let id := NodeID (Node sr) in
               <[id := default [] (m !! id) ++ [slot_text sr]]> m) ranges ∅.

(** The loop over the ranges that writes one line per node. *)
Fixpoint nodes_lines (self : string) (slots : gmap string (list string)) (ranges : list SlotRange)
    (seen : gset string) (buf : string) : string :=
  match ranges with
  | [] => buf
  | sr :: ranges' =>
      let id := NodeID (Node sr) in
      if bool_decide (id ∈ seen) then nodes_lines self slots ranges' seen buf
      else
        let '(host, portStr) := split_addr (HashRing.Address (Node sr)) in
        let flags := if negb (String.eqb id self) then "master" else "myself,master" in
        let line := id +:+ " " +:+ host +:+ ":" +:+ portStr +:+ " " +:+ flags +:+
                    " - 0 0 0 connected " +:+ Join (default [] (slots !! id)) " " +:+ String LF "" in
        nodes_lines self slots ranges' ({[id]} ∪ seen) (buf +:+ line)
  end.

Definition handleClusterNodes (s : Server) : Value :=
  match ring_GetSlotRanges (ring s) with
  | [] => NullBulkString
  | ranges => NewBulkString (nodes_lines (nodeID s) (nodeSlots ranges) ranges ∅ "")
  end.

Definition handleClusterInfo (s : Server) : Value :=
  let ids : gset string := list_to_set ((λ sr, NodeID (Node sr)) <$> ring_GetSlotRanges (ring s)) in
  let n := Itoa (Z.of_nat (size ids)) in
  NewBulkString ("cluster_state:ok" +:+ crlf +:+ "cluster_slots_assigned:16384" +:+ crlf +:+
    "cluster_slots_ok:16384" +:+ crlf +:+ "cluster_slots_pfail:0" +:+ crlf +:+
    "cluster_slots_fail:0" +:+ crlf +:+ "cluster_known_nodes:" +:+ n +:+ crlf +:+
    "cluster_size:" +:+ n +:+ crlf +:+ "cluster_current_epoch:1" +:+ crlf +:+
    "cluster_my_epoch:0" +:+ crlf).

Definition handleCluster (s : Server) (args : list Value) : Value :=
  match args with
  | [] => Error "ERR wrong number of arguments for 'CLUSTER' command"
  | a :: args' =>
      match getBulkString a with
      | None => Error "ERR invalid CLUSTER subcommand"
      | Some sub =>
          let up := ToUpper sub in
          if String.eqb up "SLOTS" then handleClusterSlots s
          else if String.eqb up "NODES" then handleClusterNodes s
          else if String.eqb up "INFO" then handleClusterInfo s
          else if String.eqb up "KEYSLOT" then
            match args' with
            | [] => Error "ERR wrong number of arguments for 'CLUSTER KEYSLOT' command"
            | b :: _ => match getBulkString b with
                        | None => Error "ERR invalid key"
                        | Some key => Integer (HashKey key mod 16384)
                        end
            end
          else Error ("ERR unknown CLUSTER subcommand '" +:+ sub +:+ "'")
      end
  end.

(** ** Dispatch *)

Definition dispatch (s : Server) (env : string → Env) (members : list MemberInfo)
    (cmd : string) (args : list Value) : Server * Value :=
  if String.eqb cmd "PING" then (s, PONG)
  else if String.eqb cmd "INFO" then (s, NewBulkString (buildInfo s))
  else if String.eqb cmd "SET" then handleSet s env args
  else if String.eqb cmd "GET" then handleGet s args
  else if String.eqb cmd "DEL" then handleDel s env args
  else if String.eqb cmd "NODE.JOIN" then handleNodeJoin s args
  else if String.eqb cmd "NODE.LIST" then (s, handleNodeList s members)
  else if String.eqb cmd "CLUSTER" then (s, handleCluster s args)
  else if String.eqb cmd "NODE.PING" then
    (s, Error "ERR NODE.PING not supported — memberlist handles health checks")
  else if String.eqb cmd "NODE.LEAVE" then
    (s, Error "ERR NODE.LEAVE not supported — use shutdown to leave the cluster")
  else (s, Error ("ERR unknown command '" +:+ cmd +:+ "'")).

(** ** Connections *)

(** The answers of the environment while one command is handled. *)
Record CmdEnv := mkCmdEnv { ce_env : string → Env; ce_members : list MemberInfo }.

(** [subtle.ConstantTimeCompare] of the digests. *)
Definition auth_matches (s : Server) (token : option string) : bool :=
  match token with
  | Some t => String.eqb (Sum256 t) (Sum256 (authToken s))
  | None => false
  end.

(** The body of the connection loop for one value; the flag is
    [authenticated]. *)
Definition handleValue (s : Server) (authenticated : bool) (ce : CmdEnv) (v : Value)
    : Server * bool * Value :=
  match v with
  | Array [] => (s, authenticated, Error "ERR empty command")
  | Array (BulkString (Some name) :: args) =>
      let command := ToUpper name in
      if String.eqb command "AUTH" then
        if String.eqb (authToken s) "" then
          (s, authenticated, Error "ERR AUTH called without any password configured")
        else match args with
        | [a] =>
            if negb (auth_matches s (getBulkString a)) then
              (s, authenticated, Error "WRONGPASS invalid username-password pair or user is disabled.")
            else (s, true, OK)
        | _ => (s, authenticated, Error "ERR wrong number of arguments for 'AUTH' command")
        end
      else if negb authenticated then (s, authenticated, Error "NOAUTH Authentication required.")
      else let '(s, reply) := dispatch s (ce_env ce) (ce_members ce) command args in
           (s, authenticated, reply)
  | Array (_ :: _) =>
      (s, authenticated, Error "ERR protocol error: command name must be a bulk string")
  | _ => (s, authenticated, Error "ERR protocol error: expected array")
  end.

(** The loop of [handleConn] over the bytes of a connection: it ends at the
    first read error.  [envs] gives the environment of the n-th command.  The
    result is the server, the flag, the replies in order and whether the fuel
    sufficed. *)
Fixpoint conn_loop (fuel : nat) (end_ : IoError) (envs : nat → CmdEnv) (n : nat)
    (s : Server) (authenticated : bool) (input : string) : Server * bool * list Value * bool :=
  match fuel with
  | O => (s, authenticated, [], false)
  | S fuel' =>
      match ReadValue end_ input with
      | inl _ => (s, authenticated, [], true)
      | inr (v, rest) =>
          let '(s, authenticated, reply) := handleValue s authenticated (envs n) v in
          let '(s, authenticated, replies, ok) := conn_loop fuel' end_ envs (S n) s authenticated rest in
          (s, authenticated, reply :: replies, ok)
      end
  end.

(** Every value takes at least one byte. *)
Definition handleConn (end_ : IoError) (envs : nat → CmdEnv) (s : Server) (input : string)
    : Server * bool * list Value * bool :=
  conn_loop (S (String.length input)) end_ envs 0 s (String.eqb (authToken s) "") input.
End server.
Arguments Server {_ _}.
