(* ===== verification/ServerProps.v ===== *)
(** * The correctness of the server

    What the commands do to the store and the ring, the ownership check, and
    the authentication and termination of connections. *)

From S2P Require Import Prelude GoStrconv GoSort GoNet GoCrypto BTree Store StoreProps HashRing HashRingProps.
From S2P Require Import RingInterface EventRing Gossip Instances GossipProps Resp RespProps Server.
Local Open Scope Z_scope.

Section facts.
Context `{!BTreeOps item, !BTreeLaws less, !Hashring, !HashringLaws, !Proto, !ProtoLaws,
          !SliceSort, !MapRange, !MapRangeLaws, !UnicodeTables, !XXHash}.
Implicit Types s : Server.

(** ** The invariant *)

Record server_inv s : Prop := {
  si_store : store_inv (store s);
  si_clock : clock_inv (store s);
  si_versions : versions_ok (Snapshot (store s));
  si_ring : ring_ok (ring s);
  si_gossip h : backend s = Clustered h → ∃ es, logs (events h) eventRingSize es;
}.

Lemma server_inv_handler s h : server_inv s → backend s = Clustered h → handler_inv h.
Proof.
  intros [Ha Hb Hc Hd He] Hbk. unfold store, ring in *. rewrite Hbk in *. split; try done. by apply He.
Qed.

(** Everything but the store. *)
Definition same_config s s' : Prop :=
  ring s' = ring s ∧ nodeID s' = nodeID s ∧ writeConcern s' = writeConcern s ∧
  authToken s' = authToken s ∧ addr s' = addr s ∧ ln s' = ln s ∧
  (∀ h', backend s' = Clustered h' → ∃ h, backend s = Clustered h ∧ events h' = events h).

#[export] Instance same_config_preorder : PreOrder same_config.
Proof.
  split.
  - intros s. split_and!; try done. eauto.
  - intros x y z (A1 & A2 & A3 & A4 & A5 & A6 & A7) (B1 & B2 & B3 & B4 & B5 & B6 & B7).
    split_and!; try congruence. intros h'' E. destruct (B7 _ E) as (h' & E' & Hev').
    destruct (A7 _ E') as (h & E0 & Hev). exists h. split; [done|congruence].
Qed.

Lemma set_store_config s st : same_config s (set_store s st) ∧ store (set_store s st) = st.
Proof.
  unfold set_store, set_backend, same_config, store, ring, nodeID. destruct s as [a l b w t n]; cbn.
  destruct b as [st0 r|h]; cbn; split_and!; try done.
  intros h' [= <-]. by exists h.
Qed.

Lemma same_config_moved s s' key : same_config s s' → moved s' key = moved s key.
Proof. intros (Hr & Hn & _). unfold moved. by rewrite Hr, Hn. Qed.

Lemma same_config_inv s s' : server_inv s → same_config s s' →
  store_inv (store s') → clock_inv (store s') → versions_ok (Snapshot (store s')) → server_inv s'.
Proof.
  intros [_ _ _ Hr He] (Er & _ & _ & _ & _ & _ & Eb) Ea Ec Ed. split; try done; [by rewrite Er|].
  intros h' Hb. destruct (Eb h' Hb) as (h & Hh & ->). by apply He.
Qed.

(** ** Replication of an entry that is stored already *)

Lemma ReplicateWithQuorum_frame (h : Handler) uuid so acks key entry w :
  let h' := (ReplicateWithQuorum h uuid so acks key entry w).1.1 in
  h_store h' = (SetWithVersion (h_store h) key entry).2 ∧ h_ring h' = h_ring h ∧
  localID h' = localID h ∧ events h' = events h.
Proof. unfold ReplicateWithQuorum, replicate_begin. repeat (case_match; simplify_eq/=); done. Qed.

Lemma replicate_frame s env key entry : btree_ok (tree (store s)) →
  covers (Snapshot (store s)) key entry →
  let s' := (replicate s env key entry).1 in same_config s s' ∧ store s' = store s.
Proof.
  intros Ht Hc. unfold replicate. destruct (backend s) as [st r|h] eqn:Hb; [done|].
  pose proof (ReplicateWithQuorum_frame h (env_uuid env) (env_send_ok env) (env_acks env) key entry
    (effective_concern s)) as Hf.
  destruct (ReplicateWithQuorum h _ _ _ key entry _) as [[h' ps] err]. cbn [fst] in *.
  destruct Hf as (Hs & Hr & Hi & He). unfold same_config, store, ring, nodeID in *.
  cbn [backend set_backend writeConcern authToken addr ln srv_localID]. rewrite Hb in *.
  rewrite SetWithVersion_stale in Hs by done. split; [|done]. split_and!; try done.
  intros h'' [= <-]. by exists h.
Qed.

Lemma replicate_all_frame s env es : btree_ok (tree (store s)) →
  (∀ k e, (k, e) ∈ es → covers (Snapshot (store s)) k e) →
  let s' := (replicate_all s env es).1 in same_config s s' ∧ store s' = store s.
Proof.
  revert s. induction es as [|[k e] es IH]; intros s Ht Hc; cbn [replicate_all]; [done|].
  destruct (replicate_frame s (env k) k e Ht) as [Hf Hst]; [by apply Hc, elem_of_cons; left|].
  destruct (replicate s (env k) k e) as [s1 [err|]]; cbn [fst] in *; [done|].
  destruct (IH s1) as [Hf' Hst']; [by rewrite Hst|intros k' e' Hin; rewrite Hst; apply Hc, elem_of_cons; by right|].
  split; [by etransitivity|congruence].
Qed.

(** ** The commands on an owned key *)

Lemma handleSet_owned s env key value : server_inv s → moved s key = None →
  clock (store s) < maxInt64 →
  let s' := (handleSet s env [NewBulkString key; NewBulkString value]).1 in
  same_config s s' ∧ store s' = (SetFrom (store s) key value (nodeID s)).2 ∧
  (handleSet s env [NewBulkString key; NewBulkString value]).2 =
    match (replicate (set_store s (SetFrom (store s) key value (nodeID s)).2) (env key) key
             (SetFrom (store s) key value (nodeID s)).1).2 with
    | Some err => Error ("ERR " +:+ err)
    | None => OK
    end.
Proof.
  intros Hs Hm Hc. unfold handleSet, handleKeyCommand. cbn [length Z.of_nat NewBulkString getBulkString].
  change (Z.of_nat 2 =? 2) with true. cbn [negb]. rewrite Hm.
  change (2 =? 2) with true. cbv iota.
  pose proof (SetFrom_Snapshot (store s) key value (nodeID s) (si_store _ Hs) (si_clock _ Hs) Hc) as Hsn.
  pose proof (SetFrom_entry (store s) key value (nodeID s)) as He.
  pose proof (SetFrom_inv (store s) key value (nodeID s) (si_store _ Hs)) as Hi.
  destruct (SetFrom (store s) key value (nodeID s)) as [entry st]. cbn [fst snd] in *.
  destruct (set_store_config s st) as [Hcfg Hst].
  destruct (replicate_frame (set_store s st) (env key) key entry) as [Hf Hst'].
  { rewrite Hst. apply Hi. }
  { rewrite Hst, Hsn. exists entry. rewrite lookup_insert_eq.
    rewrite He, int64_succ by (done || by destruct (si_store _ Hs)). split; [done|apply newer_irrefl]. }
  destruct (replicate (set_store s st) (env key) key entry) as [s1 [err|]]; cbn [fst snd] in *;
    (split; [by etransitivity|split; [congruence|done]]).
Qed.

Lemma handleGet_owned s key : btree_ok (tree (store s)) → moved s key = None →
  handleGet s [NewBulkString key] =
  (s, match Snapshot (store s) !! key with
      | Some e => if Deleted e then NullBulkString else NewBulkString (Store.Value e)
      | None => NullBulkString
      end).
Proof.
  intros Ht Hm. unfold handleGet, handleKeyCommand. cbn [length NewBulkString getBulkString].
  change (Z.of_nat 1 =? 1) with true. cbn [negb]. rewrite Hm. change (1 =? 2) with false. cbv iota.
  rewrite Get_lookup by done. destruct (Snapshot (store s) !! key) as [e|]; [|done].
  by destruct (Deleted e).
Qed.

(** DEL on owned keys: the store is the one [Del] leaves, and the reply is the
    count or the error of the first tombstone that could not be replicated. *)
Lemma handleDel_owned s env args keys : server_inv s → del_keys args = Some keys → args ≠ [] →
  first_moved s keys = None →
  let s' := (handleDel s env args).1 in
  same_config s s' ∧ store s' = (Del (store s) (nodeID s) keys).2 ∧
  ((handleDel s env args).2 = Integer (Del (store s) (nodeID s) keys).1.1 ∨
   ∃ err, (handleDel s env args).2 = Error ("ERR " +:+ err)).
Proof.
  intros Hs Hk Hne Hm. unfold handleDel. destruct args as [|a args]; [done|]. rewrite Hk, Hm.
  pose proof (Del_del_inv (store s) (nodeID s) keys (si_store _ Hs)) as Hd.
  destruct (Del (store s) (nodeID s) keys) as [[n tombs] st]. cbn [fst snd].
  destruct (set_store_config s st) as [Hcfg Hst].
  destruct (replicate_all_frame (set_store s st) env (range_map tombs)) as [Hf Hst'].
  { rewrite Hst. apply (del_store _ _ _ _ _ _ Hd). }
  { intros k e Hin. rewrite range_map_perm in Hin. apply elem_of_map_to_list in Hin.
    rewrite Hst, (del_snapshot _ _ _ _ _ _ Hd). exists e.
    split; [by apply lookup_union_Some_l|apply newer_irrefl]. }
  destruct (replicate_all (set_store s st) env (range_map tombs)) as [s1 [err|]]; cbn [fst snd] in *;
    (split; [by etransitivity|split; [congruence|eauto]]).
Qed.

Lemma del_keys_length args keys : del_keys args = Some keys → length keys = length args.
Proof.
  revert keys. induction args as [|a args IH]; intros keys; simpl; [by intros [= <-]|].
  destruct (getBulkString a); [|done]. simpl. destruct (del_keys args) as [ks|]; [|done]. simpl.
  intros [= <-]. simpl. by rewrite (IH ks).
Qed.

(** ** Every command *)

Lemma handleKeyCommand_cases s cmd arity args fn : (arity = 1 ∨ arity = 2) →
  (handleKeyCommand s cmd arity args fn).1 = s ∨
  ∃ key value, handleKeyCommand s cmd arity args fn = fn key value ∧ moved s key = None ∧
    args = (if arity =? 2 then [NewBulkString key; NewBulkString value] else [NewBulkString key]) ∧
    Z.of_nat (length args) = arity.
Proof.
  intros Ha. unfold handleKeyCommand.
  destruct (Z.eqb_spec (Z.of_nat (length args)) arity) as [Hl|Hl]; cbn [negb]; [|by left].
  destruct args as [|a args]; [by left|]. destruct (getBulkString a) as [key|] eqn:Ek; [|by left].
  destruct (moved s key) as [e|] eqn:Em; [by left|].
  assert (Hbulk : ∀ v d, getBulkString v = Some d → v = NewBulkString d).
  { intros [ | | |[]| | ] d; cbn; try done. by intros [= ->]. }
  destruct (Z.eqb_spec arity 2) as [->|Hne2].
  - destruct args as [|v [|]]; cbn [length] in Hl; try lia. destruct (getBulkString v) as [value|] eqn:Ev; [|by left].
    right. exists key, value. split_and!; try done. by rewrite (Hbulk _ _ Ek), (Hbulk _ _ Ev).
  - destruct args; cbn [length] in Hl; [|lia]. right. exists key, "". split_and!; try done. by rewrite (Hbulk _ _ Ek).
Qed.

(** A command leaves the server as it is, changes the ring, or makes one call
    of the store. *)
Lemma dispatch_effect s env members cmd args : server_inv s →
  clock (store s) + Z.of_nat (length args) ≤ maxInt64 →
  let s' := (dispatch s env members cmd args).1 in
  s' = s ∨ (∃ id a, s' = set_ring s (ring_AddNode (ring s) id a 256)) ∨
  ∃ op, same_config s s' ∧ store s' = exec_op (store s) op ∧ op_wf op = true ∧
        op_ticks op ≤ Z.of_nat (length args).
Proof.
  intros Hs Hc. unfold dispatch.
  repeat match goal with |- context [if String.eqb cmd ?x then _ else _] => destruct (String.eqb cmd x) end;
    cbn [fst]; try (by left).
  - destruct (handleKeyCommand_cases s "SET" 2 args (λ key value,
      let '(entry, st) := SetFrom (store s) key value (nodeID s) in
      match replicate (set_store s st) (env key) key entry with
      | (s, Some err) => (s, Error ("ERR " +:+ err))
      | (s, None) => (s, OK)
      end)) as [E|(key & value & _ & Hm & -> & Hl)]; [by right|by left|].
    change (2 =? 2) with true in *. cbv iota in *. cbn [length] in Hc. right. right.
    destruct (handleSet_owned s env key value Hs Hm ltac:(lia)) as (Hf & Hst & _).
    exists (OpSetFrom key value (nodeID s)). split_and!; try done; cbn; lia.
  - left. unfold handleGet.
    match goal with |- (handleKeyCommand _ _ _ _ ?f).1 = _ =>
      destruct (handleKeyCommand_cases s "GET" 1 args f) as [E|(key & value & E & _)] end; [by left|done|].
    rewrite E. by destruct (Store.Get (store s) key) as [[v n] ok].
  - unfold handleDel. destruct args as [|a args']; [by left|].
    destruct (del_keys (a :: args')) as [keys|] eqn:Hk; [|by left].
    destruct (first_moved s keys) as [e|] eqn:Hm; [by left|]. right. right.
    destruct (handleDel_owned s env (a :: args') keys Hs Hk ltac:(done) Hm) as (Hf & Hst & _).
    unfold handleDel in Hf, Hst. rewrite Hk, Hm in Hf, Hst.
    exists (OpDel (nodeID s) keys). split_and!; try done. cbn [op_ticks].
    rewrite (del_keys_length _ _ Hk). lia.
  - unfold handleNodeJoin. destruct args as [|a [|b args]]; [by left|by left|].
    destruct (getBulkString a) as [id|]; [|by left]. destruct (getBulkString b) as [ad|]; [|by left].
    right. left. by exists id, ad.
Qed.

(** ** Connections *)

(** The values a connection's bytes hold, up to the first error. *)
Fixpoint conn_values (fuel : nat) (end_ : IoError) (input : string) : list Value :=
  match fuel with
  | O => []
  | S fuel' => match ReadValue end_ input with
               | inl _ => []
               | inr (v, rest) => v :: conn_values fuel' end_ rest
               end
  end.

(** An AUTH command with the right token. *)
Definition auth_attempt s (v : Value) : bool :=
  match v with
  | Array [BulkString (Some name); a] =>
      String.eqb (ToUpper name) "AUTH" && negb (String.eqb (authToken s) "") && auth_matches s (getBulkString a)
  | _ => false
  end.

Definition is_error (v : Value) : bool := match v with Error _ => true | _ => false end.

(** What an unauthenticated connection can do with one value. *)
Lemma handleValue_unauth s ce v :
  (auth_attempt s v = true ∧ handleValue s false ce v = (s, true, OK)) ∨
  (auth_attempt s v = false ∧ ∃ e, handleValue s false ce v = (s, false, Error e)).
Proof.
  unfold handleValue, auth_attempt.
  destruct v as [t|t|i|d|vs|]; try (right; split; [done|by eexists]).
  destruct vs as [|a args]; [right; split; [done|by eexists]|].
  destruct a as [t|t|i|[name|]|vs'|]; try (right; split; [done|by eexists]).
  destruct (String.eqb (ToUpper name) "AUTH"); cbn [negb andb].
  2: { right. split; [by destruct args as [|? []]|by eexists]. }
  destruct (String.eqb (authToken s) ""); cbn [negb andb].
  { right. split; [by destruct args as [|? []]|by eexists]. }
  destruct args as [|a [|b args]]; try (right; split; [done|by eexists]).
  destruct (auth_matches s (getBulkString a)); cbn [negb]; [left|right; split; [done|by eexists]].
  done.
Qed.

Lemma conn_loop_unauth fuel end_ envs n s input :
  Forall (λ v, auth_attempt s v = false) (conn_values fuel end_ input) →
  ∃ replies ok, conn_loop fuel end_ envs n s false input = (s, false, replies, ok) ∧
    forallb is_error replies = true.
Proof.
  revert n input. induction fuel as [|fuel IH]; intros n input Hf; cbn [conn_loop conn_values] in *.
  { by eexists _, _. }
  destruct (ReadValue end_ input) as [e|[v rest]]; [by eexists _, _|].
  apply Forall_cons in Hf as [Hv Hf].
  destruct (handleValue_unauth s (envs n) v) as [[Ht _]|[_ [e ->]]]; [congruence|].
  destruct (IH (S n) rest Hf) as (rs & ok & -> & Hr). exists (Error e :: rs), ok. done.
Qed.

Lemma conn_loop_total fuel end_ envs n s auth input : (String.length input < fuel)%nat →
  ∃ s' auth' replies, conn_loop fuel end_ envs n s auth input = (s', auth', replies, true) ∧
    length replies = length (conn_values fuel end_ input).
Proof.
  revert n s auth input. induction fuel as [|fuel IH]; intros n s auth input Hl; [lia|].
  cbn [conn_loop conn_values]. destruct (ReadValue end_ input) as [e|[v rest]] eqn:Er.
  { by eexists _, _, _. }
  apply readValue_within in Er as (_ & _ & Hlen). unfold GoStr.len in Hlen.
  destruct (handleValue s auth (envs n) v) as [[s1 auth1] reply].
  destruct (IH (S n) s1 auth1 rest ltac:(lia)) as (s2 & auth2 & rs & -> & Hr).
  exists s2, auth2, (reply :: rs). split; [done|]. simpl. by rewrite Hr.
Qed.
End facts.

(** ** Properties *)

Section properties.
Context `{!BTreeOps item, !BTreeLaws less, !Hashring, !HashringLaws, !Proto, !ProtoLaws,
          !SliceSort, !MapRange, !MapRangeLaws, !UnicodeTables, !XXHash}.
Implicit Types s : Server.

(** C10: A client reads what it has written: on the node that owns the key,
    after SET the key's value is read back by GET on this node whatever became
    of its replication, and no other key's GET changes; the reply is OK or the
    replication's error, and OK without a doubt when no acknowledgement is
    asked for. *)
Theorem SET_then_GET s env key value : server_inv s → moved s key = None →
  clock (store s) < maxInt64 →
  let '(s', reply) := handleSet s env [NewBulkString key; NewBulkString value] in
  handleGet s' [NewBulkString key] = (s', NewBulkString value) ∧
  (∀ k, k ≠ key → (handleGet s' [NewBulkString k]).2 = (handleGet s [NewBulkString k]).2) ∧
  (reply = OK ∨ ∃ err, reply = Error ("ERR " +:+ err)) ∧
  (writeConcern s ≤ 1 ∨ (∃ st r, backend s = Standalone st r) → reply = OK) ∧ server_inv s'.
Proof.
  intros Hs Hm Hc. destruct (handleSet_owned s env key value Hs Hm Hc) as (Hf & Hst & Hrep).
  destruct (handleSet s env _) as [s' reply]. cbn [fst snd] in *.
  pose proof (SetFrom_Snapshot (store s) key value (nodeID s) (si_store _ Hs) (si_clock _ Hs) Hc) as Hsn.
  pose proof (SetFrom_inv (store s) key value (nodeID s) (si_store _ Hs)) as Hi.
  pose proof (SetFrom_clock (store s) key value (nodeID s) (si_store _ Hs) (si_clock _ Hs) Hc) as [Hcl _].
  assert (Hs' : server_inv s').
  { apply (same_config_inv s); [done|done|by rewrite Hst|by rewrite Hst|]. rewrite Hst.
    apply (exec_op_versions (store s) (OpSetFrom key value (nodeID s))); try apply Hs; [done|cbn; lia]. }
  split; [|split; [|split; [|split; [|done]]]].
  - rewrite handleGet_owned; [|apply Hs'|by rewrite (same_config_moved s)].
    by rewrite Hst, Hsn, lookup_insert_eq.
  - intros k Hk. destruct (moved s k) as [e|] eqn:Em.
    + unfold handleGet, handleKeyCommand. cbn. by rewrite (same_config_moved s s' k Hf), Em.
    + rewrite !handleGet_owned; [|apply Hs|done|apply Hs'|by rewrite (same_config_moved s)].
      by rewrite Hst, Hsn, lookup_insert_ne.
  - rewrite Hrep. destruct (replicate _ _ _ _) as [s1 [err|]]; cbn [snd]; [right; by eexists|by left].
  - intros Hw. rewrite Hrep. unfold replicate, set_store.
    destruct (backend s) as [st r|h] eqn:Hb; [done|]. cbn [backend set_backend].
    destruct Hw as [Hw|(st & r & ?)]; [|done].
    assert (He : effective_concern (set_backend s (Clustered (with_store h (SetFrom (store s) key value (nodeID s)).2))) = effective_concern s)
      by done.
    unfold ReplicateWithQuorum, replicate_begin.
    assert (effective_concern s ≤ 1) by (unfold effective_concern; destruct (Z.leb_spec (writeConcern s) 0); lia).
    rewrite He. by destruct (Z.leb_spec (effective_concern s) 1); [|lia].
Qed.

(** C27: A key of another node is redirected and nothing is changed: SET and
    GET of the key, and DEL of any list of keys that contains a foreign one,
    reply with a MOVED error that names the owner's address and leave the
    server as it was. *)
Theorem foreign_key_redirected s env key value args keys owner a : ring_GetNode (ring s) key = (owner, a) →
  owner ≠ "" → owner ≠ nodeID s → del_keys args = Some keys → key ∈ keys →
  handleSet s env [NewBulkString key; NewBulkString value] = (s, Error ("MOVED " +:+ a)) ∧
  handleGet s [NewBulkString key] = (s, Error ("MOVED " +:+ a)) ∧
  ∃ k o a', k ∈ keys ∧ ring_GetNode (ring s) k = (o, a') ∧ o ≠ nodeID s ∧
    handleDel s env args = (s, Error ("MOVED " +:+ a')).
Proof.
  intros Hg Ho Hn Hk Hin.
  assert (Hm : ∀ k o a', ring_GetNode (ring s) k = (o, a') → o ≠ "" → o ≠ nodeID s →
    moved s k = Some (Error ("MOVED " +:+ a'))).
  { intros k o a' Hg' Ho' Hn'. unfold moved. rewrite Hg'. apply String.eqb_neq in Ho', Hn'. by rewrite Ho', Hn'. }
  pose proof (Hm key owner a Hg Ho Hn) as Hmk. split; [|split].
  - unfold handleSet, handleKeyCommand. cbn [length NewBulkString getBulkString].
    change (Z.of_nat 2 =? 2) with true. cbn [negb]. by rewrite Hmk.
  - unfold handleGet, handleKeyCommand. cbn [length NewBulkString getBulkString].
    change (Z.of_nat 1 =? 1) with true. cbn [negb]. by rewrite Hmk.
  - assert (Hfirst : ∃ k o a', k ∈ keys ∧ ring_GetNode (ring s) k = (o, a') ∧ o ≠ nodeID s ∧
      first_moved s keys = Some (Error ("MOVED " +:+ a'))).
    { clear Hk. induction keys as [|k keys IH]; [by apply elem_of_nil in Hin|]. cbn [first_moved].
      destruct (moved s k) as [e|] eqn:Em.
      - unfold moved in Em. destruct (ring_GetNode (ring s) k) as [o a'] eqn:Eg.
        destruct (negb (String.eqb o "") && negb (String.eqb o (nodeID s))) eqn:Eb; [|done]. injection Em as <-.
        bool_to_prop. exists k, o, a'. split; [apply elem_of_cons; by left|done].
      - apply elem_of_cons in Hin as [<-|Hin]; [congruence|].
        destruct (IH Hin) as (k' & o & a' & Hk' & ?). exists k', o, a'. split; [apply elem_of_cons; by right|done]. }
    destruct Hfirst as (k & o & a' & Hin' & Hg' & Hn' & Hf). exists k, o, a'. split_and!; try done.
    unfold handleDel. destruct args as [|x args]; [injection Hk as <-; by apply elem_of_nil in Hin|].
    by rewrite Hk, Hf.
Qed.

(** C28: DEL on owned keys removes exactly them: the reply is the number of
    distinct keys that were readable, or an error when a tombstone could not be
    replicated; either way afterwards every given key reads as null and every
    other key reads as before. *)
Theorem DEL_removes s env args keys : server_inv s → del_keys args = Some keys → args ≠ [] →
  first_moved s keys = None → clock (store s) + Z.of_nat (length keys) ≤ maxInt64 →
  let '(s', reply) := handleDel s env args in
  (reply = Integer (Z.of_nat (size (filter (λ k, (Store.Get (store s) k).2 = true) (list_to_set keys : gset string))))
   ∨ ∃ err, reply = Error ("ERR " +:+ err)) ∧
  (∀ k, moved s k = None → (handleGet s' [NewBulkString k]).2 =
     if bool_decide (k ∈ keys) then NullBulkString else (handleGet s [NewBulkString k]).2) ∧ server_inv s'.
Proof.
  intros Hs Hk Hne Hm Hc. destruct (handleDel_owned s env args keys Hs Hk Hne Hm) as (Hf & Hst & Hrep).
  destruct (handleDel s env args) as [s' reply]. cbn [fst snd] in *.
  pose proof (Del_del_inv (store s) (nodeID s) keys (si_store _ Hs)) as Hd.
  assert (Hs' : server_inv s').
  { apply (same_config_inv s); [done|done|..]; rewrite Hst;
      change (Del (store s) (nodeID s) keys).2 with (exec_op (store s) (OpDel (nodeID s) keys));
      [apply exec_op_inv|apply exec_op_clock|apply exec_op_versions]; try apply Hs; done. }
  destruct (Del (store s) (nodeID s) keys) as [[n tombs] st]. cbn [fst snd] in *.
  split; [rewrite <-(del_count _ _ _ _ _ _ Hd); exact Hrep|]. split; [|done].
  intros k Hmk. rewrite (handleGet_owned s'); [|apply Hs'|by rewrite (same_config_moved s)]. cbn [snd].
  rewrite Hst, (del_snapshot _ _ _ _ _ _ Hd). case_bool_decide as Hin.
  - destruct (tombs !! k) as [e|] eqn:Ht.
    + rewrite (lookup_union_Some_l _ _ _ _ Ht). destruct (del_tombs _ _ _ _ _ _ Hd k e Ht) as (-> & _). done.
    + apply not_elem_of_dom in Ht. rewrite (del_dom _ _ _ _ _ _ Hd) in Ht. by rewrite elem_of_list_to_set in Ht.
  - rewrite lookup_union_r.
    + rewrite handleGet_owned by (done || apply Hs). done.
    + apply not_elem_of_dom. rewrite (del_dom _ _ _ _ _ _ Hd). by rewrite elem_of_list_to_set.
Qed.

(** C21: No command loses a write or breaks the server: whatever the command
    and its arguments, as long as the clock has room the invariant is kept and
    every stored entry is still there or superseded by a newer write. *)
Theorem dispatch_safe s env members cmd args : server_inv s →
  clock (store s) + Z.of_nat (length args) ≤ maxInt64 →
  let s' := (dispatch s env members cmd args).1 in
  server_inv s' ∧ authToken s' = authToken s ∧ nodeID s' = nodeID s ∧
  ∀ k e, covers (Snapshot (store s)) k e → covers (Snapshot (store s')) k e.
Proof.
  intros Hs Hc. cbv zeta.
  destruct (dispatch_effect s env members cmd args Hs Hc) as [->|[(id & a & ->)|(op & Hf & Hst & Hwf & Hticks)]].
  - done.
  - assert (Hsame : store (set_ring s (ring_AddNode (ring s) id a 256)) = store s ∧
      ring (set_ring s (ring_AddNode (ring s) id a 256)) = ring_AddNode (ring s) id a 256 ∧
      nodeID (set_ring s (ring_AddNode (ring s) id a 256)) = nodeID s ∧
      ∀ h', backend (set_ring s (ring_AddNode (ring s) id a 256)) = Clustered h' →
        ∃ h, backend s = Clustered h ∧ events h' = events h).
    { unfold set_ring, set_backend, store, ring, nodeID. cbn. destruct (backend s) as [st r|h]; cbn; split_and!; try done.
      intros h' [= <-]. by exists h. }
    destruct Hsame as (E1 & E2 & E3 & E4). destruct Hs as [Ea Eb Ec Ed Ee]. rewrite E3. split; [|split; [done|split; [done|by rewrite E1]]].
    split; rewrite ?E1, ?E2; try done; [by apply ring_ok_AddNode|].
    intros h' Hb. destruct (E4 h' Hb) as (h & Hh & ->). by apply Ee.
  - split; [|split; [apply Hf|split; [apply Hf|]]].
    + apply (same_config_inv s); [done|done|..]; rewrite Hst;
        [apply exec_op_inv|apply exec_op_clock|apply exec_op_versions]; try apply Hs; (done || lia).
    + intros k e Hcov. rewrite Hst. apply exec_op_keeps; try apply Hs; (done || lia).
Qed.

(** C29: Without the token a connection is powerless: whatever bytes it sends,
    if none of its commands is an AUTH whose token has the configured token's
    digest, the server is left as it was, the connection stays
    unauthenticated, and it receives errors only. *)
Theorem unauthenticated_powerless s end_ envs input : authToken s ≠ "" →
  Forall (λ v, auth_attempt s v = false) (conn_values (S (String.length input)) end_ input) →
  ∃ replies, handleConn end_ envs s input = (s, false, replies, true) ∧
    forallb is_error replies = true ∧
    length replies = length (conn_values (S (String.length input)) end_ input).
Proof.
  intros Ht Hf. unfold handleConn. apply String.eqb_neq in Ht. rewrite Ht.
  destruct (conn_loop_unauth _ end_ envs 0 s input Hf) as (rs & ok & E & Hr).
  destruct (conn_loop_total (S (String.length input)) end_ envs 0 s false input ltac:(lia)) as (s' & a' & rs' & E' & Hl).
  rewrite E in *. injection E' as -> -> -> ->. by exists rs'.
Qed.

(** AUTH is exact: on a server with a token, an AUTH command with one
    argument authenticates a connection if and only if the argument is the
    token, as long as SHA-256 does not collide on the two. *)
Theorem AUTH_exact s ce name token : authToken s ≠ "" → ToUpper name = "AUTH" →
  collision_free [token; authToken s] →
  (handleValue s false ce (Array [NewBulkString name; NewBulkString token])).1.2 = true ↔ token = authToken s.
Proof.
  intros Ht Hn Hcf. apply String.eqb_neq in Ht. unfold handleValue. cbn [NewBulkString getBulkString auth_matches].
  rewrite Hn, Ht. change (String.eqb "AUTH" "AUTH") with true. cbv iota.
  destruct (String.eqb_spec (Sum256 token) (Sum256 (authToken s))) as [He|He]; cbn [negb fst snd].
  - split; [|done]. intros _. apply Hcf; [apply elem_of_cons; by left| |done].
    apply elem_of_cons. right. by apply list_elem_of_singleton.
  - split; [done|]. by intros ->.
Qed.

(** C30: Every connection ends: the loop never runs out of input to consume,
    for any bytes it stops at the end of the stream or the first malformed
    value, and it has written exactly one reply per value it has read. *)
Theorem handleConn_terminates s end_ envs input :
  ∃ s' auth replies, handleConn end_ envs s input = (s', auth, replies, true) ∧
    length replies = length (conn_values (S (String.length input)) end_ input).
Proof. apply conn_loop_total. lia. Qed.

(** An unknown command's name is echoed without escaping: a name that
    contains CR LF makes the server send a reply that a client reads as an
    error followed by bytes of the sender's choice, so later replies are
    attributed to the wrong commands. *)
Theorem unknown_command_splits s env members x y args end_ :
  line_ok ("ERR unknown command '" +:+ x) →
  let reply := (dispatch s env members (x +:+ CRLF +:+ y) args).2 in
  ∃ bytes, Resp reply = Some bytes ∧
    ReadValue end_ bytes = inr (Error ("ERR unknown command '" +:+ x), y +:+ "'" +:+ CRLF).
Proof.
  intros Hok. cbv zeta. set (cmd := x +:+ CRLF +:+ y).
  assert (Hne : ∀ c, no_lf c → String.eqb cmd c = false).
  { intros c Hc. apply String.eqb_neq. intros <-. unfold cmd in Hc.
    assert (Hx : no_lf x).
    { destruct Hok as [Hn _]. unfold no_lf in *. destruct (find_lf x) as [[p q]|] eqn:E; [|done].
      apply find_lf_split in E as [-> Hp]. rewrite find_lf_app in Hn by done. cbn in Hn.
      rewrite find_lf_app_lf in Hn by done. done. }
    unfold no_lf in Hc. rewrite find_lf_app in Hc by done. done. }
  unfold dispatch. rewrite !Hne by done. cbn [snd]. eexists. split; [done|].
  unfold ReadValue. rewrite string_app_assoc. unfold cmd.
  pose proof (proj1 (proj2 (readValue_dispatch end_ maxArrayDepth
    (("ERR unknown command '" +:+ x) +:+ CRLF +:+ y +:+ "'" +:+ CRLF)))) as Hd.
  etransitivity; [etransitivity; [|exact Hd]|].
  - f_equal. by rewrite !string_app_assoc.
  - unfold readError. by rewrite (reader_bind_eq _ _ _ _ _ (readLine_line _ _ _ Hok)).
Qed.
End properties.

(** ** Instances at concrete inputs *)

Module ServerExamples.
#[local] Existing Instances SortedList.ops SortedList_laws MergeSort MergeSort_laws.
#[local] Existing Instances demo_proto demo_proto_laws demo_range demo_range_laws demo_ring demo_ring_laws demo_xxhash.
#[local] Instance demo_unicode : UnicodeTables := id.
Import GossipExamples.

Definition sa : Server := mkServer "1:1" "a" (Clustered ha) 2 "secret" None.
Definition env : string → Env := λ _, mkEnv "id" (λ _, true) [].
Definition envs : nat → CmdEnv := λ _, mkCmdEnv env [].

Lemma srv_a_inv : server_inv sa.
Proof.
  destruct ha_inv as [Ea Eb Ec Ed Ee]. split; try done. intros h [= <-]. exact Ee.
Qed.

Lemma SET_then_GET_witness :
  let s' := (handleSet sa env [NewBulkString "k"; NewBulkString "new"]).1 in
  handleGet s' [NewBulkString "k"] = (s', NewBulkString "new").
Proof.
  pose proof (SET_then_GET sa env "k" "new" srv_a_inv) as E.
  destruct (handleSet sa env _) as [s' reply]. refine (proj1 (E _ _)); vm_compute; reflexivity.
Defined.

Lemma foreign_key_redirected_witness :
  handleGet sa [NewBulkString "zebra"] = (sa, Error "MOVED 2:1").
Proof.
  refine (proj1 (proj2 (foreign_key_redirected sa env "zebra" "v" [NewBulkString "zebra"] ["zebra"] "b" "2:1" _ _ _ _ _))).
  - vm_compute. reflexivity.
  - discriminate.
  - vm_compute. discriminate.
  - reflexivity.
  - apply list_elem_of_singleton. reflexivity.
Defined.

Definition sb : Server := mkServer "1:1" "a" (Standalone (h_store ha) (h_ring ha)) 1 "" None.

Lemma srv_b_inv : server_inv sb.
Proof. destruct ha_inv as [Ea Eb Ec Ed Ee]. by split. Qed.

Lemma DEL_removes_witness :
  (handleGet (handleDel sb env [NewBulkString "k"; NewBulkString "a"]).1 [NewBulkString "k"]).2 = NullBulkString.
Proof.
  pose proof (DEL_removes sb env [NewBulkString "k"; NewBulkString "a"] ["k"; "a"] srv_b_inv eq_refl ltac:(done)) as E.
  destruct (handleDel sb env _) as [s' reply]. cbn [fst].
  refine (proj1 (proj2 (E _ _)) "k" _); vm_compute; (reflexivity || discriminate).
Defined.

Lemma dispatch_safe_witness : server_inv (dispatch sa env [] "NODE.JOIN" [NewBulkString "d"; NewBulkString "4:1"]).1.
Proof.
  refine (proj1 (dispatch_safe sa env [] "NODE.JOIN" [NewBulkString "d"; NewBulkString "4:1"] srv_a_inv _)).
  vm_compute. discriminate.
Defined.

Definition guess : string :=
  "AUTH wrong" +:+ CRLF +:+ "SET k v" +:+ CRLF +:+ "+x" +:+ CRLF.

Lemma unauthenticated_powerless_witness :
  ∃ replies, handleConn EOF envs sa guess = (sa, false, replies, true) ∧ forallb is_error replies = true ∧
    length replies = length (conn_values (S (String.length guess)) EOF guess).
Proof.
  refine (unauthenticated_powerless sa EOF envs guess _ _); [discriminate|].
  apply Forall_forall. intros v Hv.
  assert (Hall : forallb (λ v, negb (auth_attempt sa v)) (conn_values (S (String.length guess)) EOF guess) = true)
    by (vm_compute; reflexivity).
  rewrite forallb_forall in Hall. apply list_elem_of_In, Hall, negb_true_iff in Hv. exact Hv.
Defined.

Lemma AUTH_exact_witness :
  (handleValue sa false (envs 0) (Array [NewBulkString "auth"; NewBulkString "secret"])).1.2 = true.
Proof.
  refine (proj2 (AUTH_exact sa (envs 0) "auth" "secret" _ _ _) eq_refl).
  - discriminate.
  - vm_compute. reflexivity.
  - apply collision_free_b_sound. vm_compute. reflexivity.
Defined.

Lemma unknown_command_splits_witness :
  ∃ bytes, Resp (dispatch sa env [] ("X" +:+ CRLF +:+ "+OK") []).2 = Some bytes ∧
    ReadValue EOF bytes = inr (Error "ERR unknown command 'X", "+OK'" +:+ CRLF).
Proof.
  refine (unknown_command_splits sa env [] "X" "+OK" [] EOF _).
  apply (bool_decide_unpack _). vm_compute. exact I.
Defined.

(** CLUSTER KEYSLOT and CLUSTER SLOTS do not fit together: the slot table gives
    slot [n] to the owner of the text ["SLOT:n"], so the slot reported for a
    key may belong to a node that redirects the key elsewhere. *)
Lemma keyslot_disagrees :
  ∃ slot, handleCluster sa [NewBulkString "KEYSLOT"; NewBulkString "c"] = Integer slot ∧
    (ring_GetNode (ring sa) "c").1 = "a" ∧ (ring_GetNode (ring sa) ("SLOT:" +:+ Itoa slot)).1 = "c".
Proof. eexists. split; [vm_compute; reflexivity|]. split; vm_compute; reflexivity. Qed.
End ServerExamples.
