(* ===== verification/Mgmt.v ===== *)
(** * internal/mgmt: the HTTP management server

    The handlers behind basic authentication.  A request carries what net/http
    gives to a handler: the method, the cleaned path, the query parameter, the
    result of [BasicAuth], the body, and whether the response writer can
    flush.  A response is a
    status and a body; a JSON body is the value that is encoded.  The calls of
    [gossip.Join] are part of the result. *)

From S2P Require Import Prelude GoStrconv GoSort GoUtf8 GoNet GoCrypto GoJson GoJsonDecode BTree Store HashRing HashRingProps.
From S2P Require Import RingInterface EventRing Gossip Instances GossipProps.
Local Open Scope Z_scope.

(** ** Data *)

Record memberInfo := mkMember {
  m_name : string;
  m_redis_addr : string;
  m_gossip_addr : string;
  m_status : string;
}.

Record joinRequest := mkJoinRequest { Address : string }.

Record infoResponse := mkInfo {
  info_node_id : string;
  info_key_count : Z;
  info_members : list memberInfo;
}.

Record hashringAPIEntry := mkAPIEntry {
  api_Hash : string;
  api_HashU64 : Z;
  api_NodeID : string;
  api_Address : string;
}.

Record ringResponse := mkRingResponse {
  rr_LocalNode : string;
  rr_NodeCount : Z;
  rr_TotalVNodes : Z;
  rr_Entries : list hashringAPIEntry;
}.

Inductive Body :=
  | Text (s : string)
  | Dashboard
  | Info (i : infoResponse)
  | Events (es : list ClusterEvent)
  | RingInfo (r : ringResponse)
  | Stream.

Record Response := mkResponse { status : Z; body : Body }.

Inductive Method := GET | POST | OtherMethod (m : string).

Record Request := mkRequest {
  method : Method;
  path : string;
  query_n : string;
  basic_auth : option string;
  req_body : string;
  flusher : bool;
}.

#[export] Instance Method_eq_dec : EqDecision Method.
Proof. solve_decision. Defined.

(** The responses of [http.Error]. *)
Definition http_error (msg : string) (code : Z) : Response := mkResponse code (Text (msg +:+ String "010" "")).

(** ** The hash as text *)

(** The last [n] hexadecimal digits, padded with zeros: [%016x] for [n] = 16. *)
Fixpoint hex (n : nat) (v : Z) : string :=
  match n with
  | O => ""
  | S n' => String (hex_digit ((v / 16 ^ Z.of_nat n') mod 16)) (hex n' v)
  end.

Definition toAPIRingEntries (es : list RingEntryInfo) : list hashringAPIEntry :=
  (λ e, mkAPIEntry (hex 16 (info_Hash e)) (info_Hash e) (info_NodeID e) (info_Address e)) <$> es.

(** ** The handlers *)

Section mgmt.
Context `{!BTreeOps item, !Hashring}.

(** [srv] tells whether the [http.Server] has been created. *)
Record Mgmt := mkMgmt {
  mgmt_addr : string;
  mgmt_gossip : Handler;
  srv : bool;
  mgmt_ln : option string;
  token : string;
}.

Definition New (addr : string) (g : Handler) : Mgmt := mkMgmt addr g false None "".
Definition SetAuthToken (s : Mgmt) (t : string) : Mgmt :=
  mkMgmt (mgmt_addr s) (mgmt_gossip s) (srv s) (mgmt_ln s) t.

(** [ListenAndServe]: the [http.Server] exists even when [listen] fails. *)
Definition ListenAndServe (s : Mgmt) (listen : string → string + string) : Mgmt * option string :=
  match listen (mgmt_addr s) with
  | inl err => (mkMgmt (mgmt_addr s) (mgmt_gossip s) true (mgmt_ln s) (token s),
                Some ("mgmt: listen " +:+ mgmt_addr s +:+ ": " +:+ err))
  | inr a => (mkMgmt (mgmt_addr s) (mgmt_gossip s) true (Some a) (token s), None)
  end.

(** [Shutdown]; [stop] is what [http.Server.Shutdown] returns. *)
Definition Shutdown (s : Mgmt) (stop : option string) : option string := if srv s then stop else None.

Definition Addr (s : Mgmt) : string := match mgmt_ln s with Some a => a | None => mgmt_addr s end.

(** The answers of the transport during a request. *)
Record Answers := mkAnswers { ans_members : list MemberInfo; ans_join : string → option string }.

Definition not_allowed : Response := http_error "method not allowed" 405.

Definition handleReady (s : Mgmt) (a : Answers) (r : Request) : Response :=
  if negb (bool_decide (method r = GET)) then not_allowed
  else if existsb (λ m, String.eqb (mi_Name m) (NodeID_ (mgmt_gossip s)) && String.eqb (mi_Status m) "alive")
            (ans_members a)
  then mkResponse 200 (Text "") else http_error "not ready" 503.

Definition handleDashboard (r : Request) : Response :=
  if negb (String.eqb (path r) "/") then http_error "404 page not found" 404 else mkResponse 200 Dashboard.

(** Decoding an object into a [joinRequest]: names are compared without regard
    to case, other members are skipped, null changes nothing, and the first
    value of a wrong type is the error. *)
Definition decode_member (acc : joinRequest * option string) (kv : string * json) : joinRequest * option string :=
  if negb (String.eqb (foldName kv.1) "ADDRESS") then acc
  else match kv.2 with
       | JString a => (mkJoinRequest a, acc.2)
       | JNull => acc
       | v => (acc.1, Some (default ("json: cannot unmarshal " +:+ value_kind v +:+
                " into Go struct field joinRequest.address of type string") acc.2))
       end.

Definition decode_joinRequest (v : json) : string + joinRequest :=
  match v with
  | JNull => inr (mkJoinRequest "")
  | JObject l =>
      match fold_left decode_member l (mkJoinRequest "", None) with
      | (req, None) => inr req
      | (_, Some err) => inl err
      end
  | v => inl ("json: cannot unmarshal " +:+ value_kind v +:+ " into Go value of type mgmt.joinRequest")
  end.

(** [Decode(&req)] on at most 4096 bytes of the body. *)
Definition Decode (text : string) : string + joinRequest :=
  match readValue 4096 text with inl err => inl err | inr v => decode_joinRequest v end.

(** The second component lists the addresses given to [gossip.Join]. *)
Definition handleJoin (s : Mgmt) (a : Answers) (r : Request) : Response * list string :=
  if negb (bool_decide (method r = POST)) then (not_allowed, [])
  else match Decode (req_body r) with
  | inl err => (http_error ("bad request: " +:+ err) 400, [])
  | inr req =>
      let address := Address req in
      match SplitHostPort address with
      | None => (http_error "address must be host:port" 400, [])
      | Some (host, port) =>
          if String.eqb host "" then (http_error "address must be host:port" 400, [])
          else
            let '(n, err) := Atoi port in
            if match err with Some _ => true | None => false end || (n <? 1) || (65535 <? n)
            then (http_error "address must have a valid port" 400, [])
            else match ans_join a address with
                 | Some e => (http_error ("join failed: " +:+ e) 502, [address])
                 | None => (mkResponse 200 (Text ("OK" +:+ String "010" "")), [address])
                 end
      end
  end.

Definition handleInfo (s : Mgmt) (a : Answers) (r : Request) : Response :=
  if negb (bool_decide (method r = GET)) then not_allowed
  else mkResponse 200 (Info (mkInfo (NodeID_ (mgmt_gossip s)) (KeyCount (mgmt_gossip s))
         ((λ m, mkMember (mi_Name m) (mi_RedisAddr m) (mi_Addr m) (mi_Status m)) <$> ans_members a))).

(** The number of events asked for. *)
Definition events_n (q : string) : Z :=
  if String.eqb q "" then 50
  else match Atoi q with
       | (v, None) => if (0 <? v) && (v <=? 200) then v else 50
       | _ => 50
       end.

(** [None] is a panic. *)
Definition handleEvents (s : Mgmt) (r : Request) : option Response :=
  if negb (bool_decide (method r = GET)) then Some not_allowed
  else es ← RecentEvents (mgmt_gossip s) (events_n (query_n r)); Some (mkResponse 200 (Events es)).

Definition handleRing (s : Mgmt) (r : Request) : Response :=
  if negb (bool_decide (method r = GET)) then not_allowed
  else
    let es := ring_RingSnapshot (h_ring (mgmt_gossip s)) in
    let seen : gset string := list_to_set (info_NodeID <$> es) in
    mkResponse 200 (RingInfo (mkRingResponse (NodeID_ (mgmt_gossip s)) (Z.of_nat (size seen))
      (Z.of_nat (length es)) (toAPIRingEntries es))).

(** ** The event stream *)

(** What the loop of [handleEventStream] does in a round. *)
Inductive Wake := Heartbeat | Received (ev : ClusterEvent).

Definition nl : string := String "010" "".

(** The text written in a round; [json] is the encoder, [None] an error. *)
Definition stream_chunk (json : ClusterEvent → option string) (w : Wake) : string :=
  match w with
  | Heartbeat => ": heartbeat" +:+ nl +:+ nl
  | Received ev => match json ev with
                   | None => ""
                   | Some data => "event: " +:+ Type_ ev +:+ nl +:+ "data: " +:+ data +:+ nl +:+ nl
                   end
  end.

(** A run of the stream interleaves the rounds of the loop, [Ticked] by the
    timer or [Woken] by the channel, with the events that the callbacks of the
    transport push.  A loop woken by an empty channel waits on. *)
Inductive StreamStep := Ticked | Woken | Happens (ev : ClusterEvent).

Definition stream_step (json : ClusterEvent → option string) (id : Z) (st : Handler * string) (x : StreamStep)
    : option (Handler * string) :=
  let '(g, out) := st in
  match x with
  | Ticked => Some (g, out +:+ stream_chunk json Heartbeat)
  | Woken => match subscribers g !! id with
             | Some (mkChan cap (ev :: q)) =>
                 Some (with_events g (events g) (<[id := mkChan cap q]> (subscribers g)),
                       out +:+ stream_chunk json (Received ev))
             | _ => Some (g, out)
             end
  | Happens ev => g' ← PushEvent g ev; Some (g', out)
  end.

Fixpoint stream_loop (json : ClusterEvent → option string) (id : Z) (st : Handler * string) (xs : list StreamStep)
    : option (Handler * string) :=
  match xs with
  | [] => Some st
  | x :: xs => st' ← stream_step json id st x; stream_loop json id st' xs
  end.

(** The whole life of a stream, until the client goes: the handler, the status
    and the text written.  [None] is a panic. *)
Definition handleEventStream (s : Mgmt) (r : Request) (json : ClusterEvent → option string) (xs : list StreamStep)
    : option (Handler * Response * string) :=
  if negb (flusher r) then Some (mgmt_gossip s, http_error "streaming not supported" 500, "")
  else
    let '(id, g) := Subscribe (mgmt_gossip s) (mkChan 32 []) in
    '(g, out) ← stream_loop json id (g, ": connected" +:+ nl +:+ nl) xs;
    Some (Unsubscribe g id, mkResponse 200 Stream, out).

(** ** Routing and authentication *)

(** The multiplexer: the registered paths, and the dashboard for the rest. *)
Definition route (s : Mgmt) (a : Answers) (r : Request) : option (Response * list string) :=
  if String.eqb (path r) "/info" then Some (handleInfo s a r, [])
  else if String.eqb (path r) "/join" then Some (handleJoin s a r)
  else if String.eqb (path r) "/events" then (λ x, (x, [])) <$> handleEvents s r
  else if String.eqb (path r) "/events/stream" then Some (if flusher r then mkResponse 200 Stream else http_error "streaming not supported" 500, [])
  else if String.eqb (path r) "/ring" then Some (handleRing s r, [])
  else if String.eqb (path r) "/readyz" then Some (handleReady s a r, [])
  else Some (handleDashboard r, []).

(** [auth]: without a token everything is open, the readiness probe always
    is. *)
Definition authorized (s : Mgmt) (r : Request) : bool :=
  String.eqb (token s) "" ||
  String.eqb (path r) "/readyz" ||
  match basic_auth r with
  | Some password => String.eqb (Sum256 (token s)) (Sum256 password)
  | None => false
  end.

Definition serve (s : Mgmt) (a : Answers) (r : Request) : option (Response * list string) :=
  if authorized s r then route s a r else Some (http_error "unauthorized" 401, []).
End mgmt.

(** ** Facts about the hexadecimal text *)

Lemma hex_length n v : String.length (hex n v) = n.
Proof. induction n as [|n IH]; simpl; [done|]. by rewrite IH. Qed.

Lemma hex_digit_mono a b : 0 ≤ a < 16 → 0 ≤ b < 16 → a < b → byte_val (hex_digit a) < byte_val (hex_digit b).
Proof.
  intros Ha Hb Hab. unfold hex_digit.
  rewrite !byte_val_of by (destruct (Z.ltb_spec a 10), (Z.ltb_spec b 10); lia).
  destruct (Z.ltb_spec a 10), (Z.ltb_spec b 10); lia.
Qed.

(** Byte order of strings. *)
Lemma ltb_cons x y a b : GoStr.ltb (String x a) (String y b) =
  (byte_val x <? byte_val y) || (byte_val x =? byte_val y) && GoStr.ltb a b.
Proof.
  unfold GoStr.ltb, String.ltb. cbn [String.compare]. unfold Ascii.compare, byte_val.
  destruct (N.compare_spec (N_of_ascii x) (N_of_ascii y)) as [E|E|E].
  - rewrite E, Z.ltb_irrefl, Z.eqb_refl. done.
  - destruct (Z.ltb_spec (Z.of_N (N_of_ascii x)) (Z.of_N (N_of_ascii y))); [done|lia].
  - destruct (Z.ltb_spec (Z.of_N (N_of_ascii x)) (Z.of_N (N_of_ascii y))); [lia|].
    destruct (Z.eqb_spec (Z.of_N (N_of_ascii x)) (Z.of_N (N_of_ascii y))); [lia|done].
Qed.

Lemma hex_mod n v : hex n v = hex n (v mod 16 ^ Z.of_nat n).
Proof.
  assert (Hg : ∀ k m, (k ≤ m)%nat → hex k v = hex k (v mod 16 ^ Z.of_nat m)).
  { induction k as [|k IH]; intros m Hkm; cbn [hex]; [done|]. f_equal; [|apply IH; lia]. f_equal.
    replace (16 ^ Z.of_nat m) with (16 ^ Z.of_nat k * (16 * 16 ^ Z.of_nat (m - S k))).
    2: { rewrite <-(Z.pow_succ_r 16), <-Z.pow_add_r by lia. f_equal. lia. }
    assert (0 < 16 ^ Z.of_nat k) by lia. assert (0 < 16 ^ Z.of_nat (m - S k)) by lia.
    rewrite Z.rem_mul_r by lia.
    rewrite (Z.add_comm (v mod _)), Z.mul_comm, Z.div_add_l by lia.
    rewrite (Z.div_small (v mod _)) by (apply Z.mod_pos_bound; lia). rewrite Z.add_0_r.
    rewrite Z.rem_mul_r by lia. rewrite (Z.mul_comm 16), Z.mod_add by lia.
    by rewrite Z.mod_mod by lia. }
  by apply Hg.
Qed.

(** Padded hexadecimal texts are ordered like their numbers. *)
Lemma hex_ltb n u v : 0 ≤ u < 16 ^ Z.of_nat n → 0 ≤ v < 16 ^ Z.of_nat n →
  GoStr.ltb (hex n u) (hex n v) = (u <? v).
Proof.
  revert u v. induction n as [|n IH]; intros u v Hu Hv.
  { simpl in *. assert (u = v) as -> by lia. by rewrite Z.ltb_irrefl. }
  rewrite Nat2Z.inj_succ, Z.pow_succ_r in Hu, Hv by lia. cbn [hex]. rewrite ltb_cons.
  set (p := 16 ^ Z.of_nat n) in *. assert (Hp : 0 < p) by (unfold p; lia).
  assert (Hdu : 0 ≤ u / p < 16) by (split; [apply Z.div_pos; lia|apply Z.div_lt_upper_bound; lia]).
  assert (Hdv : 0 ≤ v / p < 16) by (split; [apply Z.div_pos; lia|apply Z.div_lt_upper_bound; lia]).
  rewrite !(Z.mod_small (_ / p)) by done.
  rewrite (hex_mod n u), (hex_mod n v), IH by (apply Z.mod_pos_bound; lia). fold p.
  pose proof (Z.div_mod u p). pose proof (Z.div_mod v p).
  pose proof (Z.mod_pos_bound u p). pose proof (Z.mod_pos_bound v p).
  destruct (Z.lt_trichotomy (u / p) (v / p)) as [Hlt|[Heq|Hgt]].
  - pose proof (hex_digit_mono _ _ Hdu Hdv Hlt).
    destruct (Z.ltb_spec (byte_val (hex_digit (u / p))) (byte_val (hex_digit (v / p)))); [|lia]. cbn.
    destruct (Z.ltb_spec u v); [done|nia].
  - rewrite Heq, Z.ltb_irrefl, Z.eqb_refl. cbn. rewrite Heq in *.
    destruct (Z.ltb_spec (u mod p) (v mod p)), (Z.ltb_spec u v); (done || lia).
  - pose proof (hex_digit_mono _ _ Hdv Hdu Hgt).
    destruct (Z.ltb_spec (byte_val (hex_digit (u / p))) (byte_val (hex_digit (v / p)))); [lia|].
    destruct (Z.eqb_spec (byte_val (hex_digit (u / p))) (byte_val (hex_digit (v / p)))); [lia|]. cbn.
    destruct (Z.ltb_spec u v); [nia|done].
Qed.

Lemma hex_inj n u v : 0 ≤ u < 16 ^ Z.of_nat n → 0 ≤ v < 16 ^ Z.of_nat n → hex n u = hex n v → u = v.
Proof.
  intros Hu Hv He. pose proof (hex_ltb n u v Hu Hv) as Huv. pose proof (hex_ltb n v u Hv Hu) as Hvu.
  rewrite He, GoStr.ltb_irrefl in Huv. rewrite He, GoStr.ltb_irrefl in Hvu.
  symmetry in Huv, Hvu. apply Z.ltb_ge in Huv, Hvu. lia.
Qed.

(** ** Properties *)

Section properties.
Context `{!BTreeOps item, !BTreeLaws less, !Hashring, !HashringLaws}.
Implicit Types (s : Mgmt) (r : Request) (a : Answers).

Definition port_ok (port : string) : Prop := ∃ n, Atoi port = (n, None) ∧ 1 ≤ n ≤ 65535.

(** ** The stream against a bounded queue *)

(** What a stream with a queue of its own of 32 places does: the rounds in
    order, and what is left in the queue. *)
Fixpoint stream_spec (q : list ClusterEvent) (xs : list StreamStep) : list Wake * list ClusterEvent :=
  match xs with
  | [] => ([], q)
  | Ticked :: xs => let '(ws, q') := stream_spec q xs in (Heartbeat :: ws, q')
  | Woken :: xs => match q with
                   | [] => stream_spec [] xs
                   | ev :: q => let '(ws, q') := stream_spec q xs in (Received ev :: ws, q')
                   end
  | Happens ev :: xs => stream_spec (if Z.of_nat (length q) <? 32 then q ++ [ev] else q) xs
  end.

(** The queue always has a place for an event. *)
Fixpoint keeps_up (q : list ClusterEvent) (xs : list StreamStep) : bool :=
  match xs with
  | [] => true
  | Ticked :: xs => keeps_up q xs
  | Woken :: xs => keeps_up (tail q) xs
  | Happens ev :: xs => (Z.of_nat (length q) <? 32) && keeps_up (q ++ [ev]) xs
  end.

Definition happened (xs : list StreamStep) : list ClusterEvent :=
  omap (λ x, match x with Happens ev => Some ev | _ => None end) xs.
Definition received (ws : list Wake) : list ClusterEvent :=
  omap (λ w, match w with Received ev => Some ev | _ => None end) ws.

Definition stream_text (json : ClusterEvent → option string) (ws : list Wake) : string :=
  foldr (λ w out, stream_chunk json w +:+ out) "" ws.

Lemma keeps_up_complete q xs : keeps_up q xs = true →
  let '(ws, q') := stream_spec q xs in q ++ happened xs = received ws ++ q'.
Proof.
  revert q. induction xs as [|x xs IH]; intros q Hk; [apply app_nil_r|].
  destruct x as [| |ev]; cbn [keeps_up stream_spec] in *.
  - specialize (IH q Hk). destruct (stream_spec q xs) as [ws q']. exact IH.
  - destruct q as [|ev q]; [exact (IH [] Hk)|]. specialize (IH q Hk). destruct (stream_spec q xs) as [ws q'].
    cbn. by f_equal.
  - apply andb_true_iff in Hk as [Hl Hk]. rewrite Hl. specialize (IH _ Hk).
    destruct (stream_spec _ xs) as [ws q']. by rewrite <-IH, <-(assoc_L (++)).
Qed.

(** A quantity of the handler that says all about a stream: its queue. *)
Lemma stream_loop_spec json id xs g out q es :
  logs (events g) eventRingSize es → subscribers g !! id = Some (mkChan 32 q) →
  let '(ws, q') := stream_spec q xs in
  ∃ g', stream_loop json id (g, out) xs = Some (g', out +:+ stream_text json ws) ∧
    subscribers g' !! id = Some (mkChan 32 q') ∧ logs (events g') eventRingSize (es ++ happened xs) ∧
    h_store g' = h_store g ∧ h_ring g' = h_ring g.
Proof.
  revert g out q es. induction xs as [|x xs IH]; intros g out q es Hl Hq.
  { exists g. cbn [happened omap list_omap]. by rewrite app_nil_r, string_app_nil_r. }
  destruct x as [| |ev]; cbn [stream_spec stream_loop stream_step].
  - specialize (IH g (out +:+ stream_chunk json Heartbeat) q es Hl Hq).
    destruct (stream_spec q xs) as [ws q'], IH as (g' & E & H'). exists g'. cbn [mbind option_bind].
    rewrite E. by rewrite string_app_assoc.
  - rewrite Hq. destruct q as [|ev q]; [exact (IH g out [] es Hl Hq)|].
    specialize (IH (with_events g (events g) (<[id := mkChan 32 q]> (subscribers g)))
      (out +:+ stream_chunk json (Received ev)) q es Hl (lookup_insert_eq _ _ _)).
    destruct (stream_spec q xs) as [ws q'], IH as (g' & E & H'). exists g'. cbn [mbind option_bind].
    rewrite E. by rewrite string_app_assoc.
  - destruct (logs_Push _ _ es ev Hl) as (r & Er & Hl'). unfold PushEvent. rewrite Er. cbn [mbind option_bind].
    specialize (IH (with_events g r ((λ c, try_send c ev) <$> subscribers g)) out
      (if Z.of_nat (length q) <? 32 then q ++ [ev] else q) (es ++ [ev]) Hl').
    destruct (stream_spec _ xs) as [ws q']. destruct IH as (g' & E & Hg & Hl'' & H').
    { cbn [subscribers with_events]. rewrite lookup_fmap, Hq. cbn. f_equal. unfold try_send. cbn [ch_queue ch_cap].
      by destruct (Z.of_nat (length q) <? 32). }
    exists g'. split; [done|]. split; [done|]. split; [|done]. by rewrite <-(assoc_L (++)) in Hl''.
Qed.

(** With a token configured, a request without the right password gets 401
    and reaches no handler, the readiness probe excepted; a request with the
    token is passed on unchanged.  The comparison is of SHA-256 digests, so
    passwords are told apart as long as those do not collide. *)
Theorem mgmt_auth s a r password : token s ≠ "" → collision_free [token s; password] →
  (path r ≠ "/readyz" → basic_auth r = None → serve s a r = Some (http_error "unauthorized" 401, [])) ∧
  (path r ≠ "/readyz" → basic_auth r = Some password → password ≠ token s →
     serve s a r = Some (http_error "unauthorized" 401, [])) ∧
  (basic_auth r = Some (token s) ∨ path r = "/readyz" → serve s a r = route s a r).
Proof.
  intros Ht Hcf. apply String.eqb_neq in Ht. unfold serve, authorized. rewrite Ht. cbn [orb].
  split; [|split].
  - intros Hp Hb. apply String.eqb_neq in Hp. by rewrite Hp, Hb.
  - intros Hp Hb Hne. apply String.eqb_neq in Hp. rewrite Hp, Hb. cbn [orb].
    destruct (String.eqb_spec (Sum256 (token s)) (Sum256 password)) as [He|He]; [|done].
    contradict Hne. symmetry. apply Hcf; [apply elem_of_cons; by left| |done].
    apply elem_of_cons. right. by apply list_elem_of_singleton.
  - intros [Hb|Hp].
    + rewrite Hb. by rewrite String.eqb_refl, orb_true_r.
    + by rewrite Hp.
Qed.

(** The address of a join request, when it is well formed. *)
Definition join_target (r : Request) (address : string) : Prop :=
  method r = POST ∧ Decode (req_body r) = inr (mkJoinRequest address) ∧
  ∃ host port, SplitHostPort address = Some (host, port) ∧ host ≠ "" ∧ port_ok port.

(** Either nothing is joined, because the request has no target, or its target
    is. *)
Lemma handleJoin_cases s a r :
  (∃ resp, handleJoin s a r = (resp, []) ∧ (∀ address, ¬ join_target r address) ∧
     (method r = POST → status resp = 400)) ∨
  (∃ resp address, handleJoin s a r = (resp, [address]) ∧ join_target r address ∧
     status resp = if ans_join a address then 502 else 200).
Proof.
  unfold handleJoin, join_target. case_bool_decide as Hm; cbn [negb].
  2: { left. eexists. split; [done|]. split; [by intros address (? & _)|done]. }
  destruct (Decode (req_body r)) as [err|[address]] eqn:Hj.
  { left. eexists. split; [done|]. split; [by intros address (_ & ? & _)|done]. }
  cbn [Address].
  assert (Hno : ∀ msg : string,
    (¬ ∃ host port, SplitHostPort address = Some (host, port) ∧ host ≠ "" ∧ port_ok port) →
    ∃ resp', (http_error msg 400, [] : list string) = (resp', []) ∧ (∀ address0, ¬ (method r = POST ∧
      (inr (mkJoinRequest address) : string + joinRequest) = inr (mkJoinRequest address0) ∧
      ∃ host port, SplitHostPort address0 = Some (host, port) ∧ host ≠ "" ∧ port_ok port)) ∧
      (method r = POST → status resp' = 400)).
  { intros msg Hn. eexists. split; [done|]. split; [by intros a0 (_ & [= <-] & ?)|done]. }
  destruct (SplitHostPort address) as [[host port]|] eqn:Hs.
  2: { left. apply Hno. by intros (? & ? & ? & _). }
  destruct (String.eqb_spec host "") as [Hh|Hh].
  { left. apply Hno. by intros (h & p & [= <- <-] & ? & _). }
  destruct (Atoi port) as [n [e|]] eqn:Hat.
  { left. apply Hno. intros (h & p & [= <- <-] & _ & n' & Hat' & _). congruence. }
  cbn [orb]. destruct (Z.ltb_spec n 1), (Z.ltb_spec 65535 n); cbn [orb].
  1, 2, 3: left; apply Hno; intros (h & p & [= <- <-] & _ & n' & Hat' & ?);
    assert (n' = n) by congruence; lia.
  right. destruct (ans_join a address) eqn:Ha; eexists _, address; (split; [done|]); rewrite Ha;
    (split; [|done]); split_and!; try done; exists host, port; (split; [done|]); (split; [done|]);
    exists n; (split; [done|lia]).
Qed.

(** [gossip.Join] is called only with a well-formed address: a request
    leads to a join exactly when it is authorized, a POST to /join whose JSON
    names a host and a port from 1 to 65535; then Join is called once, with
    that address, and the status tells its outcome. *)
Theorem mgmt_join s a r resp joins : serve s a r = Some (resp, joins) →
  (∀ address, joins = [address] ↔ authorized s r = true ∧ path r = "/join" ∧ join_target r address) ∧
  (∀ address, joins = [address] → status resp = if ans_join a address then 502 else 200) ∧
  (joins = [] ∨ ∃ address, joins = [address]).
Proof.
  assert (Hnone : (∀ address, ¬ (authorized s r = true ∧ path r = "/join" ∧ join_target r address)) → joins = [] →
    (∀ address, joins = [address] ↔ authorized s r = true ∧ path r = "/join" ∧ join_target r address) ∧
    (∀ address, joins = [address] → status resp = if ans_join a address then 502 else 200) ∧
    (joins = [] ∨ ∃ address, joins = [address])).
  { intros Hn ->. split; [|split; [done|by left]]. intros address. split; [done|]. by intros ?%Hn. }
  unfold serve. destruct (authorized s r) eqn:Ha.
  2: { intros [= <- <-]. apply Hnone; [|done]. by intros ? (? & _). }
  unfold route. destruct (String.eqb_spec (path r) "/join") as [Hp|Hp].
  - replace (String.eqb (path r) "/info") with false by (by rewrite Hp). intros [= E].
    destruct (handleJoin_cases s a r) as [(rp & E' & Hn & _)|(rp & address & E' & Ht & Hst)]; rewrite E' in E; injection E as <- <-.
    + apply Hnone; [|done]. intros address (_ & _ & ?). by apply (Hn address).
    + split; [|split; [by intros a0 [= <-]|right; by exists address]].
      intros a0. split; [by intros [= <-]|]. intros (_ & _ & _ & Hj & _).
      destruct Ht as (_ & Hj' & _). congruence.
  - intros E. apply Hnone; [by intros ? (_ & ? & _)|].
    destruct (handleEvents s r); repeat case_match; by simplify_eq/=.
Qed.

(** ** What a join request names *)

Definition names_address (kv : string * json) : bool := String.eqb (foldName kv.1) "ADDRESS".
Definition text_or_null (v : json) : bool := match v with JString _ | JNull => true | _ => false end.
Definition json_text (v : json) : option string := match v with JString t => Some t | _ => None end.

(** The values of the members called address, in whatever case. *)
Definition address_values (l : list (string * json)) : list json := snd <$> List.filter names_address l.

(** The address an object names: the last text among them, the empty one if
    there is none; nothing when one of them is neither a text nor null. *)
Definition named_address (l : list (string * json)) : option string :=
  if forallb text_or_null (address_values l) then Some (default "" (last (omap json_text (address_values l)))) else None.

Lemma decode_member_error l acc : is_Some acc.2 → is_Some (fold_left decode_member l acc).2.
Proof.
  revert acc. induction l as [|kv l IH]; intros acc Ha; [done|]. cbn [fold_left]. apply IH. unfold decode_member.
  destruct (negb _); [done|]. by destruct kv.2.
Qed.

Lemma address_values_cons k v l : address_values ((k, v) :: l) =
  if String.eqb (foldName k) "ADDRESS" then v :: address_values l else address_values l.
Proof. unfold address_values. cbn [List.filter]. unfold names_address at 1. cbn [fst]. by destruct (String.eqb _ _). Qed.

Lemma decode_members l req :
  match fold_left decode_member l (req, None) with
  | (req', None) => forallb text_or_null (address_values l) = true ∧
      Address req' = default (Address req) (last (omap json_text (address_values l)))
  | (_, Some _) => forallb text_or_null (address_values l) = false
  end.
Proof.
  revert req. induction l as [|[k v] l IH]; intros req; [done|].
  rewrite address_values_cons. cbn [fold_left]. unfold decode_member at 2. cbn [fst snd].
  destruct (String.eqb (foldName k) "ADDRESS"); cbn [negb]; [|exact (IH req)]. cbn [forallb].
  assert (Herr : ∀ err, text_or_null v = false →
    match fold_left decode_member l (req, Some err) with
    | (_, None) => False | (_, Some _) => text_or_null v && forallb text_or_null (address_values l) = false end).
  { intros err ->. pose proof (decode_member_error l (req, Some err) ltac:(by eexists)) as [e He].
    destruct (fold_left decode_member l (req, Some err)) as [r o]. cbn in He. by subst o. }
  destruct (text_or_null v) eqn:Ev.
  2: { destruct v as [|b|n|x|vs|ms]; try done;
         match goal with |- context [fold_left decode_member l (?q, Some ?e)] => specialize (Herr e eq_refl);
           by destruct (fold_left decode_member l (q, Some e)) as [r [e'|]] end. }
  destruct v as [|b|n|t|vs|ms]; try done.
  - exact (IH req).
  - specialize (IH (mkJoinRequest t)). destruct (fold_left decode_member l (mkJoinRequest t, None)) as [r [e|]]; [exact IH|].
    destruct IH as [Ha Hb]. split; [exact Ha|]. rewrite Hb. cbn [Address omap list_omap json_text].
    rewrite last_cons. by destruct (last (omap json_text (address_values l))).
Qed.

(** The texts of an object as they are read. *)
Definition as_read (l : list (string * json)) : list (string * json) := (λ kv, (repair_text 0 kv.1, repair kv.2)) <$> l.

(** Decoding the text of an object gives the address it names. *)
Lemma Decode_render l rest : numbers_ok (JObject l) = true → GoStr.len (render (JObject l)) ≤ 4096 →
  match Decode (render (JObject l) +:+ rest) with
  | inr req => named_address (as_read l) = Some (Address req)
  | inl _ => named_address (as_read l) = None
  end.
Proof.
  intros Hok Hlen. unfold Decode. rewrite readValue_render; [|done|by right].
  cbn [repair decode_joinRequest]. fold (as_read l). pose proof (decode_members (as_read l) (mkJoinRequest "")) as Hd.
  unfold named_address. destruct (fold_left decode_member (as_read l) (mkJoinRequest "", None)) as [req [e|]].
  - by rewrite Hd.
  - destruct Hd as [-> ->]. done.
Qed.

(** An object in which one member is called address names its text. *)
Lemma named_address_one before after address :
  forallb (λ kv, negb (names_address kv)) (as_read (before ++ after)) = true → ValidString address = true →
  named_address (as_read (before ++ ("address", JString address) :: after)) = Some address.
Proof.
  intros Hn Hv. unfold as_read in *. rewrite fmap_app in *. cbn [fmap list_fmap fst snd]. rewrite forallb_app in Hn. apply andb_prop in Hn as [Ha Hb].
  assert (Hnone : ∀ l, forallb (λ kv, negb (names_address kv)) l = true → List.filter names_address l = []).
  { intros l Hl. apply list_filter_none. intros x Hx%list_elem_of_In. rewrite forallb_forall in Hl. by apply negb_true_iff, Hl. }
  unfold named_address, address_values. rewrite List.filter_app, (Hnone _ Ha). cbn [List.filter repair].
  change (names_address (repair_text 0 "address", _)) with true. cbv iota.
  rewrite (Hnone _ Hb). cbn. by rewrite (repair_valid address 0 0 0).
Qed.

(** A host and a port that can be joined. *)
Definition joinable (address : string) : Prop :=
  ∃ host port, SplitHostPort address = Some (host, port) ∧ host ≠ "" ∧ port_ok port.

(** C36: A join request in JSON does what it says.  An authorized POST of the
    text of any object, as the encoder writes it in at most 4096 bytes,
    followed by anything, joins the address the object names, and is answered
    200 or 502 by the outcome, when that is a host and a port from 1 to 65535;
    in every other case it is answered 400 and nothing is joined.  The address
    named is the text of the last member called address in whatever case; the
    object names none when such a member is neither a text nor null.  When
    there is one such member and its text is UTF-8, it is that text with every
    character it has; other members do not matter.  Bytes that are not UTF-8
    are read as U+FFFD. *)
Theorem join_request_roundtrip s a r l rest :
  authorized s r = true → path r = "/join" → method r = POST →
  numbers_ok (JObject l) = true → GoStr.len (render (JObject l)) ≤ 4096 →
  req_body r = render (JObject l) +:+ rest →
  (∃ resp,
    (∃ address, named_address (as_read l) = Some address ∧ joinable address ∧
      serve s a r = Some (resp, [address]) ∧ status resp = if ans_join a address then 502 else 200) ∨
    (¬ (∃ address, named_address (as_read l) = Some address ∧ joinable address) ∧
      serve s a r = Some (resp, []) ∧ status resp = 400)) ∧
  (∀ before after address, l = before ++ ("address", JString address) :: after →
    forallb (λ kv, negb (names_address kv)) (as_read (before ++ after)) = true → ValidString address = true →
    named_address (as_read l) = Some address).
Proof.
  intros Ha Hp Hm Hok Hlen Hb. split; [|intros before after address ->; apply named_address_one].
  pose proof (Decode_render l rest Hok Hlen) as Hdec. rewrite <-Hb in Hdec.
  assert (Hs : serve s a r = Some (handleJoin s a r)) by (unfold serve, route; by rewrite Ha, Hp).
  rewrite Hs. destruct (handleJoin_cases s a r) as [(rp & -> & Hno & Hst)|(rp & address & -> & (_ & Hdec' & Ht) & Hst)].
  - exists rp. right. split; [|by split; [|apply Hst]]. intros (address & Hn & Ht). apply (Hno address).
    unfold join_target. destruct (Decode (req_body r)) as [e|[x]]; [congruence|]. rewrite Hdec in Hn. by injection Hn as ->.
  - rewrite Hdec' in Hdec. exists rp. left. by exists address.
Qed.

(** GET /events returns, oldest first, the last [n] events of the node's
    history, with [n] the query parameter when it is a number from 1 to 200 and
    50 otherwise, or as many as the log still has; it never panics. *)
Theorem mgmt_events s r es : logs (events (mgmt_gossip s)) eventRingSize es → method r = GET →
  let n := Z.min (events_n (query_n r)) (Z.of_nat (length es)) in
  handleEvents s r = Some (mkResponse 200 (Events (drop (length es - Z.to_nat n) es))) ∧
  1 ≤ events_n (query_n r) ≤ 200.
Proof.
  intros Hl Hm. assert (Hn : 1 ≤ events_n (query_n r) ≤ 200).
  { unfold events_n. destruct (String.eqb (query_n r) ""); [lia|].
    destruct (Atoi (query_n r)) as [v [e|]]; [lia|].
    destruct (Z.ltb_spec 0 v), (Z.leb_spec v 200); cbn; lia. }
  split; [|done]. unfold handleEvents. rewrite Hm. unfold RecentEvents.
  rewrite bool_decide_eq_true_2 by done. cbn [negb].
  rewrite (logs_Recent _ _ _ _ Hl). cbn [mbind option_bind]. do 4 f_equal.
  rewrite (logs_count _ _ _ Hl). change eventRingSize with 200. set (q := events_n (query_n r)) in *.
  destruct (Z.leb_spec q 0); [lia|]. cbn [orb].
  destruct (Z.ltb_spec (Z.of_nat (length es) `min` 200) q); lia.
Qed.

(** The ring view is faithful: every virtual node is listed with its hash as
    exactly sixteen hexadecimal digits, and comparing these texts as strings
    orders the nodes as their 64-bit hashes do, so distinct hashes have
    distinct texts. *)
Theorem ring_texts_ordered (es : list RingEntryInfo) :
  Forall (λ e, in_uint64 (info_Hash e)) es →
  length (toAPIRingEntries es) = length es ∧
  ∀ i j x y, toAPIRingEntries es !! i = Some x → toAPIRingEntries es !! j = Some y →
    String.length (api_Hash x) = 16%nat ∧
    GoStr.ltb (api_Hash x) (api_Hash y) = (api_HashU64 x <? api_HashU64 y) ∧
    (api_Hash x = api_Hash y → api_HashU64 x = api_HashU64 y).
Proof.
  intros Hu. unfold toAPIRingEntries. split; [apply length_fmap|].
  intros i j x y Hx Hy. rewrite list_lookup_fmap in Hx, Hy.
  destruct (es !! i) as [ex|] eqn:Ex; [|done]. destruct (es !! j) as [ey|] eqn:Ey; [|done].
  apply (inj Some) in Hx, Hy. subst x y. cbn [api_Hash api_HashU64].
  rewrite Forall_forall in Hu.
  assert (Hb : ∀ k e, es !! k = Some e → 0 ≤ info_Hash e < 16 ^ Z.of_nat 16).
  { intros k e He. apply list_elem_of_lookup_2, Hu in He. unfold in_uint64, maxUint64 in He.
    change (16 ^ Z.of_nat 16) with (2 ^ 64). lia. }
  pose proof (Hb _ _ Ex). pose proof (Hb _ _ Ey).
  split; [exact (hex_length 16 _)|]. split; [by apply (hex_ltb 16)|]. by apply (hex_inj 16).
Qed.

(** A stream behaves as one bounded queue of its own, whatever other
    subscribers do: however events and rounds interleave, it answers 200 and
    writes the greeting and the texts of the rounds of [stream_spec]; nothing
    panics, every event is in the log, and the subscription is gone at the
    end.  A client that is never more than 32 events behind misses none: what
    it received and what was still queued are all the events, in order. *)
Theorem stream_refines s r json xs es :
  logs (events (mgmt_gossip s)) eventRingSize es → flusher r = true →
  let '(ws, q) := stream_spec [] xs in
  (∃ g, handleEventStream s r json xs =
          Some (g, mkResponse 200 Stream, (": connected" +:+ nl +:+ nl) +:+ stream_text json ws) ∧
        subscribers g !! subNext (mgmt_gossip s) = None ∧
        logs (events g) eventRingSize (es ++ happened xs) ∧
        h_store g = h_store (mgmt_gossip s) ∧ h_ring g = h_ring (mgmt_gossip s)) ∧
  (keeps_up [] xs = true → happened xs = received ws ++ q).
Proof.
  intros Hl Hf. unfold handleEventStream. rewrite Hf. cbn [negb]. unfold Subscribe.
  match goal with |- context [stream_loop json ?id (?g, ?out) xs] =>
    pose proof (stream_loop_spec json id xs g out [] es Hl (lookup_insert_eq _ _ _)) as Hs
  end.
  pose proof (keeps_up_complete [] xs) as Hk. destruct (stream_spec [] xs) as [ws q].
  destruct Hs as (g & E & Hg & Hl' & Hst & Hr). split; [|exact Hk].
  rewrite E. cbn [mbind option_bind]. eexists. split; [reflexivity|]. cbn [subscribers Unsubscribe with_events].
  split; [apply lookup_delete_eq|]. done.
Qed.
End properties.

(** ** Witnesses *)

Module MgmtExamples.
#[local] Existing Instances SortedList.ops SortedList_laws MergeSort MergeSort_laws.
#[local] Existing Instances demo_proto demo_proto_laws demo_range demo_range_laws demo_ring demo_ring_laws demo_xxhash.
Import GossipExamples.

Definition ms : Mgmt := mkMgmt ":8080" ha true None "secret".
Definition answers : Answers := mkAnswers [] (λ _, None).
Definition req (m : Method) (p : string) (auth : option string) : Request :=
  mkRequest m p "1" auth (render (JObject [("address", JString "node-b:7946")])) true.

Lemma mgmt_auth_witness : serve ms answers (req GET "/info" (Some "guess")) = Some (http_error "unauthorized" 401, []).
Proof.
  refine (proj1 (proj2 (mgmt_auth ms answers (req GET "/info" (Some "guess")) "guess" _ _)) _ _ _).
  - discriminate.
  - apply collision_free_b_sound. vm_compute. reflexivity.
  - discriminate.
  - reflexivity.
  - discriminate.
Defined.

Lemma mgmt_join_witness :
  serve ms answers (req POST "/join" (Some "secret")) =
    Some (mkResponse 200 (Text ("OK" +:+ String "010" "")), ["node-b:7946"]) ∧
  authorized ms (req POST "/join" (Some "secret")) = true.
Proof.
  assert (E : serve ms answers (req POST "/join" (Some "secret")) =
    Some (mkResponse 200 (Text ("OK" +:+ String "010" "")), ["node-b:7946"])) by (vm_compute; reflexivity).
  exact (conj E (proj1 (proj1 (proj1 (mgmt_join _ _ _ _ _ E) "node-b:7946") eq_refl))).
Defined.

(** Another member, escapes and trailing text do not matter; of two members
    called address the last one counts. *)
Definition join_members : list (string * json) :=
  [("comment", JArray [JNumber "1"; JNull; JString ("<" +:+ String "010" ">")]);
   ("Address", JString "a:1"); ("address", JString "[fe80::1]:7946"); ("Adress", JBool true)].
Definition join_text : string := render (JObject join_members) +:+ "more".

Lemma join_request_roundtrip_witness : ∃ resp,
  serve ms answers (mkRequest POST "/join" "" (Some "secret") join_text true) = Some (resp, ["[fe80::1]:7946"]) ∧ status resp = 200.
Proof.
  destruct (join_request_roundtrip ms answers (mkRequest POST "/join" "" (Some "secret") join_text true) join_members "more")
    as [(resp & [(address & Hn & _ & E & Hst)|(Hn & _)]) _].
  - vm_compute. reflexivity.
  - reflexivity.
  - reflexivity.
  - vm_compute. reflexivity.
  - apply Z.leb_le. vm_compute. reflexivity.
  - reflexivity.
  - exists resp. assert (Hv : named_address (as_read join_members) = Some "[fe80::1]:7946") by (vm_compute; reflexivity).
    rewrite Hv in Hn. injection Hn as <-. split; [exact E|exact Hst].
  - exfalso. apply Hn. exists "[fe80::1]:7946". split; [vm_compute; reflexivity|]. exists "fe80::1", "7946".
    split; [vm_compute; reflexivity|]. split; [discriminate|]. exists 7946. split; [vm_compute; reflexivity|lia].
Defined.

Definition ev1 : ClusterEvent := mkClusterEvent 5 "join" "b" "" "2:1" "".
Definition ev2 : ClusterEvent := mkClusterEvent 9 "leave" "b" "" "" "".

Lemma ha_logs : logs (events ha) eventRingSize [].
Proof. by apply (logs_new 200). Qed.

Lemma mgmt_events_witness : handleEvents ms (req GET "/events" None) = Some (mkResponse 200 (Events [])).
Proof. exact (proj1 (mgmt_events ms (req GET "/events" None) [] ha_logs eq_refl)). Defined.

Definition two_entries : list RingEntryInfo := [mkRingEntryInfo 255 "a" "1:1"; mkRingEntryInfo 4096 "b" "2:1"].

Lemma ring_texts_ordered_witness : GoStr.ltb "00000000000000ff" "0000000000001000" = true.
Proof.
  refine (proj1 (proj2 (proj2 (ring_texts_ordered two_entries _) 0%nat 1%nat _ _ eq_refl eq_refl))).
  repeat constructor; vm_compute; (discriminate || reflexivity).
Defined.

Lemma stream_refines_witness : ∃ g,
  handleEventStream ms (req GET "/events/stream" None) (λ _, Some "{}") [Happens ev1; Woken; Happens ev2] =
    Some (g, mkResponse 200 Stream, (": connected" +:+ nl +:+ nl) +:+ "event: join" +:+ nl +:+ "data: {}" +:+ nl +:+ nl).
Proof.
  destruct (stream_refines ms (req GET "/events/stream" None) (λ _, Some "{}") [Happens ev1; Woken; Happens ev2] []
    ha_logs eq_refl) as [(g & E & _) _].
  exact (ex_intro _ g E).
Defined.
End MgmtExamples.
