(* ===== verification/EventStream.v ===== *)
(** * internal/mgmt: what a client of the management server reads

    The JSON bodies of the responses, field by field as the struct tags of
    mgmt.go and gossip.go have them, with the values a decoder reads from them,
    and the text of the event stream: a client
    that parses it by the rules of server-sent events ([sse_frames], the
    reference) gets exactly the events of the stream, in order. *)

From S2P Require Import Prelude GoStrconv GoSort GoUtf8 GoNet GoCrypto GoJson GoJsonDecode BTree Store HashRing HashRingProps.
From S2P Require Import RingInterface EventRing Gossip Instances GossipProps Resp Mgmt.
Local Open Scope Z_scope.

(** ** JSON *)

Definition json_field (name value : string) : string := json_string name +:+ ":" +:+ value.
Definition json_object (fields : list string) : string := "{" +:+ GoNet.Join fields "," +:+ "}".
Definition json_array (elements : list string) : string := "[" +:+ GoNet.Join elements "," +:+ "]".

(** [json.Marshal] of a [ClusterEvent]; an empty [Meta] is omitted. *)
Definition Marshal_event `{!TimeText} (ev : ClusterEvent) : option string :=
  t ← time_json (Timestamp ev);
  Some (json_object ([json_field "timestamp" t;
    json_field "type" (json_string (Type_ ev));
    json_field "node_name" (json_string (NodeName ev));
    json_field "address" (json_string (EventRing.Address ev));
    json_field "redis_addr" (json_string (EvRedisAddr ev))] ++
    if String.eqb (Meta ev) "" then [] else [json_field "meta" (json_string (Meta ev))])).

Definition Marshal_member (m : memberInfo) : string :=
  json_object [json_field "name" (json_string (m_name m));
    json_field "redis_addr" (json_string (m_redis_addr m));
    json_field "gossip_addr" (json_string (m_gossip_addr m));
    json_field "status" (json_string (m_status m))].

Definition Marshal_info (i : infoResponse) : string :=
  json_object [json_field "node_id" (json_string (info_node_id i));
    json_field "key_count" (Itoa (info_key_count i));
    json_field "members" (json_array (Marshal_member <$> info_members i))].

Definition Marshal_ring_entry (e : hashringAPIEntry) : string :=
  json_object [json_field "hash" (json_string (api_Hash e));
    json_field "hash_u64" (Itoa (api_HashU64 e));
    json_field "node_id" (json_string (api_NodeID e));
    json_field "address" (json_string (api_Address e))].

Definition Marshal_ring (r : ringResponse) : string :=
  json_object [json_field "local_node" (json_string (rr_LocalNode r));
    json_field "node_count" (Itoa (rr_NodeCount r));
    json_field "total_vnodes" (Itoa (rr_TotalVNodes r));
    json_field "entries" (json_array (Marshal_ring_entry <$> rr_Entries r))].

(** The bytes of a body; the encoder writes nothing after an error and a line
    feed after a value. *)
Definition body_text `{!TimeText} (dashboardHTML : string) (b : Body) : string :=
  match b with
  | Text s => s
  | Dashboard => dashboardHTML
  | Info i => Marshal_info i +:+ nl
  | Events es => match mapM Marshal_event es with
                 | Some ts => json_array ts +:+ nl
                 | None => ""
                 end
  | RingInfo r => Marshal_ring r +:+ nl
  | Stream => ""
  end.

(** ** The bodies as JSON values *)

Definition event_json (time : string) (ev : ClusterEvent) : json :=
  JObject ([("timestamp", JString time); ("type", JString (Type_ ev)); ("node_name", JString (NodeName ev));
    ("address", JString (EventRing.Address ev)); ("redis_addr", JString (EvRedisAddr ev))] ++
    if String.eqb (Meta ev) "" then [] else [("meta", JString (Meta ev))]).

Definition member_json (m : memberInfo) : json :=
  JObject [("name", JString (m_name m)); ("redis_addr", JString (m_redis_addr m));
    ("gossip_addr", JString (m_gossip_addr m)); ("status", JString (m_status m))].

Definition info_json (i : infoResponse) : json :=
  JObject [("node_id", JString (info_node_id i)); ("key_count", JNumber (Itoa (info_key_count i)));
    ("members", JArray (member_json <$> info_members i))].

Definition ring_entry_json (e : hashringAPIEntry) : json :=
  JObject [("hash", JString (api_Hash e)); ("hash_u64", JNumber (Itoa (api_HashU64 e)));
    ("node_id", JString (api_NodeID e)); ("address", JString (api_Address e))].

Definition ring_json (r : ringResponse) : json :=
  JObject [("local_node", JString (rr_LocalNode r)); ("node_count", JNumber (Itoa (rr_NodeCount r)));
    ("total_vnodes", JNumber (Itoa (rr_TotalVNodes r))); ("entries", JArray (ring_entry_json <$> rr_Entries r))].

(** Integers fit in 64 bits. *)
Definition int_ok (n : Z) : bool := (minInt64 <=? n) && (n <=? maxUint64).

Definition body_ints (b : Body) : bool :=
  match b with
  | Info i => int_ok (info_key_count i)
  | RingInfo r => int_ok (rr_NodeCount r) && int_ok (rr_TotalVNodes r) && forallb (λ e, int_ok (api_HashU64 e)) (rr_Entries r)
  | _ => true
  end.

(** Moreover texts are UTF-8. *)
Definition body_ok (b : Body) : bool :=
  match b with
  | Info i => ValidString (info_node_id i) && int_ok (info_key_count i) &&
      forallb (λ m, forallb ValidString [m_name m; m_redis_addr m; m_gossip_addr m; m_status m]) (info_members i)
  | RingInfo r => ValidString (rr_LocalNode r) && int_ok (rr_NodeCount r) && int_ok (rr_TotalVNodes r) &&
      forallb (λ e, forallb ValidString [api_Hash e; api_NodeID e; api_Address e] && int_ok (api_HashU64 e)) (rr_Entries r)
  | Events es =>
      forallb (λ ev, forallb ValidString [Type_ ev; NodeName ev; EventRing.Address ev; EvRedisAddr ev; Meta ev]) es
  | _ => true
  end.

(** A JSON decoder reads [v] from the text of the body. *)
Definition readable `{!TimeText} (b : Body) (v : json) : Prop :=
  ∀ html n, GoStr.len (body_text html b) ≤ n → GoJsonDecode.readValue n (body_text html b) = inr v.

(** ** Server-sent events *)

(** Lines end at CR LF, LF or CR; the rest after the last one is incomplete. *)
Fixpoint sse_lines (s cur : string) : list string :=
  match s with
  | EmptyString => []
  | String c s' =>
      if Ascii.eqb c CR then
        cur :: match s' with
               | String d s'' => if Ascii.eqb d LF then sse_lines s'' "" else sse_lines s' ""
               | EmptyString => []
               end
      else if Ascii.eqb c LF then cur :: sse_lines s' ""
      else sse_lines s' (cur +:+ String c "")
  end.

Definition strip_space (v : string) : string :=
  match v with String c v' => if Ascii.eqb c " " then v' else v | EmptyString => "" end.

(** A line is an end of frame, a comment, or a field with its value. *)
Fixpoint sse_parse (lines : list string) (event : string) (data : list string) : list (string * string) :=
  match lines with
  | [] => []
  | l :: lines' =>
      if String.eqb l "" then
        match data with
        | [] => sse_parse lines' "" []
        | _ :: _ => (event, GoNet.Join data nl) :: sse_parse lines' "" []
        end
      else
        let '(field, value) := match cut_first ":" l with
                               | Some (f, v) => (f, strip_space v)
                               | None => (l, "")
                               end in
        if String.eqb field "event" then sse_parse lines' value data
        else if String.eqb field "data" then sse_parse lines' event (data ++ [value])
        else sse_parse lines' event data
  end.

Definition sse_frames (s : string) : list (string * string) := sse_parse (sse_lines s "") "" [].

Example sse_example :
  sse_frames (": hi" +:+ CRLF +:+ CRLF +:+ "event: join" +:+ nl +:+ "data: a" +:+ nl +:+ "data:b" +:+ nl +:+ nl +:+ "data: cut")
  = [("join", "a" +:+ nl +:+ "b")].
Proof. vm_compute. reflexivity. Qed.

(** ** Facts *)

Lemma printable_cons c s : printable (String c s) = true →
  Ascii.eqb c CR = false ∧ Ascii.eqb c LF = false ∧ printable s = true.
Proof.
  cbn [printable]. intros [Hc Hs]%andb_prop. apply Z.leb_le in Hc. split_and!; [| |done];
    apply Ascii.eqb_neq; intros ->; vm_compute in Hc; by apply Hc.
Qed.

Lemma sse_lines_line l rest : printable l = true → ∀ cur,
  sse_lines (l +:+ nl +:+ rest) cur = (cur +:+ l) :: sse_lines rest "".
Proof.
  induction l as [|c l IH]; intros Hp cur.
  - by rewrite string_app_nil_r.
  - apply printable_cons in Hp as (Ha & Hb & Hp). change (String c l +:+ nl +:+ rest) with (String c (l +:+ nl +:+ rest)). cbn [sse_lines].
    rewrite Ha, Hb, IH by done. by rewrite string_app_assoc.
Qed.

Lemma Join_printable parts sep : Forall (λ p, printable p = true) parts → printable sep = true →
  printable (GoNet.Join parts sep) = true.
Proof.
  intros Hall Hsep. induction Hall as [|p parts Hp Hall IH]; [done|]. cbn [GoNet.Join].
  destruct parts as [|q parts]; [done|]. by rewrite !printable_app, Hp, Hsep, IH.
Qed.

Lemma json_field_printable n v : printable v = true → printable (json_field n v) = true.
Proof. intros Hv. unfold json_field. by rewrite !printable_app, json_string_printable, Hv. Qed.

Lemma json_object_printable fs : Forall (λ p, printable p = true) fs → printable (json_object fs) = true.
Proof. intros Hf. unfold json_object. rewrite !printable_app. by rewrite (Join_printable fs ","). Qed.

#[export] Hint Resolve json_field_printable json_string_printable : hap.

Section facts.
Context `{!TimeText, !TimeTextLaws}.

(** The data of a frame is one line. *)
Lemma Marshal_event_printable ev data : Marshal_event ev = Some data → printable data = true.
Proof.
  unfold Marshal_event. destruct (time_json (Timestamp ev)) as [t|] eqn:Et; [|done].
  apply time_quoted in Et as (raw & -> & _). intros [= <-]. apply json_object_printable.
  destruct (String.eqb (Meta ev) ""); repeat constructor; auto with hap.
Qed.

(** The frames of the rounds of a stream. *)
Definition wake_frame (w : Wake) : option (string * string) :=
  match w with
  | Heartbeat => None
  | Received ev => (λ data, (Type_ ev, data)) <$> Marshal_event ev
  end.

Definition one_line (w : Wake) : bool :=
  match w with Heartbeat => true | Received ev => printable (Type_ ev) end.

Lemma stream_text_frames ws : forallb one_line ws = true →
  sse_frames (stream_text Marshal_event ws) = omap wake_frame ws.
Proof.
  unfold sse_frames. induction ws as [|w ws IH]; intros Hw; [done|]. cbn [forallb] in Hw.
  apply andb_prop in Hw as [Ho Hw]. specialize (IH Hw). change (stream_text Marshal_event (w :: ws)) with
    (stream_chunk Marshal_event w +:+ stream_text Marshal_event ws).
  destruct w as [|ev]; cbn [stream_chunk omap list_omap wake_frame].
  - rewrite !string_app_assoc, (sse_lines_line ": heartbeat") by done. exact IH.
  - destruct (Marshal_event ev) as [data|] eqn:Ed; cbn [fmap option_fmap option_map]; [|exact IH].
    rewrite !string_app_assoc.
    assert (E : "event: " +:+ Type_ ev +:+ nl +:+ "data: " +:+ data +:+ nl +:+ nl +:+ stream_text Marshal_event ws =
      ("event: " +:+ Type_ ev) +:+ nl +:+ ("data: " +:+ data) +:+ nl +:+ "" +:+ nl +:+ stream_text Marshal_event ws)
      by (by rewrite !string_app_assoc).
    rewrite E. pose proof (Marshal_event_printable ev data Ed) as Hd.
    rewrite !sse_lines_line by (rewrite ?printable_app; (done || by rewrite Hd)).
    cbn -[GoNet.Join nl]. by rewrite IH.
Qed.
End facts.

(** The encoders write the values of their bodies. *)
Lemma info_text i : Marshal_info i = render (info_json i).
Proof. destruct i as [id n ms]. unfold Marshal_info, info_json, json_array. cbn [render fmap list_fmap fst snd].
  rewrite <-list_fmap_compose. reflexivity. Qed.

Lemma ring_text r : Marshal_ring r = render (ring_json r).
Proof. destruct r as [id n t es]. unfold Marshal_ring, ring_json, json_array. cbn [render fmap list_fmap fst snd].
  rewrite <-list_fmap_compose. reflexivity. Qed.

Lemma event_text `{!TimeText, !TimeTextLaws} ev : is_Some (time_json (Timestamp ev)) →
  ∃ time, time_json (Timestamp ev) = Some (json_string time) ∧ ValidString time = true ∧
    Marshal_event ev = Some (render (event_json time ev)).
Proof.
  intros [t Et]. destruct (time_quoted _ _ Et) as (time & -> & Hv). exists time. split_and!; [done|done|].
  unfold Marshal_event, event_json. rewrite Et. cbn [mbind option_bind]. by destruct (String.eqb (Meta ev) "").
Qed.

Lemma int_ok_number n : int_ok n = true → number_ok (Itoa n) = true.
Proof.
  intros [H1 H2]%andb_prop. apply Z.leb_le in H1, H2. unfold minInt64, maxUint64 in *. apply Itoa_number_ok. lia.
Qed.

Lemma readable_render `{!TimeText} b v : (∀ html, body_text html b = render v +:+ nl) → numbers_ok v = true →
  readable b (repair v).
Proof. intros Ht Hok html n Hn. rewrite Ht in *. apply readValue_render; [done|by left]. Qed.

(** The numbers of the bodies follow the grammar. *)
Lemma info_numbers i : body_ints (Info i) = true → numbers_ok (info_json i) = true.
Proof.
  intros Hi%int_ok_number. cbn [numbers_ok info_json forallb snd]. rewrite Hi. cbn [andb]. rewrite andb_true_r.
  apply forallb_forall. by intros v [m [<- _]]%in_map_iff.
Qed.

Lemma ring_numbers r : body_ints (RingInfo r) = true → numbers_ok (ring_json r) = true.
Proof.
  cbn [body_ints]. intros [[H1%int_ok_number H2%int_ok_number]%andb_prop H3]%andb_prop.
  cbn [numbers_ok ring_json forallb snd]. rewrite H1, H2. cbn [andb]. rewrite andb_true_r.
  apply forallb_forall. intros v [e [<- Hin]]%in_map_iff. pose proof (proj1 (forallb_forall _ _) H3 e Hin) as He%int_ok_number.
  cbn [numbers_ok ring_entry_json forallb snd]. by rewrite He.
Qed.

(** Unfold [json_ok] on an object whose names are literals. *)
Ltac json_ok_fields :=
  unfold info_json, member_json, ring_json, ring_entry_json, event_json;
  cbn [json_ok forallb fst snd List.app]; rewrite ?forallb_app; cbn [json_ok forallb fst snd];
  repeat match goal with |- context [ValidString (String ?c ?s)] => change (ValidString (String c s)) with true end;
  cbn [andb].

Lemma info_ok i : body_ok (Info i) = true → json_ok (info_json i) = true.
Proof.
  cbn [body_ok]. intros [[H1 H2%int_ok_number]%andb_prop H3]%andb_prop. json_ok_fields. rewrite H1, H2. cbn [andb].
  rewrite andb_true_r. apply forallb_forall. intros v [m [<- Hin]]%in_map_iff.
  pose proof (proj1 (forallb_forall _ _) H3 m Hin) as Hv. json_ok_fields. exact Hv.
Qed.

Lemma ring_ok_json r : body_ok (RingInfo r) = true → json_ok (ring_json r) = true.
Proof.
  cbn [body_ok]. intros [[[H1 H2%int_ok_number]%andb_prop H3%int_ok_number]%andb_prop H4]%andb_prop.
  json_ok_fields. rewrite H1, H2, H3. cbn [andb]. rewrite andb_true_r. apply forallb_forall.
  intros v [e [<- Hin]]%in_map_iff. pose proof (proj1 (forallb_forall _ _) H4 e Hin) as He. cbn [forallb] in He.
  apply andb_prop in He as [He Hn%int_ok_number]. json_ok_fields. rewrite Hn. exact He.
Qed.

Lemma events_text `{!TimeText, !TimeTextLaws} es : (∀ ev, ev ∈ es → is_Some (time_json (Timestamp ev))) →
  ∃ vs, mapM Marshal_event es = Some (render <$> vs) ∧ forallb numbers_ok vs = true ∧
    Forall2 (λ ev v, ∃ time, time_json (Timestamp ev) = Some (json_string time) ∧ ValidString time = true ∧
      v = event_json time ev) es vs.
Proof.
  induction es as [|ev es IH]; [by exists []|]. intros Ht.
  destruct IH as (vs & Em & Hok & Hall). { intros e He. apply Ht, elem_of_cons. by right. }
  destruct (event_text ev) as (time & Et & Hv & Ev). { apply Ht, elem_of_cons. by left. }
  exists (event_json time ev :: vs). split; [cbn [mapM]; rewrite Ev; cbn [mbind option_bind]; by rewrite Em|].
  split; [|constructor; [by exists time|done]]. cbn [forallb]. rewrite Hok, andb_true_r.
  unfold event_json. by destruct (String.eqb (Meta ev) "").
Qed.

Lemma event_json_ok time ev : ValidString time = true →
  forallb ValidString [Type_ ev; NodeName ev; EventRing.Address ev; EvRedisAddr ev; Meta ev] = true →
  json_ok (event_json time ev) = true.
Proof.
  intros Hv Hev. cbn [forallb] in Hev. rewrite !andb_true_iff in Hev. destruct Hev as (E1 & E2 & E3 & E4 & E5 & _).
  json_ok_fields. rewrite Hv, E1, E2, E3, E4. destruct (String.eqb (Meta ev) ""); [done|].
  json_ok_fields. by rewrite E5.
Qed.

Lemma events_repair `{!TimeText} es vs : body_ok (Events es) = true →
  Forall2 (λ ev v, ∃ time, time_json (Timestamp ev) = Some (json_string time) ∧ ValidString time = true ∧
    v = event_json time ev) es vs → repair <$> vs = vs.
Proof.
  cbn [body_ok]. intros Hok Hall. induction Hall as [|ev v es vs (time & _ & Hv & ->) _ IH]; [done|].
  cbn [forallb] in Hok. apply andb_prop in Hok as [Hev Hok]. cbn [fmap list_fmap]. f_equal; [|by apply IH].
  by apply json_ok_repair, event_json_ok.
Qed.

(** What a stream receives has happened, in order. *)
Lemma stream_spec_received xs : ∀ q, let '(ws, q') := stream_spec q xs in
  ∀ ev, ev ∈ received ws → ev ∈ q ∨ ev ∈ happened xs.
Proof.
  induction xs as [|x xs IH]; intros q; [by intros ev ?%elem_of_nil|].
  destruct x as [| |e]; cbn [stream_spec].
  - specialize (IH q). destruct (stream_spec q xs) as [ws q']. exact IH.
  - destruct q as [|e q].
    + specialize (IH []). destruct (stream_spec [] xs) as [ws q']. exact IH.
    + specialize (IH q). destruct (stream_spec q xs) as [ws q']. cbn. intros ev [->|Hin]%elem_of_cons.
      * left. apply elem_of_cons. by left.
      * destruct (IH ev Hin); [left; apply elem_of_cons; by right|by right].
  - specialize (IH (if Z.of_nat (length q) <? 32 then q ++ [e] else q)).
    destruct (stream_spec _ xs) as [ws q']. cbn. intros ev [Hq|Hh]%IH; [|right; apply elem_of_cons; by right].
    destruct (_ <? _); [|by left]. apply elem_of_app in Hq as [Hq| ->%list_elem_of_singleton]; [by left|].
    right. apply elem_of_cons. by left.
Qed.

Lemma received_one_line ws : (∀ ev, ev ∈ received ws → printable (Type_ ev) = true) → forallb one_line ws = true.
Proof.
  induction ws as [|[|ev] ws IH]; cbn; intros Hall; [done|by apply IH|].
  rewrite Hall by (apply elem_of_cons; by left). apply IH. intros e He. apply Hall, elem_of_cons. by right.
Qed.

(** The frames and the events they tell of. *)
Lemma wake_frames_match `{!TimeText} ws : (∀ ev, ev ∈ received ws → is_Some (Marshal_event ev)) →
  Forall2 (λ ev f, f.1 = Type_ ev ∧ Marshal_event ev = Some f.2) (received ws) (omap wake_frame ws).
Proof.
  induction ws as [|[|ev] ws IH]; cbn; intros Hall; [constructor|by apply IH|].
  destruct (Hall ev) as [data E]; [apply elem_of_cons; by left|]. rewrite E. cbn.
  constructor; [done|]. apply IH. intros e He. apply Hall, elem_of_cons. by right.
Qed.

(** ** Properties *)

Section properties.
Context `{!BTreeOps item, !BTreeLaws less, !Hashring, !HashringLaws, !TimeText, !TimeTextLaws}.

(** C35: The event stream can be read back.  Whatever node names, addresses and
    metadata the events carry, line feeds and control characters included, the
    text written parses, by the rules of server-sent events, into one frame
    per received event, in order, with the event's type and its JSON on one
    line; greeting and heartbeats are comments.  A client that is never more
    than 32 events behind, with times that can be encoded, reads the events in
    the order they happened, and misses at most those still queued when it
    leaves. *)
Theorem stream_frames s r xs es :
  logs (events (mgmt_gossip s)) eventRingSize es → flusher r = true →
  (∀ ev, ev ∈ happened xs → printable (Type_ ev) = true) →
  ∃ g out, handleEventStream s r Marshal_event xs = Some (g, mkResponse 200 Stream, out) ∧
    sse_frames out = omap wake_frame (stream_spec [] xs).1 ∧
    (keeps_up [] xs = true → (∀ ev, ev ∈ happened xs → is_Some (Marshal_event ev)) →
     ∃ got, happened xs = got ++ (stream_spec [] xs).2 ∧
       Forall2 (λ ev f, f.1 = Type_ ev ∧ Marshal_event ev = Some f.2) got (sse_frames out)).
Proof.
  intros Hl Hf Ht. pose proof (stream_spec_received xs []) as Hrec. pose proof (keeps_up_complete [] xs) as Hk.
  unfold handleEventStream. rewrite Hf. cbn [negb]. unfold Subscribe.
  match goal with |- context [stream_loop Marshal_event ?id (?g, ?out) xs] =>
    pose proof (stream_loop_spec Marshal_event id xs g out [] es Hl (lookup_insert_eq _ _ _)) as Hs
  end.
  destruct (stream_spec [] xs) as [ws q]. destruct Hs as (g & E & _).
  assert (Hin : ∀ ev, ev ∈ received ws → ev ∈ happened xs).
  { intros ev [Hn|?]%Hrec; [by apply elem_of_nil in Hn|done]. }
  assert (Hframes : sse_frames ((": connected" +:+ nl +:+ nl) +:+ stream_text Marshal_event ws) = omap wake_frame ws).
  { rewrite <-stream_text_frames; [|apply received_one_line; auto]. unfold sse_frames.
    rewrite !string_app_assoc, (sse_lines_line ": connected") by done. reflexivity. }
  eexists _, _. rewrite E. cbn [mbind option_bind]. split; [reflexivity|]. split; [exact Hframes|].
  intros Hup Hm. exists (received ws). split; [by apply Hk|]. rewrite Hframes. apply wake_frames_match. auto.
Qed.

(** What the three JSON endpoints answer. *)
Definition info_of (s : Mgmt) (a : Answers) : infoResponse :=
  mkInfo (NodeID_ (mgmt_gossip s)) (KeyCount (mgmt_gossip s))
    ((λ m, mkMember (mi_Name m) (mi_RedisAddr m) (mi_Addr m) (mi_Status m)) <$> ans_members a).

Definition ring_of (s : Mgmt) : ringResponse :=
  let es := ring_RingSnapshot (h_ring (mgmt_gossip s)) in
  mkRingResponse (NodeID_ (mgmt_gossip s)) (Z.of_nat (size (list_to_set (info_NodeID <$> es) : gset string)))
    (Z.of_nat (length es)) (toAPIRingEntries es).

Definition events_of (r : Request) (es : list ClusterEvent) : list ClusterEvent :=
  drop (length es - Z.to_nat (Z.min (events_n (query_n r)) (Z.of_nat (length es)))) es.

(** C37: Clients can read the API.  An authorized GET of /info, /ring or /events
    is answered with JSON that a decoder reads back field by field: the node,
    its number of keys and its members, the virtual nodes with all 64 bits of
    their hashes, the latest events in order (when their times can be encoded).
    Numbers of up to 64 bits are unchanged.  Names and addresses may contain
    quotes, markup, control characters and bytes that are not UTF-8: every text
    is read with each byte outside a valid rune replaced by U+FFFD ([repair]),
    so texts that are UTF-8 are unchanged. *)
Theorem api_readable s a r es : authorized s r = true → method r = GET →
  logs (events (mgmt_gossip s)) eventRingSize es →
  (path r = "/info" → serve s a r = Some (mkResponse 200 (Info (info_of s a)), []) ∧
    (body_ints (Info (info_of s a)) = true → readable (Info (info_of s a)) (repair (info_json (info_of s a)))) ∧
    (body_ok (Info (info_of s a)) = true → repair (info_json (info_of s a)) = info_json (info_of s a))) ∧
  (path r = "/ring" → serve s a r = Some (mkResponse 200 (RingInfo (ring_of s)), []) ∧
    (body_ints (RingInfo (ring_of s)) = true → readable (RingInfo (ring_of s)) (repair (ring_json (ring_of s)))) ∧
    (body_ok (RingInfo (ring_of s)) = true → repair (ring_json (ring_of s)) = ring_json (ring_of s))) ∧
  (path r = "/events" → serve s a r = Some (mkResponse 200 (Events (events_of r es)), []) ∧
    ((∀ ev, ev ∈ events_of r es → is_Some (time_json (Timestamp ev))) →
     ∃ vs, readable (Events (events_of r es)) (JArray (repair <$> vs)) ∧
       Forall2 (λ ev v, ∃ time, time_json (Timestamp ev) = Some (json_string time) ∧ ValidString time = true ∧
         v = event_json time ev) (events_of r es) vs ∧
       (body_ok (Events (events_of r es)) = true → repair <$> vs = vs))).
Proof.
  intros Ha Hm Hl. unfold serve, route. rewrite Ha. split_and!; intros Hp; rewrite Hp; split_and!.
  - cbn. unfold handleInfo. by rewrite bool_decide_eq_true_2.
  - intros Hi. apply readable_render; [|by apply info_numbers]. intros html. cbn [body_text]. by rewrite info_text.
  - intros Hok. by apply json_ok_repair, info_ok.
  - cbn. unfold handleRing. by rewrite bool_decide_eq_true_2.
  - intros Hi. apply readable_render; [|by apply ring_numbers]. intros html. cbn [body_text]. by rewrite ring_text.
  - intros Hok. by apply json_ok_repair, ring_ok_json.
  - cbn. by rewrite (proj1 (mgmt_events s r es Hl Hm)).
  - intros Ht. destruct (events_text _ Ht) as (vs & Em & Hvs & Hall). exists vs. split; [|split; [done|]].
    + apply (readable_render _ (JArray vs)); [|exact Hvs]. intros html. cbn [body_text]. by rewrite Em.
    + intros Hok. by apply (events_repair (events_of r es)).
Qed.
End properties.

(** ** Witness *)

Module StreamExamples.
#[local] Existing Instances SortedList.ops SortedList_laws MergeSort MergeSort_laws.
#[local] Existing Instances demo_proto demo_proto_laws demo_range demo_range_laws demo_ring demo_ring_laws demo_xxhash.
#[local] Instance demo_time : TimeText := λ _, Some (json_string "2026-01-02T03:04:05Z").
#[local] Instance demo_time_laws : TimeTextLaws.
Proof. intros t s [= <-]. by eexists. Qed.
Import GossipExamples MgmtExamples.

(** A node name with a line feed cannot forge a frame. *)
Definition evil : ClusterEvent := mkClusterEvent 7 "join" ("x" +:+ nl +:+ nl +:+ "event: leave") "" "2:1" "".

Lemma stream_frames_witness : ∃ g out data,
  handleEventStream ms (req GET "/events/stream" None) Marshal_event [Happens evil; Ticked; Woken] =
    Some (g, mkResponse 200 Stream, out) ∧ sse_frames out = [("join", data)].
Proof.
  destruct (stream_frames ms (req GET "/events/stream" None) [Happens evil; Ticked; Woken] [] ha_logs eq_refl)
    as (g & out & E & Hf & _).
  { intros ev ->%list_elem_of_singleton. reflexivity. }
  exists g, out. eexists. split; [exact E|]. rewrite Hf. vm_compute. reflexivity.
Defined.

(** A node name with a quote, a tag and a line feed. *)
Definition odd_members : Answers :=
  mkAnswers [mkMemberInfo ("b" +:+ String "034" ("<b>" +:+ nl)) "1:1" "2:1" "alive"] (λ _, None).

Lemma api_readable_witness :
  GoJsonDecode.readValue 4096 (body_text "" (Info (info_of ms odd_members))) = inr (info_json (info_of ms odd_members)).
Proof.
  assert (Ha : authorized ms (req GET "/info" (Some "secret")) = true) by (vm_compute; reflexivity).
  destruct (proj1 (api_readable ms odd_members (req GET "/info" (Some "secret")) [] Ha eq_refl ha_logs) eq_refl) as (_ & Hr & Hid).
  rewrite <-Hid by (vm_compute; reflexivity). apply (Hr ltac:(vm_compute; reflexivity) "" 4096). apply Z.leb_le. vm_compute. reflexivity.
Defined.

(** A byte that is not UTF-8 in a node name is read as the replacement
    character. *)
Example repair_example :
  repair (member_json (mkMember (String "255" "b") "1:1" "2:1" "alive")) =
  member_json (mkMember (replacement +:+ "b") "1:1" "2:1" "alive").
Proof. vm_compute. reflexivity. Qed.
End StreamExamples.
