(* ===== verification/Transport.v ===== *)
(** * internal/gossip: the transports

    [memberlistTransport] (memberlist_transport.go) adapts hashicorp/memberlist
    to the handler: it lists the members, finds a peer by name, and turns the
    notifications of memberlist into the callbacks of [Gossip].  [TLSTransport]
    (tls_transport.go) puts TLS on the streams of memberlist.

    memberlist and crypto/tls are not in the repository: their answers are
    arguments or the non-determinism of the step relation, and of their data
    only the fields the adapter reads are kept. *)

From S2P Require Import Prelude GoStrconv GoSort GoNet GoCrypto GoUtf8 BTree Store HashRing HashRingProps.
From S2P Require Import RingInterface EventRing Gossip Instances GossipProps Resp Server.
Local Open Scope Z_scope.

(** ** Data *)

(** [memberlist.Node], with [Addr] as the text of the IP address. *)
Inductive NodeState := StateAlive | StateSuspect | StateDead | StateLeft.
Record mlNode := mkNode {
  node_Name : string;
  node_Addr : string;
  node_Port : Z;
  node_Meta : string;
  node_State : NodeState;
}.

(** What the adapter asks of a running memberlist. *)
Record Memberlist := mkMemberlist { ml_Members : list mlNode; ml_LocalName : string }.

Record TransportConfig := mkTransportConfig {
  tc_NodeID : string;
  tc_BindAddr : string;
  tc_BindPort : Z;
  tc_RedisAddr : string;
  tc_TLS : bool;
  tc_SecretKey : string;
}.

Section adapter.
Context `{!BTreeOps item, !Hashring, !Proto, !SliceSort, !MapRange}.

(** The callbacks of the handler; each may be nil.  A callback works on the
    handler's state, which it gets and returns; [None] as a result is a panic. *)
Record TransportHandlers := mkHandlers {
  OnMessage : option (Handler → (string → bool) → string → Handler * list Packet);
  OnJoin : option (Handler → Z → string → string → option Handler);
  OnLeave : option (Handler → Z → string → option Handler);
  OnUpdate : option (Handler → Z → string → string → option Handler);
  OnLocalState : option (Handler → option string);
  OnMergeRemoteState : option (Handler → string → Handler);
}.

Definition no_handlers : TransportHandlers := mkHandlers None None None None None None.

(** What [Handler.Start] registers. *)
Definition handler_callbacks : TransportHandlers :=
  mkHandlers (Some handleMessage) (Some handleJoin) (Some handleLeave) (Some handleUpdate)
    (Some handleLocalState) (Some handleMergeRemoteState).

Record memberlistTransport := mkTransport {
  t_cfg : TransportConfig;
  mlist : option Memberlist;
  t_handlers : TransportHandlers;
}.

Definition NewMemberlistTransport : memberlistTransport :=
  mkTransport (mkTransportConfig "" "" 0 "" false "") None no_handlers.

Definition SetHandlers (m : memberlistTransport) (h : TransportHandlers) : memberlistTransport :=
  mkTransport (t_cfg m) (mlist m) h.

(** ** The adapter *)

(** [Start]: [tls] is the outcome of [NewTLSTransport], [create] that of
    [memberlist.Create].  The error is the first component. *)
Definition Start (cfg : TransportConfig) (tls : option string) (create : string + Memberlist)
    (m : memberlistTransport) : option string * memberlistTransport :=
  let m := mkTransport cfg (mlist m) (t_handlers m) in
  match (if tc_TLS cfg then tls else None) with
  | Some err => (Some ("gossip: create tls transport: " +:+ err), m)
  | None =>
      match create with
      | inl err => (Some ("gossip: create memberlist: " +:+ err), m)
      | inr l => (None, mkTransport cfg (Some l) (t_handlers m))
      end
  end.

(** [Join] hands the seeds to memberlist; [None] is the nil pointer of a
    transport that was not started. *)
Definition Join (m : memberlistTransport) (join : list string → Z * option string) (seeds : list string)
    : option (Z * option string) :=
  _ ← mlist m; Some (join seeds).

(** [Leave] and [Shutdown]; the arguments are the answers of memberlist. *)
Definition Shutdown (m : memberlistTransport) (shutdown : option string) : option string :=
  match mlist m with None => None | Some _ => shutdown end.

Definition Leave (m : memberlistTransport) (leave shutdown : option string) : option string :=
  match mlist m with
  | None => None
  | Some _ => match leave with Some err => Some err | None => shutdown end
  end.

Definition LocalNodeID (m : memberlistTransport) : string :=
  match mlist m with None => tc_NodeID (t_cfg m) | Some l => ml_LocalName l end.

Definition status_text (s : NodeState) : string :=
  match s with
  | StateSuspect => "suspect"
  | StateDead => "dead"
  | StateLeft => "left"
  | StateAlive => "alive"
  end.

(** The Redis address of a node: its metadata, or its IP address. *)
Definition redis_addr (nd : mlNode) : string :=
  let redisAddr := DecodeMetaRedisAddr (node_Meta nd) in
  if String.eqb redisAddr "" then node_Addr nd else redisAddr.

Definition member_info (nd : mlNode) : MemberInfo :=
  mkMemberInfo (node_Name nd) (redis_addr nd) (JoinHostPort (node_Addr nd) (Itoa (node_Port nd)))
    (status_text (node_State nd)).

Definition Members (m : memberlistTransport) : list MemberInfo :=
  match mlist m with None => [] | Some l => member_info <$> ml_Members l end.

(** The loop of [SendReliable] over the members; [send] is memberlist's own
    [SendReliable]. *)
Fixpoint send_loop (nodes : list mlNode) (nodeID : string) (send : mlNode → option string) : option string :=
  match nodes with
  | [] => Some ("gossip: peer " +:+ nodeID +:+ " not found")
  | nd :: nodes' => if String.eqb (node_Name nd) nodeID then send nd else send_loop nodes' nodeID send
  end.

(** The outer [None] is the nil pointer of a transport that was not started. *)
Definition SendReliable (m : memberlistTransport) (nodeID : string) (send : mlNode → option string)
    : option (option string) :=
  l ← mlist m; Some (send_loop (ml_Members l) nodeID send).

(** ** The delegate *)

(** [NodeMeta], cut off at the limit of memberlist; [""] is nil. *)
Definition NodeMeta (m : memberlistTransport) (limit : Z) : string :=
  match MarshalMeta (tc_RedisAddr (t_cfg m)) with
  | None => ""
  | Some buf => if limit <? GoStr.len buf then String.substring 0 (Z.to_nat limit) buf else buf
  end.

Definition NotifyMsg (m : memberlistTransport) (h : Handler) (send_ok : string → bool) (msg : string)
    : Handler * list Packet :=
  match OnMessage (t_handlers m) with Some f => f h send_ok msg | None => (h, []) end.

Definition LocalState (m : memberlistTransport) (h : Handler) : option string :=
  match OnLocalState (t_handlers m) with Some f => f h | None => None end.

Definition MergeRemoteState (m : memberlistTransport) (h : Handler) (buf : string) : Handler :=
  match OnMergeRemoteState (t_handlers m) with Some f => f h buf | None => h end.

Definition NotifyJoin (m : memberlistTransport) (h : Handler) (now : Z) (nd : mlNode) : option Handler :=
  match OnJoin (t_handlers m) with Some f => f h now (node_Name nd) (redis_addr nd) | None => Some h end.

Definition NotifyLeave (m : memberlistTransport) (h : Handler) (now : Z) (nd : mlNode) : option Handler :=
  match OnLeave (t_handlers m) with Some f => f h now (node_Name nd) | None => Some h end.

Definition NotifyUpdate (m : memberlistTransport) (h : Handler) (now : Z) (nd : mlNode) : option Handler :=
  match OnUpdate (t_handlers m) with
  | Some f => f h now (node_Name nd) (DecodeMetaRedisAddr (node_Meta nd))
  | None => Some h
  end.
End adapter.
Arguments memberlistTransport {_ _}.

(** ** Broadcasts *)

Record mlBroadcast := mkBroadcast { b_buf : string; b_name : string }.

(** [other] is [None] when it is a broadcast of another type. *)
Definition Invalidates (b : mlBroadcast) (other : option mlBroadcast) : bool :=
  match other with None => false | Some o => String.eqb (b_name b) (b_name o) end.
Definition Message (b : mlBroadcast) : string := b_buf b.

(** [Broadcast] puts a broadcast into memberlist's queue and never fails. *)
Definition Broadcast {Q} (queue : mlBroadcast → Q → Q) (buf dedupKey : string) (q : Q) : option string * Q :=
  (None, queue (mkBroadcast buf dedupKey) q).

(** [GetBroadcasts] takes from the same queue what fits into a packet. *)
Definition GetBroadcasts {Q} (take : Z → Z → Q → list string * Q) (overhead limit : Z) (q : Q) : list string * Q :=
  take overhead limit q.

(** ** Outgoing TLS connections *)

Definition Conn : Type := Z.

(** The server name of the configuration for one connection. *)
Definition dialTLSConfig (base serverName : string) : string :=
  if negb (String.eqb serverName "") && String.eqb base "" then serverName else base.

(** [dial] is the raw connection or an error, [handshake] the outcome of the
    client handshake for a connection and a server name.  The list has the
    raw connections that were closed. *)
Definition DialAddressTimeout (base : string) (dial : string + Conn) (handshake : Conn → string → option string)
    (name : string) : (string + Conn) * list Conn :=
  match dial with
  | inl err => (inl err, [])
  | inr raw =>
      match handshake raw (dialTLSConfig base name) with
      | Some err => (inl err, [raw])
      | None => (inr raw, [])
      end
  end.

Definition DialTimeout (base : string) (dial : string + Conn) (handshake : Conn → string → option string)
    (addr : string) : (string + Conn) * list Conn :=
  let host := match SplitHostPort addr with Some (h, _) => h | None => addr end in
  DialAddressTimeout base dial handshake host.

(** ** Incoming TLS connections: [streamInterceptor] *)

(** Where the goroutine is: at its first select, handling a connection (before
    the deadline is set, in the handshake, before the deadline is cleared), at
    the select that passes the connection on, or gone. *)
Inductive Stage :=
  | Selecting
  | SetDeadline (c : Conn)
  | Handshaking (c : Conn)
  | ClearDeadline (c : Conn)
  | Passing (c : Conn)
  | Exited.

(** [raw] is the channel of the inner transport, [arrived] all that was ever
    put in it, [passed] what the stream channel has handed out, [closed] the
    connections the interceptor has closed, [verified] those whose handshake
    succeeded. *)
Record Interceptor := mkInterceptor {
  stage : Stage;
  raw : list Conn;
  raw_closed : bool;
  shut : bool;
  arrived : list Conn;
  passed : list Conn;
  closed : list Conn;
  verified : gset Conn;
}.

Definition interceptor0 : Interceptor := mkInterceptor Selecting [] false false [] [] [] ∅.

Definition set_stage (i : Interceptor) (s : Stage) : Interceptor :=
  mkInterceptor s (raw i) (raw_closed i) (shut i) (arrived i) (passed i) (closed i) (verified i).
Definition close_conn (i : Interceptor) (c : Conn) (s : Stage) : Interceptor :=
  mkInterceptor s (raw i) (raw_closed i) (shut i) (arrived i) (passed i) (closed i ++ [c]) (verified i).

Inductive istep : Interceptor → Interceptor → Prop :=
  (** The environment: a peer connects, the inner channel is closed, somebody
      calls [Shutdown]. *)
  | arrives i c : raw_closed i = false → c ∉ arrived i →
      istep i (mkInterceptor (stage i) (raw i ++ [c]) false (shut i) (arrived i ++ [c]) (passed i) (closed i) (verified i))
  | inner_closes i :
      istep i (mkInterceptor (stage i) (raw i) true (shut i) (arrived i) (passed i) (closed i) (verified i))
  | shuts i : shut i = false →
      istep i (mkInterceptor (stage i) (raw i) (raw_closed i) true (arrived i) (passed i) (closed i) (verified i))
  (** The first select. *)
  | sees_shutdown i : stage i = Selecting → shut i = true → istep i (set_stage i Exited)
  | receives i c rest : stage i = Selecting → raw i = c :: rest →
      istep i (mkInterceptor (SetDeadline c) rest (raw_closed i) (shut i) (arrived i) (passed i) (closed i) (verified i))
  | raw_ended i : stage i = Selecting → raw i = [] → raw_closed i = true → istep i (set_stage i Exited)
  (** One connection. *)
  | deadline_set i c : stage i = SetDeadline c → istep i (set_stage i (Handshaking c))
  | deadline_fails i c : stage i = SetDeadline c → istep i (close_conn i c Selecting)
  | handshake_ok i c : stage i = Handshaking c →
      istep i (mkInterceptor (ClearDeadline c) (raw i) (raw_closed i) (shut i) (arrived i) (passed i) (closed i)
                 ({[c]} ∪ verified i))
  | handshake_fails i c : stage i = Handshaking c → istep i (close_conn i c Selecting)
  | deadline_cleared i c : stage i = ClearDeadline c → istep i (set_stage i (Passing c))
  | clear_fails i c : stage i = ClearDeadline c → istep i (close_conn i c Selecting)
  (** The second select. *)
  | passes i c : stage i = Passing c →
      istep i (mkInterceptor Selecting (raw i) (raw_closed i) (shut i) (arrived i) (passed i ++ [c]) (closed i) (verified i))
  | drops i c : stage i = Passing c → shut i = true → istep i (close_conn i c Exited).

(** [NewTLSTransport]: [net] is the outcome of [NewNetTransport], the port it
    is bound to.  A configuration with port 0 gets that port, to bind and to
    advertise; the interceptor is started. *)
Definition NewTLSTransport (bindPort advertisePort : Z) (net : string + Z) : string + (Z * Z * Interceptor) :=
  match net with
  | inl err => inl err
  | inr port => inr (if bindPort =? 0 then (port, port, interceptor0) else (bindPort, advertisePort, interceptor0))
  end.

(** [Shutdown] begins with closing [shutdownCh], which panics the second time;
    it then waits for the goroutine and returns the inner transport's error.
    The first component is the state while it waits. *)
Definition tls_Shutdown (i : Interceptor) (inner : option string) : option (Interceptor * (Interceptor → option (option string))) :=
  if shut i then None
  else Some (mkInterceptor (stage i) (raw i) (raw_closed i) true (arrived i) (passed i) (closed i) (verified i),
             λ j, match stage j with Exited => Some inner | _ => None end).

(** ** The whole transport, as memberlist sees it *)

(** memberlist's [NodeAwareTransport], of an inner transport or of the
    wrapper: the channels are what has come out of them, errors are texts, and
    dialling a (address, node name) lists the raw connections it closed. *)
Record NodeAwareTransport := mkNodeAware {
  FinalAdvertiseAddr : string → Z → string + string * Z;
  WriteTo : string → string → string + Z;
  WriteToAddress : string → string * string → string + Z;
  PacketCh : list string;
  StreamCh : list Conn;
  dials : string * string → (string + Conn) * list Conn;
}.

(** [TLSTransport] over [inner]: datagrams and addresses are the inner
    transport's, streams come from the interceptor and from TLS dials. *)
Definition TLSTransport (inner : NodeAwareTransport) (base : string) (handshake : Conn → string → option string)
    (i : Interceptor) : NodeAwareTransport :=
  mkNodeAware (λ ip port, FinalAdvertiseAddr inner ip port) (λ b addr, WriteTo inner b addr)
    (λ b addr, WriteToAddress inner b addr) (PacketCh inner) (passed i)
    (λ addr, DialAddressTimeout base (dials inner addr).1 handshake addr.2).

(** The connection being handled. *)
Definition in_hand (s : Stage) : list Conn :=
  match s with
  | SetDeadline c | Handshaking c | ClearDeadline c | Passing c => [c]
  | Selecting | Exited => []
  end.

(** The handshake of the connection in hand is over. *)
Definition shaken (s : Stage) : list Conn :=
  match s with ClearDeadline c | Passing c => [c] | _ => [] end.

(** Every connection that arrived is in exactly one place; what was passed on
    keeps the order of arrival and was verified. *)
Record interceptor_inv (i : Interceptor) : Prop := {
  ii_nodup : NoDup (arrived i);
  ii_places : arrived i ≡ₚ passed i ++ closed i ++ in_hand (stage i) ++ raw i;
  ii_order : passed i ++ in_hand (stage i) ++ raw i `sublist_of` arrived i;
  ii_verified : ∀ c, c ∈ passed i ++ shaken (stage i) → c ∈ verified i;
}.

Lemma interceptor_inv0 : interceptor_inv interceptor0.
Proof. split; simpl; try done; [constructor|set_solver]. Qed.

(** Closing the connection in hand. *)
Lemma close_conn_inv i c s : interceptor_inv i → in_hand (stage i) = [c] → in_hand s = [] → shaken s = [] →
  interceptor_inv (close_conn i c s).
Proof.
  intros [Ha Hp Ho Hv] Hc Hs Hk. split; cbn [arrived passed closed stage raw verified close_conn]; [done|..].
  - rewrite Hp, Hc, Hs. simpl. by rewrite <-(assoc_L (++)).
  - rewrite Hs. rewrite Hc in Ho. etransitivity; [|exact Ho].
    apply sublist_app; [done|]. by apply sublist_cons.
  - rewrite Hk, app_nil_r. intros x Hx. apply Hv. set_solver.
Qed.

(** Moving on without changing what is in hand. *)
Lemma set_stage_inv i s : interceptor_inv i → in_hand s = in_hand (stage i) →
  (∀ c, c ∈ shaken s → c ∈ shaken (stage i)) → interceptor_inv (set_stage i s).
Proof.
  intros [Ha Hp Ho Hv] Hs Hk. split; cbn [arrived passed closed stage raw verified set_stage]; rewrite ?Hs; try done.
  intros c Hc. apply Hv. set_solver.
Qed.

Lemma istep_inv i i' : istep i i' → interceptor_inv i → interceptor_inv i'.
Proof.
  intros Hstep Hi. pose proof Hi as [Ha Hp Ho Hv].
  destruct Hstep as [i c Hr Hc|i|i Hsh|i Es Hsh|i c rest Es Er|i Es Er Hr|i c Es|i c Es|i c Es|i c Es|i c Es|i c Es
    |i c Es|i c Es Hsh].
  - split; cbn [arrived passed closed stage raw verified]; [|..|done].
    + apply NoDup_app. split; [done|]. split; [set_solver|]. apply NoDup_singleton.
    + rewrite Hp, !(assoc_L (++)). done.
    + rewrite !(assoc_L (++)). apply sublist_app; [|done]. by rewrite <-!(assoc_L (++)).
  - by split.
  - by split.
  - apply set_stage_inv; by rewrite ?Es.
  - rewrite Es, Er in *. by split.
  - apply set_stage_inv; by rewrite ?Es.
  - apply set_stage_inv; by rewrite ?Es.
  - apply close_conn_inv; by rewrite ?Es.
  - rewrite Es in *. split; cbn [arrived passed closed stage raw verified in_hand shaken app] in *; try done.
    set_solver.
  - apply close_conn_inv; by rewrite ?Es.
  - apply set_stage_inv; by rewrite ?Es.
  - apply close_conn_inv; by rewrite ?Es.
  - rewrite Es in *. split; cbn [arrived passed closed stage raw verified in_hand shaken app] in *; [done|..].
    + rewrite Hp. simpl. rewrite <-(assoc_L (++)). simpl. solve_Permutation.
    + by rewrite <-(assoc_L (++)).
    + intros x. rewrite app_nil_r. apply Hv.
  - apply close_conn_inv; by rewrite ?Es.
Qed.

(** After a shutdown the goroutine can always end. *)
Lemma interceptor_exits i : shut i = true →
  ∃ i', rtc istep i i' ∧ stage i' = Exited ∧ passed i' = passed i ∧ raw i' = raw i.
Proof.
  intros Hs.
  assert (Hsel : ∀ j, stage j = Selecting → shut j = true →
    ∃ i', rtc istep j i' ∧ stage i' = Exited ∧ passed i' = passed j ∧ raw i' = raw j).
  { intros j Ej Hj. exists (set_stage j Exited). split; [|done]. by apply rtc_once, sees_shutdown. }
  assert (Hclose : ∀ c, istep i (close_conn i c Selecting) →
    ∃ i', rtc istep i i' ∧ stage i' = Exited ∧ passed i' = passed i ∧ raw i' = raw i).
  { intros c Hc. destruct (Hsel (close_conn i c Selecting) eq_refl Hs) as (i' & Hr & H').
    exists i'. split; [by eapply rtc_l|done]. }
  destruct (stage i) as [|c|c|c|c|] eqn:Es.
  - by apply Hsel.
  - by eapply Hclose, deadline_fails.
  - by eapply Hclose, handshake_fails.
  - by eapply Hclose, clear_fails.
  - exists (close_conn i c Exited). split; [|done]. by apply rtc_once, drops.
  - by exists i.
Qed.

(** A dial that succeeds has completed the handshake. *)
Lemma DialAddressTimeout_shaken base dial handshake name c closing :
  DialAddressTimeout base dial handshake name = (inr c, closing) →
  handshake c (if String.eqb base "" then name else base) = None ∧ dial = inr c ∧ closing = [].
Proof.
  unfold DialAddressTimeout, dialTLSConfig. destruct dial as [|raw]; [done|].
  destruct (handshake raw _) eqn:Eh; [done|]. intros [= <- <-]. split; [|done].
  destruct (String.eqb base "") eqn:Eb; [apply String.eqb_eq in Eb; subst base|];
    destruct (String.eqb name "") eqn:En; [apply String.eqb_eq in En; subst name| |apply String.eqb_eq in En; subst name|];
    done.
Qed.

(** C32: TLS streams are authenticated and none is lost: however peers connect,
    handshakes end and the transport is shut down, every connection handed to
    memberlist has completed its handshake and has not been closed, no
    connection is handed over twice, they keep the order of their arrival, and
    every connection that arrived has been handed over, is closed, is being
    handled or is still in the inner transport's channel; when the goroutine
    is gone none is being handled.  After a shutdown it can always end.  An
    outgoing stream has completed its handshake too, under the configured
    server name or else the peer's, and a raw connection whose handshake fails
    is closed. *)
Theorem tls_streams_verified inner base handshake i : rtc istep interceptor0 i →
  let t := TLSTransport inner base handshake i in
  (∀ c, c ∈ StreamCh t → c ∈ verified i ∧ c ∉ closed i) ∧
  (∀ addr c closing, dials t addr = (inr c, closing) → handshake c (if String.eqb base "" then addr.2 else base) = None ∧
     (dials inner addr).1 = inr c ∧ closing = []) ∧
  (∀ addr c err closing, (dials inner addr).1 = inr c → dials t addr = (inl err, closing) → closing = [c]) ∧
  NoDup (passed i) ∧ passed i `sublist_of` arrived i ∧
  (∀ c, c ∈ arrived i ↔ c ∈ passed i ∨ c ∈ closed i ∨ c ∈ in_hand (stage i) ∨ c ∈ raw i) ∧
  (stage i = Exited → ∀ c, c ∈ arrived i → c ∈ passed i ∨ c ∈ closed i ∨ c ∈ raw i) ∧
  (shut i = true → ∃ i', rtc istep i i' ∧ stage i' = Exited ∧ passed i' = passed i).
Proof.
  intros Hr t. assert (Hi : interceptor_inv i).
  { eapply (rtc_ind_r interceptor_inv); [apply interceptor_inv0| |exact Hr]. intros y z _ Hyz Hy. by eapply istep_inv. }
  destruct Hi as [Ha Hp Ho Hv].
  assert (Hw : ∀ c, c ∈ arrived i ↔ c ∈ passed i ∨ c ∈ closed i ∨ c ∈ in_hand (stage i) ∨ c ∈ raw i).
  { intros c. rewrite Hp, !elem_of_app. tauto. }
  assert (Hnd : NoDup (passed i ++ closed i ++ in_hand (stage i) ++ raw i)) by by rewrite <-Hp.
  apply NoDup_app in Hnd as (Hn1 & Hn2 & _).
  split_and!.
  - intros c Hc. split; [apply Hv; apply elem_of_app; by left|]. intros Hcl. apply (Hn2 c Hc). set_solver.
  - intros addr c closing. by apply DialAddressTimeout_shaken.
  - intros addr c err closing E. cbn [dials t TLSTransport]. rewrite E. unfold DialAddressTimeout.
    destruct (handshake c _); [by intros [= _ <-]|done].
  - done.
  - etransitivity; [|exact Ho]. by apply sublist_inserts_r.
  - done.
  - intros Es c Hc. apply Hw in Hc. rewrite Es in Hc. set_solver.
  - intros Hs. destruct (interceptor_exits i Hs) as (i' & ? & ? & ? & _). by exists i'.
Qed.

Section addresses.
Context `{!BTreeOps item, !BTreeLaws less, !Hashring, !HashringLaws, !Proto, !ProtoLaws,
          !SliceSort, !MapRange, !UnicodeTables, !XXHash}.

(** Metadata that fits is the advertised address. *)
Lemma NodeMeta_redis_addr m limit nd : ValidString (tc_RedisAddr (t_cfg m)) = true → tc_RedisAddr (t_cfg m) ≠ "" →
  (∀ buf, MarshalMeta (tc_RedisAddr (t_cfg m)) = Some buf → 0 < GoStr.len buf ≤ limit) →
  node_Meta nd = NodeMeta m limit → redis_addr nd = tc_RedisAddr (t_cfg m).
Proof.
  intros Hv Hne Hl Hm. apply MarshalMeta_utf8 in Hv as [buf Hb]. specialize (Hl buf Hb).
  unfold redis_addr, DecodeMetaRedisAddr. rewrite Hm. unfold NodeMeta. rewrite Hb.
  destruct (Z.ltb_spec limit (GoStr.len buf)); [lia|]. destruct (Z.eqb_spec (GoStr.len buf) 0); [lia|].
  rewrite (UnmarshalMeta_Marshal _ _ Hb). apply String.eqb_neq in Hne. by rewrite Hne.
Qed.

(** C31: Clients are sent to the address a node advertises.  A node announces
    its Redis address in its metadata; when another node is notified that it
    joined, [Members] lists it with that address, and then every key
    the joined node owns is answered there with MOVED to that address.  The
    address must be valid UTF-8, not empty, and its encoding within
    memberlist's limit. *)
Theorem advertised_address_redirects (self peer : memberlistTransport) limit nd h now s :
  let a := tc_RedisAddr (t_cfg peer) in
  t_handlers self = handler_callbacks → handler_inv h → ValidString a = true → a ≠ "" →
  (∀ buf, MarshalMeta a = Some buf → 0 < GoStr.len buf ≤ limit) →
  node_Meta nd = NodeMeta peer limit → node_Name nd ≠ "" → node_Name nd ≠ NodeID_ h →
  mi_RedisAddr (member_info nd) = a ∧
  ∃ h', NotifyJoin self h now nd = Some h' ∧
    ∀ key, (ring_GetNode (h_ring h') key).1 = node_Name nd →
      handleGet (set_backend s (Clustered h')) [NewBulkString key] =
        (set_backend s (Clustered h'), Error ("MOVED " +:+ a)).
Proof.
  intros a Hcb Hh Hv Hne Hl Hm Hid Hself. pose proof (NodeMeta_redis_addr peer limit nd Hv Hne Hl Hm) as Ha.
  split; [exact Ha|]. unfold NotifyJoin. rewrite Hcb. cbn [OnJoin handler_callbacks].
  unfold handleJoin, PushEvent. rewrite Ha. fold a.
  destruct (hi_events _ Hh) as [es Hes]. destruct (logs_Push _ _ es (mkClusterEvent now "join" (node_Name nd) "" a "") Hes)
    as (r & Er & _). cbn [events with_ring]. rewrite Er. cbn [mbind option_bind].
  eexists. split; [reflexivity|]. intros key. cbn [h_ring with_events with_ring].
  destruct (ring_GetNode _ key) as [o b] eqn:Hg. cbn [fst]. intros ->.
  pose proof (owner_address _ _ _ _ _ _ (hi_ring _ Hh) Hid Hg) as ->.
  unfold handleGet, handleKeyCommand, moved, ring, nodeID. cbn [set_backend backend h_ring with_events with_ring].
  cbn [length NewBulkString getBulkString Z.of_nat]. change (negb (Z.pos (Pos.of_succ_nat 0) =? 1)) with false.
  cbv iota. rewrite Hg. cbn [NodeID_ localID with_events with_ring].
  apply String.eqb_neq in Hid, Hself. unfold NodeID_ in *. rewrite Hid, Hself. done.
Qed.
End addresses.

(** ** Witnesses *)

Module TransportExamples.
#[local] Existing Instances SortedList.ops SortedList_laws MergeSort MergeSort_laws.
#[local] Existing Instances demo_proto demo_proto_laws demo_range demo_range_laws demo_ring demo_ring_laws demo_xxhash.
#[local] Instance demo_unicode : UnicodeTables := id.
Import GossipExamples.

(** Two connections: the handshake of the first fails, the second is passed on. *)
Definition run2 : Interceptor := mkInterceptor Selecting [] false false [1; 2] [2] [1] {[2]}.

Lemma run2_reachable : rtc istep interceptor0 run2.
Proof.
  eapply rtc_l; [apply (arrives _ 1); [reflexivity|apply not_elem_of_nil]|].
  eapply rtc_l; [apply (arrives _ 2); [reflexivity|]|].
  { intros Hx%list_elem_of_singleton. discriminate Hx. }
  eapply rtc_l; [eapply receives; reflexivity|].
  eapply rtc_l; [eapply deadline_set; reflexivity|].
  eapply rtc_l; [eapply handshake_fails; reflexivity|].
  eapply rtc_l; [eapply receives; reflexivity|].
  eapply rtc_l; [eapply deadline_set; reflexivity|].
  eapply rtc_l; [eapply handshake_ok; reflexivity|].
  eapply rtc_l; [eapply deadline_cleared; reflexivity|].
  eapply rtc_l; [eapply passes; reflexivity|].
  exact (rtc_refl _ run2).
Qed.

Definition net_demo : NodeAwareTransport :=
  mkNodeAware (λ ip port, inr (ip, port)) (λ _ _, inr 0) (λ _ _, inr 0) [] [] (λ _, (inr 3, [])).

Lemma tls_streams_verified_witness : 2 ∈ verified run2 ∧ 2 ∉ closed run2.
Proof.
  refine (proj1 (tls_streams_verified net_demo "hapartition" (λ _ _, None) run2 run2_reachable) 2 _). apply list_elem_of_singleton. reflexivity.
Defined.

Definition peer_b : memberlistTransport := mkTransport (mkTransportConfig "b" "0.0.0.0" 7946 "10.0.0.2:6379" false "") None handler_callbacks.
Definition node_b : mlNode := mkNode "b" "10.0.0.2" 7946 (NodeMeta peer_b 512) StateAlive.
Definition sa : Server := mkServer "1:1" "a" (Clustered ha) 1 "" None.

Lemma advertised_address_redirects_witness : mi_RedisAddr (member_info node_b) = "10.0.0.2:6379".
Proof.
  refine (proj1 (advertised_address_redirects (SetHandlers NewMemberlistTransport handler_callbacks) peer_b 512 node_b ha 5 sa eq_refl ha_inv _ _ _ _ _ _)).
  - vm_compute. reflexivity.
  - discriminate.
  - intros buf Hbuf. vm_compute in Hbuf. injection Hbuf as <-. vm_compute. split; [reflexivity|discriminate].
  - reflexivity.
  - discriminate.
  - discriminate.
Defined.
End TransportExamples.
