(* ===== verification/TransportInterface.v ===== *)
(** * The interface [gossip.GossipTransport]

    The handler reaches the network through the Go interface [GossipTransport]
    (transport.go).  Its operations are the class [GossipTransport], what the
    handler relies on is [GossipTransportLaws], and the memberlist adapter is
    an instance that keeps it.  The handler's calls are composed with any
    transport here: the quorum write, a round of anti-entropy, joining and
    leaving. *)

From S2P Require Import Prelude GoStrconv GoSort GoNet GoCrypto GoUtf8 BTree Store StoreProps HashRing HashRingProps.
From S2P Require Import RingInterface EventRing Gossip Instances GossipProps Resp Server Transport.
Local Open Scope Z_scope.

Section interface.
Context `{!BTreeOps item, !Hashring}.

(** An operation that panics on a transport that was not started returns
    [None]; an error is a text, nil is [None]. *)
Class GossipTransport (T : Type) := {
  gt_Start : T → TransportConfig → option string * T;
  gt_Join : T → list string → option (Z * option string);
  gt_Leave : T → option string;
  gt_Shutdown : T → option string;
  gt_LocalNodeID : T → string;
  gt_Members : T → list MemberInfo;
  gt_SendReliable : T → string → string → option (option string);
  gt_Broadcast : T → string → string → option string * T;
  gt_SetHandlers : T → TransportHandlers → T;
}.

(** A message is accepted only for a member, and starting a transport and
    registering the callbacks commute. *)
Class GossipTransportLaws (T : Type) `{!GossipTransport T} : Prop := {
  send_members_only t id buf : gt_SendReliable t id buf = Some None → id ∈ mi_Name <$> gt_Members t;
  start_set_handlers t c h : gt_Start (gt_SetHandlers t h) c =
    ((gt_Start t c).1, gt_SetHandlers (gt_Start t c).2 h);
}.
End interface.

(** ** The memberlist adapter *)

Section memberlist.
Context `{!BTreeOps item, !Hashring, !Proto}.

(** What memberlist and the TLS transport answer. *)
Record Library := mkLibrary {
  lib_tls : option string;
  lib_create : string + Memberlist;
  lib_send : mlNode → string → option string;
  lib_join : list string → Z * option string;
  lib_leave : option string;
  lib_shutdown : option string;
  lib_queue : mlBroadcast → list mlBroadcast → list mlBroadcast;
}.

Record Runtime := mkRuntime { rt_adapter : memberlistTransport; rt_queue : list mlBroadcast; rt_lib : Library }.

#[export] Instance memberlist_transport : GossipTransport Runtime := {|
  gt_Start t c := let '(err, m) := Transport.Start c (lib_tls (rt_lib t)) (lib_create (rt_lib t)) (rt_adapter t) in
                  (err, mkRuntime m (rt_queue t) (rt_lib t));
  gt_Join t seeds := Transport.Join (rt_adapter t) (lib_join (rt_lib t)) seeds;
  gt_Leave t := Transport.Leave (rt_adapter t) (lib_leave (rt_lib t)) (lib_shutdown (rt_lib t));
  gt_Shutdown t := Transport.Shutdown (rt_adapter t) (lib_shutdown (rt_lib t));
  gt_LocalNodeID t := LocalNodeID (rt_adapter t);
  gt_Members t := Members (rt_adapter t);
  gt_SendReliable t id buf := SendReliable (rt_adapter t) id (λ nd, lib_send (rt_lib t) nd buf);
  gt_Broadcast t buf key :=
    let '(err, q) := Transport.Broadcast (lib_queue (rt_lib t)) buf key (rt_queue t) in
    (err, mkRuntime (rt_adapter t) q (rt_lib t));
  gt_SetHandlers t h := mkRuntime (SetHandlers (rt_adapter t) h) (rt_queue t) (rt_lib t);
|}.

Lemma send_loop_member nodes id send : send_loop nodes id send = None → id ∈ node_Name <$> nodes.
Proof.
  induction nodes as [|nd nodes IH]; cbn; [done|]. destruct (String.eqb_spec (node_Name nd) id) as [->|Hne].
  - intros _. apply elem_of_cons. by left.
  - intros Hs. apply elem_of_cons. right. by apply IH.
Qed.

#[export] Instance memberlist_laws : GossipTransportLaws Runtime.
Proof.
  split.
  - intros t id buf. cbn. unfold SendReliable, Members. destruct (mlist (rt_adapter t)) as [l|]; [|done].
    cbn. intros [= Hs]. apply send_loop_member in Hs. by rewrite <-list_fmap_compose.
  - intros [m q lib] c h. cbn. unfold Transport.Start, SetHandlers. cbn.
    destruct (if tc_TLS c then lib_tls lib else None); [done|]. by destruct (lib_create lib).
Qed.
End memberlist.

(** ** The handler over a transport *)

Section client.
Context `{!BTreeOps item, !Hashring, !Proto, !SliceSort, !MapRange} {T : Type} `{!GossipTransport T}.

(** The transport takes the message. *)
Definition accepts (t : T) (buf id : string) : bool := bool_decide (gt_SendReliable t id buf = Some None).

(** The bytes of a replicate request. *)
Definition request_bytes (h : Handler) (uuid key : string) (entry : Entry) : string :=
  default "" (Marshal (ReplicateReq (mkReplicateRequest uuid (NodeID_ h) [to_pb key entry]))).

(** [ReplicateWithQuorum] with the sends of [h.transport]. *)
Definition quorum_over (t : T) (h : Handler) (uuid : string) (acks : list ackResult) (key : string) (entry : Entry)
    (w : Z) : Handler * list Packet * option QuorumError :=
  ReplicateWithQuorum h uuid (accepts t (request_bytes h uuid key entry)) acks key entry w.

(** [exchangeState] with the members and the send of [h.transport]. *)
Definition exchange_over (t : T) (h : Handler) : Handler * list Packet :=
  exchangeState h (gt_Members t) (accepts t (default "" (handleLocalState h))).

Definition MembersInfo (t : T) : list MemberInfo := gt_Members t.
End client.

Section facts.
Context `{!BTreeOps item, !BTreeLaws less, !Hashring, !HashringLaws, !Proto, !ProtoLaws,
          !SliceSort, !SliceSortLaws, !MapRange, !MapRangeLaws} {T : Type} `{!GossipTransport T, !GossipTransportLaws T}.

(** The members that are remote replicas of a key. *)
Definition member_replicas (t : T) (h : Handler) (key : string) : gset string :=
  list_to_set (List.filter (λ id, bool_decide (id ∈ mi_Name <$> gt_Members t)) (NodeID <$> remoteNodes h key)).

Lemma reachable_members (t : T) h buf key : list_to_set (reachable (accepts t buf) (remoteNodes h key)) ⊆ member_replicas t h key.
Proof.
  intros id. unfold member_replicas. rewrite !elem_of_list_to_set, elem_of_reachable, elem_of_list_filter_bool.
  intros [Ha Hr]. split; [done|]. apply bool_decide_eq_true. apply bool_decide_eq_true in Ha. by eapply send_members_only.
Qed.

(** C12: A quorum is made of members.  Over any transport that keeps the
    interface's contract, memberlist's adapter among them, a quorum write
    that returns nil for a concern above 1 was acknowledged by at least [w-1]
    distinct replicas of the key that the transport lists as members; so when
    fewer of the key's replicas are members, because the ring knows nodes
    that gossip does not, the write fails, although it is in the local store.
    A round of anti-entropy sends at most one message, to another member. *)
Theorem quorum_of_members (t : T) h uuid acks key entry w :
  handler_inv h → pendingReqs h !! uuid = None → 1 < w →
  let '(h', packets, err) := quorum_over t h uuid acks key entry w in
  (err = None → ∃ S : gset string, S ⊆ member_replicas t h key ∧ w ≤ 1 + Z.of_nat (size S) ∧
     ∀ id, id ∈ S → mkAck id None ∈ acks) ∧
  (1 + Z.of_nat (size (member_replicas t h key)) < w → err ≠ None) ∧
  covers (Snapshot (h_store h')) key entry ∧
  (∀ d b, (d, b) ∈ packets ++ (exchange_over t h).2 → d ∈ mi_Name <$> gt_Members t ∧ d ≠ NodeID_ h).
Proof.
  intros Hh Hf Hw. unfold quorum_over. set (so := accepts t (request_bytes h uuid key entry)).
  pose proof (quorum_outcome h uuid so acks key entry w Hh Hf) as Ho.
  destruct (ReplicateWithQuorum h uuid so acks key entry w) as [[h' packets] err].
  destruct Ho as (Hiff & Hack & Hcov & _ & Hpk).
  pose proof (reachable_members t h (request_bytes h uuid key entry) key) as Hsub. fold so in Hsub.
  assert (Hok : err = None → ∃ S : gset string, S ⊆ member_replicas t h key ∧ w ≤ 1 + Z.of_nat (size S) ∧
     ∀ id, id ∈ S → mkAck id None ∈ acks).
  { intros [?|[_ Hle]]%Hiff; [lia|]. eexists. split; [|split; [exact Hle|]].
    - intros id [Hid _]%elem_of_ackers. by apply Hsub.
    - intros id Hid. by apply Hack. }
  split; [exact Hok|]. split; [|split; [done|]].
  - intros Hlt (S & HS & Hle & _)%Hok. apply subseteq_size in HS. lia.
  - intros d b [Hin|Hin]%elem_of_app.
    + destruct (Hpk d b Hin) as [Hd Hne]. split; [|done]. apply elem_of_reachable in Hd as [Hd _].
      apply bool_decide_eq_true in Hd. by eapply send_members_only.
    + unfold exchange_over, exchangeState in Hin. destruct (serializeStore h) as [m|]; [|by apply elem_of_nil in Hin].
      destruct (_ <=? 1); [by apply elem_of_nil in Hin|]. destruct (_ =? 0); [by apply elem_of_nil in Hin|].
      destruct (peers h (gt_Members t) !! _) as [peer|] eqn:Hp, (Marshal m); try (by apply elem_of_nil in Hin).
      cbn [snd] in Hin. destruct (accepts _ _ _); [|by apply elem_of_nil in Hin].
      apply list_elem_of_singleton in Hin. injection Hin as -> ->.
      apply list_elem_of_lookup_2 in Hp. rewrite peers_perm in Hp.
      apply elem_of_list_filter_bool in Hp as [Hp Hne]. split; [by apply list_elem_of_fmap_2|].
      by apply negb_true_iff, String.eqb_neq in Hne.
Qed.
End facts.

(** ** Witness *)

Module InterfaceExamples.
#[local] Existing Instances SortedList.ops SortedList_laws MergeSort MergeSort_laws.
#[local] Existing Instances demo_proto demo_proto_laws demo_range demo_range_laws demo_ring demo_ring_laws.
Import GossipExamples.

(** memberlist knows nodes a and b; the ring also knows c. *)
Definition ml_two : Memberlist :=
  mkMemberlist [mkNode "a" "10.0.0.1" 7946 "" StateAlive; mkNode "b" "10.0.0.2" 7946 "" StateAlive] "a".
Definition lib_two : Library := mkLibrary None (inr ml_two) (λ _ _, None) (λ _, (1, None)) None None cons.
Definition net_two : Runtime :=
  (gt_Start (mkRuntime NewMemberlistTransport [] lib_two) (mkTransportConfig "a" "127.0.0.1" 7946 "1:1" false "")).2.

Lemma quorum_of_members_witness :
  (quorum_over net_two ha "id" [mkAck "b" None; mkAck "c" None] "k" GossipExamples.entry 3).2 ≠ None.
Proof.
  pose proof (quorum_of_members net_two ha "id" [mkAck "b" None; mkAck "c" None] "k" GossipExamples.entry 3 ha_inv) as Hq.
  destruct (quorum_over net_two ha "id" _ "k" GossipExamples.entry 3) as [[h' ps] err].
  refine (proj1 (proj2 (Hq _ _)) _).
  - vm_compute. reflexivity.
  - lia.
  - vm_compute. reflexivity.
Defined.
End InterfaceExamples.
