(* ===== verification/Lifecycle.v ===== *)
(** * internal/server: accepting connections and shutting down

    The goroutines of [Server] (server.go): the accept loop, one handler per
    connection and any number of callers of [Shutdown], as a step relation
    whose steps are the points where they synchronise.  The wait group counts
    the running handlers, so it is represented by their set. *)

From S2P Require Import Prelude.
Local Open Scope Z_scope.

(** ** State *)

Definition ConnID : Type := Z.

(** [acceptLoop] is in [Accept], between [Accept] and [wg.Add], or has
    closed the channel [done]. *)
Inductive Loop := Accepting | Accepted (c : ConnID) | Ended.

(** A caller of [Shutdown]: before [shutdownOnce], in its function after
    [close(s.quit)], at the select with its goroutine in [wg.Wait], at the
    select after that goroutine has closed [doneCh], returned. *)
Inductive Caller := Entered | ClosingListener | Waiting | Drained | ReturnedNil | ReturnedErr.

Record Life := mkLife {
  loop : Loop;
  listening : bool;
  quit : bool;
  once_done : bool;
  conns : gset ConnID;
  callers : gmap Z Caller;
}.

(** After [ListenAndServe]. *)
Definition serving : Life := mkLife Accepting true false false ∅ ∅.

Definition set_loop (l : Life) (x : Loop) (cs : gset ConnID) : Life :=
  mkLife x (listening l) (quit l) (once_done l) cs (callers l).
Definition set_caller (l : Life) (i : Z) (x : Caller) : Life :=
  mkLife (loop l) (listening l) (quit l) (once_done l) (conns l) (<[i := x]> (callers l)).

(** ** Steps *)

Inductive lstep : Life → Life → Prop :=
  (** [acceptLoop] *)
  | accepts l c : loop l = Accepting → listening l = true → c ∉ conns l →
      lstep l (set_loop l (Accepted c) (conns l))
  | spawns l c : loop l = Accepted c → lstep l (set_loop l Accepting ({[c]} ∪ conns l))
  | accept_error l : loop l = Accepting → quit l = false → lstep l l
  | accept_quits l : loop l = Accepting → quit l = true → lstep l (set_loop l Ended (conns l))
  (** A connection handler returns. *)
  | finishes l c : c ∈ conns l → lstep l (set_loop l (loop l) (conns l ∖ {[c]}))
  (** [Shutdown] *)
  | enters l i : callers l !! i = None → lstep l (set_caller l i Entered)
  | once_first l i : callers l !! i = Some Entered → quit l = false →
      lstep l (mkLife (loop l) (listening l) true (once_done l) (conns l) (<[i := ClosingListener]> (callers l)))
  | closes_listener l i : callers l !! i = Some ClosingListener →
      lstep l (mkLife (loop l) false (quit l) true (conns l) (<[i := Waiting]> (callers l)))
  | once_later l i : callers l !! i = Some Entered → once_done l = true → lstep l (set_caller l i Waiting)
  | wait_ends l i : callers l !! i = Some Waiting → conns l = ∅ → lstep l (set_caller l i Drained)
  | returns_nil l i : callers l !! i = Some Drained → lstep l (set_caller l i ReturnedNil)
  | context_done l i : callers l !! i = Some Waiting ∨ callers l !! i = Some Drained →
      lstep l (set_caller l i ReturnedErr).

(** [Wait] returns once the loop has closed [done]. *)
Definition Wait (l : Life) : bool := match loop l with Ended => true | _ => false end.

(** ** Invariant *)

Definition past_once (x : Caller) : bool := match x with Entered | ClosingListener => false | _ => true end.

Record life_inv (l : Life) : Prop := {
  li_listener : listening l = negb (once_done l);
  li_once : once_done l = true → quit l = true;
  li_ended : loop l = Ended → quit l = true;
  li_closing : ∀ i, callers l !! i = Some ClosingListener → quit l = true;
  li_past : ∀ i x, callers l !! i = Some x → past_once x = true → once_done l = true;
}.

Lemma serving_inv : life_inv serving.
Proof. split; try done; intros i; by rewrite lookup_empty. Qed.

(** A change of one caller keeps what concerns the others. *)
Lemma set_caller_inv l i x : life_inv l → x ≠ ClosingListener →
  (past_once x = true → once_done l = true) → life_inv (set_caller l i x).
Proof.
  intros [H1 H2 H3 H4 H5] Hx Hp. split; try done; cbn [callers set_caller quit once_done].
  - intros j. destruct (decide (i = j)) as [->|Hne].
    + rewrite lookup_insert_eq. by intros [= ->].
    + rewrite lookup_insert_ne by done. apply H4.
  - intros j y. destruct (decide (i = j)) as [->|Hne].
    + rewrite lookup_insert_eq. by intros [= ->].
    + rewrite lookup_insert_ne by done. apply H5.
Qed.

Lemma lstep_inv l l' : lstep l l' → life_inv l → life_inv l'.
Proof.
  intros Hstep Hl. pose proof Hl as [H1 H2 H3 H4 H5].
  destruct Hstep as [l c E El Ec|l c E|l E Eq|l E Eq|l c Ec|l i E|l i E Eq|l i E|l i E Eo|l i E Ec|l i E|l i E].
  - by split.
  - by split.
  - done.
  - by split.
  - by split.
  - by apply set_caller_inv.
  - split; cbn [listening once_done quit loop callers]; try done. intros j y.
    destruct (decide (i = j)) as [->|Hne]; [rewrite lookup_insert_eq; by intros [= <-]|].
    rewrite lookup_insert_ne by done. apply H5.
  - pose proof (H4 _ E) as Hq. by split.
  - by apply set_caller_inv.
  - apply set_caller_inv; [done|done|]. intros _. by apply (H5 _ _ E).
  - apply set_caller_inv; [done|done|]. intros _. by apply (H5 _ _ E).
  - apply set_caller_inv; [done|done|]. intros _. destruct E as [E|E]; by apply (H5 _ _ E).
Qed.

Lemma reachable_life l : rtc lstep serving l → life_inv l.
Proof.
  intros Hr. eapply (rtc_ind_r life_inv); [apply serving_inv| |exact Hr].
  intros y z _ Hyz Hy. by eapply lstep_inv.
Qed.

(** Once the loop has ended no handler starts. *)
Lemma ended_step l l' : lstep l l' → loop l = Ended → loop l' = Ended ∧ conns l' ⊆ conns l.
Proof.
  intros Hstep E. destruct Hstep; cbn [loop conns set_loop set_caller]; try congruence; (split; [done|]);
    (apply subseteq_difference_l || idtac); reflexivity.
Qed.

Lemma ended_rtc l l' : rtc lstep l l' → loop l = Ended → loop l' = Ended ∧ conns l' ⊆ conns l.
Proof.
  intros Hr. induction Hr as [l|l l1 l2 Hs _ IH]; [done|]. intros E.
  destruct (ended_step _ _ Hs E) as [E1 Hc1]. destruct (IH E1) as [E2 Hc2]. split; [done|set_solver].
Qed.

(** Once [quit] is closed the loop needs at most two steps of its own, and no
    step of anyone else, to reach its end. *)
Lemma loop_can_end l : quit l = true → ∃ l', rtc lstep l l' ∧ Wait l' = true ∧ callers l' = callers l.
Proof.
  intros Hq. destruct (loop l) as [|c|] eqn:E.
  - exists (set_loop l Ended (conns l)). split; [|done]. by apply rtc_once, accept_quits.
  - exists (set_loop (set_loop l Accepting ({[c]} ∪ conns l)) Ended ({[c]} ∪ conns l)). split; [|done].
    eapply rtc_l; [by apply (spawns l c)|]. by apply rtc_once, accept_quits.
  - exists l. unfold Wait. by rewrite E.
Qed.

(** ** Properties *)

(** C33: Shutting down stops the server.  In every interleaving of the accept
    loop, the handlers and the callers of [Shutdown]: the listener is closed
    only after [quit], so the loop never spins on a closed listener; when a
    call has passed the once, the listener is closed and the loop, if it is
    in [Accept], can only end; once the loop has ended no handler starts any
    more, and if then a caller finds the wait group empty, no handler runs
    from there on, whatever that caller returns; and after a closed listener a
    caller of [Wait] is never stuck: the loop can end by its own steps, and
    then [Wait] returns for good. *)
Theorem Shutdown_drains l : rtc lstep serving l →
  (listening l = false → quit l = true) ∧
  (∀ i x, callers l !! i = Some x → past_once x = true → listening l = false ∧ quit l = true) ∧
  (listening l = false → loop l = Accepting → ∀ l', lstep l l' → loop l' = Accepting ∨ loop l' = Ended) ∧
  (loop l = Ended → ∀ l', rtc lstep l l' → conns l' ⊆ conns l) ∧
  (loop l = Ended → ∀ i l' l'', callers l !! i = Some Waiting → lstep l l' → callers l' !! i = Some Drained →
     rtc lstep l' l'' → conns l'' = ∅) ∧
  (listening l = false → ∃ l', rtc lstep l l' ∧ callers l' = callers l ∧ ∀ l'', rtc lstep l' l'' → Wait l'' = true).
Proof.
  intros Hr. pose proof (reachable_life _ Hr) as [H1 H2 H3 H4 H5].
  assert (Hquit : listening l = false → quit l = true).
  { intros Hl. apply H2. rewrite Hl in H1. symmetry in H1. by apply negb_false_iff in H1. }
  split_and!; [exact Hquit| | | | |].
  - intros i x Hi Hx. pose proof (H5 i x Hi Hx) as Ho. rewrite H1, Ho. auto.
  - intros Hl E l' Hs. destruct Hs; cbn [loop set_loop set_caller]; (congruence || auto).
  - intros E l' Hr'. by apply (ended_rtc l l').
  - intros E i l' l'' Hi Hs Hd Hr'. destruct (ended_step _ _ Hs E) as [E' _].
    assert (Hc : conns l' = ∅).
    { destruct Hs as [| | | | |l j Hj|l j Hj|l j Hj|l j Hj|l j Hj Hc|l j Hj|l j Hj]; simplify_eq/=;
        try (destruct (decide (j = i)) as [->|Hne]; [rewrite lookup_insert_eq in Hd|rewrite lookup_insert_ne in Hd by done];
          simplify_eq/=; done). }
    destruct (ended_rtc _ _ Hr' E') as [_ Hsub]. rewrite Hc in Hsub. set_solver.
  - intros Hl. destruct (loop_can_end l (Hquit Hl)) as (l' & Hrun & Hw & Hcs). exists l'. split_and!; [done|done|].
    intros l'' Hr'. destruct (ended_rtc _ _ Hr') as [E _]; [|by unfold Wait; rewrite E].
    unfold Wait in Hw. by destruct (loop l').
Qed.

(** ** The race of [wg.Add] with [wg.Wait] *)

Module LifecycleExamples.
(** A connection is accepted; before the loop adds it to the wait group a
    caller shuts down, finds the wait group empty and returns. *)
Definition raced : Life := mkLife Accepting false true true {[7]} {[1 := ReturnedNil]}.

Lemma shutdown_before_handler : rtc lstep serving raced ∧ callers raced !! 1 = Some ReturnedNil ∧ conns raced ≠ ∅.
Proof.
  split; [|split; [reflexivity|discriminate]].
  eapply rtc_l; [apply (accepts _ 7); [reflexivity|reflexivity|apply not_elem_of_empty]|].
  eapply rtc_l; [apply (enters _ 1); reflexivity|].
  eapply rtc_l; [apply (once_first _ 1); reflexivity|].
  eapply rtc_l; [apply (closes_listener _ 1); reflexivity|].
  eapply rtc_l; [apply (wait_ends _ 1); reflexivity|].
  eapply rtc_l; [apply (returns_nil _ 1); reflexivity|].
  eapply rtc_l; [apply (spawns _ 7); reflexivity|].
  exact (rtc_refl _ raced).
Qed.

(** A quiet server is shut down. *)
Definition waiting : Life := mkLife Ended false true true ∅ {[1 := Waiting]}.

Lemma waiting_reachable : rtc lstep serving waiting.
Proof.
  eapply rtc_l; [apply (enters _ 1); reflexivity|].
  eapply rtc_l; [apply (once_first _ 1); reflexivity|].
  eapply rtc_l; [apply (closes_listener _ 1); reflexivity|].
  eapply rtc_l; [apply accept_quits; reflexivity|].
  exact (rtc_refl _ waiting).
Qed.

Lemma Shutdown_drains_witness : conns (set_caller waiting 1 Drained) = ∅.
Proof.
  refine (proj1 (proj2 (proj2 (proj2 (proj2 (Shutdown_drains waiting waiting_reachable))))) eq_refl 1
    (set_caller waiting 1 Drained) _ eq_refl _ eq_refl (rtc_refl _ _)).
  apply wait_ends; reflexivity.
Defined.
End LifecycleExamples.
