(* ===== verification/GossipLoops.v ===== *)
(** * internal/gossip/gossip.go: the handler's goroutines and leaving

    [Start] runs two goroutines, [antiEntropyLoop] and [retryJoin], beside the
    transport's callbacks and the calls of the servers; [Leave] closes
    [stopCh], which both goroutines watch.  Their interleavings are a step
    relation.  A [select] whose channels are both ready takes either, so a
    round of anti-entropy may still follow the closing of [stopCh]. *)

From S2P Require Import Prelude GoStrconv GoSort BTree Store StoreProps HashRing HashRingProps.
From S2P Require Import RingInterface EventRing Gossip Instances GossipProps.
Local Open Scope Z_scope.

Section loops.
Context `{!BTreeOps item, !Hashring, !Proto, !SliceSort, !MapRange}.

(** ** State *)

(** [antiEntropyLoop]: in its select or returned. *)
Inductive AntiEntropy := AtSelect | AEReturned.

(** [retryJoin]: not started as there is no discoverer, before its checks with
    the seeds of [Start], in its select, or returned. *)
Inductive Retry := NoRetry | Checking (seeds : list string) | AtTicker | RetryReturned.

Record Loops := mkLoops {
  l_handler : Handler;
  l_stop : bool;
  l_ae : AntiEntropy;
  l_retry : Retry;
  l_sent : list Packet;
  l_joins : list (list string);
}.

(** The state after [Start], with the seed list of the discoverer if there is
    one. *)
Definition started (h : Handler) (seeds : option (list string)) : Loops :=
  mkLoops h false AtSelect match seeds with Some s => Checking s | None => NoRetry end [] [].

(** ** Operations *)

(** [Leave]: [None] is the panic of closing [stopCh] a second time; the error
    is the transport's. *)
Definition Leave (l : Loops) (leave : option string) : option (Loops * option string) :=
  if l_stop l then None
  else Some (mkLoops (l_handler l) true (l_ae l) (l_retry l) (l_sent l) (l_joins l), leave).

(** [Join]; the argument is the transport's. *)
Definition Join (join : list string → option string) (address : string) : option string := join [address].

Definition set_handler (l : Loops) (h : Handler) (sent : list Packet) : Loops :=
  mkLoops h (l_stop l) (l_ae l) (l_retry l) (l_sent l ++ sent) (l_joins l).
Definition set_retry (l : Loops) (r : Retry) (joins : list (list string)) : Loops :=
  mkLoops (l_handler l) (l_stop l) (l_ae l) r (l_sent l) (l_joins l ++ joins).

(** One tick of [retryJoin]. *)
Definition retry_tick (l : Loops) (t : Tick) : Loops :=
  if 1 <? tick_members t then set_retry l RetryReturned []
  else
    let '(seeds, err) := tick_discover t in
    match err, seeds with
    | Some _, _ | None, [] => l
    | None, _ :: _ => set_retry l (if tick_join_ok t then RetryReturned else AtTicker) [seeds]
    end.

(** One round of [antiEntropyLoop]. *)
Definition ae_round (l : Loops) (members : list MemberInfo) (send_ok : string → bool) : Loops :=
  let '(h, sent) := exchangeState (l_handler l) members send_ok in set_handler l h sent.

(** Why a goroutine moves: it evaluates the checks before its loop, the ticker
    fires in its select, or [stopCh] is closed. *)
Inductive Cause := OnCheck | OnTick | OnStop.

(** [antiEntropyLoop] *)
Inductive ae_step (l : Loops) : Cause → Loops → Prop :=
  | ae_fires members send_ok : l_ae l = AtSelect → ae_step l OnTick (ae_round l members send_ok)
  | ae_stops : l_ae l = AtSelect → l_stop l = true →
      ae_step l OnStop (mkLoops (l_handler l) (l_stop l) AEReturned (l_retry l) (l_sent l) (l_joins l)).

(** [retryJoin]; [members] is the number the transport reports. *)
Inductive retry_step (l : Loops) : Cause → Loops → Prop :=
  | retry_checks seeds members : l_retry l = Checking seeds →
      retry_step l OnCheck (set_retry l match seeds with
                                        | [] => RetryReturned
                                        | _ :: _ => if 1 <? members then RetryReturned else AtTicker
                                        end [])
  | retry_ticks t : l_retry l = AtTicker → retry_step l OnTick (retry_tick l t)
  | retry_stops : l_retry l = AtTicker → l_stop l = true → retry_step l OnStop (set_retry l RetryReturned []).

(** The interleavings of the goroutines with the callbacks of the transport,
    the calls of the servers and [Leave]. *)
Inductive gstep (l : Loops) : Loops → Prop :=
  | called op h : gossip_op_wf op = true → exec_gossip (l_handler l) op = Some h → gstep l (set_handler l h [])
  | leaves err l' r : Leave l err = Some (l', r) → gstep l l'
  | ae_moves c l' : ae_step l c l' → gstep l l'
  | retry_moves c l' : retry_step l c l' → gstep l l'.

(** The goroutines run, and no ticker fires. *)
Inductive winding_down (l : Loops) : Loops → Prop :=
  | ae_winds c l' : ae_step l c l' → c ≠ OnTick → winding_down l l'
  | retry_winds c l' : retry_step l c l' → c ≠ OnTick → winding_down l l'.

Definition both_returned (l : Loops) : Prop :=
  l_ae l = AEReturned ∧ (l_retry l = NoRetry ∨ l_retry l = RetryReturned).
End loops.
Arguments Loops {_ _}.

(** ** Invariant *)

Section facts.
Context `{!BTreeOps item, !BTreeLaws less, !Hashring, !HashringLaws, !Proto, !ProtoLaws, !SliceSort, !MapRange}.
Implicit Types l : Loops.

Record loops_inv (h0 : Handler) (l : Loops) : Prop := {
  lp_handler : handler_inv (l_handler l);
  lp_keeps : keeps_writes h0 (l_handler l);
  lp_ae : l_ae l = AEReturned → l_stop l = true;
  lp_joins : Forall (λ s, s ≠ []) (l_joins l);
}.

Lemma exec_inv h op h' : handler_inv h → gossip_op_wf op = true → exec_gossip h op = Some h' →
  handler_inv h' ∧ keeps_writes h h'.
Proof.
  intros Hh Hw E. destruct (exec_gossip_inv h op Hh Hw) as (g & Eg & H'). rewrite E in Eg. by injection Eg as <-.
Qed.

Lemma gstep_inv h0 l l' : gstep l l' → loops_inv h0 l → loops_inv h0 l'.
Proof.
  intros Hs [Ea Eb Ec Ed].
  destruct Hs as [op h Hw E|err l1 r E|c l' [ms so E|E Es]|c l' [seeds n E|t E|E Es]].
  - destruct (exec_inv _ _ _ Ea Hw E) as [Hi Hk]. split; try done. by etransitivity.
  - unfold Leave in E. destruct (l_stop l); [done|]. injection E as <- _. by split.
  - unfold ae_round. destruct (exchangeState (l_handler l) ms so) as [h ps] eqn:Ex.
    destruct (exec_inv (l_handler l) (OpExchange ms so) h Ea eq_refl) as [Hi Hk]; [cbn [exec_gossip]; by rewrite Ex|].
    split; try done. by etransitivity.
  - by split.
  - split; try done. cbn [l_joins set_retry]. by rewrite app_nil_r.
  - unfold retry_tick. destruct (1 <? tick_members t).
    { split; try done. cbn [l_joins set_retry]. by rewrite app_nil_r. }
    destruct (tick_discover t) as [seeds [e|]]; [done|]. destruct seeds as [|s seeds]; [done|].
    split; try done. cbn [l_joins set_retry]. apply Forall_app. split; [done|]. by constructor.
  - split; try done. cbn [l_joins set_retry]. by rewrite app_nil_r.
Qed.

(** ** Winding down *)

(** The steps the goroutines have left when no ticker fires. *)
Definition steps_left (l : Loops) : nat :=
  (match l_ae l with AtSelect => 1 | AEReturned => 0 end +
   match l_retry l with Checking _ => 2 | AtTicker => 1 | NoRetry | RetryReturned => 0 end)%nat.

Lemma winding_down_step l l' : winding_down l l' →
  (steps_left l' < steps_left l)%nat ∧ l_stop l' = l_stop l ∧ l_handler l' = l_handler l ∧
  l_sent l' = l_sent l ∧ l_joins l' = l_joins l.
Proof.
  unfold steps_left. intros [c l1 [ms so E|E Es] Hc|c l1 [seeds n E|t E|E Es] Hc]; try done;
    cbn [l_ae l_retry l_stop l_handler l_sent l_joins set_retry]; rewrite ?app_nil_r, E; (split; [|done]); [lia| |lia].
  destruct seeds; [lia|]. destruct (1 <? n); lia.
Qed.

Lemma winding_down_runs n l l' : nsteps winding_down n l l' →
  (n + steps_left l' ≤ steps_left l)%nat ∧ l_stop l' = l_stop l ∧ l_handler l' = l_handler l ∧
  l_sent l' = l_sent l ∧ l_joins l' = l_joins l.
Proof.
  induction 1 as [l|n l l1 l2 Hs _ IH]; [by split|].
  destruct (winding_down_step _ _ Hs) as (Hlt & E1 & E2 & E3 & E4), IH as (Hle & F1 & F2 & F3 & F4).
  split; [lia|]. by rewrite F1, F2, F3, F4.
Qed.

(** With [stopCh] closed a goroutine that has not returned can move, whatever
    members the transport reports. *)
Lemma winding_down_progress l : l_stop l = true → both_returned l ∨ ∃ l', winding_down l l'.
Proof.
  intros Hs. unfold both_returned. destruct (l_ae l) eqn:Ea.
  { right. eexists. by apply (ae_winds l OnStop); [apply ae_stops|]. }
  destruct (l_retry l) as [|seeds| |] eqn:Er; [by auto| | |by auto]; right; eexists.
  - by apply (retry_winds l OnCheck); [apply (retry_checks l seeds 0)|].
  - by apply (retry_winds l OnStop); [apply retry_stops|].
Qed.

(** C38: Leaving stops the handler's goroutines and loses nothing.  However the
    callbacks, the calls of the servers, the rounds of anti-entropy, the
    retries and [Leave] interleave after [Start]: the handler's invariant
    holds and every write the store had is still there or superseded; [Join]
    is never retried with an empty seed list; the anti-entropy loop runs until
    [Leave]; after [Leave], as long as no ticker fires, whatever members the
    transport reports, the goroutines make at most three more steps, change
    nothing, send nothing and join nothing, and are not stuck before both have
    returned; and a second [Leave] panics. *)
Theorem Leave_stops h seeds l : handler_inv h → rtc gstep (started h seeds) l →
  handler_inv (l_handler l) ∧ keeps_writes h (l_handler l) ∧ Forall (λ s, s ≠ []) (l_joins l) ∧
  (l_ae l = AEReturned → l_stop l = true) ∧
  (l_stop l = true → ∀ n l', nsteps winding_down n l l' →
     (n ≤ 3)%nat ∧ l_handler l' = l_handler l ∧ l_sent l' = l_sent l ∧ l_joins l' = l_joins l ∧
     (both_returned l' ∨ ∃ l'', winding_down l' l'')) ∧
  (∀ err l' r err', Leave l err = Some (l', r) → Leave l' err' = None).
Proof.
  intros Hh Hr. assert (Hl : loops_inv h l).
  { eapply (rtc_ind_r (loops_inv h)); [| |exact Hr].
    - by split.
    - intros y z _ Hyz Hy. by eapply gstep_inv. }
  destruct Hl as [Ea Eb Ec Ed]. split_and!; try done.
  - intros Hs n l' Hn. destruct (winding_down_runs n l l' Hn) as (Hle & Es & Eh & Esn & Ej).
    split; [|split_and!; [done..|apply winding_down_progress; congruence]].
    assert (steps_left l ≤ 3)%nat by (unfold steps_left; destruct (l_ae l), (l_retry l); lia). lia.
  - intros err l' r err' E. unfold Leave in *. destruct (l_stop l); [done|]. by injection E as <- _.
Qed.
End facts.

(** ** Witnesses *)

Module LoopsExamples.
#[local] Existing Instances SortedList.ops SortedList_laws MergeSort MergeSort_laws.
#[local] Existing Instances demo_proto demo_proto_laws demo_range demo_range_laws demo_ring demo_ring_laws.
Import GossipExamples.

Definition left : Loops := mkLoops ha true AtSelect (Checking ["s:1"]) [] [].

Lemma left_reachable : rtc gstep (started ha (Some ["s:1"])) left.
Proof. apply rtc_once. exact (leaves (started ha (Some ["s:1"])) None left None eq_refl). Qed.

(** The retry loop passes its checks with one member and is then at its select
    when the anti-entropy loop has returned. *)
Definition at_ticker : Loops := mkLoops ha true AEReturned AtTicker [] [].

Lemma left_at_ticker : nsteps winding_down 2 left at_ticker.
Proof.
  apply (nsteps_l _ 1 _ (mkLoops ha true AtSelect AtTicker [] [])).
  { apply (retry_winds left OnCheck); [exact (retry_checks left ["s:1"] 1 eq_refl)|done]. }
  apply (nsteps_l _ 0 _ at_ticker); [|apply nsteps_O]. apply (ae_winds (mkLoops ha true AtSelect AtTicker [] []) OnStop);
    [exact (ae_stops (mkLoops ha true AtSelect AtTicker [] []) eq_refl eq_refl)|done].
Qed.

Lemma Leave_stops_witness : both_returned at_ticker ∨ ∃ l', winding_down at_ticker l'.
Proof.
  exact (proj2 (proj2 (proj2 (proj2 (proj1 (proj2 (proj2 (proj2 (proj2
    (Leave_stops ha (Some ["s:1"]) left ha_inv left_reachable))))) eq_refl 2%nat at_ticker left_at_ticker))))).
Defined.
End LoopsExamples.
