(* ===== verification/Main.v ===== *)
(** * cmd/hapartition: assembling, starting and stopping a node

    [main] reads the flags and the environment, refuses to listen on a network
    without a token, builds the server, the gossip layer and the management
    server over one store and one ring, starts them and stops them at a signal.

    What the operating system and the libraries answer is the record [World];
    what [main] does to the world outside is a trace of [Action]s.  Every
    [log.Fatalf] is an error value. *)

From S2P Require Import Prelude GoStrconv GoSort GoNet GoIP GoCrypto BTree Store StoreProps HashRing HashRingProps.
From S2P Require Import RingInterface EventRing Gossip Instances GossipProps Resp RespProps Server ServerProps Mgmt Transport.
Local Open Scope Z_scope.

(** ** Flags and environment *)

Record Flags := mkFlags {
  f_nodeID : string;
  f_bindHost : string;
  f_gossipBindHost : string;
  f_redisPort : string;
  f_httpPort : string;
  f_gossipPort : Z;
  f_gossipJoin : string;
  f_replicaRF : Z;
  f_writeConcern : Z;
  f_tlsCert : string;
  f_tlsKey : string;
  f_tlsCA : string;
  f_advertiseAddr : string;
}.

Definition default_flags : Flags :=
  mkFlags "" "127.0.0.1" "127.0.0.1" "6379" "8080" 7946 "" 2 0 "" "" "" "".

(** The answers of the world: an error text on the left. *)
Record World := mkWorld {
  w_authToken : string;
  w_hostname : string + string;
  w_keyPair : string → string → string + string;
  w_readFile : string → string + string;
  w_pem_ok : string → bool;
  w_systemPool : option string;
  w_transport_start : TransportConfig → option string;
  w_members : Z;
  w_listen : string → string + string;
}.

(** ** TLS *)

Inductive CertPool := SystemPool | FilePool (pem : string).

Record tlsConfig := mkTLS {
  tls_Certificate : string;
  tls_RequireAndVerifyClientCert : bool;
  tls_ClientCAs : CertPool;
  tls_RootCAs : CertPool;
  tls_MinVersion : Z;
  tls_ServerName : string;
}.

(** The fields of [gossip.Config] that [main] sets beside those of the model's
    [Config]. *)
Record GossipSetup := mkSetup {
  gs_cfg : Config;
  gs_BindAddr : string;
  gs_BindPort : Z;
  gs_SecretKey : string;
  gs_TLSConfig : option tlsConfig;
  gs_seeds : option (list string);
}.

(** ** Errors and actions *)

Inductive FatalError :=
  | TokenRequired (host : string)
  | NoHostname (err : string)
  | BadKeyPair (err : string)
  | BadCA (err : string)
  | EmptyCA
  | NoSystemPool (err : string)
  | GossipFailed (err : string)
  | RedisFailed (err : string)
  | HTTPFailed (err : string).

Inductive Action := StartGossip | ListenRedis | ListenHTTP | StopHTTP | LeaveGossip | StopRedis.

#[export] Instance Action_eq_dec : EqDecision Action.
Proof. solve_decision. Defined.

(** ** The steps of [main] *)

(** The guard on one host. *)
Definition host_allowed (authToken host : string) : bool :=
  negb (String.eqb authToken "" && negb (String.eqb host "localhost") &&
        match ParseIP host with None => true | Some ip => negb (IsLoopback ip) end).

Fixpoint check_hosts (authToken : string) (hosts : list string) : option FatalError :=
  match hosts with
  | [] => None
  | host :: hosts' => if host_allowed authToken host then check_hosts authToken hosts' else Some (TokenRequired host)
  end.

Definition node_id (f : Flags) (w : World) : FatalError + string :=
  if String.eqb (f_nodeID f) "" then
    match w_hostname w with inl err => inl (NoHostname err) | inr name => inr name end
  else inr (f_nodeID f).

Definition redis_address (f : Flags) : string := JoinHostPort (f_bindHost f) (f_redisPort f).
Definition ring_address (f : Flags) : string :=
  if String.eqb (f_advertiseAddr f) "" then redis_address f else f_advertiseAddr f.

Definition write_concern (f : Flags) : Z :=
  if (f_writeConcern f <=? 0) || (f_replicaRF f <? f_writeConcern f) then f_replicaRF f else f_writeConcern f.

Definition load_pool (f : Flags) (w : World) : FatalError + CertPool :=
  if negb (String.eqb (f_tlsCA f) "") then
    match w_readFile w (f_tlsCA f) with
    | inl err => inl (BadCA err)
    | inr pem => if w_pem_ok w pem then inr (FilePool pem) else inl EmptyCA
    end
  else match w_systemPool w with Some err => inl (NoSystemPool err) | None => inr SystemPool end.

(** TLS version 1.2 is 0x0303. *)
Definition load_tls (f : Flags) (w : World) : FatalError + option tlsConfig :=
  if negb (String.eqb (f_tlsCert f) "") && negb (String.eqb (f_tlsKey f) "") then
    match w_keyPair w (f_tlsCert f) (f_tlsKey f) with
    | inl err => inl (BadKeyPair err)
    | inr cert => match load_pool f w with
                  | inl e => inl e
                  | inr pool => inr (Some (mkTLS cert true pool pool 0x0303 "hapartition"))
                  end
    end
  else inr None.

(** [strings.Split] by one byte. *)
Fixpoint Split (s : string) (sep : ascii) : list string :=
  match s with
  | EmptyString => [""]
  | String c s' =>
      if Ascii.eqb c sep then "" :: Split s' sep
      else match Split s' sep with
           | p :: ps => String c p :: ps
           | [] => [String c ""]
           end
  end.

(** [staticDiscoverer] *)
Definition Discover (seeds : list string) : list string * option string := (seeds, None).

Definition gossip_setup (f : Flags) (w : World) (id : string) (tls : option tlsConfig) : GossipSetup :=
  mkSetup (mkConfig id (ring_address f) (f_replicaRF f) (write_concern f) 30)
    (f_gossipBindHost f) (f_gossipPort f)
    (if negb (String.eqb (w_authToken w) "") then Sum256 (w_authToken w) else "")
    tls
    (if negb (String.eqb (f_gossipJoin f) "") then Some (Split (f_gossipJoin f) ",") else None).

(** The configuration [Handler.Start] hands to the transport. *)
Definition transport_config (g : GossipSetup) : TransportConfig :=
  mkTransportConfig (cfg_NodeID (gs_cfg g)) (gs_BindAddr g) (gs_BindPort g) (cfg_RedisAddr (gs_cfg g))
    (bool_decide (is_Some (gs_TLSConfig g))) (gs_SecretKey g).

Section main.
Context `{!BTreeOps item, !Hashring, !Proto, !SliceSort, !MapRange, !UnicodeTables, !XXHash}.

(** The server before gossip. *)
Definition redis_server (hashring_New : string → Ring) (f : Flags) (w : World) (id : string) : Server :=
  let s := Server.New hashring_New (redis_address f) id in
  let s := Server.SetAuthToken s (w_authToken w) in
  if negb (String.eqb (ring_address f) (redis_address f)) then SetAdvertiseAddr s (ring_address f) else s.

(** [setupGossip]: the handler, or the error of [Start]. *)
Definition setupGossip (g : GossipSetup) (w : World) (st : Store) (r : Ring) : string + Handler :=
  let h := Gossip.New (gs_cfg g) st r in
  let err := w_transport_start w (transport_config g) in
  match Gossip.Start h (bool_decide (err = None)) (Discover <$> gs_seeds g) (w_members w) [] with
  | None => inl ("start: " +:+ default "" err)
  | Some (h, _) => inr h
  end.

Record Node := mkNode { n_redis : Server; n_http : Mgmt; n_gossip : Handler; n_setup : GossipSetup }.

(** How [main] ends: by [log.Fatalf], or running until a signal. *)
Inductive Outcome := Fatal (e : FatalError) | Running (n : Node).

(** [main] up to the wait for a signal, with the trace of its actions. *)
Definition main_start (hashring_New : string → Ring) (f : Flags) (w : World) : Outcome * list Action :=
  match check_hosts (w_authToken w) [f_bindHost f; f_gossipBindHost f] with
  | Some e => (Fatal e, [])
  | None =>
  match node_id f w with
  | inl e => (Fatal e, [])
  | inr id =>
  let redisSrv := redis_server hashring_New f w id in
  match load_tls f w with
  | inl e => (Fatal e, [])
  | inr tls =>
  let setup := gossip_setup f w id tls in
  match setupGossip setup w (store redisSrv) (ring redisSrv) with
  | inl err => (Fatal (GossipFailed err), [])
  | inr g =>
  let redisSrv := Server.SetWriteConcern (SetGossip redisSrv g) (write_concern f) in
  match Server.ListenAndServe redisSrv (w_listen w) with
  | inl err => (Fatal (RedisFailed err), [StartGossip; StopRedis; LeaveGossip])
  | inr redisSrv =>
  let httpSrv := Mgmt.SetAuthToken (Mgmt.New (JoinHostPort (f_bindHost f) (f_httpPort f)) g) (w_authToken w) in
  match Mgmt.ListenAndServe httpSrv (w_listen w) with
  | (_, Some err) => (Fatal (HTTPFailed err), [StartGossip; ListenRedis; StopRedis; LeaveGossip])
  | (httpSrv, None) => (Running (mkNode redisSrv httpSrv g setup), [StartGossip; ListenRedis; ListenHTTP])
  end end end end end end.

(** The whole of [main]: a running node is stopped at the signal, whatever the
    steps of stopping return. *)
Definition main (hashring_New : string → Ring) (f : Flags) (w : World) : list Action :=
  match main_start hashring_New f w with
  | (Fatal _, trace) => trace
  | (Running _, trace) => trace ++ [StopHTTP; LeaveGossip; StopRedis]
  end.
End main.
Arguments Node {_ _}.
Arguments Outcome {_ _}.

(** ** Facts *)

(** A host that only this machine can reach. *)
Definition loopback_host (host : string) : Prop :=
  host = "localhost" ∨
  ∃ ip, ParseIP host = Some ip ∧ (ip = IPv6loopback ∨ ∃ b c d, ip = mapped [127; b; c; d]).

Lemma host_allowed_loopback host : host_allowed "" host = true ↔ loopback_host host.
Proof.
  unfold host_allowed, loopback_host. cbn [String.eqb andb].
  destruct (String.eqb_spec host "localhost") as [->|Hne]; cbn [negb andb]; [split; [by left|done]|].
  destruct (ParseIP host) as [ip|] eqn:E; cbn [negb].
  - rewrite negb_involutive, IsLoopback_spec by (by eapply ParseIP_length). split.
    + intros Hip. right. by exists ip.
    + by intros [?|(ip' & [= <-] & ?)].
  - split; [done|]. by intros [?|(ip & ? & _)].
Qed.

Lemma host_allowed_quad a b c d : 0 ≤ a < 256 → 0 ≤ b < 256 → 0 ≤ c < 256 → 0 ≤ d < 256 →
  host_allowed "" (quad a b c d) = (a =? 127).
Proof.
  intros Ha Hb Hc Hd. unfold host_allowed. rewrite ParseIP_quad by done.
  assert (String.eqb (quad a b c d) "localhost" = false) as ->.
  { apply String.eqb_neq. intros E. apply (f_equal ParseIP) in E. by rewrite ParseIP_quad in E. }
  cbn [String.eqb negb andb]. rewrite negb_involutive. unfold IsLoopback.
  change (To4 (mapped [a; b; c; d])) with (Some [a; b; c; d]). cbn [head].
  destruct (Z.eqb_spec a 127) as [->|Hne]; [done|]. apply bool_decide_eq_false. congruence.
Qed.

Lemma check_hosts_none token hosts : check_hosts token hosts = None ↔ ∀ h, h ∈ hosts → host_allowed token h = true.
Proof.
  induction hosts as [|h hosts IH]; cbn [check_hosts]; [set_solver|].
  destruct (host_allowed token h) eqn:E.
  - rewrite IH. split; [|set_solver]. intros Hall h' [->|Hin]%elem_of_cons; auto.
  - split; [done|]. intros Hall. rewrite Hall in E; [done|]. apply elem_of_cons. by left.
Qed.

Lemma check_hosts_some hosts e : check_hosts "" hosts = Some e →
  ∃ host, e = TokenRequired host ∧ host ∈ hosts ∧ ¬ loopback_host host.
Proof.
  induction hosts as [|h hosts IH]; cbn [check_hosts]; [done|]. destruct (host_allowed "" h) eqn:E.
  - intros (host & -> & Hin & Hn)%IH. exists host. split_and!; [done|apply elem_of_cons; by right|done].
  - intros [= <-]. exists h. split_and!; [done|apply elem_of_cons; by left|].
    rewrite <-host_allowed_loopback, E. done.
Qed.

Section facts.
Context `{!BTreeOps item, !BTreeLaws less, !Hashring, !HashringLaws, !Proto, !ProtoLaws,
          !SliceSort, !MapRange, !MapRangeLaws, !UnicodeTables, !XXHash}.
Implicit Types (f : Flags) (w : World).

(** The parts of a node that runs. *)
Lemma main_start_running new f w n tr : main_start new f w = (Running n, tr) →
  check_hosts (w_authToken w) [f_bindHost f; f_gossipBindHost f] = None ∧
  ∃ id tls a b, node_id f w = inr id ∧ load_tls f w = inr tls ∧ n_setup n = gossip_setup f w id tls ∧
    setupGossip (n_setup n) w (store (redis_server new f w id)) (ring (redis_server new f w id)) = inr (n_gossip n) ∧
    n_redis n = listening (Server.SetWriteConcern (SetGossip (redis_server new f w id) (n_gossip n)) (write_concern f)) a ∧
    n_http n = mkMgmt (JoinHostPort (f_bindHost f) (f_httpPort f)) (n_gossip n) true (Some b) (w_authToken w) ∧
    tr = [StartGossip; ListenRedis; ListenHTTP].
Proof.
  unfold main_start. destruct (check_hosts _ _); [done|]. destruct (node_id f w) as [|id]; [done|].
  destruct (load_tls f w) as [|tls]; [done|].
  destruct (setupGossip _ _ _ _) as [|g] eqn:Eg; [done|]. unfold Server.ListenAndServe, Mgmt.ListenAndServe.
  destruct (w_listen w _) as [|a]; [done|]. destruct (w_listen w _) as [|b]; [done|]. intros [= <- <-]. split; [done|]. by exists id, tls, a, b.
Qed.

(** The demand for a token comes from the guard only. *)
Lemma token_required new f w host tr : main_start new f w = (Fatal (TokenRequired host), tr) →
  check_hosts (w_authToken w) [f_bindHost f; f_gossipBindHost f] = Some (TokenRequired host) ∧ tr = [].
Proof.
  unfold main_start. destruct (check_hosts _ _) as [e|]; [by intros [= -> <-]|].
  unfold node_id. destruct (String.eqb (f_nodeID f) ""); [destruct (w_hostname w); [done|]|];
    (destruct (load_tls f w) as [e|tls] eqn:Et;
      [intros [= -> _]; unfold load_tls, load_pool in Et; repeat case_match; by simplify_eq
      |repeat case_match; by intros [=]]).
Qed.

Lemma main_start_fatal new f w e tr : main_start new f w = (Fatal e, tr) →
  tr ∈ [[]; [StartGossip; StopRedis; LeaveGossip]; [StartGossip; ListenRedis; StopRedis; LeaveGossip]].
Proof.
  unfold main_start. destruct (check_hosts _ _); [intros [= _ <-]; set_solver|].
  destruct (node_id f w) as [|id]; [intros [= _ <-]; set_solver|].
  destruct (load_tls f w) as [|tls]; [intros [= _ <-]; set_solver|].
  destruct (setupGossip _ _ _ _) as [|g]; [intros [= _ <-]; set_solver|].
  unfold Server.ListenAndServe, Mgmt.ListenAndServe.
  destruct (w_listen w _) as [|a]; [intros [= _ <-]; set_solver|].
  destruct (w_listen w _) as [|b]; [intros [= _ <-]; set_solver|done].
Qed.

(** The handler is the new one over the server's store and ring. *)
Lemma setupGossip_ok g w st r h : setupGossip g w st r = inr h →
  h_store h = st ∧ h_ring h = r ∧ events h = newEventRing eventRingSize ∧ NodeID_ h = cfg_NodeID (gs_cfg g) ∧
  cfg_WriteConcern (cfg h) = cfg_WriteConcern (cfg (Gossip.New (gs_cfg g) st r)) ∧
  cfg_ReplicaRF (cfg h) = cfg_ReplicaRF (gs_cfg g).
Proof.
  unfold setupGossip, Gossip.Start. case_bool_decide; cbn [negb]; [|done].
  destruct (Discover <$> gs_seeds g) as [[s e]|]; by intros [= <-].
Qed.

Lemma redis_server_store new f w id : store (redis_server new f w id) = Store.New.
Proof. unfold redis_server. by destruct (negb _). Qed.

Lemma redis_server_ring_ok new f w id : ring_ok (new id) → ring_ok (ring (redis_server new f w id)).
Proof.
  intros Hr. unfold redis_server. destruct (negb _); cbn; [apply ring_ok_AddNode|]; by apply ring_ok_AddNode.
Qed.

(** The node answers for its own keys with the advertised address. *)
Lemma redis_server_address new f w id key a : ring_ok (new id) → id ≠ "" →
  ring_GetNode (ring (redis_server new f w id)) key = (id, a) → a = ring_address f.
Proof.
  intros Hr Hid. unfold redis_server. destruct (String.eqb_spec (ring_address f) (redis_address f)) as [E|E]; cbn.
  - intros Hg. rewrite E. by apply (owner_address (new id) id _ 256 key).
  - by apply owner_address; [apply ring_ok_AddNode|].
Qed.

Lemma write_concern_range f : 1 ≤ f_replicaRF f → 1 ≤ write_concern f ≤ f_replicaRF f.
Proof.
  intros Hr. unfold write_concern. destruct (Z.leb_spec (f_writeConcern f) 0); cbn [orb]; [lia|].
  destruct (Z.ltb_spec (f_replicaRF f) (f_writeConcern f)); lia.
Qed.

Lemma load_tls_verified f w t : load_tls f w = inr (Some t) →
  tls_RequireAndVerifyClientCert t = true ∧ tls_ClientCAs t = tls_RootCAs t ∧
  (f_tlsCA f ≠ "" → ∃ pem, w_readFile w (f_tlsCA f) = inr pem ∧ w_pem_ok w pem = true ∧ tls_RootCAs t = FilePool pem).
Proof.
  unfold load_tls, load_pool. destruct (_ && _); [|done]. destruct (w_keyPair w _ _) as [|cert]; [done|].
  destruct (String.eqb_spec (f_tlsCA f) "") as [Hca|Hca]; cbn [negb].
  - destruct (w_systemPool w); [done|]. by intros [= <-].
  - destruct (w_readFile w (f_tlsCA f)) as [|pem]; [done|]. destruct (w_pem_ok w pem) eqn:Ep; [|done].
    intros [= <-]. split; [done|]. split; [done|]. intros _. by exists pem.
Qed.

(** ** Properties *)

(** C17: Without a token a node is reachable from its own machine only, and
    nothing else is refused.  When HAPARTITION_AUTH_TOKEN is not set, [main]
    ends with the demand for a token, before anything has been started, exactly
    when one of the two bind hosts is not a loopback host: "localhost", an
    address of 127.0.0.0/8 (also in its IPv6 form) or ::1.  Of the dotted IPv4
    hosts these are the ones whose first octet is 127; a name other than
    "localhost" is never one; a node that runs has only such hosts. *)
Theorem no_token_only_loopback new f w : w_authToken w = "" →
  ((∃ host, main_start new f w = (Fatal (TokenRequired host), [])) ↔
     ¬ (loopback_host (f_bindHost f) ∧ loopback_host (f_gossipBindHost f))) ∧
  (∀ host tr, main_start new f w = (Fatal (TokenRequired host), tr) →
     tr = [] ∧ host ∈ [f_bindHost f; f_gossipBindHost f] ∧ ¬ loopback_host host) ∧
  (∀ n tr, main_start new f w = (Running n, tr) → loopback_host (f_bindHost f) ∧ loopback_host (f_gossipBindHost f)) ∧
  (∀ a b c d, 0 ≤ a < 256 → 0 ≤ b < 256 → 0 ≤ c < 256 → 0 ≤ d < 256 → loopback_host (quad a b c d) ↔ a = 127) ∧
  (∀ name, ParseIP name = None → loopback_host name ↔ name = "localhost").
Proof.
  intros Ht. pose proof (check_hosts_none "" [f_bindHost f; f_gossipBindHost f]) as Hnone.
  assert (Hpass : check_hosts "" [f_bindHost f; f_gossipBindHost f] = None ↔
    loopback_host (f_bindHost f) ∧ loopback_host (f_gossipBindHost f)).
  { rewrite Hnone, <-!host_allowed_loopback. setoid_rewrite elem_of_cons. setoid_rewrite list_elem_of_singleton. naive_solver. }
  split_and!.
  - rewrite <-Hpass. split.
    + intros (host & E) Hc. apply token_required in E as [Hc' _]. rewrite Ht in Hc'. congruence.
    + intros Hn. destruct (check_hosts "" [f_bindHost f; f_gossipBindHost f]) as [e|] eqn:E; [|done].
      destruct (check_hosts_some _ _ E) as (host & -> & _). exists host. unfold main_start. by rewrite Ht, E.
  - intros host tr E. apply token_required in E as [Hc ->]. rewrite Ht in Hc.
    destruct (check_hosts_some _ _ Hc) as (h' & [= <-] & Hin & Hl). done.
  - intros n tr E. apply main_start_running in E as [Hc _]. rewrite Ht in Hc. by apply Hpass.
  - intros a b c d Ha Hb Hc Hd. rewrite <-host_allowed_loopback, host_allowed_quad by done. apply Z.eqb_eq.
  - intros name E. unfold loopback_host. rewrite E. naive_solver.
Qed.


(** What undoes an action. *)
Definition undone_by (x : Action) : option Action :=
  match x with
  | StartGossip => Some LeaveGossip
  | ListenRedis => Some StopRedis
  | ListenHTTP => Some StopHTTP
  | _ => None
  end.

(** Every part that is started is stopped later, and once stopping has begun
    nothing is started. *)
Fixpoint stops_what_it_starts (tr : list Action) : Prop :=
  match tr with
  | [] => True
  | x :: post =>
      match undone_by x with
      | Some y => y ∈ post
      | None => Forall (λ z, undone_by z = None) post
      end ∧ stops_what_it_starts post
  end.

(** Whatever fails, nothing is left running: in every run of [main] each
    part that was started is stopped later, no part is started or stopped
    twice, and nothing is started once stopping has begun. *)
Theorem starts_are_stopped new f w : stops_what_it_starts (main new f w) ∧ NoDup (main new f w).
Proof.
  assert (Hm : main new f w ∈ [[]; [StartGossip; StopRedis; LeaveGossip]; [StartGossip; ListenRedis; StopRedis; LeaveGossip];
    [StartGossip; ListenRedis; ListenHTTP; StopHTTP; LeaveGossip; StopRedis]]).
  { unfold main. destruct (main_start new f w) as [[e|n] tr] eqn:E.
    - apply main_start_fatal in E. set_solver.
    - apply main_start_running in E as (_ & id & tls & a & b & _ & _ & _ & _ & _ & _ & ->). set_solver. }
  rewrite !elem_of_cons, elem_of_nil in Hm. destruct Hm as [->|[->|[->|[->|[]]]]];
    (split; [cbn; repeat match goal with |- _ ∧ _ => split end; try done; try (by repeat constructor); rewrite !elem_of_cons; tauto
            |apply (bool_decide_unpack _); vm_compute; exact I]).
Qed.
End facts.

(** ** Witnesses *)

Module MainExamples.
#[local] Existing Instances SortedList.ops SortedList_laws MergeSort MergeSort_laws.
#[local] Existing Instances demo_proto demo_proto_laws demo_range demo_range_laws demo_ring demo_ring_laws demo_xxhash.
#[local] Instance demo_unicode : UnicodeTables := id.

Definition world : World :=
  mkWorld "" (inr "host-1") (λ _ _, inl "no file") (λ _, inl "no file") (λ _, false) None (λ _, None) 1
    (λ a, inr a).

Definition new_ring : string → Ring := HashRing.New.

Lemma new_ring_ok id : ring_ok (new_ring id).
Proof. exact (ex_intro _ _ (New_repr id)). Qed.

(** All interfaces, without a token. *)
Definition open_flags : Flags := mkFlags "" "0.0.0.0" "127.0.0.1" "6379" "8080" 7946 "" 2 0 "" "" "" "".

Lemma open_host : ¬ loopback_host "0.0.0.0".
Proof. rewrite <-host_allowed_loopback. vm_compute. discriminate. Qed.

Lemma no_token_only_loopback_witness : ∃ host, main_start new_ring open_flags world = (Fatal (TokenRequired host), []).
Proof.
  apply (proj1 (no_token_only_loopback new_ring open_flags world eq_refl)). intros [Hb _]. exact (open_host Hb).
Defined.

Definition is_running (o : Outcome) : bool := match o with Running _ => true | Fatal _ => false end.

Lemma world_runs : is_running (main_start new_ring default_flags world).1 = true.
Proof. vm_compute. reflexivity. Qed.


(** The port of the management server is taken. *)
Definition busy : World :=
  mkWorld "" (inr "host-1") (λ _ _, inl "no file") (λ _, inl "no file") (λ _, false) None (λ _, None) 1
    (λ a, if String.eqb a "127.0.0.1:8080" then inl "address in use" else inr a).

Lemma starts_are_stopped_witness :
  main new_ring default_flags busy = [StartGossip; ListenRedis; StopRedis; LeaveGossip] ∧
  stops_what_it_starts (main new_ring default_flags busy).
Proof.
  split; [vm_compute; reflexivity|]. exact (proj1 (starts_are_stopped new_ring default_flags busy)).
Defined.
End MainExamples.
