(* ===== verification/ServerReplies.v ===== *)
(** * The replies of the server

    A type discipline for the values the server writes: each command has a
    reply type, and every reply is an error or a value of that type, can be
    encoded, and is read back by a client as the value that was written.  The
    table of CLUSTER SLOTS is shown to be complete. *)

From S2P Require Import Prelude GoStrconv GoSort GoNet GoCrypto BTree Store StoreProps HashRing HashRingProps.
From S2P Require Import RingInterface EventRing Gossip Instances GossipProps Resp RespProps Server ServerProps.
Local Open Scope Z_scope.

(** ** Types *)

Inductive RType :=
  | TNone                        (* errors only *)
  | TText (s : string)           (* one simple string *)
  | TInt (lo hi : Z)             (* an integer within bounds *)
  | TBulk                        (* a bulk string that is not null *)
  | TNullable                    (* a bulk string or null *)
  | TList (t : RType)            (* an array of any length *)
  | TTriple (t1 t2 t3 : RType).  (* an array of three *)

Fixpoint has_type (t : RType) (v : Value) : bool :=
  match t, v with
  | TText x, SimpleString s => String.eqb s x
  | TInt lo hi, Integer i => (lo <=? i) && (i <=? hi)
  | TBulk, BulkString (Some _) => true
  | TNullable, BulkString _ => true
  | TList t, Array vs => forallb (has_type t) vs
  | TTriple t1 t2 t3, Array [a; b; c] => has_type t1 a && has_type t2 b && has_type t3 c
  | _, _ => false
  end.

(** The values of a type that a reader accepts at any size: simple strings are
    lines, integers are 64-bit and arrays are nested at most [left] deep. *)
Fixpoint wire_type (left : nat) (t : RType) : bool :=
  match t with
  | TNone | TBulk | TNullable => true
  | TText s => bool_decide (line_ok s)
  | TInt lo hi => (minInt64 <=? lo) && (hi <=? maxInt64)
  | TList t => match left with O => false | S l => wire_type l t end
  | TTriple t1 t2 t3 =>
      match left with O => false | S l => wire_type l t1 && wire_type l t2 && wire_type l t3 end
  end.

(** The size limits of the reader. *)
Fixpoint sized (v : Value) : bool :=
  match v with
  | BulkString (Some d) => GoStr.len d <=? maxBulkStringLength
  | Array vs => (Z.of_nat (length vs) <=? maxArrayLength) && forallb sized vs
  | _ => true
  end.

Lemma Resp_Array_some vs : Forall (λ v, is_Some (Resp v)) vs → is_Some (Resp (Array vs)).
Proof.
  intros Hall. rewrite Resp_Array. apply fmap_is_Some.
  induction Hall as [|v vs [e Ee] _ [es Ees]]; cbn; [by eexists|]. rewrite Ee. cbn. rewrite Ees. by eexists.
Qed.

(** A typed value can be encoded: it holds no nil. *)
Lemma has_type_Resp t v : has_type t v = true → is_Some (Resp v).
Proof.
  revert v. induction t as [|x|lo hi| | |t IH|t1 IH1 t2 IH2 t3 IH3]; intros [s|s|i|[d|]|vs|] Ht;
    cbn [has_type] in Ht; try discriminate Ht; try (eexists; reflexivity).
  - apply Resp_Array_some, List.Forall_forall. intros v Hv. apply IH. rewrite forallb_forall in Ht. by apply Ht.
  - destruct vs as [|a [|b [|c [|]]]]; try discriminate Ht. apply andb_prop in Ht as [[Ha Hb]%andb_prop Hc].
    apply Resp_Array_some. repeat constructor; auto.
Qed.

Lemma has_type_wire t : ∀ left v, wire_type left t = true → has_type t v = true → sized v = true →
  wire_ok left v = true.
Proof.
  induction t as [|x|lo hi| | |t IH|t1 IH1 t2 IH2 t3 IH3]; intros left [s|s|i|[d|]|vs|] Hw Ht Hs;
    cbn [has_type] in Ht; try discriminate Ht; cbn [wire_ok]; try done.
  - apply String.eqb_eq in Ht as ->. destruct left; done.
  - destruct left; cbn [wire_ok wire_type] in *; apply bool_decide_eq_true; unfold in_int64;
      apply andb_prop in Ht, Hw; lia.
  - by destruct left.
  - by destruct left.
  - by destruct left.
  - destruct left as [|left]; [discriminate Hw|]. cbn [wire_ok wire_type sized] in *.
    apply andb_prop in Hs as [-> Hs]. cbn [andb]. rewrite forallb_forall in *. eauto.
  - destruct left as [|left]; [discriminate Hw|]. destruct vs as [|a [|b [|c [|]]]]; try discriminate Ht.
    cbn [wire_ok wire_type sized forallb andb] in *.
    repeat match goal with E : _ && _ = true |- _ => apply andb_prop in E as [? ?] end.
    rewrite IH1, IH2, IH3 by done. done.
Qed.

(** ** The commands' types *)

Section replies.
Context `{!UnicodeTables}.

Definition int64_t : RType := TInt minInt64 maxInt64.
Definition slot_t : RType := TInt 0 (numSlots - 1).

Definition cluster_type (args : list Value) : RType :=
  match args with
  | BulkString (Some sub) :: _ =>
      let up := ToUpper sub in
      if String.eqb up "SLOTS" then TList (TTriple slot_t slot_t (TTriple TBulk int64_t TBulk))
      else if String.eqb up "NODES" then TNullable
      else if String.eqb up "INFO" then TBulk
      else if String.eqb up "KEYSLOT" then slot_t
      else TNone
  | _ => TNone
  end.

Definition reply_type (cmd : string) (args : list Value) : RType :=
  if String.eqb cmd "PING" then TText "PONG"
  else if String.eqb cmd "INFO" then TBulk
  else if String.eqb cmd "SET" then TText "OK"
  else if String.eqb cmd "GET" then TNullable
  else if String.eqb cmd "DEL" then TInt 0 (Z.of_nat (length args))
  else if String.eqb cmd "NODE.JOIN" then TText "OK"
  else if String.eqb cmd "NODE.LIST" then TList (TTriple TBulk TBulk TBulk)
  else if String.eqb cmd "CLUSTER" then cluster_type args
  else TNone.

(** An error, or a value of the type. *)
Definition typed (t : RType) (v : Value) : bool := is_error v || has_type t v.

Lemma typed_Resp t v : typed t v = true → is_Some (Resp v).
Proof.
  unfold typed. destruct v as [s|s|i|d|vs|]; cbn [is_error orb]; [|intros _; by eexists|..]; apply has_type_Resp.
Qed.

Lemma reply_type_wire cmd args : Z.of_nat (length args) ≤ maxInt64 →
  wire_type maxArrayDepth (reply_type cmd args) = true.
Proof.
  intros Hl. unfold reply_type.
  repeat match goal with |- wire_type _ (if ?b then _ else _) = true => destruct b; [|] end;
    lazymatch goal with
    | |- wire_type _ (cluster_type _) = true => idtac
    | |- wire_type _ (TInt _ _) = true => idtac
    | |- _ => vm_compute; reflexivity
    end.
  - cbn [wire_type]. apply andb_true_intro. split; [done|lia].
  - unfold cluster_type. destruct args as [|[| | |[sub|]| |] args]; try reflexivity.
    generalize (ToUpper sub). intros up.
    repeat match goal with |- wire_type _ (if ?b then _ else _) = true => destruct b; [|] end;
      vm_compute; reflexivity.
Qed.
End replies.

(** ** The handlers *)

Section facts.
Context `{!BTreeOps item, !BTreeLaws less, !Hashring, !HashringLaws, !Proto, !ProtoLaws,
          !SliceSort, !MapRange, !MapRangeLaws, !UnicodeTables, !XXHash}.
Implicit Types s : Server.

Lemma handleKeyCommand_typed t s cmd arity args fn :
  (∀ key value, typed t (fn key value).2 = true) → typed t (handleKeyCommand s cmd arity args fn).2 = true.
Proof.
  intros Hfn. unfold handleKeyCommand. destruct (negb _); [done|]. destruct args as [|a args]; [done|].
  destruct (getBulkString a) as [key|]; [|done]. unfold moved.
  destruct (ring_GetNode (ring s) key) as [o ad]. destruct (_ && _); [done|].
  destruct (arity =? 2); [|apply Hfn]. destruct args as [|v args]; [done|].
  destruct (getBulkString v) as [value|]; [apply Hfn|done].
Qed.

Lemma handleSet_typed s env args : typed (TText "OK") (handleSet s env args).2 = true.
Proof.
  apply handleKeyCommand_typed. intros key value. destruct (SetFrom _ _ _ _) as [entry st].
  by destruct (replicate _ _ _ _) as [s' [err|]].
Qed.

Lemma handleGet_typed s args : typed TNullable (handleGet s args).2 = true.
Proof.
  apply handleKeyCommand_typed. intros key value. destruct (Store.Get _ _) as [[v n] ok].
  cbn [snd]. by destruct ok.
Qed.

Lemma first_moved_typed t s keys e : first_moved s keys = Some e → typed t e = true.
Proof.
  induction keys as [|key keys IH]; cbn; [done|]. unfold moved.
  destruct (ring_GetNode (ring s) key) as [o ad]. destruct (_ && _); [by intros [= <-]|exact IH].
Qed.

Lemma handleDel_typed s env args : server_inv s →
  typed (TInt 0 (Z.of_nat (length args))) (handleDel s env args).2 = true.
Proof.
  intros Hs. destruct args as [|a args]; [done|]. set (all := a :: args).
  destruct (del_keys all) as [keys|] eqn:Hk; [|unfold handleDel, all in *; by rewrite Hk].
  destruct (first_moved s keys) as [e|] eqn:Hm.
  { unfold handleDel, all in *. rewrite Hk, Hm. by apply (first_moved_typed _ s keys). }
  destruct (handleDel_owned s env all keys Hs Hk ltac:(done) Hm) as (_ & _ & [->|[err ->]]); [|done].
  pose proof (Del_del_inv (store s) (nodeID s) keys (si_store _ Hs)) as Hd.
  destruct (Del (store s) (nodeID s) keys) as [[n tombs] st]. cbn [fst snd].
  rewrite (del_count _ _ _ _ _ _ Hd), <-(del_keys_length _ _ Hk).
  unfold typed. cbn [is_error orb has_type]. apply andb_true_intro. split; [apply Z.leb_le, Nat2Z.is_nonneg|]. apply Z.leb_le.
  apply inj_le. etransitivity; [apply subseteq_size; intros k [_ Hin]%elem_of_filter; exact Hin|apply size_list_to_set_le].
Qed.

Lemma handleNodeList_typed s members :
  typed (TList (TTriple TBulk TBulk TBulk)) (handleNodeList s members) = true.
Proof.
  unfold handleNodeList. destruct (backend s); [done|]. unfold typed. cbn [is_error orb has_type].
  apply forallb_forall. intros v (m & -> & _)%list_elem_of_In%list_elem_of_fmap. done.
Qed.

(** ** CLUSTER *)

Lemma slot_entry_typed sr : 0 ≤ HashRing.Start sr ≤ End_ sr → End_ sr < numSlots →
  has_type (TTriple slot_t slot_t (TTriple TBulk int64_t TBulk)) (slot_entry sr) = true.
Proof.
  intros Ha Hb. unfold slot_entry. destruct (split_addr _) as [host port].
  cbn [has_type slot_t int64_t NewBulkString andb].
  assert (Hp : in_int64 (if (Atoi port).1 =? 0 then 6379 else (Atoi port).1)).
  { destruct (_ =? _); [by vm_compute|apply Atoi_in_int64]. }
  unfold in_int64 in Hp. rewrite !andb_true_r.
  rewrite !andb_true_iff, !Z.leb_le. lia.
Qed.

Lemma handleClusterSlots_typed s : server_inv s →
  typed (TList (TTriple slot_t slot_t (TTriple TBulk int64_t TBulk))) (handleClusterSlots s) = true.
Proof.
  intros Hs. pose proof (slots_tile (ring s) (si_ring _ Hs)) as Ht. unfold handleClusterSlots.
  destruct (ring_GetSlotRanges (ring s)) as [|sr0 srs]; [done|]. specialize (Ht ltac:(done)).
  pose proof (tiles_bounds _ _ _ _ Ht) as Hb. revert Hb. generalize (sr0 :: srs). intros l Hb.
  unfold typed. cbn [is_error orb has_type]. apply forallb_forall.
  intros v (sr & -> & [i Hi]%list_elem_of_lookup)%list_elem_of_In%list_elem_of_fmap.
  destruct (Hb i sr Hi). by apply slot_entry_typed.
Qed.

Lemma handleClusterSlots_table s : ring_GetSlotRanges (ring s) ≠ [] →
  handleClusterSlots s = Array (slot_entry <$> ring_GetSlotRanges (ring s)).
Proof. unfold handleClusterSlots. by destruct (ring_GetSlotRanges (ring s)). Qed.

Lemma handleCluster_typed s args : server_inv s → typed (cluster_type args) (handleCluster s args) = true.
Proof.
  intros Hs. unfold handleCluster, cluster_type. destruct args as [|a args]; [done|].
  destruct a as [| | |[sub|]| |]; try done. cbn [getBulkString]. generalize (ToUpper sub). intros up.
  destruct (String.eqb up "SLOTS"); [by apply handleClusterSlots_typed|].
  destruct (String.eqb up "NODES"); [unfold handleClusterNodes; by destruct (ring_GetSlotRanges (ring s))|].
  destruct (String.eqb up "INFO"); [done|].
  destruct (String.eqb up "KEYSLOT"); [|done].
  destruct args as [|b args]; [done|]. destruct (getBulkString b) as [key|]; [|done].
  unfold typed, slot_t. cbn [is_error orb has_type].
  pose proof (Z.mod_pos_bound (HashKey key) 16384 ltac:(lia)). apply andb_true_intro.
  change (numSlots - 1) with 16383. lia.
Qed.

Lemma dispatch_types s env members cmd args : server_inv s →
  typed (reply_type cmd args) (dispatch s env members cmd args).2 = true.
Proof.
  intros Hs. unfold dispatch, reply_type.
  destruct (String.eqb cmd "PING"); [done|]. destruct (String.eqb cmd "INFO"); [done|].
  destruct (String.eqb cmd "SET"); [apply handleSet_typed|].
  destruct (String.eqb cmd "GET"); [apply handleGet_typed|].
  destruct (String.eqb cmd "DEL"); [by apply handleDel_typed|].
  destruct (String.eqb cmd "NODE.JOIN").
  { unfold handleNodeJoin. destruct args as [|a [|b args]]; try done.
    destruct (getBulkString a); [|done]. by destruct (getBulkString b). }
  destruct (String.eqb cmd "NODE.LIST"); [apply handleNodeList_typed|].
  destruct (String.eqb cmd "CLUSTER"); [by apply handleCluster_typed|].
  destruct (String.eqb cmd "NODE.PING"); [done|]. by destruct (String.eqb cmd "NODE.LEAVE").
Qed.

(** The host and the port an entry lists for an address. *)
Definition slot_host (a : string) : string := (split_addr a).1.
Definition slot_port (a : string) : Z := let n := (Atoi (split_addr a).2).1 in if n =? 0 then 6379 else n.

(** The third part of an entry. *)
Definition slot_node (r : Replica) : Value :=
  Array [NewBulkString (slot_host (HashRing.Address r)); Integer (slot_port (HashRing.Address r));
         NewBulkString (if String.eqb (NodeID r) "" then slot_host (HashRing.Address r) else NodeID r)].

Lemma slot_entry_eq sr : slot_entry sr = Array [Integer (HashRing.Start sr); Integer (End_ sr); slot_node (Node sr)].
Proof. unfold slot_entry, slot_node, slot_host, slot_port. by destruct (split_addr _). Qed.

(** A host, possibly empty, and a port number. *)
Lemma slot_address host port : 0 < port < 65536 → has_byte "[" host = false → has_byte "]" host = false →
  slot_host (JoinHostPort host (Itoa port)) = (if String.eqb host "" then "127.0.0.1" else host) ∧
  slot_port (JoinHostPort host (Itoa port)) = port.
Proof.
  intros Hport Eb Ec. unfold slot_host, slot_port, split_addr.
  rewrite SplitHostPort_Join by (first [done|apply has_byte_Itoa_pos; done || lia]). cbn [fst snd].
  rewrite Atoi_Itoa_id by (unfold in_int64, minInt64, maxInt64; lia). cbn [fst].
  by rewrite (proj2 (Z.eqb_neq port 0) ltac:(lia)).
Qed.

(** A text that is not a host and a port. *)
Lemma slot_address_other a : SplitHostPort a = None → slot_host a = "127.0.0.1" ∧
  slot_port a = if (Atoi a).1 =? 0 then 6379 else (Atoi a).1.
Proof. intros E. unfold slot_host, slot_port, split_addr. by rewrite E. Qed.
End facts.

(** ** Properties *)

Section properties.
Context `{!BTreeOps item, !BTreeLaws less, !Hashring, !HashringLaws, !Proto, !ProtoLaws,
          !SliceSort, !MapRange, !MapRangeLaws, !UnicodeTables, !XXHash}.
Implicit Types s : Server.

(** C11: Every reply is well typed: whatever the command and its arguments, the
    reply is an error or a value of the command's reply type ([OK] and [PONG]
    texts, DEL's count between 0 and the number of keys, KEYSLOT's slot below
    16384, the shapes of the CLUSTER and NODE.LIST tables), it can be encoded,
    so the writer never meets a nil, and a reply that is not an error and keeps
    the size limits is read by a client as exactly the value written, with the
    bytes after it untouched. *)
Theorem dispatch_typed s env members cmd args end_ rest : server_inv s →
  Z.of_nat (length args) ≤ maxArrayLength →
  let v := (dispatch s env members cmd args).2 in
  typed (reply_type cmd args) v = true ∧
  ∃ bytes, Resp v = Some bytes ∧
    (is_error v = false → sized v = true → ReadValue end_ (bytes +:+ rest) = inr (v, rest)).
Proof.
  intros Hs Hl v. pose proof (dispatch_types s env members cmd args Hs) as Ht. fold v in Ht.
  split; [done|]. destruct (typed_Resp _ _ Ht) as [bytes Hb]. exists bytes. split; [done|].
  intros He Hz. apply readValue_Resp; [|done].
  unfold typed in Ht. rewrite He in Ht. eapply has_type_wire; [|exact Ht|exact Hz].
  apply reply_type_wire. change maxArrayLength with 1048576 in Hl. unfold maxInt64. lia.
Qed.

(** C15: The table of CLUSTER SLOTS is complete and exact: when it is not the
    error of an empty cluster, every one of the 16384 slots lies in exactly one
    entry, which names the owner the ring gives the slot's name to.  When the
    owner was registered under a host and a port number, the entry holds that
    host (a name, an IPv4 or an IPv6 address without its brackets, 127.0.0.1 if
    it is empty) and that port; for any other address it holds 127.0.0.1 and
    the number the address is, or 6379 if it is none. *)
Theorem cluster_slots_complete s entries : server_inv s → handleClusterSlots s = Array entries →
  ∀ slot, 0 ≤ slot < 16384 →
  ∃ i lo hi host port name,
    entries !! i = Some (Array [Integer lo; Integer hi; Array [NewBulkString host; Integer port; NewBulkString name]]) ∧
    lo ≤ slot ≤ hi ∧
    (∀ j lo' hi' node', entries !! j = Some (Array [Integer lo'; Integer hi'; node']) →
       lo' ≤ slot ≤ hi' → j = i) ∧
    let '(owner, address) := ring_GetNode (ring s) ("SLOT:" +:+ Itoa slot) in
    (owner ≠ "" → name = owner) ∧
    (∀ h p, address = JoinHostPort h (Itoa p) → 0 < p < 65536 → has_byte "[" h = false → has_byte "]" h = false →
       host = (if String.eqb h "" then "127.0.0.1" else h) ∧ port = p) ∧
    (SplitHostPort address = None →
       host = "127.0.0.1" ∧ port = if (Atoi address).1 =? 0 then 6379 else (Atoi address).1).
Proof.
  intros Hs He slot Hslot. pose proof (slots_tile (ring s) (si_ring _ Hs)) as Ht.
  unfold handleClusterSlots in He.
  assert (Hne : ring_GetSlotRanges (ring s) ≠ []) by (intros E; rewrite E in He; discriminate He).
  fold (handleClusterSlots s) in He. rewrite handleClusterSlots_table in He by done.
  injection He as Hent. symmetry in Hent. specialize (Ht Hne).
  destruct (tiles_cover _ _ _ _ Ht slot Hslot) as (i & sr & Hi & Hin & Ho & Hu).
  eexists i, (HashRing.Start sr), (End_ sr), _, _, _. rewrite Hent, list_lookup_fmap, Hi.
  split; [cbn; by rewrite slot_entry_eq|]. split; [done|]. split.
  - intros j lo' hi' node'. rewrite list_lookup_fmap.
    destruct (ring_GetSlotRanges (ring s) !! j) as [sr'|] eqn:Hj; [|done]. cbn.
    rewrite slot_entry_eq. intros [= <- <- _] Hin'. by apply (Hu j sr').
  - destruct (ring_GetNode (ring s) ("SLOT:" +:+ Itoa slot)) as [owner address]. rewrite <-Ho. cbn [HashRing.Address NodeID].
    split_and!; [|intros h p ->; apply slot_address|apply slot_address_other].
    intros Hown. by rewrite (proj2 (String.eqb_neq owner "") Hown).
Qed.
End properties.

(** ** Instances at concrete inputs *)

Module ReplyExamples.
#[local] Existing Instances SortedList.ops SortedList_laws MergeSort MergeSort_laws.
#[local] Existing Instances demo_proto demo_proto_laws demo_range demo_range_laws demo_ring demo_ring_laws demo_xxhash.
#[local] Instance demo_unicode : UnicodeTables := id.
Import GossipExamples ServerExamples.

Lemma dispatch_typed_witness :
  ReadValue EOF (":1" +:+ CRLF +:+ "+next") = inr (Integer 1, "+next").
Proof.
  destruct (dispatch_typed sb ServerExamples.env [] "DEL" [NewBulkString "k"; NewBulkString "a"] EOF "+next" srv_b_inv)
    as (_ & bytes & Hb & Hr); [vm_compute; discriminate|].
  assert (Hv : (dispatch sb ServerExamples.env [] "DEL" [NewBulkString "k"; NewBulkString "a"]).2 = Integer 1)
    by (vm_compute; reflexivity).
  rewrite Hv in Hb, Hr. injection Hb as <-. exact (Hr eq_refl eq_refl).
Defined.

Definition ring_one : @Ring demo_ring := AddNode (HashRing.New "a") "a" "10.0.0.1:6379" 4.
Definition srv_one : Server := mkServer "10.0.0.1:6379" "a" (Standalone (h_store ha) ring_one) 1 "" None.

Lemma srv_one_inv : server_inv srv_one.
Proof.
  destruct ha_inv as [Ea Eb Ec Ed Ee]. split; try done.
  apply (ring_ok_AddNode (HashRing.New "a" : @Ring demo_ring) "a" "10.0.0.1:6379" 4). eexists. apply New_repr.
Qed.

Lemma srv_one_slots : handleClusterSlots srv_one = Array (slot_entry <$> ring_GetSlotRanges ring_one).
Proof.
  apply (handleClusterSlots_table srv_one). apply (consistent_slots_nonempty ring_one).
  intros E. assert (Hb : match entries ring_one with [] => false | _ => true end = true) by (vm_compute; reflexivity).
  rewrite E in Hb. discriminate Hb.
Qed.

Lemma cluster_slots_complete_witness :
  ∃ i lo hi name, handleClusterSlots srv_one = Array (slot_entry <$> ring_GetSlotRanges ring_one) ∧
    (slot_entry <$> ring_GetSlotRanges ring_one) !! i = Some (Array [Integer lo; Integer hi;
      Array [NewBulkString "10.0.0.1"; Integer 6379; NewBulkString name]]) ∧ lo ≤ 777 ≤ hi ∧ name = "a".
Proof.
  destruct (cluster_slots_complete srv_one _ srv_one_inv srv_one_slots 777) as (i & lo & hi & host & port & name & Hi & Hin & _ & Hn); [lia|].
  exists i, lo, hi, name. split; [exact srv_one_slots|].
  assert (Hown : ring_GetNode (ring srv_one) ("SLOT:" +:+ Itoa 777) = ("a", "10.0.0.1:6379")) by (vm_compute; reflexivity).
  rewrite Hown in Hn. destruct Hn as (Hname & Haddr & _).
  destruct (Haddr "10.0.0.1" 6379) as [Eh Ep]; [reflexivity|lia|reflexivity|reflexivity|].
  change (String.eqb "10.0.0.1" "") with false in Eh. cbv iota in Eh.
  rewrite Hi, Eh, Ep. split; [reflexivity|]. split; [exact Hin|]. apply Hname. discriminate.
Defined.
End ReplyExamples.
