(* ===== verification/Convergence.v ===== *)
(** * Anti-entropy brings the replicas together

    Nodes that exchange their states over a network that may delay, reorder,
    duplicate and lose messages, while no client writes and the membership
    stays as it is: the step relation [qstep] composes [exchangeState],
    [handleLocalState], [handleMessage] and [handleMergeRemoteState] of
    gossip.go.  Two results: once a snapshot of every holder of a key has
    reached every replica of it, whatever the schedule, all replicas hold the
    same, newest entry; and the rounds of [antiEntropyLoop] produce such a
    schedule ([sweep]). *)

From S2P Require Import Prelude GoStrconv GoSort BTree Store StoreProps HashRing HashRingProps.
From S2P Require Import RingInterface EventRing Gossip Instances GossipProps.
Local Open Scope Z_scope.

Section model.
Context `{!BTreeOps item, !Hashring, !Proto, !SliceSort, !MapRange}.

(** The nodes by name, the packets in flight with their senders, and a record
    of who has received a snapshot of whom. *)
Record quiet := mkQuiet {
  q_nodes : gmap string Handler;
  q_net : list (string * Packet);
  q_seen : gset (string * string);
}.

Definition sent (src : string) (ps : list Packet) : list (string * Packet) := (λ p, (src, p)) <$> ps.

(** Node [i] becomes [h] and sends [ps]. *)
Definition acts (st : quiet) (i : string) (h : Handler) (ps : list Packet) : quiet :=
  mkQuiet (<[i := h]> (q_nodes st)) (sent i ps ++ q_net st) (q_seen st).

(** A packet of [src] reaches [dst]. *)
Definition receives (st : quiet) (src dst : string) (h : Handler) (ps : list Packet) : quiet :=
  mkQuiet (<[dst := h]> (q_nodes st)) (sent dst ps ++ q_net st) ({[(src, dst)]} ∪ q_seen st).

Inductive qstep (st : quiet) : quiet → Prop :=
  (** a round of the anti-entropy loop, with any members and send results *)
  | q_exchange i h members send_ok : q_nodes st !! i = Some h →
      qstep st (let '(h', ps) := exchangeState h members send_ok in acts st i h' ps)
  (** the transport hands the local state to another node *)
  | q_push i h dst buf : q_nodes st !! i = Some h → handleLocalState h = Some buf →
      qstep st (acts st i h [(dst, buf)])
  (** a packet arrives as a message, and may arrive again *)
  | q_deliver src dst buf h send_ok : (src, (dst, buf)) ∈ q_net st → q_nodes st !! dst = Some h →
      qstep st (let '(h', ps) := handleMessage h send_ok buf in receives st src dst h' ps)
  (** a packet arrives as a remote state *)
  | q_merge src dst buf h : (src, (dst, buf)) ∈ q_net st → q_nodes st !! dst = Some h →
      qstep st (receives st src dst (handleMergeRemoteState h buf) [])
  (** packets are lost or reordered *)
  | q_lose net' : (∀ p, p ∈ net' → p ∈ q_net st) →
      qstep st (mkQuiet (q_nodes st) net' (q_seen st)).

(** Nothing has been sent yet, and the nodes bear their names. *)
Definition starting (nodes : gmap string Handler) : quiet := mkQuiet nodes [] ∅.

(** ** The schedule of the loops *)

(** The packets of one node, delivered in order; packets to unknown nodes are
    lost. *)
Definition deliver_one (src : string) (st : quiet) (p : Packet) : quiet :=
  match q_nodes st !! p.1 with
  | Some h => receives st src p.1 (handleMessage h (λ _, true) p.2).1 (handleMessage h (λ _, true) p.2).2
  | None => st
  end.

(** One tick of the loop of node [i], its packets delivered at once. *)
Definition tick (members : list MemberInfo) (st : quiet) (i : string) : quiet :=
  match q_nodes st !! i with
  | Some h => let '(h', ps) := exchangeState h members (λ _, true) in
              fold_left (deliver_one i) ps (acts st i h' ps)
  | None => st
  end.

(** Every node ticks once for each of its peers. *)
Definition sweep (members : list MemberInfo) (st : quiet) : quiet :=
  fold_left (tick members)
    (flat_map (λ m, replicate (length members) (mi_Name m)) members) st.
End model.

(** ** The invariant *)

Section facts.
Context `{!BTreeOps item, !BTreeLaws less, !Hashring, !HashringLaws, !Proto, !ProtoLaws,
          !SliceSort, !SliceSortLaws, !MapRange, !MapRangeLaws}.
Implicit Types h : Handler.
Implicit Types st : quiet.

(** Some node holds the entry. *)
Definition held (nodes : gmap string Handler) (k : string) (e : Entry) : Prop :=
  ∃ i h, nodes !! i = Some h ∧ Snapshot (h_store h) !! k = Some e.

(** A packet holds a state of its sender, no older than the sender's first. *)
Definition snapshot_of (nodes0 : gmap string Handler) (src buf : string) : Prop :=
  ∃ es h0, Unmarshal buf = Some (EntryBatch es) ∧ nodes0 !! src = Some h0 ∧
    (∀ k e, (k, e) ∈ pb_update <$> es → held nodes0 k e) ∧
    ∀ k e0, Snapshot (h_store h0) !! k = Some e0 → ∃ e, (k, e) ∈ pb_update <$> es ∧ newer e0 e = false.

Record quiet_inv (nodes0 : gmap string Handler) st : Prop := {
  qi_dom i : is_Some (nodes0 !! i) → is_Some (q_nodes st !! i);
  qi_node i h : q_nodes st !! i = Some h →
    handler_inv h ∧ ∃ h0, nodes0 !! i = Some h0 ∧ keeps_writes h0 h ∧ same_view h0 h;
  qi_source i h k e : q_nodes st !! i = Some h → Snapshot (h_store h) !! k = Some e → held nodes0 k e;
  qi_net src dst buf : (src, (dst, buf)) ∈ q_net st → snapshot_of nodes0 src buf;
  qi_seen src dst h0 h k e0 : (src, dst) ∈ q_seen st → nodes0 !! src = Some h0 → q_nodes st !! dst = Some h →
    Snapshot (h_store h0) !! k = Some e0 → isReplica h k = true → covers (Snapshot (h_store h)) k e0;
}.

Lemma starting_inv nodes : map_Forall (λ _ h, handler_inv h) nodes → quiet_inv nodes (starting nodes).
Proof.
  intros Hall. split; cbn [starting q_nodes q_net q_seen].
  - done.
  - intros i h Hi. split; [by apply (Hall i)|]. by exists h.
  - intros i h k e Hi Hk. by exists i, h.
  - by intros src dst buf ?%elem_of_nil.
  - intros src dst h0 h k e0 Hin. set_solver.
Qed.

(** A node changes to one that keeps its writes and its view. *)
Lemma change_inv nodes0 st i h h' : quiet_inv nodes0 st → q_nodes st !! i = Some h →
  handler_inv h' → keeps_writes h h' → same_view h h' →
  (∀ k e, Snapshot (h_store h') !! k = Some e → held nodes0 k e) →
  quiet_inv nodes0 (mkQuiet (<[i := h']> (q_nodes st)) (q_net st) (q_seen st)).
Proof.
  intros [Hdom Hnode Hsrc Hnet Hseen] Hi Hinv Hkeep Hview Hheld. split; cbn [q_nodes q_net q_seen].
  - intros j Hj. destruct (decide (i = j)) as [->|Hne].
    + rewrite lookup_insert_eq. by eexists.
    + rewrite lookup_insert_ne by done. by apply Hdom.
  - intros j g [[<- <-]|[_ Hg]]%lookup_insert_Some; [|by apply Hnode].
    destruct (Hnode i h Hi) as (_ & h0 & Hh0 & Hk & Hv). split; [done|]. exists h0.
    split_and!; [done|by etransitivity|by etransitivity].
  - intros j g k e [[<- <-]|[_ Hg]]%lookup_insert_Some; [apply Hheld|by apply (Hsrc j)].
  - done.
  - intros src dst h0 g k e0 Hin Hsr [[<- <-]|[_ Hg]]%lookup_insert_Some Hk Hr.
    + rewrite (same_view_replica h h') in Hr by done. apply Hkeep. by apply (Hseen src i h0 h).
    + by apply (Hseen src dst h0 g).
Qed.

(** Snapshots are sent. *)
Lemma net_inv nodes0 st net' : quiet_inv nodes0 st →
  (∀ src dst buf, (src, (dst, buf)) ∈ net' → (src, (dst, buf)) ∈ q_net st ∨ snapshot_of nodes0 src buf) →
  quiet_inv nodes0 (mkQuiet (q_nodes st) net' (q_seen st)).
Proof.
  intros [Hdom Hnode Hsrc Hnet Hseen] Hall. split; cbn [q_nodes q_net q_seen]; try done.
  intros src dst buf [Hin|?]%Hall; [by apply (Hnet src dst)|done].
Qed.

(** A snapshot is merged. *)
Lemma merged_inv nodes0 st src dst buf h es : quiet_inv nodes0 st →
  (src, (dst, buf)) ∈ q_net st → q_nodes st !! dst = Some h → Unmarshal buf = Some (EntryBatch es) →
  quiet_inv nodes0 (receives st src dst (HandleReplication h es) []).
Proof.
  intros Hq Hin Hd Hu. destruct (qi_net _ _ Hq _ _ _ Hin) as (es' & h0 & Hu' & Hsr & Hheld & Hnew).
  rewrite Hu in Hu'. injection Hu' as <-.
  destruct (qi_node _ _ Hq _ _ Hd) as [Hinv _].
  assert (Ht : btree_ok (tree (h_store h))) by apply Hinv.
  destruct (HandleReplication_inv h es Hinv) as [Hinv' Hkeep].
  { by apply Unmarshal_int64, message_int64_entries in Hu. }
  pose proof (HandleReplication_frame h es) as Hframe.
  assert (Hview : same_view h (HandleReplication h es)) by (rewrite Hframe; done).
  destruct (change_inv nodes0 st dst h (HandleReplication h es)) as [Hdom Hnode Hsrc Hnet Hseen]; try done.
  { intros k e [Hk|Hk]%merge_snapshot_source; [by apply (qi_source _ _ Hq dst h)|by apply Hheld|done]. }
  split; cbn [receives q_nodes q_net q_seen sent fmap list_fmap app] in *; try done.
  intros s d g0 g k e0 [Heq%elem_of_singleton|Hold]%elem_of_union Hg0 Hg Hk Hr; [|by apply (Hseen s d g0 g)].
  injection Heq as -> ->. rewrite Hsr in Hg0. injection Hg0 as <-.
  rewrite lookup_insert_eq in Hg. injection Hg as <-.
  destruct (Hnew k e0 Hk) as (e & Hine & Hne). rewrite (same_view_replica h) in Hr by done.
  destruct (merge_snapshot_covers h es k e Ht Hine Hr) as (e' & He' & Hn').
  exists e'. split; [done|]. by eapply newer_false_trans.
Qed.

(** The state a node sends is a snapshot of it. *)
Lemma state_snapshot nodes0 st i h m buf : quiet_inv nodes0 st → q_nodes st !! i = Some h →
  serializeStore h = Some m → Marshal m = Some buf → snapshot_of nodes0 i buf.
Proof.
  intros Hq Hi Hs HM. destruct (qi_node _ _ Hq _ _ Hi) as (Hinv & h0 & Hsr & Hkeep & _).
  destruct (snapshot_decodes h m buf Hinv Hs HM) as (es & Hu & Hes). exists es, h0.
  split_and!; [done|done| |].
  - intros k e Hin%Hes. by apply (qi_source _ _ Hq i h).
  - intros k e0 Hk. destruct (Hkeep k e0) as (e & He & Hn).
    { exists e0. split; [done|apply newer_irrefl]. }
    exists e. split; [by apply Hes|done].
Qed.

Lemma exchange_inv' nodes0 st i h members send_ok : quiet_inv nodes0 st → q_nodes st !! i = Some h →
  quiet_inv nodes0 (let '(h', ps) := exchangeState h members send_ok in acts st i h' ps).
Proof.
  intros Hq Hi. pose proof (exchange_spec h members send_ok) as Hx.
  destruct (exchangeState h members send_ok) as [h' ps]. destruct Hx as (Es & Ee & _ & Hv & Hps).
  destruct (qi_node _ _ Hq _ _ Hi) as [[Ea Eb Ec Ed Ef] _]. pose proof Hv as (_ & _ & Er).
  refine (net_inv nodes0 (mkQuiet (<[i := h']> (q_nodes st)) (q_net st) (q_seen st)) (sent i ps ++ q_net st) _ _).
  - apply (change_inv nodes0 st i h); try done.
    + split; try (rewrite Es; done); [by rewrite Er|by rewrite Ee].
    + by apply keeps_same_store.
    + intros k e. rewrite Es. by apply (qi_source _ _ Hq i h).
  - intros src dst buf [Hin|Hin]%elem_of_app; [right|by left].
    apply list_elem_of_fmap in Hin as (p & [= -> <-] & Hin).
    destruct (Hps _ _ Hin) as (m & Hs & HM). by apply (state_snapshot nodes0 st i h m).
Qed.

Lemma qstep_inv nodes0 st st' : qstep st st' → quiet_inv nodes0 st → quiet_inv nodes0 st'.
Proof.
  intros Hstep Hq. destruct Hstep as [i h members so Hi|i h dst buf Hi Hl|src dst buf h so Hin Hd|src dst buf h Hin Hd|net' Hsub].
  - by apply exchange_inv'.
  - unfold handleLocalState in Hl. destruct (serializeStore h) as [m|] eqn:Hs; [|done].
    unfold acts. rewrite insert_id by done. apply net_inv; [done|].
    intros s d b [Hin|Hin]%elem_of_app; [right|by left].
    apply list_elem_of_fmap in Hin as (p & [= -> <-] & [= -> ->]%list_elem_of_singleton).
    by apply (state_snapshot nodes0 st i h m).
  - destruct (qi_net _ _ Hq _ _ _ Hin) as (es & h0 & Hu & _).
    unfold handleMessage. rewrite Hu. by apply (merged_inv nodes0 st src dst buf).
  - destruct (qi_net _ _ Hq _ _ _ Hin) as (es & h0 & Hu & _).
    unfold handleMergeRemoteState. rewrite Hu. by apply (merged_inv nodes0 st src dst buf).
  - apply net_inv; [done|]. intros s d b Hin. left. by apply Hsub.
Qed.

Lemma quiet_reachable_inv nodes0 st st' : rtc qstep st st' → quiet_inv nodes0 st → quiet_inv nodes0 st'.
Proof. induction 1; eauto using qstep_inv. Qed.

(** ** Agreement *)

(** Every replica of [k] has received a state of every first holder of it. *)
Definition spread (nodes0 : gmap string Handler) st (k : string) : Prop :=
  ∀ i j h0 h, nodes0 !! i = Some h0 → is_Some (Snapshot (h_store h0) !! k) →
    q_nodes st !! j = Some h → isReplica h k = true → i = j ∨ (i, j) ∈ q_seen st.

(** A replica covers everything that was held. *)
Lemma spread_covers nodes0 st k j h e : quiet_inv nodes0 st → spread nodes0 st k →
  q_nodes st !! j = Some h → isReplica h k = true → held nodes0 k e →
  covers (Snapshot (h_store h)) k e.
Proof.
  intros Hq Hs Hj Hr (i & h0 & Hi & He).
  destruct (Hs i j h0 h Hi ltac:(by eexists) Hj Hr) as [->|Hin].
  - destruct (qi_node _ _ Hq _ _ Hj) as (_ & g & Hg & Hk & _). rewrite Hi in Hg. injection Hg as <-.
    apply Hk. exists e. split; [done|apply newer_irrefl].
  - by apply (qi_seen _ _ Hq i j h0 h).
Qed.

Lemma spread_agree nodes0 st k j1 j2 h1 h2 : quiet_inv nodes0 st → spread nodes0 st k →
  q_nodes st !! j1 = Some h1 → q_nodes st !! j2 = Some h2 →
  isReplica h1 k = true → isReplica h2 k = true →
  Snapshot (h_store h1) !! k = Snapshot (h_store h2) !! k.
Proof.
  intros Hq Hs Ha Hb Hra Hrb.
  assert (Hcov : ∀ x y hx hy e, q_nodes st !! x = Some hx → q_nodes st !! y = Some hy → isReplica hy k = true →
    Snapshot (h_store hx) !! k = Some e → covers (Snapshot (h_store hy)) k e).
  { intros x y hx hy e Hx Hy Hr He. eapply spread_covers; [done|done|exact Hy|done|].
    by apply (qi_source _ _ Hq x hx). }
  destruct (Snapshot (h_store h1) !! k) as [e1|] eqn:E1, (Snapshot (h_store h2) !! k) as [e2|] eqn:E2; [| | |done].
  - f_equal. eapply (covers_unique k e1 e2); [exact E1|exact E2|by eapply (Hcov j2 j1)|by eapply (Hcov j1 j2)].
  - destruct (Hcov j1 j2 h1 h2 e1) as (e & He & _); try done. congruence.
  - destruct (Hcov j2 j1 h2 h1 e2) as (e & He & _); try done. congruence.
Qed.

(** What all replicas end up with: the newest of the entries that were held. *)
Definition newest (nodes0 : gmap string Handler) (k : string) (o : option Entry) : Prop :=
  match o with
  | Some e => held nodes0 k e ∧ ∀ e0, held nodes0 k e0 → newer e0 e = false
  | None => ∀ e0, ¬ held nodes0 k e0
  end.

Lemma spread_newest nodes0 st k j h : quiet_inv nodes0 st → spread nodes0 st k →
  q_nodes st !! j = Some h → isReplica h k = true → newest nodes0 k (Snapshot (h_store h) !! k).
Proof.
  intros Hq Hs Hj Hr. pose proof (λ e, spread_covers nodes0 st k j h e Hq Hs Hj Hr) as Hcov.
  unfold newest. destruct (Snapshot (h_store h) !! k) as [e|] eqn:He.
  - split; [by apply (qi_source _ _ Hq j h)|]. intros e0 (e' & He' & Hn)%Hcov. congruence.
  - intros e0 (e' & He' & _)%Hcov. congruence.
Qed.

(** ** The schedule of the loops *)

Lemma deliver_one_step src st p : (src, p) ∈ q_net st → rtc qstep st (deliver_one src st p).
Proof.
  destruct p as [d buf]. intros Hin. unfold deliver_one. cbn [fst snd].
  destruct (q_nodes st !! d) as [h|] eqn:Hd; [|reflexivity]. apply rtc_once.
  pose proof (q_deliver st src d buf h (λ _, true) Hin Hd) as Hs.
  by destruct (handleMessage h (λ _, true) buf).
Qed.

Lemma deliver_one_mono src st p : q_seen st ⊆ q_seen (deliver_one src st p) ∧
  ∀ x, x ∈ q_net st → x ∈ q_net (deliver_one src st p).
Proof.
  unfold deliver_one. destruct (q_nodes st !! p.1); [|done]. cbn [receives q_seen q_net].
  split; [set_solver|]. intros x Hx. apply elem_of_app. by right.
Qed.

(** A round sends at most one packet, to the peer whose turn it is. *)
Lemma exchange_turn h members m buf d : serializeStore h = Some m → Marshal m = Some buf →
  (1 < length members)%nat → let n := Z.of_nat (length (peers h members)) in 0 < n →
  mi_Name <$> peers h members !! Z.to_nat (antiEntropyPos h mod n) = Some d →
  ∃ h', exchangeState h members (λ _, true) = (h', [(d, buf)]) ∧
    antiEntropyPos h' = (antiEntropyPos h mod n + 1) mod n.
Proof.
  intros Hs HM Hm n Hn Hd. unfold exchangeState. rewrite Hs.
  destruct (Z.leb_spec (Z.of_nat (length members)) 1); [lia|].
  fold n. destruct (Z.eqb_spec n 0); [lia|].
  destruct (peers h members !! Z.to_nat (antiEntropyPos h mod n)) as [peer|]; [|done].
  injection Hd as <-. rewrite HM. by eexists.
Qed.

Lemma peers_elem h members j : j ∈ mi_Name <$> members → j ≠ localID h → j ∈ mi_Name <$> peers h members.
Proof.
  intros (m & -> & Hm)%list_elem_of_fmap Hne. apply list_elem_of_fmap. exists m. split; [done|].
  rewrite peers_perm. apply elem_of_list_filter_bool. split; [done|]. apply negb_true_iff, String.eqb_neq. done.
Qed.

Lemma peers_not_self h members j : j ∈ mi_Name <$> peers h members → j ≠ localID h.
Proof.
  intros (m & -> & Hm)%list_elem_of_fmap. rewrite peers_perm in Hm.
  apply elem_of_list_filter_bool in Hm as [_ Hm]. by apply negb_true_iff, String.eqb_neq in Hm.
Qed.

Lemma peers_length h members : (length (peers h members) ≤ length members)%nat.
Proof. rewrite peers_perm. apply List.filter_length_le. Qed.

Lemma tick_steps members st i : rtc qstep st (tick members st i).
Proof.
  unfold tick. destruct (q_nodes st !! i) as [h|] eqn:Hi; [|reflexivity].
  pose proof (q_exchange st i h members (λ _, true) Hi) as Hs.
  destruct (exchangeState h members (λ _, true)) as [h' ps]. eapply rtc_l; [exact Hs|].
  assert (Hin : ∀ p, p ∈ ps → (i, p) ∈ q_net (acts st i h' ps)).
  { intros p Hp. apply elem_of_app. left. apply list_elem_of_fmap. eauto. }
  clear Hs. revert Hin. generalize (acts st i h' ps). induction ps as [|p ps IH]; intros s0 Hin; [reflexivity|].
  cbn [fold_left]. etransitivity; [apply deliver_one_step, Hin, elem_of_cons; by left|].
  apply IH. intros q Hq. apply deliver_one_mono, Hin, elem_of_cons. by right.
Qed.

Lemma tick_mono members st i : q_seen st ⊆ q_seen (tick members st i).
Proof.
  unfold tick. destruct (q_nodes st !! i) as [h|]; [|done]. destruct (exchangeState _ _ _) as [h' ps].
  change (q_seen st) with (q_seen (acts st i h' ps)). generalize (acts st i h' ps).
  induction ps as [|p ps IH]; intros s0; [done|]. cbn [fold_left].
  etransitivity; [apply (deliver_one_mono i s0 p)|apply IH].
Qed.

Lemma ticks_steps members is_ st : rtc qstep st (fold_left (tick members) is_ st) ∧
  q_seen st ⊆ q_seen (fold_left (tick members) is_ st).
Proof.
  revert st. induction is_ as [|i is_ IH]; intros st; cbn [fold_left]; [done|].
  destruct (IH (tick members st i)) as [Ha Hb]. pose proof (tick_mono members st i).
  split; [etransitivity; [apply tick_steps|exact Ha]|set_solver].
Qed.

Lemma tick_turn members st i h m buf d : q_nodes st !! i = Some h → localID h = i →
  serializeStore h = Some m → Marshal m = Some buf → (1 < length members)%nat →
  let n := Z.of_nat (length (peers h members)) in 0 < n →
  mi_Name <$> peers h members !! Z.to_nat (antiEntropyPos h mod n) = Some d →
  let st' := tick members st i in
  ∃ h', q_nodes st' !! i = Some h' ∧ h_store h' = h_store h ∧ localID h' = localID h ∧
    antiEntropyPos h' = (antiEntropyPos h mod n + 1) mod n ∧
    (is_Some (q_nodes st !! d) → (i, d) ∈ q_seen st') ∧
    ∀ j, is_Some (q_nodes st !! j) → is_Some (q_nodes st' !! j).
Proof.
  intros Hi Hid Hs HM Hm n Hn Hd st'. pose proof (exchange_spec h members (λ _, true)) as Hx.
  destruct (exchange_turn h members m buf d Hs HM Hm Hn Hd) as (h' & He & Hpos). rewrite He in Hx.
  destruct Hx as (Est & _ & _ & (_ & Eid & _) & _). exists h'.
  assert (Hne : d ≠ i).
  { rewrite <-Hid. apply (peers_not_self h members). apply list_elem_of_lookup.
    exists (Z.to_nat (antiEntropyPos h mod n)). by rewrite list_lookup_fmap. }
  assert (Hst' : st' = deliver_one i (acts st i h' [(d, buf)]) (d, buf)).
  { unfold st', tick. by rewrite Hi, He. }
  rewrite Hst'. unfold deliver_one, acts. cbn [q_nodes fst snd]. rewrite lookup_insert_ne by done.
  destruct (q_nodes st !! d) as [g|] eqn:Hg; cbn [receives q_nodes q_seen].
  - rewrite lookup_insert_ne, lookup_insert_eq by done. split_and!; try done; [set_solver|].
    intros j Hj. rewrite !lookup_insert_is_Some'. auto.
  - rewrite lookup_insert_eq. split_and!; try done.
    intros j Hj. rewrite lookup_insert_is_Some'. auto.
Qed.

Lemma turn_shift pos n j : 0 < n → ((pos mod n + 1) mod n + j) mod n = (pos + (j + 1)) mod n.
Proof.
  intros Hn. rewrite Zplus_mod_idemp_l, <-Z.add_assoc, Zplus_mod_idemp_l. f_equal. lia.
Qed.

Lemma block_seen members i m buf t : (1 < length members)%nat → Marshal m = Some buf →
  ∀ st h, q_nodes st !! i = Some h → localID h = i → serializeStore h = Some m →
  let n := Z.of_nat (length (peers h members)) in 0 < n →
  ∀ j d, 0 ≤ j < Z.of_nat t → mi_Name <$> peers h members !! Z.to_nat ((antiEntropyPos h + j) mod n) = Some d →
    is_Some (q_nodes st !! d) → (i, d) ∈ q_seen (fold_left (tick members) (replicate t i) st).
Proof.
  intros Hm HM. induction t as [|t IH]; intros st h Hi Hid Hs n Hn j d Hj Hd Hk; [lia|].
  cbn [replicate fold_left].
  destruct (lookup_lt_is_Some_2 (peers h members) (Z.to_nat (antiEntropyPos h mod n))) as [peer Hpeer].
  { pose proof (Z.mod_pos_bound (antiEntropyPos h) n Hn). unfold n in *. lia. }
  destruct (tick_turn members st i h m buf (mi_Name peer)) as (h' & Hi' & Est & Eid & Hpos & Hseen & Hdom); try done.
  { fold n. by rewrite Hpeer. }
  fold n in Hpos. destruct (decide (j = 0)) as [->|Hne].
  - apply (ticks_steps members (replicate t i) (tick members st i)).
    rewrite Z.add_0_r, Hpeer in Hd. injection Hd as <-. by apply Hseen.
  - assert (Hpeers : peers h' members = peers h members) by (unfold peers, NodeID_; by rewrite Eid).
    apply (IH (tick members st i) h' Hi') with (j := j - 1); try (rewrite Hpeers; fold n).
    + congruence.
    + unfold serializeStore in *. by rewrite Est.
    + done.
    + lia.
    + rewrite Hpos, turn_shift by done. by replace (j - 1 + 1) with j by lia.
    + by apply Hdom.
Qed.

(** Among as many turns as there are peers every peer has one. *)
Lemma every_turn h members j : j ∈ mi_Name <$> peers h members →
  let n := Z.of_nat (length (peers h members)) in
  0 < n ∧ ∃ x, 0 ≤ x < n ∧ mi_Name <$> peers h members !! Z.to_nat ((antiEntropyPos h + x) mod n) = Some j.
Proof.
  intros [idx Hidx]%list_elem_of_lookup n. rewrite list_lookup_fmap in Hidx.
  assert (Hlt : (idx < length (peers h members))%nat).
  { apply lookup_lt_is_Some. destruct (peers h members !! idx); [by eexists|done]. }
  assert (Hn : 0 < n) by (unfold n; lia). split; [done|].
  exists ((Z.of_nat idx - antiEntropyPos h) mod n). split; [by apply Z.mod_pos_bound|].
  rewrite Zplus_mod_idemp_r. replace (antiEntropyPos h + (Z.of_nat idx - antiEntropyPos h)) with (Z.of_nat idx) by lia.
  rewrite Z.mod_small by (unfold n; lia). by rewrite Nat2Z.id.
Qed.

(** The state of a node whose texts are UTF-8 can be sent. *)
Lemma state_marshals nodes0 st i h m : quiet_inv nodes0 st → q_nodes st !! i = Some h →
  (∀ k e, held nodes0 k e → entry_utf8 (to_pb k e) = true) →
  serializeStore h = Some m → is_Some (Marshal m).
Proof.
  intros Hq Hi Hutf Hs. destruct (serializeStore_spec h m Hs) as (es & -> & Hes).
  apply Marshal_utf8. cbn [message_utf8]. apply forallb_forall. intros p Hp%list_elem_of_In.
  assert (Hheld : held nodes0 (pb_Key p) (of_pb p)).
  { apply (qi_source _ _ Hq i h); [done|]. apply Hes, list_elem_of_fmap. by exists p. }
  by apply Hutf in Hheld.
Qed.

(** The membership the nodes agree on. *)
Record agreed (members : list MemberInfo) (nodes0 : gmap string Handler) : Prop := {
  ag_inv i h : nodes0 !! i = Some h → handler_inv h;
  ag_name i h : nodes0 !! i = Some h → localID h = i ∧ i ∈ mi_Name <$> members;
}.

Lemma two_members (members : list MemberInfo) i j : i ∈ mi_Name <$> members → j ∈ mi_Name <$> members →
  i ≠ j → (1 < length members)%nat.
Proof.
  intros Ha Hb Hne. destruct members as [|x [|y members]]; cbn [length]; [| |lia].
  - by apply elem_of_nil in Ha.
  - apply list_elem_of_singleton in Ha, Hb. congruence.
Qed.

Lemma sweep_seen members nodes0 i j h0 k : agreed members nodes0 →
  (∀ k e, held nodes0 k e → entry_utf8 (to_pb k e) = true) →
  nodes0 !! i = Some h0 → is_Some (Snapshot (h_store h0) !! k) → is_Some (nodes0 !! j) → i ≠ j →
  (i, j) ∈ q_seen (sweep members (starting nodes0)).
Proof.
  intros Hag Hutf Hi [e0 He0] [hj Hj] Hne.
  destruct (ag_name _ _ Hag i h0 Hi) as [_ Himem]. destruct (ag_name _ _ Hag j hj Hj) as [_ Hjmem].
  pose proof (two_members members i j Himem Hjmem Hne) as Hm.
  apply list_elem_of_fmap in Himem as (mi & Emi & (l1 & l2 & Emem)%list_elem_of_split).
  unfold sweep. rewrite Emem at 2. rewrite flat_map_app, fold_left_app. cbn [flat_map].
  rewrite fold_left_app, <-Emi.
  set (st := fold_left (tick members) (flat_map _ l1) (starting nodes0)).
  apply (ticks_steps members (flat_map _ l2)).
  assert (Hq : quiet_inv nodes0 st).
  { apply (quiet_reachable_inv nodes0 (starting nodes0)); [apply ticks_steps|]. apply starting_inv.
    intros x hx Hx. by apply (ag_inv _ _ Hag x). }
  destruct (qi_dom _ _ Hq i ltac:(by eexists)) as [h Hh].
  destruct (qi_node _ _ Hq i h Hh) as (Hinv & g & Hg & Hkeep & _ & Eid & _). rewrite Hi in Hg. injection Hg as <-.
  assert (Hid : localID h = i) by (rewrite Eid; by apply (ag_name _ _ Hag)).
  destruct (Hkeep k e0) as (e & He & _); [exists e0; split; [done|apply newer_irrefl]|].
  destruct (serializeStore_nonempty h k e He) as [m Hs].
  destruct (state_marshals nodes0 st i h m Hq Hh Hutf Hs) as [buf HM].
  destruct (every_turn h members j) as (Hn & x & Hx & Hturn).
  { apply peers_elem; [done|]. rewrite Hid. congruence. }
  apply (block_seen members i m buf (length members) Hm HM st h Hh Hid Hs Hn x); [|done|].
  - pose proof (peers_length h members). lia.
  - apply (qi_dom _ _ Hq). by eexists.
Qed.
(** A sweep is a schedule that spreads every key. *)
Lemma sweep_spreads members nodes0 k : agreed members nodes0 →
  (∀ k e, held nodes0 k e → entry_utf8 (to_pb k e) = true) →
  let st := sweep members (starting nodes0) in
  rtc qstep (starting nodes0) st ∧ quiet_inv nodes0 st ∧ spread nodes0 st k.
Proof.
  intros Hag Hutf st. assert (Hr : rtc qstep (starting nodes0) st) by apply ticks_steps.
  assert (Hq : quiet_inv nodes0 st).
  { apply (quiet_reachable_inv nodes0 (starting nodes0)); [done|]. apply starting_inv.
    intros x hx Hx. by apply (ag_inv _ _ Hag x). }
  split; [done|]. split; [done|]. intros x y h0 hy Hx Hk Hy _. destruct (decide (x = y)) as [->|Hne]; [by left|right].
  destruct (qi_node _ _ Hq y hy Hy) as (_ & hy0 & Hy0 & _). by eapply (sweep_seen members nodes0 x y).
Qed.
End facts.

(** ** Properties *)

Section properties.
Context `{!BTreeOps item, !BTreeLaws less, !Hashring, !HashringLaws, !Proto, !ProtoLaws,
          !SliceSort, !SliceSortLaws, !MapRange, !MapRangeLaws}.

(** C6: Anti-entropy converges under every schedule: while no client writes,
    after any sequence of rounds, pushes, deliveries, duplications and losses
    in which some state of every node that held key [k] has reached every
    replica of [k], every replica holds the newest of the entries that were
    held for [k] (nothing when there was none), so all replicas agree. *)
Theorem anti_entropy_converges nodes0 st k :
  map_Forall (λ _ h, handler_inv h) nodes0 → rtc qstep (starting nodes0) st → spread nodes0 st k →
  (∀ j h, q_nodes st !! j = Some h → isReplica h k = true → newest nodes0 k (Snapshot (h_store h) !! k)) ∧
  (∀ j1 j2 h1 h2, q_nodes st !! j1 = Some h1 → q_nodes st !! j2 = Some h2 →
     isReplica h1 k = true → isReplica h2 k = true →
     Snapshot (h_store h1) !! k = Snapshot (h_store h2) !! k).
Proof.
  intros Hall Hr Hs. pose proof (quiet_reachable_inv _ _ _ Hr (starting_inv _ Hall)) as Hq.
  split; intros *; [by apply spread_newest|by apply (spread_agree nodes0 st k)].
Qed.

(** C5: The anti-entropy loops reach agreement: when the nodes agree on the
    members, their texts are valid UTF-8 and messages arrive, then after one
    sweep, in which every node's loop ticks as often as there are members, all
    replicas of every key hold the newest entry any node held for it. *)
Theorem sweep_converges members nodes0 : agreed members nodes0 →
  (∀ k e, held nodes0 k e → entry_utf8 (to_pb k e) = true) →
  let st := sweep members (starting nodes0) in
  ∀ k j h, q_nodes st !! j = Some h → isReplica h k = true →
    newest nodes0 k (Snapshot (h_store h) !! k) ∧
    ∀ j2 h2, q_nodes st !! j2 = Some h2 → isReplica h2 k = true →
      Snapshot (h_store h2) !! k = Snapshot (h_store h) !! k.
Proof.
  intros Hag Hutf st k j h Hj Hr. destruct (sweep_spreads members nodes0 k Hag Hutf) as (_ & Hq & Hs).
  split; [by apply (spread_newest nodes0 st k j)|].
  intros j2 h2 Hj2 Hr2. by apply (spread_agree nodes0 st k j2 j).
Qed.
End properties.

(** ** Instances at concrete inputs *)

Module ConvergenceExamples.
#[local] Existing Instances SortedList.ops SortedList_laws MergeSort MergeSort_laws.
#[local] Existing Instances demo_proto demo_proto_laws demo_range demo_range_laws demo_ring demo_ring_laws.
Import GossipExamples.

Definition two : gmap string Handler := <["a" := ha]> (<["b" := hb]> ∅).

Lemma two_cases i h : two !! i = Some h → i = "a" ∧ h = ha ∨ i = "b" ∧ h = hb.
Proof.
  unfold two. intros [[<- <-]|[_ [[<- <-]|[_ Hn]]%lookup_insert_Some]]%lookup_insert_Some; [by left|by right|].
  by rewrite lookup_empty in Hn.
Qed.

Lemma two_agreed : agreed members3 two.
Proof.
  split; intros i h [[-> ->]|[-> ->]]%two_cases; [exact ha_inv|exact hb_inv|..]; (split; [reflexivity|]).
  - apply elem_of_cons. right. apply elem_of_cons. by left.
  - apply elem_of_cons. right. apply elem_of_cons. right. by apply list_elem_of_singleton.
Qed.

Definition all_utf8 (h : Handler) : bool :=
  forallb (λ ke, entry_utf8 (to_pb ke.1 ke.2)) (map_to_list (Snapshot (h_store h))).

Lemma two_utf8 k e : held two k e → entry_utf8 (to_pb k e) = true.
Proof.
  assert (Ea : all_utf8 ha = true) by (vm_compute; reflexivity).
  assert (Eb : all_utf8 hb = true) by (vm_compute; reflexivity).
  intros (i & h & Hi%two_cases & Hk).
  assert (E : all_utf8 h = true) by (destruct Hi as [[_ ->]|[_ ->]]; done).
  unfold all_utf8 in E. rewrite forallb_forall in E.
  apply (E (k, e)), list_elem_of_In, elem_of_map_to_list, Hk.
Qed.

(** Node a and node b both wrote "k": b's write has the greater origin. *)
Lemma some_default' {A} (o : option A) d : (if o then true else false) = true → o = Some (default d o).
Proof. by destruct o. Qed.

Definition after (i : string) : Handler :=
  default ha (q_nodes (sweep members3 (starting two)) !! i).

Lemma after_lookup i : (if q_nodes (sweep members3 (starting two)) !! i then true else false) = true →
  q_nodes (sweep members3 (starting two)) !! i = Some (after i).
Proof. unfold after. generalize (q_nodes (sweep members3 (starting two)) !! i). intros o. apply some_default'. Qed.

Lemma sweep_converges_witness :
  newest two "k" (Snapshot (h_store (after "a")) !! "k") ∧
  Snapshot (h_store (after "b")) !! "k" = Snapshot (h_store (after "a")) !! "k" ∧
  Value <$> Snapshot (h_store (after "a")) !! "k" = Some "w".
Proof.
  assert (La : q_nodes (sweep members3 (starting two)) !! "a" = Some (after "a"))
    by (apply after_lookup; vm_compute; reflexivity).
  assert (Lb : q_nodes (sweep members3 (starting two)) !! "b" = Some (after "b"))
    by (apply after_lookup; vm_compute; reflexivity).
  assert (Ra : isReplica (after "a") "k" = true) by (vm_compute; reflexivity).
  assert (Rb : isReplica (after "b") "k" = true) by (vm_compute; reflexivity).
  pose proof (sweep_converges members3 two two_agreed two_utf8 "k" "a" (after "a") La Ra) as Hs.
  split; [exact (proj1 Hs)|]. split; [exact (proj2 Hs "b" (after "b") Lb Rb)|vm_compute; reflexivity].
Defined.

(** The two nodes push their states to each other, b's message arrives
    first. *)
Definition buf_hb : string := default "" (handleLocalState hb).
Definition pushed : quiet :=
  acts (acts (starting two) "a" ha [("b", buf_a)]) "b" hb [("a", buf_hb)].
Definition swapped : quiet :=
  let st := receives pushed "b" "a" (handleMergeRemoteState ha buf_hb) [] in
  receives st "a" "b" (handleMergeRemoteState hb buf_a) [].

Lemma buf_a_state : handleLocalState ha = Some buf_a.
Proof. vm_compute. reflexivity. Qed.
Lemma buf_hb_state : handleLocalState hb = Some buf_hb.
Proof. vm_compute. reflexivity. Qed.

Lemma swapped_reached : rtc qstep (starting two) swapped.
Proof.
  assert (Sa : q_nodes (starting two) !! "a" = Some ha) by apply lookup_insert_eq.
  pose proof (q_push (starting two) "a" ha "b" buf_a Sa buf_a_state) as P1.
  set (st1 := acts (starting two) "a" ha [("b", buf_a)]) in P1.
  assert (Sb : q_nodes st1 !! "b" = Some hb).
  { unfold st1, acts, starting, two. cbn [q_nodes]. do 2 (rewrite lookup_insert_ne by discriminate). apply lookup_insert_eq. }
  pose proof (q_push st1 "b" hb "a" buf_hb Sb buf_hb_state) as P2. fold st1 in P2. change (acts st1 "b" hb [("a", buf_hb)]) with pushed in P2.
  assert (Ta : q_nodes pushed !! "a" = Some ha).
  { unfold pushed, acts. cbn [q_nodes]. rewrite lookup_insert_ne by discriminate. apply lookup_insert_eq. }
  assert (I1 : ("b", ("a", buf_hb)) ∈ q_net pushed) by (apply elem_of_cons; left; reflexivity).
  pose proof (q_merge pushed "b" "a" buf_hb ha I1 Ta) as P3.
  set (st3 := receives pushed "b" "a" (handleMergeRemoteState ha buf_hb) []) in P3.
  assert (Tb : q_nodes st3 !! "b" = Some hb).
  { unfold st3, receives, pushed, acts. cbn [q_nodes]. rewrite lookup_insert_ne by discriminate. apply lookup_insert_eq. }
  assert (I2 : ("a", ("b", buf_a)) ∈ q_net st3)
    by (apply elem_of_cons; right; apply elem_of_cons; left; reflexivity).
  pose proof (q_merge st3 "a" "b" buf_a hb I2 Tb) as P4.
  exact (rtc_l _ _ _ _ P1 (rtc_l _ _ _ _ P2 (rtc_l _ _ _ _ P3 (rtc_once _ _ P4)))).
Qed.

Lemma swapped_spread : spread two swapped "k".
Proof.
  intros i j h0 h Hi _ Hj _.
  assert (Hnames : i = "a" ∨ i = "b") by (destruct (two_cases i h0 Hi) as [[? _]|[? _]]; auto).
  assert (Hj' : j = "a" ∨ j = "b").
  { destruct (decide (j = "a")) as [|Ha], (decide (j = "b")) as [|Hb]; auto.
    unfold swapped, pushed, acts, receives, starting, two in Hj. cbn [q_nodes] in Hj.
    repeat (apply lookup_insert_Some in Hj as [[<- _]|[_ Hj]]; [by auto|]).
    by rewrite lookup_empty in Hj. }
  clear Hi Hj. destruct Hnames as [->| ->], Hj' as [->| ->];
    first [left; reflexivity|right; apply (bool_decide_unpack _); vm_compute; exact I].
Qed.

Definition swapped_a : Handler := default ha (q_nodes swapped !! "a").

Lemma swapped_lookup : q_nodes swapped !! "a" = Some swapped_a.
Proof.
  unfold swapped_a. apply some_default'. vm_compute. reflexivity.
Qed.

Lemma anti_entropy_converges_witness : newest two "k" (Snapshot (h_store swapped_a) !! "k").
Proof.
  refine (proj1 (anti_entropy_converges two swapped "k" _ swapped_reached swapped_spread) "a" swapped_a swapped_lookup _).
  - intros i h [[_ ->]|[_ ->]]%two_cases; [exact ha_inv|exact hb_inv].
  - vm_compute. reflexivity.
Defined.
End ConvergenceExamples.
