(* ===== verification/Failover.v ===== *)
(** * Failover: a fully replicated write survives its owner

    The composition of the quorum write ([Cluster]), the ring and the server:
    when nodes leave, the ring hands their keys to the next replica, which has
    every write that was acknowledged by all replicas, and answers for it. *)

From S2P Require Import Prelude GoStrconv GoSort GoUtf8 GoNet GoCrypto BTree Store StoreProps HashRing HashRingProps.
From S2P Require Import RingInterface EventRing Gossip Instances GossipProps Cluster Resp RespProps Server ServerProps.
Local Open Scope Z_scope.

Section ring.
Context `{!Hashring, !HashringLaws}.

(** The ring after the departure of the nodes [gone], in order. *)
Definition without (r : Ring) (gone : list string) : Ring := fold_left ring_RemoveNode gone r.

Definition stays (gone : list string) (rep : Replica) : bool := negb (bool_decide (NodeID rep ∈ gone)).

Lemma filter_prefix {A} (p : A → bool) l1 l2 : l1 `prefix_of` l2 → List.filter p l1 `prefix_of` List.filter p l2.
Proof. intros [k ->]. rewrite List.filter_app. by eexists. Qed.

Lemma stays_cons id gone l :
  List.filter (stays gone) (List.filter (λ rep, negb (String.eqb (NodeID rep) id)) l) = List.filter (stays (id :: gone)) l.
Proof.
  induction l as [|rep l IH]; cbn [List.filter]; [done|].
  assert (E : stays (id :: gone) rep = negb (String.eqb (NodeID rep) id) && stays gone rep).
  { unfold stays. rewrite <-negb_orb. f_equal.
    destruct (String.eqb_spec (NodeID rep) id) as [->|Hne].
    - apply bool_decide_eq_true. apply elem_of_cons. by left.
    - cbn [orb]. apply bool_decide_ext. rewrite elem_of_cons. naive_solver. }
  rewrite E. destruct (negb (String.eqb (NodeID rep) id)); cbn [List.filter andb]; [|done].
  destruct (stays gone rep); [by rewrite IH|done].
Qed.

(** The replicas that stay are the first replicas afterwards, in order. *)
Lemma replicas_without r gone key count : ring_ok r → 0 < count →
  ring_ok (without r gone) ∧
  List.filter (stays gone) (ring_GetReplicas r key count) `prefix_of` ring_GetReplicas (without r gone) key count.
Proof.
  intros Hr Hc. revert r Hr. induction gone as [|id gone IH]; intros r Hr; cbn [without fold_left].
  - split; [done|]. rewrite list_filter_all; [done|]. intros rep _. unfold stays. by rewrite bool_decide_eq_false_2 by apply not_elem_of_nil.
  - destruct (IH (ring_RemoveNode r id)) as [Hok Hp]; [by apply ring_ok_RemoveNode|]. split; [done|].
    etransitivity; [|exact Hp]. rewrite <-stays_cons. by apply filter_prefix, replicas_remove.
Qed.

(** The key then belongs to the first replica that stays. *)
Lemma owner_without r gone key count rep : ring_ok r → 0 < count →
  head (List.filter (stays gone) (ring_GetReplicas r key count)) = Some rep →
  ring_GetNode (without r gone) key = (NodeID rep, HashRing.Address rep).
Proof.
  intros Hr Hc Hh. destruct (replicas_without r gone key count Hr Hc) as [Hok [k Hk]].
  apply (replicas_owner _ key count rep Hok Hc). rewrite Hk.
  destruct (List.filter (stays gone) (ring_GetReplicas r key count)); [done|exact Hh].
Qed.
End ring.

Section failover.
Context `{!BTreeOps item, !BTreeLaws less, !Hashring, !HashringLaws, !Proto, !ProtoLaws,
          !SliceSort, !SliceSortLaws, !MapRange, !MapRangeLaws, !UnicodeTables, !XXHash}.

(** A write acknowledged by all is held by all. *)
Lemma full_write_everywhere cl wr w id : cluster_inv cl → (wr, w) ∈ c_done cl →
  Z.of_nat (size ({[wr_node wr]} ∪ wr_replicas wr)) ≤ w → id ∈ wr_replicas wr →
  ∃ nd, c_nodes cl !! id = Some nd ∧ covers (Snapshot (h_store (n_handler nd))) (wr_key wr) (wr_entry wr).
Proof.
  intros Hcl Hd Hw Hid. destruct (ci_done _ Hcl _ _ Hd) as (S & Hsub & Hle & Hall).
  assert (Heq : S = {[wr_node wr]} ∪ wr_replicas wr).
  { apply set_eq. apply set_subseteq_size_equiv; [done|lia]. }
  apply Hall. rewrite Heq. apply elem_of_union. by right.
Qed.

End failover.

(** ** A concrete run *)

Module FailoverExamples.
#[local] Existing Instances SortedList.ops SortedList_laws MergeSort MergeSort_laws.
#[local] Existing Instances demo_proto demo_proto_laws demo_range demo_range_laws demo_ring demo_ring_laws.
#[local] Existing Instance demo_xxhash.
Import GossipExamples ClusterExamples.

Definition hc : Handler := mk "c" [].

Definition three : cluster :=
  mkCluster (<["a" := mkNode ha ∅]> (<["b" := mkNode hb ∅]> (<["c" := mkNode hc ∅]> ∅))) [] ∅ [].

(** A waiting call of node a takes an acknowledgement. *)
Definition waiting (cl : cluster) : Call := default (mkCall "" 0 ∅ ∅ 0) (n_calls (node_of cl "a") !! "id").
Definition received (cl : cluster) : Handler * Progress :=
  default (ha, Returned None) (replicate_recv (n_handler (node_of cl "a")) (waiting cl)).
Definition take_ack (cl : cluster) : cluster :=
  settle cl "a" (received cl).1 (n_calls (node_of cl "a")) [] "id" wr (call_w (waiting cl)) (received cl).2.

Lemma take_ack_step cl :
  (if c_nodes cl !! "a" then true else false) = true →
  (if n_calls (node_of cl "a") !! "id" then true else false) = true →
  c_reqs cl !! "id" = Some wr →
  (if replicate_recv (n_handler (node_of cl "a")) (waiting cl) then true else false) = true →
  cstep cl (take_ack cl).
Proof.
  intros Ha Hb Hc Hd. apply step_background.
  simple refine (step_ack cl "a" (node_of cl "a") "id" (waiting cl) wr (received cl).1 (received cl).2 _ _ _ _).
  - by apply some_default.
  - by apply some_default.
  - exact Hc.
  - rewrite <-surjective_pairing. by apply some_default.
Qed.

(** Node a writes to all three; b and c acknowledge. *)
Definition r1 : cluster := begin_write three "a" (mkNode ha ∅) "id" all "k" e2 3.
Definition r2 : cluster := deliver r1 "b".
Definition r3 : cluster := deliver r2 "a".
Definition r4 : cluster := deliver r3 "c".
Definition r5 : cluster := deliver r4 "a".
Definition r6 : cluster := take_ack r5.
Definition r7 : cluster := take_ack r6.

Lemma three_run : rtc cstep three r7.
Proof.
  apply (rtc_l _ _ r1).
  { apply (step_write three "a" (mkNode ha ∅)); [reflexivity|reflexivity|by vm_compute]. }
  apply (rtc_l _ _ r2); [apply deliver_step; vm_compute; reflexivity|].
  apply (rtc_l _ _ r3); [apply deliver_step; vm_compute; reflexivity|].
  apply (rtc_l _ _ r4); [apply deliver_step; vm_compute; reflexivity|].
  apply (rtc_l _ _ r5); [apply deliver_step; vm_compute; reflexivity|].
  apply (rtc_l _ _ r6); [apply take_ack_step; vm_compute; reflexivity|].
  apply (rtc_l _ _ r7); [apply take_ack_step; vm_compute; reflexivity|]. apply rtc_refl.
Qed.

Lemma three_nodes id nd : c_nodes three !! id = Some nd → (id, nd) ∈ [("a", mkNode ha ∅); ("b", mkNode hb ∅); ("c", mkNode hc ∅)].
Proof.
  cbn [c_nodes three]. rewrite !lookup_insert_Some, lookup_empty, !elem_of_cons. naive_solver.
Qed.

Lemma three_initial : initial three ∧ ∀ id nd, c_nodes three !! id = Some nd → handler_inv (n_handler nd).
Proof.
  split.
  - split; [reflexivity|]. split; [reflexivity|]. split; [reflexivity|]. intros id nd Hn%three_nodes.
    rewrite !elem_of_cons in Hn. destruct Hn as [[= -> ->]|[[= -> ->]|[[= -> ->]|[]%elem_of_nil]]]; done.
  - intros id nd Hn%three_nodes.
    rewrite !elem_of_cons in Hn. destruct Hn as [[= -> ->]|[[= -> ->]|[[= -> ->]|[]%elem_of_nil]]];
      [exact ha_inv|exact hb_inv|by apply mk_inv].
Qed.

End FailoverExamples.
