(* ===== verification/AtomicMap.v ===== *)
(** * The cluster as one map

    Clients talk to the servers of a cluster whose membership is stable.  A
    command takes effect at one moment: SET when the owner's [SetFrom] runs,
    DEL when [Del] runs, GET when [Get] runs.  Replication, acknowledgements,
    time-outs, anti-entropy and push-pull go on at any time between.  The file
    shows that the clients see one atomic map: [ystep] is the system, [astep]
    the map, and the theorem a forward simulation. *)

From S2P Require Import Prelude GoStrconv GoSort GoUtf8 GoNet GoCrypto BTree Store StoreProps HashRing HashRingProps.
From S2P Require Import RingInterface EventRing Gossip Instances GossipProps Cluster Resp RespProps Server ServerProps.
Local Open Scope Z_scope.

(** ** The abstract map *)

(** What a client sees at the moment its command takes effect. *)
Inductive obs :=
  | OSet (k v : string)
  | ODel (ks : list string) (n : Z)
  | OGet (k : string) (reply : Value).

Definition bulk_of (o : option string) : Value :=
  match o with Some v => NewBulkString v | None => NullBulkString end.

Inductive astep (db : gmap string string) : obs → gmap string string → Prop :=
  | a_set k v : astep db (OSet k v) (<[k := v]> db)
  | a_del ks : astep db (ODel ks (Z.of_nat (size (dom db ∩ list_to_set ks : gset string))))
                 (filter (λ kv, kv.1 ∉ ks) db)
  | a_get k : astep db (OGet k (bulk_of (db !! k))) db.

Inductive arun : gmap string string → list obs → gmap string string → Prop :=
  | arun_nil db : arun db [] db
  | arun_cons db o db1 os db2 : astep db o db1 → arun db1 os db2 → arun db (o :: os) db2.

(** ** The system *)

Section system.
Context `{!BTreeOps item, !Hashring, !Proto, !SliceSort, !MapRange}.

(** A cluster and the entries written by commands whose replication has not
    begun. *)
Record system := mkSystem { y_cluster : cluster; y_todo : list (string * (string * Entry)) }.

Inductive ystep (y : system) : option obs → system → Prop :=
  (** SET on a node that the ring says owns the key, up to the replication *)
  | y_set s id nd key value :
      c_nodes (y_cluster y) !! id = Some nd → backend s = Clustered (n_handler nd) →
      moved s key = None → clock (store s) + 1 ≤ maxInt64 →
      ystep y (Some (OSet key value))
        (let '(entry, st) := SetFrom (store s) key value (nodeID s) in
         mkSystem (update (y_cluster y) id (mkNode (with_store (n_handler nd) st) (n_calls nd)) [])
           ((id, (key, entry)) :: y_todo y))
  (** DEL *)
  | y_del s id nd keys :
      c_nodes (y_cluster y) !! id = Some nd → backend s = Clustered (n_handler nd) →
      first_moved s keys = None → clock (store s) + Z.of_nat (length keys) ≤ maxInt64 →
      ystep y (Some (ODel keys (Del (store s) (nodeID s) keys).1.1))
        (let '(n, tombstones, st) := Del (store s) (nodeID s) keys in
         mkSystem (update (y_cluster y) id (mkNode (with_store (n_handler nd) st) (n_calls nd)) [])
           (((λ ke, (id, ke)) <$> range_map tombstones) ++ y_todo y))
  (** GET that is not redirected *)
  | y_get s id nd key :
      c_nodes (y_cluster y) !! id = Some nd → backend s = Clustered (n_handler nd) →
      moved s key = None →
      ystep y (Some (OGet key (handleGet s [NewBulkString key]).2)) y
  (** a command calls [ReplicateWithQuorum] for an entry it wrote *)
  | y_replicate id nd uuid send_ok key entry w before after :
      y_todo y = before ++ (id, (key, entry)) :: after →
      c_nodes (y_cluster y) !! id = Some nd → c_reqs (y_cluster y) !! uuid = None →
      ystep y None (mkSystem (begin_write (y_cluster y) id nd uuid send_ok key entry w) (before ++ after))
  (** everything else the nodes do *)
  | y_background cl' : bstep (y_cluster y) cl' → ystep y None (mkSystem cl' (y_todo y)).

Inductive yrun : system → list obs → system → Prop :=
  | yrun_nil y : yrun y [] y
  | yrun_silent y y1 os y2 : ystep y None y1 → yrun y1 os y2 → yrun y os y2
  | yrun_cons y o y1 os y2 : ystep y (Some o) y1 → yrun y1 os y2 → yrun y (o :: os) y2.

(** The value of a key at its owner. *)
Definition value_at (own : string → string) (cl : cluster) (k : string) : option string :=
  nd ← c_nodes cl !! own k; e ← Snapshot (h_store (n_handler nd)) !! k;
  if Deleted e then None else Some (Store.Value e).

(** All rings name the same owner of a key, which is a node of the cluster. *)
Record owned (own : string → string) (cl : cluster) : Prop := {
  ow_name k : own k ≠ "";
  ow_node k : is_Some (c_nodes cl !! own k);
  ow_ring id nd k : c_nodes cl !! id = Some nd → (ring_GetNode (h_ring (n_handler nd)) k).1 = own k;
}.

(** An entry in a store, in a message or waiting for its replication. *)
Definition in_stores (cl : cluster) (k : string) (e : Entry) : Prop :=
  ∃ id nd, c_nodes cl !! id = Some nd ∧ Snapshot (h_store (n_handler nd)) !! k = Some e.
Definition in_packet (buf : string) (k : string) (e : Entry) : Prop :=
  ∃ m, Unmarshal buf = Some m ∧ (k, e) ∈ pb_update <$> message_entries m.
Definition copy (cl : cluster) (k : string) (e : Entry) : Prop :=
  in_stores cl k e ∨ ∃ d buf, (d, buf) ∈ c_net cl ∧ in_packet buf k e.
End system.

(** ** The owner has the newest copy *)

Section facts.
Context `{!BTreeOps item, !BTreeLaws less, !Hashring, !HashringLaws, !Proto, !ProtoLaws,
          !SliceSort, !SliceSortLaws, !MapRange, !MapRangeLaws}.
Implicit Types cl : cluster.
Implicit Types y : system.

Record atomic_inv (own : string → string) y : Prop := {
  ai_cluster : cluster_inv (y_cluster y);
  ai_owned : owned own (y_cluster y);
  ai_copy k e : copy (y_cluster y) k e → holds (y_cluster y) (own k) k e;
  ai_todo id k e : (id, (k, e)) ∈ y_todo y → in_int64 (Version e) ∧ holds (y_cluster y) (own k) k e;
}.

(** One node changes, packets are sent: no write is lost, and every copy is one
    of the [known] entries. *)
Record spreads (known : string → Entry → Prop) cl cl' : Prop := {
  sp_nodes : ∃ id nd nd', c_nodes cl !! id = Some nd ∧ c_nodes cl' = <[id := nd']> (c_nodes cl) ∧
    keeps_writes (n_handler nd) (n_handler nd') ∧ h_ring (n_handler nd') = h_ring (n_handler nd) ;
  sp_copy k e : copy cl' k e → known k e;
}.

Lemma spreads_owned known own cl cl' : spreads known cl cl' → owned own cl → owned own cl'.
Proof.
  intros [(id & nd & nd' & Hn & E & _ & Hr) _] [Ha Hb Hc]. split; [done| |].
  - intros k. rewrite E. destruct (decide (id = own k)) as [->|Hne]; [rewrite lookup_insert_eq; by eexists|].
    by rewrite lookup_insert_ne.
  - intros i x k. rewrite E. intros [[<- <-]|[_ Hx]]%lookup_insert_Some; [|by apply (Hc i)].
    rewrite Hr. by apply (Hc id).
Qed.

Lemma spreads_holds known cl cl' id k e : spreads known cl cl' → holds cl id k e → holds cl' id k e.
Proof.
  intros [(i & nd & nd' & Hn & E & Hk & _) _] (x & Hx & Hcov). unfold holds. rewrite E.
  destruct (decide (i = id)) as [->|Hne].
  - exists nd'. rewrite lookup_insert_eq. split; [done|]. apply Hk. congruence.
  - exists x. by rewrite lookup_insert_ne.
Qed.

(** The owner's entry does not change then. *)
Lemma spreads_value known own cl cl' k : spreads known cl cl' →
  (∀ e, known k e → holds cl (own k) k e) → value_at own cl' k = value_at own cl k.
Proof.
  intros Hs Hcopy. pose proof Hs as [(id & nd & nd' & Hn & E & Hk & _) Hc]. unfold value_at. rewrite E.
  destruct (decide (id = own k)) as [->|Hne]; [|by rewrite lookup_insert_ne].
  rewrite lookup_insert_eq, Hn. cbn [mbind option_bind]. f_equal.
  assert (Hback : ∀ e', Snapshot (h_store (n_handler nd')) !! k = Some e' → covers (Snapshot (h_store (n_handler nd))) k e').
  { intros e' He'. destruct (Hcopy e') as (x & Hx & Hcov).
    - apply Hc. left. exists (own k), nd'. split; [|done]. by rewrite E, lookup_insert_eq.
    - congruence. }
  assert (Hfwd : ∀ e, Snapshot (h_store (n_handler nd)) !! k = Some e → covers (Snapshot (h_store (n_handler nd'))) k e).
  { intros e He. apply Hk. exists e. split; [done|apply newer_irrefl]. }
  destruct (Snapshot (h_store (n_handler nd')) !! k) as [e'|] eqn:E1,
           (Snapshot (h_store (n_handler nd)) !! k) as [e|] eqn:E2; [| | |done].
  - f_equal. by eapply (covers_unique k e' e); [exact E1|exact E2|apply Hfwd|apply Hback].
  - destruct (Hback e' eq_refl) as (x & Hx & _). congruence.
  - destruct (Hfwd e eq_refl) as (x & Hx & _). congruence.
Qed.

Lemma spreads_inv known own y cl' todo' : atomic_inv own y → cluster_inv cl' → spreads known (y_cluster y) cl' →
  (∀ k e, known k e → holds (y_cluster y) (own k) k e) →
  (∀ x, x ∈ todo' → x ∈ y_todo y) → atomic_inv own (mkSystem cl' todo').
Proof.
  intros [Ha Hb Hc Hd] Hcl Hs Hkn Ht. split; cbn [y_cluster y_todo].
  - done.
  - by eapply spreads_owned.
  - intros k e Hk. eapply spreads_holds; [done|]. by apply Hkn, (sp_copy _ _ _ Hs).
  - intros id k e [Hv Hh]%Ht%Hd. split; [done|]. by eapply spreads_holds.
Qed.

(** ** The steps *)

(** The frequent shape of a step. *)
Lemma update_spreads (known : string → Entry → Prop) cl cl' id nd h calls ps : c_nodes cl !! id = Some nd →
  c_nodes cl' = <[id := mkNode h calls]> (c_nodes cl) → c_net cl' = ps ++ c_net cl →
  keeps_writes (n_handler nd) h → h_ring h = h_ring (n_handler nd) →
  (∀ k e, copy cl k e → known k e) →
  (∀ k e, Snapshot (h_store h) !! k = Some e → known k e) →
  (∀ d buf k e, (d, buf) ∈ ps → in_packet buf k e → known k e) → spreads known cl cl'.
Proof.
  intros Hn En Ep Hk Hr Hc Hs Hp. split; [by exists id, nd, (mkNode h calls)|].
  intros k e [(i & x & Hx & He)|(d & buf & Hin & Hb)].
  - rewrite En in Hx. apply lookup_insert_Some in Hx as [[<- <-]|[_ Hx]]; [by apply Hs|]. apply Hc. left. by exists i, x.
  - rewrite Ep in Hin. apply elem_of_app in Hin as [Hin|Hin]; [by apply (Hp d buf)|]. apply Hc. right. by exists d, buf.
Qed.

Lemma settle_shape cl id h calls ps uuid wr w p :
  ∃ calls', c_nodes (settle cl id h calls ps uuid wr w p) = <[id := mkNode h calls']> (c_nodes cl) ∧
    c_net (settle cl id h calls ps uuid wr w p) = ps ++ c_net cl.
Proof. destruct p as [[err|]|c]; cbn; by eexists. Qed.

(** A call that makes progress changes no entry. *)
Lemma settle_spreads cl id nd h uuid wr w p : c_nodes cl !! id = Some nd →
  h_store h = h_store (n_handler nd) → h_ring h = h_ring (n_handler nd) →
  spreads (copy cl) cl (settle cl id h (n_calls nd) [] uuid wr w p).
Proof.
  intros Hn Hs Hr. destruct (settle_shape cl id h (n_calls nd) [] uuid wr w p) as (calls & E1 & E2).
  eapply (update_spreads _ cl _ id nd); [done|exact E1|exact E2|by apply keeps_same_store|done|done| |].
  - intros k e He. rewrite Hs in He. left. by exists id, nd.
  - by intros d buf k e ?%elem_of_nil.
Qed.

(** What a message changes. *)
Lemma message_effect (h : Handler) send_ok buf : handler_inv h →
  h_ring (handleMessage h send_ok buf).1 = h_ring h ∧
  (∀ k e, Snapshot (h_store (handleMessage h send_ok buf).1) !! k = Some e →
    Snapshot (h_store h) !! k = Some e ∨ in_packet buf k e) ∧
  (∀ d b k e, (d, b) ∈ (handleMessage h send_ok buf).2 → ¬ in_packet b k e).
Proof.
  intros Hh. assert (Ht : btree_ok (tree (h_store h))) by apply Hh. unfold handleMessage, in_packet.
  destruct (Unmarshal buf) as [[es|req|resp|]|] eqn:Hu; cbn [fst snd].
  - split; [by rewrite (HandleReplication_frame h es)|]. split; [|by intros d b k e ?%elem_of_nil].
    intros k e [Hk|Hk]%merge_snapshot_source; [by left| |done]. right. eexists. split; [done|exact Hk].
  - unfold handleReplicateRequest. pose proof (apply_request_spec h (req_Entries req) Ht) as Ha.
    destruct (apply_request h (req_Entries req)) as [ok h']. destruct Ha as (_ & Hf & _ & es & [es' Hes] & _ & Hs).
    assert (Hr : h_ring h' = h_ring h) by (by rewrite Hf).
    assert (Hk : ∀ k e, Snapshot (h_store h') !! k = Some e → Snapshot (h_store h) !! k = Some e ∨
      ∃ m, Some (ReplicateReq req) = Some m ∧ (k, e) ∈ pb_update <$> message_entries m).
    { intros k e. rewrite Hs. intros [Hk|Hk]%merge_all_source; [by left|]. right. eexists. split; [done|].
      cbn [message_entries]. rewrite Hes, fmap_app. apply elem_of_app. by left. }
    destruct (Marshal _) as [rb|] eqn:HM; cbn [fst snd]; (split; [done|]; split; [done|]);
      [|by intros d b k e ?%elem_of_nil].
    intros d b k e Hin (m & Hm & Hke). apply Unmarshal_Marshal in HM; [|done].
    destruct (send_ok (req_SenderId req)); [|by apply elem_of_nil in Hin].
    apply list_elem_of_singleton in Hin as [= -> ->]. rewrite HM in Hm. injection Hm as <-.
    by apply elem_of_nil in Hke.
  - assert (Hr : h_ring (handleReplicateResponse h resp) = h_ring h ∧ h_store (handleReplicateResponse h resp) = h_store h).
    { unfold handleReplicateResponse. by destruct (pendingReqs h !! _). }
    destruct Hr as [-> ->]. split; [done|]. split; [by left|by intros d b k e ?%elem_of_nil].
  - split; [done|]. split; [by left|by intros d b k e ?%elem_of_nil].
  - split; [done|]. split; [by left|by intros d b k e ?%elem_of_nil].
Qed.

(** The entries of a state that was sent. *)
Lemma state_packet (h : Handler) m buf k e : handler_inv h → serializeStore h = Some m → Marshal m = Some buf →
  in_packet buf k e → Snapshot (h_store h) !! k = Some e.
Proof.
  intros Hh Hs HM (m' & Hu & Hin). destruct (snapshot_decodes h m buf Hh Hs HM) as (es & Hu' & Hes).
  rewrite Hu in Hu'. injection Hu' as ->. by apply Hes.
Qed.

Lemma bstep_spreads cl cl' : cluster_inv cl → bstep cl cl' → spreads (copy cl) cl cl'.
Proof.
  intros Hcl Hstep. destruct Hstep as [id nd uuid c wr h p Hn _ _ Hr|id nd uuid c wr Hn|id nd buf so Hn Hin
    |id nd members so Hn|id nd from nd' buf Hn Hf Hb].
  - assert (E : h_store h = h_store (n_handler nd) ∧ h_ring h = h_ring (n_handler nd)).
    { unfold replicate_recv in Hr. destruct (pendingReqs _ !! _) as [ch|]; [|done]. cbn in Hr.
      destruct (ch_queue ch); [done|]. destruct (call_progress _); by injection Hr as <- _. }
    by apply settle_spreads; [|apply E..].
  - by apply settle_spreads.
  - destruct (ci_node _ Hcl _ _ Hn) as [Hh _ _ _].
    pose proof (message_effect (n_handler nd) so buf Hh) as (Hr & Hs & Hp).
    pose proof (handleMessage_inv (n_handler nd) so buf Hh) as [_ Hk].
    destruct (handleMessage (n_handler nd) so buf) as [h ps]. cbn [fst snd] in *.
    eapply (update_spreads _ cl _ id nd); [done|reflexivity|reflexivity|done|done|done| |].
    + intros k e [Hke|Hke]%Hs; [left; by exists id, nd|right; by exists id, buf].
    + intros d b k e Hd Hb. by destruct (Hp d b k e Hd).
  - destruct (ci_node _ Hcl _ _ Hn) as [Hh _ _ _]. pose proof (exchange_spec (n_handler nd) members so) as Hx.
    destruct (exchangeState (n_handler nd) members so) as [h ps]. destruct Hx as (Hs & _ & _ & (_ & _ & Hr) & Hp).
    eapply (update_spreads _ cl _ id nd); [done|reflexivity|reflexivity|by apply keeps_same_store|done|done| |].
    + rewrite Hs. intros k e Hke. left. by exists id, nd.
    + intros d b k e (m & Hm & HM)%Hp Hb. left. exists id, nd. split; [done|]. by eapply state_packet.
  - destruct (ci_node _ Hcl _ _ Hn) as [Hh _ _ _], (ci_node _ Hcl _ _ Hf) as [Hh' _ _ _].
    destruct (exec_gossip_inv (n_handler nd) (OpMerge buf) Hh eq_refl) as (h' & [= <-] & _ & Hk).
    unfold handleLocalState in Hb. destruct (serializeStore (n_handler nd')) as [m|] eqn:Hm; [|done].
    destruct (snapshot_decodes (n_handler nd') m buf Hh' Hm Hb) as (es & Hu & Hes).
    unfold handleMergeRemoteState in *. rewrite Hu in *.
    eapply (update_spreads _ cl _ id nd); [done|reflexivity|reflexivity|done| |done| |by intros d b k e ?%elem_of_nil].
    + by rewrite (HandleReplication_frame (n_handler nd) es).
    + intros k e [Hke|Hke]%merge_snapshot_source; [left; by exists id, nd| |apply Hh].
      left. exists from, nd'. split; [done|]. by apply Hes.
Qed.

(** Handing a written entry to replication. *)
Lemma begin_write_spreads cl id nd uuid send_ok key entry w : cluster_inv cl → c_nodes cl !! id = Some nd →
  c_reqs cl !! uuid = None → in_int64 (Version entry) →
  spreads (λ k e, copy cl k e ∨ k = key ∧ e = entry) cl (begin_write cl id nd uuid send_ok key entry w).
Proof.
  intros Hcl Hn Hf Hv. unfold begin_write. destruct (ci_node _ Hcl _ _ Hn) as [Hh _ Hpend _].
  assert (Hnew : pendingReqs (n_handler nd) !! uuid = None).
  { destruct (pendingReqs (n_handler nd) !! uuid) as [ch|] eqn:E; [|done]. destruct (Hpend _ _ E) as [[wr Hw] _]. congruence. }
  assert (Ht : btree_ok (tree (h_store (n_handler nd)))) by apply Hh.
  pose proof (replicate_begin_spec (n_handler nd) uuid send_ok key entry w Ht Hnew) as Hb.
  pose proof (replicate_begin_inv (n_handler nd) uuid send_ok key entry w Hh Hv) as (_ & Hk & _ & Hr).
  destruct (replicate_begin (n_handler nd) uuid send_ok key entry w) as [[h ps] p]. cbn [fst snd] in *. cbv zeta in Hb.
  destruct Hb as (Hs & Hp & _).
  destruct (settle_shape (register cl uuid (new_write id (n_handler nd) key entry)) id h (n_calls nd) ps uuid
    (new_write id (n_handler nd) key entry) w p) as (calls & E1 & E2).
  eapply (update_spreads _ cl _ id nd); [done|exact E1|exact E2|done|done|by left| |].
  - intros k e He. rewrite Hs, SetWithVersion_Snapshot in He by done.
    apply (merge_all_source _ [(key, entry)]) in He as [He|[= -> ->]%list_elem_of_singleton]; [|by right].
    left. left. by exists id, nd.
  - intros d buf k e Hin (m & Hu & Hke). destruct (Hp d buf Hin) as (_ & HM & _).
    apply Unmarshal_Marshal in HM; [|cbn; by rewrite bool_decide_eq_true_2].
    rewrite HM in Hu. injection Hu as <-. apply list_elem_of_singleton in Hke as [= -> ->]. right. by destruct entry.
Qed.

(** ** Commands *)

Definition live_value (e : Entry) : option string := if Deleted e then None else Some (Store.Value e).

(** A node writes new versions of keys it owns. *)
Lemma local_write own y id nd st (new : gmap string Entry) todo :
  let h := n_handler nd in
  let cl' := update (y_cluster y) id (mkNode (with_store h st) (n_calls nd)) [] in
  atomic_inv own y → c_nodes (y_cluster y) !! id = Some nd → cluster_inv cl' →
  Snapshot st = new ∪ Snapshot (h_store h) →
  (∀ k e, new !! k = Some e → own k = id ∧ clock (h_store h) < Version e) →
  (∀ x, x ∈ todo → x ∈ y_todo y ∨ ∃ ke, x = (id, ke) ∧ new !! ke.1 = Some ke.2) →
  atomic_inv own (mkSystem cl' todo) ∧
  ∀ k, value_at own cl' k = match new !! k with Some e => live_value e | None => value_at own (y_cluster y) k end.
Proof.
  intros h cl' [Ha Hb Hc Hd] Hn Hcl Hst Hnew Ht.
  assert (Hid : c_nodes cl' !! id = Some (mkNode (with_store h st) (n_calls nd))) by apply lookup_insert_eq.
  assert (Hout : ∀ i x, i ≠ id → c_nodes cl' !! i = Some x ↔ c_nodes (y_cluster y) !! i = Some x).
  { intros i x Hi. subst cl'. cbn [c_nodes update]. by rewrite lookup_insert_ne. }
  assert (Hown : ∀ k e, new !! k = Some e → holds cl' (own k) k e).
  { intros k e Hk. destruct (Hnew k e Hk) as [-> _]. eexists. split; [exact Hid|]. exists e. split; [|apply newer_irrefl].
    cbn [n_handler h_store with_store]. rewrite Hst. by apply lookup_union_Some_l. }
  assert (Hkeep : ∀ i k e, holds (y_cluster y) i k e → holds cl' i k e).
  { intros i k e (x & Hx & e0 & He0 & Hne). destruct (decide (i = id)) as [->|Hi]; [|exists x; split; [by apply Hout|by exists e0]].
    assert (x = nd) as -> by congruence. eexists. split; [exact Hid|]. unfold covers. cbn [n_handler h_store with_store].
    rewrite Hst. destruct (new !! k) as [e1|] eqn:Hk.
    - exists e1. split; [by apply lookup_union_Some_l|]. apply (newer_false_trans _ e0); [done|].
      apply newer_asym, newer_version. destruct (Hnew k e1 Hk) as [_ Hv].
      pose proof (hi_clock _ (ni_handler _ _ _ (ci_node _ Ha _ _ Hn)) k e0 He0) as Hle. cbn in Hle. subst h. lia.
    - exists e0. split; [by rewrite lookup_union_r|done]. }
  split; [split; cbn [y_cluster y_todo]|].
  - done.
  - destruct Hb as [Hb1 Hb2 Hb3]. split; [done| |].
    + intros k. destruct (decide (own k = id)) as [->|Hi]; [by eexists|].
      destruct (Hb2 k) as [x Hx]. exists x. by apply Hout.
    + intros i x k Hx. destruct (decide (i = id)) as [->|Hi]; [|by apply (Hb3 i), Hout].
      rewrite Hid in Hx. injection Hx as <-. by apply (Hb3 id nd).
  - intros k e [(i & x & Hx & He)|(d & buf & Hin & Hp)]; [|apply Hkeep, Hc; right; by exists d, buf].
    destruct (decide (i = id)) as [->|Hi]; [|apply Hkeep, Hc; left; exists i, x; split; [by apply Hout|done]].
    rewrite Hid in Hx. injection Hx as <-. cbn [n_handler h_store with_store] in He. rewrite Hst in He.
    apply lookup_union_Some_raw in He as [He|[_ He]]; [by apply Hown|]. apply Hkeep, Hc. left. by exists id, nd.
  - intros i k e [Hin|([k' e'] & [= -> -> ->] & Hk)]%Ht.
    + destruct (Hd i k e Hin) as [Hv Hh]. split; [done|]. by apply Hkeep.
    + split; [|by apply Hown]. apply (hi_versions _ (ni_handler _ _ _ (ci_node _ Hcl _ _ Hid)) k').
      cbn [n_handler h_store with_store]. rewrite Hst. by apply lookup_union_Some_l.
  - intros k. unfold value_at. destruct (decide (own k = id)) as [E|Hi].
    + rewrite E, Hid, Hn. cbn [mbind option_bind n_handler h_store with_store]. rewrite Hst.
      destruct (new !! k) as [e|] eqn:Hk; [by rewrite (lookup_union_Some_l _ _ _ _ Hk)|by rewrite lookup_union_r].
    + destruct (new !! k) as [e|] eqn:Hk; [by destruct (Hnew k e Hk)|].
      destruct (c_nodes (y_cluster y) !! own k) as [x|] eqn:Hx; [by rewrite (proj2 (Hout _ x Hi) Hx)|].
      destruct (ow_node _ _ Hb k) as [z Hz]. congruence.
Qed.

(** A node that does not redirect is the owner. *)
Lemma moved_owner own y s id nd key : atomic_inv own y → c_nodes (y_cluster y) !! id = Some nd →
  backend s = Clustered (n_handler nd) → moved s key = None → own key = id.
Proof.
  intros [Ha [Hb1 _ Hb3] _ _] Hn Hs. unfold moved, ring, nodeID, NodeID_. rewrite Hs.
  specialize (Hb3 id nd key Hn). destruct (ring_GetNode _ key) as [o a]. cbn [fst] in Hb3. subst o.
  rewrite (ni_id _ _ _ (ci_node _ Ha _ _ Hn)). destruct (String.eqb_spec (own key) "") as [E|_]; [by destruct (Hb1 key)|].
  by destruct (String.eqb_spec (own key) id).
Qed.

Lemma first_moved_none s keys k : first_moved s keys = None → k ∈ keys → moved s k = None.
Proof.
  induction keys as [|x keys IH]; [by intros _ ?%elem_of_nil|]. cbn [first_moved].
  destruct (moved s x) eqn:E; [done|]. intros Hf [->|Hin]%elem_of_cons; auto.
Qed.

(** [db] is the map the owners hold. *)
Definition represents own cl (db : gmap string string) : Prop := ∀ k, db !! k = value_at own cl k.

(** What a SET leaves in the store and hands to replication. *)
Lemma set_step own y s id nd key value db : atomic_inv own y → represents own (y_cluster y) db →
  c_nodes (y_cluster y) !! id = Some nd → backend s = Clustered (n_handler nd) → moved s key = None →
  clock (store s) + 1 ≤ maxInt64 →
  let '(entry, st) := SetFrom (store s) key value (nodeID s) in
  let cl' := update (y_cluster y) id (mkNode (with_store (n_handler nd) st) (n_calls nd)) [] in
  atomic_inv own (mkSystem cl' ((id, (key, entry)) :: y_todo y)) ∧ represents own cl' (<[key := value]> db).
Proof.
  intros Hy Hdb Hn Hs Hm Hle. pose proof (moved_owner own y s id nd key Hy Hn Hs Hm) as Hown.
  pose proof (ai_cluster _ _ Hy) as Ha. destruct (ci_node _ Ha _ _ Hn) as [[Hi Hc _ _ _] _ _ _].
  unfold store in *. rewrite Hs in *. set (st0 := h_store (n_handler nd)) in *.
  pose proof (SetFrom_Snapshot st0 key value (nodeID s) Hi Hc ltac:(lia)) as Hsn.
  assert (He : (SetFrom st0 key value (nodeID s)).1 = mkEntry value (clock st0 + 1) (nodeID s) false).
  { unfold SetFrom. rewrite int64_succ; [|exact (inv_clock _ Hi)|lia]. destruct (tree_Get st0 key) as [old ok]. by destruct (negb ok || _). }
  pose proof (store_step_inv (y_cluster y) id nd (OpSetFrom key value (nodeID s)) Ha Hn eq_refl Hle) as Hcl.
  cbn [exec_op] in Hcl. fold st0 in Hcl. destruct (SetFrom st0 key value (nodeID s)) as [entry st]. cbn [fst snd] in *.
  subst entry. set (e := mkEntry value (clock st0 + 1) (nodeID s) false) in *.
  destruct (local_write own y id nd st {[key := e]} ((id, (key, e)) :: y_todo y)) as [Hinv Hval]; try done.
  - rewrite Hsn. apply insert_union_singleton_l.
  - intros k e' [<- <-]%lookup_singleton_Some. split; [done|]. cbn. subst st0. lia.
  - intros x [->|Hx]%elem_of_cons; [right; exists (key, e); split; [done|apply lookup_singleton_eq]|by left].
  - split; [exact Hinv|]. intros k. rewrite Hval. destruct (decide (key = k)) as [<-|Hne].
    + by rewrite lookup_insert_eq, lookup_singleton_eq.
    + rewrite lookup_insert_ne, lookup_singleton_ne by done. apply Hdb.
Qed.

(** What a DEL leaves. *)
Lemma del_step own y s id nd keys db : atomic_inv own y → represents own (y_cluster y) db →
  c_nodes (y_cluster y) !! id = Some nd → backend s = Clustered (n_handler nd) → first_moved s keys = None →
  clock (store s) + Z.of_nat (length keys) ≤ maxInt64 →
  let '(n, tombs, st) := Del (store s) (nodeID s) keys in
  let cl' := update (y_cluster y) id (mkNode (with_store (n_handler nd) st) (n_calls nd)) [] in
  atomic_inv own (mkSystem cl' (((λ ke, (id, ke)) <$> range_map tombs) ++ y_todo y)) ∧
  n = Z.of_nat (size (dom db ∩ list_to_set keys : gset string)) ∧
  represents own cl' (filter (λ kv, kv.1 ∉ keys) db).
Proof.
  intros Hy Hdb Hn Hs Hm Hle.
  assert (Hown : ∀ k, k ∈ keys → own k = id).
  { intros k Hk. by apply (moved_owner own y s id nd k Hy Hn Hs), (first_moved_none s keys). }
  pose proof (ai_cluster _ _ Hy) as Ha. destruct (ci_node _ Ha _ _ Hn) as [[Hi Hc _ _ _] _ _ _].
  unfold store in *. rewrite Hs in *. set (st0 := h_store (n_handler nd)) in *.
  pose proof (Del_del_inv st0 (nodeID s) keys Hi) as Hd. pose proof (Del_clock st0 (nodeID s) keys Hi Hc Hle) as (_ & _ & Hv).
  pose proof (store_step_inv (y_cluster y) id nd (OpDel (nodeID s) keys) Ha Hn eq_refl Hle) as Hcl.
  cbn [exec_op] in Hcl. fold st0 in Hcl. destruct (Del st0 (nodeID s) keys) as [[n tombs] st]. cbn [fst snd] in *.
  destruct Hd as [_ Hdom Htb Hsn Hcount _].
  assert (Hin : ∀ k e, tombs !! k = Some e → k ∈ keys).
  { intros k e Hk%elem_of_dom_2. rewrite Hdom in Hk. by apply elem_of_list_to_set in Hk. }
  assert (Hval0 : ∀ k, k ∈ keys → db !! k = (e ← Snapshot st0 !! k; live_value e)).
  { intros k Hk. rewrite (Hdb k). unfold value_at. by rewrite (Hown k Hk), Hn. }
  destruct (local_write own y id nd st tombs (((λ ke, (id, ke)) <$> range_map tombs) ++ y_todo y)) as [Hinv Hval]; try done.
  - intros k e Hk. split; [by eapply Hown, Hin|]. exact (Hv k e Hk).
  - intros x [Hx|Hx]%elem_of_app; [|by left]. right. apply list_elem_of_fmap in Hx as ([k e] & -> & Hx).
    rewrite range_map_perm in Hx. exists (k, e). split; [done|]. by apply elem_of_map_to_list in Hx.
  - split; [exact Hinv|]. split.
    + rewrite Hcount. do 2 f_equal. apply set_eq. intros k. rewrite elem_of_filter, elem_of_intersection.
      rewrite (Get_found st0 k) by apply Hi. rewrite elem_of_dom, elem_of_list_to_set.
      split; [intros [Hl Hk]|intros [Hl Hk]]; (split; [|done]); rewrite (Hval0 k Hk) in *;
        destruct (Snapshot st0 !! k) as [e|]; cbn in *; unfold live_value in *;
        try destruct (Deleted e); try done; by destruct Hl.
    + intros k. rewrite Hval. destruct (tombs !! k) as [e|] eqn:Hk.
      * destruct (Htb k e Hk) as (Hdel & _). unfold live_value. rewrite Hdel.
        apply map_lookup_filter_None. right. intros v _ Hnot. by apply Hnot, (Hin k e).
      * rewrite <-(Hdb k). destruct (db !! k) as [v|] eqn:Hv'.
        -- apply map_lookup_filter_Some. split; [done|]. cbn. intros Hks. apply not_elem_of_dom in Hk.
           rewrite Hdom in Hk. by apply Hk, elem_of_list_to_set.
        -- apply map_lookup_filter_None. by left.
Qed.

(** What a GET returns. *)
Lemma get_step own y s id nd key db : atomic_inv own y → represents own (y_cluster y) db →
  c_nodes (y_cluster y) !! id = Some nd → backend s = Clustered (n_handler nd) → moved s key = None →
  (handleGet s [NewBulkString key]).2 = bulk_of (db !! key).
Proof.
  intros Hy Hdb Hn Hs Hm. pose proof (moved_owner own y s id nd key Hy Hn Hs Hm) as Hown.
  destruct (ci_node _ (ai_cluster _ _ Hy) _ _ Hn) as [[Hi _ _ _ _] _ _ _].
  rewrite handleGet_owned; [|unfold store; rewrite Hs; apply Hi|done]. cbn [snd].
  rewrite (Hdb key). unfold value_at, store. rewrite Hown, Hn, Hs. cbn [mbind option_bind].
  destruct (Snapshot _ !! key) as [e|]; [|done]. cbn. by destruct (Deleted e).
Qed.

(** The simulation: a step of the system is a step of the map, or none. *)
Lemma ystep_simulates own y o y' db : atomic_inv own y → represents own (y_cluster y) db → ystep y o y' →
  atomic_inv own y' ∧ ∃ db', represents own (y_cluster y') db' ∧
    match o with Some o => astep db o db' | None => db' = db end.
Proof.
  intros Hy Hdb Hstep. pose proof Hy as [Ha Hb Hc Hd]. destruct Hstep as [s id nd key value Hn Hs Hm Hle
    |s id nd keys Hn Hs Hm Hle|s id nd key Hn Hs Hm|id nd uuid so key entry w before after Ht Hn Hf|cl' Hbs].
  - pose proof (set_step own y s id nd key value db Hy Hdb Hn Hs Hm Hle) as Hset.
    destruct (SetFrom (store s) key value (nodeID s)) as [entry st]. destruct Hset as [Hinv Hrep].
    split; [exact Hinv|]. eexists. split; [exact Hrep|constructor].
  - pose proof (del_step own y s id nd keys db Hy Hdb Hn Hs Hm Hle) as Hdel.
    destruct (Del (store s) (nodeID s) keys) as [[n tombs] st]. destruct Hdel as (Hinv & -> & Hrep).
    split; [exact Hinv|]. eexists. split; [exact Hrep|constructor].
  - split; [done|]. exists db. split; [done|]. rewrite (get_step own y s id nd key db) by done. constructor.
  - assert (Hin : (id, (key, entry)) ∈ y_todo y) by (rewrite Ht; apply elem_of_app; right; apply elem_of_cons; by left).
    destruct (Hd _ _ _ Hin) as [Hv Hh].
    pose proof (begin_write_spreads (y_cluster y) id nd uuid so key entry w Ha Hn Hf Hv) as Hs.
    assert (Hkn : ∀ k e, copy (y_cluster y) k e ∨ k = key ∧ e = entry → holds (y_cluster y) (own k) k e).
    { intros k e [Hk|[-> ->]]; [by apply Hc|done]. }
    split; [|exists db; split; [|done]].
    + eapply spreads_inv; [done|by apply write_inv|exact Hs|exact Hkn|]. rewrite Ht. intros x. rewrite !elem_of_app, elem_of_cons. tauto.
    + intros k. rewrite (Hdb k). symmetry. eapply spreads_value; [exact Hs|]. intros e. apply Hkn.
  - pose proof (bstep_spreads _ _ Ha Hbs) as Hs. split; [|exists db; split; [|done]].
    + eapply spreads_inv; [done|by eapply bstep_inv|exact Hs|exact Hc|done].
    + intros k. rewrite (Hdb k). symmetry. eapply spreads_value; [exact Hs|]. intros e. apply Hc.
Qed.

(** C2: With a stable membership the cluster is one atomic map.  Take any
    interleaving of SET, DEL and GET on any nodes with calls of
    [ReplicateWithQuorum], acknowledgements, time-outs, lost, late and
    repeated messages, anti-entropy rounds and push-pull exchanges.  What the
    clients that were not redirected saw is a run of a single map from keys to
    values, with each command taking effect at once: a GET returns the value
    of the latest SET that took effect, null after a DEL, and a DEL counts the
    keys that were there. *)
Theorem cluster_is_atomic_map own cl0 db0 os y : initial cl0 →
  (∀ id nd, c_nodes cl0 !! id = Some nd → handler_inv (n_handler nd)) → owned own cl0 →
  (∀ k e, in_stores cl0 k e → holds cl0 (own k) k e) → represents own cl0 db0 →
  yrun (mkSystem cl0 []) os y →
  ∃ db, arun db0 os db ∧ represents own (y_cluster y) db.
Proof.
  intros Hinit Hh Ho Hcov Hdb Hrun.
  assert (Hy : atomic_inv own (mkSystem cl0 [])).
  { split; cbn [y_cluster y_todo]; [by apply initial_inv|done| |by intros id k e ?%elem_of_nil].
    intros k e [Hs|(d & buf & Hin & _)]; [by apply Hcov|]. destruct Hinit as (E & _). rewrite E in Hin. by apply elem_of_nil in Hin. }
  assert (Hgen : ∀ y0 db, atomic_inv own y0 → represents own (y_cluster y0) db → yrun y0 os y →
    ∃ db', arun db os db' ∧ represents own (y_cluster y) db'); [|by apply (Hgen (mkSystem cl0 []))].
  clear Hy Hinit Hh Ho Hcov Hdb Hrun. intros y0 db Hy Hdb Hrun. revert db Hy Hdb. induction Hrun as [y|y y1 os y2 Hs _ IH|y o y1 os y2 Hs _ IH]; intros db Hy Hdb.
  - exists db. split; [constructor|done].
  - destruct (ystep_simulates own y _ _ db Hy Hdb Hs) as (Hy1 & db1 & Hdb1 & ->). by apply IH.
  - destruct (ystep_simulates own y _ _ db Hy Hdb Hs) as (Hy1 & db1 & Hdb1 & Ha).
    destruct (IH db1 Hy1 Hdb1) as (db' & Hr & Hdb'). exists db'. split; [by econstructor|done].
Qed.
End facts.

(** ** A concrete run *)

Module AtomicExamples.
#[local] Existing Instances SortedList.ops SortedList_laws MergeSort MergeSort_laws.
#[local] Existing Instances demo_proto demo_proto_laws demo_range demo_range_laws demo_ring demo_ring_laws demo_xxhash.
Import GossipExamples ClusterExamples.

(** Three empty nodes with the same ring. *)
Definition nodes : list string := ["a"; "b"; "c"].
Definition cl_empty : cluster :=
  mkCluster (list_to_map ((λ id, (id, mkNode (mk id []) ∅)) <$> nodes)) [] ∅ [].
Definition owner (k : string) : string := (ring_GetNode (ring3 "a" : Ring) k).1.

Lemma ring3_entries local : entries (ring3 local) = entries (ring3 "a").
Proof. vm_compute. reflexivity. Qed.

Lemma ring3_owner local k : (ring_GetNode (ring3 local : Ring) k).1 = owner k.
Proof. unfold owner. cbn [ring_GetNode demo_ring consistent]. unfold GetNode. by rewrite ring3_entries. Qed.

Lemma owner_node k : owner k ∈ nodes.
Proof.
  unfold owner. cbn [ring_GetNode demo_ring consistent]. rewrite GetNode_successor.
  2: { exact (repr_sorted _ _ (run_ring_repr (H := demo_xxhash) "a" _)). }
  destruct (successor (entries (ring3 "a")) (hashKey k)) as [e|] eqn:E.
  - apply successor_elem in E. cbn [fst].
    assert (Hall : forallb (λ e, bool_decide (HashRing.nodeID e ∈ nodes)) (entries (ring3 "a")) = true) by (vm_compute; reflexivity).
    revert E Hall. generalize (entries (ring3 "a")). intros es E Hall.
    rewrite forallb_forall in Hall. apply (bool_decide_eq_true_1 _), Hall. by apply list_elem_of_In.
  - exfalso. unfold successor in E. destruct (List.find _ _); [done|].
    assert (Hh : (if head (entries (ring3 "a")) then true else false) = true) by (vm_compute; reflexivity).
    by rewrite E in Hh.
Qed.

Lemma empty_nodes id nd : c_nodes cl_empty !! id = Some nd → id ∈ nodes ∧ nd = mkNode (mk id []) ∅.
Proof.
  cbn [c_nodes cl_empty]. intros Hin%elem_of_list_to_map_2. apply list_elem_of_fmap in Hin as (i & [= -> ->] & Hi). done.
Qed.

Lemma empty_stores id : Snapshot (h_store (mk id [])) = ∅.
Proof. apply Snapshot_New. Qed.

Lemma empty_owned : owned owner cl_empty.
Proof.
  split.
  - intros k E. pose proof (owner_node k) as Hin. rewrite E in Hin. unfold nodes in Hin.
    rewrite !elem_of_cons, elem_of_nil in Hin. by destruct Hin as [?|[?|[?|[]]]].
  - intros k. pose proof (owner_node k) as Hin. unfold nodes in Hin. rewrite !elem_of_cons, elem_of_nil in Hin.
    destruct Hin as [->|[->|[->|[]]]]; by eexists.
  - intros id nd k [_ ->]%empty_nodes. apply ring3_owner.
Qed.

(** The server of node a, and its commands on key "k". *)
Definition serving (cl : cluster) : Server := mkServer ":6379" "a" (Clustered (n_handler (node_of cl "a"))) 2 "" None.
Definition set_k (cl : cluster) : Entry * Store := SetFrom (store (serving cl)) "k" "v" "a".

Definition after_set (cl : cluster) : system :=
  mkSystem (update cl "a" (mkNode (with_store (n_handler (node_of cl "a")) (set_k cl).2) (n_calls (node_of cl "a"))) [])
    [("a", ("k", (set_k cl).1))].
Definition y1 : system := after_set cl_empty.
Definition y2 : system :=
  mkSystem (begin_write (y_cluster y1) "a" (node_of (y_cluster y1) "a") "id" all "k" (set_k cl_empty).1 2) [].
Definition y3 : system := mkSystem (deliver (y_cluster y2) "b") [].
Definition seen : Value := (handleGet (serving (y_cluster y3)) [NewBulkString "k"]).2.

Lemma node_of_some (cl : cluster) id : (if c_nodes cl !! id then true else false) = true →
  c_nodes cl !! id = Some (node_of cl id).
Proof. intros Hn. unfold node_of. by destruct (c_nodes cl !! id). Qed.

Definition none {A} (o : option A) : bool := if o then false else true.
Lemma none_eq {A} (o : option A) : none o = true → o = None.
Proof. by destruct o. Qed.

Lemma set_k_step cl todo : todo = [] → (if c_nodes cl !! "a" then true else false) = true →
  none (moved (serving cl) "k") = true → clock (store (serving cl)) + 1 ≤ maxInt64 →
  String.eqb (nodeID (serving cl)) "a" = true →
  ystep (mkSystem cl todo) (Some (OSet "k" "v")) (after_set cl).
Proof.
  intros -> Hn Hm%none_eq Hc Hid%String.eqb_eq.
  pose proof (y_set (mkSystem cl []) (serving cl) "a" (node_of cl "a") "k" "v" (node_of_some cl "a" Hn) eq_refl Hm Hc) as Hs.
  unfold after_set, set_k. rewrite Hid in Hs. by destruct (SetFrom _ "k" "v" "a").
Qed.

(** The write is on its way to the other replicas when a client reads. *)
Lemma seen_run : yrun (mkSystem cl_empty []) [OSet "k" "v"; OGet "k" seen] y3.
Proof.
  apply (yrun_cons _ _ y1).
  { apply set_k_step; [reflexivity|vm_compute; reflexivity..|apply Z.leb_le; vm_compute; reflexivity|vm_compute; reflexivity]. }
  apply (yrun_silent _ y2).
  { apply (y_replicate y1 "a" (node_of (y_cluster y1) "a") "id" all "k" (set_k cl_empty).1 2 [] []); [reflexivity| |].
    - apply node_of_some. vm_compute. reflexivity.
    - apply none_eq. vm_compute. reflexivity. }
  apply (yrun_silent _ y3).
  { apply (y_background y2). apply step_deliver; [apply node_of_some; vm_compute; reflexivity|].
    apply (bool_decide_eq_true_1 _). vm_compute. reflexivity. }
  apply (yrun_cons _ _ y3); [|apply yrun_nil].
  apply (y_get y3 (serving (y_cluster y3)) "a" (node_of (y_cluster y3) "a")); [|reflexivity|].
  - apply node_of_some. vm_compute. reflexivity.
  - apply none_eq. vm_compute. reflexivity.
Qed.

Lemma cluster_is_atomic_map_witness : ∃ db, arun ∅ [OSet "k" "v"; OGet "k" seen] db ∧ represents owner (y_cluster y3) db.
Proof.
  refine (cluster_is_atomic_map owner cl_empty ∅ [OSet "k" "v"; OGet "k" seen] y3 _ _ empty_owned _ _ seen_run).
  - split; [reflexivity|]. split; [reflexivity|]. split; [reflexivity|]. intros id nd [_ ->]%empty_nodes. done.
  - intros id nd [_ ->]%empty_nodes. by apply mk_inv.
  - intros k e (id & nd & [_ ->]%empty_nodes & He). cbn [n_handler] in He. rewrite empty_stores in He.
    by rewrite lookup_empty in He.
  - intros k. rewrite lookup_empty. unfold value_at. destruct (c_nodes cl_empty !! owner k) as [nd|] eqn:E; [|done].
    apply empty_nodes in E as [_ ->]. cbn [mbind option_bind n_handler]. by rewrite empty_stores, lookup_empty.
Defined.
End AtomicExamples.
