(* ===== verification/ClusterNodes.v ===== *)
(** * CLUSTER NODES as a client reads it

    The reply is a text: one line per node, fields separated by spaces, slot
    ranges at the end.  [parse_nodes] is a client's reader; the theorem says
    that it finds every slot exactly once, with the node that owns it. *)

From S2P Require Import Prelude GoStrconv GoSort GoUtf8 GoNet GoCrypto BTree Store StoreProps HashRing HashRingProps.
From S2P Require Import RingInterface EventRing Gossip Instances GossipProps Resp RespProps Server ServerProps ServerReplies.
Local Open Scope Z_scope.

(** ** The reader *)

(** [strings.Split] at a byte; [cur] is the part before. *)
Fixpoint split_on (c : ascii) (s cur : string) : list string :=
  match s with
  | EmptyString => [cur]
  | String x s' => if Ascii.eqb x c then cur :: split_on c s' "" else split_on c s' (cur +:+ String x "")
  end.

Record node_line := mkNodeLine {
  nl_id : string;
  nl_addr : string;
  nl_flags : string;
  nl_slots : list (Z * Z);
}.

(** A slot or a range of slots. *)
Definition parse_range (t : string) : Z * Z :=
  match cut_first "-" t with
  | Some (a, b) => ((Atoi a).1, (Atoi b).1)
  | None => ((Atoi t).1, (Atoi t).1)
  end.

Definition parse_line (l : string) : option node_line :=
  match split_on " " l "" with
  | id :: addr :: flags :: _ :: _ :: _ :: _ :: _ :: slots => Some (mkNodeLine id addr flags (parse_range <$> slots))
  | _ => None
  end.

Definition parse_nodes (text : string) : list node_line := omap parse_line (split_on LF text "").

Definition serves_slot (l : node_line) (slot : Z) : bool :=
  existsb (λ r, (r.1 <=? slot) && (slot <=? r.2)) (nl_slots l).

(** ** Splitting *)

Lemma split_on_app c a b cur : has_byte c a = false → split_on c (a +:+ b) cur = split_on c b (cur +:+ a).
Proof.
  revert cur. induction a as [|x a IH]; intros cur Ha; [by rewrite string_app_nil_r|].
  cbn [has_byte] in Ha. apply orb_false_elim in Ha as [Hx Ha]. rewrite app_cons. cbn [split_on].
  rewrite Hx, IH by done. by rewrite string_app_assoc.
Qed.

Lemma split_on_cons c a b : has_byte c a = false → split_on c (a +:+ String c b) "" = a :: split_on c b "".
Proof. intros Ha. rewrite split_on_app by done. cbn [split_on]. by rewrite Ascii.eqb_refl. Qed.

Lemma split_on_last c a : has_byte c a = false → split_on c a "" = [a].
Proof. intros Ha. rewrite <-(string_app_nil_r a) at 1. by rewrite split_on_app. Qed.

Lemma split_on_Join c ps : Forall (λ p, has_byte c p = false) ps → ps ≠ [] →
  split_on c (GoNet.Join ps (String c "")) "" = ps.
Proof.
  intros Hps Hne. induction Hps as [|p ps Hp Hps IH]; [done|]. destruct ps as [|q ps]; [by apply split_on_last|].
  change (GoNet.Join (p :: q :: ps) (String c "")) with (p +:+ String c (GoNet.Join (q :: ps) (String c ""))).
  rewrite split_on_cons by done. f_equal. by apply IH.
Qed.

(** The parts of a text have no bytes of their own. *)
Lemma cut_first_bytes c x s a b : cut_first c s = Some (a, b) → has_byte x s = false →
  has_byte x a = false ∧ has_byte x b = false.
Proof.
  revert a b. induction s as [|y s IH]; intros a b; [done|]. cbn [cut_first has_byte].
  destruct (Ascii.eqb y c); [by intros [= <- <-] [_ ?]%orb_false_elim|].
  destruct (cut_first c s) as [[a' b']|]; [|done]. intros [= <- <-] [Hy Hs]%orb_false_elim.
  destruct (IH a' b' eq_refl Hs) as [Ha Hb]. cbn [has_byte]. by rewrite Hy, Ha.
Qed.

Lemma cut_last_bytes c x s a b : cut_last c s = Some (a, b) → has_byte x s = false →
  has_byte x a = false ∧ has_byte x b = false.
Proof.
  revert a b. induction s as [|y s IH]; intros a b; [done|]. cbn [cut_last has_byte].
  destruct (cut_last c s) as [[a' b']|].
  - intros [= <- <-] [Hy Hs]%orb_false_elim. destruct (IH a' b' eq_refl Hs) as [Ha Hb]. cbn [has_byte]. by rewrite Hy, Ha.
  - destruct (Ascii.eqb y c); [|done]. by intros [= <- <-] [_ ?]%orb_false_elim.
Qed.

Lemma SplitHostPort_bytes x s host port : SplitHostPort s = Some (host, port) → has_byte x s = false →
  has_byte x host = false ∧ has_byte x port = false.
Proof.
  unfold SplitHostPort. destruct (cut_last ":" s) as [[before p]|] eqn:El; [|done]. intros E Hs.
  destruct (cut_last_bytes _ x _ _ _ El Hs) as [Hb Hp].
  assert (Hplain : (if has_byte ":" before || has_byte "[" s || has_byte "]" s then None else Some (before, p)) = Some (host, port) →
    has_byte x host = false ∧ has_byte x port = false).
  { destruct (_ || _); [done|]. by intros [= <- <-]. }
  destruct s as [|c rest]; [by apply Hplain|].
  destruct c as [[] [] [] [] [] [] [] []]; try (by apply Hplain). clear Hplain.
  cbn [has_byte] in Hs. apply orb_false_elim in Hs as [_ Hs].
  destruct (cut_first "]" rest) as [[h after]|] eqn:Ef; [|done].
  destruct (cut_first_bytes _ x _ _ _ Ef Hs) as [Hh _].
  repeat match type of E with
         | match ?t with _ => _ end = _ => destruct t; try done
         end; by injection E as <- <-.
Qed.

(** ** The lines *)

(** Neither a space nor a line feed. *)
Definition clean (s : string) : bool := negb (has_byte " " s) && negb (has_byte LF s).

Lemma clean_spec s : clean s = true ↔ has_byte " " s = false ∧ has_byte LF s = false.
Proof. unfold clean. by rewrite andb_true_iff, !negb_true_iff. Qed.

Lemma split_addr_clean a : clean a = true → clean (split_addr a).1 = true ∧ clean (split_addr a).2 = true.
Proof.
  intros Ha. unfold split_addr. destruct (SplitHostPort a) as [[host port]|] eqn:E.
  - apply clean_spec in Ha as [Hs Hl].
    destruct (SplitHostPort_bytes " " _ _ _ E Hs) as [H1 H2], (SplitHostPort_bytes LF _ _ _ E Hl) as [H3 H4].
    cbn [fst snd]. split; [|by apply clean_spec]. destruct (String.eqb host ""); [done|by apply clean_spec].
  - split; [done|exact Ha].
Qed.

Lemma slot_text_clean sr : 0 ≤ HashRing.Start sr ≤ End_ sr → clean (slot_text sr) = true.
Proof.
  intros Hs. unfold slot_text. destruct (_ =? _); apply clean_spec; rewrite ?has_byte_app;
    rewrite !has_byte_Itoa_pos by (done || lia); done.
Qed.

Lemma parse_slot_text sr : 0 ≤ HashRing.Start sr ≤ End_ sr → End_ sr < numSlots →
  parse_range (slot_text sr) = (HashRing.Start sr, End_ sr).
Proof.
  intros Hs He. unfold numSlots in He. unfold slot_text, parse_range.
  assert (Hr : ∀ n, 0 ≤ n < 16384 → Atoi (Itoa n) = (n, None)).
  { intros n Hn. apply Atoi_Itoa_id. unfold in_int64, minInt64, maxInt64. lia. }
  destruct (Z.eqb_spec (HashRing.Start sr) (End_ sr)) as [E|E].
  - rewrite cut_first_none by (apply has_byte_Itoa_pos; done || lia). rewrite Hr by lia. cbn. by rewrite <-E.
  - change (Itoa (HashRing.Start sr) +:+ "-" +:+ Itoa (End_ sr)) with (Itoa (HashRing.Start sr) +:+ String "-" (Itoa (End_ sr))).
    rewrite cut_first_app by (apply has_byte_Itoa_pos; done || lia). by rewrite !Hr by lia.
Qed.

Definition flags_of (self id : string) : string := if negb (String.eqb id self) then "master" else "myself,master".

(** The words of a line. *)
Definition line_words (self : string) (slots : list string) (sr : SlotRange) : list string :=
  let '(host, portStr) := split_addr (HashRing.Address (Node sr)) in
  [NodeID (Node sr); host +:+ ":" +:+ portStr; flags_of self (NodeID (Node sr)); "-"; "0"; "0"; "0"; "connected"] ++ slots.

Definition line_text (self : string) (slots : list string) (sr : SlotRange) : string :=
  GoNet.Join (line_words self slots sr) " ".

(** The first range of every node. *)
Fixpoint listed (ranges : list SlotRange) (seen : gset string) : list SlotRange :=
  match ranges with
  | [] => []
  | sr :: ranges' =>
      if bool_decide (NodeID (Node sr) ∈ seen) then listed ranges' seen
      else sr :: listed ranges' ({[NodeID (Node sr)]} ∪ seen)
  end.

Definition slots_of (ranges : list SlotRange) (id : string) : list SlotRange :=
  List.filter (λ sr, String.eqb (NodeID (Node sr)) id) ranges.

Lemma nodeSlots_of ranges id : default [] (nodeSlots ranges !! id) = slot_text <$> slots_of ranges id.
Proof.
  unfold nodeSlots. assert (Hgen : ∀ m : gmap string (list string),
    default [] (fold_left (λ m sr, <[NodeID (Node sr) := default [] (m !! NodeID (Node sr)) ++ [slot_text sr]]> m) ranges m !! id) =
    default [] (m !! id) ++ (slot_text <$> slots_of ranges id)); [|by rewrite (Hgen ∅), lookup_empty].
  induction ranges as [|sr ranges IH]; intros m; cbn [fold_left slots_of List.filter]; [by rewrite app_nil_r|].
  rewrite IH. destruct (String.eqb_spec (NodeID (Node sr)) id) as [<-|Hne].
  - rewrite lookup_insert_eq. cbn. by rewrite <-app_assoc.
  - by rewrite lookup_insert_ne.
Qed.

(** Lines, each ended by a line feed. *)
Fixpoint text_of (ls : list string) : string :=
  match ls with [] => "" | l :: ls' => l +:+ String LF (text_of ls') end.

Lemma split_text ls : Forall (λ l, has_byte LF l = false) ls → split_on LF (text_of ls) "" = ls ++ [""].
Proof. induction 1 as [|l ls Hl _ IH]; [done|]. cbn [text_of]. by rewrite split_on_cons, IH. Qed.

Lemma nodes_lines_text self slots ranges seen buf :
  (∀ sr, sr ∈ ranges → default [] (slots !! NodeID (Node sr)) ≠ []) →
  nodes_lines self slots ranges seen buf =
  buf +:+ text_of ((λ sr, line_text self (default [] (slots !! NodeID (Node sr))) sr) <$> listed ranges seen).
Proof.
  revert seen buf. induction ranges as [|sr ranges IH]; intros seen buf Hne; [by rewrite string_app_nil_r|].
  cbn [nodes_lines listed].
  assert (Hne' : ∀ sr, sr ∈ ranges → default [] (slots !! NodeID (Node sr)) ≠ []).
  { intros x Hx. apply Hne, elem_of_cons. by right. }
  destruct (bool_decide (NodeID (Node sr) ∈ seen)); [by apply IH|].
  pose proof (Hne sr ltac:(apply elem_of_cons; by left)) as Hs.
  cbn [fmap list_fmap text_of]. unfold line_text at 1, line_words at 1. fold (flags_of self (NodeID (Node sr))).
  destruct (split_addr (HashRing.Address (Node sr))) as [host port].
  rewrite IH by done. rewrite string_app_assoc. f_equal.
  destruct (default [] (slots !! NodeID (Node sr))) as [|x xs]; [done|].
  cbn [app GoNet.Join]. by rewrite !string_app_assoc.
Qed.

Lemma elem_of_listed ranges seen sr : sr ∈ listed ranges seen → sr ∈ ranges ∧ NodeID (Node sr) ∉ seen.
Proof.
  revert seen. induction ranges as [|x ranges IH]; intros seen; [by intros ?%elem_of_nil|]. cbn [listed].
  case_bool_decide as Hx; rewrite !elem_of_cons; [intros [? ?]%IH; auto|]. intros [->|[? ?]%IH]; [by auto|set_solver].
Qed.

Lemma listed_NoDup ranges seen : NoDup ((λ sr, NodeID (Node sr)) <$> listed ranges seen).
Proof.
  revert seen. induction ranges as [|x ranges IH]; intros seen; cbn [listed]; [constructor|].
  case_bool_decide; [apply IH|]. cbn. constructor; [|apply IH].
  intros (y & E & [_ Hy]%elem_of_listed)%list_elem_of_fmap. set_solver.
Qed.

Lemma listed_complete ranges seen sr : sr ∈ ranges → NodeID (Node sr) ∉ seen →
  ∃ sr', sr' ∈ listed ranges seen ∧ NodeID (Node sr') = NodeID (Node sr).
Proof.
  revert seen. induction ranges as [|x ranges IH]; intros seen; [by intros ?%elem_of_nil|]. cbn [listed].
  intros Hin Hs. case_bool_decide as Hx.
  - apply elem_of_cons in Hin as [->|Hin]; [done|]. by apply IH.
  - destruct (decide (NodeID (Node x) = NodeID (Node sr))) as [E|Hne].
    + exists x. split; [apply elem_of_cons; by left|done].
    + apply elem_of_cons in Hin as [->|Hin]; [done|].
      destruct (IH ({[NodeID (Node x)]} ∪ seen) Hin) as (y & Hy & E); [set_solver|].
      exists y. split; [apply elem_of_cons; by right|done].
Qed.

(** ** The property *)

Section properties.
Context `{!BTreeOps item, !BTreeLaws less, !Hashring, !HashringLaws, !Proto, !ProtoLaws,
          !SliceSort, !MapRange, !MapRangeLaws, !UnicodeTables, !XXHash}.

(** A line is read back. *)
Lemma parse_line_text self slots sr : clean (NodeID (Node sr)) = true → clean (HashRing.Address (Node sr)) = true →
  Forall (λ t, clean t = true) slots →
  has_byte LF (line_text self slots sr) = false ∧
  parse_line (line_text self slots sr) = Some (mkNodeLine (NodeID (Node sr))
    ((split_addr (HashRing.Address (Node sr))).1 +:+ ":" +:+ (split_addr (HashRing.Address (Node sr))).2)
    (flags_of self (NodeID (Node sr))) (parse_range <$> slots)).
Proof.
  intros Hid Ha Hs. destruct (split_addr_clean _ Ha) as [Hh Hp].
  assert (Hw : Forall (λ t, clean t = true) (line_words self slots sr)).
  { unfold line_words. destruct (split_addr (HashRing.Address (Node sr))) as [host port]. cbn [fst snd] in *.
    apply clean_spec in Hh as [Hh1 Hh2], Hp as [Hp1 Hp2].
    repeat apply Forall_cons_2; try done; [|by unfold flags_of; case_match].
    apply clean_spec. by rewrite !has_byte_app, Hh1, Hh2, Hp1, Hp2. }
  split.
  - unfold line_text. clear -Hw. induction Hw as [|w ws Hw Hws IH]; [done|]. apply clean_spec in Hw as [_ Hw].
    destruct ws as [|v ws]; [done|].
    change (GoNet.Join (w :: v :: ws) " ") with (w +:+ " " +:+ GoNet.Join (v :: ws) " ").
    by rewrite !has_byte_app, Hw, IH.
  - unfold parse_line, line_text. rewrite split_on_Join.
    + unfold line_words. by destruct (split_addr (HashRing.Address (Node sr))).
    + eapply Forall_impl; [exact Hw|]. intros t [? _]%clean_spec. done.
    + unfold line_words. by destruct (split_addr (HashRing.Address (Node sr))).
Qed.

(** What the reader makes of the reply. *)
Definition read_line (self : string) (ranges : list SlotRange) (sr : SlotRange) : node_line :=
  mkNodeLine (NodeID (Node sr))
    ((split_addr (HashRing.Address (Node sr))).1 +:+ ":" +:+ (split_addr (HashRing.Address (Node sr))).2)
    (flags_of self (NodeID (Node sr)))
    ((λ r, (HashRing.Start r, End_ r)) <$> slots_of ranges (NodeID (Node sr))).

Lemma parse_nodes_text self ranges :
  (∀ sr, sr ∈ ranges → clean (NodeID (Node sr)) = true ∧ clean (HashRing.Address (Node sr)) = true) →
  (∀ sr, sr ∈ ranges → 0 ≤ HashRing.Start sr ≤ End_ sr ∧ End_ sr < numSlots) →
  parse_nodes (nodes_lines self (nodeSlots ranges) ranges ∅ "") = read_line self ranges <$> listed ranges ∅.
Proof.
  intros Hclean Hrange.
  assert (Hslots : ∀ id r, r ∈ slots_of ranges id → r ∈ ranges ∧ NodeID (Node r) = id).
  { intros id r [? ?%String.eqb_eq]%elem_of_list_filter_bool. done. }
  assert (Hline : ∀ sr, sr ∈ ranges →
    has_byte LF (line_text self (slot_text <$> slots_of ranges (NodeID (Node sr))) sr) = false ∧
    parse_line (line_text self (slot_text <$> slots_of ranges (NodeID (Node sr))) sr) = Some (read_line self ranges sr)).
  { intros sr Hsr. destruct (Hclean sr Hsr) as [Ea Eb].
    destruct (parse_line_text self (slot_text <$> slots_of ranges (NodeID (Node sr))) sr Ea Eb) as [Ha Hb].
    - apply Forall_fmap, Forall_forall. intros r [Hr _]%Hslots. by apply slot_text_clean, Hrange.
    - split; [done|]. rewrite Hb. unfold read_line. do 2 f_equal. rewrite <-list_fmap_compose.
      apply list_fmap_ext. intros n r Hr. apply list_elem_of_lookup_2, Hslots in Hr as [Hr _].
      by apply parse_slot_text; apply Hrange. }
  rewrite nodes_lines_text.
  - change ("" +:+ ?x) with x. unfold parse_nodes. rewrite split_text.
    + rewrite omap_app. cbn. rewrite app_nil_r. 
      assert (Hsub : ∀ sr, sr ∈ listed ranges ∅ → sr ∈ ranges) by (by intros sr [? _]%elem_of_listed).
      induction (listed ranges ∅) as [|sr l IH]; [done|]. cbn. rewrite nodeSlots_of.
      rewrite (proj2 (Hline sr (Hsub sr ltac:(apply elem_of_cons; by left)))). f_equal. apply IH.
      intros x Hx. apply Hsub, elem_of_cons. by right.
    + apply Forall_fmap, Forall_forall. intros sr [Hsr _]%elem_of_listed. cbn. rewrite nodeSlots_of. by apply Hline.
  - intros sr Hsr. rewrite nodeSlots_of. intros E%fmap_nil_inv.
    assert (Hin : sr ∈ slots_of ranges (NodeID (Node sr))) by (apply elem_of_list_filter_bool; split; [done|apply String.eqb_refl]).
    rewrite E in Hin. by apply elem_of_nil in Hin.
Qed.

(** C16: CLUSTER NODES can be read back.  When names and addresses have no
    spaces or line feeds, a client that splits the reply into lines and words
    finds every one of the 16384 slots on exactly one line, the line of the
    node the ring gives the slot to, which is marked as the answering node
    exactly when it is. *)
Theorem cluster_nodes_complete s text : server_inv s → handleClusterNodes s = NewBulkString text →
  (∀ sr, sr ∈ ring_GetSlotRanges (ring s) → clean (NodeID (Node sr)) = true ∧ clean (HashRing.Address (Node sr)) = true) →
  ∀ slot, 0 ≤ slot < 16384 →
  let '(owner, address) := ring_GetNode (ring s) ("SLOT:" +:+ Itoa slot) in
  ∃ i l, parse_nodes text !! i = Some l ∧ serves_slot l slot = true ∧ nl_id l = owner ∧
    (nl_flags l = "myself,master" ↔ owner = nodeID s) ∧
    ∀ j l', parse_nodes text !! j = Some l' → serves_slot l' slot = true → j = i.
Proof.
  intros Hs Ht Hclean slot Hslot. pose proof (slots_tile (ring s) (si_ring _ Hs)) as Htiles. unfold handleClusterNodes in Ht.
  set (ranges := ring_GetSlotRanges (ring s)) in *. assert (Hne : ranges ≠ []) by (intros E; by rewrite E in Ht).
  specialize (Htiles Hne). assert (text = nodes_lines (nodeID s) (nodeSlots ranges) ranges ∅ "") as ->.
  { destruct ranges; [done|]. by injection Ht. }
  rewrite parse_nodes_text; [|done|].
  2: { intros sr (n & Hn)%list_elem_of_lookup. pose proof (tiles_bounds _ _ _ _ Htiles n sr Hn). lia. }
  destruct (tiles_cover _ _ _ _ Htiles slot Hslot) as (n & r & Hr & Hin & Hown & Huniq).
  destruct (ring_GetNode (ring s) ("SLOT:" +:+ Itoa slot)) as [owner address].
  assert (Hid : NodeID (Node r) = owner) by (by rewrite <-Hown).
  assert (Hserve : ∀ sr, serves_slot (read_line (nodeID s) ranges sr) slot = true ↔ NodeID (Node sr) = owner).
  { intros sr. unfold serves_slot. cbn [nl_slots read_line]. rewrite existsb_exists. split.
    - intros (x & Hx%list_elem_of_In & Hb). apply list_elem_of_fmap in Hx as (r' & -> & [Hr' E]%elem_of_list_filter_bool).
      apply String.eqb_eq in E. apply andb_prop in Hb as [Ea%Z.leb_le Eb%Z.leb_le]. cbn [fst snd] in *.
      apply list_elem_of_lookup in Hr' as (m & Hm). pose proof (Huniq m r' Hm (conj Ea Eb)) as ->. congruence.
    - intros E. exists (HashRing.Start r, End_ r). split.
      + apply list_elem_of_In, list_elem_of_fmap. exists r. split; [done|]. apply elem_of_list_filter_bool.
        split; [by eapply list_elem_of_lookup_2|]. apply String.eqb_eq. congruence.
      + cbn. apply andb_true_iff. split; apply Z.leb_le; lia. }
  destruct (listed_complete ranges ∅ r) as (sr & Hsr & E); [by eapply list_elem_of_lookup_2|set_solver|].
  apply list_elem_of_lookup in Hsr as (i & Hi). exists i, (read_line (nodeID s) ranges sr).
  rewrite list_lookup_fmap, Hi. split; [done|]. split; [apply Hserve; congruence|]. split; [cbn; congruence|]. split.
  - cbn [nl_flags read_line]. unfold flags_of. rewrite E, Hid. destruct (String.eqb_spec owner (nodeID s)); cbn; by split.
  - intros j l'. rewrite list_lookup_fmap. destruct (listed ranges ∅ !! j) as [sr'|] eqn:Hj; [|done].
    intros [= <-] Hsv%Hserve. apply (NoDup_lookup _ j i owner (listed_NoDup ranges ∅)); rewrite list_lookup_fmap;
      [by rewrite Hj; cbn; rewrite Hsv|rewrite Hi; cbn; congruence].
Qed.
End properties.

Module NodesExamples.
#[local] Existing Instances SortedList.ops SortedList_laws MergeSort MergeSort_laws.
#[local] Existing Instances demo_proto demo_proto_laws demo_range demo_range_laws demo_ring demo_ring_laws demo_xxhash.
Import GossipExamples ServerExamples ReplyExamples.

Example parse_nodes_example :
  parse_nodes (nodes_lines "a" (nodeSlots [mkSlotRange 0 5 (mkReplica "a" "1.1.1.1:1"); mkSlotRange 6 6 (mkReplica "b" ":2");
    mkSlotRange 7 9 (mkReplica "a" "1.1.1.1:1")]) [mkSlotRange 0 5 (mkReplica "a" "1.1.1.1:1"); mkSlotRange 6 6 (mkReplica "b" ":2");
    mkSlotRange 7 9 (mkReplica "a" "1.1.1.1:1")] ∅ "")
  = [mkNodeLine "a" "1.1.1.1:1" "myself,master" [(0, 5); (7, 9)]; mkNodeLine "b" "127.0.0.1:2" "master" [(6, 6)]].
Proof. vm_compute. reflexivity. Qed.

Lemma tiles_owner owner lo rs hi r : tiles owner lo rs hi → r ∈ rs → owner (HashRing.Start r) = Node r.
Proof.
  revert lo. induction rs as [|x rs IH]; intros lo; [by intros _ ?%elem_of_nil|]. cbn.
  intros (Hs & Hle & Ho & Ht) [->|Hin]%elem_of_cons; [|by apply (IH (End_ x + 1))]. apply Ho. lia.
Qed.

(** A name with a space and a line feed forges the line of another node, which
    claims all slots. *)
Definition forger : Replica :=
  mkReplica ("b 9.9.9.9:1 master - 0 0 0 connected 0-16383" +:+ String LF "x") "1.1.1.1:1".

Lemma name_forges_line :
  parse_nodes (nodes_lines "a" (nodeSlots [mkSlotRange 0 16383 forger]) [mkSlotRange 0 16383 forger] ∅ "")
  = [mkNodeLine "b" "9.9.9.9:1" "master" [(0, 16383)]; mkNodeLine "x" "1.1.1.1:1" "master" [(0, 16383)]].
Proof. vm_compute. reflexivity. Qed.

(** In a ring of one node every key has the same owner. *)
Lemma one_owner k : ring_GetNode (ring_one : @Ring demo_ring) k = ("a", "10.0.0.1:6379").
Proof.
  destruct (si_ring _ srv_one_inv) as [M Hr]. cbn [ring srv_one backend] in Hr.
  cbn [ring_GetNode demo_ring consistent]. rewrite GetNode_successor by exact (repr_sorted _ _ Hr).
  assert (Hall : forallb (λ e, String.eqb (HashRing.nodeID e) "a" && String.eqb (address e) "10.0.0.1:6379") (entries ring_one) = true)
    by (vm_compute; reflexivity).
  assert (Hne : match entries ring_one with [] => false | _ => true end = true) by (vm_compute; reflexivity).
  revert Hall Hne. generalize (entries ring_one). intros es Hall Hne.
  destruct (successor es (hashKey k)) as [e|] eqn:E.
  - apply successor_elem, list_elem_of_In in E. rewrite forallb_forall in Hall.
    apply Hall, andb_prop in E as [->%String.eqb_eq ->%String.eqb_eq]. reflexivity.
  - exfalso. unfold successor in E. destruct (List.find _ _); [done|]. by destruct es.
Qed.

Definition one_text : string :=
  nodes_lines "a" (nodeSlots (ring_GetSlotRanges ring_one)) (ring_GetSlotRanges ring_one) ∅ "".

Lemma one_ranges : ring_GetSlotRanges ring_one ≠ [].
Proof.
  apply (consistent_slots_nonempty ring_one). intros E.
  assert (Hb : match entries ring_one with [] => false | _ => true end = true) by (vm_compute; reflexivity).
  rewrite E in Hb. discriminate Hb.
Qed.

Lemma one_reply : handleClusterNodes srv_one = NewBulkString one_text.
Proof.
  unfold handleClusterNodes, one_text. pose proof one_ranges as Hne. change (ring srv_one) with ring_one.
  change (nodeID srv_one) with "a". revert Hne. generalize (ring_GetSlotRanges ring_one). intros rs Hne. by destruct rs.
Qed.

Lemma cluster_nodes_complete_witness : ∃ i l, parse_nodes one_text !! i = Some l ∧ serves_slot l 777 = true ∧ nl_id l = "a".
Proof.
  pose proof (cluster_nodes_complete srv_one one_text srv_one_inv one_reply) as H.
  assert (Hc : ∀ sr, sr ∈ ring_GetSlotRanges (ring srv_one) → clean (NodeID (Node sr)) = true ∧ clean (HashRing.Address (Node sr)) = true).
  { intros sr Hsr. pose proof (slots_tile (ring srv_one) (si_ring _ srv_one_inv) one_ranges) as Ht.
    apply (tiles_owner _ _ _ _ sr Ht) in Hsr. change (ring srv_one) with ring_one in Hsr. rewrite one_owner in Hsr.
    rewrite <-Hsr. exact (conj eq_refl eq_refl). }
  specialize (H Hc 777 ltac:(lia)). change (ring srv_one) with ring_one in H. rewrite one_owner in H.
  destruct H as (i & l & Hi & Hl & Hid & _). exists i, l. split; [exact Hi|]. split; [exact Hl|exact Hid].
Defined.
End NodesExamples.
