(* ===== verification/Durability.v ===== *)
(** * Durability: an acknowledged write outlives its failed nodes

    The composition of [Cluster] (quorum writes, an unreliable network and
    membership changes), [Convergence] (anti-entropy) and the server.  A write
    with write concern [w] is acknowledged; fewer than [w] nodes fail for good;
    the others go on with whatever rings the membership callbacks have left
    them.  Then anti-entropy brings the write to the nodes that are replicas of
    its key in the new rings, and these answer for it. *)

From S2P Require Import Prelude GoStrconv GoSort GoUtf8 GoNet GoCrypto BTree Store StoreProps HashRing HashRingProps.
From S2P Require Import RingInterface EventRing Gossip Instances GossipProps Cluster Resp RespProps Server ServerProps.
From S2P Require Import Convergence Failover.
Local Open Scope Z_scope.

(** ** The nodes that stay *)

Section model.
Context `{!BTreeOps item, !Hashring, !Proto, !SliceSort, !MapRange}.

(** The handlers of a cluster without the nodes [gone]. *)
Definition survivors (cl : cluster) (gone : gset string) : gmap string Handler :=
  n_handler <$> filter (λ kv, kv.1 ∉ gone) (c_nodes cl).

(** The reply to GET of a key whose entry is [e]. *)
Definition reply_of (e : Entry) : Value := if Deleted e then NullBulkString else NewBulkString (Store.Value e).

(** All replicas of the key hold one entry, the write or a newer one, and every
    server whose node owns the key answers from it. *)
Definition serves_write (st : quiet) (key : string) (entry : Entry) : Prop :=
  ∃ e, newer entry e = false ∧
    ∀ j h, q_nodes st !! j = Some h →
      (isReplica h key = true → Snapshot (h_store h) !! key = Some e) ∧
      ∀ s, backend s = Clustered h → 0 < cfg_ReplicaRF (cfg h) → j ≠ "" →
        (ring_GetNode (h_ring h) key).1 = j → handleGet s [NewBulkString key] = (s, reply_of e).
End model.

Section durability.
Context `{!BTreeOps item, !BTreeLaws less, !Hashring, !HashringLaws, !Proto, !ProtoLaws,
          !SliceSort, !SliceSortLaws, !MapRange, !MapRangeLaws, !UnicodeTables, !XXHash}.

Lemma survivors_Some cl gone i h : survivors cl gone !! i = Some h ↔
  ∃ nd, c_nodes cl !! i = Some nd ∧ i ∉ gone ∧ h = n_handler nd.
Proof.
  unfold survivors. rewrite lookup_fmap_Some. setoid_rewrite map_lookup_filter_Some. naive_solver.
Qed.

(** The owner of a key is one of its replicas. *)
Lemma owner_replica (h : Handler) key : ring_ok (h_ring h) → 0 < cfg_ReplicaRF (cfg h) → localID h ≠ "" →
  (ring_GetNode (h_ring h) key).1 = localID h → isReplica h key = true.
Proof.
  intros Hok Hrf Hne Hown. unfold isReplica, NodeID_.
  destruct (ring_GetReplicas (h_ring h) key (cfg_ReplicaRF (cfg h))) as [|rep reps] eqn:E.
  - rewrite (replicas_empty _ _ _ Hok Hrf E) in Hown. by destruct Hne.
  - rewrite (replicas_owner _ _ _ rep Hok Hrf) in Hown by (by rewrite E). cbn [fst] in Hown.
    cbn [existsb]. by rewrite Hown, String.eqb_refl.
Qed.

(** Of [w] holders one stays when fewer than [w] nodes are gone. *)
Lemma holder_stays cl wr w (gone : gset string) : cluster_inv cl → (wr, w) ∈ c_done cl → Z.of_nat (size gone) < w →
  ∃ e, held (survivors cl gone) (wr_key wr) e ∧ newer (wr_entry wr) e = false.
Proof.
  intros Hcl Hd Hlt. destruct (ci_done _ Hcl _ _ Hd) as (S & _ & Hw & Hall).
  assert (Hx : ∃ m, m ∈ S ∖ gone).
  { apply set_choose. intros E. assert (Hsub : S ⊆ gone) by (intros x Hx; destruct (decide (x ∈ gone)); set_solver).
    apply subseteq_size in Hsub. lia. }
  destruct Hx as (m & [Hm Hg]%elem_of_difference). destruct (Hall m Hm) as (nd & Hnd & e & He & Hn).
  exists e. split; [|done]. exists m, (n_handler nd). split; [|done]. apply survivors_Some. by exists nd.
Qed.

(** Whatever the survivors held, a state in which it has spread serves it. *)
Lemma spread_serves nodes0 st key entry e0 : quiet_inv nodes0 st → spread nodes0 st key →
  (∀ i h, nodes0 !! i = Some h → localID h = i) →
  held nodes0 key e0 → newer entry e0 = false → serves_write st key entry.
Proof.
  intros Hq Hs Hid Hheld Hn.
  assert (Hone : ∃ e, newer entry e = false ∧ ∀ j h, q_nodes st !! j = Some h → isReplica h key = true →
    Snapshot (h_store h) !! key = Some e).
  { destruct (decide (map_Exists (λ _ h, isReplica h key = true) (q_nodes st))) as [(i & g & Hi & Hg)|Hno].
    - destruct (spread_covers _ _ _ _ _ _ Hq Hs Hi Hg Hheld) as (e & He & Hle). exists e.
      split; [by eapply newer_false_trans|]. intros j h Hj Hr. rewrite <-He. by apply (spread_agree nodes0 st key j i).
    - exists entry. split; [apply newer_irrefl|]. intros j h Hj Hr. destruct Hno. by exists j, h. }
  destruct Hone as (e & Hle & Hall). exists e. split; [done|]. intros j h Hj. split; [by apply (Hall j)|].
  intros s Hb Hrf Hne Hown. destruct (qi_node _ _ Hq j h Hj) as (Hinv & h0 & Hh0 & _ & (_ & Hloc & _)).
  rewrite (Hid j h0 Hh0) in Hloc. rewrite handleGet_owned.
  - unfold store. rewrite Hb. rewrite (Hall j h Hj); [done|]. apply owner_replica; [apply Hinv|done|congruence|congruence].
  - unfold store. rewrite Hb. apply Hinv.
  - unfold moved, ring, nodeID, NodeID_. rewrite Hb. destruct (ring_GetNode (h_ring h) key) as [o a]. cbn [fst] in Hown.
    subst o. by rewrite Hloc, String.eqb_refl, andb_false_r.
Qed.

(** C3: An acknowledged write outlives fewer failures than its write concern.
    In every execution of a cluster over an unreliable network, with
    membership changes and concurrent writes: if a write was reported
    successful with write concern [w] and then fewer than [w] nodes fail for
    good, whatever rings the other nodes have by then, under every schedule of
    their exchanges that brings the states of the key's holders to its
    replicas, and in particular after one sweep of their anti-entropy loops
    when they know each other and their texts are UTF-8, all the key's replicas
    hold one entry, the write or a newer one, and every server whose node owns
    the key answers GET from it.  The exchanges start with nothing in flight:
    packets sent before are taken as lost. *)
Theorem acknowledged_write_survives cl0 cl cl' wr w (gone : gset string) : initial cl0 →
  (∀ id nd, c_nodes cl0 !! id = Some nd → handler_inv (n_handler nd)) →
  reachable_from cl0 cl → (wr, w) ∈ c_done cl → rtc cstep cl cl' → Z.of_nat (size gone) < w →
  let nodes0 := survivors cl' gone in
  (∀ st, rtc qstep (starting nodes0) st → spread nodes0 st (wr_key wr) → serves_write st (wr_key wr) (wr_entry wr)) ∧
  ∀ members, (∀ i, is_Some (nodes0 !! i) → i ∈ mi_Name <$> members) →
    (∀ k e, held nodes0 k e → entry_utf8 (to_pb k e) = true) →
    serves_write (sweep members (starting nodes0)) (wr_key wr) (wr_entry wr).
Proof.
  intros Hinit Hh Hr Hd Hr' Hlt nodes0.
  assert (Hcl : cluster_inv cl').
  { apply (reachable_inv cl0); [by apply initial_inv|]. unfold reachable_from in *. by etransitivity. }
  apply (done_mono _ _ Hr') in Hd. destruct (holder_stays cl' wr w gone Hcl Hd Hlt) as (e & Hheld & Hn).
  assert (Hnode : ∀ i h, nodes0 !! i = Some h → handler_inv h ∧ localID h = i).
  { intros i h (nd & Hnd & _ & ->)%survivors_Some. by destruct (ci_node _ Hcl _ _ Hnd). }
  assert (Hserve : ∀ st, quiet_inv nodes0 st → spread nodes0 st (wr_key wr) → serves_write st (wr_key wr) (wr_entry wr)).
  { intros st Hq Hs. eapply spread_serves; [done|done| |done|done]. by intros i h [_ ?]%Hnode. }
  split.
  - intros st Hst. apply Hserve. apply (quiet_reachable_inv nodes0 (starting nodes0)); [done|].
    apply starting_inv. by intros i h [? _]%Hnode.
  - intros members Hmem Hutf. destruct (sweep_spreads members nodes0 (wr_key wr)) as (_ & Hq & Hs); [|done|by apply Hserve].
    split; [by intros i h [? _]%Hnode|]. intros i h Hi. split; [by apply Hnode|apply Hmem; by exists h].
Qed.
End durability.

(** ** A concrete run *)

Module DurabilityExamples.
#[local] Existing Instances SortedList.ops SortedList_laws MergeSort MergeSort_laws.
#[local] Existing Instances demo_proto demo_proto_laws demo_range demo_range_laws demo_ring demo_ring_laws.
#[local] Existing Instance demo_xxhash.
Import GossipExamples ClusterExamples FailoverExamples.

(** Node a writes with concern 2, b acknowledges, the packet to c is lost. *)
Definition d1 : cluster := begin_write three "a" (mkNode ha ∅) "id" all "k" e2 2.
Definition d2 : cluster := deliver d1 "b".
Definition d3 : cluster := deliver d2 "a".
Definition d4 : cluster := take_ack d3.

(** A node notices that node a has left. *)
Definition leave_a (cl : cluster) (id : string) : Handler :=
  default ha (handleLeave (n_handler (node_of cl id)) 7 "a").
Definition noticed (cl : cluster) (id : string) : cluster :=
  update cl id (mkNode (leave_a cl id) (n_calls (node_of cl id))) [].
Definition d5 : cluster := noticed d4 "b".
Definition d6 : cluster := noticed d5 "c".

Lemma noticed_step cl id : (if c_nodes cl !! id then true else false) = true →
  (if handleLeave (n_handler (node_of cl id)) 7 "a" then true else false) = true → cstep cl (noticed cl id).
Proof.
  intros Hn Hl. apply (step_member cl id (node_of cl id) (leave_a cl id) 7 "a" "").
  - by apply some_default.
  - right. left. by apply some_default.
Qed.

Lemma lossy_run : rtc cstep three d4.
Proof.
  apply (rtc_l _ _ d1).
  { apply (step_write three "a" (mkNode ha ∅)); [reflexivity|reflexivity|by vm_compute]. }
  apply (rtc_l _ _ d2); [apply deliver_step; vm_compute; reflexivity|].
  apply (rtc_l _ _ d3); [apply deliver_step; vm_compute; reflexivity|].
  apply (rtc_l _ _ d4); [apply take_ack_step; vm_compute; reflexivity|]. apply rtc_refl.
Qed.

Lemma noticed_run : rtc cstep d4 d6.
Proof.
  apply (rtc_l _ _ d5); [apply noticed_step; vm_compute; reflexivity|].
  apply (rtc_l _ _ d6); [apply noticed_step; vm_compute; reflexivity|]. apply rtc_refl.
Qed.

Definition left_over : gmap string Handler := survivors d6 {["a"]}.
Definition members_bc : list MemberInfo := [mkMemberInfo "b" "" "" "alive"; mkMemberInfo "c" "" "" "alive"].

(** A test of all entries of the survivors, and the facts it decides. *)
Definition entries_utf8 (nodes : gmap string Handler) : bool :=
  forallb (λ ih, forallb (λ ke, entry_utf8 (to_pb ke.1 ke.2)) (map_to_list (Snapshot (h_store ih.2)))) (map_to_list nodes).

Lemma entries_utf8_held nodes k e : entries_utf8 nodes = true → held nodes k e → entry_utf8 (to_pb k e) = true.
Proof.
  unfold entries_utf8. intros Hall (i & h & Hi & Hk). rewrite forallb_forall in Hall.
  specialize (Hall (i, h) ltac:(by apply list_elem_of_In, elem_of_map_to_list)). rewrite forallb_forall in Hall.
  apply (Hall (k, e)), list_elem_of_In, elem_of_map_to_list, Hk.
Qed.

Definition known_to (members : list MemberInfo) (nodes : gmap string Handler) : bool :=
  forallb (λ ih, bool_decide (ih.1 ∈ mi_Name <$> members)) (map_to_list nodes).

Lemma known_to_elem members nodes i : known_to members nodes = true → is_Some (nodes !! i) → i ∈ mi_Name <$> members.
Proof.
  unfold known_to. rewrite forallb_forall. intros Hall [h Hi]. apply (bool_decide_eq_true_1 _).
  apply (Hall (i, h)), list_elem_of_In, elem_of_map_to_list, Hi.
Qed.

(** Before the sweep c does not have the write; after it the survivors serve it. *)
Lemma acknowledged_write_survives_witness :
  match left_over !! "c" with Some h => Store.Value <$> Snapshot (h_store h) !! "k" | None => Some "" end = None ∧
  serves_write (sweep members_bc (starting left_over)) "k" e2.
Proof.
  split; [vm_compute; reflexivity|].
  refine (proj2 (acknowledged_write_survives three d4 d6 wr 2 {["a"]} (proj1 three_initial) (proj2 three_initial)
    lossy_run _ noticed_run _) members_bc _ _).
  - assert (c_done d4 = [(wr, 2)]) as -> by (vm_compute; reflexivity). apply list_elem_of_singleton. reflexivity.
  - rewrite size_singleton. lia.
  - intros i. apply known_to_elem. vm_compute. reflexivity.
  - intros k e. apply entries_utf8_held. vm_compute. reflexivity.
Defined.
End DurabilityExamples.
